(* ===== verification/_CoqProject ===== *)
-Q . S2P
Prelude.v
Sequencer.v
Props.v
LogEntry.v
DurLogFlat.v
FlatRing.v
FlatGC.v
FlatRead.v
DlTransport.v
FlatCli.v
ConcAppend.v
ConcInv.v
ConcRun.v
ConcFetch.v
Replica.v
Links.v
ShardServer.v
ShardRepr.v
NaiveBackend.v
StorageLog.v
KafkaBackend.v
BackendBench.v
ShardRecovery.v
ShardBatch.v
ShardUnopt.v
ShardUnoptSim.v
ConsLog.v
ConsOrder.v
System.v
Pipeline.v
PipelineOrder.v
Startup.v
Lifecycle.v
Servers.v
SystemView.v
Client.v
ClientAppend.v
ClientQuorum.v
RateLimit.v
DurLogBase.v
KV.v
KVRun.v
Corfu.v
CorfuRepr.v
CorfuLog.v
CorfuStart.v
BasicClient.v
AtomicLog.v
History.v
