(* ===== verification/Prelude.v ===== *)
(** * A verification of LazyLog

    LazyLog is a distributed shared log.  This library models the program as Rocq
    definitions that can be evaluated and proves what its parts promise, up to the
    statement that the histories which the test client records over the running system are
    those of an atomic log.

    ** The program and how its parts interact

    - The _durability log_ (src/dur_log) is a set of replicas.  Each keeps its entries in
      a ring buffer in memory that is registered for RDMA, in the order in which they
      arrive; the order of the _primary_ is the one that counts.
    - A _client_ (src/client) appends an entry by sending it to all replicas by RPC
      (eRPC).  The append is done when all have answered; it has no index yet.
    - The _consensus log_ (src/cons_log) repeats a round: it reads the entries that wait
      in the ring of the primary by RDMA, stores them on the shards, has every replica
      collect them (the primary by an RDMA write of its watermarks, the backups by an RPC
      that names the greatest sequence number per client), waits until all have done so,
      and publishes the new end of the log to the shards.  In the pipelined mode one
      thread fetches while another stores.
    - The _shards_ (src/cons_log/storage) keep the entries, striped by index, in memory
      and in one file per stripe unit, each shard with its backups.  They serve reads,
      which wait until the index is stored and published.  There is a second server, which
      keeps offsets into the files instead of the entries, and a backend for Kafka.
    - In the build with [CORFU] the primary of the durability log only hands out positions,
      and the clients write their entries to the shards.
    - A _key-value store_ (src/app) uses the log as its sequence of operations; the _test
      client_ (src/client/basic_client.cc) records a history of appends and reads.

    ** The files

    Paths are relative to src/src.  A definition has the name of the function it models,
    prefixed where a name would clash; parts of a function that are separate definitions
    are named after what they do.

    - [Prelude]: machine integers, byte buffers with checked access, the monad [outcome],
      tactics, the hint database [lazylog], lemmas on lists and memory.
    - [Sequencer]: utils/sequencer.cc, rpc/rpc_token.cc.  [Props]: utils/properties.cc,
      utils/properties.h, utils/utils.h.  [RateLimit]: utils/ratelimit.h.
    - [LogEntry]: rpc/log_entry.cc, the entry and all its encoders and decoders.
    - [DurLogFlat]: dur_log/dur_log_flat.cc.  The state [FlatLog] is the memory region with
      the members of the class; [AppendEntry] is composed of [append_reserve] (the
      critical section), [append_write], [append_flag], [append_wrap] and [append_map].
      [FlatRing], [FlatGC] and [FlatRead] prove what it does: [flat_repr st hist k] relates
      the bytes of the region to the list of all entries and the number of collected ones.
    - [ConcAppend]: the same [AppendEntry] on several server threads, whose phases are
      interleaved; [ConcInv] and [ConcRun] are its invariant and runs, [ConcFetch] is a
      fetch by RDMA in the middle of it.
    - [DlTransport]: dur_log/erpc_dl_transport.cc (the request handlers, [dl_handle]) and
      dur_log/dur_log_erpc_cli.cc (the calls, [cli_AppendEntry] etc.).
    - [FlatCli]: dur_log/dur_log_flat_cli.cc, fetching and collecting by RDMA.
    - [Replica]: the invariant of a replica in service.  [Links]: a set of connections to
      replicas, to which requests of other clients arrive; the class [Replicated] is the
      interface that the connections of the consensus log and of the client implement.
    - [ShardServer]: cons_log/storage/shard_server.cc; the open files and the file system
      are the record [Os].  [ShardRepr] relates the caches and files of a shard to the list
      of its entries, [ShardRecovery] is about a restart, [ShardBatch] about the handler
      that reads a range.
    - [ShardUnopt]: cons_log/storage/shard_server_wo_opt.cc; [ShardUnoptSim] is a simulation
      between the two servers.
    - [NaiveBackend]: cons_log/storage/naive_backend.cc and shard_client.cc; [StorageLog]
      relates all shards to one log ([store_repr]).  [KafkaBackend]:
      cons_log/storage/kafka_backend.cc.  [BackendBench]: cons_log/storage/basic_backend.cc
      and basic_backend_read.cc.
    - [ConsLog]: cons_log/cons_log.cc; [ConsOrder] follows a round through its phases
      ([cons_repr] is the invariant of the whole system), [System] states the theorems
      about runs of the system, by induction on the step relation [step].  [Pipeline] is
      the pipelined mode, step by step in its two threads, and [PipelineOrder] its
      invariant [pipe_inv].
    - [Startup]: how replicas, shards, the consensus log and clients are set up from their
      configurations.  [Lifecycle]: the eRPC objects of a process from [InitializeConn] to
      [Finalize].  [Servers]: rpc/rpc_factory.cc, the requests that a server has handlers
      for, its threads, cons_log/erpc_cl_transport.cc and cons_log/cons_log_erpc_cli.cc.
    - [SystemView]: the started system as its clients see it ([sys_inv]).
    - [Client]: client/lazylog_cli.cc; [ClientAppend] and [ClientQuorum]: appends are
      durable, client ids.
    - [DurLogBase]: dur_log/dur_log.cc, dur_log_mock.cc.
    - [KV]: app/ll_kv.cc, against the class [LogReader], of which the client is an instance;
      [KVRun]: its threads over the whole system.
    - [Corfu]: the parts of the files above that are compiled with [CORFU]; [CorfuRepr]
      and [CorfuLog] relate the storage to a map from positions to entries, [CorfuStart] is
      the start-up.
    - [BasicClient]: client/basic_client.cc; [AtomicLog]: the abstract log and what its
      histories are; [History]: the client over the system refines it.

    ** How the code is modelled

    An unsigned integer is a [Z] with its conversions written out ([u32], [u64]).  A
    pointer is a [buffer] and an offset, and an access outside the buffer is [None].  An
    operation that may have to wait returns an [outcome]: [Ok], [Blocked] in a state in
    which the thread does not return, or [Fault] for undefined behaviour, an exception
    that nothing catches or a failed [assert].  A critical section is one step, and so is a
    request handler, except where [ConcAppend], [Pipeline], [KVRun] and [BasicClient] cut
    threads into smaller ones.

    Code that is not in the repository is a class that the definitions take as an
    argument, with its documented behaviour as fields: [Erpc] (messages arrive with the
    bytes they were sent with; buffers have at least the size asked for), [Rdma]
    (one-sided reads and writes copy memory), [Posix] (the choices of the file system:
    which descriptor is new, which files can be created, how much a write transfers),
    [Kafka] (produced messages are sent to their partition in order).  [Erpc_exact],
    [Rdma_copy], [Posix_plain] and [Kafka_memory] are instances, with which the witnesses
    of the theorems are evaluated.

    Concurrency is interleaving: the operations of the consensus log and of the client
    take a schedule, [sched i] being the append requests that reach the replicas between
    their steps [i] and [i + 1], and [delay], the number of polls after which a replica
    answers.  The theorems hold for all schedules and delays.  Where threads are cut into
    steps, a run is a list of steps of all threads, and the theorems hold for every list.

    ** What is proved

    - System ([System]): a round of the consensus log returns and extends the stored log
      by what it fetched ([fetchAndStore_refines]); whatever has happened, reads return
      entries of the log of the primary, at their index ([reads_follow_primary]); a read
      that has returned an entry returns it ever after ([reads_are_stable]); a round
      orders waiting entries ([round_progress]).  The pipelined mode does the same in every
      interleaving ([pipelined_follows_primary]).
    - Histories ([History]): what the test client records is linearizable
      ([history_linearizable]), and what was written can be read in the end
      ([completed_writes_readable]).  The key-value store follows the log, and fails only
      by a race on its map ([kv_follows_log]).
    - Durability ([ClientAppend], [ClientQuorum], [DlTransport], [FlatRing]): when
      [AppendEntryAll] or [AppendEntryQuorum] returns the entry is on every replica, or on
      a quorum of them; an append extends the log of a replica by the entry, wherever it
      falls in the ring.  With several threads the ring is not overrun, and their log is
      that of the appends one after the other ([conc_append_safe],
      [conc_append_linearizable]); a fetch in between sees it ([conc_fetch]).
    - Collection ([DlTransport], [FlatCli], [FlatGC]): what is fetched and which entries the
      replicas drop.
    - Storage ([StorageLog], [ShardRecovery], [ShardBatch], [ShardUnoptSim]): what was stored
      is read, reads of other indices wait, a restarted shard serves the same reads, a
      range is read as its entries, the two servers agree.  With [CORFU], an entry is read
      at the position its client was given ([corfu_reads_appends]).
    - Start and end ([Startup], [Servers], [Lifecycle]): from their configurations the parts
      are set up as the theorems above require ([ConsensusLog_Initialize_ok]), connections
      go to threads that exist ([dl_rpc_ids]), and servers end without using or keeping an
      object they should not ([servers_end_clean]).
    - Round trips and sizes of the encoders ([LogEntry]), configuration ([Props]), the
      rate limiter ([RateLimit]), the hash-map log ([DurLogBase]).
    - Deviations of the code from what it is meant to do are theorems as well, for
      example [SpecReadEntry_short_log], [restart_append_not_persisted],
      [ProcessFetchedEntries_backup], [wrapped_entry_torn], [unopt_restart_undefined],
      [corfu_read_stale], [client_Finalize_order], [kafka_AppendBatch_drops_last],
      [kv_insert_roundtrip], [client_ids_unique].

    ** Bounds and fuel

    Loops that end by arithmetic have fuel computed from their range: [entries_fuel n] is
    the number of entries that fit into [n] bytes, enough since each has a header of at
    least 32 bytes; [send_stripes] and [append_rounds] have one unit per shard and stripe
    unit, [collect_units] one per stripe unit of the range.  Running out would be a [Fault],
    and the theorems show [Ok].  The busy-waiting loops ([wait_deleted], [wait_all],
    [wait_quorum]) have the number of polls as an argument, and the theorems show that they
    return if it is at least the delay of every replica; in the pipelined mode and in the
    programs each poll is a step.  [budget] bounds the number of appends so that no 32-bit
    or 64-bit count wraps.  [M], the greatest size of an entry, is at most the safe region
    behind the ring, and at most a page where entries are read, since that is the size of
    the response buffer of a shard client.  [gc_apart] asks that the place where the
    consensus log stages the watermarks is not written by a fetch, as [InitializeConn] sets
    it up.  [started] asks, for progress only, that every backup has received an entry:
    collecting on an empty backup waits for its first one.  The test client's writers have
    entries of 40 bytes, for which alone the number that [AppendEntry] returns is the index;
    it has at most 100 writers with 100000 operations each, so that payloads fit.  The RPC
    ids limit a replica to 63 threads and a shard to 192 readers.

    ** What is not modelled

    - The event loop of eRPC, the connection of RDMA queue pairs and the fsync of data
      files: libraries and hardware; of a crash it is assumed that written files survive.
    - A request that eRPC would handle in the middle of another one, when a handler runs
      the event loop itself; in [KVRun] a thread handles one request at a time.
    - An append in the middle of a fetch, in the theorems about the system: an append at a
      replica is one step there ([System], [Pipeline], [KVRun], [BasicClient]).  [ConcFetch]
      is about a fetch between the phases of appends, and about the entry it may tear; a
      collection that passes such an entry is not a step of [ConcAppend].
    - Overlapping lock sections of a shard server: a request is one step there, and its
      condition variable is the outcome that the reader waits.  The same holds with [CORFU],
      except for [corfu_create_race]; its read handler reads eight bytes behind the request,
      which are assumed to be in the receive buffer.
    - Memory orders.  Accesses to shared data that the code does not synchronise are undefined
      only in [KVRun], and only if they overlap; in [RateLimit] the wait is computed as by
      the only user of the bucket, and the counters of the averages are left out.
    - The connections of readers of the test client and of the playing thread to the shards,
      which are those of the consensus log.
    - Statistics and timing: utils/timer.cc, the averages of the consensus log and of the
      key-value store, and the benchmarks (client/benchmarking, benchmark), which measure
      calls that are modelled.
    - dur_log/basic_flat_cli.cc, an interactive program that prints what [FlatCli] returns;
      the signal handlers of the servers; [ShardClient::AppendBatchAsync] over a contiguous
      range, which nothing calls.
    - That eRPC refuses an id that another client thread uses: this is required of the
      threads of servers only. *)

From stdpp Require Export base gmap list numbers fin_maps option.
From coqutil Require Import Word.LittleEndianList Byte.
From Stdlib Require Strings.Byte.

Global Open Scope Z_scope.

(** ** Notation *)

(** Lengths are used as integers throughout. *)
Declare Scope lazylog_scope.
Delimit Scope lazylog_scope with lz.
Notation "'lenZ' l" := (Z.of_nat (length l)) (at level 9) : lazylog_scope.
Global Open Scope lazylog_scope.

Abbreviation byte := Init.Byte.byte.

#[export] Instance byte_eq_dec : EqDecision byte := Strings.Byte.byte_eq_dec.

(** ** Machine integers *)

(** Conversion to an unsigned integer of the given width. *)
Definition u8 (z : Z) : Z := z mod 2 ^ 8.
Definition u16 (z : Z) : Z := z mod 2 ^ 16.
Definition u32 (z : Z) : Z := z mod 2 ^ 32.
Definition u64 (z : Z) : Z := z mod 2 ^ 64.

(** Conversion to a two's complement 32-bit [int]. *)
Definition i32 (z : Z) : Z := (z + 2 ^ 31) mod 2 ^ 32 - 2 ^ 31.

(** [x & ~3] on a 64-bit [size_t]: the [int] constant [~3] is sign-extended. *)
Definition and_not3 (z : Z) : Z := Z.land (u64 z) (2 ^ 64 - 4).

(** Little-endian object representation of an unsigned integer of [n] bytes. *)
Definition le_bytes (n : nat) (z : Z) : list byte := LittleEndianList.le_split n z.
Definition un_le (bs : list byte) : Z := LittleEndianList.le_combine bs.

(** ** Outcomes of operations that may block *)

(** [Fault] is undefined behaviour or a failed [assert]; [Blocked] is a thread
    that spins or waits on a condition variable in the current state. *)
Inductive outcome (A : Type) : Type :=
| Ok (a : A)
| Blocked
| Fault.
Arguments Ok {A} a.
Arguments Blocked {A}.
Arguments Fault {A}.

#[export] Instance outcome_ret : MRet outcome := @Ok.
#[export] Instance outcome_bind : MBind outcome := λ A B f m,
  match m with Ok a => f a | Blocked => Blocked | Fault => Fault end.

(** A computation that never blocks, as an outcome. *)
Definition lift {A} (m : option A) : outcome A :=
  match m with Some a => Ok a | None => Fault end.

(** ** Byte-addressed buffers *)

(** A buffer is an allocation of [bcap] bytes; [bmem] holds its contents (a byte
    that is not in the map reads as zero).  A load or store outside the
    allocation is undefined behaviour and has no result. *)
Record buffer : Type := Buf { bcap : Z; bmem : gmap Z byte }.

Definition rd (m : gmap Z byte) (a : Z) : byte := default Byte.x00 (m !! a).

(** The [n] bytes from address [o] on, of any address-to-byte function. *)
Fixpoint peek (f : Z → byte) (o : Z) (n : nat) : list byte :=
  match n with
  | O => []
  | S n => f o :: peek f (o + 1) n
  end.

Definition poke (m : gmap Z byte) (o : Z) (bs : list byte) : gmap Z byte :=
  map_seqZ o bs ∪ m.

Definition in_buf (b : buffer) (o n : Z) : bool := (0 <=? o) && (o + n <=? bcap b).

Definition load (b : buffer) (o : Z) (n : nat) : option (list byte) :=
  if in_buf b o (Z.of_nat n) then Some (peek (rd (bmem b)) o n) else None.

Definition bpoke (b : buffer) (o : Z) (bs : list byte) : buffer :=
  Buf (bcap b) (poke (bmem b) o bs).

Definition store (b : buffer) (o : Z) (bs : list byte) : option buffer :=
  if in_buf b o (lenZ bs) then Some (bpoke b o bs) else None.

(** Typed accesses, [*reinterpret_cast<uintN_t *>(buf + o)]. *)
Definition load_int (n : nat) (b : buffer) (o : Z) : option Z :=
  bs ← load b o n; Some (un_le bs).
Definition store_int (n : nat) (b : buffer) (o z : Z) : option buffer :=
  store b o (le_bytes n z).

(** A message received from the network: its bytes, and nothing after them. *)
Definition msg_buf (bs : list byte) : buffer := Buf (lenZ bs) (map_seqZ 0 bs).

(** ** Automation *)

Create HintDb lazylog.

(** Case analysis on the integer comparisons of a goal or hypothesis. *)
Ltac case_zb :=
  match goal with
  | |- context [?a <? ?b] => destruct (Z.ltb_spec a b)
  | |- context [?a <=? ?b] => destruct (Z.leb_spec a b)
  | |- context [?a =? ?b] => destruct (Z.eqb_spec a b)
  | H : context [?a <? ?b] |- _ => destruct (Z.ltb_spec a b)
  | H : context [?a <=? ?b] |- _ => destruct (Z.leb_spec a b)
  | H : context [?a =? ?b] |- _ => destruct (Z.eqb_spec a b)
  end.

(** Field widths as integers. *)
Ltac of_nat_lit :=
  change (Z.of_nat 2) with 2 in *; change (Z.of_nat 4) with 4 in *;
  change (Z.of_nat 8) with 8 in *.

Ltac zb := repeat case_zb; simpl in *; try done; try lia.

(** ** Integer lemmas *)

Lemma u64_small z : 0 ≤ z < 2 ^ 64 → u64 z = z.
Proof. apply Z.mod_small. Qed.

Lemma u32_small z : 0 ≤ z < 2 ^ 32 → u32 z = z.
Proof. apply Z.mod_small. Qed.

Lemma u16_small z : 0 ≤ z < 2 ^ 16 → u16 z = z.
Proof. apply Z.mod_small. Qed.

Lemma i32_small z : - 2 ^ 31 ≤ z < 2 ^ 31 → i32 z = z.
Proof. intros H. unfold i32. rewrite Z.mod_small; lia. Qed.

Lemma u64_range z : 0 ≤ u64 z < 2 ^ 64.
Proof. by apply Z.mod_pos_bound. Qed.

Lemma length_le n z : length (le_bytes n z) = n.
Proof. apply length_le_split. Qed.

Lemma un_le_le n z : 0 ≤ z < 2 ^ (8 * Z.of_nat n) → un_le (le_bytes n z) = z.
Proof.
  intros H. unfold un_le, le_bytes. rewrite le_combine_split.
  rewrite Z.mod_small; [done|]. by rewrite Z.mul_comm.
Qed.

Lemma le_un_le n bs : length bs = n → le_bytes n (un_le bs) = bs.
Proof. apply split_le_combine'. Qed.

Lemma un_le_range bs : 0 ≤ un_le bs < 2 ^ (8 * lenZ bs).
Proof. apply le_combine_bound. Qed.

(** Clearing the two low bits is rounding down to a multiple of four. *)
Lemma and_not3_spec z : 0 ≤ z < 2 ^ 64 → and_not3 z = z - z mod 4.
Proof.
  intros Hz. unfold and_not3. rewrite u64_small by done.
  change (2 ^ 64 - 4) with (Z.ldiff (Z.ones 64) 3).
  rewrite (Z.ldiff_land (Z.ones 64)), Z.land_assoc, <- Z.ldiff_land.
  rewrite Z.land_ones, Z.mod_small by done.
  change 3 with (Z.ones 2). rewrite Z.ldiff_ones_r by lia.
  rewrite Z.shiftl_mul_pow2, Z.shiftr_div_pow2 by lia.
  pose proof (Z.div_mod z 4 ltac:(lia)). change (2 ^ 2) with 4. lia.
Qed.

(** ** Buffer lemmas *)

Lemma length_peek f o n : length (peek f o n) = n.
Proof. revert o; induction n as [|n IH]; intros o; simpl; [done|]. by rewrite IH. Qed.

Lemma peek_app f o n1 n2 :
  peek f o (n1 + n2) = peek f o n1 ++ peek f (o + Z.of_nat n1) n2.
Proof.
  revert o; induction n1 as [|n IH]; intros o; simpl; [by rewrite Z.add_0_r|].
  rewrite IH. do 3 f_equal. lia.
Qed.

Lemma peek_ext f g o o' n :
  (∀ i, 0 ≤ i < Z.of_nat n → f (o + i) = g (o' + i)) → peek f o n = peek g o' n.
Proof.
  revert o o'; induction n as [|n IH]; intros o o' H; simpl; [done|].
  f_equal.
  - specialize (H 0 ltac:(lia)). by rewrite !Z.add_0_r in H.
  - apply IH. intros i Hi. specialize (H (1 + i) ltac:(lia)).
    by rewrite !Z.add_assoc in H.
Qed.

Lemma peek_lookup f o n i :
  (i < n)%nat → peek f o n !! i = Some (f (o + Z.of_nat i)).
Proof.
  revert o i; induction n as [|n IH]; intros o [|i] H; simpl; try lia.
  - by rewrite Z.add_0_r.
  - rewrite IH by lia. do 2 f_equal. lia.
Qed.

Lemma peek_inv f g o o' n i :
  peek f o n = peek g o' n → 0 ≤ i < Z.of_nat n → f (o + i) = g (o' + i).
Proof.
  intros Hpk Hi. pose proof (peek_lookup f o n (Z.to_nat i) ltac:(lia)) as H1.
  rewrite Hpk, peek_lookup, Z2Nat.id in H1 by lia. by simplify_eq.
Qed.

Lemma peek_eq_iff f o bs :
  peek f o (length bs) = bs ↔ ∀ i b, bs !! i = Some b → f (o + Z.of_nat i) = b.
Proof.
  split.
  - intros H i b Hb. pose proof (lookup_lt_Some _ _ _ Hb).
    rewrite <- H in Hb. rewrite peek_lookup in Hb by done. by simplify_eq.
  - intros H. apply list_eq_same_length with (length bs); [done|apply length_peek|].
    intros i x y Hi Hx Hy. rewrite peek_lookup in Hx by done.
    simplify_eq. by apply H.
Qed.

Lemma rd_poke_in m o bs a :
  o ≤ a < o + lenZ bs → bs !! Z.to_nat (a - o) = Some (rd (poke m o bs) a).
Proof.
  intros Ha. unfold rd, poke.
  destruct (lookup_lt_is_Some_2 bs (Z.to_nat (a - o))) as [b Hb]; [lia|].
  rewrite Hb. f_equal. erewrite lookup_union_Some_l; [done|].
  apply lookup_map_seqZ_Some. split; [lia|done].
Qed.

Lemma rd_poke_out m o bs a :
  a < o ∨ o + lenZ bs ≤ a → rd (poke m o bs) a = rd m a.
Proof.
  intros Ha. unfold rd, poke. rewrite lookup_union_r; [done|].
  apply lookup_map_seqZ_None. lia.
Qed.

Lemma peek_poke_same m o bs : peek (rd (poke m o bs)) o (length bs) = bs.
Proof.
  apply peek_eq_iff. intros i b Hb. pose proof (lookup_lt_Some _ _ _ Hb).
  pose proof (rd_poke_in m o bs (o + Z.of_nat i) ltac:(lia)) as H'.
  replace (Z.to_nat (o + Z.of_nat i - o)) with i in H' by lia. congruence.
Qed.

Lemma peek_poke_int m o n z : peek (rd (poke m o (le_bytes n z))) o n = le_bytes n z.
Proof.
  pose proof (peek_poke_same m o (le_bytes n z)) as H. by rewrite length_le in H.
Qed.

Lemma peek_poke_out m o bs a n :
  a + Z.of_nat n ≤ o ∨ o + lenZ bs ≤ a →
  peek (rd (poke m o bs)) a n = peek (rd m) a n.
Proof. intros H. apply peek_ext. intros i Hi. apply rd_poke_out. lia. Qed.

Lemma poke_app m o bs1 bs2 :
  poke m o (bs1 ++ bs2) = poke (poke m o bs1) (o + lenZ bs1) bs2.
Proof.
  unfold poke. rewrite map_seqZ_app, (assoc_L (∪)).
  f_equal. apply map_union_comm, map_seqZ_app_disjoint.
Qed.

Lemma bpoke_app b o bs1 bs2 :
  bpoke b o (bs1 ++ bs2) = bpoke (bpoke b o bs1) (o + lenZ bs1) bs2.
Proof. unfold bpoke; simpl. by rewrite poke_app. Qed.

Lemma store_ok b o bs :
  0 ≤ o → o + lenZ bs ≤ bcap b → store b o bs = Some (bpoke b o bs).
Proof. intros. unfold store, in_buf. zb. Qed.

Lemma store_Some b o bs b' :
  store b o bs = Some b' ↔ 0 ≤ o ∧ o + lenZ bs ≤ bcap b ∧ b' = bpoke b o bs.
Proof. unfold store, in_buf. zb; naive_solver lia. Qed.

Lemma load_ok b o n :
  0 ≤ o → o + Z.of_nat n ≤ bcap b → load b o n = Some (peek (rd (bmem b)) o n).
Proof. intros. unfold load, in_buf. zb. Qed.

Lemma load_int_ok n b o :
  0 ≤ o → o + Z.of_nat n ≤ bcap b →
  load_int n b o = Some (un_le (peek (rd (bmem b)) o n)).
Proof. intros. unfold load_int. by rewrite load_ok. Qed.

Lemma rd_msg_buf bs i b : bs !! i = Some b → rd (bmem (msg_buf bs)) (Z.of_nat i) = b.
Proof.
  intros Hb. unfold rd, msg_buf; simpl.
  rewrite lookup_map_seqZ_0, Nat2Z.id, Hb by lia. done.
Qed.

Lemma peek_msg_buf bs : peek (rd (bmem (msg_buf bs))) 0 (length bs) = bs.
Proof. apply peek_eq_iff. intros i b Hb. by apply rd_msg_buf. Qed.

(** A message holds the bytes it was made from. *)
Lemma rd_msg_peek f n a :
  0 ≤ a < Z.of_nat n → rd (bmem (msg_buf (peek f 0 n))) a = f a.
Proof.
  intros Ha. replace a with (Z.of_nat (Z.to_nat a)) by lia. apply rd_msg_buf.
  rewrite peek_lookup by lia. f_equal.
Qed.

Lemma load_int_msg n f N o :
  0 ≤ o → o + Z.of_nat n ≤ Z.of_nat N →
  load_int n (msg_buf (peek f 0 N)) o = Some (un_le (peek f o n)).
Proof.
  intros Ho Hn. rewrite load_int_ok; [|done|unfold msg_buf; cbn [bcap]; rewrite length_peek; lia].
  do 2 f_equal. apply peek_ext. intros i Hi. apply rd_msg_peek. lia.
Qed.

(** [b'] differs from [b] at most between [lo] and [hi]. *)
Definition frame (b b' : buffer) (lo hi : Z) : Prop :=
  bcap b' = bcap b ∧ ∀ a, a < lo ∨ hi ≤ a → rd (bmem b') a = rd (bmem b) a.

Lemma frame_refl b lo hi : frame b b lo hi.
Proof. by split. Qed.

Lemma frame_bpoke b o bs hi : o + lenZ bs ≤ hi → frame b (bpoke b o bs) o hi.
Proof. intros H. split; [done|]. intros a Ha. simpl. apply rd_poke_out. lia. Qed.

Lemma frame_trans b1 b2 b3 lo mid hi :
  lo ≤ mid ≤ hi → frame b1 b2 lo mid → frame b2 b3 mid hi → frame b1 b3 lo hi.
Proof.
  intros Hm [Hc1 H1] [Hc2 H2]. split; [congruence|].
  intros a Ha. rewrite H2, H1 by lia. done.
Qed.

Lemma frame_join b1 b2 b3 lo hi : frame b1 b2 lo hi → frame b2 b3 lo hi → frame b1 b3 lo hi.
Proof. intros [H1 H2] [H3 H4]. split; [congruence|]. intros a Ha. by rewrite H4, H2. Qed.

Lemma frame_weaken b b' lo hi lo' hi' :
  lo' ≤ lo → hi ≤ hi' → frame b b' lo hi → frame b b' lo' hi'.
Proof. intros Hl Hh [Hc H]. split; [done|]. intros a Ha. apply H. lia. Qed.

Lemma frame_peek b b' lo hi a n :
  frame b b' lo hi → a + Z.of_nat n ≤ lo ∨ hi ≤ a →
  peek (rd (bmem b')) a n = peek (rd (bmem b)) a n.
Proof. intros [_ H] Ha. apply peek_ext. intros i Hi. apply H. lia. Qed.

#[export] Hint Resolve u64_range frame_refl : lazylog.

#[global] Arguments peek : simpl never.
#[global] Arguments le_bytes : simpl never.
#[global] Arguments un_le : simpl never.
