(* ===== verification/Sequencer.v ===== *)
(** Counters and completion tokens: [src/utils/sequencer.cc], [src/rpc/rpc_token.cc].

    The two members of the [Sequencer] union share their storage, so a sequencer is
    one 64-bit value; the atomic and the plain operations differ only in how they
    may interleave, and every caller of the plain ones holds a lock. *)

From S2P Require Import Prelude.

Module Sequencer.
Definition t : Type := Z.

Definition init : t := 0.
Definition GetNextSeq (s : t) : Z * t := (s, u64 (s + 1)).
Definition GetNextSeqNonAtm (s : t) : Z * t := (s, u64 (s + 1)).
Definition GetNextSeqInc (s : t) (inc : Z) : Z * t := (s, u64 (s + inc)).
Definition GetNextSeqNonAtmInc (s : t) (inc : Z) : Z * t := (s, u64 (s + inc)).
Definition GetCurSeq (s : t) : Z := s.
Definition GetCurSeqNonAtm (s : t) : Z := s.
Definition Reset (s : t) : t := 0.
End Sequencer.

Module RPCToken.
Definition t : Type := bool.

Definition init : t := false.
Definition Complete (tk : t) : bool := tk.
Definition SetComplete (tk : t) : t := true.
Definition Reset (tk : t) : t := false.

(** [allRPCCompleted], [allCompleted]. *)
Fixpoint allCompleted (tokens : list t) : bool :=
  match tokens with
  | [] => true
  | t :: tokens => if negb (Complete t) then false else allCompleted tokens
  end.
End RPCToken.
