(* ===== verification/Props.v ===== *)
(** Configuration: [src/utils/properties.h], [src/utils/properties.cc] and the
    string helpers of [src/utils/utils.h].

    [std::map<std::string, std::string>] is a [gmap string string]; a thrown
    exception is [None].  The file system of [ParseCommandLine] is an argument:
    the contents of a readable file, or [None] when it cannot be opened. *)

From stdpp Require Export strings.
From Stdlib Require Import Ascii String.
From S2P Require Import Prelude.

Local Open Scope Z_scope.

Abbreviation chars := String.list_ascii_of_string.
Abbreviation of_chars := String.string_of_list_ascii.

(** ** String helpers *)

(** [==] on strings, and [strcmp(a, b) == 0]. *)
Definition streq (a b : string) : bool := String.eqb a b.

(** [isspace] in the C locale. *)
Definition isspace (c : ascii) : bool :=
  let n := nat_of_ascii c in ((n =? 32) || ((9 <=? n) && (n <=? 13)))%nat.

(** [std::find_if_not(first, last, isspace)]: what remains from there on. *)
Fixpoint skip_space (l : list ascii) : list ascii :=
  match l with
  | [] => []
  | c :: l' => if isspace c then skip_space l' else l
  end.

Definition Trim (s : string) : string :=
  of_chars (rev (skip_space (rev (skip_space (chars s))))).

(** [::tolower] in the C locale. *)
Definition tolower (c : ascii) : ascii :=
  let n := nat_of_ascii c in
  if ((65 <=? n) && (n <=? 90))%nat then ascii_of_nat (n + 32) else c.

Definition StrToBool (s : string) : option bool :=
  let s := of_chars (tolower <$> chars s) in
  if streq s "true" || streq s "1" then Some true
  else if streq s "false" || streq s "0" then Some false
  else None.

Definition StrStartWith (str pre : string) : bool := String.prefix pre str.

(** [std::getline] until the stream fails: the fields between delimiters; nothing
    is read after a delimiter that ends the stream. *)
Fixpoint split_on (delim : ascii) (l : list ascii) : list (list ascii) :=
  match l with
  | [] => [[]]
  | c :: l =>
      if Ascii.eqb c delim then [] :: split_on delim l
      else match split_on delim l with
           | [] => [[c]]
           | t :: ts => (c :: t) :: ts
           end
  end.

Fixpoint drop_last_empty (ts : list (list ascii)) : list (list ascii) :=
  match ts with
  | [] => []
  | [t] => match t with [] => [] | _ => [t] end
  | t :: ts => t :: drop_last_empty ts
  end.

Definition SeparateValue (value : string) (delim : ascii) : list string :=
  of_chars <$> drop_last_empty (split_on delim (chars value)).

(** [std::stoi] and [std::stoull]: leading space, an optional sign, then digits;
    anything after the digits is ignored. *)
Definition digit (c : ascii) : option Z :=
  let n := nat_of_ascii c in
  if ((48 <=? n) && (n <=? 57))%nat then Some (Z.of_nat n - 48) else None.

Fixpoint digits (acc : option Z) (l : list ascii) : option Z :=
  match l with
  | [] => acc
  | c :: l =>
      match digit c with
      | Some d => digits (Some (default 0 acc * 10 + d)) l
      | None => acc
      end
  end.

Definition strtol (s : string) : option Z :=
  match skip_space (chars s) with
  | "-"%char :: l => Z.opp <$> digits None l
  | "+"%char :: l => digits None l
  | l => digits None l
  end.

Definition stoi (s : string) : option Z :=
  z ← strtol s; if (- 2 ^ 31 <=? z) && (z <? 2 ^ 31) then Some z else None.
Definition stoll (s : string) : option Z :=
  z ← strtol s; if (- 2 ^ 63 <=? z) && (z <? 2 ^ 63) then Some z else None.
Definition stoull (s : string) : option Z :=
  z ← strtol s; if (- 2 ^ 64 <? z) && (z <? 2 ^ 64) then Some (u64 z) else None.

(** ** Properties *)

Abbreviation Properties := (gmap string string).

Definition GetProperty (p : Properties) (key default_value : string) : string :=
  match p !! key with Some v => v | None => default_value end.

(** [operator[]], which is [std::map::at]. *)
Definition get_at (p : Properties) (key : string) : option string := p !! key.

Definition SetProperty (p : Properties) (key value : string) : Properties := <[key := value]> p.

Definition ContainsKey (p : Properties) (key : string) : bool :=
  match p !! key with Some _ => true | None => false end.

Definition FromMap (props : gmap string string) : Properties := props.

(** The text before and after the first ['=']. *)
Definition split_eq (line : string) : option (string * string) :=
  match String.index 0 "=" line with
  | None => None
  | Some pos =>
      Some (String.substring 0 pos line,
            String.substring (pos + 1) (String.length line - (pos + 1)) line)
  end.

Definition load_line (p : Properties) (line : string) : Properties :=
  if StrStartWith line "#" then p else
  match split_eq line with
  | None => p
  | Some (k, v) => SetProperty p (Trim k) (Trim v)
  end.

(** [Load]: the stream is the file's contents, or [None] when it is not open. *)
Definition Load (p : Properties) (input : option string) : option Properties :=
  text ← input;
  Some (foldl load_line p (of_chars <$> split_on (ascii_of_nat 10) (chars text))).

(** ** Command line *)

Inductive cmd_result : Type :=
| Parsed (p : Properties)
| Exited            (* a usage message and [exit(0)] *)
| Terminated.       (* an exception that is not caught *)

Section CommandLine.
Context (fs : string → option string).

(** One turn of the option loop takes an option, and its value if it has one, off
    the arguments.  [Load] throws an [Exception], while the handler around it
    catches [const std::string &]: the exception leaves the program. *)
Fixpoint parse_args (args : list string) (props : Properties) : cmd_result :=
  match args with
  | [] => Parsed props
  | a :: args =>
      if negb (StrStartWith a "-") then Exited
      else if streq a "-load" then parse_args args (SetProperty props "doload" "true")
      else if streq a "-run" || streq a "-t" then
        parse_args args (SetProperty props "dotransaction" "true")
      else if streq a "-threads" then
        match args with
        | [] => Exited
        | v :: args => parse_args args (SetProperty props "threadcount" v)
        end
      else if streq a "-db" then
        match args with
        | [] => Exited
        | v :: args => parse_args args (SetProperty props "dbname" v)
        end
      else if streq a "-P" then
        match args with
        | [] => Exited
        | file :: args =>
            match Load props (fs file) with
            | Some props => parse_args args props
            | None => Terminated
            end
        end
      else if streq a "-p" then
        match args with
        | [] => Exited
        | prop :: args =>
            match split_eq prop with
            | None => Exited
            | Some (k, v) => parse_args args (SetProperty props (Trim k) (Trim v))
            end
        end
      else if streq a "-s" then parse_args args (SetProperty props "status" "true")
      else if streq a "-l" then parse_args args (SetProperty props "leader" "true")
      else Exited
  end.

(** [argv[0]] is the command; a command line with no option is refused. *)
Definition ParseCommandLine (argv : list string) (props : Properties) : cmd_result :=
  match drop 1 argv with
  | [] => Exited
  | args => parse_args args props
  end.
End CommandLine.

(** ** Lists of addresses *)

Lemma split_on_nonempty (d : ascii) (l : list ascii) : split_on d l ≠ [].
Proof. destruct l as [|c l]; simpl; [done|]. destruct (Ascii.eqb c d); [done|]. by destruct (split_on d l). Qed.

Lemma split_on_delim (d : ascii) (a b : list ascii) : split_on d (a ++ d :: b) = split_on d a ++ split_on d b.
Proof.
  induction a as [|c a IH]; simpl; [by rewrite Ascii.eqb_refl|]. rewrite IH.
  destruct (Ascii.eqb c d); [done|]. pose proof (split_on_nonempty d a). by destruct (split_on d a).
Qed.

Lemma split_on_last (d : ascii) (t : list ascii) : d ∉ t → split_on d t = [t].
Proof.
  induction t as [|c t IH]; simpl; [done|].
  rewrite not_elem_of_cons. intros [Hc Ht]. rewrite IH by done.
  by rewrite (proj2 (Ascii.eqb_neq c d)) by congruence.
Qed.

Lemma chars_app (s t : string) : chars (s +:+ t) = chars s ++ chars t.
Proof. induction s as [|c s IH]; simpl; [done|]. by rewrite IH. Qed.

Lemma drop_last_empty_cons (t : list ascii) ts :
  ts ≠ [] → drop_last_empty (t :: ts) = t :: drop_last_empty ts.
Proof. by destruct ts. Qed.

(** A list of addresses written with the delimiter between them is read back
    unchanged by [SeparateValue]: no address may hold the delimiter, and the last
    one may not be empty, since nothing is read after a delimiter that ends the
    value. *)
Theorem SeparateValue_join (d : ascii) (ts : list string) (t : string) :
  Forall (λ s, d ∉ chars s) (ts ++ [t]) → t ≠ "" →
  SeparateValue (String.concat (String d "") (ts ++ [t])) d = ts ++ [t].
Proof.
  intros Hd Ht. unfold SeparateValue.
  assert (drop_last_empty (split_on d (chars (String.concat (String d "") (ts ++ [t])))) =
          chars <$> (ts ++ [t])) as ->.
  { apply Forall_app in Hd as [Hts [Ht' _]%Forall_cons_1].
    induction Hts as [|s ts Hs Hts IH]; simpl.
    - rewrite (split_on_last _ _ Ht'). by destruct t.
    - destruct (ts ++ [t]) as [|s' l] eqn:El; [by destruct ts|].
      rewrite !chars_app. cbn [chars String.list_ascii_of_string app].
      rewrite split_on_delim, (split_on_last _ _ Hs); cbn [app].
      rewrite drop_last_empty_cons by apply split_on_nonempty. by rewrite IH. }
  rewrite <- list_fmap_compose. rewrite <- (list_fmap_id (ts ++ [t])) at 2.
  apply list_fmap_ext. intros i s _. apply String.string_of_list_ascii_of_string.
Qed.

Lemma SeparateValue_join_witness :
  SeparateValue "10.0.0.1:31850,10.0.0.2:31850" "," = ["10.0.0.1:31850"; "10.0.0.2:31850"].
Proof.
  apply (SeparateValue_join "," ["10.0.0.1:31850"] "10.0.0.2:31850"); [|done].
  refine (bool_decide_eq_true_1 _ _). vm_compute. reflexivity.
Defined.

(** ** Order of the options *)

(** Options that were read are followed by the rest of the command line. *)
Lemma parse_args_app (fs : string → option string) (args rest : list string) (p q : Properties) :
  parse_args fs args p = Parsed q → parse_args fs (args ++ rest) p = parse_args fs rest q.
Proof.
  remember (length args) as n eqn:En.
  assert (length args ≤ n)%nat as Hn by lia. clear En.
  revert args Hn p. induction n as [|n IH]; intros [|a args] Hn p; simpl in *; intros E;
    try (by injection E as ->); try lia.
  repeat case_match; simplify_eq/=; apply IH; simpl; first [lia | done].
Qed.

(** What [Load] does with its last line. *)
Lemma Load_last_line (p : Properties) (before line : string) :
  ascii_of_nat 10 ∉ chars line →
  ∃ q, Load p (Some (before +:+ String (ascii_of_nat 10) line)) = Some (load_line q line).
Proof.
  intros Hl. unfold Load; simpl. rewrite chars_app; cbn [String.list_ascii_of_string].
  rewrite split_on_delim, (split_on_last _ (chars line)) by done.
  rewrite fmap_app, foldl_app; simpl. rewrite String.string_of_list_ascii_of_string. eauto.
Qed.

(** The options of a command line act in the order they are written.  A
    [-p name=value] after others overrides whatever they set for that name and
    changes no other; and, although the usage message says a [-p] overrides the
    values in the property file, a [-P file] written after it overrides it when the
    last line of the file sets the name. *)
Theorem later_option_wins (fs : string → option string) (args : list string) (p q : Properties)
    (prop name value : string) :
  parse_args fs args p = Parsed q → split_eq prop = Some (name, value) →
  (∃ r, parse_args fs (args ++ ["-p"; prop]) p = Parsed r ∧
     GetProperty r (Trim name) "" = Trim value ∧
     ∀ key def, key ≠ Trim name → GetProperty r key def = GetProperty q key def) ∧
  ∀ file before,
    fs file = Some (before +:+ String (ascii_of_nat 10) prop) → StrStartWith prop "#" = false →
    ascii_of_nat 10 ∉ chars prop →
    ∃ r, parse_args fs (args ++ ["-P"; file]) p = Parsed r ∧ GetProperty r (Trim name) "" = Trim value.
Proof.
  intros Hq Hprop. split.
  - rewrite (parse_args_app _ _ _ _ _ Hq); simpl. rewrite Hprop. eexists; split; [done|].
    unfold GetProperty, SetProperty. split; [by rewrite lookup_insert_eq|].
    intros key def Hk. by rewrite lookup_insert_ne by done.
  - intros file before Hf Hc Hn. rewrite (parse_args_app _ _ _ _ _ Hq); cbn -[Load].
    rewrite Hf. destruct (Load_last_line q before prop Hn) as [q' ->].
    eexists; split; [done|]. unfold load_line. rewrite Hc, Hprop.
    unfold GetProperty, SetProperty. by rewrite lookup_insert_eq.
Qed.

Lemma later_option_wins_witness :
  ∃ r, parse_args (λ _, None) ["-l"; "-p"; "leader = false"] ∅ = Parsed r ∧ GetProperty r "leader" "" = "false".
Proof.
  destruct (later_option_wins (λ _, None) ["-l"] ∅ {["leader" := "true"]} "leader = false" "leader " " false")
    as [(r & Hr & Hv & _) _]; [reflexivity..|].
  exists r. split; [exact Hr|exact Hv].
Defined.
