(* ===== verification/LogEntry.v ===== *)
(** The log entry and its wire format: [src/rpc/log_entry.h], [src/rpc/log_entry.cc].

    A pointer [uint8_t *buf] is a [buffer] and an offset [p] into it; an [&] or
    vector argument that a function updates is an argument and a component of the
    result.  A result [None] is undefined behaviour (an access outside the buffer
    or the vector) or a failed [assert]. *)

From S2P Require Import Prelude.

(** ** Data *)

Record LogEntry : Type := mkEntry {
  client_id : Z;
  client_seq : Z;
  log_idx : Z;
  size_ : Z;
  flags : Z;
  view : Z;
  data : list byte
}.

#[export] Instance LogEntry_eq_dec : EqDecision LogEntry.
Proof. solve_decision. Defined.

(** [LogEntry::ReqID]: client id and client sequence number. *)
Definition ReqID : Type := Z * Z.

Definition LogEntry_default : LogEntry := mkEntry 0 0 0 0 0 0 [].

(** The constructor from a C string, which ends at the first NUL. *)
Fixpoint c_str (bs : list byte) : list byte :=
  match bs with
  | [] => []
  | Byte.x00 :: _ => []
  | b :: bs => b :: c_str bs
  end.

Definition LogEntry_of_cstr (s : list byte) : LogEntry :=
  let d := c_str s in mkEntry 0 0 0 (u32 (lenZ d)) 0 0 d.

Definition set_log_idx (e : LogEntry) (i : Z) : LogEntry :=
  mkEntry (client_id e) (client_seq e) i (size_ e) (flags e) (view e) (data e).
Definition set_flags (e : LogEntry) (f : Z) : LogEntry :=
  mkEntry (client_id e) (client_seq e) (log_idx e) (size_ e) f (view e) (data e).
Definition set_view (e : LogEntry) (v : Z) : LogEntry :=
  mkEntry (client_id e) (client_seq e) (log_idx e) (size_ e) (flags e) v (data e).
Definition set_client_seq (e : LogEntry) (s : Z) : LogEntry :=
  mkEntry (client_id e) s (log_idx e) (size_ e) (flags e) (view e) (data e).

(** [operator==], which does not compare [log_idx]. *)
Definition entry_eqb (a b : LogEntry) : bool :=
  (client_id b =? client_id a) && (client_seq b =? client_seq a) &&
  (size_ b =? size_ a) && (flags b =? flags a) && (view b =? view a) &&
  bool_decide (data b = data a).

(** ** Layout *)

Definition FlagPos : Z := 8 + 8 + 8 + 4.
Definition MetaDataSize : Z := FlagPos + 2 + 2.
Definition min_entry_size : Z := MetaDataSize.

Definition GetFlagFromBuf (b : buffer) (p : Z) : option Z := load_int 2 b (p + FlagPos).
Definition SetFlag (b : buffer) (p flag : Z) : option buffer := store_int 2 b (p + FlagPos) flag.

(** [MetaDataSize() + (size + 3) & (~3)]: [+] binds tighter than [&], and
    [size + 3] is a 32-bit addition. *)
Definition padded_size (size : Z) : Z := and_not3 (MetaDataSize + u32 (size + 3)).

Definition GetSize (e : LogEntry) : Z := padded_size (size_ e).

Definition GetSizeFromBuf (b : buffer) (p : Z) : option Z :=
  sz ← load_int 4 b (p + (8 + 8 + 8)); Some (padded_size sz).

Definition GetClientId (b : buffer) (p : Z) : option Z := load_int 8 b p.
Definition GetClientSeq (b : buffer) (p : Z) : option Z := load_int 8 b (p + 8).
Definition GetIdx (b : buffer) (p : Z) : option Z := load_int 8 b (p + 8 + 8).

(** ** Serialization of one entry *)

Definition SERIALIZE_FIELD (n : nat) (b : buffer) (p offset field : Z) : option (buffer * Z) :=
  b ← store_int n b (p + offset) field; Some (b, offset + Z.of_nat n).

Definition DESERIALIZE_FIELD (n : nat) (b : buffer) (p offset : Z) : option (Z * Z) :=
  f ← load_int n b (p + offset); Some (f, offset + Z.of_nat n).

(** The bytes that pad the data to a multiple of four are skipped, not written. *)
Definition Serializer (e : LogEntry) (b : buffer) (p : Z) : option (buffer * Z) :=
  let offset := 0 in
  '(b, offset) ← SERIALIZE_FIELD 8 b p offset (client_id e);
  '(b, offset) ← SERIALIZE_FIELD 8 b p offset (client_seq e);
  '(b, offset) ← SERIALIZE_FIELD 8 b p offset (log_idx e);
  if negb (size_ e =? lenZ (data e)) then None else
  '(b, offset) ← SERIALIZE_FIELD 4 b p offset (size_ e);
  '(b, offset) ← SERIALIZE_FIELD 2 b p offset (flags e);
  '(b, offset) ← SERIALIZE_FIELD 2 b p offset (view e);
  b ← store b (p + offset) (data e);
  Some (b, offset + and_not3 (lenZ (data e) + 3)).

(** [e] is an in/out argument: with the flag unset its data is left as it was. *)
Definition Deserializer (e : LogEntry) (b : buffer) (p : Z) : option (LogEntry * Z) :=
  let offset := 0 in
  '(cid, offset) ← DESERIALIZE_FIELD 8 b p offset;
  '(cseq, offset) ← DESERIALIZE_FIELD 8 b p offset;
  '(idx, offset) ← DESERIALIZE_FIELD 8 b p offset;
  '(sz, offset) ← DESERIALIZE_FIELD 4 b p offset;
  '(fl, offset) ← DESERIALIZE_FIELD 2 b p offset;
  '(vw, offset) ← DESERIALIZE_FIELD 2 b p offset;
  if fl =? 0 then Some (mkEntry cid cseq idx sz fl vw (data e), 0) else
  d ← load b (p + offset) (Z.to_nat sz);
  Some (mkEntry cid cseq idx sz fl vw d, offset + and_not3 (lenZ d + 3)).

(** ** Serialization of sequences *)

Fixpoint serialize_each (es : list LogEntry) (b : buffer) (p offset : Z) : option (buffer * Z) :=
  match es with
  | [] => Some (b, offset)
  | e :: es => '(b, sz) ← Serializer e b (p + offset); serialize_each es b p (offset + sz)
  end.

(** [MultiSerializer(es, buf)]. *)
Definition MultiSerializer (es : list LogEntry) (b : buffer) (p : Z) : option (buffer * Z) :=
  let num := u32 (lenZ es) in
  b ← store_int 4 b p num;
  serialize_each es b p 4.

Fixpoint serialize_range (n : nat) (es : list LogEntry) (i : Z) (b : buffer) (p offset : Z)
    : option (buffer * Z) :=
  match n with
  | O => Some (b, offset)
  | S n =>
      e ← es !! Z.to_nat (u64 i);
      '(b, sz) ← Serializer e b (p + offset);
      serialize_range n es (i + 1) b p (offset + sz)
  end.

(** [MultiSerializer(es, from, num, buf, wo_num)]. *)
Definition MultiSerializer_range (es : list LogEntry) (from num : Z) (b : buffer) (p : Z)
    (wo_num : bool) : option (buffer * Z) :=
  '(b, offset) ← (if negb wo_num then b ← store_int 4 b p num; Some (b, 4) else Some (b, 0));
  serialize_range (Z.to_nat num) es from b p offset.

(** The loop of the strided variant; the fuel bounds its iterations. *)
Fixpoint serialize_stride (fuel : nat) (es : list LogEntry) (i to itrv : Z) (b : buffer)
    (p offset num : Z) : option (buffer * Z * Z * Z) :=
  if i <=? to then
    match fuel with
    | O => None
    | S fuel =>
        e ← es !! Z.to_nat i;
        '(b, sz) ← Serializer e b (p + offset);
        serialize_stride fuel es (u64 (i + itrv)) to itrv b p (offset + sz) (u32 (num + 1))
    end
  else Some (b, offset, num, i).

(** [MultiSerializer(es, from, to, itrv, buf)]: the result ends with the updated
    [to], the index of the last entry serialized. *)
Definition MultiSerializer_stride (es : list LogEntry) (from to itrv : Z) (b : buffer) (p : Z)
    : option (buffer * Z * Z) :=
  '(b, offset, num, i) ←
    serialize_stride (Z.to_nat ((to - from) / itrv + 1)) es from to itrv b p 4 0;
  b ← store_int 4 b p num;
  Some (b, offset, u64 (i - itrv)).

(** ** Deserialization of sequences *)

Fixpoint deserialize_num (n : nat) (es : list LogEntry) (b : buffer) (p offset : Z)
    : option (list LogEntry * Z) :=
  match n with
  | O => Some (es, offset)
  | S n =>
      '(e, sz) ← Deserializer LogEntry_default b (p + offset);
      if sz =? 0 then Some (es, offset)
      else deserialize_num n (es ++ [e]) b p (offset + sz)
  end.

(** [MultiDeserializer(es, buf)]: the number of entries comes first. *)
Definition MultiDeserializer (es : list LogEntry) (b : buffer) (p : Z)
    : option (list LogEntry * Z) :=
  num ← load_int 4 b p;
  deserialize_num (Z.to_nat num) es b p 4.

(** Every entry takes at least [MetaDataSize] bytes, which bounds the loops over a
    buffer of a given size. *)
Definition entries_fuel (size : Z) : nat := Z.to_nat (size / MetaDataSize + 1).

Fixpoint deserialize_size (fuel : nat) (es : list LogEntry) (b : buffer) (p size offset : Z)
    : option (list LogEntry * Z) :=
  if offset <? size then
    match fuel with
    | O => None
    | S fuel =>
        '(e, sz) ← Deserializer LogEntry_default b (p + offset);
        if sz =? 0 then Some (es, offset)
        else deserialize_size fuel (es ++ [e]) b p size (offset + sz)
    end
  else Some (es, offset).

(** [MultiDeserializer(es, buf, size)]: exactly [size] bytes of entries. *)
Definition MultiDeserializer_size (es : list LogEntry) (b : buffer) (p size : Z)
    : option (list LogEntry * Z) :=
  deserialize_size (entries_fuel size) es b p size 0.

Fixpoint deserialize_max (fuel : nat) (es : list LogEntry) (b : buffer) (p max_size offset : Z)
    : option (list LogEntry * Z) :=
  if offset <? max_size then
    match fuel with
    | O => None
    | S fuel =>
        if max_size - offset <? MetaDataSize then Some (es, offset) else
        sz0 ← GetSizeFromBuf b (p + offset);
        if max_size - offset <? sz0 then Some (es, offset) else
        '(e, sz) ← Deserializer LogEntry_default b (p + offset);
        if sz =? 0 then Some (es, offset)
        else deserialize_max fuel (es ++ [e]) b p max_size (offset + sz)
    end
  else Some (es, offset).

Definition MultiDeserializerMaxSize (es : list LogEntry) (b : buffer) (p max_size : Z)
    : option (list LogEntry * Z) :=
  deserialize_max (entries_fuel max_size) es b p max_size 0.

(** ** File-offset maps *)

Fixpoint build_map_num (n : nat) (map : gmap Z Z) (dummy : LogEntry) (b : buffer)
    (p curr_file_offset offset : Z) : option (gmap Z Z * Z) :=
  match n with
  | O => Some (map, offset)
  | S n =>
      '(dummy, sz) ← Deserializer dummy b (p + offset);
      if sz =? 0 then Some (map, offset) else
      let map := <[log_idx dummy := u64 (curr_file_offset + offset - 4)]> map in
      build_map_num n map dummy b p curr_file_offset (offset + sz)
  end.

(** [ProcessAndBuildMap(map, buf, curr_file_offset)]. *)
Definition ProcessAndBuildMap (map : gmap Z Z) (b : buffer) (p curr_file_offset : Z)
    : option (gmap Z Z * Z) :=
  num ← load_int 4 b p;
  build_map_num (Z.to_nat num) map LogEntry_default b p curr_file_offset 4.

Fixpoint build_map_size (fuel : nat) (map : gmap Z Z) (dummy : LogEntry) (b : buffer)
    (p size curr_file_offset offset num : Z) : option (gmap Z Z * Z * Z) :=
  if offset <? size then
    match fuel with
    | O => None
    | S fuel =>
        '(dummy, sz) ← Deserializer dummy b (p + offset);
        if sz =? 0 then Some (map, offset, num) else
        let map := <[log_idx dummy := u64 (curr_file_offset + offset)]> map in
        build_map_size fuel map dummy b p size curr_file_offset (offset + sz) (u32 (num + 1))
    end
  else Some (map, offset, num).

(** [ProcessAndBuildMap(map, buf, size, curr_file_offset)]. *)
Definition ProcessAndBuildMap_size (map : gmap Z Z) (b : buffer) (p size curr_file_offset : Z)
    : option (gmap Z Z * Z * Z) :=
  build_map_size (entries_fuel size) map LogEntry_default b p size curr_file_offset 0 0.

(** ** Request ids *)

Fixpoint serialize_ids (ids : list ReqID) (b : buffer) (p offset : Z) : option (buffer * Z) :=
  match ids with
  | [] => Some (b, offset)
  | rid :: ids =>
      '(b, offset) ← SERIALIZE_FIELD 8 b p offset rid.1;
      '(b, offset) ← SERIALIZE_FIELD 8 b p offset rid.2;
      serialize_ids ids b p offset
  end.

Definition ReqIdSerializer (ids : list ReqID) (b : buffer) (p : Z) : option (buffer * Z) :=
  let num := u32 (lenZ ids) in
  b ← store_int 4 b p num;
  serialize_ids ids b p 4.

Fixpoint deserialize_ids (n : nat) (ids : list ReqID) (b : buffer) (p offset : Z)
    : option (list ReqID * Z) :=
  match n with
  | O => Some (ids, offset)
  | S n =>
      '(cid, offset) ← DESERIALIZE_FIELD 8 b p offset;
      '(cseq, offset) ← DESERIALIZE_FIELD 8 b p offset;
      deserialize_ids n (ids ++ [(cid, cseq)]) b p offset
  end.

Definition ReqIdDeserializer (ids : list ReqID) (b : buffer) (p : Z) : option (list ReqID * Z) :=
  num ← load_int 4 b p;
  deserialize_ids (Z.to_nat num) ids b p 4.

(** ** Reference format *)

(** The bytes of an entry, without the padding that follows it. *)
Definition encode (e : LogEntry) : list byte :=
  le_bytes 8 (client_id e) ++ le_bytes 8 (client_seq e) ++ le_bytes 8 (log_idx e) ++ le_bytes 4 (size_ e) ++
  le_bytes 2 (flags e) ++ le_bytes 2 (view e) ++ data e.

(** Space an entry takes: header, data, padding to a multiple of four. *)
Definition pad4 (n : Z) : Z := n + (- n) mod 4.
Definition entry_size (e : LogEntry) : Z := MetaDataSize + pad4 (lenZ (data e)).
Definition total_size (es : list LogEntry) : Z := foldr (λ e n, entry_size e + n) 0 es.

(** Field values fit their types and [size] is the length of the data. *)
Definition wf_entry (e : LogEntry) : Prop :=
  0 ≤ client_id e < 2 ^ 64 ∧ 0 ≤ client_seq e < 2 ^ 64 ∧ 0 ≤ log_idx e < 2 ^ 64 ∧
  size_ e = lenZ (data e) ∧ 0 ≤ size_ e < 2 ^ 32 ∧
  0 ≤ flags e < 2 ^ 16 ∧ 0 ≤ view e < 2 ^ 16.

(** A well-formed entry whose flag is set, which a reader accepts; its size is
    small enough for [size + 3] not to wrap in [GetSize]. *)
Definition valid_entry (e : LogEntry) : Prop :=
  wf_entry e ∧ flags e ≠ 0 ∧ size_ e < 2 ^ 32 - 3.

#[export] Instance wf_entry_dec e : Decision (wf_entry e).
Proof. unfold wf_entry; apply _. Defined.
#[export] Instance valid_entry_dec e : Decision (valid_entry e).
Proof. unfold valid_entry; apply _. Defined.

(** The entry [e] is at address [p] in the bytes [f]. *)
Definition encoded_at (f : Z → byte) (p : Z) (e : LogEntry) : Prop :=
  peek f p (length (encode e)) = encode e.

(** [es] lie one after the other from address [p] on in the bytes [f]. *)
Fixpoint laid (f : Z → byte) (p : Z) (es : list LogEntry) : Prop :=
  match es with
  | [] => True
  | e :: es => encoded_at f p e ∧ laid f (p + entry_size e) es
  end.

(** The longest prefix whose entries fit in [n] bytes. *)
Fixpoint take_fit (n : Z) (es : list LogEntry) : list LogEntry :=
  match es with
  | [] => []
  | e :: es => if entry_size e <=? n then e :: take_fit (n - entry_size e) es else []
  end.

(** Indices [from], [from + itrv], ... up to [to], and the entries there. *)
Definition stride_idx (from to itrv : Z) : list Z :=
  (λ j, from + j * itrv) <$> seqZ 0 ((to - from) / itrv + 1).
Definition stride (es : list LogEntry) (from to itrv : Z) : list LogEntry :=
  omap (λ i, es !! Z.to_nat i) (stride_idx from to itrv).

(** The entries' offsets in a file, recorded one after the other. *)
Fixpoint insert_offsets (map : gmap Z Z) (ofst : Z) (es : list LogEntry) : gmap Z Z :=
  match es with
  | [] => map
  | e :: es => insert_offsets (<[log_idx e := ofst]> map) (ofst + entry_size e) es
  end.

#[global] Arguments encode : simpl never.
#[global] Arguments entry_size : simpl never.
#[global] Arguments pad4 : simpl never.

(** ** Lemmas on the format *)

Lemma length_encode e : length (encode e) = (32 + length (data e))%nat.
Proof. unfold encode. rewrite !length_app, !length_le. lia. Qed.

Lemma pad4_range n : n ≤ pad4 n < n + 4.
Proof. unfold pad4. pose proof (Z.mod_pos_bound (- n) 4 ltac:(lia)). lia. Qed.

Lemma pad4_div n : pad4 n mod 4 = 0.
Proof.
  unfold pad4. rewrite Z.add_mod_idemp_r by lia.
  replace (n + - n) with 0 by lia. done.
Qed.

Lemma and_not3_pad n : 0 ≤ n < 2 ^ 64 - 4 → and_not3 (n + 3) = pad4 n.
Proof.
  intros H. rewrite and_not3_spec by lia. unfold pad4.
  pose proof (Z.mod_pos_bound (- n) 4). pose proof (Z.mod_pos_bound (n + 3) 4).
  pose proof (Z.div_mod (- n) 4). pose proof (Z.div_mod (n + 3) 4). lia.
Qed.

Lemma entry_size_bounds e :
  MetaDataSize + lenZ (data e) ≤ entry_size e < MetaDataSize + lenZ (data e) + 4.
Proof. unfold entry_size. pose proof (pad4_range (lenZ (data e))). lia. Qed.

Lemma entry_size_pos e : 32 ≤ entry_size e.
Proof. pose proof (entry_size_bounds e). unfold MetaDataSize, FlagPos in *. lia. Qed.

Lemma entry_size_encode e : lenZ (encode e) ≤ entry_size e.
Proof.
  rewrite length_encode. pose proof (entry_size_bounds e).
  unfold MetaDataSize, FlagPos in *. lia.
Qed.

Lemma entry_size_mod4 e : entry_size e mod 4 = 0.
Proof.
  unfold entry_size. rewrite <- Z.add_mod_idemp_r, pad4_div by lia. done.
Qed.

Lemma total_size_nonneg es : 0 ≤ total_size es.
Proof.
  induction es as [|e es IH]; simpl; [done|]. pose proof (entry_size_pos e). lia.
Qed.

Lemma total_size_app es1 es2 : total_size (es1 ++ es2) = total_size es1 + total_size es2.
Proof. induction es1 as [|e es1 IH]; simpl; [done|]. rewrite IH. lia. Qed.

Lemma total_size_mod4 es : total_size es mod 4 = 0.
Proof.
  induction es as [|e es IH]; simpl; [done|].
  by rewrite Z.add_mod, entry_size_mod4, IH by lia.
Qed.

(** [GetSize] is the space the entry takes, as long as [size + 3] does not wrap. *)
Lemma padded_size_ok n : 0 ≤ n < 2 ^ 32 - 3 → padded_size n = MetaDataSize + pad4 n.
Proof.
  intros H. unfold padded_size. rewrite u32_small by lia.
  replace (MetaDataSize + (n + 3)) with ((MetaDataSize + n) + 3) by lia.
  unfold MetaDataSize, FlagPos. rewrite and_not3_pad by lia. unfold pad4.
  replace (- (8 + 8 + 8 + 4 + 2 + 2 + n)) with (- n + (-8) * 4) by lia.
  rewrite Z.mod_add by lia. lia.
Qed.

Lemma laid_app f p es1 es2 :
  laid f p (es1 ++ es2) ↔ laid f p es1 ∧ laid f (p + total_size es1) es2.
Proof.
  revert p; induction es1 as [|e es1 IH]; intros p; simpl.
  - rewrite Z.add_0_r. naive_solver.
  - rewrite IH, Z.add_assoc. naive_solver.
Qed.

Lemma laid_ext f g p q es :
  (∀ i, 0 ≤ i < total_size es → f (p + i) = g (q + i)) → laid f p es → laid g q es.
Proof.
  revert p q; induction es as [|e es IH]; intros p q Hfg; simpl; [done|].
  intros [He Hes]. simpl in Hfg.
  pose proof (entry_size_pos e). pose proof (entry_size_encode e).
  pose proof (total_size_nonneg es). split.
  - etrans; [|exact He]. symmetry. apply peek_ext. intros i Hi. apply Hfg. lia.
  - apply (IH (p + entry_size e)); [|done]. intros i Hi.
    rewrite <- !Z.add_assoc. apply Hfg. lia.
Qed.

Lemma take_fit_prefix n es : take_fit n es `prefix_of` es.
Proof.
  revert n; induction es as [|e es IH]; intros n; simpl; [done|].
  case_zb; [by apply prefix_cons|apply prefix_nil].
Qed.

Lemma take_fit_all n es : total_size es ≤ n → take_fit n es = es.
Proof.
  revert n; induction es as [|e es IH]; intros n H; simpl in *; [done|].
  pose proof (total_size_nonneg es). case_zb; [|lia]. by rewrite IH by lia.
Qed.

Lemma take_fit_size n es : 0 ≤ n → total_size (take_fit n es) ≤ n.
Proof.
  revert n; induction es as [|e es IH]; intros n H; simpl; [done|].
  case_zb; simpl; [|done]. specialize (IH (n - entry_size e)). lia.
Qed.

(** ** Serializer and Deserializer *)

(** Evaluate the running offsets of the header fields. *)
Ltac header_offsets :=
  of_nat_lit; rewrite ?Z.add_0_l in *; change (8 + 8) with 16 in *;
  change (16 + 8) with 24 in *; change (24 + 4) with 28 in *;
  change (28 + 2) with 30 in *; change (30 + 2) with 32 in *.

Lemma SERIALIZE_FIELD_ok n b p offset field :
  0 ≤ p + offset → p + offset + Z.of_nat n ≤ bcap b →
  SERIALIZE_FIELD n b p offset field = Some (bpoke b (p + offset) (le_bytes n field), offset + Z.of_nat n).
Proof.
  intros. unfold SERIALIZE_FIELD, store_int.
  by rewrite store_ok by (rewrite ?length_le; lia).
Qed.

Lemma DESERIALIZE_FIELD_ok n b p offset :
  0 ≤ p + offset → p + offset + Z.of_nat n ≤ bcap b →
  DESERIALIZE_FIELD n b p offset =
    Some (un_le (peek (rd (bmem b)) (p + offset) n), offset + Z.of_nat n).
Proof. intros. unfold DESERIALIZE_FIELD. by rewrite load_int_ok by lia. Qed.

(** The serializer writes exactly [encode e] at [p]. *)
Lemma Serializer_ok e b p :
  wf_entry e → 0 ≤ p → p + lenZ (encode e) ≤ bcap b →
  Serializer e b p = Some (bpoke b p (encode e), entry_size e).
Proof.
  intros (_ & _ & _ & Hsz & Hsz' & _) Hp Hcap. rewrite length_encode in Hcap.
  unfold Serializer.
  do 3 (rewrite SERIALIZE_FIELD_ok by (simpl; lia); simpl).
  rewrite (proj2 (Z.eqb_eq _ _) Hsz); simpl.
  do 3 (rewrite SERIALIZE_FIELD_ok by (simpl; lia); simpl).
  rewrite store_ok by (simpl; lia). simpl. do 2 f_equal.
  - unfold encode. rewrite !bpoke_app, !length_le, !Z.add_0_r.
    by rewrite <- !Z.add_assoc.
  - unfold entry_size, MetaDataSize, FlagPos. rewrite and_not3_pad by lia. lia.
Qed.

(** Whenever the serializer returns, it returns the size of the entry. *)
Lemma Serializer_size e b p b' n :
  wf_entry e → Serializer e b p = Some (b', n) → n = entry_size e.
Proof.
  intros (_ & _ & _ & Hsz & Hr & _) Hs.
  unfold Serializer, SERIALIZE_FIELD, store_int in Hs.
  repeat match type of Hs with
         | context [store ?b ?o ?bs] => destruct (store b o bs); simpl in Hs; [|discriminate]
         | context [if ?c then _ else _] => destruct c; [discriminate|]
         end.
  simplify_eq. header_offsets. unfold entry_size, MetaDataSize, FlagPos.
  rewrite and_not3_pad by lia. lia.
Qed.

(** Bytes of a field of an encoded entry. *)
Lemma peek_encode e f p :
  encoded_at f p e ↔
  peek f p 8 = le_bytes 8 (client_id e) ∧ peek f (p + 8) 8 = le_bytes 8 (client_seq e) ∧
  peek f (p + 16) 8 = le_bytes 8 (log_idx e) ∧ peek f (p + 24) 4 = le_bytes 4 (size_ e) ∧
  peek f (p + 28) 2 = le_bytes 2 (flags e) ∧ peek f (p + 30) 2 = le_bytes 2 (view e) ∧
  peek f (p + 32) (length (data e)) = data e.
Proof.
  unfold encoded_at. rewrite length_encode. unfold encode.
  change (32 + length (data e))%nat with (8 + (8 + (8 + (4 + (2 + (2 + length (data e)))))))%nat.
  rewrite !peek_app. of_nat_lit.
  replace (p + 8 + 8) with (p + 16) by lia. replace (p + 16 + 8) with (p + 24) by lia.
  replace (p + 24 + 4) with (p + 28) by lia. replace (p + 28 + 2) with (p + 30) by lia.
  replace (p + 30 + 2) with (p + 32) by lia.
  split.
  - intros H. repeat (apply app_inj_1 in H as [? H]; [|by rewrite length_peek, length_le]).
    done.
  - intros (-> & -> & -> & -> & -> & -> & ->). done.
Qed.

Lemma Deserializer_ok e e0 b p :
  valid_entry e → 0 ≤ p → p + lenZ (encode e) ≤ bcap b →
  encoded_at (rd (bmem b)) p e →
  Deserializer e0 b p = Some (e, entry_size e).
Proof.
  intros ((Hc & Hs & Hi & Hsz & Hsz' & Hf & Hv) & Hf0 & _) Hp Hcap Henc.
  rewrite length_encode in Hcap.
  apply peek_encode in Henc as (E1 & E2 & E3 & E4 & E5 & E6 & E7).
  unfold Deserializer.
  do 6 (rewrite DESERIALIZE_FIELD_ok by lia; simpl). header_offsets.
  rewrite Z.add_0_r, E1, E2, E3, E4, E5, E6, !un_le_le by (simpl; lia).
  rewrite (proj2 (Z.eqb_neq _ _) Hf0), Hsz, Nat2Z.id.
  rewrite load_ok by lia. simpl. rewrite E7. do 2 f_equal.
  - destruct e; simpl in *; congruence.
  - unfold entry_size, MetaDataSize, FlagPos. rewrite and_not3_pad by lia. lia.
Qed.

(** With the flag unset only the header is read. *)
Lemma Deserializer_unset e0 b p :
  0 ≤ p → p + MetaDataSize ≤ bcap b → peek (rd (bmem b)) (p + FlagPos) 2 = le_bytes 2 0 →
  ∃ e, Deserializer e0 b p = Some (e, 0) ∧ flags e = 0 ∧ data e = data e0.
Proof.
  unfold MetaDataSize, FlagPos. intros Hp Hcap Hfl. unfold Deserializer.
  do 6 (rewrite DESERIALIZE_FIELD_ok by lia; simpl). header_offsets. rewrite Hfl.
  change (un_le (le_bytes 2 0)) with 0. simpl. eexists. split; [done|]. done.
Qed.

(** ** Sequences: serializers *)

Lemma Serializer_step e b p :
  wf_entry e → 0 ≤ p → p + entry_size e ≤ bcap b →
  ∃ b', Serializer e b p = Some (b', entry_size e) ∧
        frame b b' p (p + entry_size e) ∧ encoded_at (rd (bmem b')) p e.
Proof.
  intros Hwf Hp Hcap. pose proof (entry_size_encode e).
  rewrite Serializer_ok by (done || lia). eexists. split; [done|]. split.
  - apply frame_bpoke. lia.
  - apply peek_poke_same.
Qed.

Lemma frame_encoded_at b b' lo hi p e :
  frame b b' lo hi → p + entry_size e ≤ lo ∨ hi ≤ p →
  encoded_at (rd (bmem b)) p e → encoded_at (rd (bmem b')) p e.
Proof.
  intros Hfr Hp He. unfold encoded_at. erewrite frame_peek; [done|done|].
  pose proof (entry_size_encode e). lia.
Qed.

Lemma frame_laid b b' lo hi p es :
  frame b b' lo hi → p + total_size es ≤ lo ∨ hi ≤ p →
  laid (rd (bmem b)) p es → laid (rd (bmem b')) p es.
Proof.
  intros [_ Hfr] Hp. apply laid_ext. intros i Hi. symmetry. apply Hfr. lia.
Qed.

Lemma serialize_each_ok es b p offset :
  Forall wf_entry es → 0 ≤ p + offset → p + offset + total_size es ≤ bcap b →
  ∃ b', serialize_each es b p offset = Some (b', offset + total_size es) ∧
        frame b b' (p + offset) (p + offset + total_size es) ∧
        laid (rd (bmem b')) (p + offset) es.
Proof.
  intros Hwf. revert b offset; induction Hwf as [|e es He Hwf IH]; intros b offset Hp Hcap.
  { simpl in *. rewrite !Z.add_0_r. eauto using frame_refl. }
  simpl in *. pose proof (total_size_nonneg es). pose proof (entry_size_pos e).
  destruct (Serializer_step e b (p + offset)) as (b1 & -> & Hf1 & He1); [done|lia..|].
  destruct (IH b1 (offset + entry_size e)) as (b2 & Hs & Hf2 & Hl2);
    [lia|rewrite (proj1 Hf1); lia|].
  rewrite Z.add_assoc in *. exists b2. simpl. rewrite Hs.
  replace (p + (offset + entry_size e)) with (p + offset + entry_size e) in * by lia.
  replace (p + offset + (entry_size e + total_size es))
    with (p + offset + entry_size e + total_size es) by lia.
  split; [done|]. split; [|split].
  - eapply frame_trans; [|done|done]. lia.
  - eapply frame_encoded_at; [done|lia|done].
  - done.
Qed.

(** The range variant serializes the sub-vector [es[from .. from + num)]. *)
Lemma serialize_range_each n es i b p offset :
  0 ≤ i → i + Z.of_nat n ≤ lenZ es → lenZ es < 2 ^ 64 →
  serialize_range n es i b p offset = serialize_each (take n (drop (Z.to_nat i) es)) b p offset.
Proof.
  intros Hi Hn Hes. revert i b offset Hi Hn; induction n as [|n IH]; intros i b offset Hi Hn; [done|].
  simpl. rewrite u64_small by lia.
  destruct (lookup_lt_is_Some_2 es (Z.to_nat i)) as [e He]; [lia|].
  rewrite He, (drop_S _ _ _ He). simpl.
  destruct (Serializer e b (p + offset)) as [[b' sz]|]; simpl; [|done].
  rewrite IH by lia. by replace (Z.to_nat (i + 1)) with (S (Z.to_nat i)) by lia.
Qed.

Lemma stride_idx_nil from to itrv : 0 < itrv → to < from → stride_idx from to itrv = [].
Proof.
  intros Hi Ht. unfold stride_idx. rewrite seqZ_nil; [done|].
  pose proof (Z.div_lt_upper_bound (to - from) itrv 0 Hi). lia.
Qed.

Lemma stride_idx_cons from to itrv :
  0 < itrv → from ≤ to → stride_idx from to itrv = from :: stride_idx (from + itrv) to itrv.
Proof.
  intros Hi Ht. unfold stride_idx.
  pose proof (Z.div_pos (to - from) itrv ltac:(lia) Hi).
  rewrite seqZ_cons by lia. simpl. f_equal; [lia|].
  replace (to - (from + itrv)) with (to - from + (-1) * itrv) by lia.
  rewrite Z.div_add by lia.
  replace (Z.pred ((to - from) / itrv + 1)) with ((to - from) / itrv + -1 + 1) by lia.
  rewrite <- (fmap_add_seqZ 1 0), <- list_fmap_compose.
  apply list_fmap_ext. intros ? j _. simpl. lia.
Qed.

Lemma elem_of_stride_idx i from to itrv :
  0 < itrv → i ∈ stride_idx from to itrv ↔ ∃ j, 0 ≤ j ∧ i = from + j * itrv ∧ i ≤ to.
Proof.
  intros Hi. unfold stride_idx. rewrite list_elem_of_fmap. split.
  - intros (j & -> & Hj%elem_of_seqZ). exists j. split; [lia|]. split; [done|].
    assert (j ≤ (to - from) / itrv) as Hj' by lia.
    pose proof (Z.mul_div_le (to - from) itrv Hi). nia.
  - intros (j & Hj & -> & Hle). exists j. split; [done|]. apply elem_of_seqZ.
    assert (j ≤ (to - from) / itrv) by (apply Z.div_le_lower_bound; lia). lia.
Qed.

Lemma length_stride es from to itrv :
  0 < itrv → 0 ≤ from → to < lenZ es → length (stride es from to itrv) = length (stride_idx from to itrv).
Proof.
  intros Hi Hf Ht. unfold stride.
  assert (∀ i, i ∈ stride_idx from to itrv → 0 ≤ i < lenZ es) as Hin.
  { intros i (j & Hj & -> & Hle)%elem_of_stride_idx; [|done]. nia. }
  induction (stride_idx from to itrv) as [|i l IH]; simpl; [done|].
  destruct (lookup_lt_is_Some_2 es (Z.to_nat i)) as [e He].
  { pose proof (Hin i (list_elem_of_here _ _)). lia. }
  rewrite He. simpl. f_equal. apply IH. intros k Hk. apply Hin. by apply list_elem_of_further.
Qed.

Lemma Forall_stride (P : LogEntry → Prop) es from to itrv :
  Forall P es → Forall P (stride es from to itrv).
Proof.
  intros HP. unfold stride. induction (stride_idx from to itrv) as [|i l IH]; simpl; [done|].
  destruct (es !! Z.to_nat i) eqn:Hi; [|done]. constructor; [|done].
  eapply (Forall_lookup_1 P); [exact HP|exact Hi].
Qed.

(** The strided loop serializes the entries of [stride] and counts them. *)
Lemma serialize_stride_each fuel es i to itrv b p offset num :
  0 ≤ i → 0 < itrv → to < lenZ es → 0 ≤ to → to + itrv < 2 ^ 64 →
  (length (stride_idx i to itrv) ≤ fuel)%nat →
  0 ≤ num → num + lenZ (stride_idx i to itrv) < 2 ^ 32 →
  serialize_stride fuel es i to itrv b p offset num =
    '(b', offset') ← serialize_each (stride es i to itrv) b p offset;
    Some (b', offset', num + lenZ (stride_idx i to itrv), i + lenZ (stride_idx i to itrv) * itrv).
Proof.
  intros Hi Hitrv Hto Hto0 Hw. revert i b offset num Hi; induction fuel as [|fuel IH];
    intros i b offset num Hi Hfuel Hnum Hnum'; simpl; unfold stride.
  - case_zb; [rewrite stride_idx_cons in Hfuel by lia; simpl in Hfuel; lia|].
    rewrite stride_idx_nil by lia. simpl. do 2 f_equal; [f_equal|]; lia.
  - case_zb.
    + rewrite stride_idx_cons in * by lia. simpl in *.
      destruct (lookup_lt_is_Some_2 es (Z.to_nat i)) as [e He]; [lia|]. rewrite He. simpl.
      destruct (Serializer e b (p + offset)) as [[b' sz]|]; simpl; [|done].
      rewrite u64_small, u32_small by lia. rewrite IH by lia. fold (stride es (i + itrv) to itrv).
      destruct (serialize_each _ _ _ _) as [[b'' o'']|]; simpl; [|done].
      do 2 f_equal; [f_equal|]; lia.
    + rewrite stride_idx_nil by lia. simpl. do 2 f_equal; [f_equal|]; lia.
Qed.

(** ** Sequences: deserializers *)

Lemma valid_wf es : Forall valid_entry es → Forall wf_entry es.
Proof. apply Forall_impl. by intros e [? _]. Qed.

(** One step of a reader over entries laid out at [p + offset]. *)
Lemma Deserializer_laid e e0 es b p :
  laid (rd (bmem b)) p (e :: es) → valid_entry e → 0 ≤ p → p + entry_size e ≤ bcap b →
  Deserializer e0 b p = Some (e, entry_size e) ∧ (entry_size e =? 0) = false.
Proof.
  intros [He _] Hv Hp Hcap. pose proof (entry_size_encode e). pose proof (entry_size_pos e).
  split; [apply Deserializer_ok; (done || lia)|]. apply Z.eqb_neq. lia.
Qed.

Lemma deserialize_num_ok es acc b p offset :
  laid (rd (bmem b)) (p + offset) es → Forall valid_entry es →
  0 ≤ p + offset → p + offset + total_size es ≤ bcap b →
  deserialize_num (length es) acc b p offset = Some (acc ++ es, offset + total_size es).
Proof.
  intros Hl Hv. revert acc offset Hl; induction Hv as [|e es He Hv IH]; intros acc offset Hl Hp Hcap.
  { simpl. by rewrite app_nil_r, Z.add_0_r. }
  simpl in Hcap. pose proof (total_size_nonneg es). pose proof (entry_size_pos e).
  destruct (Deserializer_laid e LogEntry_default es b (p + offset)) as [HD Hsz]; [done..|lia|].
  destruct Hl as [_ Hl]. rewrite <- Z.add_assoc in Hl.
  simpl. rewrite HD. simpl. rewrite Hsz, IH by (done || lia).
  by rewrite <- app_assoc, Z.add_assoc.
Qed.

Lemma deserialize_size_ok es acc b p offset size fuel :
  laid (rd (bmem b)) (p + offset) es → Forall valid_entry es →
  0 ≤ p + offset → p + offset + total_size es ≤ bcap b →
  size = offset + total_size es → (length es ≤ fuel)%nat →
  deserialize_size fuel acc b p size offset = Some (acc ++ es, size).
Proof.
  intros Hl Hv. revert acc offset fuel Hl; induction Hv as [|e es He Hv IH];
    intros acc offset fuel Hl Hp Hcap Hsize Hfuel; simpl in *.
  { destruct fuel; simpl; (case_zb; [lia|]); rewrite app_nil_r; by replace offset with size by lia. }
  pose proof (total_size_nonneg es). pose proof (entry_size_pos e).
  destruct fuel as [|fuel]; [lia|]. simpl. case_zb; [|lia].
  destruct (Deserializer_laid e LogEntry_default es b (p + offset)) as [HD Hsz]; [done..|lia|].
  destruct Hl as [_ Hl]. rewrite <- Z.add_assoc in Hl.
  rewrite HD. simpl. rewrite Hsz, IH by (done || lia). by rewrite <- app_assoc.
Qed.

Lemma length_total_size es : 32 * lenZ es ≤ total_size es.
Proof.
  induction es as [|e es IH]; simpl; [done|]. pose proof (entry_size_pos e). lia.
Qed.

Lemma entries_fuel_ok es n : total_size es ≤ n → (length es ≤ entries_fuel n)%nat.
Proof.
  intros H. pose proof (length_total_size es). unfold entries_fuel, MetaDataSize, FlagPos.
  assert (lenZ es ≤ n / 32) by (apply Z.div_le_lower_bound; lia).
  change (8 + 8 + 8 + 4 + 2 + 2) with 32. lia.
Qed.

Lemma GetSizeFromBuf_ok e f b p :
  encoded_at f p e → (∀ i, 0 ≤ i < 32 → rd (bmem b) (p + i) = f (p + i)) →
  valid_entry e → 0 ≤ p → p + MetaDataSize ≤ bcap b → GetSizeFromBuf b p = Some (entry_size e).
Proof.
  intros He Hbf ((_ & _ & _ & Hsz & Hr & _) & _ & Hs3) Hp Hcap.
  unfold MetaDataSize, FlagPos in Hcap.
  apply peek_encode in He as (_ & _ & _ & E4 & _). unfold GetSizeFromBuf.
  change (8 + 8 + 8) with 24. rewrite load_int_ok by lia.
  rewrite (peek_ext _ f _ (p + 24)), E4.
  - rewrite un_le_le by (of_nat_lit; lia). simpl. rewrite padded_size_ok by lia.
    unfold entry_size. by rewrite <- Hsz.
  - intros i Hi. rewrite <- !Z.add_assoc. apply Hbf. lia.
Qed.

(** Reading ends there: at the end of the window, or at an entry without its flag. *)
Definition ends (f : Z → byte) (n p : Z) (es : list LogEntry) : Prop :=
  n ≤ total_size es ∨ peek f (p + total_size es + FlagPos) 2 = le_bytes 2 0.

Lemma deserialize_max_unset f acc b p offset max fuel :
  ends f (max - offset) (p + offset) [] → (∀ a, p ≤ a < p + max → rd (bmem b) a = f a) →
  0 ≤ p → 0 ≤ offset → p + max ≤ bcap b → ((max - offset) / 32 < Z.of_nat fuel) →
  deserialize_max fuel acc b p max offset = Some (acc, offset).
Proof.
  unfold ends. simpl. rewrite Z.add_0_r. intros He Hbf Hp Ho Hcap Hfuel.
  destruct fuel as [|fuel]; simpl; destruct (Z.ltb_spec offset max); try done.
  - assert (0 ≤ (max - offset) / 32) by (apply Z.div_pos; lia). lia.
  - destruct He as [He|He]; [lia|]. unfold MetaDataSize, FlagPos in *.
    change (8 + 8 + 8 + 4 + 2 + 2) with 32. case_zb; [done|].
    unfold GetSizeFromBuf. rewrite load_int_ok by (of_nat_lit; lia). simpl. case_zb; [done|].
    destruct (Deserializer_unset LogEntry_default b (p + offset)) as (e & -> & _); [lia| | |done].
    + unfold MetaDataSize, FlagPos. lia.
    + rewrite <- He. unfold FlagPos. apply peek_ext. intros i Hi. apply Hbf. lia.
Qed.

(** A window of [max] bytes over laid-out entries yields those that fit. *)
Lemma deserialize_max_ok f es acc b p offset max fuel :
  laid f (p + offset) es → Forall valid_entry es →
  (∀ a, p ≤ a < p + max → rd (bmem b) a = f a) →
  0 ≤ p → 0 ≤ offset → p + max ≤ bcap b → ends f (max - offset) (p + offset) es →
  ((max - offset) / 32 < Z.of_nat fuel) →
  deserialize_max fuel acc b p max offset =
    Some (acc ++ take_fit (max - offset) es, offset + total_size (take_fit (max - offset) es)).
Proof.
  intros Hl Hv Hbf Hp. revert acc offset fuel Hl; induction Hv as [|e es He Hv IH];
    intros acc offset fuel Hl Ho Hcap Htot Hfuel.
  { simpl. rewrite app_nil_r, Z.add_0_r. by apply (deserialize_max_unset f). }
  destruct Hl as [Hl1 Hl2]. pose proof (entry_size_pos e).
  assert (max - offset < 32 → take_fit (max - offset) (e :: es) = []) as Hnofit.
  { intros. simpl. case_zb; [lia|done]. }
  destruct fuel as [|fuel]; simpl; unfold MetaDataSize, FlagPos;
    change (8 + 8 + 8 + 4 + 2 + 2) with 32; destruct (Z.ltb_spec offset max).
  - assert (0 ≤ (max - offset) / 32) by (apply Z.div_pos; lia). lia.
  - case_zb; [lia|]. by rewrite app_nil_r, Z.add_0_r.
  - case_zb; [rewrite (proj2 (Z.leb_gt _ _)) by lia; by rewrite app_nil_r, Z.add_0_r|].
    rewrite (GetSizeFromBuf_ok e f); [simpl|done| |done|lia|unfold MetaDataSize, FlagPos; lia].
    2:{ intros i Hi. apply Hbf. lia. }
    destruct (Z.leb_spec (entry_size e) (max - offset)); (case_zb; try lia).
    2:{ by rewrite app_nil_r, Z.add_0_r. }
    rewrite (Deserializer_ok e); [simpl|done|lia|pose proof (entry_size_encode e); lia|].
    2:{ unfold encoded_at. etrans; [|exact Hl1]. apply peek_ext. intros i Hi.
        pose proof (entry_size_encode e). apply Hbf. lia. }
    case_zb; [lia|].
    rewrite IH; [| |lia|done| |].
    + rewrite <- app_assoc. simpl. rewrite Z.add_assoc.
      by replace (max - (offset + entry_size e)) with (max - offset - entry_size e) by lia.
    + by replace (p + (offset + entry_size e)) with (p + offset + entry_size e) by lia.
    + unfold ends in *. simpl in Htot. rewrite !Z.add_assoc in *. destruct Htot; [left; lia|by right].
    + replace (max - (offset + entry_size e)) with (max - offset - entry_size e) by lia.
      assert ((max - offset - entry_size e) / 32 ≤ (max - offset + (-1) * 32) / 32)
        by (apply Z.div_le_mono; lia).
      rewrite Z.div_add in * by lia. lia.
  - case_zb; [lia|]. by rewrite app_nil_r, Z.add_0_r.
Qed.

(** ** Properties *)

(** C26. What [Serializer] writes at any place with room for it, [Deserializer]
    reads back: the same entry, the same length, whatever the argument entry held
    before; nothing outside the entry's slot changes. *)
Theorem Serializer_Deserializer e e0 b p :
  valid_entry e → 0 ≤ p → p + entry_size e ≤ bcap b →
  ∃ b', Serializer e b p = Some (b', entry_size e) ∧
        Deserializer e0 b' p = Some (e, entry_size e) ∧
        frame b b' p (p + entry_size e).
Proof.
  intros Hv Hp Hcap. destruct (Serializer_step e b p) as (b' & Hs & Hf & He); [apply Hv|done..|].
  pose proof (entry_size_encode e). exists b'. split; [done|]. split; [|done].
  apply Deserializer_ok; [done|done|rewrite (proj1 Hf); lia|done].
Qed.

Definition sample_entry : LogEntry :=
  mkEntry 42 7 3 5 1 0 [Byte.x68; Byte.x65; Byte.x6c; Byte.x6c; Byte.x6f].

Lemma Serializer_Deserializer_witness :
  ∃ b', Serializer sample_entry (Buf 64 ∅) 8 = Some (b', 40) ∧
        Deserializer LogEntry_default b' 8 = Some (sample_entry, 40) ∧
        frame (Buf 64 ∅) b' 8 48.
Proof.
  apply (Serializer_Deserializer sample_entry LogEntry_default (Buf 64 ∅) 8).
  - by apply (bool_decide_unpack (valid_entry sample_entry)); vm_compute.
  - done.
  - done.
Defined.

(** C31. [GetSize] is the number of bytes [Serializer] returns, for every entry whose
    [size + 3] fits 32 bits; for the three larger sizes the 32-bit addition wraps
    and [GetSize] returns the header size only. *)
Theorem GetSize_Serializer e b p b' n :
  wf_entry e → Serializer e b p = Some (b', n) →
  GetSize e = if size_ e <? 2 ^ 32 - 3 then n else MetaDataSize.
Proof.
  intros Hwf Hs. pose proof Hwf as (_ & _ & _ & Hsz & Hr & _).
  assert (n = entry_size e) as -> by (by eapply Serializer_size).
  unfold GetSize, entry_size. rewrite <- Hsz. case_zb; [by apply padded_size_ok; lia|].
  unfold padded_size, u32. replace (size_ e + 3) with (size_ e + 3 - 2 ^ 32 + 1 * 2 ^ 32) by lia.
  rewrite Z.mod_add, Z.mod_small by lia.
  assert (size_ e + 3 - 2 ^ 32 = 0 ∨ size_ e + 3 - 2 ^ 32 = 1 ∨ size_ e + 3 - 2 ^ 32 = 2)
    as [-> | [-> | ->]] by lia; done.
Qed.

Lemma GetSize_Serializer_witness : GetSize sample_entry = 40.
Proof.
  destruct (Serializer sample_entry (Buf 64 ∅) 8) as [[b' n]|] eqn:E; [|vm_compute in E; discriminate].
  rewrite (GetSize_Serializer sample_entry (Buf 64 ∅) 8 b' n);
    [vm_compute in E; by simplify_eq| |done].
  by apply (bool_decide_unpack (wf_entry sample_entry)); vm_compute.
Defined.

(** A buffer that starts with a count and then holds [es]. *)
Definition holds_batch (b : buffer) (es : list LogEntry) : Prop :=
  4 + total_size es ≤ bcap b ∧ peek (rd (bmem b)) 0 4 = le_bytes 4 (lenZ es) ∧
  laid (rd (bmem b)) 4 es.

Lemma MultiDeserializer_ok acc b es :
  holds_batch b es → Forall valid_entry es → lenZ es < 2 ^ 32 →
  MultiDeserializer acc b 0 = Some (acc ++ es, 4 + total_size es).
Proof.
  intros (Hcap & Hn & Hl) Hv Hlen. pose proof (total_size_nonneg es).
  unfold MultiDeserializer. rewrite load_int_ok by lia. rewrite Hn, un_le_le by (of_nat_lit; lia).
  simpl. rewrite Nat2Z.id. apply deserialize_num_ok; (done || lia).
Qed.

(** Filling in the count before or after the entries gives such a buffer. *)
Lemma count_then_batch es b :
  Forall wf_entry es → 4 + total_size es ≤ bcap b →
  ∃ b', serialize_each es (bpoke b 0 (le_bytes 4 (lenZ es))) 0 4 = Some (b', 4 + total_size es) ∧
        holds_batch b' es ∧ bcap b' = bcap b.
Proof.
  intros Hwf Hcap. pose proof (total_size_nonneg es).
  destruct (serialize_each_ok es (bpoke b 0 (le_bytes 4 (lenZ es))) 0 4) as (b' & Hs & Hf & Hl);
    [done|lia|simpl; lia|]. exists b'. split; [done|].
  destruct Hf as [Hc Hf]. split; [|done]. split; [simpl in Hc; lia|]. split; [|done].
  rewrite <- (peek_poke_int (bmem b) 0 4 (lenZ es)).
  apply peek_ext. intros i Hi. apply Hf. lia.
Qed.

Lemma batch_then_count es b :
  Forall wf_entry es → 4 + total_size es ≤ bcap b →
  ∃ b', serialize_each es b 0 4 = Some (b', 4 + total_size es) ∧
        holds_batch (bpoke b' 0 (le_bytes 4 (lenZ es))) es ∧ bcap b' = bcap b.
Proof.
  intros Hwf Hcap. pose proof (total_size_nonneg es).
  destruct (serialize_each_ok es b 0 4) as (b' & Hs & Hf & Hl); [done|lia|lia|].
  exists b'. split; [done|]. destruct Hf as [Hc Hf]. split; [|done].
  split; [simpl; lia|]. split.
  - apply peek_poke_int.
  - eapply frame_laid; [apply (frame_bpoke _ 0 _ 4)|by right|done]. by rewrite length_le.
Qed.

Lemma MultiSerializer_ok es b :
  Forall wf_entry es → lenZ es < 2 ^ 32 → 4 + total_size es ≤ bcap b →
  ∃ b', MultiSerializer es b 0 = Some (b', 4 + total_size es) ∧ holds_batch b' es ∧ bcap b' = bcap b.
Proof.
  intros Hv Hlen Hcap. pose proof (total_size_nonneg es).
  destruct (count_then_batch es b) as (b' & Hs & Hb & Hc); [done..|]. exists b'. split; [|done].
  unfold MultiSerializer, store_int. rewrite u32_small by lia.
  by rewrite store_ok by (rewrite ?length_le; lia).
Qed.

(** C27. A vector written by [MultiSerializer] is appended unchanged by
    [MultiDeserializer], which consumes exactly the bytes written. *)
Theorem MultiSerializer_MultiDeserializer es acc b :
  Forall valid_entry es → lenZ es < 2 ^ 32 → 4 + total_size es ≤ bcap b →
  ∃ b', MultiSerializer es b 0 = Some (b', 4 + total_size es) ∧
        MultiDeserializer acc b' 0 = Some (acc ++ es, 4 + total_size es).
Proof.
  intros Hv Hlen Hcap. destruct (MultiSerializer_ok es b) as (b' & Hs & Hb & _); [by apply valid_wf|done..|].
  exists b'. split; [done|]. by apply MultiDeserializer_ok.
Qed.

Lemma MultiSerializer_MultiDeserializer_witness :
  let es := [sample_entry; set_log_idx sample_entry 9] in
  ∃ b', MultiSerializer es (Buf 128 ∅) 0 = Some (b', 84) ∧
        MultiDeserializer [] b' 0 = Some (es, 84).
Proof.
  apply (MultiSerializer_MultiDeserializer
           [sample_entry; set_log_idx sample_entry 9] [] (Buf 128 ∅)).
  - repeat constructor; by apply (bool_decide_unpack (valid_entry _)); vm_compute.
  - done.
  - done.
Defined.

(** What the strided serializer produces: the batch of the entries [from],
    [from + itrv], ..., and the index of the last of them. *)
Lemma MultiSerializer_stride_ok es from to itrv b :
  Forall wf_entry es → lenZ es < 2 ^ 32 → 0 < itrv < 2 ^ 32 → 0 ≤ from → from ≤ to →
  to < lenZ es → 4 + total_size (stride es from to itrv) ≤ bcap b →
  ∃ b', MultiSerializer_stride es from to itrv b 0 =
          Some (b', 4 + total_size (stride es from to itrv), from + (to - from) / itrv * itrv) ∧
        holds_batch b' (stride es from to itrv).
Proof.
  intros Hwf Hlen Hitrv Hfrom Hft Hto Hcap.
  assert (lenZ (stride_idx from to itrv) = (to - from) / itrv + 1) as Hn.
  { unfold stride_idx. rewrite length_fmap, length_seqZ.
    pose proof (Z.div_pos (to - from) itrv). lia. }
  assert ((to - from) / itrv ≤ to - from) by (apply Z.div_le_upper_bound; nia).
  pose proof (Z.mul_div_le (to - from) itrv ltac:(lia)).
  pose proof (Z.div_pos (to - from) itrv ltac:(lia) ltac:(lia)).
  pose proof (total_size_nonneg (stride es from to itrv)).
  assert (Forall wf_entry (stride es from to itrv)) as Hwf'.
  { by apply Forall_stride. }
  destruct (batch_then_count (stride es from to itrv) b) as (b' & Hs & Hb & Hc); [done..|].
  unfold MultiSerializer_stride. rewrite serialize_stride_each by lia.
  rewrite Hs. simpl. unfold store_int. rewrite store_ok by (rewrite ?length_le; lia).
  eexists. split.
  - simpl. do 2 f_equal. rewrite Hn, u64_small; lia.
  - by rewrite length_stride, <- (Z.add_0_l (lenZ _)) in Hb by lia.
Qed.

(** The strided [MultiSerializer] used to send a stripe to a shard: the receiver
    decodes exactly the entries at [from], [from + itrv], ... up to [to], in order,
    and [to] is updated to the index of the last entry sent. *)
Theorem MultiSerializer_stride_spec es from to itrv b :
  Forall valid_entry es → lenZ es < 2 ^ 32 → 0 < itrv < 2 ^ 32 → 0 ≤ from → from ≤ to →
  to < lenZ es → 4 + total_size (stride es from to itrv) ≤ bcap b →
  ∃ b' n, MultiSerializer_stride es from to itrv b 0 =
            Some (b', n, from + (to - from) / itrv * itrv) ∧
          MultiDeserializer [] b' 0 = Some (stride es from to itrv, n).
Proof.
  intros Hv Hlen Hitrv Hfrom Hft Hto Hcap.
  destruct (MultiSerializer_stride_ok es from to itrv b) as (b' & Hs & Hb);
    [by apply valid_wf|done..|].
  exists b', (4 + total_size (stride es from to itrv)). split; [done|].
  apply (MultiDeserializer_ok []); [done| |].
  - by apply Forall_stride.
  - rewrite length_stride by lia. unfold stride_idx. rewrite length_fmap, length_seqZ.
    assert ((to - from) / itrv ≤ to - from) by (apply Z.div_le_upper_bound; nia). lia.
Qed.

Lemma MultiSerializer_stride_spec_witness :
  let es := (λ i, set_log_idx sample_entry i) <$> [0; 1; 2; 3; 4; 5] in
  ∃ b' n, MultiSerializer_stride es 0 5 2 (Buf 512 ∅) 0 = Some (b', n, 4) ∧
          MultiDeserializer [] b' 0 =
            Some ((λ i, set_log_idx sample_entry i) <$> [0; 2; 4], n).
Proof.
  intros es.
  replace ((λ i, set_log_idx sample_entry i) <$> [0; 2; 4]) with (stride es 0 5 2)
    by (by vm_compute).
  apply (MultiSerializer_stride_spec es 0 5 2 (Buf 512 ∅)).
  - repeat constructor; by apply (bool_decide_unpack (valid_entry _)); vm_compute.
  - done.
  - done.
  - done.
  - done.
  - done.
  - by vm_compute.
Defined.

(** A window of a size over entries yields those that fit in it. *)
Lemma MultiDeserializerMaxSize_ok f es acc b max_size :
  laid f 0 es → Forall valid_entry es → 0 ≤ max_size ≤ bcap b → ends f max_size 0 es →
  (∀ a, 0 ≤ a < max_size → rd (bmem b) a = f a) →
  MultiDeserializerMaxSize acc b 0 max_size =
    Some (acc ++ take_fit max_size es, total_size (take_fit max_size es)).
Proof.
  intros Hl Hv Hm Hend Hbf. unfold MultiDeserializerMaxSize.
  rewrite (deserialize_max_ok f es); rewrite ?Z.sub_0_r, ?Z.add_0_l; (done || lia || idtac).
  unfold entries_fuel, MetaDataSize, FlagPos. change (8 + 8 + 8 + 4 + 2 + 2) with 32.
  pose proof (Z.div_pos max_size 32). lia.
Qed.

(** ** Request ids *)

Definition encode_id (rid : ReqID) : list byte := le_bytes 8 rid.1 ++ le_bytes 8 rid.2.
Definition wf_id (rid : ReqID) : Prop := 0 ≤ rid.1 < 2 ^ 64 ∧ 0 ≤ rid.2 < 2 ^ 64.

Lemma serialize_ids_ok ids b p offset :
  0 ≤ p + offset → p + offset + 16 * lenZ ids ≤ bcap b →
  serialize_ids ids b p offset =
    Some (bpoke b (p + offset) (flat_map encode_id ids), offset + 16 * lenZ ids).
Proof.
  revert b offset; induction ids as [|rid ids IH]; intros b offset Hp Hcap;
    cbn [serialize_ids flat_map length] in *.
  { rewrite Z.add_0_r. do 2 f_equal. unfold bpoke, poke.
    cbn [map_seqZ]. rewrite (left_id_L ∅ (∪)). by destruct b. }
  do 2 (rewrite SERIALIZE_FIELD_ok by (simpl; lia); cbn [mbind option_bind]). of_nat_lit.
  rewrite IH by (simpl; lia). do 2 f_equal; [|lia].
  unfold encode_id at 2. rewrite !bpoke_app, !length_app, !length_le.
  change (Z.of_nat (8 + 8)) with 16. of_nat_lit.
  by replace (p + (offset + 8 + 8)) with (p + offset + 16) by lia; rewrite Z.add_assoc.
Qed.

Lemma deserialize_ids_ok ids acc b p offset :
  Forall wf_id ids → peek (rd (bmem b)) (p + offset) (16 * length ids) = flat_map encode_id ids →
  0 ≤ p + offset → p + offset + 16 * lenZ ids ≤ bcap b →
  deserialize_ids (length ids) acc b p offset = Some (acc ++ ids, offset + 16 * lenZ ids).
Proof.
  intros Hwf. revert acc offset; induction Hwf as [|[c s] ids [Hc Hs] Hwf IH];
    intros acc offset Hpk Hp Hcap; cbn [deserialize_ids flat_map length] in *.
  { by rewrite app_nil_r, Z.add_0_r. }
  replace (16 * S (length ids))%nat with (8 + (8 + 16 * length ids))%nat in Hpk by lia.
  unfold encode_id in Hpk at 1. cbn [fst snd] in Hpk.
  rewrite <- app_assoc, !peek_app in Hpk.
  apply app_inj_1 in Hpk as [E1 Hpk]; [|by rewrite length_peek, length_le].
  apply app_inj_1 in Hpk as [E2 Hpk]; [|by rewrite length_peek, length_le].
  do 2 (rewrite DESERIALIZE_FIELD_ok by lia; simpl). of_nat_lit.
  rewrite Z.add_assoc, E1, E2, !un_le_le by (of_nat_lit; simpl in *; lia).
  rewrite IH; [|by rewrite <- Hpk; f_equal; lia|lia..].
  rewrite <- app_assoc. do 2 f_equal. lia.
Qed.

(** The buffer starts with a count and that many request ids. *)
Definition holds_ids (b : buffer) (ids : list ReqID) : Prop :=
  4 + 16 * lenZ ids ≤ bcap b ∧ peek (rd (bmem b)) 0 4 = le_bytes 4 (lenZ ids) ∧
  peek (rd (bmem b)) 4 (16 * length ids) = flat_map encode_id ids.

Lemma ReqIdSerializer_ok ids b :
  lenZ ids < 2 ^ 32 → 4 + 16 * lenZ ids ≤ bcap b →
  ∃ b', ReqIdSerializer ids b 0 = Some (b', 4 + 16 * lenZ ids) ∧ holds_ids b' ids ∧ bcap b' = bcap b.
Proof.
  intros Hlen Hcap. unfold ReqIdSerializer, store_int. rewrite u32_small by lia.
  rewrite store_ok by (rewrite ?length_le; lia). simpl. rewrite serialize_ids_ok by (simpl; lia).
  assert (length (flat_map encode_id ids) = (16 * length ids)%nat) as Hl.
  { clear. induction ids as [|rid ids IH]; [done|].
    cbn [flat_map length]. rewrite length_app, IH. unfold encode_id. rewrite length_app, !length_le. lia. }
  eexists. split; [done|]. split; [|done]. split; [done|]. unfold bpoke. cbn [bmem]. split.
  - rewrite peek_poke_out by (of_nat_lit; lia). apply peek_poke_int.
  - rewrite <- Hl. apply peek_poke_same.
Qed.

Lemma ReqIdDeserializer_ok ids acc b :
  holds_ids b ids → Forall wf_id ids → lenZ ids < 2 ^ 32 →
  ReqIdDeserializer acc b 0 = Some (acc ++ ids, 4 + 16 * lenZ ids).
Proof.
  intros (Hcap & Hn & Hids) Hwf Hlen. unfold ReqIdDeserializer.
  rewrite load_int_ok by lia. simpl. rewrite Hn, un_le_le by (of_nat_lit; lia).
  rewrite Nat2Z.id. by apply deserialize_ids_ok.
Qed.

(** The part of a buffer that is sent as a message holds the same. *)
Lemma holds_ids_msg b ids n :
  holds_ids b ids → Z.of_nat n = 4 + 16 * lenZ ids → holds_ids (msg_buf (peek (rd (bmem b)) 0 n)) ids.
Proof.
  intros (_ & Hn & Hids) Hlen. split; [|split].
  - simpl. rewrite length_peek. lia.
  - rewrite <- Hn. apply peek_ext. intros i Hi. apply rd_msg_peek. lia.
  - rewrite <- Hids. apply peek_ext. intros i Hi. apply rd_msg_peek. lia.
Qed.

Lemma holds_batch_msg b es n :
  holds_batch b es → Z.of_nat n = 4 + total_size es → holds_batch (msg_buf (peek (rd (bmem b)) 0 n)) es.
Proof.
  intros (_ & Hn & Hl) Hlen. pose proof (total_size_nonneg es). split; [|split].
  - simpl. rewrite length_peek. lia.
  - rewrite <- Hn. apply peek_ext. intros i Hi. apply rd_msg_peek. lia.
  - eapply laid_ext; [|exact Hl]. intros i Hi. symmetry. apply rd_msg_peek. lia.
Qed.

(** A list of request ids sent for garbage collection is received unchanged. *)
Theorem ReqIdSerializer_ReqIdDeserializer ids acc b :
  Forall wf_id ids → lenZ ids < 2 ^ 32 → 4 + 16 * lenZ ids ≤ bcap b →
  ∃ b', ReqIdSerializer ids b 0 = Some (b', 4 + 16 * lenZ ids) ∧
        ReqIdDeserializer acc b' 0 = Some (acc ++ ids, 4 + 16 * lenZ ids).
Proof.
  intros Hwf Hlen Hcap. destruct (ReqIdSerializer_ok ids b Hlen Hcap) as (b' & Hs & Hb & _).
  exists b'. split; [done|]. by apply ReqIdDeserializer_ok.
Qed.

Lemma ReqIdSerializer_ReqIdDeserializer_witness :
  ∃ b', ReqIdSerializer [(42, 1); (43, 2)] (Buf 64 ∅) 0 = Some (b', 36) ∧
        ReqIdDeserializer [] b' 0 = Some ([(42, 1); (43, 2)], 36).
Proof.
  apply (ReqIdSerializer_ReqIdDeserializer [(42, 1); (43, 2)] [] (Buf 64 ∅)).
  - repeat constructor; done.
  - done.
  - done.
Defined.
