(* ===== verification/DurLogFlat.v ===== *)
(** The durability log replica: [src/dur_log/dur_log_flat.cc] and the parts of
    [src/dur_log/dur_log.cc] it inherits.

    The log is a ring of [rg_size_] bytes in one memory region that the consensus
    log reads and writes by RDMA.  The region is one [buffer]: the ring, the safe
    region that an entry may run into, then the sequencer, the two watermarks and
    the indexer. *)

From S2P Require Import Prelude Props Sequencer LogEntry.

Local Open Scope Z_scope.

(** ** Layout *)

Definition PAGE_SIZE : Z := 4096.
Definition SAFE_RG_SIZE : Z := 2 * PAGE_SIZE.

(** ** State *)

(** [idx_to_seq_] is an uninitialised array: an element never written has no value. *)
Record FlatLog : Type := mkFlat {
  is_primary_ : bool;
  wait_ : bool;
  view_ : Z;
  rg_size_ : Z;
  idx_map_elem_cnt_ : Z;
  mem_rg_raw_ : buffer;
  idx_to_seq_ : gmap Z Z;
  reqid_to_seq_map_ : gmap ReqID Z;
  pending_entries_ : list LogEntry
}.

Definition with_mem (st : FlatLog) (b : buffer) : FlatLog :=
  mkFlat (is_primary_ st) (wait_ st) (view_ st) (rg_size_ st) (idx_map_elem_cnt_ st) b
    (idx_to_seq_ st) (reqid_to_seq_map_ st) (pending_entries_ st).
Definition with_idx_to_seq (st : FlatLog) (m : gmap Z Z) : FlatLog :=
  mkFlat (is_primary_ st) (wait_ st) (view_ st) (rg_size_ st) (idx_map_elem_cnt_ st)
    (mem_rg_raw_ st) m (reqid_to_seq_map_ st) (pending_entries_ st).
Definition with_reqids (st : FlatLog) (m : gmap ReqID Z) : FlatLog :=
  mkFlat (is_primary_ st) (wait_ st) (view_ st) (rg_size_ st) (idx_map_elem_cnt_ st)
    (mem_rg_raw_ st) (idx_to_seq_ st) m (pending_entries_ st).
Definition with_pending (st : FlatLog) (es : list LogEntry) : FlatLog :=
  mkFlat (is_primary_ st) (wait_ st) (view_ st) (rg_size_ st) (idx_map_elem_cnt_ st)
    (mem_rg_raw_ st) (idx_to_seq_ st) (reqid_to_seq_map_ st) es.

(** The four 64-bit words after the safe region. *)
Definition word_addr (rg_size i : Z) : Z := rg_size + SAFE_RG_SIZE + 8 * i.
Definition get_word (b : buffer) (rg_size i : Z) : Z :=
  un_le (peek (rd (bmem b)) (word_addr rg_size i) 8).
Definition set_word (b : buffer) (rg_size i z : Z) : buffer :=
  bpoke b (word_addr rg_size i) (le_bytes 8 z).

Arguments get_word : simpl never.
Arguments set_word : simpl never.

Definition sequencer_ (st : FlatLog) : Sequencer.t := get_word (mem_rg_raw_ st) (rg_size_ st) 0.
Definition ordered_watermk_ (st : FlatLog) : Z := get_word (mem_rg_raw_ st) (rg_size_ st) 1.
Definition ordered_idx_watermk_ (st : FlatLog) : Z := get_word (mem_rg_raw_ st) (rg_size_ st) 2.
Definition indexer_ (st : FlatLog) : Sequencer.t := get_word (mem_rg_raw_ st) (rg_size_ st) 3.

Definition put_word (st : FlatLog) (i z : Z) : FlatLog :=
  with_mem st (set_word (mem_rg_raw_ st) (rg_size_ st) i z).

(** ** Initialize *)

(** [raw] is what the allocated region happens to contain.  The size in megabytes
    is multiplied as an [int]; the division by the entry size is of a [uint64_t]. *)
Definition Initialize (p : Properties) (raw : gmap Z byte) : option FlatLog :=
  let is_primary := streq (GetProperty p "leader" "false") "true" in
  m ← stoi (GetProperty p "dur_log.mr_size_m" "512");
  if negb ((- 2 ^ 31 <=? m * 1024 * 1024) && (m * 1024 * 1024 <? 2 ^ 31)) then None else
  let rg_size := u64 (m * 1024 * 1024) in
  let cnt := rg_size / min_entry_size in
  let wait := negb (streq (GetProperty p "wait" "true") "false") in
  let b := Buf (rg_size + SAFE_RG_SIZE + PAGE_SIZE) raw in
  let b := set_word b rg_size 0 Sequencer.init in
  let b := set_word b rg_size 3 Sequencer.init in
  let b := set_word b rg_size 1 0 in
  let b := set_word b rg_size 2 0 in
  Some (mkFlat is_primary wait 0 rg_size cnt b ∅ ∅ []).

(** ** AppendEntry *)

(** [waitForPlace] returns in the current state; it spins otherwise. *)
Definition waitForPlace (st : FlatLog) (size : Z) : bool :=
  negb (wait_ st) ||
  (u64 (Sequencer.GetCurSeqNonAtm (sequencer_ st) + size - ordered_watermk_ st)
     <? u64 (rg_size_ st - Z.shiftl PAGE_SIZE 6)).

(** The critical section under [idx_lk_]: it reserves the entry's place. *)
Definition append_reserve (st : FlatLog) (e_size : Z) : option (FlatLog * (Z * Z * Z)) :=
  let seq := Sequencer.GetCurSeqNonAtm (sequencer_ st) in
  if rg_size_ st =? 0 then None else
  let offset := seq mod rg_size_ st in
  b ← SetFlag (mem_rg_raw_ st) offset 0;
  let st := with_mem st b in
  let idx := Sequencer.GetCurSeqNonAtm (indexer_ st) in
  if is_primary_ st && (idx_map_elem_cnt_ st =? 0) then None else
  let st := if is_primary_ st
            then with_idx_to_seq st (<[idx mod idx_map_elem_cnt_ st := seq]> (idx_to_seq_ st))
            else st in
  let st := put_word st 3 (Sequencer.GetNextSeqNonAtm (indexer_ st)).2 in
  let st := put_word st 0 (Sequencer.GetNextSeqNonAtmInc (sequencer_ st) e_size).2 in
  Some (st, (seq, idx, offset)).

(** Outside the lock: the entry is written, flagged, and the part that ran past the
    ring is copied to its beginning. *)
Definition append_write (st : FlatLog) (e : LogEntry) (offset : Z) : option (FlatLog * Z) :=
  '(b, ety_size) ← Serializer e (mem_rg_raw_ st) offset;
  Some (with_mem st b, ety_size).

Definition append_flag (st : FlatLog) (offset : Z) : option FlatLog :=
  b ← SetFlag (mem_rg_raw_ st) offset 1;
  Some (with_mem st b).

Definition append_wrap (st : FlatLog) (offset ety_size : Z) : option FlatLog :=
  if rg_size_ st <? offset + ety_size then
    bs ← load (mem_rg_raw_ st) (rg_size_ st) (Z.to_nat (offset + ety_size - rg_size_ st));
    b ← store (mem_rg_raw_ st) 0 bs;
    Some (with_mem st b)
  else Some st.

Definition append_map (st : FlatLog) (e : LogEntry) (seq : Z) : FlatLog :=
  if negb (is_primary_ st)
  then with_reqids st (<[(client_id e, client_seq e) := seq]> (reqid_to_seq_map_ st))
  else st.

(** The result is the new state, the entry with the fields the log fills in, and the
    sequence number returned to the client. *)
Definition AppendEntry (st : FlatLog) (e : LogEntry) : outcome (FlatLog * LogEntry * Z) :=
  let e_size := GetSize e in
  if negb (waitForPlace st e_size) then Blocked else
  lift (
    '(st, (seq, idx, offset)) ← append_reserve st e_size;
    let e := set_view (set_log_idx e idx) (view_ st) in
    '(st, ety_size) ← append_write st e offset;
    st ← append_flag st offset;
    st ← append_wrap st offset ety_size;
    Some (append_map st e seq, e, seq)).

(** ** FetchUnorderedEntries on a backup *)

(** An entry whose flag is unset does not advance [s]: the loop then pushes it again
    until [max_entries_num] entries have been pushed. *)
Fixpoint fetch_loop (fuel : nat) (st : FlatLog) (s : Z) (es : list LogEntry) (n max : Z)
    : option (list LogEntry * Z) :=
  if s <? Sequencer.GetCurSeqNonAtm (sequencer_ st) then
    match fuel with
    | O => None
    | S fuel =>
        '(e, sz) ← Deserializer LogEntry_default (mem_rg_raw_ st) (s mod rg_size_ st);
        let es := es ++ [e] in
        let n := u32 (n + 1) in
        if max <=? n then Some (es, n) else fetch_loop fuel st (u64 (s + sz)) es n max
    end
  else Some (es, n).

Definition FetchUnorderedEntries (st : FlatLog) (es : list LogEntry) (max_entries_num : Z)
    : option (list LogEntry * Z) :=
  if is_primary_ st then Some (es, 0)
  else fetch_loop (S (Z.to_nat max_entries_num)) st (ordered_watermk_ st) es 0 max_entries_num.

(** ** Counters *)

Definition GetNumDurEntry (st : FlatLog) : Z := Sequencer.GetCurSeqNonAtm (indexer_ st).
Definition GetNumOrderedEntry (st : FlatLog) : Z := ordered_idx_watermk_ st.
Definition GetView (st : FlatLog) : Z := view_ st.

(** ** SpecReadEntry *)

(** The result is the [int] returned and the entry, an in/out argument. *)
Definition SpecReadEntry (st : FlatLog) (idx : Z) (e : LogEntry) : option (Z * LogEntry) :=
  if idx <=? u64 (Sequencer.GetCurSeqNonAtm (indexer_ st) - idx_map_elem_cnt_ st + 64)
  then Some (-1, e)
  else if Sequencer.GetCurSeqNonAtm (indexer_ st) <=? idx then Some (-2, e)
  else
    if idx_map_elem_cnt_ st =? 0 then None else
    seq ← idx_to_seq_ st !! (idx mod idx_map_elem_cnt_ st);
    let cur_seq := Sequencer.GetCurSeqNonAtm (sequencer_ st) in
    if (rg_size_ st <? cur_seq) &&
       (seq <=? u64 (cur_seq - rg_size_ st + Z.shiftl PAGE_SIZE 6))
    then Some (-1, e) else
    let offset := seq mod rg_size_ st in
    i ← GetIdx (mem_rg_raw_ st) offset;
    if negb (i =? idx) then Some (0, e) else
    '(e, sz) ← Deserializer e (mem_rg_raw_ st) offset;
    Some (i32 sz, e).

(** ** DelOrderedEntries *)

Definition delEntriesPrimary (st : FlatLog) (max_seq_req_ids : list ReqID) : FlatLog * Z :=
  (st, 0).

(** [unordered_map::operator[]]: a key that is missing is inserted with zero. *)
Definition at_or_insert (m : gmap ReqID Z) (rid : ReqID) : Z * gmap ReqID Z :=
  match m !! rid with Some v => (v, m) | None => (0, <[rid := 0]> m) end.

(** The first loop: the greatest client sequence numbers and the greatest of their
    positions in this replica's log. *)
Fixpoint collect_max (ids : list ReqID) (reqs : gmap ReqID Z) (climap : gmap Z Z) (max_seq : Z)
    : gmap ReqID Z * gmap Z Z * Z :=
  match ids with
  | [] => (reqs, climap, max_seq)
  | rid :: ids =>
      let '(seq, reqs) := at_or_insert reqs rid in
      collect_max ids reqs (<[rid.1 := rid.2]> climap) (Z.max max_seq seq)
  end.

(** [cli_id_max_seq_map[id]]: zero for a client that is not in the map. *)
Definition cli_max (climap : gmap Z Z) (cli_id : Z) : Z := default 0 (climap !! cli_id).

Definition ordered_by (climap : gmap Z Z) (cli_id cli_seq : Z) : bool :=
  cli_seq <=? cli_max climap cli_id.

(** The second loop: pending entries that are now ordered are dropped. *)
Fixpoint drop_pending (climap : gmap Z Z) (es : list LogEntry) (n_del : Z) : list LogEntry * Z :=
  match es with
  | [] => ([], n_del)
  | e :: es =>
      if ordered_by climap (client_id e) (client_seq e)
      then drop_pending climap es (u32 (n_del + 1))
      else let '(es, n_del) := drop_pending climap es n_del in (e :: es, n_del)
  end.

(** The third loop, over the log from the watermark up to [max_seq].  It spins on an
    entry that is not written yet. *)
Fixpoint gc_loop (fuel : nat) (st : FlatLog) (climap : gmap Z Z) (s max_seq n_del : Z)
    : outcome (FlatLog * Z * Z) :=
  if s <=? max_seq then
    match fuel with
    | O => Fault
    | S fuel =>
        let ofst := s mod rg_size_ st in
        flag ← lift (GetFlagFromBuf (mem_rg_raw_ st) ofst);
        if negb (flag =? 1) then Blocked else
        cli_id ← lift (GetClientId (mem_rg_raw_ st) ofst);
        cli_seq ← lift (GetClientSeq (mem_rg_raw_ st) ofst);
        '(st, n_del) ←
          (if negb (ordered_by climap cli_id cli_seq)
           then '(e, _) ← lift (Deserializer LogEntry_default (mem_rg_raw_ st) ofst);
                Ok (with_pending st (pending_entries_ st ++ [e]), n_del)
           else Ok (st, u32 (n_del + 1)));
        let st := with_reqids st (delete (cli_id, cli_seq) (reqid_to_seq_map_ st)) in
        sz ← lift (GetSizeFromBuf (mem_rg_raw_ st) ofst);
        i ← lift (GetIdx (mem_rg_raw_ st) ofst);
        gc_loop fuel (put_word st 2 (u64 (i + 1))) climap (u64 (s + sz)) max_seq n_del
    end
  else Ok (st, s, n_del).

Definition delEntriesBackup (st : FlatLog) (max_seq_req_ids : list ReqID)
    : outcome (FlatLog * Z) :=
  let '(reqs, climap, max_seq) := collect_max max_seq_req_ids (reqid_to_seq_map_ st) ∅ 0 in
  let st := with_reqids st reqs in
  let '(pending, n_del) := drop_pending climap (pending_entries_ st) 0 in
  let st := with_pending st pending in
  let s := ordered_watermk_ st in
  if rg_size_ st =? 0 then Fault else
  '(st, s, n_del) ← gc_loop (entries_fuel (max_seq - s)) st climap s max_seq n_del;
  Ok (put_word st 1 s, n_del).

Definition DelOrderedEntries (st : FlatLog) (max_seq_req_ids : list ReqID)
    : outcome (FlatLog * Z) :=
  if is_primary_ st then Ok (delEntriesPrimary st max_seq_req_ids)
  else delEntriesBackup st max_seq_req_ids.
