(* ===== verification/FlatRing.v ===== *)
(** The ring of [DurLogFlat] represents a log.

    The abstract state of a replica is the list [hist] of all entries appended so
    far, in the order of their sequence numbers, and the number [k] of them that
    have been ordered and garbage collected.  [flat_repr] relates it to the bytes of
    the memory region; [AppendEntry] is proved to append to the list, wherever in
    the ring the entry falls. *)

From S2P Require Import Prelude Props Sequencer LogEntry DurLogFlat.

Local Open Scope Z_scope.

(** ** Representation *)

(** The byte at a sequence number. *)
Definition ring (b : buffer) (rg : Z) (a : Z) : byte := rd (bmem b) (a mod rg).

(** The entries [es] can also be read in a straight line from their offsets: the one
    that runs past the end of the ring, out of the safe region. *)
Fixpoint straight (b : buffer) (rg p : Z) (es : list LogEntry) : Prop :=
  match es with
  | [] => True
  | e :: es => encoded_at (rd (bmem b)) (p mod rg) e ∧ straight b rg (p + entry_size e) es
  end.

(** The entry as the log keeps it. *)
Definition stored (e : LogEntry) (idx v : Z) : LogEntry :=
  set_flags (set_view (set_log_idx e idx) v) 1.

Record flat_repr (st : FlatLog) (hist : list LogEntry) (k : nat) : Prop := {
  fr_cap : bcap (mem_rg_raw_ st) = rg_size_ st + SAFE_RG_SIZE + PAGE_SIZE;
  fr_rg : 0 < rg_size_ st;
  fr_rg4 : rg_size_ st mod 4 = 0;
  fr_view : 0 ≤ view_ st < 2 ^ 16;
  fr_seq : sequencer_ st = total_size hist;
  fr_wm : ordered_watermk_ st = total_size (take k hist);
  fr_idx_wm : ordered_idx_watermk_ st = Z.of_nat k;
  fr_idx : indexer_ st = lenZ hist;
  fr_k : (k ≤ length hist)%nat;
  fr_valid : Forall valid_entry hist;
  fr_entry : ∀ i e, hist !! i = Some e →
    log_idx e = Z.of_nat i ∧ flags e = 1 ∧ entry_size e ≤ SAFE_RG_SIZE + 4;
  fr_laid : laid (ring (mem_rg_raw_ st) (rg_size_ st)) (total_size (take k hist)) (drop k hist);
  fr_straight : straight (mem_rg_raw_ st) (rg_size_ st) (total_size (take k hist)) (drop k hist);
  fr_room : total_size (drop k hist) < rg_size_ st
}.

(** What no operation changes. *)
Definition same_config (st st' : FlatLog) : Prop :=
  is_primary_ st' = is_primary_ st ∧ wait_ st' = wait_ st ∧ view_ st' = view_ st ∧
  rg_size_ st' = rg_size_ st ∧ idx_map_elem_cnt_ st' = idx_map_elem_cnt_ st.

#[export] Instance same_config_refl : Reflexive same_config.
Proof. by intros st. Qed.
#[export] Instance same_config_trans : Transitive same_config.
Proof. unfold same_config. intros st1 st2 st3 ? ?. intuition congruence. Qed.

(** Arithmetic on the layout of the region. *)
Ltac sizes := rewrite ?length_le, ?length_peek; simpl bcap in *;
  unfold MetaDataSize, FlagPos, SAFE_RG_SIZE, PAGE_SIZE in *; of_nat_lit; lia.

(** ** Words *)

Lemma get_set_word_same b rg i z : 0 ≤ z < 2 ^ 64 → get_word (set_word b rg i z) rg i = z.
Proof.
  intros Hz. unfold get_word, set_word. simpl. by rewrite peek_poke_int, un_le_le.
Qed.

Lemma get_set_word_other b rg i j z : i ≠ j → get_word (set_word b rg i z) rg j = get_word b rg j.
Proof.
  intros Hij. unfold get_word, set_word. simpl. rewrite peek_poke_out; [done|].
  rewrite length_le. unfold word_addr. lia.
Qed.

(** A write that ends before the words does not change them. *)
Lemma get_word_frame b b' rg i hi :
  frame b b' 0 hi → hi ≤ rg + SAFE_RG_SIZE → 0 ≤ i → get_word b' rg i = get_word b rg i.
Proof.
  intros Hf Hhi Hi. unfold get_word. erewrite frame_peek; [done|done|].
  right. unfold word_addr. lia.
Qed.

Lemma get_word_flag b rg i off f :
  0 ≤ i → 0 ≤ off ≤ rg - 4 →
  get_word (bpoke b (off + FlagPos) (le_bytes 2 f)) rg i = get_word b rg i.
Proof.
  intros Hi Ho. apply get_word_frame with (hi := rg + SAFE_RG_SIZE); [|done..].
  eapply frame_weaken; [| |apply frame_bpoke; done]; sizes.
Qed.

Lemma get_word_range b rg i : 0 ≤ get_word b rg i < 2 ^ 64.
Proof.
  unfold get_word. pose proof (un_le_range (peek (rd (bmem b)) (word_addr rg i) 8)) as H.
  by rewrite length_peek in H.
Qed.

(** Changing a word leaves the ring alone. *)
Lemma rd_set_word b rg i z a :
  0 ≤ i → a < rg + SAFE_RG_SIZE → rd (bmem (set_word b rg i z)) a = rd (bmem b) a.
Proof. intros Hi Ha. apply rd_poke_out. left. unfold word_addr. lia. Qed.

Lemma ring_set_word b rg i z a :
  0 < rg → 0 ≤ i → ring (set_word b rg i z) rg a = ring b rg a.
Proof.
  intros Hrg Hi. pose proof (Z.mod_pos_bound a rg Hrg). apply rd_set_word; [done|].
  unfold SAFE_RG_SIZE, PAGE_SIZE. lia.
Qed.

(** ** Places in the ring *)

(** The place of a new entry is disjoint from the places of the unordered ones. *)
Lemma ring_disjoint rg w s sz x :
  0 < rg → w ≤ x < s → s + sz - w ≤ rg →
  (x mod rg < s mod rg ∨ s mod rg + sz ≤ x mod rg) ∧ s mod rg + sz - rg ≤ x mod rg.
Proof.
  intros Hrg Hx Hsz.
  pose proof (Z.div_mod x rg ltac:(lia)). pose proof (Z.div_mod s rg ltac:(lia)).
  pose proof (Z.mod_pos_bound x rg Hrg). pose proof (Z.mod_pos_bound s rg Hrg).
  set (q := x / rg - s / rg).
  assert (x - s = rg * q + (x mod rg - s mod rg)) by (subst q; lia).
  assert (q ≤ -1 ∨ q = 0 ∨ 1 ≤ q) as [Hq|[Hq|Hq]] by lia; nia.
Qed.

(** Where byte [i] of an entry that starts at [s] is. *)
Lemma ring_place rg s i :
  0 < rg → 0 ≤ i < rg →
  (s + i) mod rg = if s mod rg + i <? rg then s mod rg + i else s mod rg + i - rg.
Proof.
  intros Hrg Hi. pose proof (Z.mod_pos_bound s rg Hrg).
  rewrite <- Z.add_mod_idemp_l by lia. case_zb.
  - apply Z.mod_small. lia.
  - replace (s mod rg + i) with (s mod rg + i - rg + 1 * rg) at 1 by lia.
    rewrite Z.mod_add by lia. apply Z.mod_small. lia.
Qed.

Lemma mod4_offset rg s : 0 < rg → rg mod 4 = 0 → s mod 4 = 0 → s mod rg ≤ rg - 4.
Proof.
  intros Hrg H1 H2. pose proof (Z.mod_pos_bound s rg Hrg).
  assert ((s mod rg) mod 4 = 0).
  { rewrite (Z.mod_eq s rg) by lia. by rewrite Zminus_mod, Zmult_mod, H1, H2. }
  pose proof (Z.div_mod (s mod rg) 4). pose proof (Z.div_mod rg 4). lia.
Qed.

Lemma straight_app b rg p es1 es2 :
  straight b rg p (es1 ++ es2) ↔ straight b rg p es1 ∧ straight b rg (p + total_size es1) es2.
Proof.
  revert p; induction es1 as [|e es1 IH]; intros p; simpl.
  - rewrite Z.add_0_r. tauto.
  - rewrite IH. replace (p + entry_size e + total_size es1)
      with (p + (entry_size e + total_size es1)) by lia. tauto.
Qed.

(** Entries stay readable when the bytes from their offsets on do not change. *)
Lemma straight_ext b b' rg p es :
  0 < rg → rg mod 4 = 0 → p mod 4 = 0 → Forall (λ e, entry_size e ≤ SAFE_RG_SIZE + 4) es →
  (∀ q i, p ≤ q → 0 ≤ i → q + i < p + total_size es → q mod rg + i < rg + SAFE_RG_SIZE →
    rd (bmem b') (q mod rg + i) = rd (bmem b) (q mod rg + i)) →
  straight b rg p es → straight b' rg p es.
Proof.
  intros Hrg Hrg4. revert p. induction es as [|e es IH]; intros p Hp Hes Hb; simpl; [done|].
  apply Forall_cons in Hes as [He Hes]. simpl in Hb. intros [Hs1 Hs2].
  pose proof (mod4_offset rg p Hrg Hrg4 Hp). pose proof (entry_size_pos e).
  pose proof (entry_size_encode e). pose proof (total_size_nonneg es). split.
  - unfold encoded_at. etrans; [|exact Hs1]. apply peek_ext. intros i Hi. apply Hb; lia.
  - apply IH; try done.
    + by rewrite Z.add_mod, Hp, entry_size_mod4 by lia.
    + intros q i Hq Hi Hqi. apply Hb; lia.
Qed.

(** Setting the flag of an encoded entry. *)
Lemma encoded_at_set_flag m p e f :
  encoded_at (rd m) p e → encoded_at (rd (poke m (p + FlagPos) (le_bytes 2 f))) p (set_flags e f).
Proof.
  rewrite !peek_encode. intros (E1 & E2 & E3 & E4 & E5 & E6 & E7).
  change (p + FlagPos) with (p + 28).
  destruct e as [c1 c2 c3 c4 c5 c6 c7]. simpl in *. rewrite peek_poke_int.
  rewrite !peek_poke_out by (rewrite ?length_le; of_nat_lit; lia). tauto.
Qed.

(** ** The place of one entry, written and wrapped around *)

Section AppendPlace.
Context (b0 b : buffer) (rg seq : Z) (e : LogEntry).
Context (Hrg : 0 < rg) (Hrg4 : rg mod 4 = 0) (Hseq4 : seq mod 4 = 0).
Context (Hcap : rg + SAFE_RG_SIZE ≤ bcap b).
Context (Hwf : wf_entry e) (Hsafe : entry_size e ≤ SAFE_RG_SIZE + 4) (Hfit : entry_size e ≤ rg).

Let off := seq mod rg.
Let sz := entry_size e.

(** What happened to the region before: at most the new place was written. *)
Context (Hb0 : ∀ a, a < rg + SAFE_RG_SIZE → ¬ off ≤ a < off + sz → rd (bmem b) a = rd (bmem b0) a).

(** The bytes after [SetFlag(0)], [Serializer] and [SetFlag(1)]. *)
Definition slot_written : buffer :=
  bpoke (bpoke b off (encode e)) (off + FlagPos) (le_bytes 2 1).

Definition slot_wrapped : buffer :=
  if rg <? off + sz
  then bpoke slot_written 0 (peek (rd (bmem slot_written)) rg (Z.to_nat (off + sz - rg)))
  else slot_written.

Lemma off_range : 0 ≤ off ≤ rg - 4.
Proof.
  split; [apply Z.mod_pos_bound; lia|]. by apply mod4_offset.
Qed.

Lemma slot_end : off + sz ≤ rg + SAFE_RG_SIZE.
Proof. pose proof off_range. lia. Qed.

Lemma slot_written_frame : frame b slot_written off (off + sz).
Proof.
  pose proof (entry_size_encode e). pose proof (entry_size_pos e).
  unfold slot_written. split; [done|]. intros a Ha. simpl.
  rewrite !rd_poke_out; [done| |]; rewrite ?length_le; unfold FlagPos; subst sz; lia.
Qed.

Lemma slot_wrapped_frame : frame b slot_wrapped 0 (off + sz).
Proof.
  pose proof off_range. pose proof slot_written_frame as [Hc Hf]. unfold slot_wrapped. case_zb.
  - split; [done|]. intros a Ha. simpl. rewrite rd_poke_out; [apply Hf; lia|].
    rewrite length_peek. lia.
  - split; [done|]. intros a Ha. apply Hf. lia.
Qed.

(** The place holds the flagged entry, in a straight line ... *)
Lemma slot_written_entry : encoded_at (rd (bmem slot_written)) off (set_flags e 1).
Proof. apply encoded_at_set_flag. apply peek_poke_same. Qed.

Lemma slot_wrapped_entry_straight : encoded_at (rd (bmem slot_wrapped)) off (set_flags e 1).
Proof.
  pose proof off_range as Ho. pose proof (entry_size_encode (set_flags e 1)) as Hsz.
  unfold encoded_at. etrans; [|exact slot_written_entry]. apply peek_ext. intros i Hi.
  unfold slot_wrapped. case_zb; [|done]. simpl. apply rd_poke_out. rewrite length_peek. lia.
Qed.

(** ... and around the ring. *)
Lemma slot_wrapped_entry : encoded_at (ring slot_wrapped rg) seq (set_flags e 1).
Proof.
  pose proof off_range as Ho. pose proof (entry_size_encode (set_flags e 1)) as Hsz.
  change (entry_size (set_flags e 1)) with sz in Hsz.
  unfold encoded_at. etrans; [|exact slot_written_entry]. apply peek_ext. intros i Hi. unfold ring.
  rewrite ring_place by lia. fold off. unfold slot_wrapped. repeat case_zb; simpl; try lia.
  - rewrite rd_poke_out; [done|]. rewrite length_peek. lia.
  - pose proof (rd_poke_in (bmem slot_written) 0
      (peek (rd (bmem slot_written)) rg (Z.to_nat (off + sz - rg))) (off + i - rg)) as H'.
    rewrite length_peek in H'. specialize (H' ltac:(lia)).
    rewrite peek_lookup in H' by lia. simplify_eq. etrans; [symmetry; exact H'|].
    replace (rg + Z.of_nat (Z.to_nat (off + i - rg - 0))) with (off + i) by lia. done.
  - done.
Qed.

(** A byte that belongs neither to the place nor to its image at the beginning. *)
Lemma slot_wrapped_out a :
  0 ≤ a < rg + SAFE_RG_SIZE → a < off ∨ off + sz ≤ a → off + sz - rg ≤ a →
  rd (bmem slot_wrapped) a = rd (bmem b0) a.
Proof.
  intros Ha H1 H2. rewrite <- Hb0 by lia.
  pose proof slot_written_frame as [_ Hf]. unfold slot_wrapped. case_zb; simpl.
  - rewrite rd_poke_out; [apply Hf; lia|]. rewrite length_peek. lia.
  - apply Hf. lia.
Qed.

Context (w : Z) (Hroom : seq + sz - w ≤ rg).

(** The places of the entries since [w] are unchanged, around the ring ... *)
Lemma slot_wrapped_ring a : w ≤ a < seq → ring slot_wrapped rg a = ring b0 rg a.
Proof.
  intros Ha. destruct (ring_disjoint rg w seq sz a) as [Hd1 Hd2]; [done..|].
  pose proof (Z.mod_pos_bound a rg Hrg). unfold ring. apply slot_wrapped_out; [|done..].
  unfold SAFE_RG_SIZE, PAGE_SIZE. lia.
Qed.

(** ... and in a straight line. *)
Lemma slot_wrapped_straight p i :
  w ≤ p → 0 ≤ i → p + i < seq → p mod rg + i < rg + SAFE_RG_SIZE →
  rd (bmem slot_wrapped) (p mod rg + i) = rd (bmem b0) (p mod rg + i).
Proof.
  intros Hp Hi Hpi Hs. pose proof off_range. pose proof (Z.mod_pos_bound p rg Hrg).
  pose proof (entry_size_pos e). fold sz in H1.
  destruct (ring_disjoint rg w seq sz (p + i)) as [Hd1 Hd2]; [done|lia|done|].
  rewrite ring_place in Hd1, Hd2 by lia. fold off in Hd1, Hd2.
  apply slot_wrapped_out; [lia|..]; revert Hd1 Hd2; case_zb; lia.
Qed.
End AppendPlace.

(** ** AppendEntry *)

(** The region when the critical section is left. *)
Definition reserved (b : buffer) (rg seq idx sz : Z) : buffer :=
  set_word (set_word (bpoke b (seq mod rg + FlagPos) (le_bytes 2 0)) rg 3 (idx + 1)) rg 0 (seq + sz).

(** The critical section, in any state with these counters. *)
Section Reserve.
Context (st : FlatLog) (seq idx z : Z).
Let rg := rg_size_ st.
Let off := seq mod rg.
Context (Hcap : bcap (mem_rg_raw_ st) = rg + SAFE_RG_SIZE + PAGE_SIZE).
Context (Hrg : 0 < rg) (Hrg4 : rg mod 4 = 0) (Hseq4 : seq mod 4 = 0).
Context (Hseq : sequencer_ st = seq) (Hidx : indexer_ st = idx).
Context (Hz : 0 ≤ seq ∧ 0 ≤ z ∧ seq + z < 2 ^ 64) (Hi : 0 ≤ idx ∧ idx + 1 < 2 ^ 64).

Lemma reserved_words i :
  0 ≤ i → get_word (reserved (mem_rg_raw_ st) rg seq idx z) rg i =
          if i =? 0 then seq + z else if i =? 3 then idx + 1 else get_word (mem_rg_raw_ st) rg i.
Proof.
  intros Hi0. unfold reserved. pose proof (mod4_offset rg seq Hrg Hrg4 Hseq4).
  pose proof (Z.mod_pos_bound seq rg Hrg).
  destruct (Z.eqb_spec i 0) as [->|Hne0]; [apply get_set_word_same; lia|].
  rewrite get_set_word_other by lia.
  destruct (Z.eqb_spec i 3) as [->|Hne3]; [apply get_set_word_same; lia|].
  rewrite get_set_word_other by lia. apply get_word_flag; lia.
Qed.

Lemma reserved_out a :
  a < rg + SAFE_RG_SIZE → ¬ off + FlagPos ≤ a < off + MetaDataSize →
  rd (bmem (reserved (mem_rg_raw_ st) rg seq idx z)) a = rd (bmem (mem_rg_raw_ st)) a.
Proof.
  intros H1 H2. unfold reserved. rewrite !rd_set_word by lia. apply rd_poke_out. fold off. sizes.
Qed.

(** The state when the critical section is left. *)
Definition reserved_at : FlatLog :=
  mkFlat (is_primary_ st) (wait_ st) (view_ st) rg (idx_map_elem_cnt_ st)
    (reserved (mem_rg_raw_ st) rg seq idx z)
    (if is_primary_ st then <[idx mod idx_map_elem_cnt_ st := seq]> (idx_to_seq_ st)
     else idx_to_seq_ st)
    (reqid_to_seq_map_ st) (pending_entries_ st).

Lemma append_reserve_at :
  (is_primary_ st = true → 0 < idx_map_elem_cnt_ st) →
  append_reserve st z = Some (reserved_at, (seq, idx, off)).
Proof.
  intros Hmap. pose proof (mod4_offset rg seq Hrg Hrg4 Hseq4). pose proof (Z.mod_pos_bound seq rg Hrg).
  unfold append_reserve, Sequencer.GetCurSeqNonAtm. rewrite Hseq.
  fold rg off. destruct (Z.eqb_spec rg 0); [lia|].
  unfold SetFlag, store_int. fold off in H, H0. rewrite store_ok by sizes. simpl.
  set (b0 := bpoke (mem_rg_raw_ st) (off + FlagPos) (le_bytes 2 0)).
  assert (∀ i, 0 ≤ i → get_word b0 rg i = get_word (mem_rg_raw_ st) rg i) as Hw
    by (intros; apply get_word_flag; lia).
  unfold indexer_, sequencer_ in *. simpl. fold rg in Hseq, Hidx |- *.
  rewrite Hw, Hidx by lia.
  replace (is_primary_ st && (idx_map_elem_cnt_ st =? 0)) with false
    by (destruct (is_primary_ st); [|done]; specialize (Hmap eq_refl); simpl; zb).
  unfold reserved_at, reserved. fold off.
  destruct (is_primary_ st) eqn:Hp; unfold put_word, with_mem, sequencer_, indexer_; simpl; fold rg;
    rewrite get_set_word_other, !Hw, Hidx, Hseq by lia;
    rewrite !u64_small by lia;
    simpl; by rewrite Hp.
Qed.
End Reserve.

(** The state that [AppendEntry] leaves. *)
Definition appended (st : FlatLog) (e : LogEntry) : FlatLog :=
  let seq := sequencer_ st in
  let idx := indexer_ st in
  let rg := rg_size_ st in
  let e1 := set_view (set_log_idx e idx) (view_ st) in
  mkFlat (is_primary_ st) (wait_ st) (view_ st) rg (idx_map_elem_cnt_ st)
    (slot_wrapped (reserved (mem_rg_raw_ st) rg seq idx (entry_size e)) rg seq e1)
    (if is_primary_ st then <[idx mod idx_map_elem_cnt_ st := seq]> (idx_to_seq_ st)
     else idx_to_seq_ st)
    (if is_primary_ st then reqid_to_seq_map_ st
     else <[(client_id e, client_seq e) := seq]> (reqid_to_seq_map_ st))
    (pending_entries_ st).

(** What a client may append, and what the log must have room for. *)
Record appendable (st : FlatLog) (hist : list LogEntry) (k : nat) (e : LogEntry) : Prop := {
  ap_wf : wf_entry e;
  ap_safe : entry_size e ≤ SAFE_RG_SIZE + 4;
  ap_room : total_size (drop k hist) + entry_size e < rg_size_ st;
  ap_seq : total_size hist + entry_size e < 2 ^ 64;
  ap_idx : lenZ hist + 1 < 2 ^ 64;
  ap_map : is_primary_ st = true → 0 < idx_map_elem_cnt_ st;
  ap_wait : waitForPlace st (entry_size e) = true
}.

Section Append.
Context (st : FlatLog) (hist : list LogEntry) (k : nat) (e : LogEntry).
Context (Hr : flat_repr st hist k) (Ha : appendable st hist k e).

Let seq := total_size hist.
Let rg := rg_size_ st.
Let off := seq mod rg.
Let e1 := set_view (set_log_idx e (lenZ hist)) (view_ st).
Let base := reserved (mem_rg_raw_ st) rg seq (lenZ hist) (entry_size e).

Lemma append_off : 0 ≤ off ≤ rg - 4.
Proof. destruct Hr. apply off_range; [done..|]. apply total_size_mod4. Qed.

Lemma append_wf : wf_entry e1.
Proof. destruct Hr, Ha. unfold wf_entry in *. simpl. lia. Qed.

Lemma append_size : GetSize e = entry_size e ∧ entry_size e1 = entry_size e.
Proof.
  destruct Ha. split; [|done]. destruct ap_wf0 as (_&_&_&Hs&_).
  pose proof (entry_size_bounds e). unfold SAFE_RG_SIZE, PAGE_SIZE, MetaDataSize, FlagPos in *.
  unfold GetSize, entry_size. rewrite Hs. apply padded_size_ok. lia.
Qed.

Lemma base_words i :
  0 ≤ i → get_word base rg i =
          if i =? 0 then seq + entry_size e else if i =? 3 then lenZ hist + 1
          else get_word (mem_rg_raw_ st) rg i.
Proof.
  destruct Hr, Ha. pose proof (total_size_nonneg hist). pose proof (entry_size_pos e).
  apply (reserved_words st seq (lenZ hist) (entry_size e)); (done || apply total_size_mod4 || (unfold seq; lia)).
Qed.

Lemma base_out a :
  a < rg + SAFE_RG_SIZE → ¬ off ≤ a < off + entry_size e1 →
  rd (bmem base) a = rd (bmem (mem_rg_raw_ st)) a.
Proof.
  intros H1 H2. pose proof (entry_size_pos e1). apply (reserved_out st seq (lenZ hist) (entry_size e)); [done|].
  fold rg off. sizes.
Qed.

(** The critical section. *)
Definition reserved_state : FlatLog := reserved_at st seq (lenZ hist) (entry_size e).

Lemma append_reserve_ok :
  append_reserve st (entry_size e) = Some (reserved_state, (seq, lenZ hist, off)).
Proof.
  destruct Hr, Ha. pose proof (total_size_nonneg hist). pose proof (entry_size_pos e).
  apply append_reserve_at; (done || apply total_size_mod4 || (unfold seq; lia)).
Qed.

Local Ltac finish_map :=
  destruct (is_primary_ _) eqn:Hp; unfold with_reqids, with_mem, reserved_state, reserved_at; simpl; by rewrite Hp.

(** The append runs through, without touching memory out of bounds. *)
Lemma AppendEntry_ok : AppendEntry st e = Ok (appended st e, e1, seq).
Proof.
  destruct append_size as [Hsz Hsz1]. pose proof append_off as Ho. pose proof append_wf as Hwf1.
  pose proof (entry_size_pos e). pose proof (entry_size_encode e1).
  pose proof append_reserve_ok as Hres.
  destruct Hr, Ha. unfold AppendEntry. rewrite Hsz, ap_wait0. simpl. rewrite Hres. simpl.
  unfold append_write. fold e1. simpl.
  fold rg in fr_cap0. rewrite Serializer_ok by (done || sizes). simpl.
  unfold append_flag, SetFlag, store_int. rewrite store_ok by sizes. simpl.
  unfold append_wrap, appended. rewrite fr_idx0, fr_seq0. simpl.
  fold rg seq off e1. unfold slot_wrapped, slot_written. rewrite Hsz1. fold base off.
  destruct (Z.ltb_spec rg (off + entry_size e)).
  - rewrite load_ok by sizes. simpl. rewrite store_ok by sizes. simpl. unfold append_map. simpl. finish_map.
  - simpl. unfold append_map. simpl. finish_map.
Qed.

Lemma appended_words i :
  0 ≤ i → get_word (mem_rg_raw_ (appended st e)) rg i =
          if i =? 0 then seq + entry_size e else if i =? 3 then lenZ hist + 1
          else get_word (mem_rg_raw_ st) rg i.
Proof.
  intros Hi. rewrite <- (base_words i Hi). unfold appended. simpl.
  destruct append_size as [_ Hsz1]. pose proof append_off.
  destruct Hr, Ha. rewrite fr_seq0, fr_idx0. fold rg seq base e1.
  apply get_word_frame with (hi := rg + SAFE_RG_SIZE); [|done..].
  eapply frame_weaken; [| |apply slot_wrapped_frame]; fold off; rewrite ?Hsz1; try done; try lia.
  - apply total_size_mod4.
  - pose proof (total_size_nonneg (drop k hist)). unfold rg. lia.
Qed.

Lemma appended_mem :
  mem_rg_raw_ (appended st e) = slot_wrapped base rg seq e1.
Proof. destruct Hr. unfold appended. simpl. by rewrite fr_seq0, fr_idx0. Qed.

(** The unordered entries keep their bytes, and the new one follows them. *)
Lemma appended_laid :
  let w := total_size (take k hist) in
  laid (ring (mem_rg_raw_ (appended st e)) rg) w (drop k hist ++ [stored e (lenZ hist) (view_ st)]).
Proof.
  intros w. rewrite appended_mem. destruct append_size as [_ Hsz1].
  pose proof (total_size_nonneg (drop k hist)). destruct Hr, Ha.
  assert (w + total_size (drop k hist) = seq) as Hw.
  { unfold w, seq. by rewrite <- total_size_app, take_drop. }
  apply laid_app. rewrite Hw. simpl. split; [|split; [|done]].
  - eapply laid_ext; [|exact fr_laid0]. intros a Hlo. symmetry.
    eapply slot_wrapped_ring with (w := w); try done; unfold rg; try lia.
    apply base_out.
  - apply slot_wrapped_entry; try done; unfold rg; try lia. apply total_size_mod4.
Qed.

Lemma appended_straight :
  let w := total_size (take k hist) in
  straight (mem_rg_raw_ (appended st e)) rg w (drop k hist ++ [stored e (lenZ hist) (view_ st)]).
Proof.
  intros w. rewrite appended_mem. destruct append_size as [_ Hsz1].
  pose proof (total_size_nonneg (drop k hist)). destruct Hr, Ha.
  assert (w + total_size (drop k hist) = seq) as Hw.
  { unfold w, seq. by rewrite <- total_size_app, take_drop. }
  apply straight_app. rewrite Hw. simpl. split; [|split; [|done]].
  - eapply straight_ext; [done|done|apply total_size_mod4| | |exact fr_straight0].
    + apply Forall_drop, Forall_lookup. intros i x Hx. apply (fr_entry0 i x Hx).
    + fold w. rewrite Hw. intros q i Hq Hi Hqi Hlt.
      eapply slot_wrapped_straight with (w := w); try done; unfold rg; try lia.
      * apply total_size_mod4.
      * apply base_out.
  - apply slot_wrapped_entry_straight; try done; unfold rg; try lia. apply total_size_mod4.
Qed.

Lemma appended_cap : bcap (mem_rg_raw_ (appended st e)) = bcap (mem_rg_raw_ st).
Proof. rewrite appended_mem. unfold slot_wrapped. by case_zb. Qed.

Lemma stored_valid : valid_entry (stored e (lenZ hist) (view_ st)).
Proof.
  pose proof append_wf as Hwf. pose proof (entry_size_bounds e). destruct Ha.
  unfold valid_entry, wf_entry in *. simpl in *. sizes.
Qed.

Lemma flat_repr_appended :
  flat_repr (appended st e) (hist ++ [stored e (lenZ hist) (view_ st)]) k.
Proof.
  pose proof appended_words as Hw. pose proof appended_laid as Hl. pose proof appended_straight as Hs.
  pose proof appended_cap as Hc. pose proof stored_valid as Hv. pose proof Hr as Hr'.
  destruct Hr', Ha. unfold sequencer_, ordered_watermk_, ordered_idx_watermk_, indexer_ in *.
  assert (entry_size (stored e (lenZ hist) (view_ st)) = entry_size e) as Hsz by done.
  split; unfold sequencer_, ordered_watermk_, ordered_idx_watermk_, indexer_;
    rewrite ?take_app_le, ?drop_app_le, ?total_size_app, ?length_app by done; try done.
  - by rewrite Hc.
  - etrans; [apply (Hw 0); lia|]. simpl. rewrite Hsz. unfold seq. lia.
  - etrans; [apply (Hw 1); lia|done].
  - etrans; [apply (Hw 2); lia|done].
  - etrans; [apply (Hw 3); lia|]. simpl. lia.
  - lia.
  - by apply Forall_app_2, Forall_singleton.
  - intros i x [Hi|[Hi Hx]]%lookup_app_Some; [by apply fr_entry0|].
    apply list_lookup_singleton_Some in Hx as [Hx <-]. simpl. lia.
  - simpl. rewrite Hsz. lia.
Qed.
End Append.

(** ** Initialize and garbage collection by RDMA *)

Lemma Initialize_repr p raw st :
  Initialize p raw = Some st → rg_size_ st ≠ 0 → flat_repr st [] 0.
Proof.
  unfold Initialize. destruct (stoi _) as [m|]; simpl; [|done].
  destruct (negb _); [done|]. intros [= <-] Hrg. simpl in *.
  pose proof (u64_range (m * 1024 * 1024)) as Hm.
  unfold sequencer_, ordered_watermk_, ordered_idx_watermk_, indexer_.
  split; simpl; try done; try lia.
  - unfold u64. replace (m * 1024 * 1024) with (m * 262144 * 4) by lia.
    rewrite Z.mod_mod_divide by (by exists (2 ^ 62)). by rewrite Z.mod_mul.
  - unfold sequencer_. simpl. rewrite !get_set_word_other by lia. by apply get_set_word_same.
  - unfold ordered_watermk_. simpl. rewrite !get_set_word_other by lia. by apply get_set_word_same.
  - unfold ordered_idx_watermk_. simpl. by apply get_set_word_same.
  - unfold indexer_. simpl. rewrite !get_set_word_other by lia. by apply get_set_word_same.
Qed.

(** The watermarks move to the entry [k'], whoever writes them. *)
Definition move_watermarks (st : FlatLog) (wm idx_wm : Z) : FlatLog :=
  put_word (put_word st 1 wm) 2 idx_wm.

Lemma straight_set_word b rg i z p es :
  0 < rg → rg mod 4 = 0 → p mod 4 = 0 → 0 ≤ i →
  Forall (λ e, entry_size e ≤ SAFE_RG_SIZE + 4) es →
  straight b rg p es → straight (set_word b rg i z) rg p es.
Proof. intros. apply (straight_ext b); try done. intros. by apply rd_set_word. Qed.

Lemma repr_safe st hist k :
  flat_repr st hist k → Forall (λ e, entry_size e ≤ SAFE_RG_SIZE + 4) hist.
Proof. intros Hr. apply Forall_lookup. intros i e He. by apply (fr_entry _ _ _ Hr i e). Qed.

Lemma total_size_take_drop k k' (es : list LogEntry) :
  (k ≤ k')%nat → total_size (take k' es) = total_size (take k es) + total_size (take (k' - k) (drop k es)).
Proof.
  intros Hk. rewrite <- total_size_app. f_equal. rewrite take_drop_commute.
  replace (k + (k' - k))%nat with k' by lia.
  rewrite <- (take_drop k (take k' es)) at 1. f_equal. rewrite take_take. f_equal. lia.
Qed.

Lemma repr_seq_range st hist k : flat_repr st hist k → total_size hist < 2 ^ 64 ∧ lenZ hist < 2 ^ 64.
Proof.
  intros []. unfold sequencer_, indexer_ in *. rewrite <- fr_seq0, <- fr_idx0.
  split; apply get_word_range.
Qed.

(** A state that differs from a log in nothing but watermarks further on. *)
Lemma flat_repr_moved st st' hist k k' :
  flat_repr st hist k → (k ≤ k' ≤ length hist)%nat →
  rg_size_ st' = rg_size_ st → view_ st' = view_ st →
  bcap (mem_rg_raw_ st') = bcap (mem_rg_raw_ st) →
  (∀ a, a < rg_size_ st + SAFE_RG_SIZE → rd (bmem (mem_rg_raw_ st')) a = rd (bmem (mem_rg_raw_ st)) a) →
  sequencer_ st' = sequencer_ st → indexer_ st' = indexer_ st →
  ordered_watermk_ st' = total_size (take k' hist) → ordered_idx_watermk_ st' = Z.of_nat k' →
  flat_repr st' hist k'.
Proof.
  intros Hr Hk Erg Evw Ecap Emem Eseq Eidx Ewm Eiw. pose proof (repr_safe _ _ _ Hr) as Hsafe.
  assert (drop k hist = take (k' - k) (drop k hist) ++ drop k' hist) as Hd.
  { rewrite <- (take_drop (k' - k) (drop k hist)) at 1. f_equal. rewrite drop_drop. f_equal. lia. }
  pose proof (total_size_take_drop k k' hist ltac:(lia)) as Htk.
  pose proof (total_size_nonneg (take (k' - k) (drop k hist))).
  destruct Hr. rewrite Hd in fr_laid0, fr_straight0, fr_room0. rewrite total_size_app in fr_room0.
  apply laid_app in fr_laid0 as [_ Hla]. apply straight_app in fr_straight0 as [_ Hst].
  rewrite <- Htk in Hla, Hst.
  split; rewrite ?Erg, ?Evw, ?Ecap, ?Eseq, ?Eidx; try done; try lia.
  - eapply laid_ext; [|exact Hla]. intros i Hi. unfold ring. symmetry. apply Emem.
    pose proof (Z.mod_pos_bound (total_size (take k' hist) + i) _ fr_rg0). sizes.
  - eapply straight_ext; [done|done|apply total_size_mod4|by apply Forall_drop| |exact Hst].
    intros q i _ _ _ Hq. by apply Emem.
Qed.

Lemma move_watermarks_repr st hist k k' :
  flat_repr st hist k → (k ≤ k' ≤ length hist)%nat →
  flat_repr (move_watermarks st (total_size (take k' hist)) (Z.of_nat k')) hist k'.
Proof.
  intros Hr Hk. pose proof (repr_seq_range _ _ _ Hr) as [Hs Hl].
  assert (total_size hist = total_size (take k' hist) + total_size (drop k' hist)) as Hsplit
    by (by rewrite <- total_size_app, take_drop).
  pose proof (total_size_nonneg (take k' hist)). pose proof (total_size_nonneg (drop k' hist)).
  apply (flat_repr_moved st _ hist k k'); try done;
    unfold sequencer_, ordered_watermk_, ordered_idx_watermk_, indexer_;
    cbn [move_watermarks put_word with_mem mem_rg_raw_ rg_size_].
  - intros a Ha. by rewrite !rd_set_word.
  - by rewrite !get_set_word_other.
  - by rewrite !get_set_word_other.
  - rewrite get_set_word_other by lia. apply get_set_word_same. lia.
  - apply get_set_word_same. lia.
Qed.

(** ** The operations refine the abstract log *)

Lemma repr_unordered st hist k :
  flat_repr st hist k →
  total_size hist = total_size (take k hist) + total_size (drop k hist).
Proof. intros _. by rewrite <- total_size_app, take_drop. Qed.

(** What [waitForPlace] waits for: room for the entry and 64 pages more. *)
Lemma waitForPlace_room st hist k n :
  flat_repr st hist k → wait_ st = true → 2 ^ 18 ≤ rg_size_ st < 2 ^ 64 →
  0 ≤ n → total_size hist + n < 2 ^ 64 →
  waitForPlace st n = (total_size (drop k hist) + n <? rg_size_ st - 2 ^ 18).
Proof.
  intros Hr Hw Hrg Hn Hs. pose proof (repr_unordered _ _ _ Hr) as Hu.
  pose proof (total_size_nonneg (drop k hist)). pose proof (total_size_nonneg (take k hist)).
  destruct Hr. unfold waitForPlace, Sequencer.GetCurSeqNonAtm. rewrite Hw, fr_seq0, fr_wm0.
  change (Z.shiftl PAGE_SIZE 6) with (2 ^ 18). simpl negb. simpl orb.
  rewrite !u64_small by lia. f_equal. lia.
Qed.

(** A replica created by [Initialize], as a witness: one megabyte of ring. *)
Definition small_props : Properties :=
  <["dur_log.mr_size_m"%string := "1"%string]> ∅.
Definition small_log : FlatLog :=
  default (mkFlat false true 0 0 0 (Buf 0 ∅) ∅ ∅ []) (Initialize small_props ∅).

Lemma small_log_repr : flat_repr small_log [] 0.
Proof. apply (Initialize_repr small_props ∅); [by vm_compute|by vm_compute]. Qed.

(** [AppendEntry] blocks without room for the entry and 64 pages more, and appends to
    the abstract log otherwise. *)
Lemma AppendEntry_spec st hist k e :
  flat_repr st hist k → wait_ st = true → 2 ^ 18 ≤ rg_size_ st < 2 ^ 64 →
  wf_entry e → entry_size e ≤ SAFE_RG_SIZE + 4 →
  total_size hist + entry_size e < 2 ^ 64 → lenZ hist + 1 < 2 ^ 64 →
  (is_primary_ st = true → 0 < idx_map_elem_cnt_ st) →
  if total_size (drop k hist) + entry_size e <? rg_size_ st - 2 ^ 18
  then ∃ st', AppendEntry st e =
         Ok (st', set_view (set_log_idx e (lenZ hist)) (view_ st), total_size hist) ∧
       flat_repr st' (hist ++ [stored e (lenZ hist) (view_ st)]) k
  else AppendEntry st e = Blocked.
Proof.
  intros Hr Hw Hrg He Hsafe Hs Hl Hp. pose proof (entry_size_pos e) as Hpos.
  pose proof (waitForPlace_room st hist k (entry_size e) Hr Hw Hrg ltac:(lia) Hs) as Hwp.
  assert (GetSize e = entry_size e) as Hsz.
  { destruct He as (_&_&_&Hd&_). pose proof (entry_size_bounds e).
    unfold GetSize, entry_size. rewrite Hd. apply padded_size_ok. sizes. }
  destruct (Z.ltb_spec (total_size (drop k hist) + entry_size e) (rg_size_ st - 2 ^ 18)) as [H|H].
  - assert (appendable st hist k e) as Ha by (split; try done; lia).
    exists (appended st e). split; [by apply (AppendEntry_ok st hist k)|by apply flat_repr_appended].
  - unfold AppendEntry. by rewrite Hsz, Hwp.
Qed.

