(* ===== verification/FlatGC.v ===== *)
(** Garbage collection of the durability log on a backup.

    A backup learns which entries are ordered as the greatest sequence number per
    client.  [delEntriesBackup] of [DurLogFlat] moves its watermark over a prefix of
    the log; entries of the prefix that are not ordered yet are kept aside.  The lemmas
    say which entries are dropped, that none other is, and that the replica still
    represents its log. *)

From S2P Require Import Prelude Props Sequencer LogEntry DurLogFlat FlatRing.

Local Open Scope Z_scope.

(** ** Reference definitions *)

(** The entries from [s] on that start at or before [max_seq]. *)
Fixpoint covered (s max_seq : Z) (es : list LogEntry) : list LogEntry :=
  match es with
  | [] => []
  | e :: es => if s <=? max_seq then e :: covered (s + entry_size e) max_seq es else []
  end.

Definition is_ordered (climap : gmap Z Z) (e : LogEntry) : bool :=
  ordered_by climap (client_id e) (client_seq e).

Definition not_ordered (climap : gmap Z Z) (es : list LogEntry) : list LogEntry :=
  List.filter (λ e, negb (is_ordered climap e)) es.
Definition ordered (climap : gmap Z Z) (es : list LogEntry) : list LogEntry :=
  List.filter (is_ordered climap) es.

Definition forget (reqs : gmap ReqID Z) (es : list LogEntry) : gmap ReqID Z :=
  foldl (λ m e, delete (client_id e, client_seq e) m) reqs es.

(** ** Reading the header of an entry in place *)

Lemma header_reads e b p :
  valid_entry e → encoded_at (rd (bmem b)) p e → 0 ≤ p → p + MetaDataSize ≤ bcap b →
  GetFlagFromBuf b p = Some (flags e) ∧ GetClientId b p = Some (client_id e) ∧
  GetClientSeq b p = Some (client_seq e) ∧ GetSizeFromBuf b p = Some (entry_size e) ∧
  GetIdx b p = Some (log_idx e).
Proof.
  intros Hv He Hp Hcap. pose proof (GetSizeFromBuf_ok e _ b p He ltac:(done) Hv Hp Hcap) as Hs.
  destruct Hv as ((Hc & Hq & Hi & _ & _ & Hf & _) & _). unfold MetaDataSize, FlagPos in Hcap.
  apply peek_encode in He as (E1 & E2 & E3 & _ & E5 & _).
  unfold GetFlagFromBuf, GetClientId, GetClientSeq, GetIdx, FlagPos.
  change (8 + 8 + 8 + 4) with 28. replace (p + 8 + 8) with (p + 16) by lia.
  rewrite !load_int_ok by (of_nat_lit; lia). rewrite E1, E2, E3, E5.
  rewrite !un_le_le by (of_nat_lit; lia). done.
Qed.

(** ** The loops of [delEntriesBackup] *)

Lemma drop_pending_ok climap es n :
  0 ≤ n → n + lenZ es < 2 ^ 32 →
  drop_pending climap es n = (not_ordered climap es, n + lenZ (ordered climap es)).
Proof.
  revert n. induction es as [|e es IH]; intros n Hn Hlen; simpl in *; [f_equal; lia|].
  unfold is_ordered. destruct (ordered_by climap (client_id e) (client_seq e)); simpl.
  - rewrite u32_small by lia. rewrite IH by lia. f_equal. lia.
  - by rewrite IH by lia.
Qed.

(** The log after the loop has passed the entries [es], which end at index [j]. *)
Definition gc_passed (st : FlatLog) (climap : gmap Z Z) (es : list LogEntry) (j : Z) : FlatLog :=
  mkFlat (is_primary_ st) (wait_ st) (view_ st) (rg_size_ st) (idx_map_elem_cnt_ st)
    (match es with [] => mem_rg_raw_ st | _ => set_word (mem_rg_raw_ st) (rg_size_ st) 2 j end)
    (idx_to_seq_ st) (forget (reqid_to_seq_map_ st) es)
    (pending_entries_ st ++ not_ordered climap es).

(** Unordered entries as the loop finds them, numbered from [j]. *)
Record gc_ready (st : FlatLog) (s j : Z) (es : list LogEntry) : Prop := {
  gr_rg : 0 < rg_size_ st;
  gr_rg4 : rg_size_ st mod 4 = 0;
  gr_cap : rg_size_ st + SAFE_RG_SIZE ≤ bcap (mem_rg_raw_ st);
  gr_s4 : s mod 4 = 0;
  gr_straight : straight (mem_rg_raw_ st) (rg_size_ st) s es;
  gr_valid : Forall valid_entry es;
  gr_entry : ∀ i e, es !! i = Some e →
    log_idx e = j + Z.of_nat i ∧ flags e = 1 ∧ entry_size e ≤ SAFE_RG_SIZE + 4
}.

Lemma gc_ready_safe st s j es :
  gc_ready st s j es → Forall (λ e, entry_size e ≤ SAFE_RG_SIZE + 4) es.
Proof. intros []. apply Forall_lookup. intros i e He. by apply (gr_entry0 i e). Qed.

Lemma gc_ready_tail st s j e es :
  gc_ready st s j (e :: es) → gc_ready st (s + entry_size e) (j + 1) es.
Proof.
  intros []. apply Forall_cons in gr_valid0 as [_ Hv]. split; try done.
  - by rewrite Z.add_mod, gr_s5, entry_size_mod4.
  - apply gr_straight0.
  - intros i x Hx. destruct (gr_entry0 (S i) x Hx) as (H1 & H2 & H3). lia.
Qed.

Lemma gc_ready_next st s j es pend reqs z :
  gc_ready st s j es →
  gc_ready (put_word (with_reqids (with_pending st pend) reqs) 2 z) s j es.
Proof.
  intros Hg. pose proof (gc_ready_safe _ _ _ _ Hg). destruct Hg.
  split; simpl; try done. by apply straight_set_word.
Qed.

Lemma set_word_twice b rg i z z' : set_word (set_word b rg i z) rg i z' = set_word b rg i z'.
Proof.
  unfold set_word, bpoke. simpl. f_equal. unfold poke. rewrite map_union_assoc. f_equal.
  apply map_eq. intros a. destruct (decide (word_addr rg i ≤ a < word_addr rg i + 8)) as [Ha|Ha].
  - destruct (lookup_lt_is_Some_2 (le_bytes 8 z') (Z.to_nat (a - word_addr rg i))) as [x Hx].
    { rewrite length_le. lia. }
    assert (map_seqZ (M := gmap Z byte) (word_addr rg i) (le_bytes 8 z') !! a = Some x) as Hl.
    { apply lookup_map_seqZ_Some. split; [lia|done]. }
    by rewrite (lookup_union_Some_l _ _ _ _ Hl), Hl.
  - rewrite lookup_union_r; rewrite ?(proj2 (lookup_map_seqZ_None _ _ _)); try done;
      rewrite length_le; lia.
Qed.

Lemma gc_passed_cons st climap e es j j' :
  j' = j + 1 + lenZ es →
  gc_passed
    (put_word (with_reqids (with_pending st (pending_entries_ st ++ not_ordered climap [e]))
                 (delete (client_id e, client_seq e) (reqid_to_seq_map_ st))) 2 (j + 1))
    climap es j'
  = gc_passed st climap (e :: es) j'.
Proof.
  intros ->. unfold gc_passed, put_word, with_mem, with_reqids, with_pending. simpl. f_equal.
  - destruct es as [|e' es]; [by rewrite Z.add_0_r|by rewrite set_word_twice].
  - rewrite <- app_assoc. by destruct (negb (is_ordered climap e)).
Qed.

Lemma gc_loop_stop fuel st climap s j max_seq n :
  max_seq < s →
  gc_loop fuel st climap s max_seq n =
    Ok (gc_passed st climap [] j, s + 0, n + lenZ (ordered climap [])).
Proof.
  intros H. replace (gc_passed st climap [] j) with st
    by (unfold gc_passed; simpl; rewrite app_nil_r; by destruct st).
  simpl. rewrite !Z.add_0_r. destruct fuel; simpl; by rewrite (proj2 (Z.leb_gt _ _) H).
Qed.

(** The third loop passes exactly the covered entries; the fuel bounds their number. *)
Lemma gc_loop_ok climap es fuel st s j max_seq n :
  gc_ready st s j es → 0 ≤ s → s + total_size es < 2 ^ 64 → max_seq < s + total_size es →
  0 ≤ j → j + lenZ es < 2 ^ 64 → 0 ≤ n → n + lenZ es < 2 ^ 32 →
  (length (covered s max_seq es) ≤ fuel)%nat →
  gc_loop fuel st climap s max_seq n =
    Ok (gc_passed st climap (covered s max_seq es) (j + lenZ (covered s max_seq es)),
        s + total_size (covered s max_seq es), n + lenZ (ordered climap (covered s max_seq es))).
Proof.
  revert fuel st s j n. induction es as [|e es IH]; intros fuel st s j n Hg Hs Hs64 Hmax Hj Hj64 Hn Hn32 Hf.
  { apply gc_loop_stop. simpl in Hmax. lia. }
  simpl covered in *. destruct (Z.leb_spec s max_seq) as [Hle|Hle]; cycle 1.
  { by apply gc_loop_stop. }
  destruct fuel as [|fuel]; simpl in Hf, Hs64, Hmax, Hj64, Hn32; [lia|].
  cbn [gc_loop]. rewrite (proj2 (Z.leb_le _ _) Hle).
  pose proof (Forall_inv (gr_valid _ _ _ _ Hg)) as Hv.
  destruct (gr_entry _ _ _ _ Hg 0%nat e eq_refl) as (Hidx & Hfl & Hsafe).
  pose proof (mod4_offset _ _ (gr_rg _ _ _ _ Hg) (gr_rg4 _ _ _ _ Hg) (gr_s4 _ _ _ _ Hg)) as Ho.
  pose proof (Z.mod_pos_bound s _ (gr_rg _ _ _ _ Hg)). pose proof (gr_cap _ _ _ _ Hg) as Hcap.
  destruct (gr_straight _ _ _ _ Hg) as [Henc _].
  pose proof (entry_size_pos e). pose proof (entry_size_encode e). pose proof (total_size_nonneg es).
  destruct (header_reads e (mem_rg_raw_ st) (s mod rg_size_ st)) as (R1 & R2 & R3 & R4 & R5); [done|done|lia|sizes|].
  rewrite R1. simpl. rewrite Hfl. simpl. rewrite R2. simpl. rewrite R3. simpl.
  fold (is_ordered climap e).
  set (st1 := with_reqids (with_pending st (pending_entries_ st ++ not_ordered climap [e]))
                 (delete (client_id e, client_seq e) (reqid_to_seq_map_ st))).
  transitivity (gc_loop fuel (put_word st1 2 (j + 1)) climap (s + entry_size e) max_seq
    (n + lenZ (ordered climap [e]))).
  - unfold st1, not_ordered, ordered. simpl. destruct (is_ordered climap e); simpl.
    + rewrite R4, R5. simpl. rewrite Hidx, !u64_small, u32_small by lia.
      rewrite app_nil_r. replace (j + Z.of_nat 0 + 1) with (j + 1) by lia. by destruct st.
    + rewrite (Deserializer_ok e) by (done || lia). simpl. rewrite R4, R5. simpl.
      rewrite Hidx, !u64_small by lia.
      by replace (j + Z.of_nat 0 + 1) with (j + 1) by lia; rewrite Z.add_0_r.
  - rewrite (IH fuel _ _ (j + 1)); try done; try lia.
    + unfold st1. rewrite gc_passed_cons by lia. f_equal. f_equal; [f_equal|].
      * f_equal. simpl. lia.
      * simpl. lia.
      * unfold ordered. simpl. destruct (is_ordered climap e); simpl; lia.
    + by apply gc_ready_next, gc_ready_tail.
    + unfold ordered. simpl. destruct (is_ordered climap e); simpl; lia.
Qed.

(** ** The first loop *)

(** The last sequence number given for each client. *)
Definition client_max (ids : list ReqID) (m : gmap Z Z) : gmap Z Z :=
  foldl (λ m rid, <[rid.1 := rid.2]> m) m ids.

(** The greatest position of the given requests in this replica's log. *)
Definition max_position (reqs : gmap ReqID Z) (ids : list ReqID) (z : Z) : Z :=
  foldl (λ z rid, Z.max z (default 0 (reqs !! rid))) z ids.

Definition same_positions (m m' : gmap ReqID Z) : Prop :=
  ∀ rid, default 0 (m !! rid) = default 0 (m' !! rid).

Lemma max_position_same reqs reqs' ids z :
  same_positions reqs reqs' → max_position reqs ids z = max_position reqs' ids z.
Proof.
  intros Hs. unfold max_position. revert z. induction ids as [|rid ids IH]; intros z; simpl; [done|].
  by rewrite IH, Hs.
Qed.

Lemma at_or_insert_same reqs rid :
  (at_or_insert reqs rid).1 = default 0 (reqs !! rid) ∧
  same_positions (at_or_insert reqs rid).2 reqs.
Proof.
  unfold at_or_insert. destruct (reqs !! rid) eqn:E; [done|]. simpl. split; [done|].
  intros rid'. destruct (decide (rid = rid')) as [<-|Hne].
  - by rewrite lookup_insert_eq, E.
  - by rewrite lookup_insert_ne.
Qed.

Lemma collect_max_ok ids reqs m z :
  ∃ reqs', collect_max ids reqs m z = (reqs', client_max ids m, max_position reqs ids z) ∧
    same_positions reqs' reqs.
Proof.
  revert reqs m z. induction ids as [|rid ids IH]; intros reqs m z; simpl.
  { by exists reqs. }
  destruct (at_or_insert_same reqs rid) as [Hv Hs].
  destruct (at_or_insert reqs rid) as [v reqs1]. simpl in Hv, Hs. subst v.
  destruct (IH reqs1 (<[rid.1 := rid.2]> m) (Z.max z (default 0 (reqs !! rid)))) as (reqs' & -> & Hs').
  exists reqs'. split.
  - by rewrite (max_position_same _ _ _ _ Hs).
  - intros r. by rewrite Hs', Hs.
Qed.

(** ** The whole collection *)

Lemma gc_ready_repr st hist k pend reqs :
  flat_repr st hist k →
  gc_ready (with_pending (with_reqids st reqs) pend) (total_size (take k hist)) (Z.of_nat k) (drop k hist).
Proof.
  intros Hr. pose proof (total_size_mod4 (take k hist)). destruct Hr.
  split; simpl; try done.
  - rewrite fr_cap. unfold PAGE_SIZE. lia.
  - by apply Forall_drop.
  - intros i e He. rewrite lookup_drop in He. destruct (fr_entry _ _ He) as (H1 & H2 & H3). lia.
Qed.

Lemma covered_prefix s mx es : ∃ rest, es = covered s mx es ++ rest.
Proof.
  revert s. induction es as [|e es IH]; intros s; simpl; [by exists []|].
  destruct (s <=? mx); [|by exists (e :: es)].
  destruct (IH (s + entry_size e)) as [rest Hrest]. exists rest. simpl. by f_equal.
Qed.

Lemma covered_take s mx es : covered s mx es = take (length (covered s mx es)) es.
Proof. destruct (covered_prefix s mx es) as [rest H]. rewrite H at 3. by rewrite take_app_length. Qed.

Lemma covered_fuel s mx es : (length (covered s mx es) ≤ entries_fuel (mx - s))%nat.
Proof.
  assert (∀ s, covered s mx es = [] ∨ 32 * (lenZ (covered s mx es) - 1) ≤ mx - s) as H.
  { clear s. induction es as [|e es IH]; intros s; simpl; [by left|].
    pose proof (entry_size_pos e). destruct (Z.leb_spec s mx); [right|by left]. simpl.
    destruct (IH (s + entry_size e)) as [->|H']; simpl; lia. }
  destruct (H s) as [->|H']; simpl; [lia|].
  unfold entries_fuel, MetaDataSize, FlagPos. change (8 + 8 + 8 + 4 + 2 + 2) with 32.
  assert (lenZ (covered s mx es) - 1 ≤ (mx - s) / 32) by (apply Z.div_le_lower_bound; lia). lia.
Qed.

(** The watermarks after the loop and the final store. *)
Lemma gc_passed_repr st hist k climap pend reqs cov :
  flat_repr st hist k → cov = take (length cov) (drop k hist) →
  flat_repr
    (put_word (gc_passed (with_pending (with_reqids st reqs) pend) climap cov
                 (Z.of_nat k + lenZ cov)) 1 (total_size (take k hist) + total_size cov))
    hist (k + length cov).
Proof.
  intros Hr Hc. pose proof (repr_seq_range _ _ _ Hr) as [Hs Hl]. pose proof (fr_k _ _ _ Hr).
  assert (length cov ≤ length hist - k)%nat by (rewrite Hc, length_take, length_drop; lia).
  set (k' := (k + length cov)%nat).
  assert (total_size (take k hist) + total_size cov = total_size (take k' hist)) as Hwm.
  { rewrite (total_size_take_drop k k') by lia. replace (k' - k)%nat with (length cov) by lia.
    by rewrite <- Hc. }
  pose proof (total_size_nonneg (take k' hist)). pose proof (total_size_nonneg (drop k' hist)).
  assert (total_size hist = total_size (take k' hist) + total_size (drop k' hist)) as Hsplit
    by (by rewrite <- total_size_app, take_drop).
  assert (Z.of_nat k + lenZ cov = Z.of_nat k') as Hk' by lia. rewrite Hwm, Hk'.
  apply (flat_repr_moved st _ hist k k'); try done; try lia;
    unfold sequencer_, ordered_watermk_, ordered_idx_watermk_, indexer_;
    cbn [gc_passed put_word with_mem with_pending with_reqids mem_rg_raw_ rg_size_];
    destruct cov as [|e cov'];
    rewrite ?rd_set_word, ?get_set_word_same, ?get_set_word_other by lia; try done.
  - intros a Ha. by rewrite rd_set_word.
  - intros a Ha. by rewrite !rd_set_word.
  - pose proof (fr_idx_wm _ _ _ Hr) as Hw. unfold ordered_idx_watermk_ in Hw. simpl in k'.
    rewrite Hw. lia.
  - apply get_set_word_same. lia.
Qed.

(** A backup with one entry of client 42 and one of client 43, and the request to
    collect client 42 up to sequence number 7. *)
Definition entry_of (cid cseq : Z) : LogEntry := mkEntry cid cseq 0 2 0 0 [Byte.x41; Byte.x42].

Definition two_entries : FlatLog :=
  appended (appended small_log (entry_of 42 7)) (entry_of 43 9).
Definition two_hist : list LogEntry := [stored (entry_of 42 7) 0 0; stored (entry_of 43 9) 1 0].

Lemma two_entries_repr : flat_repr two_entries two_hist 0.
Proof.
  apply (flat_repr_appended (appended small_log (entry_of 42 7))
           [stored (entry_of 42 7) 0 0] 0 (entry_of 43 9)).
  - apply (flat_repr_appended small_log [] 0 (entry_of 42 7)); [apply small_log_repr|].
    split; by vm_compute.
  - split; by vm_compute.
Qed.

Lemma forget_positions reqs es rid :
  default 0 (forget reqs es !! rid) = 0 ∨ default 0 (forget reqs es !! rid) = default 0 (reqs !! rid).
Proof.
  unfold forget. revert reqs. induction es as [|e es IH]; intros reqs; simpl; [by right|].
  destruct (IH (delete (client_id e, client_seq e) reqs)) as [H|H]; [by left|]. rewrite H.
  destruct (decide ((client_id e, client_seq e) = rid)) as [<-|Hne].
  - left. by rewrite lookup_delete_eq.
  - right. by rewrite lookup_delete_ne.
Qed.

(** [DelOrderedEntries] on a backup. *)
Lemma DelOrderedEntries_backup st hist k ids :
  let climap := client_max ids ∅ in
  let mx := max_position (reqid_to_seq_map_ st) ids 0 in
  let cov := covered (total_size (take k hist)) mx (drop k hist) in
  flat_repr st hist k → is_primary_ st = false → mx < total_size hist →
  lenZ (pending_entries_ st) + lenZ (drop k hist) < 2 ^ 32 →
  ∃ st', DelOrderedEntries st ids = Ok (st', lenZ (ordered climap (pending_entries_ st ++ cov))) ∧
    flat_repr st' hist (k + length cov) ∧
    pending_entries_ st' = not_ordered climap (pending_entries_ st ++ cov) ∧
    same_config st st' ∧
    ∀ rid, default 0 (reqid_to_seq_map_ st' !! rid) = 0 ∨
      default 0 (reqid_to_seq_map_ st' !! rid) = default 0 (reqid_to_seq_map_ st !! rid).
Proof.
  intros climap mx cov Hr Hp Hmx Hlen. pose proof (repr_seq_range _ _ _ Hr) as [Hs64 Hl64].
  pose proof (repr_unordered _ _ _ Hr) as Hu. pose proof (total_size_nonneg (take k hist)).
  pose proof (fr_rg _ _ _ Hr). pose proof (fr_k _ _ _ Hr).
  unfold DelOrderedEntries. rewrite Hp. unfold delEntriesBackup.
  destruct (collect_max_ok ids (reqid_to_seq_map_ st) ∅ 0) as (reqs' & -> & Hsame).
  fold climap mx. simpl. rewrite drop_pending_ok by lia. simpl.
  unfold ordered_watermk_. simpl. setoid_rewrite (fr_wm _ _ _ Hr).
  destruct (Z.eqb_spec (rg_size_ st) 0); [lia|].
  pose proof (List.filter_length_le (is_ordered climap) (pending_entries_ st)).
  rewrite (gc_loop_ok climap (drop k hist) _ _ _ (Z.of_nat k));
    [|by apply gc_ready_repr|unfold ordered; rewrite ?length_drop in *; try lia..|apply covered_fuel].
  simpl. fold cov. eexists. split; [|split; [|split; [|split]]].
  - unfold ordered. rewrite List.filter_app, length_app. do 2 f_equal. lia.
  - apply gc_passed_repr; [done|]. apply covered_take.
  - unfold not_ordered. simpl. by rewrite List.filter_app.
  - done.
  - intros rid. simpl. rewrite <- (Hsame rid). apply forget_positions.
Qed.

