(* ===== verification/FlatRead.v ===== *)
(** Reads of a durability log replica: [FetchUnorderedEntries] on a backup and
    [SpecReadEntry] on the primary, both of [src/dur_log/dur_log_flat.cc]. *)

From S2P Require Import Prelude Props Sequencer LogEntry DurLogFlat FlatRing FlatGC.

Local Open Scope Z_scope.

(** ** FetchUnorderedEntries *)

Lemma fetch_loop_ok es fuel st s j acc n max :
  gc_ready st s j es → 0 ≤ s → s + total_size es = sequencer_ st → sequencer_ st < 2 ^ 64 →
  0 ≤ n → n + lenZ es < 2 ^ 32 → (max ≤ n → es = []) → (Z.to_nat (max - n) ≤ fuel)%nat →
  fetch_loop fuel st s acc n max =
    Some (acc ++ take (Z.to_nat (max - n)) es, n + lenZ (take (Z.to_nat (max - n)) es)).
Proof.
  revert fuel s j acc n. induction es as [|e es IH]; intros fuel s j acc n Hg Hs Hseq H64 Hn Hn32 Hmax Hf.
  { simpl in Hseq. rewrite take_nil, app_nil_r. simpl. rewrite Z.add_0_r.
    destruct fuel; cbn [fetch_loop]; unfold Sequencer.GetCurSeqNonAtm; zb. }
  destruct (Z.leb_spec max n) as [Hle|Hlt]; [by specialize (Hmax Hle)|].
  simpl in Hseq, Hn32. pose proof (entry_size_pos e). pose proof (total_size_nonneg es).
  pose proof (entry_size_encode e). pose proof (Forall_inv (gr_valid _ _ _ _ Hg)) as Hv.
  destruct (gr_entry _ _ _ _ Hg 0%nat e eq_refl) as (_ & _ & Hsafe).
  pose proof (mod4_offset _ _ (gr_rg _ _ _ _ Hg) (gr_rg4 _ _ _ _ Hg) (gr_s4 _ _ _ _ Hg)) as Ho.
  pose proof (Z.mod_pos_bound s _ (gr_rg _ _ _ _ Hg)). pose proof (gr_cap _ _ _ _ Hg).
  destruct (gr_straight _ _ _ _ Hg) as [Henc _].
  destruct fuel as [|fuel]; [lia|]. cbn [fetch_loop]. unfold Sequencer.GetCurSeqNonAtm.
  rewrite (proj2 (Z.ltb_lt _ _)) by lia. rewrite (Deserializer_ok e) by (done || lia). simpl.
  rewrite u32_small, u64_small by lia.
  replace (Z.to_nat (max - n)) with (S (Z.to_nat (max - (n + 1)))) by lia. cbn [take length].
  destruct (Z.leb_spec max (n + 1)) as [Hm|Hm].
  - replace (Z.to_nat (max - (n + 1))) with 0%nat by lia. simpl. do 2 f_equal.
  - rewrite (IH fuel _ (j + 1)); try done; try lia; [|by apply gc_ready_tail].
    rewrite <- app_assoc. cbn [app]. do 2 f_equal. lia.
Qed.

(** On a backup, [FetchUnorderedEntries] appends to [es] the oldest entries that
    are not collected, in log order, and returns their number: at most
    [max_entries_num] of them, and all of them if there are fewer. *)
Theorem FetchUnorderedEntries_backup st hist k es max :
  flat_repr st hist k → is_primary_ st = false → 0 < max → lenZ hist < 2 ^ 32 →
  FetchUnorderedEntries st es max =
    Some (es ++ take (Z.to_nat max) (drop k hist), Z.min max (lenZ (drop k hist))).
Proof.
  intros Hr Hp Hmax Hlen. pose proof (repr_seq_range _ _ _ Hr) as [Hs64 _].
  pose proof (repr_unordered _ _ _ Hr) as Hu. pose proof (total_size_nonneg (take k hist)).
  pose proof (gc_ready_repr st hist k (pending_entries_ st) (reqid_to_seq_map_ st) Hr) as Hg.
  unfold FetchUnorderedEntries. rewrite Hp, (fr_wm _ _ _ Hr).
  rewrite (fetch_loop_ok (drop k hist) _ _ _ (Z.of_nat k)).
  - rewrite Z.sub_0_r. do 2 f_equal. rewrite length_take. lia.
  - by destruct st.
  - done.
  - rewrite (fr_seq _ _ _ Hr). lia.
  - rewrite (fr_seq _ _ _ Hr). lia.
  - done.
  - rewrite length_drop. lia.
  - lia.
  - lia.
Qed.

Lemma FetchUnorderedEntries_backup_witness :
  FetchUnorderedEntries two_entries [] 5 = Some (two_hist, 2).
Proof.
  apply (FetchUnorderedEntries_backup two_entries two_hist 0 [] 5 two_entries_repr);
    by vm_compute.
Defined.

(** ** SpecReadEntry *)

(** C35. [SpecReadEntry] finds no entry at all until the log has nearly as many entries
    as its index map has elements: the lower bound of the indices it accepts is
    computed by an unsigned subtraction that wraps around while the log is shorter, so
    an appended entry is reported as overwritten (-1). *)
Theorem SpecReadEntry_short_log st hist k idx e :
  flat_repr st hist k → lenZ hist + 64 < idx_map_elem_cnt_ st ≤ 2 ^ 32 →
  0 ≤ idx < lenZ hist →
  SpecReadEntry st idx e = Some (-1, e).
Proof.
  intros Hr Hcnt Hidx. unfold SpecReadEntry, Sequencer.GetCurSeqNonAtm. rewrite (fr_idx _ _ _ Hr).
  assert (u64 (lenZ hist - idx_map_elem_cnt_ st + 64)
          = 2 ^ 64 + (lenZ hist - idx_map_elem_cnt_ st + 64)) as ->.
  { unfold u64. symmetry. apply (Z.mod_unique_pos _ _ (-1)); lia. }
  by rewrite (proj2 (Z.leb_le _ _)) by lia.
Qed.

Lemma SpecReadEntry_short_log_witness :
  SpecReadEntry two_entries 1 LogEntry_default = Some (-1, LogEntry_default).
Proof.
  apply (SpecReadEntry_short_log two_entries two_hist 0 1 LogEntry_default two_entries_repr);
    by vm_compute.
Defined.
