(* ===== verification/DlTransport.v ===== *)
(** The RPC layer of the durability log: the request handlers of
    [src/dur_log/erpc_dl_transport.cc] and the client of
    [src/dur_log/dur_log_erpc_cli.cc].

    eRPC is not part of the repository.  The class [Erpc] states what both ends rely
    on: a message arrives with the bytes it was sent with, and an allocated message
    buffer has at least the size asked for. *)

From S2P Require Import Prelude Props Sequencer LogEntry DurLogFlat FlatRing FlatGC FlatRead.

Local Open Scope Z_scope.

(** ** eRPC *)

Class Erpc : Type := {
  transmit : list byte → list byte;
  alloc_cap : Z → Z;
  transmit_id : ∀ bs, transmit bs = bs;
  alloc_cap_ge : ∀ n, n ≤ alloc_cap n
}.

(** A network that delivers and an allocator that does not round up. *)
#[export] Instance Erpc_exact : Erpc.
Proof. refine {| transmit := λ bs, bs; alloc_cap := λ n, n |}; intros; lia || done. Defined.

(** [resize_msg_buffer] to [n] bytes, then [enqueue_request] or [enqueue_response]:
    the first [n] bytes of the buffer are sent. *)
Definition send `{Erpc} (b : buffer) (n : Z) : option (list byte) :=
  bs ← load b 0 (Z.to_nat n); Some (transmit bs).

(** Request types, [src/rpc/common.h]. *)
Definition APPEND_ENTRY : Z := 1.
Definition ORDER_ENTRY : Z := 2.
Definition GET_N_DUR_ENTRY : Z := 3.
Definition FETCH_UNORDERED_ENTRIES : Z := 4.
Definition DEL_ORDERED_ENTRIES : Z := 5.
Definition SPEC_READ : Z := 6.

(** ** The server: [ERPCDurLogTransport] *)

Section ERPCDurLogTransport.
Context `{Erpc}.
(** The preallocated response buffer, [pre_resp_msgbuf_]. *)
Context (resp : buffer).

Definition respond_u64 (z : Z) : option (list byte) := b ← store_int 8 resp 0 z; send b 8.

Definition AppendEntryHandler (st : FlatLog) (req : list byte) : outcome (FlatLog * list byte) :=
  '(e, _) ← lift (Deserializer LogEntry_default (msg_buf req) 0);
  let e := set_flags e 0 in
  '(st, _, pri_seq) ← AppendEntry st e;
  bs ← lift (respond_u64 pri_seq);
  Ok (st, bs).

Definition OrderEntryHandler (st : FlatLog) (req : list byte) : outcome (FlatLog * list byte) :=
  '(e, _) ← lift (Deserializer LogEntry_default (msg_buf req) 0);
  let e := set_flags e 0 in
  '(st, _, seq) ← AppendEntry st e;
  bs ← lift (respond_u64 seq);
  Ok (st, bs).

Definition GetNumDurEntryHandler (st : FlatLog) (req : list byte) : outcome (FlatLog * list byte) :=
  lift (
    b ← store_int 8 resp 0 (GetNumDurEntry st);
    b ← store_int 8 b 8 (GetNumOrderedEntry st);
    b ← store_int 2 b (2 * 8) (GetView st);
    bs ← send b (2 * 8 + 2);
    Some (st, bs)).

Definition SpecReadHandler (st : FlatLog) (req : list byte) : outcome (FlatLog * list byte) :=
  lift (
    idx ← load_int 8 (msg_buf req) 0;
    '(ret_v, e) ← SpecReadEntry st idx LogEntry_default;
    bs ← (if ret_v <=? 0
          then b ← store_int 4 resp 0 ret_v; send b 4
          else '(b, n) ← Serializer e resp 0; send b n);
    Some (st, bs)).

Definition FetchUnorderedEntriesHandler (st : FlatLog) (req : list byte)
    : outcome (FlatLog * list byte) :=
  lift (
    max_entries_num ← load_int 4 (msg_buf req) 0;
    '(unordered_entries, num) ← FetchUnorderedEntries st [] max_entries_num;
    '(b, total_entries_size) ← MultiSerializer unordered_entries (Buf (alloc_cap (u32 (num * 2048))) ∅) 0;
    bs ← send b total_entries_size;
    Some (st, bs)).

Definition DeleteOrderedEntriesHandler (st : FlatLog) (req : list byte)
    : outcome (FlatLog * list byte) :=
  '(req_ids, _) ← lift (ReqIdDeserializer [] (msg_buf req) 0);
  '(st, n_del) ← DelOrderedEntries st req_ids;
  bs ← lift (respond_u64 n_del);
  Ok (st, bs).

(** The handlers [Initialize] registers. *)
Definition dl_handle (st : FlatLog) (req_type : Z) (req : list byte) : outcome (FlatLog * list byte) :=
  if req_type =? APPEND_ENTRY then AppendEntryHandler st req
  else if req_type =? ORDER_ENTRY then OrderEntryHandler st req
  else if req_type =? GET_N_DUR_ENTRY then GetNumDurEntryHandler st req
  else if req_type =? FETCH_UNORDERED_ENTRIES then FetchUnorderedEntriesHandler st req
  else if req_type =? DEL_ORDERED_ENTRIES then DeleteOrderedEntriesHandler st req
  else if req_type =? SPEC_READ then SpecReadHandler st req
  else Fault.
End ERPCDurLogTransport.

(** ** The client: [DurabilityLogERPCCli] *)

(** [pending_reqs_] holds shared pointers to tokens; [tokens] is what they point to. *)
Record ErpcCli : Type := mkCli {
  cli_is_primary : bool;
  req_ : buffer;
  resp_ : list byte;
  complete_ : bool;
  rpc_tkn_ : RPCToken.t;
  pending_reqs_ : list nat;
  tokens : gmap nat RPCToken.t
}.

Definition with_req (c : ErpcCli) (b : buffer) : ErpcCli :=
  mkCli (cli_is_primary c) b (resp_ c) (complete_ c) (rpc_tkn_ c) (pending_reqs_ c) (tokens c).
Definition with_resp (c : ErpcCli) (bs : list byte) : ErpcCli :=
  mkCli (cli_is_primary c) (req_ c) bs (complete_ c) (rpc_tkn_ c) (pending_reqs_ c) (tokens c).
Definition with_complete (c : ErpcCli) (f : bool) : ErpcCli :=
  mkCli (cli_is_primary c) (req_ c) (resp_ c) f (rpc_tkn_ c) (pending_reqs_ c) (tokens c).
Definition with_tkn (c : ErpcCli) (t : RPCToken.t) : ErpcCli :=
  mkCli (cli_is_primary c) (req_ c) (resp_ c) (complete_ c) t (pending_reqs_ c) (tokens c).
Definition with_tokens (c : ErpcCli) (q : list nat) (m : gmap nat RPCToken.t) : ErpcCli :=
  mkCli (cli_is_primary c) (req_ c) (resp_ c) (complete_ c) (rpc_tkn_ c) q m.

Definition IsPrimary (c : ErpcCli) : bool := cli_is_primary c.
Definition notifyRpcComplete (c : ErpcCli) : ErpcCli := with_complete c true.
Definition pollForRpcComplete (c : ErpcCli) : outcome ErpcCli :=
  if negb (complete_ c) then Blocked else Ok (with_complete c false).

Section DurabilityLogERPCCli.
Context `{Erpc} {S : Type}.
(** The server of the session: what it does with a request of a type. *)
Context (server : S → Z → list byte → outcome (S * list byte)).

(** A request and its response: the server runs, the response arrives in [resp_] and
    [rpc_cont_func] is called, which ends [pollForRpcComplete]. *)
Definition round_trip (c : ErpcCli) (s : S) (req_type n : Z) : outcome (ErpcCli * S) :=
  bs ← lift (send (req_ c) n);
  '(s, rs) ← server s req_type bs;
  c ← pollForRpcComplete (notifyRpcComplete (with_resp c rs));
  Ok (c, s).

Definition cli_AppendEntry (c : ErpcCli) (s : S) (e : LogEntry) : outcome (ErpcCli * S * Z) :=
  '(b, len) ← lift (Serializer e (req_ c) 0);
  '(c, s) ← round_trip (with_req c b) s APPEND_ENTRY len;
  received_pri_seq ← lift (load_int 8 (msg_buf (resp_ c)) 0);
  Ok (c, s, received_pri_seq).

(** The asynchronous form only sends; the token is completed by [async_complete]. *)
Definition cli_AppendEntryAsync (c : ErpcCli) (e : LogEntry) : option (ErpcCli * list byte) :=
  '(b, len) ← Serializer e (req_ c) 0;
  bs ← send b len;
  Some (with_req c b, bs).

Definition async_complete (c : ErpcCli) (token : nat) (rs : list byte) : ErpcCli :=
  with_tokens (with_resp c rs) (pending_reqs_ c)
    (alter RPCToken.SetComplete token (tokens c)).

Definition cli_GetNumDurEntry (c : ErpcCli) (s : S) : outcome (ErpcCli * S * (Z * Z * Z)) :=
  b ← lift (store_int 4 (req_ c) 0 0);
  '(c, s) ← round_trip (with_req c b) s GET_N_DUR_ENTRY 4;
  n_dur ← lift (load_int 8 (msg_buf (resp_ c)) 0);
  n_ordered ← lift (load_int 8 (msg_buf (resp_ c)) 8);
  view ← lift (load_int 2 (msg_buf (resp_ c)) (2 * 8));
  Ok (c, s, (n_dur, n_ordered, view)).

(** The result is the [uint32_t] that [MultiDeserializer] returns, a byte count. *)
Definition cli_FetchUnorderedEntries (c : ErpcCli) (s : S) (es : list LogEntry) (max_entries_num : Z)
    : outcome (ErpcCli * S * (list LogEntry * Z)) :=
  b ← lift (store_int 4 (req_ c) 0 max_entries_num);
  '(c, s) ← round_trip (with_req c b) s FETCH_UNORDERED_ENTRIES 4;
  '(es, n) ← lift (MultiDeserializer es (msg_buf (resp_ c)) 0);
  Ok (c, s, (es, u32 n)).

Definition cli_FetchUnorderedEntries_from (c : ErpcCli) (s : S) (es : list LogEntry)
    (_from max_entries_num : Z) : outcome (ErpcCli * S * (list LogEntry * Z)) :=
  cli_FetchUnorderedEntries c s es max_entries_num.

Definition cli_DeleteOrderedEntries (c : ErpcCli) (s : S) (req_ids : list ReqID)
    : outcome (ErpcCli * S * Z) :=
  '(b, len) ← lift (ReqIdSerializer req_ids (req_ c) 0);
  '(c, s) ← round_trip (with_req c b) s DEL_ORDERED_ENTRIES len;
  if lenZ (resp_ c) <? 8 then Ok (c, s, 0) else
  n ← lift (load_int 8 (msg_buf (resp_ c)) 0);
  Ok (c, s, n).

Definition cli_SpecRead (c : ErpcCli) (s : S) (idx : Z) (e : LogEntry)
    : outcome (ErpcCli * S * (Z * LogEntry)) :=
  b ← lift (store_int 8 (req_ c) 0 idx);
  '(c, s) ← round_trip (with_req c b) s SPEC_READ 8;
  if lenZ (resp_ c) <? MetaDataSize
  then r ← lift (load_int 4 (msg_buf (resp_ c)) 0); Ok (c, s, (i32 r, e))
  else '(e, n) ← lift (Deserializer e (msg_buf (resp_ c)) 0); Ok (c, s, (i32 n, e)).

Definition cli_DeleteOrderedEntriesAsync (c : ErpcCli) (req_ids : list ReqID)
    : option (ErpcCli * list byte) :=
  let c := with_tkn c (RPCToken.Reset (rpc_tkn_ c)) in
  '(b, len) ← ReqIdSerializer req_ids (req_ c) 0;
  bs ← send b len;
  Some (with_req c b, bs).

(** [run_once] is one turn of the event loop, which may complete tokens. *)
Definition cli_CheckAndRunOnce (run_once : ErpcCli → ErpcCli) (c : ErpcCli) : ErpcCli * bool :=
  if RPCToken.Complete (rpc_tkn_ c) then (c, true)
  else let c := run_once c in (c, RPCToken.Complete (rpc_tkn_ c)).

Definition AddPendingReq (c : ErpcCli) (token : nat) : ErpcCli :=
  with_tokens c (pending_reqs_ c ++ [token]) (tokens c).

Definition CheckPendingReq (run_once : ErpcCli → ErpcCli) (c : ErpcCli) : ErpcCli :=
  match pending_reqs_ c with
  | [] => c
  | _ =>
      let c := run_once c in
      match pending_reqs_ c with
      | t :: q => if default false (RPCToken.Complete <$> tokens c !! t)
                  then with_tokens c q (tokens c) else c
      | [] => c
      end
  end.
End DurabilityLogERPCCli.

(** ** Messages *)

Lemma send_ok `{Erpc} b n :
  0 ≤ n ≤ bcap b → send b n = Some (peek (rd (bmem b)) 0 (Z.to_nat n)).
Proof. intros Hn. unfold send. rewrite load_ok by lia. simpl. by rewrite transmit_id. Qed.

Lemma respond_u64_ok `{Erpc} resp z : 8 ≤ bcap resp → respond_u64 resp z = Some (le_bytes 8 z).
Proof.
  intros Hc. unfold respond_u64, store_int. rewrite store_ok by (rewrite ?length_le; lia). simpl.
  rewrite send_ok by (simpl; lia). simpl. by rewrite (peek_poke_int _ 0 8).
Qed.

Lemma load_u64_response z : 0 ≤ z < 2 ^ 64 → load_int 8 (msg_buf (le_bytes 8 z)) 0 = Some z.
Proof.
  intros Hz. rewrite load_int_ok by (unfold msg_buf; cbn [bcap]; rewrite ?length_le; lia).
  pose proof (peek_msg_buf (le_bytes 8 z)) as Hp. rewrite length_le in Hp.
  by rewrite Hp, un_le_le.
Qed.

(** An entry sent with its flag set is received unchanged. *)
Lemma entry_message e e0 b n :
  valid_entry e → encoded_at (rd (bmem b)) 0 e → Z.of_nat n = entry_size e →
  Deserializer e0 (msg_buf (peek (rd (bmem b)) 0 n)) 0 = Some (e, entry_size e).
Proof.
  intros Hv He Hn. pose proof (entry_size_encode e). apply Deserializer_ok; [done|done| |].
  - unfold msg_buf. cbn [bcap]. rewrite length_peek. lia.
  - unfold encoded_at. etrans; [|exact He]. apply peek_ext. intros i Hi. apply rd_msg_peek. lia.
Qed.

(** What stays of the client: the buffer capacity and no completion left over. *)
Definition cli_ready (c : ErpcCli) (cap : Z) : Prop := bcap (req_ c) = cap ∧ complete_ c = false.

Lemma round_trip_ok `{Erpc} {S} (server : S → Z → list byte → outcome (S * list byte)) c s ty n s' rs :
  0 ≤ n ≤ bcap (req_ c) →
  server s ty (peek (rd (bmem (req_ c))) 0 (Z.to_nat n)) = Ok (s', rs) →
  round_trip server c s ty n = Ok (with_complete (with_resp c rs) false, s').
Proof. intros Hn Hs. unfold round_trip. rewrite send_ok by lia. simpl. by rewrite Hs. Qed.

(** A backup reached over the network, as a witness. *)
Definition test_cli : ErpcCli := mkCli false (Buf 8192 ∅) [] false false [] ∅.
Definition test_resp : buffer := Buf 8192 ∅.

(** C17. [DurabilityLogERPCCli::AppendEntry] against a replica: the entry is sent,
    stored and acknowledged.  With room for the entry and 64 pages more, the replica's
    log is extended by exactly that entry, numbered by the replica, and the client
    receives the byte position where it was put; without room the call blocks. *)
Theorem cli_AppendEntry_refines `{Erpc} resp c cap st hist k e :
  cli_ready c cap → entry_size e ≤ cap → 8 ≤ bcap resp →
  flat_repr st hist k → wait_ st = true → 2 ^ 18 ≤ rg_size_ st < 2 ^ 64 →
  valid_entry e → entry_size e ≤ SAFE_RG_SIZE + 4 →
  total_size hist + entry_size e < 2 ^ 64 → lenZ hist + 1 < 2 ^ 64 →
  (is_primary_ st = true → 0 < idx_map_elem_cnt_ st) →
  if total_size (drop k hist) + entry_size e <? rg_size_ st - 2 ^ 18
  then ∃ c' st', cli_AppendEntry (dl_handle resp) c st e = Ok (c', st', total_size hist) ∧
       cli_ready c' cap ∧ flat_repr st' (hist ++ [stored e (lenZ hist) (view_ st)]) k
  else cli_AppendEntry (dl_handle resp) c st e = Blocked.
Proof.
  intros [Hcap Hcmp] Hecap Hresp Hr Hw Hrg Hv Hsafe Hs64 Hl64 Hp.
  pose proof (entry_size_pos e). pose proof (entry_size_encode e). pose proof (total_size_nonneg hist).
  assert (wf_entry (set_flags e 0)) as Hwf by (destruct Hv as [Hwf _]; unfold wf_entry in *; simpl; lia).
  pose proof (AppendEntry_spec st hist k (set_flags e 0) Hr Hw Hrg Hwf Hsafe Hs64 Hl64 Hp) as Happ.
  change (entry_size (set_flags e 0)) with (entry_size e) in Happ.
  unfold cli_AppendEntry. rewrite (Serializer_ok e) by (try apply Hv; lia). simpl.
  pose proof (entry_message e LogEntry_default (bpoke (req_ c) 0 (encode e)) (Z.to_nat (entry_size e))
    Hv (peek_poke_same _ _ _) ltac:(lia)) as Hmsg.
  assert (bcap (bpoke (req_ c) 0 (encode e)) = cap) as Hcapb by done.
  generalize dependent (bpoke (req_ c) 0 (encode e)). intros b Hmsg Hcapb.
  destruct (_ <? _).
  - destruct Happ as (st' & Happ & Hr'). eexists _, st'. erewrite round_trip_ok; [|simpl; lia|]; cycle 1.
    { unfold dl_handle, AppendEntryHandler. simpl. rewrite Hmsg. simpl. rewrite Happ. simpl.
      by rewrite respond_u64_ok. }
    cbn -[load_int msg_buf le_bytes]. rewrite load_u64_response by lia. done.
  - unfold round_trip. simpl. rewrite send_ok by (simpl; lia).
    unfold dl_handle, AppendEntryHandler. simpl. rewrite Hmsg. simpl. by rewrite Happ.
Qed.

Lemma cli_AppendEntry_refines_witness :
  ∃ c' st', cli_AppendEntry (dl_handle test_resp) test_cli two_entries (stored (entry_of 42 8) 0 0)
              = Ok (c', st', 72) ∧
    cli_ready c' 8192 ∧ flat_repr st' (two_hist ++ [stored (entry_of 42 8) 2 0]) 0.
Proof.
  refine (cli_AppendEntry_refines test_resp test_cli 8192 two_entries two_hist 0
            (stored (entry_of 42 8) 0 0) _ _ _ two_entries_repr _ _ _ _ _ _ _);
    by vm_compute.
Defined.

(** C18. Garbage collection on a backup, given the ordered sequence number of each
    client ([DurabilityLogERPCCli::DeleteOrderedEntries]): the backup's watermark moves
    past exactly the entries that start no later than the last of the given requests,
    so that its memory represents the same log with more of it collected.  Of those
    entries and of the ones kept from earlier calls, the ones beyond their client's
    ordered number are kept, all others are dropped, and their number is returned. *)
Theorem cli_DeleteOrderedEntries_backup `{Erpc} resp c cap st hist k ids :
  let climap := client_max ids ∅ in
  let mx := max_position (reqid_to_seq_map_ st) ids 0 in
  let cov := covered (total_size (take k hist)) mx (drop k hist) in
  cli_ready c cap → 4 + 16 * lenZ ids ≤ cap → 8 ≤ bcap resp → Forall wf_id ids → lenZ ids < 2 ^ 32 →
  flat_repr st hist k → is_primary_ st = false → mx < total_size hist →
  lenZ (pending_entries_ st) + lenZ (drop k hist) < 2 ^ 32 →
  ∃ c' st', cli_DeleteOrderedEntries (dl_handle resp) c st ids =
      Ok (c', st', lenZ (ordered climap (pending_entries_ st ++ cov))) ∧
    cli_ready c' cap ∧ flat_repr st' hist (k + length cov) ∧
    pending_entries_ st' = not_ordered climap (pending_entries_ st ++ cov).
Proof.
  intros climap mx cov [Hcap Hcmp] Hids Hresp Hwf Hlen Hr Hp Hmx Hn.
  destruct (DelOrderedEntries_backup st hist k ids Hr Hp Hmx Hn) as (st' & Hdel & Hr' & Hpend & _).
  fold climap mx cov in Hdel, Hr', Hpend.
  assert (lenZ (ordered climap (pending_entries_ st ++ cov)) < 2 ^ 32) as Hn'.
  { pose proof (List.filter_length_le (is_ordered climap) (pending_entries_ st ++ cov)).
    unfold ordered. rewrite length_app in *. unfold cov in *.
    rewrite covered_take, length_take in *. lia. }
  destruct (ReqIdSerializer_ok ids (req_ c)) as (b & Hser & Hb & Hbcap); [lia..|].
  unfold cli_DeleteOrderedEntries. rewrite Hser. simpl.
  eexists _, st'. erewrite round_trip_ok; [|simpl; lia|]; cycle 1.
  { unfold dl_handle, DeleteOrderedEntriesHandler. simpl.
    rewrite (ReqIdDeserializer_ok ids) by (done || (apply holds_ids_msg; (done || lia))). simpl.
    rewrite Hdel. simpl. by rewrite respond_u64_ok. }
  cbn -[load_int msg_buf le_bytes]. rewrite length_le.
  cbn -[load_int msg_buf le_bytes]. rewrite load_u64_response by lia.
  split; [done|]. split; [|done]. split; [simpl; lia|done].
Qed.

Lemma cli_DeleteOrderedEntries_backup_witness :
  ∃ c' st', cli_DeleteOrderedEntries (dl_handle test_resp) test_cli two_entries [(43, 8); (42, 7)] =
      Ok (c', st', 1) ∧
    cli_ready c' 8192 ∧ flat_repr st' two_hist 1 ∧ pending_entries_ st' = [].
Proof.
  refine (cli_DeleteOrderedEntries_backup test_resp test_cli 8192 two_entries two_hist 0
            [(43, 8); (42, 7)] _ _ _ _ _ two_entries_repr _ _ _);
    repeat constructor; by vm_compute.
Defined.

(** [GetNumDurEntry] tells the client how many entries the replica has stored, how
    many of them are ordered, and the view. *)
Theorem cli_GetNumDurEntry_spec `{Erpc} resp c cap st hist k :
  cli_ready c cap → 4 ≤ cap → 18 ≤ bcap resp → flat_repr st hist k →
  ∃ c', cli_GetNumDurEntry (dl_handle resp) c st = Ok (c', st, (lenZ hist, Z.of_nat k, view_ st)) ∧
    cli_ready c' cap.
Proof.
  intros [Hcap Hcmp] Hc Hresp Hr. unfold cli_GetNumDurEntry, store_int.
  rewrite store_ok by (rewrite ?length_le; lia). cbn [lift mbind outcome_bind].
  pose proof (fr_view _ _ _ Hr). pose proof (repr_seq_range _ _ _ Hr).
  eexists. erewrite round_trip_ok; [|simpl; lia|]; cycle 1.
  { unfold dl_handle, GetNumDurEntryHandler, store_int. simpl.
    do 3 (rewrite store_ok by (rewrite ?length_le; simpl; lia); simpl).
    by rewrite send_ok by (simpl; lia). }
  cbn -[load_int msg_buf le_bytes peek poke].
  rewrite !load_int_msg by lia. simpl.
  split; [f_equal; f_equal; f_equal; [f_equal|]|].
  - rewrite !peek_poke_out by (rewrite ?length_le; lia).
    rewrite peek_poke_int, un_le_le; [apply Hr|apply get_word_range].
  - rewrite peek_poke_out by (rewrite ?length_le; lia).
    rewrite peek_poke_int, un_le_le; [apply Hr|apply get_word_range].
  - rewrite peek_poke_int, un_le_le by (unfold GetView; lia). done.
  - split; [simpl; lia|done].
Qed.

Lemma cli_GetNumDurEntry_spec_witness :
  ∃ c', cli_GetNumDurEntry (dl_handle test_resp) test_cli two_entries = Ok (c', two_entries, (2, 0, 0)) ∧
    cli_ready c' 8192.
Proof.
  apply (cli_GetNumDurEntry_spec test_resp test_cli 8192 two_entries two_hist 0);
    [by vm_compute..|exact two_entries_repr].
Defined.
