(* ===== verification/FlatCli.v ===== *)
(** The consensus log's access to the durability log by RDMA:
    [src/dur_log/dur_log_flat_cli.cc].

    The primary is read and garbage collected through its memory region, without its
    processor.  The RDMA library is not part of the repository; the class [Rdma] states
    what its one-sided operations do to memory. *)

From Stdlib Require Import Sorted.
From S2P Require Import Prelude Props Sequencer LogEntry DurLogFlat FlatRing.
From S2P Require Import FlatGC FlatRead DlTransport.

Local Open Scope Z_scope.

(** ** RDMA *)

(** [qp_read mr lo remote ro n] reads [n] bytes of the remote region at [ro] into the
    local one at [lo]; [qp_write] goes the other way and returns the remote region. *)
Class Rdma : Type := {
  qp_read : buffer → Z → buffer → Z → Z → option buffer;
  qp_write : buffer → Z → buffer → Z → Z → option buffer;
  qp_read_ok : ∀ mr lo remote ro n,
    0 ≤ lo → lo + n ≤ bcap mr → 0 ≤ ro → ro + n ≤ bcap remote → 0 ≤ n < 2 ^ 32 →
    ∃ mr', qp_read mr lo remote ro n = Some mr' ∧ frame mr mr' lo (lo + n) ∧
      peek (rd (bmem mr')) lo (Z.to_nat n) = peek (rd (bmem remote)) ro (Z.to_nat n);
  qp_write_ok : ∀ mr lo remote ro n,
    0 ≤ lo → lo + n ≤ bcap mr → 0 ≤ ro → ro + n ≤ bcap remote → 0 ≤ n < 2 ^ 32 →
    ∃ remote', qp_write mr lo remote ro n = Some remote' ∧ frame remote remote' ro (ro + n) ∧
      peek (rd (bmem remote')) ro (Z.to_nat n) = peek (rd (bmem mr)) lo (Z.to_nat n)
}.

Definition copy (src : buffer) (so : Z) (dst : buffer) (d n : Z) : option buffer :=
  bs ← load src so (Z.to_nat n); store dst d bs.

Lemma copy_ok src so dst d n :
  0 ≤ d → d + n ≤ bcap dst → 0 ≤ so → so + n ≤ bcap src → 0 ≤ n →
  ∃ dst', copy src so dst d n = Some dst' ∧ frame dst dst' d (d + n) ∧
    peek (rd (bmem dst')) d (Z.to_nat n) = peek (rd (bmem src)) so (Z.to_nat n).
Proof.
  intros. unfold copy. rewrite load_ok by lia. simpl.
  rewrite store_ok by (rewrite ?length_peek; lia). eexists. split; [done|]. split.
  - apply frame_bpoke. rewrite length_peek. lia.
  - simpl. pose proof (peek_poke_same (bmem dst) d (peek (rd (bmem src)) so (Z.to_nat n))) as Hp.
    by rewrite length_peek in Hp.
Qed.

(** Memory copies are an implementation. *)
#[export] Instance Rdma_copy : Rdma.
Proof.
  refine {| qp_read := λ mr lo remote ro n, copy remote ro mr lo n;
            qp_write := λ mr lo remote ro n, copy mr lo remote ro n |}.
  - intros. apply copy_ok; lia.
  - intros. apply copy_ok; lia.
Defined.

(** ** Sorted maps *)

(** [std::map<uint64_t, uint64_t>], in the order of its iteration. *)
Fixpoint stdmap_get (m : list (Z * Z)) (key : Z) : option Z :=
  match m with
  | [] => None
  | (k, v) :: m => if k =? key then Some v else stdmap_get m key
  end.
Fixpoint stdmap_set (m : list (Z * Z)) (key val : Z) : list (Z * Z) :=
  match m with
  | [] => [(key, val)]
  | (k, v) :: m' =>
      if key <? k then (key, val) :: m
      else if key =? k then (key, val) :: m'
      else (k, v) :: stdmap_set m' key val
  end.
Definition stdmap_erase (m : list (Z * Z)) (key : Z) : list (Z * Z) :=
  List.filter (λ kv, negb (kv.1 =? key)) m.

(** ** The client *)

Record FlatCli : Type := mkFlatCli {
  erpc_cli : ErpcCli;
  mr_ : buffer;
  mr_offset_for_gc_ : Z;
  total_fetch_b_ : Z;
  total_fetch_n_ : Z
}.

Definition with_mr (c : FlatCli) (mr : buffer) : FlatCli :=
  mkFlatCli (erpc_cli c) mr (mr_offset_for_gc_ c) (total_fetch_b_ c) (total_fetch_n_ c).
Definition with_erpc (c : FlatCli) (e : ErpcCli) : FlatCli :=
  mkFlatCli e (mr_ c) (mr_offset_for_gc_ c) (total_fetch_b_ c) (total_fetch_n_ c).
Definition count_fetch (c : FlatCli) (n : Z) : FlatCli :=
  mkFlatCli (erpc_cli c) (mr_ c) (mr_offset_for_gc_ c) (u64 (total_fetch_b_ c + n))
    (u64 (total_fetch_n_ c + 1)).

(** The part of [InitializeConn] after the eRPC connection; [raw] is what the
    allocated local region contains. *)
Definition InitializeConn_mr (p : Properties) (e : ErpcCli) (raw : gmap Z byte) : option FlatCli :=
  m ← stoi (GetProperty p "dur_log.mr_size_m" "512");
  if negb ((- 2 ^ 31 <=? m * 1024 * 1024) && (m * 1024 * 1024 <? 2 ^ 31)) then None else
  let size := u64 (m * 1024 * 1024) in
  Some (mkFlatCli e (Buf size raw) (u64 (size - PAGE_SIZE)) 0 0).

(** The remote region is larger than the ring. *)
Definition ring_size (remote : buffer) : Z := u64 (bcap remote - SAFE_RG_SIZE - PAGE_SIZE).

Section DurabilityLogFlatCli.
Context `{Rdma}.

Definition getUnorderedRange (c : FlatCli) (remote : buffer) : option (FlatCli * (Z * Z)) :=
  let rg_size := ring_size remote in
  mr ← qp_read (mr_ c) 0 remote (rg_size + SAFE_RG_SIZE) (2 * 8);
  ordered_watermk ← load_int 8 mr 8;
  end_sequence ← load_int 8 mr 0;
  Some (with_mr c mr, (ordered_watermk, end_sequence)).

(** The entries' bytes are read at once, or in two pieces if they wrap around. *)
Definition read_range (c : FlatCli) (remote : buffer) (rg_size begin_ofst end_ofst read_size : Z)
    : option FlatCli :=
  if begin_ofst <? end_ofst
  then mr ← qp_read (mr_ c) 0 remote begin_ofst read_size; Some (with_mr c mr)
  else
    mr ← qp_read (mr_ c) 0 remote begin_ofst (u32 (rg_size - begin_ofst));
    mr ← qp_read mr (rg_size - begin_ofst) remote 0 (u32 end_ofst);
    Some (with_mr c mr).

(** [r1] is the remote region when the range is read, [r2] when the entries are.  The
    result is the client, [es] and the [uint32_t] returned. *)
Definition FetchUnorderedEntries_from (c : FlatCli) (r1 r2 : buffer) (es : list LogEntry)
    (from max_fetch_size : Z) : option (FlatCli * list LogEntry * Z) :=
  let rg_size := ring_size r1 in
  '(c, (begin_sequence, end_sequence)) ← getUnorderedRange c r1;
  if end_sequence <=? from then Some (c, es, 0) else
  let begin_sequence := Z.max begin_sequence from in
  let end_sequence := if 0 <? max_fetch_size
                      then Z.min end_sequence (u64 (begin_sequence + max_fetch_size))
                      else end_sequence in
  if rg_size =? 0 then None else
  let begin_ofst := begin_sequence mod rg_size in
  let end_ofst := end_sequence mod rg_size in
  let read_size := u64 (end_sequence - begin_sequence) in
  if begin_ofst =? end_ofst then Some (c, es, 0) else
  c ← read_range c r2 rg_size begin_ofst end_ofst read_size;
  '(es, fetch_size) ← MultiDeserializerMaxSize es (mr_ c) 0 read_size;
  if fetch_size =? 0 then Some (c, es, 0) else
  let es := es ++ [set_client_seq LogEntry_default (u64 (begin_sequence + fetch_size))] in
  Some (count_fetch c fetch_size, es, u32 fetch_size).

Definition FlatCli_FetchUnorderedEntries (c : FlatCli) (r1 r2 : buffer) (es : list LogEntry)
    (max_fetch_size : Z) : option (FlatCli * list LogEntry * Z) :=
  FetchUnorderedEntries_from c r1 r2 es 0 max_fetch_size.

(** Collecting on the primary, in [DeleteOrderedEntries] and in
    [DeleteOrderedEntriesAsync]: the two watermarks are put into the local region, from
    where one RDMA write takes them. *)
Definition stage_watermarks (c : FlatCli) (seqs : list ReqID) : option FlatCli :=
  s0 ← seqs !! 0%nat;
  s1 ← seqs !! 1%nat;
  mr ← store_int 8 (mr_ c) (mr_offset_for_gc_ c) s0.1;
  mr ← store_int 8 mr (mr_offset_for_gc_ c + 8) s1.1;
  Some (with_mr c mr).

Definition write_watermarks (c : FlatCli) (remote : buffer) : option buffer :=
  qp_write (mr_ c) (mr_offset_for_gc_ c) remote (ring_size remote + SAFE_RG_SIZE + 8) (2 * 8).

Definition gc_primary (c : FlatCli) (remote : buffer) (seqs : list ReqID)
    : option (FlatCli * buffer * Z) :=
  c ← stage_watermarks c seqs;
  remote ← write_watermarks c remote;
  s0 ← seqs !! 0%nat;
  Some (c, remote, s0.1).

(** The greatest sequence number of each client among the entries. *)
Definition note_seq (m : list (Z * Z)) (e : LogEntry) : list (Z * Z) :=
  match stdmap_get m (client_id e) with
  | None => stdmap_set m (client_id e) (client_seq e)
  | Some v => if v <? client_seq e then stdmap_set m (client_id e) (client_seq e) else m
  end.

Fixpoint max_seq_for_client (es : list LogEntry) (m : list (Z * Z)) : list (Z * Z) :=
  match es with
  | [] => m
  | e :: es => max_seq_for_client es (note_seq m e)
  end.

(** [(es.end() - 2)->log_idx]. *)
Definition last_idx (es : list LogEntry) : option Z :=
  if (length es <? 2)%nat then None else log_idx <$> es !! (length es - 2)%nat.

Definition ProcessFetchedEntries (is_primary : bool) (es : list LogEntry) (req_ids : list ReqID)
    : option (list ReqID * Z) :=
  req_ids ←
    (if is_primary then
       e ← last es;
       i ← last_idx es;
       Some (req_ids ++ [(client_seq e, 0)] ++ [(u64 (i + 1), 0)])
     else Some (req_ids ++ stdmap_erase (max_seq_for_client es []) 0));
  i ← last_idx es;
  Some (req_ids, i).
End DurabilityLogFlatCli.

(** ** Reading the primary *)

(** The entry that passes the end sequence out. *)
Definition end_marker (seq : Z) : LogEntry := set_client_seq LogEntry_default seq.

(** How many bytes are asked for. *)
Definition window (avail max : Z) : Z := if 0 <? max then Z.min avail max else avail.

Lemma ring_size_cap b rg :
  bcap b = rg + SAFE_RG_SIZE + PAGE_SIZE → 0 ≤ rg < 2 ^ 64 → ring_size b = rg.
Proof.
  intros Hcap Hrg. unfold ring_size. rewrite Hcap.
  replace (rg + SAFE_RG_SIZE + PAGE_SIZE - SAFE_RG_SIZE - PAGE_SIZE) with rg by lia. by apply u64_small.
Qed.

Lemma ring_size_repr st hist k :
  flat_repr st hist k → rg_size_ st < 2 ^ 64 → ring_size (mem_rg_raw_ st) = rg_size_ st.
Proof. intros [] Hrg. apply ring_size_cap; [done|lia]. Qed.

Section Fetch.
Context `{Rdma}.

Lemma getUnorderedRange_words c b rg :
  bcap b = rg + SAFE_RG_SIZE + PAGE_SIZE → 0 < rg < 2 ^ 32 → 16 ≤ bcap (mr_ c) →
  ∃ mr, getUnorderedRange c b = Some (with_mr c mr, (get_word b rg 1, get_word b rg 0)) ∧ frame (mr_ c) mr 0 16.
Proof.
  intros Hb Hrg Hcap. unfold getUnorderedRange. rewrite (ring_size_cap b rg Hb) by lia.
  destruct (qp_read_ok (mr_ c) 0 b (rg + SAFE_RG_SIZE) (2 * 8))
    as (mr & -> & Hfr & Hpk); [lia|lia|sizes|sizes|lia|]. pose proof Hfr as [Hc _]. simpl.
  rewrite !load_int_ok by lia. simpl. exists mr. split; [|done].
  change (Z.to_nat (2 * 8)) with (8 + 8)%nat in Hpk. rewrite !peek_app in Hpk.
  apply app_inj_1 in Hpk as [Hp0 Hp1]; [|by rewrite !length_peek].
  change (0 + Z.of_nat 8) with 8 in Hp1. do 2 f_equal. f_equal; [by rewrite Hp1|rewrite Hp0].
  unfold get_word, word_addr. do 2 f_equal. lia.
Qed.

(** The bytes of [n] sequence numbers from [s] on, wherever they lie in the ring. *)
Lemma read_range_ok c remote rg s n :
  0 < rg < 2 ^ 32 → rg ≤ bcap remote → 0 < n < rg → n ≤ bcap (mr_ c) →
  s mod rg ≠ (s + n) mod rg ∧
  ∃ mr, read_range c remote rg (s mod rg) ((s + n) mod rg) n = Some (with_mr c mr) ∧
    frame (mr_ c) mr 0 n ∧
    ∀ a, 0 ≤ a < n → rd (bmem mr) a = ring remote rg (s + a).
Proof.
  intros Hrg Hcap Hn Hmr. pose proof (Z.mod_pos_bound s rg ltac:(lia)) as Ho.
  rewrite (ring_place rg s n) by lia. destruct (Z.ltb_spec (s mod rg + n) rg) as [Hlt|Hge].
  - split; [lia|]. unfold read_range. rewrite (proj2 (Z.ltb_lt _ _)) by lia.
    destruct (qp_read_ok (mr_ c) 0 remote (s mod rg) n) as (mr & -> & Hfr & Hpk); [lia..|].
    exists mr. split; [done|]. split; [eapply frame_weaken; [| |exact Hfr]; lia|]. intros a Ha. unfold ring.
    rewrite ring_place by lia. rewrite (proj2 (Z.ltb_lt _ _)) by lia.
    apply (peek_inv _ _ _ _ _ a Hpk). lia.
  - split; [lia|]. unfold read_range. rewrite (proj2 (Z.ltb_ge _ _)), !u32_small by lia.
    destruct (qp_read_ok (mr_ c) 0 remote (s mod rg) (rg - s mod rg))
      as (mr1 & -> & Hf1 & Hpk1); [lia..|]. pose proof Hf1 as [Hc1 _]. simpl.
    destruct (qp_read_ok mr1 (rg - s mod rg) remote 0 (s mod rg + n - rg))
      as (mr & -> & Hf2 & Hpk); [lia..|]. pose proof Hf2 as [_ Hf]. simpl.
    exists mr. split; [done|]. split.
    { eapply (frame_join _ mr1); (eapply frame_weaken; [| |eassumption]; lia). } intros a Ha. unfold ring.
    rewrite ring_place by lia. destruct (Z.ltb_spec (s mod rg + a) rg).
    + rewrite Hf by lia. apply (peek_inv _ _ _ _ _ a Hpk1). lia.
    + pose proof (peek_inv _ _ _ _ _ (s mod rg + a - rg) Hpk ltac:(lia)) as Ha'.
      rewrite Z.add_0_l in Ha'. rewrite <- Ha'. f_equal. lia.
Qed.
End Fetch.

(** ** Fetching *)

Lemma total_size_mono i j (es : list LogEntry) :
  (i ≤ j)%nat → total_size (take i es) ≤ total_size (take j es).
Proof.
  intros Hij. rewrite (total_size_take_drop i j) by done.
  pose proof (total_size_nonneg (take (j - i) (drop i es))). lia.
Qed.

Lemma total_size_max i j (es : list LogEntry) :
  Z.max (total_size (take i es)) (total_size (take j es)) = total_size (take (max i j) es).
Proof.
  destruct (Nat.max_spec i j) as [[Hij ->]|[Hij ->]].
  - pose proof (total_size_mono i j es). lia.
  - pose proof (total_size_mono j i es). lia.
Qed.

Lemma total_size_split i (es : list LogEntry) :
  total_size es = total_size (take i es) + total_size (drop i es).
Proof. by rewrite <- total_size_app, take_drop. Qed.

(** Later entries do not matter to a reader of the earlier ones. *)
Lemma laid_from st hist more k b :
  flat_repr st (hist ++ more) k → (k ≤ b ≤ length hist)%nat →
  laid (λ a, ring (mem_rg_raw_ st) (rg_size_ st) (total_size (take b hist) + a)) 0 (drop b hist).
Proof.
  intros Hr Hb. pose proof (fr_laid _ _ _ Hr) as Hl.
  rewrite take_app_le, drop_app_le in Hl by lia.
  rewrite <- (take_drop (b - k) (drop k hist)), <- app_assoc in Hl.
  apply laid_app in Hl as [_ Hl]. rewrite <- total_size_take_drop in Hl by lia.
  rewrite drop_drop in Hl. replace (k + (b - k))%nat with b in Hl by lia.
  apply laid_app in Hl as [Hl _]. eapply laid_ext; [|exact Hl]. intros i Hi. simpl. f_equal.
Qed.

(** What a fetch with a bound returns. *)
Definition fetched (hist : list LogEntry) (b : nat) (max : Z) : list LogEntry :=
  take_fit (window (total_size (drop b hist)) max) (drop b hist).

Definition with_marker (hist : list LogEntry) (b : nat) (got : list LogEntry) : list LogEntry :=
  match got with [] => [] | _ => got ++ [end_marker (total_size (take b hist) + total_size got)] end.

(** The client after a fetch differs in its local region and its statistics. *)
Definition same_cli (c c' : FlatCli) : Prop :=
  erpc_cli c' = erpc_cli c ∧ bcap (mr_ c') = bcap (mr_ c) ∧
  mr_offset_for_gc_ c' = mr_offset_for_gc_ c.

Lemma total_size_zero es : total_size es = 0 → es = [].
Proof. destruct es as [|e es]; simpl; [done|]. pose proof (entry_size_pos e). pose proof (total_size_nonneg es). lia. Qed.

Lemma fetched_nil hist b max :
  window (total_size (drop b hist)) max = 0 → fetched hist b max = [].
Proof.
  intros Hw. apply total_size_zero. unfold fetched. rewrite Hw.
  pose proof (take_fit_size 0 (drop b hist) ltac:(lia)).
  pose proof (total_size_nonneg (take_fit 0 (drop b hist))). lia.
Qed.

(** From the local copy on. *)
Lemma fetch_deserialize hist more k b n c st es :
  flat_repr st (hist ++ more) k → (k ≤ b ≤ length hist)%nat →
  0 ≤ n ≤ total_size (drop b hist) → n ≤ bcap (mr_ c) →
  (∀ a, 0 ≤ a < n →
     rd (bmem (mr_ c)) a = ring (mem_rg_raw_ st) (rg_size_ st) (total_size (take b hist) + a)) →
  MultiDeserializerMaxSize es (mr_ c) 0 n =
    Some (es ++ take_fit n (drop b hist), total_size (take_fit n (drop b hist))).
Proof.
  intros Hr Hb Hn Hcap Hmem.
  apply (MultiDeserializerMaxSize_ok
    (λ a, ring (mem_rg_raw_ st) (rg_size_ st) (total_size (take b hist) + a))); try done.
  - by apply (laid_from st hist more k).
  - pose proof (fr_valid _ _ _ Hr) as Hv. apply Forall_app in Hv as [Hv _]. by apply Forall_drop.
  - lia.
  - left. lia.
Qed.

(** A fetch from a replica with these counters: what it returns is what can be decoded
    from a copy of the bytes that the ring [b2] has at the second RDMA read. *)
Section FetchGen.
Context `{Rdma} (c : FlatCli) (b1 b2 : buffer) (rg : Z) (hist : list LogEntry) (k j : nat).
Context (es : list LogEntry) (max : Z) (got : list LogEntry).
Let b := Nat.max k j.
Let n := window (total_size (drop b hist)) max.
Context (Hcap1 : bcap b1 = rg + SAFE_RG_SIZE + PAGE_SIZE) (Hcap2 : bcap b2 = rg + SAFE_RG_SIZE + PAGE_SIZE).
Context (Hseq : get_word b1 rg 0 = total_size hist) (Hwm : get_word b1 rg 1 = total_size (take k hist)).
Context (Hk : (k ≤ length hist)%nat) (Hrg0 : 0 < rg) (Hrg : rg < 2 ^ 32).
Context (Hroom : total_size (drop k hist) < rg).
Context (Hmr : rg ≤ bcap (mr_ c)) (Hmr16 : 16 ≤ bcap (mr_ c)).
Context (Hj : (j ≤ length hist)%nat) (Hmax : 0 ≤ max < 2 ^ 32) (H64 : total_size hist + 2 ^ 32 ≤ 2 ^ 64).
Context (Hgot : total_size got ≤ n).
Context (Hdec : ∀ mr, n ≤ bcap mr →
  (∀ a, 0 ≤ a < n → rd (bmem mr) a = ring b2 rg (total_size (take b hist) + a)) →
  MultiDeserializerMaxSize es mr 0 n = Some (es ++ got, total_size got)).

Lemma Fetch_gen :
  ∃ c', FetchUnorderedEntries_from c b1 b2 es (total_size (take j hist)) max
          = Some (c', es ++ with_marker hist b got, total_size got) ∧ same_cli c c' ∧
        frame (mr_ c) (mr_ c') 0 (Z.max 16 (total_size (drop b hist))).
Proof.
  assert (total_size (drop b hist) < rg) as Hroom'.
  { pose proof (total_size_split k hist). pose proof (total_size_split b hist).
    pose proof (total_size_mono k b hist ltac:(lia)). lia. }
  destruct (getUnorderedRange_words c b1 rg Hcap1 ltac:(lia) Hmr16) as (mr1 & Hrange & Hf1). pose proof Hf1 as [Hmr1 _].
  unfold FetchUnorderedEntries_from. rewrite Hrange, Hseq, Hwm. cbn [mbind option_bind].
  rewrite (ring_size_cap b1 rg Hcap1), total_size_max by lia. fold b.
  pose proof (total_size_split b hist). pose proof (total_size_nonneg (drop b hist)).
  pose proof (total_size_nonneg (take b hist)). pose proof (total_size_mono j b hist ltac:(lia)).
  pose proof (total_size_nonneg got).
  assert (0 ≤ n ≤ total_size (drop b hist)) as Hn by (unfold n, window; case_zb; lia).
  assert (total_size got = 0 → got = []) as Hnil by apply total_size_zero.
  assert (frame (mr_ c) mr1 0 (Z.max 16 (total_size (drop b hist)))) as Hfr1 by (eapply frame_weaken; [| |exact Hf1]; lia).
  assert (n = 0 → ∃ c'', Some (with_mr c mr1, es, 0) =
    Some (c'', es ++ with_marker hist b got, total_size got) ∧ same_cli c c'' ∧
    frame (mr_ c) (mr_ c'') 0 (Z.max 16 (total_size (drop b hist)))) as Hzero.
  { intros Hn0. exists (with_mr c mr1). rewrite (Hnil ltac:(lia)). simpl. by rewrite app_nil_r. }
  destruct (Z.leb_spec (total_size hist) (total_size (take j hist))) as [Hle|Hlt].
  { apply Hzero. lia. }
  assert ((if 0 <? max then Z.min (total_size hist) (u64 (total_size (take b hist) + max))
           else total_size hist) = total_size (take b hist) + n) as Hend
    by (unfold n, window; case_zb; rewrite ?u64_small by lia; lia).
  cbv zeta. rewrite Hend. rewrite (proj2 (Z.eqb_neq rg 0)) by lia.
  destruct (Z.eq_dec n 0) as [Hn0|Hn0].
  { rewrite Hn0, Z.add_0_r, Z.eqb_refl. by apply Hzero. }
  destruct (read_range_ok (with_mr c mr1) b2 rg (total_size (take b hist)) n)
    as (Hne & mr & Hread & Hf2 & Hmem); [lia|sizes|lia|simpl; lia|].
  pose proof Hf2 as [Hmrc _].
  assert (frame (mr_ c) mr 0 (Z.max 16 (total_size (drop b hist)))) as Hfr2
    by (eapply (frame_join _ mr1); [done|]; eapply frame_weaken; [| |exact Hf2]; lia).
  rewrite (proj2 (Z.eqb_neq _ _) Hne).
  replace (u64 (total_size (take b hist) + n - total_size (take b hist))) with n
    by (rewrite u64_small by lia; lia).
  rewrite Hread. cbn [mbind option_bind]. simpl in Hmrc.
  rewrite Hdec by (simpl; (done || lia)). cbn [mbind option_bind].
  destruct (Z.eqb_spec (total_size got) 0) as [Hg0|Hg0].
  - rewrite (Hnil Hg0). simpl. eexists. split; [done|]. split; [|done]. repeat split; simpl; congruence.
  - exists (count_fetch (with_mr (with_mr c mr1) mr) (total_size got)).
    rewrite u64_small, u32_small by lia. split; [|split; [repeat split; simpl; congruence|done]].
    rewrite <- app_assoc. by destruct got.
Qed.
End FetchGen.

Lemma Fetch_ok `{Rdma} c st1 st2 hist more k j es max :
  flat_repr st1 hist k → flat_repr st2 (hist ++ more) k →
  rg_size_ st2 = rg_size_ st1 → rg_size_ st1 < 2 ^ 32 →
  rg_size_ st1 ≤ bcap (mr_ c) → 16 ≤ bcap (mr_ c) →
  (j ≤ length hist)%nat → 0 ≤ max < 2 ^ 32 → total_size hist + 2 ^ 32 ≤ 2 ^ 64 →
  let got := fetched hist (Nat.max k j) max in
  ∃ c', FetchUnorderedEntries_from c (mem_rg_raw_ st1) (mem_rg_raw_ st2) es (total_size (take j hist)) max
          = Some (c', es ++ with_marker hist (Nat.max k j) got, total_size got) ∧ same_cli c c'.
Proof.
  intros Hr1 Hr2 Hrg2 Hrg Hmr Hmr16 Hj Hmax H64 got.
  pose proof (fr_cap _ _ _ Hr2) as Hcap2. rewrite Hrg2 in Hcap2. pose proof Hr1 as [].
  assert (0 ≤ window (total_size (drop (Nat.max k j) hist)) max ≤ total_size (drop (Nat.max k j) hist)) as Hn.
  { pose proof (total_size_nonneg (drop (Nat.max k j) hist)). unfold window. case_zb; lia. }
  destruct (Fetch_gen c (mem_rg_raw_ st1) (mem_rg_raw_ st2) (rg_size_ st1) hist k j es max got)
    as (c' & Hf & Hc & _); try done; [| |by exists c'].
  - apply take_fit_size. lia.
  - intros mr Hn2 Hm. apply (fetch_deserialize hist more k _ _ (with_mr c mr) st2); try done; [lia|].
    by rewrite Hrg2.
Qed.

(** ** Garbage collection of the primary *)

Lemma last_idx_marker got e :
  last_idx (got ++ [e]) = log_idx <$> last got.
Proof.
  unfold last_idx. rewrite length_app. cbn [length].
  replace (length got + 1 - 2)%nat with (pred (length got)) by lia.
  destruct (Nat.ltb_spec (length got + 1) 2) as [Hl|Hl].
  - by destruct got; simpl in Hl; [|lia].
  - rewrite lookup_app_l by lia. by rewrite last_lookup.
Qed.

Lemma last_fetched_idx st hist k b got e :
  flat_repr st hist k → got `prefix_of` drop b hist → last got = Some e →
  log_idx e + 1 = Z.of_nat (b + length got).
Proof.
  intros Hr [rest Hp] Hl. rewrite last_lookup in Hl. pose proof (lookup_lt_Some _ _ _ Hl).
  assert (drop b hist !! pred (length got) = Some e) as He by (rewrite Hp; by apply lookup_app_l_Some).
  rewrite lookup_drop in He. destruct (fr_entry _ _ _ Hr _ _ He) as [-> _]. lia.
Qed.

(** The watermarks to be written, from what a fetch returned. *)
Lemma Process_primary st hist k b got :
  flat_repr st hist k → got `prefix_of` drop b hist → got ≠ [] →
  ProcessFetchedEntries true (with_marker hist b got) [] =
    Some ([(total_size (take b hist) + total_size got, 0); (Z.of_nat (b + length got), 0)],
          Z.of_nat (b + length got) - 1).
Proof.
  intros Hr Hp Hne. pose proof (repr_seq_range _ _ _ Hr) as [_ Hlen].
  assert (b + length got ≤ length hist)%nat as Hlen'.
  { destruct Hp as [rest Hp]. apply (f_equal length) in Hp. rewrite length_drop, length_app in Hp.
    destruct got; [done|]. simpl in *. lia. }
  destruct (last got) as [e|] eqn:Hl; [|by apply last_None in Hl].
  pose proof (last_fetched_idx _ _ _ _ _ _ Hr Hp Hl) as Hi.
  assert (with_marker hist b got = got ++ [end_marker (total_size (take b hist) + total_size got)])
    as -> by (by destruct got).
  unfold ProcessFetchedEntries. rewrite last_snoc, last_idx_marker, Hl. simpl.
  rewrite u64_small by lia. rewrite Hi. do 2 f_equal. lia.
Qed.

(** The watermarks waiting in the local region. *)
Definition staged (c : FlatCli) (w i : Z) : Prop :=
  un_le (peek (rd (bmem (mr_ c))) (mr_offset_for_gc_ c) 8) = w ∧
  un_le (peek (rd (bmem (mr_ c))) (mr_offset_for_gc_ c + 8) 8) = i.

Lemma stage_watermarks_ok c w i :
  0 ≤ mr_offset_for_gc_ c → mr_offset_for_gc_ c + 16 ≤ bcap (mr_ c) →
  0 ≤ w < 2 ^ 64 → 0 ≤ i < 2 ^ 64 →
  ∃ c', stage_watermarks c [(w, 0); (i, 0)] = Some c' ∧ same_cli c c' ∧ staged c' w i.
Proof.
  intros Ho Hcap Hw Hi. unfold stage_watermarks, store_int. simpl.
  rewrite store_ok by (rewrite ?length_le; lia). simpl.
  rewrite store_ok by (rewrite ?length_le; simpl; lia). simpl.
  eexists. split; [done|]. split; [done|]. unfold staged. cbn [with_mr mr_ mr_offset_for_gc_ bpoke bmem].
  split.
  - rewrite peek_poke_out by (rewrite length_le; lia). by rewrite peek_poke_int, un_le_le.
  - by rewrite peek_poke_int, un_le_le.
Qed.

Lemma write_watermarks_ok `{Rdma} c st hist k k' :
  flat_repr st hist k → (k ≤ k' ≤ length hist)%nat → rg_size_ st < 2 ^ 32 →
  0 ≤ mr_offset_for_gc_ c → mr_offset_for_gc_ c + 16 ≤ bcap (mr_ c) →
  staged c (total_size (take k' hist)) (Z.of_nat k') →
  ∃ remote, write_watermarks c (mem_rg_raw_ st) = Some remote ∧ flat_repr (with_mem st remote) hist k'.
Proof.
  intros Hr Hk Hrg Ho Hcap [Hw Hi]. pose proof (fr_cap _ _ _ Hr). pose proof (fr_rg _ _ _ Hr).
  unfold write_watermarks. rewrite (ring_size_repr _ _ _ Hr) by lia.
  destruct (qp_write_ok (mr_ c) (mr_offset_for_gc_ c) (mem_rg_raw_ st) (rg_size_ st + SAFE_RG_SIZE + 8) (2 * 8))
    as (remote & -> & Hf & Hpk); [lia|lia|sizes|sizes|lia|].
  exists remote. split; [done|].
  change (Z.to_nat (2 * 8)) with (8 + 8)%nat in Hpk. rewrite !peek_app in Hpk.
  apply app_inj_1 in Hpk as [Hp0 Hp1]; [|by rewrite !length_peek]. change (Z.of_nat 8) with 8 in Hp1.
  pose proof Hf as [Hfc Hfm].
  apply (flat_repr_moved st _ hist k k'); try done; unfold sequencer_, ordered_watermk_,
    ordered_idx_watermk_, indexer_; cbn [with_mem mem_rg_raw_ rg_size_]; try done.
  - intros a Ha. apply Hfm. lia.
  - unfold get_word. erewrite frame_peek; [done|exact Hf|]. unfold word_addr. lia.
  - unfold get_word. erewrite frame_peek; [done|exact Hf|]. unfold word_addr. lia.
  - unfold get_word, word_addr. by rewrite Z.mul_1_r, Hp0.
  - unfold get_word, word_addr. replace (rg_size_ st + SAFE_RG_SIZE + 8 * 2)
      with (rg_size_ st + SAFE_RG_SIZE + 8 + 8) by lia. by rewrite Hp1.
Qed.

Lemma gc_primary_ok `{Rdma} c st hist k k' :
  flat_repr st hist k → (k ≤ k' ≤ length hist)%nat → rg_size_ st < 2 ^ 32 →
  0 ≤ mr_offset_for_gc_ c → mr_offset_for_gc_ c + 16 ≤ bcap (mr_ c) →
  ∃ c' remote, gc_primary c (mem_rg_raw_ st) [(total_size (take k' hist), 0); (Z.of_nat k', 0)]
      = Some (c', remote, total_size (take k' hist)) ∧
    same_cli c c' ∧ flat_repr (with_mem st remote) hist k'.
Proof.
  intros Hr Hk Hrg Ho Hcap. pose proof (repr_seq_range _ _ _ Hr) as [Hs Hl].
  pose proof (total_size_split k' hist). pose proof (total_size_nonneg (take k' hist)).
  pose proof (total_size_nonneg (drop k' hist)).
  destruct (stage_watermarks_ok c (total_size (take k' hist)) (Z.of_nat k')) as (c' & Hst & Hc & Hsg); [lia..|].
  pose proof Hc as (_ & Hcap' & Hoff').
  destruct (write_watermarks_ok c' st hist k k') as (remote & Hwr & Hr'); [done|done|done|lia|lia|done|].
  exists c', remote. split; [|done]. unfold gc_primary. rewrite Hst. simpl. by rewrite Hwr.
Qed.

(** A primary, its consensus-log client, and the entries of [FlatGC], as a witness. *)
Definition test_flat_cli : FlatCli := mkFlatCli test_cli (Buf (2 ^ 20) ∅) (2 ^ 20 - PAGE_SIZE) 0 0.

Lemma fetched_prefix hist b max : fetched hist b max `prefix_of` drop b hist.
Proof. apply take_fit_prefix. Qed.

Lemma fetched_take hist b max :
  (b ≤ length hist)%nat →
  (b + length (fetched hist b max) ≤ length hist)%nat ∧
  total_size (take (b + length (fetched hist b max)) hist)
    = total_size (take b hist) + total_size (fetched hist b max).
Proof.
  intros Hb. destruct (fetched_prefix hist b max) as [rest Hp].
  pose proof (f_equal length Hp) as Hlen. rewrite length_drop, length_app in Hlen. split; [lia|].
  rewrite (total_size_take_drop b) by lia. f_equal. rewrite Hp.
  replace (b + length (fetched hist b max) - b)%nat with (length (fetched hist b max)) by lia.
  by rewrite take_app_length.
Qed.

(** C16. Fetching from the primary and collecting what was fetched.  Given a start at an
    entry or before the watermark, [FetchUnorderedEntries] returns the log from there
    on, in order, as far as whole entries fit in [max_fetch_size] bytes, although
    entries wrap around the ring and more of them are appended between the two RDMA
    reads; a last element carries the end sequence.  The ids that
    [ProcessFetchedEntries] makes of it, written by [DeleteOrderedEntries], mark
    exactly the fetched entries and all before them as ordered, and nothing else of the
    log changes, whatever was appended in between. *)
Theorem fetch_and_collect `{Rdma} c st1 st2 st3 hist more later k j max :
  let b := Nat.max k j in
  let got := fetched hist b max in
  flat_repr st1 hist k → flat_repr st2 (hist ++ more) k → flat_repr st3 (hist ++ later) k →
  rg_size_ st2 = rg_size_ st1 → rg_size_ st3 = rg_size_ st1 → rg_size_ st1 < 2 ^ 32 →
  rg_size_ st1 ≤ bcap (mr_ c) → 0 ≤ mr_offset_for_gc_ c → mr_offset_for_gc_ c + 16 ≤ bcap (mr_ c) →
  (j ≤ length hist)%nat → 0 ≤ max < 2 ^ 32 → total_size hist + 2 ^ 32 ≤ 2 ^ 64 → got ≠ [] →
  ∃ c1 ids c2 remote,
    FetchUnorderedEntries_from c (mem_rg_raw_ st1) (mem_rg_raw_ st2) [] (total_size (take j hist)) max
      = Some (c1, got ++ [end_marker (total_size (take b hist) + total_size got)], total_size got) ∧
    ProcessFetchedEntries true (with_marker hist b got) [] = Some (ids, Z.of_nat (b + length got) - 1) ∧
    gc_primary c1 (mem_rg_raw_ st3) ids
      = Some (c2, remote, total_size (take b hist) + total_size got) ∧
    flat_repr (with_mem st3 remote) (hist ++ later) (b + length got).
Proof.
  intros b got Hr1 Hr2 Hr3 Hrg2 Hrg3 Hrg Hmr Ho Hocap Hj Hmax H64 Hne.
  pose proof (fr_k _ _ _ Hr1) as Hk. destruct (fetched_take hist b max) as [Hlen Htot]; [lia|].
  fold got in Hlen, Htot.
  destruct (Fetch_ok c st1 st2 hist more k j [] max) as (c1 & Hfetch & Hsame); try done; try lia.
  destruct Hsame as (_ & Hcap1 & Hoff1).
  pose proof (Process_primary st1 hist k b got Hr1 (fetched_prefix _ _ _) Hne) as Hproc.
  destruct (gc_primary_ok c1 st3 (hist ++ later) k (b + length got)) as (c2 & remote & Hgc & _ & Hr');
    try done; try lia.
  { rewrite length_app. lia. }
  rewrite take_app_le, Htot in Hgc by lia.
  eexists c1, _, c2, remote. split; [|split; [exact Hproc|split; [exact Hgc|exact Hr']]].
  fold b got in Hfetch. rewrite Hfetch. simpl. by destruct got.
Qed.

Lemma fetch_and_collect_witness :
  ∃ c1 ids c2 remote,
    FetchUnorderedEntries_from test_flat_cli (mem_rg_raw_ two_entries) (mem_rg_raw_ two_entries) [] 0 40
      = Some (c1, [stored (entry_of 42 7) 0 0; end_marker 36], 36) ∧
    ProcessFetchedEntries true [stored (entry_of 42 7) 0 0; end_marker 36] [] = Some (ids, 0) ∧
    gc_primary c1 (mem_rg_raw_ two_entries) ids = Some (c2, remote, 36) ∧
    flat_repr (with_mem two_entries remote) two_hist 1.
Proof.
  refine (fetch_and_collect test_flat_cli two_entries two_entries two_entries two_hist [] [] 0 0 40
            two_entries_repr two_entries_repr two_entries_repr _ _ _ _ _ _ _ _ _ _);
    try (by vm_compute). apply Nat.le_0_l.
Defined.

(** ** Ordered sequence numbers for the backups *)

Lemma stdmap_get_set m k v k' :
  stdmap_get (stdmap_set m k v) k' = if k =? k' then Some v else stdmap_get m k'.
Proof.
  induction m as [|[k0 v0] m IH]; simpl; [done|].
  repeat case_zb; simpl; repeat case_zb; try lia; try done; subst; rewrite ?IH; try done.
  all: try case_zb; try done; try lia.
Qed.

Definition stdmap_wf (m : list (Z * Z)) : Prop := StronglySorted Z.lt (fst <$> m).

Lemma stdmap_set_keys m k v k' : k' ∈ fst <$> stdmap_set m k v → k' = k ∨ k' ∈ fst <$> m.
Proof.
  induction m as [|[k0 v0] m IH]; simpl; [set_solver|].
  repeat case_zb; simpl; set_solver.
Qed.

Lemma stdmap_set_wf m k v : stdmap_wf m → stdmap_wf (stdmap_set m k v).
Proof.
  unfold stdmap_wf. induction m as [|[k0 v0] m IH]; simpl; [by repeat constructor|].
  intros [Hs Ha]%StronglySorted_inv. repeat case_zb; simpl.
  - constructor; [by constructor|]. constructor; [done|].
    eapply List.Forall_impl; [|exact Ha]. intros; simpl in *; lia.
  - by constructor; subst.
  - constructor; [by apply IH|]. apply Forall_forall. intros k' Hk'.
    apply stdmap_set_keys in Hk' as [->|Hk']; [lia|]. by eapply Forall_forall in Ha.
Qed.

Lemma stdmap_erase_wf m k : stdmap_wf m → stdmap_wf (stdmap_erase m k).
Proof.
  unfold stdmap_wf, stdmap_erase. induction m as [|[k0 v0] m IH]; simpl; [done|].
  intros [Hs Ha]%StronglySorted_inv. destruct (negb (k0 =? k)); simpl; [|by apply IH].
  constructor; [by apply IH|]. apply Forall_forall. intros k' Hk'.
  eapply Forall_forall in Ha; [exact Ha|].
  apply list_elem_of_fmap in Hk' as (kv & -> & Hkv). apply list_elem_of_fmap_2.
  rewrite list_elem_of_In in *. by apply List.filter_In in Hkv as [? _].
Qed.

Lemma stdmap_get_erase m k k' :
  stdmap_get (stdmap_erase m k) k' = if k' =? k then None else stdmap_get m k'.
Proof.
  induction m as [|[k0 v0] m IH]; simpl; [by case_zb|].
  destruct (Z.eqb_spec k0 k) as [->|Hk]; simpl; rewrite IH; repeat case_zb; try done; lia.
Qed.

(** What a backup reads from a sorted list of pairs is the map. *)
Lemma client_max_stdmap ids m key :
  stdmap_wf ids →
  client_max ids m !! key = match stdmap_get ids key with Some v => Some v | None => m !! key end.
Proof.
  unfold client_max, stdmap_wf. revert m. induction ids as [|[k v] ids IH]; intros m; simpl; [done|].
  intros [Hs Ha]%StronglySorted_inv. rewrite IH by done. case_zb.
  - subst. destruct (stdmap_get ids key) eqn:E.
    + exfalso. assert (key ∈ fst <$> ids) as Hin.
      { clear -E. induction ids as [|[k0 v0] ids IH]; simpl in *; [done|].
        destruct (Z.eqb_spec k0 key); set_solver. }
      eapply Forall_forall in Ha; [|exact Hin]. lia.
    + by rewrite lookup_insert_eq.
  - destruct (stdmap_get ids key); [done|]. by rewrite lookup_insert_ne.
Qed.

Lemma max_seq_for_client_wf es m : stdmap_wf m → stdmap_wf (max_seq_for_client es m).
Proof.
  revert m. induction es as [|e es IH]; intros m Hm; simpl; [done|]. apply IH.
  unfold note_seq. destruct (stdmap_get m (client_id e)); [case_zb|]; auto using stdmap_set_wf.
Qed.

Lemma max_seq_for_client_ge es m :
  (∀ k v, stdmap_get m k = Some v → ∃ v', stdmap_get (max_seq_for_client es m) k = Some v' ∧ v ≤ v') ∧
  (∀ e, e ∈ es → ∃ v, stdmap_get (max_seq_for_client es m) (client_id e) = Some v ∧ client_seq e ≤ v).
Proof.
  revert m. induction es as [|e es IH]; intros m; simpl; [split; [eauto with lia|set_solver]|].
  set (m1 := note_seq m e).
  assert (∃ v, stdmap_get m1 (client_id e) = Some v ∧ client_seq e ≤ v) as He.
  { unfold m1, note_seq. destruct (stdmap_get m (client_id e)) eqn:E; [case_zb|];
      rewrite ?stdmap_get_set, ?Z.eqb_refl, ?E; eauto with lia. }
  assert (∀ k v, stdmap_get m k = Some v → ∃ v', stdmap_get m1 k = Some v' ∧ v ≤ v') as Hm1.
  { intros k v Hk. unfold m1, note_seq. destruct (stdmap_get m (client_id e)) eqn:E; [case_zb|];
      rewrite ?stdmap_get_set; try case_zb; subst; simplify_eq; eauto with lia. }
  destruct (IH m1) as [IH1 IH2]. split.
  - intros k v Hk. destruct (Hm1 k v Hk) as (v1 & H1 & Hle). destruct (IH1 k v1 H1) as (v2 & H2 & Hle').
    eauto with lia.
  - intros e' [->|He']%elem_of_cons; [|by apply IH2].
    destruct He as (v1 & H1 & Hle). destruct (IH1 _ v1 H1) as (v2 & H2 & Hle'). eauto with lia.
Qed.

Lemma max_seq_for_client_from es m k v :
  stdmap_get (max_seq_for_client es m) k = Some v →
  stdmap_get m k = Some v ∨ ∃ e, e ∈ es ∧ client_id e = k ∧ client_seq e = v.
Proof.
  revert m. induction es as [|e es IH]; intros m; simpl; [by left|].
  intros [Hm|(e' & He' & Hk & Hv)]%IH; [|right; exists e'; set_solver].
  unfold note_seq in Hm. destruct (stdmap_get m (client_id e)) eqn:E; [revert Hm; case_zb; [|by left]|revert Hm];
    rewrite stdmap_get_set; case_zb; intros Hm; try (by left); simplify_eq; right; exists e; set_solver.
Qed.

Lemma stdmap_get_elem m k v : stdmap_wf m → (k, v) ∈ m → stdmap_get m k = Some v.
Proof.
  unfold stdmap_wf. induction m as [|[k0 v0] m IH]; simpl; [set_solver|].
  intros [Hs Ha]%StronglySorted_inv [Heq|Hin]%elem_of_cons; [simplify_eq; by rewrite Z.eqb_refl|].
  assert (k ∈ fst <$> m) as Hk by (apply list_elem_of_fmap; by exists (k, v)).
  eapply Forall_forall in Ha; [|exact Hk]. rewrite (proj2 (Z.eqb_neq _ _)) by lia. by apply IH.
Qed.

Lemma stdmap_wf_NoDup m : stdmap_wf m → NoDup (fst <$> m).
Proof.
  unfold stdmap_wf. induction (fst <$> m) as [|k ks IH]; [constructor|].
  intros [Hs Ha]%StronglySorted_inv. constructor; [|by apply IH].
  intros Hk. eapply Forall_forall in Ha; [|exact Hk]. lia.
Qed.

(** The ids for a backup. *)
Definition backup_ids (got : list LogEntry) (s : Z) : list ReqID :=
  stdmap_erase (max_seq_for_client (got ++ [end_marker s]) []) 0.

Lemma Process_backup got s i :
  log_idx <$> last got = Some i →
  ProcessFetchedEntries false (got ++ [end_marker s]) [] = Some (backup_ids got s, i).
Proof. intros Hl. unfold ProcessFetchedEntries. by rewrite last_idx_marker, Hl. Qed.

Lemma backup_ids_from got s k v :
  (k, v) ∈ backup_ids got s → ∃ e, e ∈ got ∧ client_id e = k ∧ client_seq e = v.
Proof.
  intros Hin. apply stdmap_get_elem in Hin; cycle 1.
  { apply stdmap_erase_wf, max_seq_for_client_wf. constructor. }
  unfold backup_ids in Hin. rewrite stdmap_get_erase in Hin.
  destruct (Z.eqb_spec k 0) as [->|Hk0]; [done|].
  apply max_seq_for_client_from in Hin as [Hin|(e & He & Hk & Hv)]; [done|].
  exists e. split; [|done]. apply elem_of_app in He as [He|He]; [done|].
  apply list_elem_of_singleton in He as ->. simpl in Hk. congruence.
Qed.

Lemma backup_ids_wf got s : Forall wf_entry got → Forall wf_id (backup_ids got s).
Proof.
  intros Hwf. apply Forall_forall. intros [k v] (e & He & <- & <-)%backup_ids_from.
  eapply Forall_forall in Hwf; [|exact He]. destruct Hwf as (Hc & Hs & _). by split.
Qed.

Lemma backup_ids_length got s clients :
  Forall (λ e, client_id e ∈ clients) got → (length (backup_ids got s) ≤ length clients)%nat.
Proof.
  intros Hc. etrans; [apply Nat.eq_le_incl; symmetry; apply (length_fmap fst)|].
  apply submseteq_length, NoDup_submseteq.
  - apply stdmap_wf_NoDup, stdmap_erase_wf, max_seq_for_client_wf. constructor.
  - intros k ([k' v] & -> & Hin)%list_elem_of_fmap. apply backup_ids_from in Hin as (e & He & <- & _).
    eapply Forall_forall in Hc; [|exact He]. done.
Qed.

(** C21. What the backups are told to collect.  From fetched entries and their end
    marker, [ProcessFetchedEntries] makes a list of ids by which a backup takes an entry
    of a client (ids are not zero) for ordered exactly when the fetch returned an entry
    of that client with at least that sequence number, or when the sequence number is
    zero: sequence number zero counts as ordered whether or not it was fetched. *)
Theorem ProcessFetchedEntries_backup got s :
  Forall wf_entry got → got ≠ [] →
  ∃ ids i, ProcessFetchedEntries false (got ++ [end_marker s]) [] = Some (ids, i) ∧
    log_idx <$> last got = Some i ∧
    ∀ e, client_id e ≠ 0 →
      is_ordered (client_max ids ∅) e = true ↔
      client_seq e ≤ 0 ∨ ∃ e', e' ∈ got ∧ client_id e' = client_id e ∧ client_seq e ≤ client_seq e'.
Proof.
  intros Hwf Hne. destruct (last got) as [l|] eqn:Hl; [|by apply last_None in Hl].
  set (es := got ++ [end_marker s]). set (ids := stdmap_erase (max_seq_for_client es []) 0).
  exists ids, (log_idx l). split; [|split; [done|]].
  { unfold ProcessFetchedEntries. simpl. unfold es. rewrite last_idx_marker, Hl. done. }
  intros e Hid.
  assert (client_max ids ∅ !! client_id e = stdmap_get (max_seq_for_client es []) (client_id e)) as Hlook.
  { rewrite client_max_stdmap by (apply stdmap_erase_wf, max_seq_for_client_wf; constructor).
    unfold ids. rewrite stdmap_get_erase, (proj2 (Z.eqb_neq _ _) Hid), lookup_empty.
    by destruct (stdmap_get _ _). }
  unfold is_ordered, ordered_by, cli_max. rewrite Hlook, Z.leb_le. split.
  - destruct (stdmap_get _ _) as [v|] eqn:E; simpl; [|by left]. intros Hle.
    apply max_seq_for_client_from in E as [E|(e' & He' & Hk & <-)]; [done|].
    right. exists e'. split; [|done]. apply elem_of_app in He' as [He'|He']; [done|].
    apply list_elem_of_singleton in He' as ->. simpl in Hk. congruence.
  - destruct (max_seq_for_client_ge es []) as [_ Hge]. intros [H0|(e' & He' & Hk & Hle)].
    + destruct (stdmap_get _ _) as [v|] eqn:E; simpl; [|done].
      apply max_seq_for_client_from in E as [E|(e' & He' & Hk & <-)]; [done|].
      apply elem_of_app in He' as [He'|He'].
      * eapply Forall_forall in Hwf; [|done]. destruct Hwf as (_ & Hs & _). lia.
      * apply list_elem_of_singleton in He' as ->. simpl in Hk. congruence.
    + destruct (Hge e') as (v & Hv & Hle'); [unfold es; set_solver|].
      rewrite Hk in Hv. rewrite Hv. simpl. lia.
Qed.

Lemma ProcessFetchedEntries_backup_witness :
  ∃ ids i, ProcessFetchedEntries false (two_hist ++ [end_marker 72]) [] = Some (ids, i) ∧
    log_idx <$> last two_hist = Some i ∧
    ∀ e, client_id e ≠ 0 →
      is_ordered (client_max ids ∅) e = true ↔
      client_seq e ≤ 0 ∨ ∃ e', e' ∈ two_hist ∧ client_id e' = client_id e ∧ client_seq e ≤ client_seq e'.
Proof.
  apply (ProcessFetchedEntries_backup two_hist 72); [|done].
  repeat constructor; by vm_compute.
Defined.
