(* ===== verification/ConcAppend.v ===== *)
(** Appends by several server threads at once: [AppendEntry] of
    [src/dur_log/dur_log_flat.cc] with its phases interleaved.

    The durability log server runs [AppendEntry] on several threads.  Only the
    reservation of a place is a critical section; waiting for room, writing, setting the
    flag and copying what ran past the ring are not.  Here a thread is a point in that
    code, and the threads take their steps in any order.  Shown: the ring is never
    overrun (the margin of 64 pages in [waitForPlace] is enough for its threads), no
    thread touches the entry of another, and what the threads leave behind when all have
    returned is the log of the same appends one after the other. *)

From S2P Require Import Prelude Props Sequencer LogEntry DurLogFlat FlatRing.

Local Open Scope Z_scope.

(** ** Threads *)

(** A point in [AppendEntry] with the local variables that are used from there on.  In
    [waitForPlace] these are the loads of the sequencer and of the watermark that the
    thread has already done, in either order, for the next test. *)
Inductive thread : Type :=
| Idle
| Waiting (e : LogEntry) (cur_seq wm : option Z)
| Cleared (e : LogEntry)
| Reserved (e : LogEntry) (seq offset : Z)
| Written (e : LogEntry) (seq offset ety_size : Z)
| Flagged (e : LogEntry) (seq offset ety_size : Z)
| Copied (e : LogEntry) (seq : Z).

Definition load_seq (st : FlatLog) (t : thread) : thread :=
  match t with
  | Waiting e None wm => Waiting e (Some (Sequencer.GetCurSeqNonAtm (sequencer_ st))) wm
  | _ => t
  end.

Definition load_watermk (st : FlatLog) (t : thread) : thread :=
  match t with
  | Waiting e cur_seq None => Waiting e cur_seq (Some (ordered_watermk_ st))
  | _ => t
  end.

(** The test of [waitForPlace] on the loaded values; when it fails the loop starts over. *)
Definition test_place (st : FlatLog) (t : thread) : thread :=
  match t with
  | Waiting e cur_seq wm =>
      if negb (wait_ st) then Cleared e else
      match cur_seq, wm with
      | Some s, Some w =>
          if u64 (s + GetSize e - w) <? u64 (rg_size_ st - Z.shiftl PAGE_SIZE 6)
          then Cleared e else Waiting e None None
      | _, _ => t
      end
  | _ => t
  end.

(** The next phase of a thread that has left [waitForPlace]. *)
Definition next_phase (st : FlatLog) (t : thread) : option (FlatLog * thread) :=
  match t with
  | Idle | Waiting _ _ _ => Some (st, t)
  | Cleared e =>
      '(st, (seq, idx, offset)) ← append_reserve st (GetSize e);
      Some (st, Reserved (set_view (set_log_idx e idx) (view_ st)) seq offset)
  | Reserved e seq offset =>
      '(st, ety_size) ← append_write st e offset;
      Some (st, Written e seq offset ety_size)
  | Written e seq offset ety_size =>
      st ← append_flag st offset;
      Some (st, Flagged e seq offset ety_size)
  | Flagged e seq offset ety_size =>
      st ← append_wrap st offset ety_size;
      Some (st, Copied e seq)
  | Copied e seq => Some (append_map st e seq, Idle)
  end.

(** ** The replica with its threads *)

(** The last four components only record what has happened: the entries in the order of
    their reservation, how many of them have been collected, the requests that have
    arrived, and those that have been answered with their sequence numbers. *)
Record cstate : Type := mkC {
  c_log : FlatLog;
  c_threads : list thread;
  c_hist : list LogEntry;
  c_k : nat;
  c_arrived : list LogEntry;
  c_returned : list (LogEntry * Z)
}.

(** The index of the entry that a thread has reserved and not finished in memory. *)
Definition slot_of (t : thread) : option nat :=
  match t with
  | Reserved e _ _ | Written e _ _ _ | Flagged e _ _ _ => Some (Z.to_nat (log_idx e))
  | _ => None
  end.

(** What a step of thread [t] to [t'] records. *)
Definition record_hist (t t' : thread) (hist : list LogEntry) : list LogEntry :=
  match t, t' with
  | Cleared _, Reserved e _ _ => hist ++ [set_flags e 1]
  | _, _ => hist
  end.
Definition record_returned (t : thread) (rs : list (LogEntry * Z)) : list (LogEntry * Z) :=
  match t with Copied e seq => rs ++ [(e, seq)] | _ => rs end.

Definition with_thread (c : cstate) (i : nat) (t : thread) : cstate :=
  mkC (c_log c) (<[i := t]> (c_threads c)) (c_hist c) (c_k c) (c_arrived c) (c_returned c).

Inductive cstep : cstate → cstate → Prop :=
| cs_arrive c i e :
    c_threads c !! i = Some Idle →
    cstep c (mkC (c_log c) (<[i := Waiting e None None]> (c_threads c)) (c_hist c) (c_k c)
               (c_arrived c ++ [e]) (c_returned c))
| cs_load_seq c i t : c_threads c !! i = Some t → cstep c (with_thread c i (load_seq (c_log c) t))
| cs_load_watermk c i t : c_threads c !! i = Some t → cstep c (with_thread c i (load_watermk (c_log c) t))
| cs_test c i t : c_threads c !! i = Some t → cstep c (with_thread c i (test_place (c_log c) t))
| cs_phase c i t st' t' :
    c_threads c !! i = Some t → next_phase (c_log c) t = Some (st', t') →
    cstep c (mkC st' (<[i := t']> (c_threads c)) (record_hist t t' (c_hist c)) (c_k c) (c_arrived c)
               (record_returned t (c_returned c)))
| cs_collect c k :
    (* The consensus log moves the watermarks over entries that are finished.  The code could
       also pass an entry whose flag is set while the part past the end of the ring is not
       yet copied: the fetch accepts it ([ConcFetch.wrapped_entry_torn]).  Such collections
       are not steps here. *)
    (c_k c ≤ k ≤ length (c_hist c))%nat →
    (∀ t j, t ∈ c_threads c → slot_of t = Some j → (k ≤ j)%nat) →
    cstep c (mkC (move_watermarks (c_log c) (total_size (take k (c_hist c))) (Z.of_nat k)) (c_threads c)
               (c_hist c) k (c_arrived c) (c_returned c)).

(** ** Places in the ring are apart *)

(** The bytes that belong to the place at [s] of an entry of [z] bytes: from its offset
    on, and their image at the beginning of the ring. *)
Definition in_slot (rg s z a : Z) : Prop :=
  s mod rg ≤ a < s mod rg + z ∨ 0 ≤ a < s mod rg + z - rg.

(** Only bytes of a place have changed. *)
Definition slot_frame (rg s z : Z) (b b' : buffer) : Prop :=
  bcap b' = bcap b ∧ ∀ a, ¬ in_slot rg s z a → rd (bmem b') a = rd (bmem b) a.

(** Two places within one turn of the ring. *)
Definition apart (rg s z s' z' : Z) : Prop :=
  s' + z' ≤ s ∧ s + z ≤ s' + rg ∨ s + z ≤ s' ∧ s' + z' ≤ s + rg.

(** An entry that is finished: it can be read around the ring and in a straight line. *)
Definition complete (b : buffer) (rg s : Z) (e : LogEntry) : Prop :=
  encoded_at (ring b rg) s e ∧ encoded_at (rd (bmem b)) (s mod rg) e.

Lemma ring_later rg s z x :
  0 < rg → 0 < z → s + z ≤ x < s + rg →
  (x mod rg < s mod rg ∨ s mod rg + z ≤ x mod rg) ∧ s mod rg + z - rg ≤ x mod rg.
Proof.
  intros Hrg Hz Hx.
  pose proof (Z.div_mod x rg ltac:(lia)). pose proof (Z.div_mod s rg ltac:(lia)).
  pose proof (Z.mod_pos_bound x rg Hrg). pose proof (Z.mod_pos_bound s rg Hrg).
  set (q := x / rg - s / rg).
  assert (x - s = rg * q + (x mod rg - s mod rg)) by (subst q; lia).
  assert (q ≤ -1 ∨ q = 0 ∨ q = 1 ∨ 2 ≤ q) as [Hq|[Hq|[Hq|Hq]]] by lia; nia.
Qed.

(** A byte of another place, by its sequence number and by its distance from the offset. *)
Lemma apart_out rg s z s' z' i :
  0 < rg → apart rg s z s' z' → 0 < z → 0 ≤ i < z' → z' ≤ rg →
  ¬ in_slot rg s z ((s' + i) mod rg) ∧ ¬ in_slot rg s z (s' mod rg + i).
Proof.
  intros Hrg Hap Hz Hi Hz'.
  assert (((s' + i) mod rg < s mod rg ∨ s mod rg + z ≤ (s' + i) mod rg) ∧
          s mod rg + z - rg ≤ (s' + i) mod rg) as [H1 H2].
  { destruct Hap as [Hap|Hap]; [apply (ring_disjoint rg (s' + i)); lia|apply ring_later; lia]. }
  pose proof (Z.mod_pos_bound s rg Hrg). pose proof (Z.mod_pos_bound s' rg Hrg).
  split; [unfold in_slot; lia|].
  revert H1 H2. rewrite ring_place by lia. unfold in_slot. case_zb; lia.
Qed.

Lemma apart_sym rg s z s' z' : apart rg s z s' z' → apart rg s' z' s z.
Proof. unfold apart. lia. Qed.

Section Frame.
Context (rg s z : Z) (b b' : buffer) (Hrg : 0 < rg) (Hz : 0 < z) (Hf : slot_frame rg s z b b').

(** What lies in another place is not changed. *)
Lemma slot_frame_peek s' z' i n :
  apart rg s z s' z' → z' ≤ rg → 0 ≤ i → i + Z.of_nat n ≤ z' →
  peek (rd (bmem b')) (s' mod rg + i) n = peek (rd (bmem b)) (s' mod rg + i) n.
Proof.
  intros Hap Hz' Hi Hn. apply peek_ext. intros j Hj. rewrite <- Z.add_assoc. apply Hf.
  apply (apart_out rg s z s' z' (i + j)); (done || lia).
Qed.

Lemma slot_frame_encoded s' e :
  apart rg s z s' (entry_size e) → entry_size e ≤ rg →
  encoded_at (rd (bmem b)) (s' mod rg) e → encoded_at (rd (bmem b')) (s' mod rg) e.
Proof.
  intros Hap Hz' He. pose proof (entry_size_encode e). unfold encoded_at.
  replace (s' mod rg) with (s' mod rg + 0) by lia.
  rewrite (slot_frame_peek s' (entry_size e)) by (done || lia). by rewrite Z.add_0_r.
Qed.

Lemma slot_frame_complete s' e :
  apart rg s z s' (entry_size e) → entry_size e ≤ rg → complete b rg s' e → complete b' rg s' e.
Proof.
  intros Hap Hz' [H1 H2]. split; [|by apply slot_frame_encoded].
  unfold encoded_at. etrans; [|exact H1]. apply peek_ext. intros i Hi. unfold ring. apply Hf.
  pose proof (entry_size_encode e).
  apply (apart_out rg s z s' (entry_size e) i); (done || lia).
Qed.

Lemma slot_frame_word i :
  s mod rg + z ≤ rg + SAFE_RG_SIZE → 0 ≤ i → get_word b' rg i = get_word b rg i.
Proof.
  intros Hend Hi. unfold get_word. f_equal. apply peek_ext. intros j Hj. apply Hf.
  unfold in_slot, word_addr, SAFE_RG_SIZE, PAGE_SIZE in *. lia.
Qed.
End Frame.

(** The operations on a place. *)
Lemma slot_frame_bpoke rg s z b o bs :
  s mod rg ≤ o → o + lenZ bs ≤ s mod rg + z → slot_frame rg s z b (bpoke b o bs).
Proof. intros Ho Hl. split; [done|]. intros a Ha. simpl. apply rd_poke_out. unfold in_slot in Ha. lia. Qed.

Lemma slot_frame_image rg s z b bs :
  lenZ bs ≤ s mod rg + z - rg → slot_frame rg s z b (bpoke b 0 bs).
Proof. intros Hl. split; [done|]. intros a Ha. simpl. apply rd_poke_out. unfold in_slot in Ha. lia. Qed.
