(* ===== verification/ConcInv.v ===== *)
(** The invariant of a replica with several appending threads, and that every step of
    [ConcAppend] keeps it. *)

From S2P Require Import Prelude Props Sequencer LogEntry DurLogFlat FlatRing ConcAppend.

Local Open Scope Z_scope.

(** ** Positions *)

Definition pos (hist : list LogEntry) (i : nat) : Z := total_size (take i hist).

Lemma pos_S hist i e : hist !! i = Some e → pos hist (S i) = pos hist i + entry_size e.
Proof. intros He. unfold pos. rewrite (take_S_r _ _ _ He), total_size_app. simpl. lia. Qed.

Lemma pos_le hist i j : (i ≤ j)%nat → pos hist i ≤ pos hist j.
Proof.
  intros Hij. unfold pos. rewrite (total_size_take_drop i j) by done.
  pose proof (total_size_nonneg (take (j - i) (drop i hist))). lia.
Qed.

Lemma pos_end hist i : pos hist i ≤ total_size hist.
Proof.
  unfold pos. rewrite <- (take_drop i hist) at 2. rewrite total_size_app.
  pose proof (total_size_nonneg (drop i hist)). lia.
Qed.

Lemma pos_app hist more i : (i ≤ length hist)%nat → pos (hist ++ more) i = pos hist i.
Proof. intros Hi. unfold pos. by rewrite take_app_le. Qed.

Lemma pos_mod4 hist i : pos hist i mod 4 = 0.
Proof. apply total_size_mod4. Qed.

(** The entries since the watermark lie apart if they fit into the ring. *)
Lemma positions_apart rg hist k i j e e' :
  total_size hist - pos hist k ≤ rg → (k ≤ i)%nat → (k ≤ j)%nat → i ≠ j →
  hist !! i = Some e → hist !! j = Some e' →
  apart rg (pos hist i) (entry_size e) (pos hist j) (entry_size e').
Proof.
  intros Hroom Hi Hj Hij He He'.
  pose proof (pos_S _ _ _ He). pose proof (pos_S _ _ _ He').
  pose proof (pos_end hist (S i)). pose proof (pos_end hist (S j)).
  pose proof (pos_le hist k i Hi). pose proof (pos_le hist k j Hj).
  destruct (decide (i < j)%nat).
  - right. pose proof (pos_le hist (S i) j ltac:(lia)). lia.
  - left. pose proof (pos_le hist (S j) i ltac:(lia)). lia.
Qed.

(** ** Memory *)

(** The place that a thread works on is that of its entry in the log. *)
Record at_slot (rg : Z) (hist : list LogEntry) (k : nat) (e : LogEntry) (seq offset : Z) : Prop := {
  as_wf : wf_entry e;
  as_hist : hist !! Z.to_nat (log_idx e) = Some (set_flags e 1);
  as_k : (k ≤ Z.to_nat (log_idx e))%nat;
  as_seq : seq = pos hist (Z.to_nat (log_idx e));
  as_offset : offset = seq mod rg
}.

Definition flight_ok (b : buffer) (rg : Z) (hist : list LogEntry) (k : nat) (t : thread) : Prop :=
  match t with
  | Idle | Waiting _ _ _ | Cleared _ => True
  | Reserved e seq offset =>
      at_slot rg hist k e seq offset ∧ peek (rd (bmem b)) (offset + FlagPos) 2 = le_bytes 2 0
  | Written e seq offset ety_size =>
      at_slot rg hist k e seq offset ∧ ety_size = entry_size e ∧ encoded_at (rd (bmem b)) offset e
  | Flagged e seq offset ety_size =>
      at_slot rg hist k e seq offset ∧ ety_size = entry_size e ∧
      encoded_at (rd (bmem b)) offset (set_flags e 1)
  | Copied e seq => hist !! Z.to_nat (log_idx e) = Some (set_flags e 1) ∧ seq = pos hist (Z.to_nat (log_idx e))
  end.

Definition not_in_flight (ts : list thread) (n : nat) : Prop :=
  ∀ i t, ts !! i = Some t → slot_of t ≠ Some n.

Record mem_inv (M : Z) (st : FlatLog) (ts : list thread) (hist : list LogEntry) (k : nat) : Prop := {
  mi_cap : bcap (mem_rg_raw_ st) = rg_size_ st + SAFE_RG_SIZE + PAGE_SIZE;
  mi_rg : 2 ^ 18 ≤ rg_size_ st;
  mi_rg4 : rg_size_ st mod 4 = 0;
  mi_view : 0 ≤ view_ st < 2 ^ 16;
  mi_map : is_primary_ st = true → 0 < idx_map_elem_cnt_ st;
  mi_seq : sequencer_ st = total_size hist;
  mi_wm : ordered_watermk_ st = pos hist k;
  mi_idx_wm : ordered_idx_watermk_ st = Z.of_nat k;
  mi_idx : indexer_ st = lenZ hist;
  mi_k : (k ≤ length hist)%nat;
  mi_room : total_size hist - pos hist k ≤ rg_size_ st;
  mi_entry : ∀ i e, hist !! i = Some e →
    valid_entry e ∧ log_idx e = Z.of_nat i ∧ flags e = 1 ∧ entry_size e ≤ M;
  mi_done : ∀ n e, hist !! n = Some e → (k ≤ n)%nat → not_in_flight ts n →
    complete (mem_rg_raw_ st) (rg_size_ st) (pos hist n) e;
  mi_flight : ∀ i t, ts !! i = Some t → flight_ok (mem_rg_raw_ st) (rg_size_ st) hist k t;
  mi_distinct : ∀ i j t t' n, ts !! i = Some t → ts !! j = Some t' →
    slot_of t = Some n → slot_of t' = Some n → i = j
}.

(** What a thread in flight knows of its slot. *)
Lemma flight_slot b rg hist k t n :
  flight_ok b rg hist k t → slot_of t = Some n →
  ∃ e seq offset, at_slot rg hist k e seq offset ∧ n = Z.to_nat (log_idx e).
Proof. destruct t; simpl; intros Hf Hs; simplify_eq; destruct Hf as [Hf _]; eauto. Qed.

(** Another thread's slot is not affected by a change of one place. *)
Lemma flight_frame M b b' rg hist k t n e :
  0 < rg → M ≤ rg → M ≤ SAFE_RG_SIZE + 4 → (k ≤ n)%nat →
  total_size hist - pos hist k ≤ rg → hist !! n = Some e →
  (∀ i e, hist !! i = Some e → entry_size e ≤ M) →
  slot_frame rg (pos hist n) (entry_size e) b b' →
  slot_of t ≠ Some n → flight_ok b rg hist k t → flight_ok b' rg hist k t.
Proof.
  intros Hrg HMrg HM Hk Hroom He Hsz Hf Hne. pose proof (entry_size_pos e).
  assert (∀ e', at_slot rg hist k e' (pos hist (Z.to_nat (log_idx e'))) (pos hist (Z.to_nat (log_idx e')) mod rg) →
    n ≠ Z.to_nat (log_idx e') →
    apart rg (pos hist n) (entry_size e) (pos hist (Z.to_nat (log_idx e'))) (entry_size e') ∧
    entry_size e' ≤ rg) as Hap.
  { intros e' [_ Hh Hk' _ _] Hn. pose proof (Hsz _ _ Hh) as Hz.
    change (entry_size (set_flags e' 1)) with (entry_size e') in Hz. split; [|lia].
    change (entry_size e') with (entry_size (set_flags e' 1)). by eapply positions_apart. }
  destruct t as [| | |e' seq off|e' seq off z|e' seq off z|]; simpl in *; try done.
  - intros [Has Hp]. pose proof Has as [_ _ _ -> ->].
    destruct (Hap e' Has ltac:(congruence)) as [Ha Hz]. pose proof (entry_size_pos e'). split; [done|].
    rewrite <- Hp. unfold FlagPos.
    apply (slot_frame_peek rg (pos hist n) (entry_size e) b b' Hrg ltac:(lia) Hf _ (entry_size e')); (done || lia).
  - intros (Has & -> & Hp). pose proof Has as [_ _ _ -> ->].
    destruct (Hap e' Has ltac:(congruence)) as [Ha Hz]. split_and!; try done.
    by apply (slot_frame_encoded rg (pos hist n) (entry_size e) b b' Hrg ltac:(lia) Hf).
  - intros (Has & -> & Hp). pose proof Has as [_ _ _ -> ->].
    destruct (Hap e' Has ltac:(congruence)) as [Ha Hz]. split_and!; try done.
    by apply (slot_frame_encoded rg (pos hist n) (entry_size e) b b' Hrg ltac:(lia) Hf).
Qed.

(** ** Steps that leave the log's shape alone *)

Section Mem.
Context (M : Z) (HM : M ≤ SAFE_RG_SIZE + 4).

(** Replacing the thread of one index. *)
Lemma not_in_flight_insert ts i t t' n :
  ts !! i = Some t → not_in_flight (<[i := t']> ts) n → slot_of t ≠ Some n → not_in_flight ts n.
Proof.
  intros Hi Hn Ht j u Hj. destruct (decide (j = i)) as [->|Hne]; [by simplify_eq|].
  apply (Hn j). by rewrite list_lookup_insert_ne.
Qed.

Lemma distinct_insert (ts : list thread) i t t' :
  (∀ i j t t' n, ts !! i = Some t → ts !! j = Some t' → slot_of t = Some n → slot_of t' = Some n → i = j) →
  ts !! i = Some t → slot_of t' = None ∨ slot_of t' = slot_of t →
  ∀ j l u u' n, <[i := t']> ts !! j = Some u → <[i := t']> ts !! l = Some u' →
    slot_of u = Some n → slot_of u' = Some n → j = l.
Proof.
  intros Hd Hi Ht j l u u' n Hj Hl Hu Hu'.
  apply list_lookup_insert_Some in Hj as [(-> & -> & _)|[Hji Hj]];
    apply list_lookup_insert_Some in Hl as [(-> & -> & _)|[Hli Hl]]; try done.
  - destruct Ht as [Ht|Ht]; [congruence|]. apply (Hd _ l t u' n); congruence.
  - destruct Ht as [Ht|Ht]; [congruence|]. apply (Hd j _ u t n); congruence.
  - by apply (Hd j l u u' n).
Qed.

Lemma mem_rg_pos st ts hist k : mem_inv M st ts hist k → 0 < rg_size_ st ∧ M ≤ rg_size_ st.
Proof. intros [? Hrg _ _ _ _ _ _ _ _ _ _ _ _ _]. unfold SAFE_RG_SIZE, PAGE_SIZE in HM. lia. Qed.

(** A thread without a slot changes; the region does not. *)
Lemma mem_thread st st' ts hist k i t t' :
  mem_inv M st ts hist k → ts !! i = Some t → slot_of t = None → slot_of t' = None →
  same_config st st' → mem_rg_raw_ st' = mem_rg_raw_ st →
  flight_ok (mem_rg_raw_ st) (rg_size_ st) hist k t' → mem_inv M st' (<[i := t']> ts) hist k.
Proof.
  intros [] Hi Ht Ht' (Ep & _ & Ev & Er & Ec) Em Hf.
  split; unfold sequencer_, ordered_watermk_, ordered_idx_watermk_, indexer_;
    rewrite ?Ep, ?Ev, ?Er, ?Ec, ?Em; try done.
  - intros n e He Hk Hn. apply mi_done0; [done..|].
    apply (not_in_flight_insert ts i t t'); [done..|]. by rewrite Ht.
  - intros j u [(-> & -> & _)|[_ Hj]]%list_lookup_insert_Some; [done|by apply (mi_flight0 j)].
  - by apply (distinct_insert ts i t); [|done|left].
Qed.

(** A thread works on its slot. *)
Lemma mem_slot st ts hist k i t t' b' n e :
  mem_inv M st ts hist k → ts !! i = Some t → slot_of t = Some n → hist !! n = Some e →
  slot_frame (rg_size_ st) (pos hist n) (entry_size e) (mem_rg_raw_ st) b' →
  slot_of t' = Some n ∨ slot_of t' = None ∧ complete b' (rg_size_ st) (pos hist n) e →
  flight_ok b' (rg_size_ st) hist k t' → mem_inv M (with_mem st b') (<[i := t']> ts) hist k.
Proof.
  intros Hinv Hi Ht He Hfr Ht' Hfl. pose proof (mem_rg_pos _ _ _ _ Hinv) as [Hrg HMrg].
  pose proof Hinv as []. pose proof (entry_size_pos e).
  destruct (flight_slot _ _ _ _ _ _ (mi_flight0 _ _ Hi) Ht) as (e' & seq & off & Has & ->).
  pose proof (as_k _ _ _ _ _ _ Has) as Hk.
  assert (∀ m x, hist !! m = Some x → entry_size x ≤ M) as Hsz by (intros m x Hx; by apply (mi_entry0 m)).
  assert (pos hist (Z.to_nat (log_idx e')) mod rg_size_ st + entry_size e ≤ rg_size_ st + SAFE_RG_SIZE) as Hend.
  { pose proof (mod4_offset (rg_size_ st) _ Hrg mi_rg5 (pos_mod4 hist (Z.to_nat (log_idx e')))).
    pose proof (Hsz _ _ He). lia. }
  pose proof (slot_frame_word _ _ _ _ _ Hrg Hfr) as Hw.
  split; unfold sequencer_, ordered_watermk_, ordered_idx_watermk_, indexer_ in *;
    cbn [with_mem mem_rg_raw_ rg_size_ is_primary_ view_ idx_map_elem_cnt_]; rewrite ?Hw by (done || lia); try done.
  - by rewrite (proj1 Hfr).
  - intros m x Hx Hkm Hm. destruct (decide (m = Z.to_nat (log_idx e'))) as [->|Hne].
    + destruct Ht' as [Ht'|[_ Hc]]; [|by simplify_eq].
      exfalso. apply (Hm i t'); [|done]. apply list_lookup_insert_eq. by eapply lookup_lt_Some.
    + eapply (slot_frame_complete _ _ _ _ _ Hrg); [|exact Hfr|by eapply positions_apart| |].
      * lia.
      * pose proof (Hsz _ _ Hx). lia.
      * apply mi_done0; [done..|]. apply (not_in_flight_insert ts i t t'); [done..|congruence].
  - intros j u [(-> & -> & _)|[Hji Hj]]%list_lookup_insert_Some; [done|].
    apply (flight_frame M (mem_rg_raw_ st) b' _ hist k u _ e Hrg HMrg HM Hk mi_room0 He Hsz Hfr); [|by apply (mi_flight0 j)].
    intros Hu. apply Hji. by eapply mi_distinct0.
  - apply (distinct_insert ts i t); [done..|]. destruct Ht' as [->|[-> _]]; [right; done|by left].
Qed.
End Mem.

(** ** Changes outside the places *)

Section SameRing.
Context (M : Z) (HM : M ≤ SAFE_RG_SIZE + 4).

(** A thread's slot: its offset and its end. *)
Lemma slot_range rg hist k e seq off :
  0 < rg → rg mod 4 = 0 → (∀ i e, hist !! i = Some e → entry_size e ≤ M) →
  at_slot rg hist k e seq off →
  0 ≤ off ≤ rg - 4 ∧ entry_size e ≤ M ∧ off + entry_size e ≤ rg + SAFE_RG_SIZE.
Proof.
  intros Hrg Hrg4 Hsz [_ Hh _ -> ->]. pose proof (Hsz _ _ Hh) as Hz.
  change (entry_size (set_flags e 1)) with (entry_size e) in Hz.
  pose proof (mod4_offset rg _ Hrg Hrg4 (pos_mod4 hist (Z.to_nat (log_idx e)))).
  pose proof (Z.mod_pos_bound (pos hist (Z.to_nat (log_idx e))) _ Hrg). lia.
Qed.

(** At most the words behind the safe region have changed. *)
Definition same_ring (rg : Z) (b b' : buffer) : Prop :=
  bcap b' = bcap b ∧ ∀ a, a < rg + SAFE_RG_SIZE → rd (bmem b') a = rd (bmem b) a.

Lemma same_ring_encoded rg b b' s e :
  0 < rg → rg mod 4 = 0 → s mod 4 = 0 → entry_size e ≤ M → same_ring rg b b' →
  encoded_at (rd (bmem b)) (s mod rg) e → encoded_at (rd (bmem b')) (s mod rg) e.
Proof.
  intros Hrg Hrg4 Hs Hz [_ Hb] He. pose proof (mod4_offset rg s Hrg Hrg4 Hs). pose proof (entry_size_encode e).
  unfold encoded_at. etrans; [|exact He]. apply peek_ext. intros j Hj. apply Hb. lia.
Qed.

Lemma same_ring_complete rg b b' s e :
  0 < rg → rg mod 4 = 0 → s mod 4 = 0 → entry_size e ≤ M → same_ring rg b b' →
  complete b rg s e → complete b' rg s e.
Proof.
  intros Hrg Hrg4 Hs Hz Hb [H1 H2]. split; [|by apply (same_ring_encoded rg b)].
  unfold encoded_at. etrans; [|exact H1]. apply peek_ext. intros j Hj. unfold ring. apply Hb.
  pose proof (Z.mod_pos_bound (s + j) rg Hrg). unfold SAFE_RG_SIZE, PAGE_SIZE. lia.
Qed.

(** A thread in flight at a log that has grown or been collected up to its entry. *)
Lemma same_ring_flight rg b b' hist hist' k k' t :
  0 < rg → rg mod 4 = 0 → (∀ i e, hist !! i = Some e → entry_size e ≤ M) →
  same_ring rg b b' → hist `prefix_of` hist' → (∀ n, slot_of t = Some n → (k' ≤ n)%nat) →
  flight_ok b rg hist k t → flight_ok b' rg hist' k' t.
Proof.
  intros Hrg Hrg4 Hsz Hb [more ->] Hk'. pose proof (λ e seq off, slot_range rg hist k e seq off Hrg Hrg4 Hsz) as Hsb.
  assert (∀ e seq off, at_slot rg hist k e seq off → (k' ≤ Z.to_nat (log_idx e))%nat →
    at_slot rg (hist ++ more) k' e seq off) as Has.
  { intros e seq off [H1 H2 H3 -> ->] Hle. pose proof (lookup_lt_Some _ _ _ H2).
    split; [done|by apply lookup_app_l_Some|done| |done]. by rewrite pos_app by lia. }
  destruct t as [| | |e seq off|e seq off z|e seq off z|e seq]; simpl in *; try done.
  - intros [H1 H2]. destruct (Hsb e seq off H1) as (Ho & _ & _).
    split; [apply Has; [done|by apply Hk']|]. rewrite <- H2. apply peek_ext. intros j Hj. apply Hb. sizes.
  - intros (H1 & -> & H2). destruct (Hsb e seq off H1) as (_ & Hz & _). pose proof H1 as [_ _ _ Hs Ho].
    split_and!; [apply Has; [done|by apply Hk']|done|]. subst off.
    apply (same_ring_encoded _ b); try done. subst seq. apply pos_mod4.
  - intros (H1 & -> & H2). destruct (Hsb e seq off H1) as (_ & Hz & _). pose proof H1 as [_ _ _ Hs Ho].
    split_and!; [apply Has; [done|by apply Hk']|done|]. subst off.
    apply (same_ring_encoded _ b); try done. subst seq. apply pos_mod4.
  - intros [H1 ->]. pose proof (lookup_lt_Some _ _ _ H1).
    split; [by apply lookup_app_l_Some|]. by rewrite pos_app by lia.
Qed.
End SameRing.

(** ** The phases *)

(** After the bytes past the ring are copied, the entry can be read around it. *)
Definition copied (b : buffer) (rg off z : Z) : buffer :=
  if rg <? off + z then bpoke b 0 (peek (rd (bmem b)) rg (Z.to_nat (off + z - rg))) else b.

Lemma copied_complete b rg s e :
  0 < rg → entry_size e ≤ rg → encoded_at (rd (bmem b)) (s mod rg) e →
  complete (copied b rg (s mod rg) (entry_size e)) rg s e.
Proof.
  intros Hrg Hz He. pose proof (Z.mod_pos_bound s rg Hrg). pose proof (entry_size_encode e).
  unfold complete, encoded_at, copied. split; (etrans; [|exact He]); apply peek_ext; intros i Hi.
  - unfold ring. rewrite ring_place by lia. repeat case_zb; try done; try lia; simpl.
    + apply rd_poke_out. rewrite length_peek. lia.
    + pose proof (rd_poke_in (bmem b) 0 (peek (rd (bmem b)) rg (Z.to_nat (s mod rg + entry_size e - rg)))
        (s mod rg + i - rg)) as H'.
      rewrite length_peek in H'. specialize (H' ltac:(lia)). rewrite peek_lookup in H' by lia. simplify_eq.
      etrans; [symmetry; exact H'|]. f_equal. lia.
  - case_zb; [|done]. simpl. apply rd_poke_out. rewrite length_peek. lia.
Qed.

Section Phases.
Context (M : Z) (HM : M ≤ SAFE_RG_SIZE + 4).
Context (st : FlatLog) (ts : list thread) (hist : list LogEntry) (k : nat) (i : nat).
Context (Hinv : mem_inv M st ts hist k).

Lemma slot_bounds e seq off :
  at_slot (rg_size_ st) hist k e seq off →
  0 ≤ off ≤ rg_size_ st - 4 ∧ entry_size e ≤ M ∧ off + entry_size e ≤ rg_size_ st + SAFE_RG_SIZE.
Proof.
  destruct (mem_rg_pos M HM _ _ _ _ Hinv) as [Hrg _]. destruct Hinv as [].
  apply (slot_range M HM); [done..|]. intros j x Hx. by apply (mi_entry0 j).
Qed.

Lemma write_phase e seq off :
  ts !! i = Some (Reserved e seq off) →
  ∃ st', append_write st e off = Some (st', entry_size e) ∧ same_config st st' ∧
    mem_inv M st' (<[i := Written e seq off (entry_size e)]> ts) hist k.
Proof.
  intros Hi. pose proof Hinv as []. destruct (mi_flight0 _ _ Hi) as [Has _].
  destruct (slot_bounds e seq off Has) as (Ho & Hz & Hend). pose proof (entry_size_encode e).
  unfold append_write. rewrite Serializer_ok; [|apply Has|lia|sizes]. eexists; split; [done|]. split; [done|].
  pose proof Has as [_ Hh _ Hs Hoff].
  eapply (mem_slot M HM st ts hist k i _ _ _ _ _ Hinv Hi eq_refl Hh); simpl.
  - apply slot_frame_bpoke; rewrite <- Hs, <- Hoff; [lia|]. change (entry_size (set_flags e 1)) with (entry_size e). lia.
  - by left.
  - split_and!; [done..|]. apply peek_poke_same.
Qed.

Lemma flag_phase e seq off z :
  ts !! i = Some (Written e seq off z) →
  ∃ st', append_flag st off = Some st' ∧ same_config st st' ∧
    mem_inv M st' (<[i := Flagged e seq off z]> ts) hist k.
Proof.
  intros Hi. pose proof Hinv as []. destruct (mi_flight0 _ _ Hi) as (Has & -> & Henc).
  destruct (slot_bounds e seq off Has) as (Ho & Hz & Hend). pose proof (entry_size_pos e).
  unfold append_flag, SetFlag, store_int. rewrite store_ok by sizes. eexists; split; [done|]. split; [done|].
  pose proof Has as [_ Hh _ Hs Hoff].
  eapply (mem_slot M HM st ts hist k i _ _ _ _ _ Hinv Hi eq_refl Hh); simpl.
  - apply slot_frame_bpoke; rewrite <- Hs, <- Hoff; [unfold FlagPos; lia|].
    change (entry_size (set_flags e 1)) with (entry_size e). sizes.
  - by left.
  - split_and!; [done..|]. by apply encoded_at_set_flag.
Qed.

Lemma copy_phase e seq off z :
  ts !! i = Some (Flagged e seq off z) →
  ∃ st', append_wrap st off z = Some st' ∧ same_config st st' ∧
    mem_inv M st' (<[i := Copied e seq]> ts) hist k.
Proof.
  intros Hi. pose proof Hinv as []. destruct (mi_flight0 _ _ Hi) as (Has & -> & Henc).
  destruct (slot_bounds e seq off Has) as (Ho & Hz & Hend). pose proof (entry_size_pos e).
  destruct (mem_rg_pos M HM _ _ _ _ Hinv) as [Hrg HMrg]. pose proof Has as [_ Hh _ Hs Hoff].
  exists (with_mem st (copied (mem_rg_raw_ st) (rg_size_ st) off (entry_size e))). split; [|split; [done|]].
  - unfold append_wrap, copied. case_zb; [|by destruct st].
    rewrite load_ok by sizes. cbn [mbind option_bind]. by rewrite store_ok by sizes.
  - eapply (mem_slot M HM st ts hist k i _ _ _ _ _ Hinv Hi eq_refl Hh); simpl.
    + unfold copied. case_zb; [|by split]. apply slot_frame_image. rewrite length_peek, <- Hs, <- Hoff.
      change (entry_size (set_flags e 1)) with (entry_size e). lia.
    + right. split; [done|]. rewrite <- Hs, Hoff. apply (copied_complete _ _ _ (set_flags e 1)); [done| |].
      * change (entry_size (set_flags e 1)) with (entry_size e). lia.
      * by rewrite <- Hoff.
    + by rewrite <- Hs.
Qed.

Lemma map_phase e seq :
  ts !! i = Some (Copied e seq) →
  same_config st (append_map st e seq) ∧ mem_inv M (append_map st e seq) (<[i := Idle]> ts) hist k.
Proof.
  intros Hi. assert (same_config st (append_map st e seq)) as Hc
    by (unfold append_map; by destruct (is_primary_ st)).
  split; [done|]. apply (mem_thread M st _ ts hist k i (Copied e seq) Idle); try done.
  unfold append_map. by destruct (is_primary_ st).
Qed.
End Phases.

(** ** The critical section and collection *)

(** A request within the sizes the log is made for. *)
Definition req_ok (M : Z) (e : LogEntry) : Prop := wf_entry e ∧ entry_size e ≤ M.

Lemma req_GetSize M e : M ≤ SAFE_RG_SIZE + 4 → req_ok M e → GetSize e = entry_size e.
Proof.
  intros HM [(_ & _ & _ & Hd & _) Hz]. pose proof (entry_size_bounds e).
  unfold GetSize, entry_size. rewrite Hd. apply padded_size_ok. sizes.
Qed.

Section Reservation.
Context (M : Z) (HM : M ≤ SAFE_RG_SIZE + 4).
Context (st : FlatLog) (ts : list thread) (hist : list LogEntry) (k : nat).
Context (Hinv : mem_inv M st ts hist k).

Lemma not_in_flight_new : not_in_flight ts (length hist).
Proof.
  intros j t Hj Hs. destruct (flight_slot _ _ _ _ _ _ (mi_flight _ _ _ _ _ Hinv _ _ Hj) Hs)
    as (e & seq & off & [_ Hh _ _ _] & Hn). rewrite <- Hn in Hh. apply lookup_lt_Some in Hh. lia.
Qed.

Section Reserve.
Context (i : nat) (e : LogEntry) (Hi : ts !! i = Some (Cleared e)) (He : req_ok M e).
Context (Hroom : total_size hist + entry_size e - pos hist k ≤ rg_size_ st).
Context (Hseq : total_size hist + entry_size e < 2 ^ 64) (Hidx : lenZ hist + 1 < 2 ^ 64).

Let rg := rg_size_ st.
Let seq := total_size hist.
Let e1 := set_view (set_log_idx e (lenZ hist)) (view_ st).
Let hist' := hist ++ [set_flags e1 1].
Let t' := Reserved e1 seq (seq mod rg).
Let b' := reserved (mem_rg_raw_ st) rg seq (lenZ hist) (entry_size e).

Lemma reserved_new : hist' !! length hist = Some (set_flags e1 1).
Proof. by apply list_lookup_middle. Qed.

Lemma reserved_pos : pos hist' (length hist) = seq.
Proof. unfold hist'. rewrite pos_app by done. unfold pos, seq. by rewrite firstn_all. Qed.

Lemma reserved_entries n x : hist' !! n = Some x →
  valid_entry x ∧ log_idx x = Z.of_nat n ∧ flags x = 1 ∧ entry_size x ≤ M.
Proof.
  intros [Hx|[Hn Hx]]%lookup_app_Some; [by apply (mi_entry _ _ _ _ _ Hinv)|].
  apply list_lookup_singleton_Some in Hx as [Hn0 <-]. destruct He as [Hwf Hz]. destruct Hinv as [].
  pose proof (entry_size_bounds e). unfold valid_entry, wf_entry in *. simpl in *.
  split_and!; try (done || lia); sizes.
Qed.

(** The flag of the new place, then the counters. *)
Lemma reserved_frame :
  slot_frame rg (pos hist' (length hist)) (entry_size (set_flags e1 1)) (mem_rg_raw_ st)
    (bpoke (mem_rg_raw_ st) (seq mod rg + FlagPos) (le_bytes 2 0)) ∧
  same_ring rg (bpoke (mem_rg_raw_ st) (seq mod rg + FlagPos) (le_bytes 2 0)) b'.
Proof.
  pose proof (entry_size_pos e1). rewrite reserved_pos. split.
  - change (entry_size (set_flags e1 1)) with (entry_size e1). apply slot_frame_bpoke; sizes.
  - split; [done|]. intros a Ha. unfold b', reserved. by rewrite !rd_set_word.
Qed.

Lemma reserved_room : total_size hist' - pos hist' k ≤ rg.
Proof.
  destruct Hinv as []. unfold hist'. rewrite pos_app, total_size_app by done. simpl.
  change (entry_size (set_flags e1 1)) with (entry_size e). unfold rg. lia.
Qed.

Lemma reserved_flight j t :
  ts !! j = Some t → flight_ok b' rg hist' k t.
Proof.
  intros Hj. destruct (mem_rg_pos M HM _ _ _ _ Hinv) as [Hrg HMrg]. destruct reserved_frame as [Hf Hs].
  pose proof Hinv as []. pose proof (mi_flight0 _ _ Hj) as Hfl.
  assert (∀ n x, hist !! n = Some x → entry_size x ≤ M) as Hsz by (intros n x Hx; by apply (mi_entry0 n)).
  assert (∀ n x, hist' !! n = Some x → entry_size x ≤ M) as Hsz' by (intros n x Hx; by apply (reserved_entries n)).
  assert (∀ n, slot_of t = Some n → (k ≤ n)%nat) as Hk.
  { intros n Hn. by destruct (flight_slot _ _ _ _ _ _ Hfl Hn) as (x & s & o & [_ _ Hk _ _] & ->). }
  apply (same_ring_flight M HM rg _ b' hist' hist' k k t Hrg mi_rg5 Hsz' Hs); [done|done|].
  eapply (flight_frame M (mem_rg_raw_ st) _ rg hist' k t (length hist)); try done.
  - apply reserved_room.
  - apply reserved_new.
  - intros Hn. by eapply not_in_flight_new.
  - apply (same_ring_flight M HM rg (mem_rg_raw_ st) _ hist hist' k k t); try done. by apply prefix_app_r.
Qed.

Lemma reserve_phase :
  ∃ st', append_reserve st (GetSize e) = Some (st', (seq, lenZ hist, seq mod rg)) ∧ same_config st st' ∧
    view_ st' = view_ st ∧ mem_inv M st' (<[i := t']> ts) hist' k.
Proof.
  destruct (mem_rg_pos M HM _ _ _ _ Hinv) as [Hrg HMrg]. destruct reserved_frame as [Hf Hs].
  pose proof (total_size_nonneg hist). pose proof (entry_size_pos e). pose proof Hinv as [].
  pose proof (reserved_words st seq (lenZ hist) (entry_size e) Hrg mi_rg5 (total_size_mod4 hist)
    ltac:(unfold seq; lia) ltac:(lia)) as Hw.
  rewrite (req_GetSize M) by done. exists (reserved_at st seq (lenZ hist) (entry_size e)).
  split; [apply append_reserve_at; (done || apply total_size_mod4 || (unfold seq; lia))|].
  split; [done|]. split; [done|].
  split; unfold sequencer_, ordered_watermk_, ordered_idx_watermk_, indexer_ in *; cbn [reserved_at mem_rg_raw_ rg_size_];
    try done.
  - rewrite Hw by done. simpl. unfold hist', seq. rewrite total_size_app. simpl.
    change (entry_size (set_flags e1 1)) with (entry_size e). lia.
  - rewrite Hw by done. simpl. unfold hist'. by rewrite pos_app.
  - by rewrite Hw.
  - rewrite Hw by done. simpl. unfold hist'. rewrite length_app. simpl. lia.
  - unfold hist'. rewrite length_app. simpl. lia.
  - apply reserved_room.
  - apply reserved_entries.
  - intros n x Hx Hk Hn. destruct (decide (n = length hist)) as [->|Hne].
    { exfalso. apply (Hn i t'); [apply list_lookup_insert_eq; by eapply lookup_lt_Some|]. simpl. f_equal. lia. }
    pose proof (proj2 (proj2 (proj2 (reserved_entries n x Hx)))) as Hzx.
    apply (same_ring_complete M HM rg (bpoke (mem_rg_raw_ st) (seq mod rg + FlagPos) (le_bytes 2 0)));
      try done; [apply pos_mod4|].
    eapply (slot_frame_complete rg _ _ _ _ Hrg); [|exact Hf| |lia|].
    + pose proof (entry_size_pos (set_flags e1 1)). lia.
    + eapply positions_apart; [apply reserved_room| |done|by apply not_eq_sym|apply reserved_new|done]. lia.
    + apply lookup_app_Some in Hx as [Hx|[Hx1 Hx2]].
      * unfold hist'. rewrite pos_app by (apply lookup_lt_Some in Hx; lia).
        apply mi_done0; [done..|]. by apply (not_in_flight_insert ts i (Cleared e) t').
      * apply list_lookup_singleton_Some in Hx2 as [Hx2 _]. lia.
  - intros j u [(<- & <- & _)|[_ Hj]]%list_lookup_insert_Some; [|by apply (reserved_flight j)].
    simpl. split.
    + split; simpl; rewrite ?Nat2Z.id; [|apply reserved_new|done|by rewrite reserved_pos|done].
      destruct He as [Hwf _]. unfold wf_entry in *. simpl. lia.
    + etrans; [|apply (peek_poke_int (bmem (mem_rg_raw_ st)) (seq mod rg + FlagPos) 2 0)].
      apply peek_ext. intros a Ha. apply (proj2 Hs).
      pose proof (Z.mod_pos_bound seq rg Hrg). sizes.
  - intros j l u u' n Hj Hl Hu Hu'. assert (slot_of t' = Some (length hist)) as Ht' by (simpl; f_equal; lia).
    apply list_lookup_insert_Some in Hj as [(<- & <- & _)|[Hji Hj]];
      apply list_lookup_insert_Some in Hl as [(<- & <- & _)|[Hli Hl]]; try done.
    + exfalso. apply (not_in_flight_new l u' Hl). congruence.
    + exfalso. apply (not_in_flight_new j u Hj). congruence.
    + by eapply mi_distinct0.
Qed.
End Reserve.

(** The watermarks move over finished entries. *)
Lemma collect_step k' :
  (k ≤ k' ≤ length hist)%nat → total_size hist < 2 ^ 64 → lenZ hist < 2 ^ 64 →
  (∀ t n, t ∈ ts → slot_of t = Some n → (k' ≤ n)%nat) →
  mem_inv M (move_watermarks st (pos hist k') (Z.of_nat k')) ts hist k'.
Proof.
  intros Hk Hseq Hidx Hts. destruct (mem_rg_pos M HM _ _ _ _ Hinv) as [Hrg HMrg].
  pose proof Hinv as []. pose proof (pos_end hist k'). pose proof (pos_le hist k k' ltac:(lia)).
  pose proof (total_size_nonneg (take k' hist)). fold (pos hist k') in H1.
  assert (same_ring (rg_size_ st) (mem_rg_raw_ st) (mem_rg_raw_ (move_watermarks st (pos hist k') (Z.of_nat k')))) as Hs
    by (split; [done|]; intros a Ha; cbn; by rewrite !rd_set_word).
  split; unfold sequencer_, ordered_watermk_, ordered_idx_watermk_, indexer_ in *;
    cbn [move_watermarks put_word with_mem mem_rg_raw_ rg_size_ is_primary_ view_ idx_map_elem_cnt_] in *;
    rewrite ?get_set_word_other by lia; try done; try lia.
  - apply get_set_word_same. lia.
  - apply get_set_word_same. lia.
  - intros n x Hx Hkn Hn. eapply (same_ring_complete M HM); [done|done|apply pos_mod4|by apply (mi_entry0 n)|exact Hs|].
    apply mi_done0; [done|lia|done].
  - intros j t Hj. apply (same_ring_flight M HM _ (mem_rg_raw_ st) _ hist hist k k' t Hrg mi_rg5); try done.
    + intros n x Hx. by apply (mi_entry0 n).
    + intros n. apply Hts. by apply list_elem_of_lookup_2 with j.
    + by apply (mi_flight0 j).
Qed.
End Reservation.
