(* ===== verification/ConcRun.v ===== *)
(** Runs of a replica with several appending threads: no step faults, the ring is never
    overrun, and the result is that of the appends one after the other. *)

From S2P Require Import Prelude Props Sequencer LogEntry DurLogFlat FlatRing ConcAppend ConcInv.

Local Open Scope Z_scope.

(** ** The margin of [waitForPlace] *)

(** The thread may still reserve a place on the strength of a sequence number that it
    loaded before [X] was reached. *)
Definition eligible (X : Z) (t : thread) : bool :=
  match t with
  | Waiting _ (Some s) _ => s <? X
  | Cleared _ => true
  | _ => false
  end.

Fixpoint claims (X : Z) (ts : list thread) : Z :=
  match ts with
  | [] => 0
  | t :: ts => Z.b2z (eligible X t) + claims X ts
  end.

Lemma claims_range X ts : 0 ≤ claims X ts ≤ lenZ ts.
Proof. induction ts as [|t ts IH]; simpl; [lia|]. destruct (eligible X t); simpl; lia. Qed.

Lemma claims_insert X ts i t t' :
  ts !! i = Some t →
  claims X (<[i := t']> ts) = claims X ts - Z.b2z (eligible X t) + Z.b2z (eligible X t').
Proof.
  revert i; induction ts as [|u ts IH]; intros [|i] Hi; simplify_eq/=; [lia|]. rewrite (IH _ Hi). lia.
Qed.

(** Beyond any sequence number [X] at which [waitForPlace] would stop a new thread, the
    log grows by at most one entry per thread. *)
Definition margin (M rg wm seq : Z) (ts : list thread) : Prop :=
  ∀ X, wm + (rg - 2 ^ 18) ≤ X → X < seq → seq + M * claims X ts ≤ X + M * lenZ ts.

Lemma margin_thread M rg wm seq ts i t t' :
  0 ≤ M → ts !! i = Some t →
  (∀ X, wm + (rg - 2 ^ 18) ≤ X → X < seq → eligible X t' = true → eligible X t = true) →
  margin M rg wm seq ts → margin M rg wm seq (<[i := t']> ts).
Proof.
  intros HM Hi Ht Hm X HX1 HX2. rewrite (claims_insert _ _ _ _ _ Hi), length_insert.
  specialize (Hm X HX1 HX2). specialize (Ht X HX1 HX2).
  destruct (eligible X t'); [rewrite (Ht eq_refl)|destruct (eligible X t)]; simpl; nia.
Qed.

Lemma margin_reserve M rg wm seq z ts i e t' :
  0 < z ≤ M → ts !! i = Some (Cleared e) → (∀ X, eligible X t' = false) →
  margin M rg wm seq ts → margin M rg wm (seq + z) (<[i := t']> ts).
Proof.
  intros Hz Hi Ht Hm X HX1 HX2. rewrite (claims_insert _ _ _ _ _ Hi), length_insert, Ht. simpl.
  pose proof (claims_range X (<[i := t']> ts)) as Hr.
  rewrite (claims_insert _ _ _ _ _ Hi), length_insert, Ht in Hr. simpl in Hr.
  pose proof (claims_range X ts).
  destruct (decide (X < seq)) as [Hlt|Hge]; [specialize (Hm X HX1 Hlt); nia|nia].
Qed.

Lemma margin_collect M rg wm wm' seq ts : wm ≤ wm' → margin M rg wm seq ts → margin M rg wm' seq ts.
Proof. intros Hw Hm X HX. apply Hm. lia. Qed.

(** So the margin of 64 pages keeps the log within the ring. *)
Lemma margin_room M rg wm seq ts :
  0 ≤ M → M * lenZ ts < 2 ^ 18 → margin M rg wm seq ts → 2 ^ 18 ≤ rg → seq - wm < rg.
Proof.
  intros HM HK Hm Hrg. pose proof (claims_range (wm + (rg - 2 ^ 18)) ts).
  destruct (decide (wm + (rg - 2 ^ 18) < seq)); [|lia].
  specialize (Hm (wm + (rg - 2 ^ 18)) ltac:(lia) ltac:(lia)). nia.
Qed.

(** ** The order of the appends *)

(** The log after these appends, one after the other. *)
Definition seq_log (v : Z) (hist es : list LogEntry) : list LogEntry :=
  foldl (λ h e, h ++ [stored e (lenZ h) v]) hist es.

Lemma seq_log_snoc v hist es e :
  seq_log v hist (es ++ [e]) = seq_log v hist es ++ [stored e (lenZ (seq_log v hist es)) v].
Proof. unfold seq_log. by rewrite foldl_app. Qed.

Lemma seq_log_size v hist es : total_size (seq_log v hist es) = total_size hist + total_size es.
Proof.
  induction es as [|e es IH] using rev_ind; [simpl; lia|].
  rewrite seq_log_snoc, !total_size_app, IH. simpl.
  change (entry_size (stored e (lenZ (seq_log v hist es)) v)) with (entry_size e). lia.
Qed.

Lemma seq_log_prefix v hist es : hist `prefix_of` seq_log v hist es.
Proof.
  induction es as [|e es IH] using rev_ind; [done|]. rewrite seq_log_snoc. by apply prefix_app_r.
Qed.

(** Requests that have not reserved a place yet. *)
Definition pending (t : thread) : list LogEntry :=
  match t with Waiting e _ _ | Cleared e => [e] | _ => [] end.

(** What a client sent, without the fields that the log fills in, and what a thread
    serves. *)
Definition sent_part (e : LogEntry) : LogEntry := set_view (set_log_idx e 0) 0.

Definition served (t : thread) : list LogEntry :=
  match t with
  | Idle => []
  | Waiting e _ _ | Cleared e | Reserved e _ _ | Written e _ _ _ | Flagged e _ _ _ | Copied e _ => [sent_part e]
  end.

Lemma bind_insert (f : thread → list LogEntry) (ts : list thread) i t t' :
  ts !! i = Some t → f t ++ (<[i := t']> ts ≫= f) ≡ₚ f t' ++ (ts ≫= f).
Proof.
  intros Hi. pose proof (lookup_lt_Some _ _ _ Hi).
  rewrite <- (take_drop_middle ts i t Hi) at 2. rewrite (insert_take_drop _ _ _ H).
  rewrite !bind_app. simpl. solve_Permutation.
Qed.

Lemma total_size_le M es : Forall (req_ok M) es → total_size es ≤ M * lenZ es.
Proof. induction 1 as [|e es [_ He] _ IH]; simpl; lia. Qed.

Lemma total_size_length es : 32 * lenZ es ≤ total_size es.
Proof. induction es as [|e es IH]; simpl; [done|]. pose proof (entry_size_pos e). lia. Qed.

(** ** The invariant *)

Definition loads_ok (wm seq : Z) (t : thread) : Prop :=
  match t with
  | Waiting _ s w => (∀ x, s = Some x → 0 ≤ x ≤ seq) ∧ (∀ x, w = Some x → 0 ≤ x ≤ wm)
  | _ => True
  end.

Definition answered (hist : list LogEntry) (r : LogEntry * Z) : Prop :=
  hist !! Z.to_nat (log_idx r.1) = Some (set_flags r.1 1) ∧ r.2 = pos hist (Z.to_nat (log_idx r.1)).

Record conc_inv (M : Z) (hist0 : list LogEntry) (c : cstate) : Prop := {
  ki_wait : wait_ (c_log c) = true;
  ki_mem : mem_inv M (c_log c) (c_threads c) (c_hist c) (c_k c);
  ki_margin : margin M (rg_size_ (c_log c)) (pos (c_hist c) (c_k c)) (total_size (c_hist c)) (c_threads c);
  ki_loads : Forall (loads_ok (pos (c_hist c) (c_k c)) (total_size (c_hist c))) (c_threads c);
  ki_req : Forall (req_ok M) (c_arrived c);
  ki_order : ∃ order, c_hist c = seq_log (view_ (c_log c)) hist0 order ∧
    c_arrived c ≡ₚ order ++ (c_threads c ≫= pending);
  ki_answered : Forall (answered (c_hist c)) (c_returned c);
  ki_served : sent_part <$> c_arrived c ≡ₚ (sent_part ∘ fst <$> c_returned c) ++ (c_threads c ≫= served)
}.

(** The requests fit: no sequence number wraps. *)
Definition fits (M : Z) (hist0 : list LogEntry) (c : cstate) : Prop :=
  total_size hist0 + M * lenZ (c_arrived c) + rg_size_ (c_log c) < 2 ^ 64.

Section Steps.
Context (M : Z) (HM0 : 0 ≤ M) (HM : M ≤ SAFE_RG_SIZE + 4) (hist0 : list LogEntry).

Lemma inv_bounds c :
  conc_inv M hist0 c → fits M hist0 c →
  total_size (c_hist c) + M * lenZ (c_threads c ≫= pending) + rg_size_ (c_log c) < 2 ^ 64 ∧
  lenZ (c_hist c) + lenZ (c_threads c ≫= pending) < 2 ^ 64.
Proof.
  intros [Hw Hmem _ _ Hreq (order & Ho & Hp) _ _] Hf. unfold fits in Hf.
  assert (Forall (req_ok M) order) as Hor by (rewrite Hp in Hreq; by apply Forall_app in Hreq as [? _]).
  assert (Forall (req_ok M) (c_threads c ≫= pending)) as Hpe by (rewrite Hp in Hreq; by apply Forall_app in Hreq as [_ ?]).
  pose proof (total_size_le M order Hor). pose proof (total_size_le M _ Hpe).
  pose proof (total_size_length (c_threads c ≫= pending)).
  rewrite (Permutation_length Hp), length_app in Hf.
  pose proof (total_size_length (c_hist c)). destruct (mem_rg_pos M HM _ _ _ _ Hmem) as [Hrg _].
  rewrite Ho, seq_log_size in *. nia.
Qed.

Lemma inv_pending c i t e :
  conc_inv M hist0 c → c_threads c !! i = Some t → e ∈ pending t → req_ok M e.
Proof.
  intros [_ _ _ _ Hreq (order & _ & Hp) _ _] Hi He. rewrite Hp in Hreq. apply Forall_app in Hreq as [_ Hreq].
  rewrite Forall_forall in Hreq. apply Hreq, list_elem_of_bind. exists t. split; [done|].
  by apply list_elem_of_lookup_2 with i.
Qed.

Lemma served_insert (arrived returned returned' : list LogEntry) (ts : list thread) i t t' :
  ts !! i = Some t → returned' ++ served t' ≡ₚ returned ++ served t →
  arrived ≡ₚ returned ++ (ts ≫= served) → arrived ≡ₚ returned' ++ (<[i := t']> ts ≫= served).
Proof.
  intros Hi Hs ->. apply (Permutation_app_inv_l (served t)).
  pose proof (bind_insert served ts i t t' Hi) as Hb.
  transitivity (returned' ++ (served t ++ (<[i := t']> ts ≫= served))); [|solve_Permutation].
  rewrite Hb. transitivity ((returned' ++ served t') ++ (ts ≫= served)); [rewrite Hs|]; solve_Permutation.
Qed.

(** A step of one thread that reserves no place. *)
Lemma inv_step c i t t' st' returned' :
  conc_inv M hist0 c → c_threads c !! i = Some t → same_config (c_log c) st' →
  mem_inv M st' (<[i := t']> (c_threads c)) (c_hist c) (c_k c) → pending t' = pending t →
  (∀ X, pos (c_hist c) (c_k c) + (rg_size_ (c_log c) - 2 ^ 18) ≤ X → X < total_size (c_hist c) →
     eligible X t' = true → eligible X t = true) →
  loads_ok (pos (c_hist c) (c_k c)) (total_size (c_hist c)) t' → Forall (answered (c_hist c)) returned' →
  (sent_part ∘ fst <$> returned') ++ served t' ≡ₚ (sent_part ∘ fst <$> c_returned c) ++ served t →
  conc_inv M hist0 (mkC st' (<[i := t']> (c_threads c)) (c_hist c) (c_k c) (c_arrived c) returned').
Proof.
  intros [] Hi (_ & Ew & Ev & Er & _) Hm Hp He Hl Ha Hs. split; cbn [c_log c_threads c_hist c_k c_arrived c_returned].
  - congruence.
  - done.
  - rewrite Er. by apply (margin_thread _ _ _ _ _ i t).
  - by apply Forall_insert.
  - done.
  - destruct ki_order0 as (order & Ho & Hpe). exists order. rewrite Ev. split; [done|].
    rewrite Hpe. f_equiv. pose proof (bind_insert pending _ _ _ t' Hi) as Hpi. rewrite Hp in Hpi.
    symmetry. by apply (Permutation_app_inv_l (pending t)).
  - done.
  - by apply (served_insert _ _ _ (c_threads c) i t t' Hi Hs).
Qed.

Lemma inv_thread c i t t' :
  conc_inv M hist0 c → c_threads c !! i = Some t → slot_of t = None → slot_of t' = None →
  flight_ok (mem_rg_raw_ (c_log c)) (rg_size_ (c_log c)) (c_hist c) (c_k c) t' → pending t' = pending t →
  (∀ X, pos (c_hist c) (c_k c) + (rg_size_ (c_log c) - 2 ^ 18) ≤ X → X < total_size (c_hist c) →
     eligible X t' = true → eligible X t = true) →
  loads_ok (pos (c_hist c) (c_k c)) (total_size (c_hist c)) t' → served t' = served t →
  conc_inv M hist0 (with_thread c i t').
Proof.
  intros Hinv Hi Ht Ht' Hf Hp He Hl Hs. apply (inv_step c i t); try done; [|by destruct Hinv|by rewrite Hs].
  by apply (mem_thread M (c_log c) _ _ _ _ i t); [destruct Hinv|..].
Qed.

Lemma inv_same c i t : conc_inv M hist0 c → c_threads c !! i = Some t → conc_inv M hist0 (with_thread c i t).
Proof.
  intros Hinv Hi. unfold with_thread. rewrite list_insert_id by done. by destruct c.
Qed.

Lemma inv_load_seq c i t :
  conc_inv M hist0 c → c_threads c !! i = Some t → conc_inv M hist0 (with_thread c i (load_seq (c_log c) t)).
Proof.
  intros Hinv Hi. pose proof Hinv as []. pose proof (ki_mem _ _ _ Hinv) as Hmem. destruct Hmem.
  pose proof (proj1 (Forall_lookup _ _) ki_loads0 _ _ Hi) as Hl.
  destruct t as [|e [s|] w| | | | |]; try by apply inv_same.
  apply (inv_thread c i (Waiting e None w)); try done.
  - simpl. unfold Sequencer.GetCurSeqNonAtm. rewrite mi_seq. intros X _ HX Hlt. apply Z.ltb_lt in Hlt. lia.
  - simpl in Hl |- *. split; [|apply Hl]. intros x [= <-]. unfold Sequencer.GetCurSeqNonAtm. rewrite mi_seq.
    pose proof (total_size_nonneg (c_hist c)). lia.
Qed.

Lemma inv_load_watermk c i t :
  conc_inv M hist0 c → c_threads c !! i = Some t → conc_inv M hist0 (with_thread c i (load_watermk (c_log c) t)).
Proof.
  intros Hinv Hi. pose proof Hinv as []. pose proof (ki_mem _ _ _ Hinv) as Hmem. destruct Hmem.
  pose proof (proj1 (Forall_lookup _ _) ki_loads0 _ _ Hi) as Hl.
  destruct t as [|e s [w|]| | | | |]; try by apply inv_same.
  apply (inv_thread c i (Waiting e s None)); try done.
  simpl in Hl |- *. split; [apply Hl|]. intros x [= <-]. rewrite mi_wm.
  pose proof (total_size_nonneg (take (c_k c) (c_hist c))). unfold pos. lia.
Qed.

(** A thread that passes the test loaded a sequence number below the margin. *)
Lemma inv_test c i t :
  conc_inv M hist0 c → fits M hist0 c → c_threads c !! i = Some t →
  conc_inv M hist0 (with_thread c i (test_place (c_log c) t)).
Proof.
  intros Hinv Hf Hi. pose proof (inv_bounds c Hinv Hf) as [Hb _]. pose proof Hinv as []. pose proof (ki_mem _ _ _ Hinv) as Hmem. destruct Hmem.
  pose proof (proj1 (Forall_lookup _ _) ki_loads0 _ _ Hi) as Hl.
  destruct t as [|e s w| | | | |]; try by apply inv_same.
  unfold test_place. rewrite ki_wait0. cbn [negb].
  destruct s as [s|], w as [w|]; try by apply inv_same.
  destruct Hl as [Hs Hw]. specialize (Hs s eq_refl). specialize (Hw w eq_refl).
  pose proof (inv_pending c i _ e Hinv Hi ltac:(by apply list_elem_of_singleton)) as He.
  rewrite (req_GetSize M) by done. pose proof (entry_size_pos e). change (Z.shiftl PAGE_SIZE 6) with (2 ^ 18).
  assert (pos (c_hist c) (c_k c) ≤ total_size (c_hist c)) by apply pos_end.
  assert (0 ≤ M * lenZ (c_threads c ≫= pending)) by lia. pose proof HM as HM'. unfold SAFE_RG_SIZE, PAGE_SIZE in HM'.
  rewrite (u64_small (_ - 2 ^ 18)) by lia.
  destruct (Z.ltb_spec (u64 (s + entry_size e - w)) (rg_size_ (c_log c) - 2 ^ 18)) as [Hadm|_];
    [|by apply (inv_thread c i (Waiting e (Some s) (Some w)))].
  apply (inv_thread c i (Waiting e (Some s) (Some w))); try done.
  intros X HX1 HX2 _. simpl. apply Z.ltb_lt.
  destruct (decide (0 ≤ s + entry_size e - w)) as [Hge|Hlt].
  - rewrite u64_small in Hadm by (destruct He; lia). lia.
  - unfold u64 in Hadm. rewrite <- (Z.mod_add _ 1), Z.mod_small in Hadm by lia. lia.
Qed.

(** The critical section: the margin leaves room for the entry. *)
Lemma inv_reserve c i e :
  conc_inv M hist0 c → fits M hist0 c → M * lenZ (c_threads c) < 2 ^ 18 → c_threads c !! i = Some (Cleared e) →
  ∃ st' t', next_phase (c_log c) (Cleared e) = Some (st', t') ∧
    conc_inv M hist0 (mkC st' (<[i := t']> (c_threads c)) (record_hist (Cleared e) t' (c_hist c)) (c_k c)
      (c_arrived c) (c_returned c)).
Proof.
  intros Hinv Hf HK Hi. pose proof (inv_bounds c Hinv Hf) as [Hb1 Hb2].
  pose proof (inv_pending c i _ e Hinv Hi ltac:(by apply list_elem_of_singleton)) as He.
  pose proof (entry_size_pos e). pose proof (proj2 He) as Hz. pose proof Hinv as [Ew Hmem Hmar Hlo Hreq Hord Han Hsv].
  assert (1 ≤ lenZ (c_threads c ≫= pending)) as Hone.
  { assert (e ∈ c_threads c ≫= pending) as Hin%list_elem_of_lookup_1.
    { apply list_elem_of_bind. exists (Cleared e). split; [by apply list_elem_of_singleton|].
      by apply list_elem_of_lookup_2 with i. }
    destruct Hin as [j Hj]. apply lookup_lt_Some in Hj. lia. }
  assert (M * 1 ≤ M * lenZ (c_threads c ≫= pending)) by (apply Z.mul_le_mono_nonneg_l; lia).
  destruct (mem_rg_pos M HM _ _ _ _ Hmem) as [Hrg _].
  set (e1 := set_view (set_log_idx e (lenZ (c_hist c))) (view_ (c_log c))).
  set (t' := Reserved e1 (total_size (c_hist c)) (total_size (c_hist c) mod rg_size_ (c_log c))).
  pose proof (margin_reserve M _ _ _ (entry_size e) _ i e t' ltac:(lia) Hi (λ _, eq_refl) Hmar) as Hmar'.
  assert (total_size (c_hist c) + entry_size e - pos (c_hist c) (c_k c) < rg_size_ (c_log c)) as Hroom.
  { apply (margin_room M _ _ _ (<[i := t']> (c_threads c))); [done|by rewrite length_insert|done|by destruct Hmem]. }
  destruct (reserve_phase M HM _ _ _ _ Hmem i e Hi He ltac:(lia) ltac:(lia) ltac:(lia))
    as (st' & Hres & (_ & Ew' & _ & Er' & _) & Ev' & Hmem').
  exists st', t'. cbn [next_phase]. rewrite Hres. cbn [mbind option_bind]. rewrite Ev'. split; [done|].
  pose proof (mi_k _ _ _ _ _ Hmem) as Hk. fold e1 in Hmem'. fold t' in Hmem'.
  split; cbn [c_log c_threads c_hist c_k c_arrived c_returned record_hist t']; rewrite ?Er', ?Ev', ?Ew', ?pos_app by done;
    try done.
  - rewrite total_size_app. simpl. change (entry_size (set_flags e1 1)) with (entry_size e).
    by replace (total_size (c_hist c) + (entry_size e + 0)) with (total_size (c_hist c) + entry_size e) by lia.
  - apply Forall_insert; [|done]. rewrite total_size_app. pose proof (total_size_nonneg [set_flags e1 1]).
    eapply Forall_impl; [exact Hlo|]. intros [|x s w| | | | |]; try done. intros [Hs Hw]. split; [|done].
    intros y Hy. specialize (Hs y Hy). lia.
  - destruct Hord as (order & Ho & Hp). exists (order ++ [e]). rewrite seq_log_snoc, <- Ho. split; [done|].
    rewrite Hp, <- (assoc (++)). f_equiv. by rewrite (bind_insert pending _ _ _ t' Hi).
  - eapply Forall_impl; [exact Han|]. intros [x q] [Hx Hq]. simpl in Hx, Hq.
    pose proof (lookup_lt_Some _ _ _ Hx). split; simpl; [by apply lookup_app_l_Some|]. by rewrite pos_app by lia.
  - by apply (served_insert _ _ _ (c_threads c) i (Cleared e) t' Hi (reflexivity _)).
Qed.

(** Every thread can take its next step, and the invariant is kept. *)
Lemma inv_phase c i t :
  conc_inv M hist0 c → fits M hist0 c → M * lenZ (c_threads c) < 2 ^ 18 → c_threads c !! i = Some t →
  ∃ st' t', next_phase (c_log c) t = Some (st', t') ∧
    conc_inv M hist0 (mkC st' (<[i := t']> (c_threads c)) (record_hist t t' (c_hist c)) (c_k c)
      (c_arrived c) (record_returned t (c_returned c))).
Proof.
  intros Hinv Hf HK Hi. pose proof Hinv as [_ Hmem _ _ _ _ Han _].
  destruct t as [|e s w|e|e seq off|e seq off z|e seq off z|e seq].
  - eexists _, _. split; [done|]. by apply (inv_same c i).
  - eexists _, _. split; [done|]. by apply (inv_same c i).
  - by apply inv_reserve.
  - destruct (write_phase M HM _ _ _ _ i Hmem e seq off Hi) as (st' & Hw & Hc & Hm).
    simpl. rewrite Hw. eexists _, _. split; [done|]. by apply (inv_step c i (Reserved e seq off)).
  - destruct (flag_phase M HM _ _ _ _ i Hmem e seq off z Hi) as (st' & Hw & Hc & Hm).
    simpl. rewrite Hw. eexists _, _. split; [done|]. by apply (inv_step c i (Written e seq off z)).
  - destruct (copy_phase M HM _ _ _ _ i Hmem e seq off z Hi) as (st' & Hw & Hc & Hm).
    simpl. rewrite Hw. eexists _, _. split; [done|]. by apply (inv_step c i (Flagged e seq off z)).
  - destruct (map_phase M _ _ _ _ i Hmem e seq Hi) as (Hc & Hm).
    eexists _, _. split; [done|]. apply (inv_step c i (Copied e seq)); try done.
    + apply Forall_app_2; [done|]. apply Forall_singleton. apply (mi_flight _ _ _ _ _ Hmem i _ Hi).
    + cbn [record_returned served]. by rewrite fmap_app, app_nil_r.
Qed.

Lemma inv_arrive c i e :
  conc_inv M hist0 c → c_threads c !! i = Some Idle → req_ok M e →
  conc_inv M hist0 (mkC (c_log c) (<[i := Waiting e None None]> (c_threads c)) (c_hist c) (c_k c)
    (c_arrived c ++ [e]) (c_returned c)).
Proof.
  intros Hinv Hi He. pose proof Hinv as [Ew Hmem Hmar Hlo Hreq (order & Ho & Hp) Han Hsv].
  split; cbn [c_log c_threads c_hist c_k c_arrived c_returned]; try done.
  - by apply (mem_thread M (c_log c) _ _ _ _ i Idle).
  - by apply (margin_thread _ _ _ _ _ i Idle).
  - by apply Forall_insert.
  - by apply Forall_app_2, Forall_singleton.
  - exists order. split; [done|]. rewrite Hp, <- (assoc (++)). f_equiv.
    rewrite (comm (++)). symmetry. exact (bind_insert pending _ _ _ (Waiting e None None) Hi).
  - rewrite fmap_app, Hsv, <- (assoc (++)). f_equiv. rewrite (comm (++)).
    symmetry. exact (bind_insert served _ _ _ (Waiting e None None) Hi).
Qed.

Lemma inv_collect c k :
  conc_inv M hist0 c → fits M hist0 c → (c_k c ≤ k ≤ length (c_hist c))%nat →
  (∀ t j, t ∈ c_threads c → slot_of t = Some j → (k ≤ j)%nat) →
  conc_inv M hist0 (mkC (move_watermarks (c_log c) (total_size (take k (c_hist c))) (Z.of_nat k)) (c_threads c)
    (c_hist c) k (c_arrived c) (c_returned c)).
Proof.
  intros Hinv Hf Hk Hts. pose proof (inv_bounds c Hinv Hf) as [Hb1 Hb2].
  pose proof Hinv as [Ew Hmem Hmar Hlo Hreq Hord Han Hsv]. pose proof (pos_le (c_hist c) (c_k c) k ltac:(lia)).
  destruct (mem_rg_pos M HM _ _ _ _ Hmem) as [Hrg _].
  split; cbn [c_log c_threads c_hist c_k c_arrived c_returned]; try done.
  - apply (collect_step M HM (c_log c) _ _ (c_k c) Hmem); (done || nia).
  - by apply (margin_collect _ _ (pos (c_hist c) (c_k c))).
  - eapply Forall_impl; [exact Hlo|]. intros [|x s w| | | | |]; try done. intros [Hs Hw]. split; [done|].
    intros y Hy. specialize (Hw y Hy). lia.
Qed.
End Steps.

(** ** Runs *)

(** What the clients sent is within the limits. *)
Definition admissible (M : Z) (hist0 : list LogEntry) (c : cstate) : Prop :=
  Forall (req_ok M) (c_arrived c) ∧ fits M hist0 c.

Lemma next_phase_config st t st' t' : next_phase st t = Some (st', t') → rg_size_ st' = rg_size_ st.
Proof.
  destruct t as [|e s w|e|e seq off|e seq off z|e seq off z|e seq]; cbn [next_phase].
  - by intros [= <- <-].
  - by intros [= <- <-].
  - unfold append_reserve. repeat (case_match; try done); simpl; try done.
    destruct (SetFlag _ _ _); simpl; [|done]. case_match; [done|].
    simpl. intros [= <- <-]. by case_match.
  - unfold append_write. destruct (Serializer _ _ _) as [[b z]|]; simpl; [|done]. by intros [= <- <-].
  - unfold append_flag. destruct (SetFlag _ _ _) as [b|]; simpl; [|done]. by intros [= <- <-].
  - unfold append_wrap. case_match; simpl; [|by intros [= <- <-]].
    destruct (load _ _ _) as [bs|]; simpl; [|done]. destruct (store _ _ _); simpl; [|done]. by intros [= <- <-].
  - intros [= <- <-]. unfold append_map. by case_match.
Qed.

Lemma cstep_mono c c' :
  cstep c c' → length (c_threads c') = length (c_threads c) ∧ c_arrived c `prefix_of` c_arrived c' ∧
    rg_size_ (c_log c') = rg_size_ (c_log c) ∧ c_hist c `prefix_of` c_hist c'.
Proof.
  destruct 1 as [c i e| | | |c i t st' t' Hi Hn|]; cbn [with_thread c_log c_threads c_hist c_arrived];
    rewrite ?length_insert; split_and!; try done; try by apply prefix_app_r.
  - by eapply next_phase_config.
  - destruct t, t'; simpl; try done. by apply prefix_app_r.
Qed.

Lemma run_mono c c' :
  rtc cstep c c' → length (c_threads c') = length (c_threads c) ∧ c_arrived c `prefix_of` c_arrived c' ∧
    rg_size_ (c_log c') = rg_size_ (c_log c) ∧ c_hist c `prefix_of` c_hist c'.
Proof.
  induction 1 as [c|c c1 c' Hs _ (H1 & H2 & H3 & H4)]; [done|]. destruct (cstep_mono _ _ Hs) as (G1 & G2 & G3 & G4).
  split_and!; try congruence; by etrans.
Qed.

Section Runs.
Context (M : Z) (HM0 : 0 ≤ M) (HM : M ≤ SAFE_RG_SIZE + 4) (hist0 : list LogEntry).

Lemma admissible_before c c' : rtc cstep c c' → admissible M hist0 c' → admissible M hist0 c.
Proof.
  intros Hr [Hq Hf]. destruct (run_mono _ _ Hr) as (_ & [more Hm] & Hrg & _).
  unfold admissible, fits in *. rewrite Hm in *. rewrite Hrg in *.
  apply Forall_app in Hq as [Hq _]. rewrite length_app in Hf. split; [done|]. nia.
Qed.

Lemma cstep_inv c c' :
  conc_inv M hist0 c → M * lenZ (c_threads c) < 2 ^ 18 → cstep c c' → admissible M hist0 c' →
  conc_inv M hist0 c'.
Proof.
  intros Hinv HK Hs Had. pose proof (admissible_before c c' ltac:(by apply rtc_once) Had) as [_ Hf].
  destruct Hs as [c i e Hi|c i t Hi|c i t Hi|c i t Hi|c i t st' t' Hi Hn|c k Hk Hts].
  - apply inv_arrive; [done..|]. destruct Had as [Hq _]. simpl in Hq.
    apply Forall_app in Hq as [_ Hq]. by inversion Hq.
  - by apply inv_load_seq.
  - by apply inv_load_watermk.
  - by apply inv_test.
  - destruct (inv_phase M HM0 HM hist0 c i t Hinv Hf HK Hi) as (st2 & t2 & Hn2 & Hinv2). congruence.
  - by apply inv_collect.
Qed.

Lemma run_inv c c' :
  rtc cstep c c' → conc_inv M hist0 c → M * lenZ (c_threads c) < 2 ^ 18 → admissible M hist0 c' →
  conc_inv M hist0 c'.
Proof.
  induction 1 as [c|c c1 c' Hs Hr IH]; intros Hinv HK Had; [done|].
  apply IH; [|by rewrite (proj1 (cstep_mono _ _ Hs))|done].
  by apply (cstep_inv c); [..|apply (admissible_before _ c')].
Qed.

(** Threads that have nothing to do, at a replica that represents a log. *)
Record quiet (st : FlatLog) (k : nat) : Prop := {
  qu_repr : flat_repr st hist0 k;
  qu_wait : wait_ st = true;
  qu_rg : 2 ^ 18 ≤ rg_size_ st;
  qu_map : is_primary_ st = true → 0 < idx_map_elem_cnt_ st;
  qu_small : Forall (λ e, entry_size e ≤ M) hist0;
  qu_room : total_size (drop k hist0) ≤ rg_size_ st - 2 ^ 18
}.

Lemma lookup_replicate_idle n i t : replicate n Idle !! i = Some t → t = Idle.
Proof. by intros [-> _]%lookup_replicate. Qed.

Lemma laid_complete b rg p es n e :
  laid (ring b rg) p es → straight b rg p es → es !! n = Some e → complete b rg (p + total_size (take n es)) e.
Proof.
  revert p n. induction es as [|x es IH]; intros p n Hl Hs He; [done|].
  destruct Hl as [Hl1 Hl2], Hs as [Hs1 Hs2], n as [|n]; simplify_eq/=.
  - by rewrite Z.add_0_r.
  - rewrite Z.add_assoc. by apply IH.
Qed.

Lemma complete_laid b rg p es :
  (∀ n e, es !! n = Some e → complete b rg (p + total_size (take n es)) e) →
  laid (ring b rg) p es ∧ straight b rg p es.
Proof.
  revert p. induction es as [|e es IH]; intros p Hc; [done|]. simpl.
  destruct (Hc 0%nat e eq_refl) as [H1 H2]. rewrite Z.add_0_r in H1, H2.
  destruct (IH (p + entry_size e)) as [H3 H4]; [|done].
  intros n x Hx. specialize (Hc (S n) x Hx). simpl in Hc. by rewrite Z.add_assoc in Hc.
Qed.

Lemma quiet_inv st k n : quiet st k → conc_inv M hist0 (mkC st (replicate n Idle) hist0 k [] []).
Proof.
  intros [Hr Hw Hrg Hmap Hsm Hroom]. pose proof (repr_unordered _ _ _ Hr) as Hu. pose proof Hr as [].
  split; cbn [c_log c_threads c_hist c_k c_arrived c_returned]; try done.
  - split; try done.
    + unfold pos. lia.
    + intros i e He. destruct (fr_entry _ _ He) as (H1 & H2 & _). split_and!; try done.
      * by apply (proj1 (Forall_lookup _ _) fr_valid i).
      * by apply (proj1 (Forall_lookup _ _) Hsm i).
    + intros m e He Hk _.
      pose proof (laid_complete _ _ _ _ (m - k) e fr_laid fr_straight) as Hc.
      rewrite lookup_drop in Hc. replace (k + (m - k))%nat with m in Hc by lia. specialize (Hc He).
      by rewrite <- (total_size_take_drop k m) in Hc by lia.
    + intros i t ->%lookup_replicate_idle. done.
    + intros i j t t' m ->%lookup_replicate_idle. done.
  - intros X HX1 HX2. exfalso. unfold pos in HX1. lia.
  - apply Forall_replicate. done.
  - exists []. split; [done|]. clear. by induction n.
  - clear. by induction n.
Qed.

(** With no thread in flight, the region represents the log. *)
Lemma inv_quiet c :
  conc_inv M hist0 c → M * lenZ (c_threads c) < 2 ^ 18 → Forall (λ t, t = Idle) (c_threads c) →
  flat_repr (c_log c) (c_hist c) (c_k c).
Proof.
  intros Hinv HK Hidle. pose proof Hinv as [_ Hmem Hmar _ _ _ _ _]. pose proof Hmem as [].
  pose proof (margin_room _ _ _ _ _ HM0 HK Hmar mi_rg) as Hroom.
  assert (∀ n, not_in_flight (c_threads c) n) as Hnf.
  { intros n i t Hi. by rewrite (proj1 (Forall_lookup _ _) Hidle _ _ Hi). }
  assert (∀ n e, drop (c_k c) (c_hist c) !! n = Some e →
    complete (mem_rg_raw_ (c_log c)) (rg_size_ (c_log c))
      (total_size (take (c_k c) (c_hist c)) + total_size (take n (drop (c_k c) (c_hist c)))) e) as Hc.
  { intros n e He. rewrite lookup_drop in He. pose proof (mi_done _ _ He ltac:(lia) (Hnf _)) as Hd.
    unfold pos in Hd. rewrite (total_size_take_drop (c_k c)) in Hd by lia.
    by replace (c_k c + n - c_k c)%nat with n in Hd by lia. }
  assert (total_size (c_hist c) = pos (c_hist c) (c_k c) + total_size (drop (c_k c) (c_hist c))) as Hsp
    by (unfold pos; by rewrite <- total_size_app, take_drop).
  destruct (mem_rg_pos M HM _ _ _ _ Hmem) as [Hrg _].
  split; try done; [|intros i e He| | |lia].
  - apply Forall_lookup. intros i e He. by apply (mi_entry i).
  - destruct (mi_entry _ _ He) as (_ & H1 & H2 & H3). split_and!; [done..|]. lia.
  - by apply complete_laid.
  - by apply complete_laid.
Qed.
End Runs.

(** ** Schedules, for evaluation *)

Inductive action : Type :=
| Arrive (i : nat) (e : LogEntry) | LoadSeq (i : nat) | LoadWatermk (i : nat) | TestPlace (i : nat) | Phase (i : nat).

Definition act (a : action) (c : cstate) : option cstate :=
  match a with
  | Arrive i e =>
      match c_threads c !! i with
      | Some Idle => Some (mkC (c_log c) (<[i := Waiting e None None]> (c_threads c)) (c_hist c) (c_k c)
                             (c_arrived c ++ [e]) (c_returned c))
      | _ => None
      end
  | LoadSeq i => t ← c_threads c !! i; Some (with_thread c i (load_seq (c_log c) t))
  | LoadWatermk i => t ← c_threads c !! i; Some (with_thread c i (load_watermk (c_log c) t))
  | TestPlace i => t ← c_threads c !! i; Some (with_thread c i (test_place (c_log c) t))
  | Phase i =>
      t ← c_threads c !! i;
      '(st', t') ← next_phase (c_log c) t;
      Some (mkC st' (<[i := t']> (c_threads c)) (record_hist t t' (c_hist c)) (c_k c) (c_arrived c)
              (record_returned t (c_returned c)))
  end.

Fixpoint exec (l : list action) (c : cstate) : option cstate :=
  match l with [] => Some c | a :: l => c ← act a c; exec l c end.

Lemma act_step a c c' : act a c = Some c' → cstep c c'.
Proof.
  destruct a as [i e|i|i|i|i]; simpl; destruct (c_threads c !! i) as [t|] eqn:Hi; simpl; try done.
  - destruct t; try done. intros [= <-]. by constructor.
  - intros [= <-]. by constructor.
  - intros [= <-]. by constructor.
  - intros [= <-]. by constructor.
  - destruct (next_phase _ t) as [[st' t']|] eqn:Hn; simpl; [|done]. intros [= <-]. by apply (cs_phase c i t).
Qed.

Lemma exec_run l c c' : exec l c = Some c' → rtc cstep c c'.
Proof.
  revert c. induction l as [|a l IH]; intros c; simpl; [by intros [= <-]|].
  destruct (act a c) as [c1|] eqn:Ha; simpl; [|done]. intros Hl.
  eapply rtc_l; [by eapply act_step|by apply IH].
Qed.

(** ** Theorems *)

(** C12. Concurrent appends are safe.  Let [n] threads append entries of at most [M] bytes,
    with [n * M] below the 64 pages that [waitForPlace] keeps free, taking their steps in
    any order, the two loads of [waitForPlace] included, while the watermarks are moved
    over finished entries.  In every state that they reach, the unordered entries fit
    into the ring, and the next step of each thread touches no memory outside the
    region. *)
Theorem conc_append_safe M hist0 st k n c :
  0 ≤ M → M ≤ SAFE_RG_SIZE + 4 → M * Z.of_nat n < 2 ^ 18 → quiet M hist0 st k →
  rtc cstep (mkC st (replicate n Idle) hist0 k [] []) c → admissible M hist0 c →
  0 ≤ sequencer_ (c_log c) - ordered_watermk_ (c_log c) < rg_size_ (c_log c) ∧
  ∀ i t, c_threads c !! i = Some t → is_Some (next_phase (c_log c) t).
Proof.
  intros HM0 HM HK Hq Hr Had. pose proof (run_mono _ _ Hr) as (Hlen & _). simpl in Hlen. rewrite length_replicate in Hlen.
  pose proof (run_inv M HM0 HM hist0 _ c Hr (quiet_inv M hist0 st k n Hq)
    ltac:(simpl; by rewrite length_replicate) Had) as Hinv.
  rewrite <- Hlen in HK. pose proof Hinv as [_ Hmem Hmar _ _ _ _ _]. split.
  - rewrite (mi_seq _ _ _ _ _ Hmem), (mi_wm _ _ _ _ _ Hmem). pose proof (pos_end (c_hist c) (c_k c)).
    pose proof (margin_room _ _ _ _ _ HM0 HK Hmar (mi_rg _ _ _ _ _ Hmem)). lia.
  - intros i t Hi. destruct (inv_phase M HM0 HM hist0 c i t Hinv (proj2 Had) HK Hi) as (st' & t' & Hn & _).
    rewrite Hn. by eexists.
Qed.

(** C11. Concurrent appends are linearizable.  When all threads have returned, whatever the
    order of their steps was, the region represents the log that results from appending
    the same requests one after the other, in the order of their critical sections; each
    request was answered exactly once, with the sequence number of its entry. *)
Theorem conc_append_linearizable M hist0 st k n c :
  0 ≤ M → M ≤ SAFE_RG_SIZE + 4 → M * Z.of_nat n < 2 ^ 18 → quiet M hist0 st k →
  rtc cstep (mkC st (replicate n Idle) hist0 k [] []) c → admissible M hist0 c →
  Forall (λ t, t = Idle) (c_threads c) →
  ∃ order, order ≡ₚ c_arrived c ∧ flat_repr (c_log c) (seq_log (view_ (c_log c)) hist0 order) (c_k c) ∧
    sent_part ∘ fst <$> c_returned c ≡ₚ sent_part <$> c_arrived c ∧
    Forall (answered (seq_log (view_ (c_log c)) hist0 order)) (c_returned c).
Proof.
  intros HM0 HM HK Hq Hr Had Hidle. pose proof (run_mono _ _ Hr) as (Hlen & _). simpl in Hlen. rewrite length_replicate in Hlen.
  pose proof (run_inv M HM0 HM hist0 _ c Hr (quiet_inv M hist0 st k n Hq)
    ltac:(simpl; by rewrite length_replicate) Had) as Hinv.
  rewrite <- Hlen in HK. pose proof (inv_quiet M HM0 HM hist0 c Hinv HK Hidle) as Hrep.
  destruct Hinv as [_ _ _ _ _ (order & Ho & Hp) Han Hsv].
  assert (∀ f : thread → list LogEntry, f Idle = [] → c_threads c ≫= f = []) as Hnil.
  { intros f Hf. clear -Hf Hidle. induction Hidle as [|t ts -> _ IH]; [done|]. by rewrite bind_cons, Hf, IH. }
  rewrite Hnil in Hp, Hsv by done. rewrite app_nil_r in Hp, Hsv. rewrite Ho in Hrep, Han.
  exists order. split_and!; by symmetry || done.
Qed.

(** ** An instance: two threads at a fresh replica *)

Definition conc_entry (cli : Z) : LogEntry := mkEntry cli 0 0 3 0 0 [Byte.x61; Byte.x62; Byte.x63].
Definition conc_start : cstate := mkC small_log (replicate 2 Idle) [] 0 [] [].

(** The request that arrives second is the first to reserve its place. *)
Definition conc_schedule : list action :=
  [Arrive 0 (conc_entry 42); Arrive 1 (conc_entry 43); LoadSeq 0; LoadWatermk 1; LoadSeq 1; LoadWatermk 0;
   TestPlace 1; TestPlace 0; Phase 1; Phase 0; Phase 0; Phase 1; Phase 1; Phase 0; Phase 0; Phase 1; Phase 0; Phase 1].

Definition is_idle (t : thread) : bool := match t with Idle => true | _ => false end.

(** Whether the first [n] steps are possible and have the requests served so far. *)
Definition conc_check (n : nat) (idle : bool) : bool :=
  match exec (take n conc_schedule) conc_start with
  | Some c =>
      Bool.eqb (forallb is_idle (c_threads c)) idle && (rg_size_ (c_log c) =? 2 ^ 20) &&
      bool_decide (c_arrived c = [conc_entry 42; conc_entry 43])
  | None => false
  end.

Lemma conc_check_run n idle :
  conc_check n idle = true →
  ∃ c, rtc cstep conc_start c ∧ admissible 1000 [] c ∧ c_arrived c = [conc_entry 42; conc_entry 43] ∧
    (idle = true → Forall (λ t, t = Idle) (c_threads c)).
Proof.
  unfold conc_check. destruct (exec _ _) as [c|] eqn:Hex; [|done].
  intros [[Hid%Bool.eqb_prop Hrg%Z.eqb_eq]%andb_true_iff Har%bool_decide_eq_true_1]%andb_true_iff.
  exists c. split; [by eapply exec_run|]. split; [|split; [done|]].
  - split; [|unfold fits; rewrite Har, Hrg; done]. rewrite Har.
    by repeat constructor.
  - intros ->. apply Forall_lookup. intros i t Hi.
    assert (is_idle t = true) as Ht; [|by destruct t].
    apply (proj1 (List.forallb_forall _ _) Hid). apply list_elem_of_In. by apply list_elem_of_lookup_2 with i.
Qed.

Lemma small_quiet : quiet 1000 [] small_log 0.
Proof. split; [apply small_log_repr|done|done|done|constructor|done]. Qed.

(** In the middle of the run, with both entries half written. *)
Lemma conc_append_safe_witness :
  ∃ c, rtc cstep conc_start c ∧
    0 ≤ sequencer_ (c_log c) - ordered_watermk_ (c_log c) < rg_size_ (c_log c) ∧
    ∀ i t, c_threads c !! i = Some t → is_Some (next_phase (c_log c) t).
Proof.
  destruct (conc_check_run 12 false) as (c & Hr & Had & _); [by vm_compute|]. exists c. split; [done|].
  by apply (conc_append_safe 1000 [] small_log 0 2 c ltac:(done) ltac:(done) ltac:(done) small_quiet).
Defined.

Lemma conc_append_linearizable_witness :
  ∃ c order, rtc cstep conc_start c ∧ order ≡ₚ [conc_entry 42; conc_entry 43] ∧
    flat_repr (c_log c) (seq_log (view_ (c_log c)) [] order) (c_k c).
Proof.
  destruct (conc_check_run 18 true) as (c & Hr & Had & Har & Hid); [by vm_compute|].
  destruct (conc_append_linearizable 1000 [] small_log 0 2 c ltac:(done) ltac:(done) ltac:(done) small_quiet Hr Had
    (Hid eq_refl)) as (order & Hp & Hrep & _).
  exists c, order. split; [done|]. split; [by rewrite <- Har|done].
Defined.
