(* ===== verification/ConcFetch.v ===== *)
(** Fetching from a primary while its threads append: [FetchUnorderedEntries] of
    [src/dur_log/dur_log_flat_cli.cc] against the interleaved [AppendEntry] of
    [src/dur_log/dur_log_flat.cc].

    The flag of an entry keeps readers from entries that are not written yet: the server
    clears it in the request, so that [Serializer] writes it unset, and sets it when the
    entry is in place.  This does not cover the part of an entry past the end of the ring,
    which is copied to its start afterwards. *)

From S2P Require Import Prelude Props Sequencer LogEntry DurLogFlat FlatRing DlTransport FlatCli.
From S2P Require Import ConcAppend ConcInv ConcRun.

Local Open Scope Z_scope.

(** ** What a reader sees of the threads *)

(** A thread has reserved place [n] and not set the flag of its entry. *)
Definition unset (ts : list thread) (n : nat) : bool :=
  existsb (λ t, match t with
                | Reserved e _ _ | Written e _ _ _ => (Z.to_nat (log_idx e) =? n)%nat
                | _ => false
                end) ts.

(** No entry that is being written runs past the end of the ring. *)
Definition no_wrap (c : cstate) : Prop :=
  ∀ i t n e, c_threads c !! i = Some t → slot_of t = Some n → c_hist c !! n = Some e →
    pos (c_hist c) n mod rg_size_ (c_log c) + entry_size e ≤ rg_size_ (c_log c).

(** ** What can be decoded *)

Lemma unset_true ts n :
  unset ts n = true ↔ ∃ i t e, ts !! i = Some t ∧ Z.to_nat (log_idx e) = n ∧
    ((∃ seq off, t = Reserved e seq off) ∨ ∃ seq off z, t = Written e seq off z).
Proof.
  unfold unset. rewrite existsb_exists. split.
  - intros (t & Ht & Hn). apply list_elem_of_In, list_elem_of_lookup_1 in Ht as [i Hi].
    destruct t; try done; apply Nat.eqb_eq in Hn; eauto 12.
  - intros (i & t & e & Hi & Hn & Ht). exists t.
    split; [apply list_elem_of_In; by apply list_elem_of_lookup_2 with i|].
    destruct Ht as [(seq & off & ->)|(seq & off & z & ->)]; by apply Nat.eqb_eq.
Qed.

(** Up to where the entries are written. *)
Lemma first_unset ts k len :
  (k ≤ len)%nat →
  ∃ m, (k ≤ m ≤ len)%nat ∧ (∀ n, (k ≤ n < m)%nat → unset ts n = false) ∧ (m = len ∨ unset ts m = true).
Proof.
  intros Hk. induction Hk as [|len Hk (m & Hm & Hb & [->|He])].
  - exists k. split; [lia|]. split; [lia|by left].
  - destruct (unset ts len) eqn:Hu.
    + exists len. split; [lia|]. split; [done|by right].
    + exists (S len). split; [lia|]. split; [|by left]. intros n Hn.
      destruct (decide (n = len)) as [->|]; [done|]. apply Hb. lia.
  - exists m. split; [lia|]. split; [done|by right].
Qed.

Section Readable.
Context (M : Z) (HM : M ≤ SAFE_RG_SIZE + 4) (hist0 : list LogEntry) (c : cstate).
Context (Hinv : conc_inv M hist0 c) (Hnw : no_wrap c) (Hfl : Forall (λ e, flags e = 0) (c_arrived c)).

Let b := mem_rg_raw_ (c_log c).
Let rg := rg_size_ (c_log c).

(** A thread's entry has the flags of the request. *)
Lemma served_flags i t e : c_threads c !! i = Some t → served t = [sent_part e] → flags e = 0.
Proof.
  intros Hi Ht. destruct Hinv as [_ _ _ _ _ _ _ Hsv].
  assert (sent_part e ∈ sent_part <$> c_arrived c) as (x & Hx & Hin)%list_elem_of_fmap.
  { rewrite Hsv. apply elem_of_app. right. apply list_elem_of_bind. exists t.
    rewrite Ht, list_elem_of_singleton. split; [done|]. by apply list_elem_of_lookup_2 with i. }
  rewrite Forall_forall in Hfl. apply (f_equal flags) in Hx. etrans; [exact Hx|]. exact (Hfl x Hin).
Qed.

(** In a place that does not run past the ring the two ways of reading agree. *)
Lemma straight_ring s i n :
  0 < rg → 0 ≤ i → s mod rg + i + Z.of_nat n ≤ rg →
  peek (ring b rg) (s + i) n = peek (rd (bmem b)) (s mod rg + i) n.
Proof.
  intros Hrg Hi Hn. pose proof (Z.mod_pos_bound s rg Hrg). apply peek_ext. intros j Hj. unfold ring.
  rewrite <- Z.add_assoc, ring_place by lia. rewrite (proj2 (Z.ltb_lt _ _)) by lia. f_equal. lia.
Qed.

Lemma readable n e :
  c_hist c !! n = Some e → (c_k c ≤ n)%nat → unset (c_threads c) n = false →
  encoded_at (ring b rg) (pos (c_hist c) n) e.
Proof.
  intros He Hk Hu. pose proof Hinv as [_ Hmem _ _ _ _ _ _]. destruct (mem_rg_pos M HM _ _ _ _ Hmem) as [Hrg _].
  pose proof (entry_size_encode e) as Hz.
  assert (∀ i t, c_threads c !! i = Some t → slot_of t = Some n →
    encoded_at (rd (bmem b)) (pos (c_hist c) n mod rg) e → encoded_at (ring b rg) (pos (c_hist c) n) e) as Hst.
  { intros i t Hi Ht Henc. specialize (Hnw i t n e Hi Ht He). fold rg in Hnw.
    pose proof (straight_ring (pos (c_hist c) n) 0 (length (encode e)) Hrg ltac:(lia) ltac:(lia)) as Hp.
    rewrite !Z.add_0_r in Hp. unfold encoded_at. by rewrite Hp. }
  destruct (decide (Exists (λ t, slot_of t = Some n) (c_threads c))) as [Hex|Hex].
  - apply Exists_exists in Hex as (t & [i Hi]%list_elem_of_lookup_1 & Ht).
    pose proof (mi_flight _ _ _ _ _ Hmem i t Hi) as Hf. apply (Hst i t Hi Ht).
    destruct t as [| | |x seq off|x seq off z|x seq off z|]; simplify_eq/=.
    + exfalso. enough (unset (c_threads c) (Z.to_nat (log_idx x)) = true) by congruence.
      apply unset_true. eauto 12.
    + exfalso. enough (unset (c_threads c) (Z.to_nat (log_idx x)) = true) by congruence.
      apply unset_true. eauto 12.
    + destruct Hf as (Has & -> & Henc). pose proof Has as [_ Hh _ -> ->]. by simplify_eq.
  - apply (mi_done _ _ _ _ _ Hmem n e He Hk). intros i t Hi Ht. apply Hex. apply Exists_exists.
    exists t. split; [by apply list_elem_of_lookup_2 with i|done].
Qed.

Lemma unreadable n :
  unset (c_threads c) n = true → peek (ring b rg) (pos (c_hist c) n + FlagPos) 2 = le_bytes 2 0.
Proof.
  intros (i & t & e & Hi & <- & Ht)%unset_true. pose proof Hinv as [_ Hmem _ _ _ _ _ _].
  destruct (mem_rg_pos M HM _ _ _ _ Hmem) as [Hrg _]. pose proof (mi_flight _ _ _ _ _ Hmem i _ Hi) as Hf.
  assert (∃ seq off, at_slot rg (c_hist c) (c_k c) e seq off ∧ slot_of t = Some (Z.to_nat (log_idx e)) ∧
    peek (rd (bmem b)) (off + FlagPos) 2 = le_bytes 2 0) as (seq & off & Has & Hs & Hz).
  { destruct Ht as [(seq & off & ->)|(seq & off & z & ->)]; [by exists seq, off; destruct Hf|].
    destruct Hf as (Has & _ & Henc). exists seq, off. split; [done|]. split; [done|].
    apply peek_encode in Henc as (_ & _ & _ & _ & Hz & _). change FlagPos with 28. fold b in Hz. rewrite Hz.
    by rewrite (served_flags i _ e Hi eq_refl). }
  pose proof Has as [_ Hh _ -> ->]. specialize (Hnw i _ _ _ Hi Hs Hh).
  change (entry_size (set_flags e 1)) with (entry_size e) in Hnw. pose proof (entry_size_pos e).
  rewrite straight_ring; [done|done|done|]. unfold FlagPos. fold rg in Hnw. lia.
Qed.

Lemma readable_laid n (es : list LogEntry) :
  (c_k c ≤ n)%nat → es `prefix_of` drop n (c_hist c) →
  (∀ i, (n ≤ i < n + length es)%nat → unset (c_threads c) i = false) →
  laid (ring b rg) (pos (c_hist c) n) es.
Proof.
  revert n. induction es as [|e es IH]; intros n Hk [rest Hp] Hu; [done|].
  assert (c_hist c !! n = Some e) as He by (pose proof (lookup_drop (c_hist c) n 0) as Hl; rewrite Hp, Nat.add_0_r in Hl; done).
  simpl in *. split; [apply readable; [done|done|apply Hu; lia]|].
  rewrite <- (pos_S _ _ _ He). apply IH; [lia| |intros i Hi; apply Hu; lia].
  exists rest. rewrite (drop_S _ _ _ He) in Hp. by injection Hp.
Qed.
End Readable.

(** ** Theorems *)

Section Fetch.
Context (M : Z) (HM0 : 0 ≤ M) (HM : M ≤ SAFE_RG_SIZE + 4) (hist0 : list LogEntry) (c1 c2 : cstate).
Context (Hinv1 : conc_inv M hist0 c1) (Hinv2 : conc_inv M hist0 c2).
Context (HK : M * lenZ (c_threads c1) < 2 ^ 18) (Hrun : rtc cstep c1 c2) (Hk : c_k c2 = c_k c1).
Context (Hnw : no_wrap c2) (Hfl : Forall (λ e, flags e = 0) (c_arrived c2)).

Let k := c_k c1.
Let rg := rg_size_ (c_log c1).

(** Decoding a copy of the ring yields the entries before the first unset one. *)
Lemma decode_written es mr n m :
  (k ≤ m ≤ length (c_hist c1))%nat → (∀ i, (k ≤ i < m)%nat → unset (c_threads c2) i = false) →
  m = length (c_hist c1) ∨ unset (c_threads c2) m = true →
  0 ≤ n ≤ total_size (drop k (c_hist c1)) → n ≤ bcap mr →
  (∀ a, 0 ≤ a < n → rd (bmem mr) a = ring (mem_rg_raw_ (c_log c2)) rg (pos (c_hist c1) k + a)) →
  let got := take_fit n (take (m - k) (drop k (c_hist c1))) in
  MultiDeserializerMaxSize es mr 0 n = Some (es ++ got, total_size got).
Proof.
  intros Hm Hw He Hn Hcap Hmr got. destruct (run_mono _ _ Hrun) as (_ & _ & Hrg & [more Hh]).
  set (seg := take (m - k) (drop k (c_hist c1))).
  assert (length seg = (m - k)%nat) as Hlen by (unfold seg; rewrite length_take, length_drop; lia).
  pose proof (mi_k _ _ _ _ _ (ki_mem _ _ _ Hinv1)) as Hk1. fold k in Hk1.
  assert (pos (c_hist c1) k + total_size seg = pos (c_hist c1) m) as Hpm
    by (unfold pos, seg; by rewrite <- total_size_take_drop by lia).
  apply (MultiDeserializerMaxSize_ok (λ a, ring (mem_rg_raw_ (c_log c2)) rg (pos (c_hist c1) k + a)) seg); [| |lia| |done].
  - eapply laid_ext; [|apply (readable_laid M HM hist0 c2 Hinv2 Hnw k seg)].
    + intros i Hi. simpl. rewrite Hh, pos_app, Hrg by done. f_equal.
    + by rewrite Hk.
    + rewrite Hh, drop_app_le by done. unfold seg. etrans; [apply prefix_take|by apply prefix_app_r].
    + intros i Hi. apply Hw. lia.
  - apply Forall_take, Forall_drop, Forall_lookup. intros i e Hi.
    by apply (mi_entry _ _ _ _ _ (ki_mem _ _ _ Hinv1) i).
  - destruct He as [->|Hu].
    + left. unfold seg. rewrite take_ge by (rewrite length_drop; lia). lia.
    + right. rewrite <- (unreadable M HM hist0 c2 Hinv2 Hnw Hfl m Hu). rewrite Hrg, Hh, pos_app by lia. fold rg.
      apply peek_ext. intros j Hj. f_equal. lia.
Qed.
End Fetch.

(** C13. A fetch sees whole entries only.  Let threads append at the primary in any
    interleaving, also between the two RDMA reads of a fetch, and let no entry that is
    being written run past the end of the ring.  Then the fetch returns the unordered
    entries in their order, up to the first one that is reserved and whose flag is not
    set, as far as they fit; in particular no entry that is not written, and none that
    comes after it. *)
Theorem conc_fetch `{Rdma} M hist0 st k n c1 c2 cli es max :
  0 ≤ M → M ≤ SAFE_RG_SIZE + 4 → M * Z.of_nat n < 2 ^ 18 → quiet M hist0 st k →
  rtc cstep (mkC st (replicate n Idle) hist0 k [] []) c1 → rtc cstep c1 c2 → c_k c2 = c_k c1 →
  admissible M hist0 c2 → Forall (λ e, flags e = 0) (c_arrived c2) → no_wrap c2 →
  rg_size_ (c_log c1) < 2 ^ 32 → rg_size_ (c_log c1) ≤ bcap (mr_ cli) → 0 ≤ max < 2 ^ 32 →
  total_size (c_hist c1) + 2 ^ 32 ≤ 2 ^ 64 →
  ∃ m cli', (c_k c1 ≤ m ≤ length (c_hist c1))%nat ∧
    (∀ i, (c_k c1 ≤ i < m)%nat → unset (c_threads c2) i = false) ∧
    (m = length (c_hist c1) ∨ unset (c_threads c2) m = true) ∧
    let got := take_fit (window (total_size (drop (c_k c1) (c_hist c1))) max)
                 (take (m - c_k c1) (drop (c_k c1) (c_hist c1))) in
    FlatCli_FetchUnorderedEntries cli (mem_rg_raw_ (c_log c1)) (mem_rg_raw_ (c_log c2)) es max =
      Some (cli', es ++ with_marker (c_hist c1) (c_k c1) got, total_size got).
Proof.
  intros HM0 HM HK Hq Hr1 Hr2 Hk Had Hfl Hnw Hrg Hmr Hmax H64.
  pose proof (run_mono _ _ Hr1) as (Hlen & _). simpl in Hlen. rewrite length_replicate in Hlen.
  pose proof (run_inv M HM0 HM hist0 _ c1 Hr1 (quiet_inv M hist0 st k n Hq)
    ltac:(simpl; by rewrite length_replicate) (admissible_before M HM0 hist0 _ _ Hr2 Had)) as Hinv1.
  rewrite <- Hlen in HK. pose proof (run_inv M HM0 HM hist0 _ c2 Hr2 Hinv1 HK Had) as Hinv2.
  pose proof (ki_mem _ _ _ Hinv1) as Hmem. pose proof Hmem as []. destruct (mem_rg_pos M HM _ _ _ _ Hmem) as [Hrg0 _].
  pose proof (margin_room _ _ _ _ _ HM0 HK (ki_margin _ _ _ Hinv1) mi_rg) as Hroom.
  assert (total_size (c_hist c1) = pos (c_hist c1) (c_k c1) + total_size (drop (c_k c1) (c_hist c1))) as Hsp
    by (unfold pos; by rewrite <- total_size_app, take_drop).
  pose proof (total_size_nonneg (drop (c_k c1) (c_hist c1))) as Hnn.
  set (w := window (total_size (drop (c_k c1) (c_hist c1))) max).
  assert (0 ≤ w ≤ total_size (drop (c_k c1) (c_hist c1))) as Hw by (unfold w, window; case_zb; lia).
  destruct (first_unset (c_threads c2) (c_k c1) (length (c_hist c1)) mi_k) as (m & Hm & Hb & He).
  exists m. set (got := take_fit w (take (m - c_k c1) (drop (c_k c1) (c_hist c1)))).
  destruct (run_mono _ _ Hr2) as (_ & _ & Hrg2 & _).
  destruct (Fetch_gen cli (mem_rg_raw_ (c_log c1)) (mem_rg_raw_ (c_log c2)) (rg_size_ (c_log c1)) (c_hist c1)
    (c_k c1) 0 es max got) as (cli' & Hf & _ & _); rewrite ?Nat.max_0_r; try done.
  - rewrite <- Hrg2. by destruct (ki_mem _ _ _ Hinv2).
  - lia.
  - lia.
  - lia.
  - apply take_fit_size. fold w. lia.
  - intros mr Hmc Hm2. apply (decode_written M HM hist0 c1 c2 Hinv1 Hinv2 Hr2 Hk Hnw Hfl); done.
  - exists cli'. split_and!; try done; try lia. rewrite Nat.max_0_r in Hf. exact Hf.
Qed.

(** The run of two threads from [ConcRun]: both places are reserved at the first RDMA
    read; at the second both entries are written, and the flag of the first is set. *)
Definition no_wrapb (c : cstate) : bool :=
  forallb (λ t, match slot_of t with
                | Some n => match c_hist c !! n with
                            | Some e => pos (c_hist c) n mod rg_size_ (c_log c) + entry_size e <=? rg_size_ (c_log c)
                            | None => true
                            end
                | None => true
                end) (c_threads c).

Lemma no_wrapb_ok c : no_wrapb c = true → no_wrap c.
Proof.
  unfold no_wrapb. rewrite List.forallb_forall. intros Hb i t n e Hi Ht He.
  assert (In t (c_threads c)) as Hin by (apply list_elem_of_In; by apply list_elem_of_lookup_2 with i).
  specialize (Hb t Hin). simpl in Hb. rewrite Ht, He in Hb. by apply Z.leb_le.
Qed.

Definition fetch_check (as1 as2 : list action) : bool :=
  match exec as1 conc_start with
  | Some c1 =>
      match exec as2 c1 with
      | Some c2 =>
          (c_k c2 =? c_k c1)%nat && no_wrapb c2 && (rg_size_ (c_log c1) =? 2 ^ 20) && (rg_size_ (c_log c2) =? 2 ^ 20) &&
          bool_decide (c_arrived c2 = [conc_entry 42; conc_entry 43]) && (total_size (c_hist c1) =? 72)
      | None => false
      end
  | None => false
  end.

Lemma fetch_check_run as1 as2 :
  fetch_check as1 as2 = true →
  ∃ c1 c2, rtc cstep conc_start c1 ∧ rtc cstep c1 c2 ∧ c_k c2 = c_k c1 ∧ no_wrap c2 ∧
    rg_size_ (c_log c1) = 2 ^ 20 ∧ rg_size_ (c_log c2) = 2 ^ 20 ∧
    c_arrived c2 = [conc_entry 42; conc_entry 43] ∧ total_size (c_hist c1) = 72.
Proof.
  unfold fetch_check. destruct (exec as1 conc_start) as [c1|] eqn:H1; [|done].
  destruct (exec as2 c1) as [c2|] eqn:H2; [|done].
  intros [[[[[Hk%Nat.eqb_eq Hnw%no_wrapb_ok]%andb_true_iff Hrg1%Z.eqb_eq]%andb_true_iff Hrg2%Z.eqb_eq]%andb_true_iff
    Har%bool_decide_eq_true_1]%andb_true_iff Hts%Z.eqb_eq]%andb_true_iff.
  apply exec_run in H1. apply exec_run in H2. by exists c1, c2.
Qed.

Lemma conc_fetch_witness :
  ∃ c1 c2 m cli' got, rtc cstep conc_start c1 ∧ rtc cstep c1 c2 ∧ (c_k c1 ≤ m ≤ length (c_hist c1))%nat ∧
    FlatCli_FetchUnorderedEntries (H := Rdma_copy) test_flat_cli (mem_rg_raw_ (c_log c1)) (mem_rg_raw_ (c_log c2)) [] 0 =
      Some (cli', with_marker (c_hist c1) (c_k c1) got, total_size got).
Proof.
  destruct (fetch_check_run (take 10 conc_schedule) (take 3 (drop 10 conc_schedule)))
    as (c1 & c2 & H1 & H2 & Hk & Hnw & Hrg1 & Hrg2 & Har & Hts); [by vm_compute|].
  destruct (conc_fetch (H := Rdma_copy) 1000 [] small_log 0 2 c1 c2 test_flat_cli [] 0 ltac:(done) ltac:(done)
    ltac:(done) small_quiet H1 H2 Hk) as (m & cli' & Hm & _ & _ & Hf); rewrite ?Hrg1, ?Hts, ?Har; try done.
  - split; [rewrite Har; by repeat constructor|]. unfold fits. by rewrite Har, Hrg2.
  - by repeat constructor.
  - eexists c1, c2, m, cli', _. split_and!; try done; try apply Hm.
Defined.

(** ** An entry that crosses the end of the ring *)

Definition header_bytes (e : LogEntry) : list byte :=
  le_bytes 8 (client_id e) ++ le_bytes 8 (client_seq e) ++ le_bytes 8 (log_idx e) ++
  le_bytes 4 (size_ e) ++ le_bytes 2 (flags e) ++ le_bytes 2 (view e).

Definition with_data (e : LogEntry) (d : list byte) : LogEntry :=
  mkEntry (client_id e) (client_seq e) (log_idx e) (size_ e) (flags e) (view e) d.

Lemma encode_with_data e d : encode (with_data e d) = header_bytes e ++ d.
Proof. unfold encode, header_bytes. by rewrite <- !app_assoc. Qed.

Lemma length_header e : length (header_bytes e) = 32%nat.
Proof. unfold header_bytes. by rewrite !length_app, !length_le. Qed.

(** The first [m] bytes of the data of an encoded entry, and other bytes after them. *)
Lemma encoded_cut f g p q e m d :
  (m ≤ length (data e))%nat → encoded_at f p e → peek f p (32 + m) = peek g q (32 + m) →
  peek g (q + 32 + Z.of_nat m) (length d) = d → encoded_at g q (with_data e (take m (data e) ++ d)).
Proof.
  intros Hm He Hp Hd. unfold encoded_at in *. rewrite encode_with_data, app_assoc.
  pose proof (length_header e) as Hh.
  assert (encode e = (header_bytes e ++ take m (data e)) ++ drop m (data e)) as Henc
    by (rewrite <- app_assoc, take_drop, <- encode_with_data; by destruct e).
  rewrite Henc, length_app, peek_app in He. apply app_inj_1 in He as [He _]; [|by rewrite length_peek].
  rewrite length_app, length_take, Hh, Nat.min_l in He by done.
  rewrite length_app, length_app, length_take, Hh, Nat.min_l, peek_app by done. rewrite <- Hp, He. f_equal.
  rewrite <- Hd at 2. f_equal. lia.
Qed.

(** C33. The flag does not protect the part of an entry past the end of the ring.  It is set
    before that part is copied to the start of the ring: a fetch in between, which reads
    the bytes around the ring, accepts the entry with old bytes in place of the rest of
    its data. *)
Theorem wrapped_entry_torn st e e0 offset cp :
  let rg := rg_size_ st in let m := Z.to_nat (rg - offset - 32) in
  let rest := (length (data e) - m)%nat in
  wf_entry e → size_ e < 2 ^ 32 - 3 → 0 ≤ offset → offset + 32 ≤ rg < offset + 32 + lenZ (data e) →
  32 + lenZ (data e) ≤ rg → offset + entry_size e ≤ bcap (mem_rg_raw_ st) → entry_size e ≤ bcap cp →
  ∃ st1 st2, append_write st e offset = Some (st1, entry_size e) ∧ append_flag st1 offset = Some st2 ∧
    ((∀ a, 0 ≤ a < 32 + lenZ (data e) → rd (bmem cp) a = ring (mem_rg_raw_ st2) rg (offset + a)) →
     Deserializer e0 cp 0 = Some (with_data (set_flags e 1)
       (take m (data e) ++ peek (rd (bmem (mem_rg_raw_ st))) 0 rest), entry_size e)).
Proof.
  intros rg m rest Hwf Hsz Ho Hrg Hfit Hcap Hcp. pose proof (entry_size_encode e) as Hes.
  pose proof (length_encode e) as Hle. unfold append_write, append_flag, SetFlag, store_int.
  rewrite Serializer_ok by (done || lia). cbn [mbind option_bind].
  eexists _, _. split; [done|]. cbn [with_mem mem_rg_raw_]. change (offset + FlagPos) with (offset + 28).
  rewrite store_ok by (rewrite ?length_le; simpl; lia).
  cbn [mbind option_bind]. split; [done|]. intros Hcopy.
  cbn [with_mem mem_rg_raw_] in Hcopy.
  set (d := peek (rd (bmem (mem_rg_raw_ st))) 0 rest).
  set (mem := poke (poke (bmem (mem_rg_raw_ st)) offset (encode e)) (offset + 28) (le_bytes 2 1)).
  assert (length d = rest) as Hd by apply length_peek.
  assert (encoded_at (rd mem) offset (set_flags e 1)) as Henc
    by (apply (encoded_at_set_flag _ _ e), peek_poke_same).
  assert (encoded_at (rd (bmem cp)) 0 (with_data (set_flags e 1) (take m (data e) ++ d))) as Hcut.
  { apply (encoded_cut (rd mem) _ offset 0 (set_flags e 1) m d); [simpl; lia|done| |].
    - apply peek_ext. intros i Hi. rewrite Hcopy by lia. unfold ring. change (bmem (bpoke _ _ _)) with mem.
      rewrite Z.mod_small by lia. done.
    - rewrite Hd. apply peek_ext. intros i Hi. rewrite Hcopy by lia. unfold ring. change (bmem (bpoke _ _ _)) with mem.
      replace (offset + (0 + 32 + Z.of_nat m + i)) with (i + 1 * rg) by lia. rewrite Z.mod_add, Z.mod_small by lia.
      unfold mem. rewrite !rd_poke_out by (rewrite ?length_le; lia). f_equal. }
  assert (length (take m (data e) ++ d) = length (data e)) as Hlen by (rewrite length_app, length_take; lia).
  assert (entry_size (with_data (set_flags e 1) (take m (data e) ++ d)) = entry_size e) as Hes'
    by (unfold entry_size; simpl; by rewrite Hlen).
  pose proof (entry_size_encode (with_data (set_flags e 1) (take m (data e) ++ d))). rewrite <- Hes'.
  apply Deserializer_ok; [|done|lia|exact Hcut].
  unfold valid_entry, wf_entry in *. simpl. rewrite Hlen. destruct Hwf as (? & ? & ? & ? & ? & ? & ?). repeat split; lia || done.
Qed.

(** Eight bytes of data, four of them past the end of a ring of 64 bytes. *)
Definition torn_log : FlatLog := mkFlat true true 0 64 0 (Buf 128 ∅) ∅ ∅ [].
Definition torn_entry : LogEntry :=
  mkEntry 42 0 0 8 0 0 [Byte.x61; Byte.x62; Byte.x63; Byte.x64; Byte.x65; Byte.x66; Byte.x67; Byte.x68].
Definition torn_data : list byte :=
  [Byte.x61; Byte.x62; Byte.x63; Byte.x64; Byte.x00; Byte.x00; Byte.x00; Byte.x00].
Definition torn_copy : buffer := msg_buf (header_bytes (set_flags torn_entry 1) ++ torn_data).

Definition torn_check : bool :=
  match append_write torn_log torn_entry 28 with
  | Some (st1, _) =>
      match append_flag st1 28 with
      | Some st2 => forallb (λ a, Byte.eqb (rd (bmem torn_copy) a) (ring (mem_rg_raw_ st2) 64 (28 + a)))
                      (seqZ 0 40)
      | None => false
      end
  | None => false
  end.

Lemma wrapped_entry_torn_witness :
  ∃ st1 st2 cp, append_write torn_log torn_entry 28 = Some (st1, 40) ∧
    append_flag st1 28 = Some st2 ∧
    (∀ a, 0 ≤ a < 40 → rd (bmem cp) a = ring (mem_rg_raw_ st2) 64 (28 + a)) ∧
    Deserializer torn_entry cp 0 = Some (with_data (set_flags torn_entry 1) torn_data, 40).
Proof.
  assert (torn_check = true) as Hc by (by vm_compute).
  assert (wf_entry torn_entry) as Hwf by (by apply (bool_decide_unpack (wf_entry _)); vm_compute).
  destruct (wrapped_entry_torn torn_log torn_entry torn_entry 28 torn_copy Hwf) as (st1 & st2 & Hw & Hf & Hd); [by vm_compute..|].
  exists st1, st2, torn_copy. unfold torn_check in Hc. rewrite Hw, Hf, List.forallb_forall in Hc.
  assert (∀ a, 0 ≤ a < 40 → rd (bmem torn_copy) a = ring (mem_rg_raw_ st2) 64 (28 + a)) as Hcopy.
  { intros a Ha. apply Byte.byte_dec_bl, Hc, list_elem_of_In, elem_of_seqZ. lia. }
  split; [exact Hw|]. split; [exact Hf|]. split; [exact Hcopy|]. exact (Hd Hcopy).
Defined.
