(* ===== verification/Replica.v ===== *)
(** A replica of the durability log in service: the invariant that holds of it whatever
    append and garbage collection requests it has handled. *)

From S2P Require Import Prelude Props Sequencer LogEntry DurLogFlat FlatRing.
From S2P Require Import FlatGC DlTransport FlatCli.

Local Open Scope Z_scope.

(** Entries small enough for the message buffers to take a stripe unit of them. *)
Definition small_entries (M : Z) (es : list LogEntry) : Prop := Forall (λ e, entry_size e ≤ M) es.

Lemma small_entries_total M es : small_entries M es → total_size es ≤ M * lenZ es.
Proof. induction 1; simpl; lia. Qed.

(** A message from which the receiver reads [e]. *)
Definition carries (e : LogEntry) (bs : list byte) : Prop :=
  ∀ e0, Deserializer e0 (msg_buf bs) 0 = Some (e, entry_size e).

Definition carries_ids (ids : list ReqID) (bs : list byte) : Prop :=
  ∀ acc, ReqIdDeserializer acc (msg_buf bs) 0 = Some (acc ++ ids, 4 + 16 * lenZ ids).

(** What clients may append. *)
Definition request_ok (M : Z) (e : LogEntry) : Prop := valid_entry e ∧ entry_size e ≤ M.

#[export] Instance request_ok_dec M e : Decision (request_ok M e).
Proof. unfold request_ok. apply _. Defined.

(** Positions in the log, or none. *)
Definition positions_ok (reqs : gmap ReqID Z) (n : Z) : Prop :=
  ∀ rid, default 0 (reqs !! rid) = 0 ∨ 0 ≤ default 0 (reqs !! rid) < n.

Record replica (M : Z) (st : FlatLog) (hist : list LogEntry) (k : nat) : Prop := {
  rp_flat : flat_repr st hist k;
  rp_wait : wait_ st = true;
  rp_rg : 2 ^ 18 ≤ rg_size_ st < 2 ^ 32;
  rp_cnt : 0 < idx_map_elem_cnt_ st;
  rp_len : lenZ hist < 2 ^ 32;
  rp_small : small_entries M hist;
  rp_reqs : positions_ok (reqid_to_seq_map_ st) (total_size hist);
  rp_pending : (length (pending_entries_ st) ≤ k)%nat;
  rp_room : total_size (drop k hist) ≤ rg_size_ st - 2 ^ 18
}.

Lemma total_size_drop_le i j (es : list LogEntry) :
  (i ≤ j)%nat → total_size (drop j es) ≤ total_size (drop i es).
Proof.
  intros Hij. pose proof (total_size_split i es). pose proof (total_size_split j es).
  pose proof (total_size_mono i j es Hij). lia.
Qed.

Section Replica.
Context `{Erpc} (M : Z) (HM : M ≤ SAFE_RG_SIZE + 4).

Lemma replica_total st hist k : replica M st hist k → total_size hist < 2 ^ 46.
Proof.
  intros Hr. pose proof (small_entries_total _ _ (rp_small _ _ _ _ Hr)).
  pose proof (rp_len _ _ _ _ Hr). unfold SAFE_RG_SIZE, PAGE_SIZE in HM. nia.
Qed.

Lemma max_position_bound reqs ids z n :
  positions_ok reqs n → 0 ≤ z < n → 0 ≤ max_position reqs ids z < n.
Proof.
  intros Hp. unfold max_position. revert z. induction ids as [|rid ids IH]; intros z Hz; simpl; [done|].
  apply IH. destruct (Hp rid); lia.
Qed.

(** Appending. *)
Lemma replica_append resp st hist k e bs :
  replica M st hist k → carries e bs → request_ok M e → lenZ hist + 1 < 2 ^ 32 → 8 ≤ bcap resp →
  if total_size (drop k hist) + entry_size e <? rg_size_ st - 2 ^ 18
  then ∃ st', AppendEntryHandler resp st bs = Ok (st', le_bytes 8 (total_size hist)) ∧
       replica M st' (hist ++ [stored e (lenZ hist) (view_ st)]) k ∧ same_config st st'
  else AppendEntryHandler resp st bs = Blocked.
Proof.
  intros Hr Hc [Hv Hsm] Hlen Hresp. pose proof (replica_total _ _ _ Hr) as Htot.
  pose proof (rp_flat _ _ _ _ Hr) as Hf. pose proof (rp_rg _ _ _ _ Hr). pose proof (entry_size_pos e).
  assert (wf_entry (set_flags e 0)) as Hwf by (destruct Hv as [Hwf _]; unfold wf_entry in *; simpl; lia).
  assert (entry_size (set_flags e 0) = entry_size e) as Hes by done.
  unfold SAFE_RG_SIZE, PAGE_SIZE in HM.
  assert (waitForPlace st (entry_size e) = (total_size (drop k hist) + entry_size e <? rg_size_ st - 2 ^ 18))
    as Hwp by (apply waitForPlace_room; (done || lia || apply Hr)).
  pose proof (AppendEntry_spec st hist k (set_flags e 0) Hf (rp_wait _ _ _ _ Hr) ltac:(lia) Hwf ltac:(sizes)
    ltac:(lia) ltac:(lia) (λ _, rp_cnt _ _ _ _ Hr)) as Happ.
  unfold AppendEntryHandler. rewrite Hc. cbn [lift mbind outcome_bind].
  rewrite Hes in Happ. destruct (Z.ltb_spec (total_size (drop k hist) + entry_size e) (rg_size_ st - 2 ^ 18)).
  - assert (appendable st hist k (set_flags e 0)) as Ha.
    { split; rewrite ?Hes, ?Hwp; try done; try sizes. intros _. apply Hr. }
    rewrite (AppendEntry_ok st hist k _ Hf Ha). cbn [mbind outcome_bind].
    rewrite respond_u64_ok by done. cbn [lift mbind outcome_bind]. eexists. split; [done|]. split; [|done].
    pose proof (flat_repr_appended st hist k _ Hf Ha) as Hf'.
    change (stored (set_flags e 0) (lenZ hist) (view_ st)) with (stored e (lenZ hist) (view_ st)) in Hf'.
    destruct Hr. split; try done.
    + rewrite length_app. simpl. lia.
    + apply Forall_app_2; [done|]. by apply Forall_singleton.
    + intros rid. rewrite total_size_app. simpl. pose proof (total_size_nonneg hist).
      change (entry_size (stored e _ _)) with (entry_size e).
      destruct (is_primary_ st).
      * destruct (rp_reqs0 rid); lia.
      * destruct (decide ((client_id e, client_seq e) = rid)) as [<-|Hne].
        -- rewrite lookup_insert_eq. simpl. rewrite (fr_seq _ _ _ Hf). lia.
        -- rewrite lookup_insert_ne by done. destruct (rp_reqs0 rid); lia.
    + simpl. rewrite drop_app_le, total_size_app by apply Hf. simpl.
      change (entry_size (stored e _ _)) with (entry_size e). lia.
  - by rewrite Happ.
Qed.

(** Collecting on a backup. *)
Lemma replica_delete resp st hist k ids bs :
  replica M st hist k → is_primary_ st = false → carries_ids ids bs → hist ≠ [] → 8 ≤ bcap resp →
  let climap := client_max ids ∅ in
  ∃ st' n j, DeleteOrderedEntriesHandler resp st bs = Ok (st', le_bytes 8 n) ∧
    replica M st' hist (k + j) ∧ same_config st st' ∧
    pending_entries_ st' = not_ordered climap (pending_entries_ st ++ take j (drop k hist)).
Proof.
  intros Hr Hp Hc Hne Hresp climap. pose proof (rp_flat _ _ _ _ Hr) as Hf.
  assert (0 < total_size hist) as Hpos.
  { destruct hist as [|e hist']; [done|]. simpl. pose proof (entry_size_pos e).
    pose proof (total_size_nonneg hist'). lia. }
  destruct (max_position_bound (reqid_to_seq_map_ st) ids 0 (total_size hist)) as [_ Hmx];
    [apply Hr|lia|].
  destruct (DelOrderedEntries_backup st hist k ids Hf Hp Hmx) as (st' & Hdel & Hf' & Hpend & Hcfg & Hreqs).
  { pose proof (rp_pending _ _ _ _ Hr). pose proof (rp_len _ _ _ _ Hr). pose proof (fr_k _ _ _ Hf).
    rewrite length_drop. lia. }
  set (cov := covered _ _ _) in *. fold climap in Hdel, Hpend.
  unfold DeleteOrderedEntriesHandler. rewrite Hc. cbn [lift mbind outcome_bind app]. rewrite Hdel.
  cbn [mbind outcome_bind]. rewrite respond_u64_ok by done. cbn [lift mbind outcome_bind].
  eexists _, _, (length cov). split; [done|].
  assert (take (length cov) (drop k hist) = cov) as -> by (symmetry; apply covered_take).
  split; [|done]. destruct Hr, Hcfg as (Hc1 & Hc2 & Hc3 & Hc4 & Hc5). split; try done; try congruence.
  - intros rid. destruct (Hreqs rid) as [->| ->]; [by left|apply rp_reqs0].
  - rewrite Hpend. unfold not_ordered.
    pose proof (List.filter_length_le (λ e, negb (is_ordered climap e)) (pending_entries_ st ++ cov)) as Hle.
    rewrite length_app in Hle. lia.
  - rewrite Hc4. pose proof (total_size_drop_le k (k + length cov) hist ltac:(lia)). lia.
Qed.

(** A backup without entries waits for its first one. *)
Lemma replica_delete_empty resp st k ids bs :
  replica M st [] k → is_primary_ st = false → carries_ids ids bs →
  GetFlagFromBuf (mem_rg_raw_ st) 0 ≠ Some 1 → DeleteOrderedEntriesHandler resp st bs = Blocked.
Proof.
  intros Hr Hp Hc Hflag. pose proof (rp_flat _ _ _ _ Hr) as Hf.
  assert (max_position (reqid_to_seq_map_ st) ids 0 = 0) as Hmx.
  { pose proof (max_position_bound (reqid_to_seq_map_ st) ids 0 1) as Hb.
    assert (positions_ok (reqid_to_seq_map_ st) 1) as Hpos; [|specialize (Hb Hpos); lia].
    intros rid. left. destruct (rp_reqs _ _ _ _ Hr rid) as [|Hlt]; [done|]. simpl in Hlt. lia. }
  pose proof (rp_rg _ _ _ _ Hr) as Hrg. pose proof (fr_wm _ _ _ Hf) as Hwm. rewrite take_nil in Hwm.
  unfold DeleteOrderedEntriesHandler. rewrite Hc. cbn [lift mbind outcome_bind app].
  unfold DelOrderedEntries. rewrite Hp. unfold delEntriesBackup.
  destruct (collect_max_ok ids (reqid_to_seq_map_ st) ∅ 0) as (reqs' & -> & _). rewrite Hmx.
  destruct (drop_pending _ _ 0) as [pend n_del]. unfold ordered_watermk_ in *.
  cbn [with_pending with_reqids mem_rg_raw_ rg_size_]. rewrite Hwm. simpl total_size.
  destruct (Z.eqb_spec (rg_size_ st) 0); [lia|].
  assert (∃ f, GetFlagFromBuf (mem_rg_raw_ st) 0 = Some f) as [f Hfl].
  { eexists. apply load_int_ok; [done|]. rewrite (fr_cap _ _ _ Hf). sizes. }
  change (gc_loop (entries_fuel (0 - 0))) with (gc_loop 1%nat). cbn [gc_loop]. rewrite Z.leb_refl. cbn [with_pending with_reqids mem_rg_raw_ rg_size_].
  rewrite Zmod_0_l, Hfl. cbn [lift mbind outcome_bind]. destruct (Z.eqb_spec f 1); [congruence|done].
Qed.

(** Collecting on the primary. *)
Lemma replica_collect `{Rdma} c st hist k k' :
  replica M st hist k → (k ≤ k' ≤ length hist)%nat →
  0 ≤ mr_offset_for_gc_ c → mr_offset_for_gc_ c + 16 ≤ bcap (mr_ c) →
  staged c (total_size (take k' hist)) (Z.of_nat k') →
  ∃ remote, write_watermarks c (mem_rg_raw_ st) = Some remote ∧ replica M (with_mem st remote) hist k' ∧
    same_config st (with_mem st remote).
Proof.
  intros Hr Hk Ho Hcap Hs.
  destruct (write_watermarks_ok c st hist k k' (rp_flat _ _ _ _ Hr) Hk) as (remote & Hw & Hf');
    [apply Hr|done..|].
  exists remote. split; [done|]. split; [|done]. destruct Hr. split; try done; simpl; [lia|].
  pose proof (total_size_drop_le k k' hist ltac:(lia)). lia.
Qed.
End Replica.

(** The backup of [FlatGC], as a witness. *)
Lemma two_entries_replica : replica 1000 two_entries two_hist 0.
Proof.
  split; try done; [apply two_entries_repr|repeat constructor; by vm_compute|].
  intros rid. assert (reqid_to_seq_map_ two_entries = <[(43, 9) := 36]> (<[(42, 7) := 0]> ∅)) as ->
    by (by vm_compute).
  destruct (decide ((43, 9) = rid)) as [<-|Hne]; [right; by vm_compute|]. rewrite lookup_insert_ne by done.
  destruct (decide ((42, 7) = rid)) as [<-|Hne']; [left; by vm_compute|]. by rewrite lookup_insert_ne by done; left.
Qed.

(** ** A region that is not zero *)

(** [posix_memalign] does not clear the region.  A backup without entries whose region
    happens to have the flag set at its beginning does not wait: the request collects an
    entry that no one has appended, and the watermark passes the end of the log. *)
Example empty_backup_collects_garbage :
  match Initialize small_props (<[28 := Byte.x01]> ∅) with
  | Some st =>
      match DelOrderedEntries st [(42, 7)] with
      | Ok (st, n_del) => sequencer_ st = 0 ∧ ordered_watermk_ st = 32 ∧ ordered_idx_watermk_ st = 1 ∧ n_del = 1
      | _ => False
      end
  | None => False
  end.
Proof. by vm_compute. Qed.
