(* ===== verification/Links.v ===== *)
(** Connections to the replicas of the durability log, and the append requests that
    reach the replicas.

    Both the consensus log and a client hold one connection per replica; [Replicated]
    is what the requests of other clients need to know of it. *)

From stdpp Require Import strings.
From S2P Require Import Prelude Props Sequencer LogEntry DurLogFlat FlatRing DlTransport Replica.

Local Open Scope Z_scope.

(** A connection gives access to the replica at its other end and to the replica's
    response buffer. *)
Class Replicated (L : Type) : Type := {
  r_svr : L → FlatLog;
  r_resp : L → buffer;
  r_set : L → FlatLog → L
}.

(** [dur_cli_] and [dur_clis_], an [unordered_map], in the order of its iteration. *)
Abbreviation Conns L := (list (string * L)).

Section Conns.
Context {L : Type}.

Fixpoint link_at (d : string) (ls : Conns L) : option L :=
  match ls with
  | [] => None
  | (d', l) :: ls => if streq d d' then Some l else link_at d ls
  end.

Fixpoint link_set (d : string) (l : L) (ls : Conns L) : Conns L :=
  match ls with
  | [] => []
  | (d', l') :: ls => if streq d d' then (d', l) :: ls else (d', l') :: link_set d l ls
  end.

Context `{Replicated L, Erpc}.

(** A replica handles an append request; without room the request waits. *)
Definition serve_append (l : L) (bs : list byte) : outcome L :=
  match AppendEntryHandler (r_resp l) (r_svr l) bs with
  | Ok (st, _) => Ok (r_set l st)
  | Blocked => Ok l
  | Fault => Fault
  end.

(** Requests in the order in which they are handled, each at one of the replicas. *)
Fixpoint serve (reqs : list (string * list byte)) (ls : Conns L) : outcome (Conns L) :=
  match reqs with
  | [] => Ok ls
  | (d, bs) :: reqs =>
      match link_at d ls with
      | None => serve reqs ls
      | Some l => l ← serve_append l bs; serve reqs (link_set d l ls)
      end
  end.
End Conns.

(** ** Finding a connection *)

Lemma streq_spec a b : BoolSpec (a = b) (a ≠ b) (streq a b).
Proof. apply String.eqb_spec. Qed.

Lemma streq_refl a : streq a a = true.
Proof. apply String.eqb_refl. Qed.

Lemma link_at_idx {L} (ls : Conns L) i d l :
  NoDup ls.*1 → ls !! i = Some (d, l) →
  link_at d ls = Some l ∧ ∀ l', link_set d l' ls = <[i := (d, l')]> ls.
Proof.
  revert i. induction ls as [|[d0 l0] ls IH]; intros [|i] Hnd Hi; simpl in *; try done.
  - simplify_eq. by rewrite streq_refl.
  - apply NoDup_cons in Hnd as [Hd0 Hnd]. destruct (streq_spec d d0) as [->|Hne].
    + exfalso. apply Hd0, list_elem_of_fmap. exists (d0, l). split; [done|].
      by apply list_elem_of_lookup_2 in Hi.
    + destruct (IH i Hnd Hi) as [Hat Hset]. split; [done|]. intros l'. by rewrite Hset.
Qed.

Lemma link_at_lookup {L} d (ls : Conns L) l :
  link_at d ls = Some l → ∃ i, ls !! i = Some (d, l) ∧ ∀ l', link_set d l' ls = <[i := (d, l')]> ls.
Proof.
  induction ls as [|[d0 l0] ls IH]; simpl; [done|]. destruct (streq_spec d d0) as [->|Hne].
  - intros [= ->]. by exists 0%nat.
  - intros (i & Hi & Hset)%IH. exists (S i). split; [done|]. intros l'. by rewrite Hset.
Qed.

Lemma insert_keys {L} (ls : Conns L) i d l l' : ls !! i = Some (d, l) → (<[i := (d, l')]> ls).*1 = ls.*1.
Proof.
  intros Hi. rewrite list_fmap_insert. apply list_insert_id. by rewrite list_lookup_fmap, Hi.
Qed.

(** ** The abstract state *)

(** The abstract state of a replica. *)
Abbreviation Ghost := (list LogEntry * nat)%type.

(** Appends add to the log; garbage collection advances the number. *)
Definition grown (g g' : Ghost) : Prop := g.1 `prefix_of` g'.1 ∧ g'.2 = g.2.
Definition evolved (g g' : Ghost) : Prop := g.1 `prefix_of` g'.1 ∧ (g.2 ≤ g'.2)%nat.

#[export] Instance grown_refl : Reflexive grown.
Proof. by split. Qed.
#[export] Instance grown_trans : Transitive grown.
Proof. intros g1 g2 g3 [H1 H2] [H3 H4]. split; [by etrans|congruence]. Qed.
#[export] Instance evolved_refl : Reflexive evolved.
Proof. by split. Qed.
#[export] Instance evolved_trans : Transitive evolved.
Proof. intros g1 g2 g3 [H1 H2] [H3 H4]. split; [by etrans|lia]. Qed.

(** At most [n] appends. *)
Definition grown_by (n : nat) (g g' : Ghost) : Prop :=
  grown g g' ∧ (length g'.1 ≤ length g.1 + n)%nat.

#[export] Instance grown_by_refl n : Reflexive (grown_by n).
Proof. intros g. split; [done|]. lia. Qed.

Lemma grown_by_trans n m g1 g2 g3 : grown_by n g1 g2 → grown_by m g2 g3 → grown_by (n + m) g1 g3.
Proof. intros [H1 L1] [H2 L2]. split; [by etrans|lia]. Qed.

Lemma grown_by_all_trans n m gs1 gs2 gs3 :
  Forall2 (grown_by n) gs1 gs2 → Forall2 (grown_by m) gs2 gs3 → Forall2 (grown_by (n + m)) gs1 gs3.
Proof.
  intros Hgs. revert gs3. induction Hgs; intros gs3 Hgs3; inversion Hgs3; subst; constructor;
    eauto using grown_by_trans.
Qed.

Lemma grown_by_weaken n m g g' : (n ≤ m)%nat → grown_by n g g' → grown_by m g g'.
Proof. intros Hnm [H1 L1]. split; [done|lia]. Qed.

Lemma grown_evolved g g' : grown g g' → evolved g g'.
Proof. intros [? Hk]. split; [done|]. by rewrite Hk. Qed.

(** The clients of the system. *)
Definition from_clients (clients : list Z) (es : list LogEntry) : Prop :=
  Forall (λ e, client_id e ∈ clients) es.

Definition message_ok (M : Z) (clients : list Z) (bs : list byte) : Prop :=
  ∃ e, carries e bs ∧ request_ok M e ∧ client_id e ∈ clients.

Definition budget (n : nat) (gs : list Ghost) : Prop := Forall (λ g, lenZ g.1 + Z.of_nat n < 2 ^ 32) gs.

(** How many requests a schedule has. *)
Definition arrivals (sched : nat → list (string * list byte)) (i n : nat) : nat :=
  sum_list_with (λ j, length (sched j)) (seq i n).

Lemma budget_same n gs gs' : gs'.*1 = gs.*1 → budget n gs → budget n gs'.
Proof.
  intros Heq Hb. apply (Forall_fmap fst (λ h, lenZ h + Z.of_nat n < 2 ^ 32)). rewrite Heq.
  by apply (Forall_fmap fst (λ h, lenZ h + Z.of_nat n < 2 ^ 32)).
Qed.

Lemma budget_weaken n m gs : (m ≤ n)%nat → budget n gs → budget m gs.
Proof. intros Hm Hb. eapply List.Forall_impl; [|exact Hb]. simpl. intros; lia. Qed.

Lemma prefix_take (hist hist' : list LogEntry) k :
  hist `prefix_of` hist' → (k ≤ length hist)%nat → take k hist' = take k hist.
Proof. intros [more ->] Hk. by apply take_app_le. Qed.

Lemma budget_grown n m gs gs' :
  Forall2 (grown_by n) gs gs' → budget (n + m) gs → budget m gs'.
Proof.
  induction 1 as [|g g' gs gs' [_ Hl] _ IH]; intros Hb; [constructor|].
  apply Forall_cons in Hb as [Hg Hb]. constructor; [lia|by apply IH].
Qed.

Section Serve.
Context {L : Type} `{Replicated L, Erpc} (M : Z) (clients : list Z).
Context (HM : M ≤ SAFE_RG_SIZE + 4).

(** A family of invariants that appends preserve; the index counts the requests that
    may still arrive. *)
Record append_inv (inv : nat → string → L → Ghost → Prop) : Prop := {
  ai_replica : ∀ n d l g, inv n d l g → replica M (r_svr l) g.1 g.2;
  ai_resp : ∀ n d l g, inv n d l g → 8 ≤ bcap (r_resp l);
  ai_len : ∀ n d l g, inv (S n) d l g → lenZ g.1 + 1 < 2 ^ 32;
  ai_weaken : ∀ n d l g, inv (S n) d l g → inv n d l g;
  ai_append : ∀ n d l st hist k e, inv (S n) d l (hist, k) → same_config (r_svr l) st →
    replica M st (hist ++ [e]) k → client_id e ∈ clients → inv n d (r_set l st) (hist ++ [e], k)
}.

Context (inv : nat → string → L → Ghost → Prop) (Hinv : append_inv inv).

Lemma serve_append_ok n d l g bs :
  inv (S n) d l g → message_ok M clients bs →
  ∃ l' g', serve_append l bs = Ok l' ∧ inv n d l' g' ∧ grown_by 1 g g'.
Proof.
  intros Hl (e & Hc & Hreq & Hcli). destruct g as [hist k].
  pose proof (replica_append M HM (r_resp l) (r_svr l) hist k e bs (ai_replica _ Hinv _ _ _ _ Hl) Hc Hreq
    (ai_len _ Hinv _ _ _ _ Hl) (ai_resp _ Hinv _ _ _ _ Hl)) as Happ.
  unfold serve_append. destruct (_ <? _).
  - destruct Happ as (st' & -> & Hr' & Hcfg).
    exists (r_set l st'), (hist ++ [stored e (lenZ hist) (view_ (r_svr l))], k).
    split; [done|]. split; [by apply (ai_append _ Hinv)|]. split; [split; [by eexists|done]|].
    simpl. by rewrite length_app.
  - rewrite Happ. exists l, (hist, k). split; [done|]. split; [by apply (ai_weaken _ Hinv)|].
    split; [done|]. lia.
Qed.

Lemma serve_ok n reqs ls gs :
  Forall2 (λ dl g, inv (length reqs + n) dl.1 dl.2 g) ls gs → Forall (λ r, message_ok M clients r.2) reqs →
  ∃ ls' gs', serve reqs ls = Ok ls' ∧ Forall2 (λ dl g, inv n dl.1 dl.2 g) ls' gs' ∧ ls'.*1 = ls.*1 ∧
    Forall2 (grown_by (length reqs)) gs gs'.
Proof.
  revert ls gs. induction reqs as [|[d bs] reqs IH]; intros ls gs Hls Hmsg; cbn [serve].
  { exists ls, gs. split; [done|]. split; [done|]. split; [done|]. reflexivity. }
  apply Forall_cons in Hmsg as [Hmsg Hmsgs]. simpl in Hmsg.
  assert (Forall2 (λ dl g, inv (length reqs + n) dl.1 dl.2 g) ls gs) as Hls1
    by (eapply Forall2_impl; [exact Hls|]; intros dl g; apply (ai_weaken _ Hinv)).
  destruct (link_at d ls) as [l|] eqn:Hat; cycle 1.
  { destruct (IH ls gs Hls1 Hmsgs) as (ls' & gs' & -> & Hls' & Hk & Hg).
    exists ls', gs'. split; [done|]. split; [done|]. split; [done|].
    eapply Forall2_impl; [exact Hg|]. intros g g'. apply grown_by_weaken. simpl. lia. }
  destruct (link_at_lookup _ _ _ Hat) as (i & Hi & Hset).
  destruct (Forall2_lookup_l _ _ _ _ _ Hls Hi) as (g & Hg & Hl). simpl in Hl.
  destruct (serve_append_ok _ d l g bs Hl Hmsg) as (l' & g' & -> & Hl' & Hgr).
  cbn [mbind outcome_bind]. rewrite Hset.
  destruct (IH (<[i := (d, l')]> ls) (<[i := g']> gs)) as (ls' & gs' & -> & Hls' & Hk & Hgs);
    [by apply Forall2_insert|done|].
  exists ls', gs'. split; [done|]. split; [done|]. rewrite Hk, (insert_keys _ _ _ _ _ Hi).
  split; [done|]. apply (grown_by_all_trans 1 (length reqs) _ (<[i := g']> gs)); [|done].
  rewrite <- (list_insert_id gs i g) at 1 by done. apply Forall2_insert; [reflexivity|done].
Qed.
End Serve.
