(* ===== verification/ShardServer.v ===== *)
(** A data shard: [src/cons_log/storage/shard_server.cc] (the build without CORFU).

    A shard keeps the entries of its residue class in stripe units: one vector per unit
    in memory and one data file per unit.  Its primary receives batches from the
    consensus log, sends them on to its backups, and serves reads. *)

From stdpp Require Import strings pretty.
From S2P Require Import Prelude Props Sequencer LogEntry DlTransport.

Local Open Scope Z_scope.

(** ** Files *)

(** An open file: its path, position and whether it may be written. *)
Record OpenFile : Type := mkOpen { of_path : string; of_pos : Z; of_write : bool }.

Record Os : Type := mkOs {
  files : gmap string (list byte);
  fds : gmap Z OpenFile
}.

(** What the kernel decides: which descriptor [open] returns, whether a file can be
    created, and how many of [n] bytes a [write] takes. *)
Class Posix : Type := {
  fd_alloc : gmap Z OpenFile → Z;
  may_create : string → bool;
  write_len : Z → Z;
  fd_alloc_fresh : ∀ m, m !! fd_alloc m = None;
  fd_alloc_std : ∀ m, 3 ≤ fd_alloc m;
  write_len_range : ∀ n, 0 ≤ n → 0 ≤ write_len n ≤ n
}.

Definition max_fd (m : gmap Z OpenFile) : Z := map_fold (λ k _ z, Z.max k z) 2 m.

Lemma max_fd_ge m k : is_Some (m !! k) → k ≤ max_fd m.
Proof.
  unfold max_fd. revert k. apply (map_fold_weak_ind (λ z m, ∀ k, is_Some (m !! k) → k ≤ z)).
  - intros k [? H]. by rewrite lookup_empty in H.
  - intros i x m' z Hi IH k Hk. destruct (decide (i = k)) as [->|Hne]; [lia|].
    rewrite lookup_insert_ne in Hk by done. specialize (IH k Hk). lia.
Qed.

Lemma max_fd_std m : 2 ≤ max_fd m.
Proof.
  unfold max_fd. apply (map_fold_weak_ind (λ z m, 2 ≤ z)); [done|]. intros. lia.
Qed.

(** A kernel with room on its disk. *)
#[export] Instance Posix_plain : Posix.
Proof.
  refine {| fd_alloc := λ m, max_fd m + 1; may_create := λ _, true; write_len := λ n, n |}.
  - intros m. destruct (m !! (max_fd m + 1)) as [o|] eqn:E; [|done].
    pose proof (max_fd_ge m (max_fd m + 1) ltac:(by eexists)). lia.
  - intros m. pose proof (max_fd_std m). lia.
  - intros n Hn. lia.
Defined.

Section Files.
Context `{Posix}.

Definition open_rdonly (os : Os) (path : string) : Os * Z :=
  match files os !! path with
  | None => (os, -1)
  | Some _ =>
      let fd := fd_alloc (fds os) in
      (mkOs (files os) (<[fd := mkOpen path 0 false]> (fds os)), fd)
  end.

(** [open(path, O_RDWR | O_CREAT | O_TRUNC, 0666)]. *)
Definition open_trunc (os : Os) (path : string) : Os * Z :=
  if may_create path then
    let fd := fd_alloc (fds os) in
    (mkOs (<[path := []]> (files os)) (<[fd := mkOpen path 0 true]> (fds os)), fd)
  else (os, -1).

Definition close (os : Os) (fd : Z) : Os := mkOs (files os) (delete fd (fds os)).

(** The bytes of a file with [bs] written at position [pos]; a gap is filled with zeros. *)
Definition write_at (old : list byte) (pos : nat) (bs : list byte) : list byte :=
  take pos old ++ replicate (pos - length old) Byte.x00 ++ bs ++ drop (pos + length bs) old.

Definition write (os : Os) (fd : Z) (bs : list byte) : Os * Z :=
  match fds os !! fd with
  | Some (mkOpen path pos true) =>
      let n := write_len (lenZ bs) in
      let old := default [] (files os !! path) in
      (mkOs (<[path := write_at old (Z.to_nat pos) (take (Z.to_nat n) bs)]> (files os))
            (<[fd := mkOpen path (pos + n) true]> (fds os)), n)
  | _ => (os, -1)
  end.
End Files.

(** ** State *)

Record ShardServer : Type := mkShard {
  entries_cache_set_ : gmap Z (list LogEntry);
  entries_fd_set_ : gmap Z Z;
  cache_size_ : gmap Z Z;
  stripe_unit_size_ : Z;
  shard_num_ : Z;
  shard_id_ : Z;
  folder_path_ : string;
  replicated_index_ : Z;
  global_index_ : Z;
  num_slow_path_reads : Z;
  num_fast_path_reads : Z;
  os : Os
}.

Definition with_cache (st : ShardServer) (c : gmap Z (list LogEntry)) : ShardServer :=
  mkShard c (entries_fd_set_ st) (cache_size_ st) (stripe_unit_size_ st) (shard_num_ st) (shard_id_ st)
    (folder_path_ st) (replicated_index_ st) (global_index_ st) (num_slow_path_reads st)
    (num_fast_path_reads st) (os st).
Definition with_fds (st : ShardServer) (m : gmap Z Z) : ShardServer :=
  mkShard (entries_cache_set_ st) m (cache_size_ st) (stripe_unit_size_ st) (shard_num_ st) (shard_id_ st)
    (folder_path_ st) (replicated_index_ st) (global_index_ st) (num_slow_path_reads st)
    (num_fast_path_reads st) (os st).
Definition with_cache_size (st : ShardServer) (m : gmap Z Z) : ShardServer :=
  mkShard (entries_cache_set_ st) (entries_fd_set_ st) m (stripe_unit_size_ st) (shard_num_ st) (shard_id_ st)
    (folder_path_ st) (replicated_index_ st) (global_index_ st) (num_slow_path_reads st)
    (num_fast_path_reads st) (os st).
Definition with_os (st : ShardServer) (o : Os) : ShardServer :=
  mkShard (entries_cache_set_ st) (entries_fd_set_ st) (cache_size_ st) (stripe_unit_size_ st) (shard_num_ st)
    (shard_id_ st) (folder_path_ st) (replicated_index_ st) (global_index_ st) (num_slow_path_reads st)
    (num_fast_path_reads st) o.
Definition with_indices (st : ShardServer) (rep glob : Z) : ShardServer :=
  mkShard (entries_cache_set_ st) (entries_fd_set_ st) (cache_size_ st) (stripe_unit_size_ st) (shard_num_ st)
    (shard_id_ st) (folder_path_ st) rep glob (num_slow_path_reads st) (num_fast_path_reads st) (os st).
Definition count_read (st : ShardServer) (slow : bool) : ShardServer :=
  mkShard (entries_cache_set_ st) (entries_fd_set_ st) (cache_size_ st) (stripe_unit_size_ st) (shard_num_ st)
    (shard_id_ st) (folder_path_ st) (replicated_index_ st) (global_index_ st)
    (if slow then u64 (num_slow_path_reads st + 1) else num_slow_path_reads st)
    (if slow then num_fast_path_reads st else u64 (num_fast_path_reads st + 1)) (os st).

(** [Initialize], the part that fills the members. *)
Definition ShardServer_Initialize (p : Properties) (o : Os) : option ShardServer :=
  unit ← stoi (GetProperty p "shard.stripe_unit_size" "100000");
  num ← stoi (GetProperty p "shard.num" "1");
  id ← stoi (GetProperty p "shard.id" "0");
  rep ← stoull (GetProperty p "shard.replicated_index" "0");
  glob ← stoull (GetProperty p "shard.global_index" "0");
  Some (mkShard ∅ ∅ ∅ (u64 unit) num id (GetProperty p "shard.folder_path" "./data/") rep glob 0 0 o).

Definition getDataFilePath (st : ShardServer) (base_idx : Z) : string :=
  (folder_path_ st +:+ "/entries_" +:+ pretty base_idx +:+ "_r_" +:+ pretty (shard_id_ st) +:+ ".dat")%string.

(** [stripe_unit_size_ * shard_num_]: the [int] is converted to [size_t]. *)
Definition big_stripe (unit num : Z) : Z := u64 (unit * u64 num).

Definition base_of (st : ShardServer) (idx : Z) : option Z :=
  let big := big_stripe (stripe_unit_size_ st) (shard_num_ st) in
  if big =? 0 then None else Some (u64 (idx / big * big)).

(** ** Cache and disk *)

Section ShardServer.
Context `{Posix}.

(** [std::unordered_map::operator[]] on the cache and on the sizes. *)
Definition cache_at (st : ShardServer) (base_idx : Z) : list LogEntry :=
  default [] (entries_cache_set_ st !! base_idx).
Definition cache_size_at (st : ShardServer) (base_idx : Z) : Z :=
  default 0 (cache_size_ st !! base_idx).

(** The [int] returned, [0] when the file was loaded.  [fstat] on a descriptor that was
    just opened succeeds; [mmap] of an empty file does not. *)
Definition loadFromDiskToCache (st : ShardServer) (base_idx : Z) : option (ShardServer * Z) :=
  let path := getDataFilePath st base_idx in
  let '(o, fd) := open_rdonly (os st) path in
  let st := with_os st o in
  if fd <? 0 then Some (st, fd) else
  let contents := default [] (files o !! path) in
  let st_size := lenZ contents in
  if st_size =? 0 then Some (st, -1) else
  '(es, _) ← MultiDeserializer_size [] (msg_buf contents) 0 st_size;
  let st := with_cache st (<[base_idx := es]> (entries_cache_set_ st)) in
  if st_size <? stripe_unit_size_ st
  then Some (with_fds (with_cache_size st (<[base_idx := st_size]> (cache_size_ st)))
               (<[base_idx := fd]> (entries_fd_set_ st)), 0)
  else Some (with_os st (close (os st) fd), 0).

(** The branch that creates the file; [None] is the early return. *)
Definition create_stripe (st : ShardServer) (base_idx : Z) : ShardServer * option Z :=
  let st := with_cache st (<[base_idx := []]> (entries_cache_set_ st)) in
  let st := with_cache_size st (<[base_idx := 0]> (cache_size_ st)) in
  let '(o, fd) := open_trunc (os st) (getDataFilePath st base_idx) in
  let st := with_os st o in
  if fd <? 0 then (st, None)
  else (with_fds st (<[base_idx := fd]> (entries_fd_set_ st)), Some fd).

(** Finding the descriptor; it is [0] after a successful load. *)
Definition cache_fd (st : ShardServer) (base_idx : Z) : option (ShardServer * option Z) :=
  match entries_cache_set_ st !! base_idx with
  | None =>
      '(st, r) ← loadFromDiskToCache st base_idx;
      if r <? 0 then Some (create_stripe st base_idx) else Some (st, Some 0)
  | Some _ =>
      let fd := default 0 (entries_fd_set_ st !! base_idx) in
      Some (with_fds st (<[base_idx := fd]> (entries_fd_set_ st)), Some fd)
  end.

Definition addToEntryCache (st : ShardServer) (base_idx : Z) (req : list byte) : option ShardServer :=
  '(st, fd) ← cache_fd st base_idx;
  match fd with
  | None => Some st
  | Some fd =>
      '(es, n) ← MultiDeserializer (cache_at st base_idx) (msg_buf req) 0;
      let st := with_cache st (<[base_idx := es]> (entries_cache_set_ st)) in
      let batch_len := u64 (n - 4) in
      let st := with_cache_size st
        (<[base_idx := u64 (cache_size_at st base_idx + batch_len)]> (cache_size_ st)) in
      bs ← load (msg_buf req) 4 (Z.to_nat batch_len);
      let '(o, _) := write (os st) fd bs in
      Some (with_os st o)
  end.

(** A missing descriptor is reported and then dereferenced. *)
Definition writeFromCacheToDisk (st : ShardServer) (base_idx : Z) : option (ShardServer * Z) :=
  fd ← entries_fd_set_ st !! base_idx;
  Some (with_os st (close (os st) fd), 0).

(** ** Handlers *)

Definition first_base (st : ShardServer) (req : list byte) : option Z :=
  '(first_e_in_batch, _) ← Deserializer LogEntry_default (msg_buf req) 4;
  base_of st (log_idx first_e_in_batch).

Definition ReplicateBatchHandler (st : ShardServer) (req : list byte) : option (ShardServer * Z) :=
  base_idx ← first_base st req;
  st ← addToEntryCache st base_idx req;
  if stripe_unit_size_ st <=? lenZ (cache_at st base_idx) then
    '(st, r) ← writeFromCacheToDisk st base_idx;
    Some (st, if r <? 0 then 1 else 0)
  else Some (st, 0).

(** [ReplicateBatchAsync] copies the message into a request buffer of [cap] bytes. *)
Definition replicate_to `{Erpc} (cap : Z) (backup : ShardServer) (req : list byte) : option ShardServer :=
  b ← store (Buf cap ∅) 0 req;
  bs ← send b (lenZ req);
  fst <$> ReplicateBatchHandler backup bs.

(** The primary and its backups; the response is sent when all backups answered. *)
Definition AppendBatchHandler `{Erpc} (cap : Z) (st : ShardServer) (backups : list ShardServer)
    (req : list byte) : option (ShardServer * list ShardServer) :=
  base_idx ← first_base st req;
  backups ← mapM (λ b, replicate_to cap b req) backups;
  st ← addToEntryCache st base_idx req;
  '(st, _) ← (if stripe_unit_size_ st <=? lenZ (cache_at st base_idx)
              then writeFromCacheToDisk st base_idx else Some (st, 0));
  e ← last (cache_at st base_idx);
  Some (with_indices st (log_idx e) (global_index_ st), backups).

Definition UpdateGlobalIdxHandler (st : ShardServer) (req : list byte) : option ShardServer :=
  global_idx ← load_int 8 (msg_buf req) 0;
  Some (with_indices st (replicated_index_ st) global_idx).

(** One turn of the loop of [ReadEntryHandler]: an entry to be sent, or [None] when
    the thread waits for a change and tries again. *)
Definition read_turn (st : ShardServer) (idx : Z) : option (ShardServer * option LogEntry) :=
  base_idx ← base_of st idx;
  let local_cache_idx := u64 (idx - base_idx) / u64 (shard_num_ st) in
  '(st, loaded) ← (match entries_cache_set_ st !! base_idx with
                   | None => '(st, r) ← loadFromDiskToCache st base_idx; Some (st, r =? 0)
                   | Some _ => Some (st, true)
                   end);
  if negb loaded && negb (bool_decide (is_Some (entries_cache_set_ st !! base_idx)))
  then Some (st, None)
  else if (lenZ (cache_at st base_idx) <=? local_cache_idx) || (replicated_index_ st <? idx) ||
          (global_index_ st <? idx)
  then Some (st, None)
  else e ← cache_at st base_idx !! Z.to_nat local_cache_idx; Some (st, Some e).

(** [slow] says whether the thread has waited before. *)
Definition ReadEntryHandler `{Erpc} (resp : buffer) (slow : bool) (st : ShardServer) (req : list byte)
    : option (ShardServer * option (list byte)) :=
  idx ← load_int 8 (msg_buf req) 0;
  '(st, r) ← read_turn st idx;
  match r with
  | None => Some (st, None)
  | Some e =>
      '(b, len) ← Serializer e resp 0;
      bs ← send b len;
      Some (count_read st slow, Some bs)
  end.
End ShardServer.
