(* ===== verification/ShardRepr.v ===== *)
(** The stripe units of a shard represent the sequence of entries it received.

    The abstract state of a shard is the list [mine] of its entries: entry [j] of
    shard [s] out of [n] has the log index [s + j * n].  [shard_repr] relates it to the
    cached vectors, the data files and the open descriptors of [ShardServer]. *)

From stdpp Require Import strings pretty.
From S2P Require Import Prelude Props Sequencer LogEntry DlTransport ShardServer.

Local Open Scope Z_scope.

(** ** Stripe units *)

Section Stripes.
Context (u n : nat).

(** The entries of unit [b], and the index its file and its vector go by. *)
Definition stripe (b : nat) (mine : list LogEntry) : list LogEntry := take u (drop (b * u) mine).
Definition key (b : nat) : Z := Z.of_nat b * (Z.of_nat u * Z.of_nat n).

(** A unit exists once it has an entry. *)
Definition nonempty (es : list LogEntry) : option (list LogEntry) :=
  match es with [] => None | _ => Some es end.

(** [bytes] are the entries [es], one after the other, and nothing else. *)
Definition file_holds (bytes : list byte) (es : list LogEntry) : Prop :=
  lenZ bytes = total_size es ∧ laid (rd (bmem (msg_buf bytes))) 0 es.

Record shard_repr (s : nat) (st : ShardServer) (mine : list LogEntry) : Prop := {
  sr_u : (0 < u)%nat;
  sr_s : (s < n)%nat;
  sr_n : Z.of_nat n < 2 ^ 31;
  sr_unit : stripe_unit_size_ st = Z.of_nat u;
  sr_num : shard_num_ st = Z.of_nat n;
  sr_big : Z.of_nat u * Z.of_nat n < 2 ^ 64;
  sr_valid : Forall valid_entry mine;
  sr_idx : ∀ j e, mine !! j = Some e → log_idx e = Z.of_nat s + Z.of_nat j * Z.of_nat n;
  sr_cache : ∀ b, entries_cache_set_ st !! key b = nonempty (stripe b mine);
  sr_nofile : ∀ b, stripe b mine = [] → files (os st) !! getDataFilePath st (key b) = None;
  sr_file : ∀ b, stripe b mine ≠ [] →
    ∃ bytes, files (os st) !! getDataFilePath st (key b) = Some bytes ∧ file_holds bytes (stripe b mine);
  sr_fd : ∀ b, stripe b mine ≠ [] → (length (stripe b mine) < u)%nat →
    ∃ fd, entries_fd_set_ st !! key b = Some fd ∧
      fds (os st) !! fd = Some (mkOpen (getDataFilePath st (key b)) (total_size (stripe b mine)) true)
}.

(** The unit that the next entry goes to is the last one with room. *)
Lemma stripe_app b mine es :
  (0 < u)%nat → (length mine + length es ≤ (length mine / u + 1) * u)%nat →
  stripe b (mine ++ es) =
    if decide (b = length mine / u)%nat then stripe b mine ++ es else stripe b mine.
Proof.
  intros Hu Hfit. unfold stripe. pose proof (Nat.div_mod (length mine) u ltac:(lia)) as Hdm.
  pose proof (Nat.mod_upper_bound (length mine) u ltac:(lia)).
  set (q := (length mine / u)%nat) in *. set (r := (length mine mod u)%nat) in *.
  case_decide as Hb.
  - subst b. rewrite drop_app_le by nia. rewrite take_app, length_drop.
    rewrite (take_ge (drop (q * u) mine)) by (rewrite length_drop; nia).
    f_equal. apply take_ge. nia.
  - destruct (decide (b < q)%nat) as [Hlt|Hge].
    + rewrite drop_app_le by nia. rewrite take_app_le; [done|]. rewrite length_drop. nia.
    + rewrite !drop_ge; rewrite ?length_app; try nia. done.
Qed.

Lemma stripe_last_length mine :
  (0 < u)%nat → length (stripe (length mine / u) mine) = (length mine mod u)%nat.
Proof.
  intros Hu. unfold stripe. rewrite length_take, length_drop.
  pose proof (Nat.div_mod (length mine) u ltac:(lia)).
  pose proof (Nat.mod_upper_bound (length mine) u ltac:(lia)). nia.
Qed.

(** Units before the last are full. *)
Lemma stripe_full b mine :
  (0 < u)%nat → stripe b mine ≠ [] → (length (stripe b mine) < u)%nat → b = (length mine / u)%nat.
Proof.
  intros Hu Hne Hlt. unfold stripe in *. rewrite length_take, length_drop in Hlt.
  assert (b * u < length mine)%nat as Hb.
  { destruct (decide (b * u < length mine)%nat) as [|Hge]; [done|].
    rewrite drop_ge in Hne by lia. by rewrite take_nil in Hne. }
  apply (Nat.div_unique _ _ _ (length mine - b * u)%nat); nia.
Qed.

(** Where an index of this shard is. *)
Lemma lookup_stripe mine j :
  (0 < u)%nat → stripe (j / u) mine !! (j mod u)%nat = mine !! j.
Proof.
  intros Hu. unfold stripe. pose proof (Nat.div_mod j u ltac:(lia)).
  rewrite lookup_take_lt by (apply Nat.mod_upper_bound; lia). rewrite lookup_drop. f_equal. nia.
Qed.

Lemma key_inj b b' : (0 < u)%nat → (0 < n)%nat → key b = key b' → b = b'.
Proof.
  unfold key. intros Hu Hn Hk. apply Nat2Z.inj.
  apply (Z.mul_cancel_r _ _ (Z.of_nat u * Z.of_nat n)); [nia|done].
Qed.
End Stripes.

(** ** File names *)

Lemma string_app_inj_r (s1 s2 t : string) : (s1 +:+ t)%string = (s2 +:+ t)%string → s1 = s2.
Proof.
  revert s2. assert (∀ s t : string, String.length (s +:+ t) = String.length s + String.length t)%nat as Hlen.
  { intros s t'. induction s as [|c s IH]; simpl; [done|]. by rewrite IH. }
  induction s1 as [|c s1 IH]; intros [|c' s2]; simpl; intros Heq; [done|..].
  - apply (f_equal String.length) in Heq. simpl in Heq. rewrite !Hlen in Heq. simpl in Heq. lia.
  - apply (f_equal String.length) in Heq. simpl in Heq. rewrite !Hlen in Heq. simpl in Heq. lia.
  - injection Heq as -> Heq. f_equal. by apply IH.
Qed.

Lemma string_app_inj_l (s t1 t2 : string) : (s +:+ t1)%string = (s +:+ t2)%string → t1 = t2.
Proof. induction s as [|c s IH]; simpl; [done|]. intros Heq. injection Heq as Heq. by apply IH. Qed.

(** Different stripe units have different files. *)
Lemma getDataFilePath_inj st i j : getDataFilePath st i = getDataFilePath st j → i = j.
Proof.
  unfold getDataFilePath. intros Heq. apply string_app_inj_l, string_app_inj_l in Heq.
  apply string_app_inj_r in Heq. by apply (inj pretty) in Heq.
Qed.

(** ** Files that hold entries *)

Lemma file_holds_nil : file_holds [] [].
Proof. done. Qed.

(** Appending the entries of a message to a file. *)
Lemma file_holds_app bytes es req es' :
  file_holds bytes es → holds_batch (msg_buf req) es' →
  file_holds (bytes ++ peek (rd (bmem (msg_buf req))) 4 (Z.to_nat (total_size es'))) (es ++ es').
Proof.
  intros [Hlen Hl] (_ & _ & Hl'). pose proof (total_size_nonneg es). pose proof (total_size_nonneg es').
  split; [rewrite length_app, length_peek, total_size_app; lia|].
  apply laid_app. split.
  - eapply laid_ext; [|exact Hl]. intros i Hi. rewrite ?Z.add_0_l.
    destruct (lookup_lt_is_Some_2 bytes (Z.to_nat i)) as [x Hx]; [lia|].
    replace i with (Z.of_nat (Z.to_nat i)) by lia.
    rewrite (rd_msg_buf bytes _ x Hx). symmetry. apply rd_msg_buf. by apply lookup_app_l_Some.
  - eapply laid_ext; [|exact Hl']. intros i Hi. rewrite ?Z.add_0_l.
    replace (total_size es + i) with (Z.of_nat (length bytes + Z.to_nat i)) by lia.
    symmetry. apply rd_msg_buf. rewrite lookup_app_r by lia.
    replace (length bytes + Z.to_nat i - length bytes)%nat with (Z.to_nat i) by lia.
    rewrite peek_lookup by lia. do 2 f_equal. lia.
Qed.

(** The bytes of one entry out of a file. *)
Lemma file_holds_slice bytes o e :
  laid (rd (bmem (msg_buf bytes))) o [e] → 0 ≤ o → o + entry_size e ≤ lenZ bytes →
  file_holds (take (Z.to_nat (entry_size e)) (drop (Z.to_nat o) bytes)) [e].
Proof.
  intros Hl Ho Hlen. pose proof (entry_size_pos e). split.
  - rewrite length_take, length_drop. simpl. lia.
  - apply (laid_ext (rd (bmem (msg_buf bytes))) _ o); [|done].
    intros a Ha. simpl in Ha. rewrite Z.add_0_r in Ha.
    destruct (lookup_lt_is_Some_2 bytes (Z.to_nat (o + a))) as [x Hx]; [lia|].
    replace (o + a) with (Z.of_nat (Z.to_nat (o + a))) by lia. rewrite (rd_msg_buf _ _ x Hx).
    replace (0 + a) with (Z.of_nat (Z.to_nat a)) by lia. symmetry. apply rd_msg_buf.
    rewrite lookup_take_lt, lookup_drop by lia. rewrite <- Hx. f_equal. lia.
Qed.

(** Loading a file gives back its entries. *)
Lemma file_holds_load bytes es :
  file_holds bytes es → Forall valid_entry es →
  MultiDeserializer_size [] (msg_buf bytes) 0 (lenZ bytes) = Some (es, lenZ bytes).
Proof.
  intros [Hlen Hl] Hv. pose proof (total_size_nonneg es). unfold MultiDeserializer_size.
  apply (deserialize_size_ok es []); try done; simpl; try lia. apply entries_fuel_ok. lia.
Qed.

(** ** Adding a batch *)

(** Configuration and indices that adding a batch leaves alone. *)
Definition same_shard (st st' : ShardServer) : Prop :=
  stripe_unit_size_ st' = stripe_unit_size_ st ∧ shard_num_ st' = shard_num_ st ∧
  shard_id_ st' = shard_id_ st ∧ folder_path_ st' = folder_path_ st ∧
  replicated_index_ st' = replicated_index_ st ∧ global_index_ st' = global_index_ st.

Lemma same_shard_path st st' i : same_shard st st' → getDataFilePath st' i = getDataFilePath st i.
Proof. intros (_ & _ & H1 & H2 & _). unfold getDataFilePath. by rewrite H1, H2. Qed.

(** The unit at [k] is open for writing: its vector is [c], its file holds [c]. *)
Record stripe_open (st st1 : ShardServer) (k fd : Z) (c : list LogEntry) (bytes : list byte) : Prop := {
  so_same : same_shard st st1;
  so_cache : cache_at st1 k = c;
  so_cache_other : ∀ k', k' ≠ k → entries_cache_set_ st1 !! k' = entries_cache_set_ st !! k';
  so_file : files (os st1) !! getDataFilePath st k = Some bytes;
  so_file_other : ∀ p, p ≠ getDataFilePath st k → files (os st1) !! p = files (os st) !! p;
  so_holds : file_holds bytes c;
  so_fdset : entries_fd_set_ st1 !! k = Some fd;
  so_fd : fds (os st1) !! fd = Some (mkOpen (getDataFilePath st k) (total_size c) true)
}.

(** A batch for the shard: it continues its sequence within one unit. *)
Record batch_for (u n s : nat) (mine es : list LogEntry) (req : list byte) : Prop := {
  bf_ne : es ≠ [];
  bf_holds : holds_batch (msg_buf req) es;
  bf_valid : Forall valid_entry es;
  bf_len : lenZ es < 2 ^ 32;
  bf_idx : ∀ i e, es !! i = Some e →
    log_idx e = Z.of_nat s + (Z.of_nat (length mine) + Z.of_nat i) * Z.of_nat n;
  bf_unit : (length mine + length es ≤ (length mine / u + 1) * u)%nat;
  bf_max : Z.of_nat s + (Z.of_nat (length mine) + lenZ es) * Z.of_nat n < 2 ^ 64;
  bf_bytes : 4 + total_size es < 2 ^ 64
}.

Section AddBatch.
Context `{Posix} (u n s : nat).
Context (Hcreate : ∀ p, may_create p = true) (Hwrite : ∀ k, write_len k = k).

Lemma cache_fd_ok st mine :
  shard_repr u n s st mine →
  let b := (length mine / u)%nat in
  ∃ st1 fd bytes, cache_fd st (key u n b) = Some (st1, Some fd) ∧
    stripe_open st st1 (key u n b) fd (stripe u b mine) bytes.
Proof.
  intros Hr b. pose proof (sr_cache _ _ _ _ _ Hr b) as Hc. pose proof (sr_u _ _ _ _ _ Hr) as Hu.
  unfold cache_fd. destruct (stripe u b mine) as [|e c] eqn:Es; simpl in Hc; rewrite Hc.
  - pose proof (sr_nofile _ _ _ _ _ Hr b Es) as Hf.
    unfold loadFromDiskToCache, open_rdonly. rewrite Hf. simpl.
    unfold create_stripe, open_trunc. rewrite Hcreate. simpl.
    pose proof (fd_alloc_std (fds (os st))) as Hstd. rewrite (proj2 (Z.ltb_ge _ _)) by lia.
    eexists _, _, []. split; [done|]. split; simpl; try done.
    + unfold cache_at. simpl. by rewrite lookup_insert_eq.
    + intros k' Hk'. by rewrite lookup_insert_ne.
    + by rewrite lookup_insert_eq.
    + intros p Hp. by rewrite lookup_insert_ne.
    + by rewrite lookup_insert_eq.
    + by rewrite lookup_insert_eq.
  - assert (stripe u b mine ≠ []) as Hne by (by rewrite Es).
    destruct (sr_file _ _ _ _ _ Hr b Hne) as (bytes & Hf & Hh).
    destruct (sr_fd _ _ _ _ _ Hr b Hne) as (fd & Hfd & Hof).
    { unfold b. rewrite stripe_last_length by done. apply Nat.mod_upper_bound. lia. }
    rewrite Hfd. simpl. eexists _, fd, bytes. split; [done|]. rewrite Es in Hh, Hof.
    split; simpl; try done.
    + unfold cache_at. simpl. by rewrite Hc.
    + by rewrite lookup_insert_eq.
Qed.

(** The write at the end of the file. *)
Lemma write_append o fd path bytes bs :
  fds o !! fd = Some (mkOpen path (lenZ bytes) true) → files o !! path = Some bytes →
  write o fd bs = (mkOs (<[path := bytes ++ bs]> (files o))
                        (<[fd := mkOpen path (lenZ bytes + lenZ bs) true]> (fds o)), lenZ bs).
Proof.
  intros Hfd Hf. unfold write. rewrite Hfd, Hf, Hwrite, !Nat2Z.id, take_ge by done. simpl.
  unfold write_at. rewrite take_ge, Nat.sub_diag, drop_ge, app_nil_r by lia. done.
Qed.

(** The shard after the vector and the file of the open unit got the new entries. *)
Definition stripe_written (st1 : ShardServer) (k fd : Z) (c es : list LogEntry) (path : string)
    (bytes bs : list byte) (size : gmap Z Z) : ShardServer :=
  with_os (with_cache_size (with_cache st1 (<[k := c ++ es]> (entries_cache_set_ st1))) size)
    (mkOs (<[path := bytes ++ bs]> (files (os st1)))
          (<[fd := mkOpen path (lenZ bytes + lenZ bs) true]> (fds (os st1)))).

Lemma nonempty_app c es : es ≠ [] → nonempty (c ++ es) = Some (c ++ es).
Proof. destruct c; simpl; [|done]. by destruct es. Qed.

Lemma stripe_written_repr st st1 mine es req fd bytes size :
  shard_repr u n s st mine → batch_for u n s mine es req →
  let b := (length mine / u)%nat in
  stripe_open st st1 (key u n b) fd (stripe u b mine) bytes →
  shard_repr u n s
    (stripe_written st1 (key u n b) fd (stripe u b mine) es (getDataFilePath st (key u n b)) bytes
       (peek (rd (bmem (msg_buf req))) 4 (Z.to_nat (total_size es))) size) (mine ++ es).
Proof.
  intros Hr Hb b Ho. pose proof (sr_u _ _ _ _ _ Hr) as Hu. pose proof (sr_s _ _ _ _ _ Hr) as Hs.
  pose proof (bf_ne _ _ _ _ _ _ Hb) as Hne. pose proof (total_size_nonneg es).
  assert (∀ b', stripe u b' (mine ++ es) =
    if decide (b' = b) then stripe u b' mine ++ es else stripe u b' mine) as Hst
    by (intros b'; apply stripe_app; [done|apply Hb]).
  assert (∀ b', b' ≠ b → key u n b' ≠ key u n b) as Hkey
    by (intros b' Hb' Hk; apply Hb', (key_inj u n); (done || lia)).
  set (st' := stripe_written _ _ _ _ _ _ _ _ _).
  assert (∀ i, getDataFilePath st' i = getDataFilePath st i) as Hpath
    by (intros i; apply (same_shard_path st st1), Ho).
  assert (∀ b', b' ≠ b → getDataFilePath st (key u n b') ≠ getDataFilePath st (key u n b)) as Hpne
    by (intros b' Hb' Hp; by apply getDataFilePath_inj, (Hkey b') in Hp).
  pose proof (so_holds _ _ _ _ _ _ Ho) as Hh.
  split; try apply Hr.
  - etrans; [apply Ho|apply Hr].
  - etrans; [apply (so_same _ _ _ _ _ _ Ho)|apply Hr].
  - apply Forall_app_2; [apply Hr|apply Hb].
  - intros j e [Hj|[Hlen Hj]]%lookup_app_Some; [by apply (sr_idx _ _ _ _ _ Hr)|].
    rewrite (bf_idx _ _ _ _ _ _ Hb _ _ Hj). f_equal. f_equal. lia.
  - intros b'. rewrite Hst. unfold st'. simpl. case_decide as Hb'.
    + subst b'. by rewrite lookup_insert_eq, nonempty_app.
    + rewrite lookup_insert_ne by (intros Hk; symmetry in Hk; by apply (Hkey b')).
      rewrite (so_cache_other _ _ _ _ _ _ Ho) by auto. apply Hr.
  - intros b'. rewrite Hst. case_decide as Hb'.
    + intros Happ. by apply app_nil in Happ as [_ ->].
    + intros Hnil. rewrite Hpath. unfold st'. simpl.
      rewrite lookup_insert_ne by (intros Hp; symmetry in Hp; by apply (Hpne b')).
      rewrite (so_file_other _ _ _ _ _ _ Ho) by auto. by apply Hr.
  - intros b'. rewrite Hst, Hpath. unfold st'. simpl. case_decide as Hb'.
    + subst b'. intros _. rewrite lookup_insert_eq. eexists. split; [done|].
      apply file_holds_app; [done|apply Hb].
    + intros Hne'. rewrite lookup_insert_ne by (intros Hp; symmetry in Hp; by apply (Hpne b')).
      rewrite (so_file_other _ _ _ _ _ _ Ho) by auto. by apply Hr.
  - intros b'. rewrite Hst, Hpath. unfold st'. simpl. case_decide as Hb'.
    + subst b'. intros _ _. exists fd. split; [apply Ho|]. rewrite lookup_insert_eq. do 2 f_equal.
      rewrite length_peek, total_size_app. destruct Hh as [-> _]. lia.
    + intros Hne' Hlt. by apply (stripe_full u b' mine) in Hlt.
Qed.

Lemma addToEntryCache_ok st mine es req :
  shard_repr u n s st mine → batch_for u n s mine es req →
  let b := (length mine / u)%nat in
  ∃ st', addToEntryCache st (key u n b) req = Some st' ∧ same_shard st st' ∧
    shard_repr u n s st' (mine ++ es) ∧ cache_at st' (key u n b) = stripe u b mine ++ es ∧
    is_Some (entries_fd_set_ st' !! key u n b).
Proof.
  intros Hr Hb b. destruct (cache_fd_ok st mine Hr) as (st1 & fd & bytes & Hcf & Ho). fold b in Hcf, Ho.
  unfold addToEntryCache. rewrite Hcf. simpl. rewrite (so_cache _ _ _ _ _ _ Ho).
  rewrite (MultiDeserializer_ok _ _ es) by apply Hb. simpl.
  pose proof (total_size_nonneg es). pose proof (bf_bytes _ _ _ _ _ _ Hb).
  replace (4 + total_size es - 4) with (total_size es) by lia. rewrite (u64_small (total_size es)) by lia.
  destruct (bf_holds _ _ _ _ _ _ Hb) as (Hcap & _). rewrite load_ok by (simpl in *; lia).
  cbn [mbind option_bind].
  pose proof (so_fd _ _ _ _ _ _ Ho) as Hfd. destruct (so_holds _ _ _ _ _ _ Ho) as [Hlen _].
  rewrite <- Hlen in Hfd. cbn [with_cache_size with_cache os].
  rewrite (write_append _ _ _ _ _ Hfd (so_file _ _ _ _ _ _ Ho)).
  eexists. split; [done|]. split; [apply Ho|]. split; [by apply (stripe_written_repr st)|].
  split.
  - unfold cache_at. simpl. by rewrite lookup_insert_eq.
  - exists fd. apply Ho.
Qed.
End AddBatch.

(** ** Indices *)

Lemma big_stripe_ok u n s st mine :
  shard_repr u n s st mine →
  big_stripe (stripe_unit_size_ st) (shard_num_ st) = Z.of_nat u * Z.of_nat n.
Proof.
  intros []. unfold big_stripe. rewrite sr_unit0, sr_num0, (u64_small (Z.of_nat n)) by lia.
  apply u64_small. lia.
Qed.

(** Index [s + j * n] belongs to unit [j / u], at place [j mod u]. *)
Lemma index_place u n s j :
  (0 < u)%nat → (s < n)%nat →
  (Z.of_nat s + Z.of_nat j * Z.of_nat n) / (Z.of_nat u * Z.of_nat n) = Z.of_nat (j / u) ∧
  (Z.of_nat s + Z.of_nat j * Z.of_nat n - key u n (j / u)) / Z.of_nat n = Z.of_nat (j mod u).
Proof.
  intros Hu Hs. rewrite (Z.mul_comm (Z.of_nat u)), <- Z.div_div by lia.
  rewrite Z.div_add, (Z.div_small (Z.of_nat s)), Z.add_0_l by lia. split; [by rewrite Nat2Z.inj_div|].
  unfold key. pose proof (Nat.div_mod j u ltac:(lia)) as Hdm.
  assert (Z.of_nat j = Z.of_nat u * Z.of_nat (j / u) + Z.of_nat (j mod u)) as -> by lia.
  replace (Z.of_nat s + (Z.of_nat u * Z.of_nat (j / u) + Z.of_nat (j mod u)) * Z.of_nat n
           - Z.of_nat (j / u) * (Z.of_nat u * Z.of_nat n))
    with (Z.of_nat s + Z.of_nat (j mod u) * Z.of_nat n) by lia.
  rewrite Z.div_add, (Z.div_small (Z.of_nat s)) by lia. lia.
Qed.

Lemma base_idx_ok u n s j :
  let idx := Z.of_nat s + Z.of_nat j * Z.of_nat n in let big := Z.of_nat u * Z.of_nat n in
  (0 < u)%nat → (s < n)%nat → idx < 2 ^ 64 →
  u64 (idx / big * big) = key u n (j / u) ∧ 0 ≤ key u n (j / u) ≤ idx.
Proof.
  intros idx big Hu Hs Hj. unfold idx, big in *. destruct (index_place u n s j) as [-> _]; [done..|].
  pose proof (Nat.div_mod j u ltac:(lia)). unfold key.
  assert (0 ≤ Z.of_nat (j / u) * (Z.of_nat u * Z.of_nat n) ≤ Z.of_nat s + Z.of_nat j * Z.of_nat n) by nia.
  by rewrite u64_small by lia.
Qed.

Lemma base_of_ok u n s st mine j :
  shard_repr u n s st mine → Z.of_nat s + Z.of_nat j * Z.of_nat n < 2 ^ 64 →
  base_of st (Z.of_nat s + Z.of_nat j * Z.of_nat n) = Some (key u n (j / u)) ∧
  0 ≤ key u n (j / u) ≤ Z.of_nat s + Z.of_nat j * Z.of_nat n.
Proof.
  intros Hr Hj. unfold base_of. rewrite (big_stripe_ok _ _ _ _ _ Hr).
  pose proof (sr_u _ _ _ _ _ Hr). pose proof (sr_s _ _ _ _ _ Hr).
  rewrite (proj2 (Z.eqb_neq _ _)) by nia. destruct (base_idx_ok u n s j) as [-> ?]; auto.
Qed.

Lemma first_base_ok u n s st mine es req :
  shard_repr u n s st mine → batch_for u n s mine es req →
  first_base st req = Some (key u n (length mine / u)).
Proof.
  intros Hr Hb. destruct es as [|e es]; [by destruct (bf_ne _ _ _ _ _ _ Hb)|].
  pose proof (bf_max _ _ _ _ _ _ Hb) as Hmax. pose proof (sr_s _ _ _ _ _ Hr).
  destruct (bf_holds _ _ _ _ _ _ Hb) as (Hcap & _ & Hl). simpl total_size in Hcap.
  pose proof (total_size_nonneg es). pose proof (Forall_inv (bf_valid _ _ _ _ _ _ Hb)) as Hv.
  destruct (Deserializer_laid e LogEntry_default es (msg_buf req) 4) as [Hd _]; [done|done|lia|lia|].
  unfold first_base. rewrite Hd. cbn [mbind option_bind].
  rewrite (bf_idx _ _ _ _ _ _ Hb 0%nat e eq_refl), Z.add_0_r.
  apply (base_of_ok _ _ _ _ mine); [done|]. simpl in Hmax. nia.
Qed.

(** ** The handlers *)

Section Handlers.
Context `{Posix} (u n s : nat).
Context (Hcreate : ∀ p, may_create p = true) (Hwrite : ∀ k, write_len k = k).

(** Closing the file of a full unit. *)
Lemma close_full_repr st mine fd :
  shard_repr u n s st mine → (length mine mod u = 0)%nat →
  shard_repr u n s (with_os st (close (os st) fd)) mine.
Proof.
  intros Hr Hfull. pose proof (sr_u _ _ _ _ _ Hr) as Hu. split; try apply Hr.
  intros b Hne Hlt. exfalso. apply stripe_full in Hlt as Hb; [|done..]. subst b.
  apply Hne. apply length_zero_iff_nil. by rewrite stripe_last_length.
Qed.

(** Adding a batch and closing the file when the unit is full. *)
Lemma add_and_close st mine es req :
  shard_repr u n s st mine → batch_for u n s mine es req →
  let k := key u n (length mine / u) in
  ∃ st1 st', addToEntryCache st k req = Some st1 ∧ same_shard st st1 ∧
    (if stripe_unit_size_ st1 <=? lenZ (cache_at st1 k) then writeFromCacheToDisk st1 k else Some (st1, 0))
      = Some (st', 0) ∧
    same_shard st st' ∧ shard_repr u n s st' (mine ++ es) ∧ last (cache_at st' k) = last es.
Proof.
  intros Hr Hb k. pose proof (sr_u _ _ _ _ _ Hr) as Hu. pose proof (bf_unit _ _ _ _ _ _ Hb) as Hfit.
  pose proof (bf_ne _ _ _ _ _ _ Hb) as Hne.
  destruct (addToEntryCache_ok u n s Hcreate Hwrite st mine es req Hr Hb)
    as (st1 & Hadd & Hsame & Hr1 & Hc1 & [fd Hfd]). fold k in Hadd, Hc1, Hfd.
  assert (last (stripe u (length mine / u) mine ++ es) = last es) as Hlast
    by (rewrite last_app; destruct (last es) eqn:E; [done|by apply last_None in E]).
  exists st1. destruct (Z.leb_spec (stripe_unit_size_ st1) (lenZ (cache_at st1 k))) as [Hle|Hlt].
  - exists (with_os st1 (close (os st1) fd)). unfold writeFromCacheToDisk. rewrite Hfd. simpl.
    split; [done|]. split; [done|]. split; [done|]. split; [done|]. split.
    + apply close_full_repr; [done|]. rewrite (sr_unit _ _ _ _ _ Hr1), Hc1, length_app in Hle.
      rewrite stripe_last_length in Hle by done. rewrite length_app.
      pose proof (Nat.div_mod (length mine) u ltac:(lia)).
      assert (length mine + length es = (length mine / u + 1) * u)%nat as -> by nia.
      apply Nat.Div0.mod_mul.
    + by rewrite <- Hlast, <- Hc1.
  - exists st1. by rewrite Hc1, Hlast.
Qed.

Lemma ReplicateBatchHandler_ok st mine es req :
  shard_repr u n s st mine → batch_for u n s mine es req →
  ∃ st', ReplicateBatchHandler st req = Some (st', 0) ∧ shard_repr u n s st' (mine ++ es).
Proof.
  intros Hr Hb. unfold ReplicateBatchHandler. rewrite (first_base_ok _ _ _ _ _ _ _ Hr Hb). simpl.
  destruct (add_and_close st mine es req Hr Hb) as (st1 & st' & Hadd & _ & Hclose & _ & Hr' & _).
  rewrite Hadd. simpl. exists st'. split; [|done]. destruct (_ <=? _).
  - by rewrite Hclose.
  - by simplify_eq.
Qed.

Lemma replicate_to_ok `{Erpc} cap st mine es req :
  shard_repr u n s st mine → batch_for u n s mine es req → lenZ req ≤ cap →
  ∃ st', replicate_to cap st req = Some st' ∧ shard_repr u n s st' (mine ++ es).
Proof.
  intros Hr Hb Hcap. unfold replicate_to. rewrite store_ok by (simpl; lia). simpl.
  rewrite send_ok by (simpl; lia). cbn [mbind option_bind]. rewrite Nat2Z.id. unfold bpoke. cbn [bmem].
  rewrite peek_poke_same.
  destruct (ReplicateBatchHandler_ok st mine es req Hr Hb) as (st' & -> & Hr'). by exists st'.
Qed.

Lemma replicate_all_ok `{Erpc} cap backups mine es req :
  Forall (λ st, shard_repr u n s st mine) backups → batch_for u n s mine es req → lenZ req ≤ cap →
  ∃ backups', mapM (λ b, replicate_to cap b req) backups = Some backups' ∧
    length backups' = length backups ∧ Forall (λ st, shard_repr u n s st (mine ++ es)) backups'.
Proof.
  intros Hbs Hb Hcap. induction Hbs as [|st bs Hr _ IH]; simpl; [by exists []|].
  destruct (replicate_to_ok cap st mine es req Hr Hb Hcap) as (st' & -> & Hr'). simpl.
  destruct IH as (bs' & -> & Hlen & Hbs'). simpl. exists (st' :: bs'). simpl. auto.
Qed.

Lemma AppendBatchHandler_ok `{Erpc} cap st backups mine es req :
  shard_repr u n s st mine → Forall (λ st, shard_repr u n s st mine) backups →
  batch_for u n s mine es req → lenZ req ≤ cap →
  ∃ st' backups', AppendBatchHandler cap st backups req = Some (st', backups') ∧
    shard_repr u n s st' (mine ++ es) ∧ length backups' = length backups ∧
    Forall (λ st, shard_repr u n s st (mine ++ es)) backups' ∧
    Some (replicated_index_ st') = log_idx <$> last es ∧ global_index_ st' = global_index_ st.
Proof.
  intros Hr Hbs Hb Hcap. unfold AppendBatchHandler. rewrite (first_base_ok _ _ _ _ _ _ _ Hr Hb). simpl.
  destruct (replicate_all_ok cap backups mine es req Hbs Hb Hcap) as (bs' & -> & Hlen & Hbs'). simpl.
  destruct (add_and_close st mine es req Hr Hb) as (st1 & st' & Hadd & _ & Hclose & Hsame & Hr' & Hlast).
  rewrite Hadd. simpl. rewrite Hclose. simpl. rewrite Hlast.
  destruct (last es) as [e|] eqn:E; [|by apply last_None, (bf_ne _ _ _ _ _ _ Hb) in E]. simpl.
  eexists _, bs'. split; [done|]. split; [|split; [done|split; [done|]]].
  - destruct Hr'. by split.
  - simpl. split; [done|]. apply Hsame.
Qed.

(** Loading does nothing on a shard whose units are all cached. *)
Lemma load_nothing st mine b :
  shard_repr u n s st mine → stripe u b mine = [] →
  loadFromDiskToCache st (key u n b) = Some (st, -1).
Proof.
  intros Hr Hnil. unfold loadFromDiskToCache, open_rdonly.
  rewrite (sr_nofile _ _ _ _ _ Hr b Hnil). simpl. by destruct st.
Qed.

Lemma read_turn_ok st mine j :
  let idx := Z.of_nat s + Z.of_nat j * Z.of_nat n in
  shard_repr u n s st mine → idx < 2 ^ 64 →
  read_turn st idx =
    Some (st, if (replicated_index_ st <? idx) || (global_index_ st <? idx) then None else mine !! j).
Proof.
  intros idx Hr Hidx. pose proof (sr_u _ _ _ _ _ Hr) as Hu. pose proof (sr_s _ _ _ _ _ Hr) as Hs.
  pose proof (sr_n _ _ _ _ _ Hr) as Hn.
  destruct (base_of_ok _ _ _ _ _ j Hr Hidx) as [Hbase Hrange]. fold idx in Hbase, Hrange.
  unfold read_turn. rewrite Hbase. cbn [mbind option_bind].
  rewrite (sr_num _ _ _ _ _ Hr), !u64_small by lia.
  destruct (index_place u n s j) as [_ Hloc]; [done..|]. fold idx in Hloc. rewrite Hloc.
  pose proof (sr_cache _ _ _ _ _ Hr (j / u)%nat) as Hc. rewrite Hc.
  pose proof (lookup_stripe u mine j Hu) as Hlk.
  destruct (stripe u (j / u) mine) as [|e c] eqn:E.
  - simpl. rewrite (load_nothing _ _ _ Hr E). simpl. rewrite Hc. simpl.
    rewrite lookup_nil in Hlk. rewrite <- Hlk. by destruct (_ || _).
  - simpl nonempty. cbn [mbind option_bind negb andb]. unfold cache_at. rewrite Hc.
    simpl nonempty. cbn [default from_option id]. rewrite Nat2Z.id.
    rewrite <- !orb_assoc. destruct (Z.leb_spec (lenZ (e :: c)) (Z.of_nat (j mod u))) as [Hle|Hlt]; cbn [orb].
    + assert (mine !! j = None) as -> by (rewrite <- Hlk; apply lookup_ge_None_2; lia).
      by destruct (_ || _).
    + destruct (_ || _); [done|]. destruct (mine !! j) eqn:Ej.
      * rewrite Hlk. done.
      * apply lookup_ge_None in Hlk. lia.
Qed.
End Handlers.
