(* ===== verification/NaiveBackend.v ===== *)
(** The striped storage backend: [src/cons_log/storage/naive_backend.cc] over the shard
    client of [src/cons_log/storage/shard_client.cc].

    The backend cuts a batch of consecutive log entries into stripe units and sends to
    each shard the entries of its residue class.  [StorageLog] shows that afterwards the
    shards and their backups together hold exactly the log, every entry on the shard
    that is asked for it. *)

From S2P Require Import Prelude Props Sequencer LogEntry DlTransport ShardServer ShardRepr.

Local Open Scope Z_scope.

(** ** The shards as the backend sees them *)

(** A shard with its backups, and the sizes of the message buffers between them: the
    request and the response buffer of the client, the request buffer from the shard to its
    backups, and the buffers in which the shard answers reads. *)
Record Shard : Type := mkShardGroup {
  primary : ShardServer;
  backups : list ShardServer;
  req_cap : Z;
  resp_cap : Z;
  rep_cap : Z;
  read_resp : buffer
}.

Definition with_servers (g : Shard) (p : ShardServer) (bs : list ShardServer) : Shard :=
  mkShardGroup p bs (req_cap g) (resp_cap g) (rep_cap g) (read_resp g).

Record NaiveBackend : Type := mkBackend {
  be_stripe_unit_size : Z;
  be_shard_num : Z;
  shards : gmap Z Shard
}.

Definition with_shards (be : NaiveBackend) (m : gmap Z Shard) : NaiveBackend :=
  mkBackend (be_stripe_unit_size be) (be_shard_num be) m.

Section NaiveBackend.
Context `{Posix, Erpc}.

(** [ShardClient::AppendBatchAsync] with a stride, and what the shard does with it.
    The result is the index of the last entry sent. *)
Definition AppendBatchAsync (g : Shard) (es : list LogEntry) (from to itrv : Z) : option (Shard * Z) :=
  '(b, len, actual_end) ← MultiSerializer_stride es from to itrv (Buf (req_cap g) ∅) 0;
  bs ← send b len;
  '(p, bks) ← AppendBatchHandler (rep_cap g) (primary g) (backups g) bs;
  Some (with_servers g p bks, actual_end).

(** [ShardClient::UpdateGlobalIdxAsync]. *)
Definition UpdateGlobalIdxAsync (g : Shard) (idx : Z) : option Shard :=
  b ← store_int 8 (Buf (req_cap g) ∅) 0 idx;
  bs ← send b 8;
  p ← UpdateGlobalIdxHandler (primary g) bs;
  Some (with_servers g p (backups g)).

(** [ShardClient::ReadEntry]: [Blocked] while the shard lets the request wait.  A response
    must fit the response buffer. *)
Definition shard_ReadEntry (g : Shard) (slow : bool) (idx : Z) (e : LogEntry)
    : outcome (Shard * bool * LogEntry) :=
  b ← lift (store_int 8 (Buf (req_cap g) ∅) 0 idx);
  bs ← lift (send b 8);
  '(p, r) ← lift (ReadEntryHandler (read_resp g) slow (primary g) bs);
  match r with
  | None => Blocked
  | Some rs =>
      let g := with_servers g p (backups g) in
      if resp_cap g <? lenZ rs then Fault else
      if lenZ rs <=? 4 then Ok (g, false, e)
      else '(e, _) ← lift (Deserializer e (msg_buf rs) 0); Ok (g, true, e)
  end.

(** The inner loop: one request to each shard that has entries between [from] and [to]. *)
Fixpoint send_stripes (fuel : nat) (be : NaiveBackend) (es : list LogEntry) (start_idx from to s : Z)
    (tokens : list RPCToken.t) : option (NaiveBackend * list RPCToken.t) :=
  if s <? u64 (be_shard_num be) then
    match fuel with
    | O => None
    | S fuel =>
        let stripe_from := u64 (from + s) in
        if to <? stripe_from then Some (be, tokens) else
        let shard_id := stripe_from mod u64 (be_shard_num be) in
        g ← shards be !! shard_id;
        '(g, _) ← AppendBatchAsync g es (u64 (stripe_from - start_idx)) (u64 (to - start_idx))
                    (u32 (be_shard_num be));
        send_stripes fuel (with_shards be (<[shard_id := g]> (shards be))) es start_idx from to (s + 1)
          (tokens ++ [RPCToken.SetComplete RPCToken.init])
    end
  else Some (be, tokens).

(** [waitForAllShards] returns when every token is complete. *)
Definition waitForAllShards (tokens : list RPCToken.t) : outcome unit :=
  if RPCToken.allCompleted tokens then Ok () else Blocked.

(** The outer loop, over the stripe units. *)
Fixpoint append_rounds (fuel : nat) (be : NaiveBackend) (es : list LogEntry)
    (start_idx end_idx i last_base_idx big : Z) : outcome NaiveBackend :=
  if i <=? last_base_idx then
    match fuel with
    | O => Fault
    | S fuel =>
        let from := if i <? start_idx then start_idx else i in
        let to := if end_idx <? u64 (i + big - 1) then end_idx else u64 (i + big - 1) in
        '(be, tokens) ← lift (send_stripes (Z.to_nat (u64 (be_shard_num be))) be es start_idx from to 0 []);
        _ ← waitForAllShards tokens;
        append_rounds fuel be es start_idx end_idx (u64 (i + big)) last_base_idx big
    end
  else Ok be.

(** The result is the index of the last entry stored. *)
Definition AppendBatch (be : NaiveBackend) (es : list LogEntry) : outcome (NaiveBackend * Z) :=
  first ← lift (head es);
  back ← lift (last es);
  let start_idx := log_idx first in
  let end_idx := log_idx back in
  end_idx ← lift (if (1 <? lenZ es) && (end_idx =? 0)
                  then log_idx <$> es !! (length es - 2)%nat else Some end_idx);
  let big := big_stripe (be_stripe_unit_size be) (be_shard_num be) in
  if big =? 0 then Fault else
  let first_base_idx := u64 (start_idx / big * big) in
  let last_base_idx := u64 (end_idx / big * big) in
  be ← append_rounds (Z.to_nat ((last_base_idx - first_base_idx) / big + 1)) be es start_idx end_idx
         first_base_idx last_base_idx big;
  Ok (be, end_idx).

(** [NaiveBackend::ReadEntry] and [NaiveReadBackend::ReadEntry]; the result of the shard
    client is ignored. *)
Definition be_ReadEntry (be : NaiveBackend) (slow : bool) (idx : Z) (e : LogEntry)
    : outcome (NaiveBackend * bool * LogEntry) :=
  if be_shard_num be =? 0 then Fault else
  let shard_id := i32 (idx mod u64 (be_shard_num be)) in
  g ← lift (shards be !! shard_id);
  '(g, _, e) ← shard_ReadEntry g slow idx e;
  Ok (with_shards be (<[shard_id := g]> (shards be)), true, e).

Definition UpdateGlobalIdx (be : NaiveBackend) (idx : Z) : option NaiveBackend :=
  m ← map_fold (λ k g acc, m ← acc; g ← UpdateGlobalIdxAsync g idx; Some (<[k := g]> m))
        (Some ∅) (shards be);
  Some (with_shards be m).
End NaiveBackend.
