(* ===== verification/StorageLog.v ===== *)
(** The shards of [NaiveBackend] together represent the log.

    [store_repr] says that every shard and each of its backups represents the entries
    of its residue class out of one global list of entries, the log. *)

From S2P Require Import Prelude Props Sequencer LogEntry DlTransport Replica.
From S2P Require Import ShardServer ShardRepr NaiveBackend.

Local Open Scope Z_scope.

(** ** Residue classes *)

(** The entries of shard [s] out of [n]. *)
Definition mine (n s : nat) (log : list LogEntry) : list LogEntry :=
  stride log (Z.of_nat s) (lenZ log - 1) (Z.of_nat n).

Lemma stride_cons es from to itrv e :
  0 < itrv → from ≤ to → es !! Z.to_nat from = Some e →
  stride es from to itrv = e :: stride es (from + itrv) to itrv.
Proof. intros Hi Ht He. unfold stride. rewrite stride_idx_cons by done. simpl. by rewrite He. Qed.

Lemma lookup_stride es from to itrv j :
  0 < itrv → 0 ≤ from → to < lenZ es →
  stride es from to itrv !! j =
    if from + Z.of_nat j * itrv <=? to then es !! Z.to_nat (from + Z.of_nat j * itrv) else None.
Proof.
  intros Hi Hf Ht. revert from Hf. induction j as [|j IH]; intros from Hf.
  - rewrite Z.mul_0_l, Z.add_0_r. case_zb.
    + destruct (lookup_lt_is_Some_2 es (Z.to_nat from)) as [e He]; [lia|].
      by rewrite (stride_cons _ _ _ _ e), He.
    + unfold stride. by rewrite stride_idx_nil.
  - destruct (Z.leb_spec from to) as [Hle|Hgt].
    + destruct (lookup_lt_is_Some_2 es (Z.to_nat from)) as [e He]; [lia|].
      rewrite (stride_cons _ _ _ _ e) by done. simpl. rewrite IH by lia.
      by replace (from + itrv + Z.of_nat j * itrv) with (from + Z.of_nat (S j) * itrv) by lia.
    + unfold stride. rewrite stride_idx_nil by lia. simpl. case_zb; [lia|done].
Qed.

Lemma lookup_mine n s log j :
  (s < n)%nat → mine n s log !! j = log !! (s + j * n)%nat.
Proof.
  intros Hs. unfold mine. rewrite lookup_stride by lia. case_zb.
  - f_equal. lia.
  - symmetry. apply lookup_ge_None_2. lia.
Qed.

(** Equality of lists by their elements, with one place known to be past the end. *)
Lemma length_mine n s log m t :
  (s < n)%nat → (t < n)%nat → (s + m * n = length log + t)%nat → length (mine n s log) = m.
Proof.
  intros Hs Ht Hm. apply Nat.le_antisymm.
  - apply lookup_ge_None. rewrite lookup_mine by done. apply lookup_ge_None_2. lia.
  - destruct m as [|m]; [lia|]. apply lookup_lt_is_Some. rewrite lookup_mine by done.
    apply lookup_lt_is_Some_2. nia.
Qed.

(** One round extends the entries of a shard by a strided part. *)
Lemma mine_extend n s log es t m :
  (s < n)%nat → (t < n)%nat → (s + m * n = length log + t)%nat →
  mine n s (log ++ es) = mine n s log ++ stride es (Z.of_nat t) (lenZ es - 1) (Z.of_nat n).
Proof.
  intros Hs Ht Hm. apply list_eq. intros j. rewrite lookup_mine by done.
  pose proof (length_mine n s log m t Hs Ht Hm) as Hlen.
  destruct (decide (j < m)%nat) as [Hj|Hj].
  - rewrite lookup_app_l by (assert (s + S j * n ≤ s + m * n)%nat by nia; lia).
    rewrite lookup_app_l by lia. by rewrite lookup_mine.
  - rewrite (lookup_app_r (mine n s log)) by lia. rewrite Hlen, lookup_stride by lia.
    rewrite lookup_app_r by nia.
    replace (s + j * n - length log)%nat with (t + (j - m) * n)%nat by nia.
    case_zb; [f_equal; nia|]. apply lookup_ge_None_2. nia.
Qed.

(** ** The representation *)

(** A shard and its backups hold its part of the log; [glob] is the index up to which it
    may serve reads. *)
Record shard_holds (u n s : nat) (glob : Z) (g : Shard) (log : list LogEntry) : Prop := {
  sh_primary : shard_repr u n s (primary g) (mine n s log);
  sh_backups : Forall (λ b, shard_repr u n s b (mine n s log)) (backups g);
  sh_replicated : ∀ e, last (mine n s log) = Some e → replicated_index_ (primary g) = log_idx e;
  sh_global : global_index_ (primary g) = glob
}.

(** Message buffers of at least [cap] bytes, response buffers of at least [M]. *)
Definition big_buffers (M cap : Z) (g : Shard) : Prop :=
  cap ≤ req_cap g ∧ M ≤ resp_cap g ∧ cap ≤ rep_cap g ∧ M ≤ bcap (read_resp g).

Record store_repr (u n : nat) (M cap glob : Z) (be : NaiveBackend) (log : list LogEntry) : Prop := {
  st_u : (0 < u)%nat;
  st_n : (0 < n)%nat;
  st_n31 : Z.of_nat n < 2 ^ 31;
  st_big : Z.of_nat u * Z.of_nat n < 2 ^ 64;
  st_unit : be_stripe_unit_size be = Z.of_nat u;
  st_num : be_shard_num be = Z.of_nat n;
  st_shards : ∀ s, (s < n)%nat →
    ∃ g, shards be !! Z.of_nat s = Some g ∧ shard_holds u n s glob g log ∧ big_buffers M cap g;
  st_dom : ∀ k, is_Some (shards be !! k) → ∃ s, (s < n)%nat ∧ k = Z.of_nat s
}.

(** The entries of a log are numbered from zero. *)
Definition numbered (log : list LogEntry) : Prop :=
  ∀ i e, log !! i = Some e → log_idx e = Z.of_nat i.

(** ** One shard in one round *)

(** A part of consecutive entries. *)
Definition segment (es : list LogEntry) (a len : nat) : list LogEntry := take len (drop a es).

Lemma stride_segment es a t len n :
  (0 < n)%nat → (a + len ≤ length es)%nat →
  stride es (Z.of_nat (a + t)) (Z.of_nat (a + len) - 1) (Z.of_nat n) =
  stride (segment es a len) (Z.of_nat t) (lenZ (segment es a len) - 1) (Z.of_nat n).
Proof.
  intros Hn Hlen. assert (length (segment es a len) = len) as Hs
    by (unfold segment; rewrite length_take, length_drop; lia).
  apply list_eq. intros j. rewrite !lookup_stride by lia. rewrite Hs.
  repeat case_zb; try lia; [|done]. unfold segment.
  rewrite lookup_take_lt, lookup_drop by lia. f_equal. lia.
Qed.

Lemma length_stride_unit es t n u q L :
  (0 < n)%nat → (t < n)%nat → (q * (u * n) ≤ L)%nat → (L + length es ≤ (q + 1) * (u * n))%nat →
  (length (stride es (Z.of_nat t) (lenZ es - 1) (Z.of_nat n)) ≤ u)%nat.
Proof.
  intros Hn Ht Hlo Hhi. apply lookup_ge_None. rewrite lookup_stride by lia. case_zb; [|done]. nia.
Qed.

Section Rounds.
Context `{Posix, Erpc} (u n : nat) (M R cap : Z).
Context (Hcreate : ∀ p, may_create p = true) (Hwrite : ∀ k, write_len k = k).
Context (Hcap : 4 + M * Z.of_nat u ≤ cap) (HM : 0 ≤ M) (Hcap64 : cap < 2 ^ 64).
Context (Hu : (0 < u)%nat) (Hn31 : Z.of_nat n < 2 ^ 31) (Hu32 : Z.of_nat u < 2 ^ 32).

(** A log and the entries of a round: consecutive, within one stripe unit. *)
Record round_ok (log seg : list LogEntry) (q : nat) : Prop := {
  ro_num : numbered (log ++ seg);
  ro_valid : Forall valid_entry seg;
  ro_small : small_entries M seg;
  ro_lo : (q * (u * n) ≤ length log)%nat;
  ro_hi : (length log + length seg ≤ (q + 1) * (u * n))%nat;
  ro_max : Z.of_nat (length log + length seg + n) < 2 ^ 64
}.

Lemma round_batch log seg q s t req :
  round_ok log seg q → (s < n)%nat → (t < n)%nat → (t < length seg)%nat →
  (∃ m, s + m * n = length log + t)%nat →
  let es := stride seg (Z.of_nat t) (lenZ seg - 1) (Z.of_nat n) in
  holds_batch (msg_buf req) es → batch_for u n s (mine n s log) es req.
Proof.
  intros Hr Hs Ht Htl [m Hm] es Hb. pose proof (length_mine n s log m t Hs Ht Hm) as Hlen.
  assert (length es ≤ u)%nat as Hes by (apply (length_stride_unit seg t n u q (length log)); (done || lia || apply Hr)).
  assert (∀ i e, es !! i = Some e → seg !! (t + i * n)%nat = Some e) as Hlk.
  { intros i e. unfold es. rewrite lookup_stride by lia. case_zb; [|done].
    by replace (Z.to_nat _) with (t + i * n)%nat by lia. }
  pose proof (ro_lo _ _ _ Hr). pose proof (ro_hi _ _ _ Hr). pose proof (ro_max _ _ _ Hr).
  assert (Forall (λ e, valid_entry e ∧ entry_size e ≤ M) es) as Hall.
  { apply Forall_stride, Forall_and. split; apply Hr. }
  apply Forall_and in Hall as [Hv Hsm].
  assert (is_Some (es !! 0%nat)) as Hsome%lookup_lt_is_Some.
  { unfold es. rewrite lookup_stride by lia. rewrite Z.mul_0_l, Z.add_0_r. case_zb; [|lia].
    apply lookup_lt_is_Some_2. lia. }
  assert (t + (length es - 1) * n < length seg)%nat as Hlast.
  { destruct (lookup_lt_is_Some_2 es (length es - 1)) as [e He]; [lia|].
    by apply Hlk, lookup_lt_Some in He. }
  assert (m / u = q)%nat as Hmu.
  { symmetry. apply (Nat.div_unique _ _ _ (m - u * q)); [|].
    - assert (m < (q + 1) * u)%nat by nia. nia.
    - assert (q * u ≤ m)%nat by nia. nia. }
  split; try done; rewrite ?Hlen.
  - by destruct es; simpl in Hsome; [lia|].
  - lia.
  - intros i e He. apply Hlk in He.
    rewrite (ro_num _ _ _ Hr (length log + (t + i * n))%nat e); [nia|].
    rewrite lookup_app_r by lia. rewrite <- He. f_equal. lia.
  - rewrite Hmu. assert (m + (length es - 1) < (q + 1) * u)%nat by nia. lia.
  - nia.
  - pose proof (small_entries_total M es Hsm). nia.
Qed.

Lemma mine_unchanged log seg s t m :
  (s < n)%nat → (t < n)%nat → (s + m * n = length log + t)%nat → (length seg ≤ t)%nat →
  mine n s (log ++ seg) = mine n s log.
Proof.
  intros Hs Ht Hm Hlen. rewrite (mine_extend n s log seg t m) by done.
  unfold stride. rewrite stride_idx_nil by lia. by rewrite app_nil_r.
Qed.

Lemma AppendBatchAsync_ok g es log a len q s t glob :
  let seg := segment es a len in
  Forall wf_entry es → lenZ es < 2 ^ 32 → (a + len ≤ length es)%nat →
  round_ok log seg q → (s < n)%nat → (t < n)%nat → (t < len)%nat →
  (∃ m, s + m * n = length log + t)%nat →
  shard_holds u n s glob g log → big_buffers R cap g →
  ∃ g' e, AppendBatchAsync g es (Z.of_nat (a + t)) (Z.of_nat (a + len) - 1) (Z.of_nat n) = Some (g', e) ∧
    shard_holds u n s glob g' (log ++ seg) ∧ big_buffers R cap g'.
Proof.
  intros seg Hwf Hlen Ha Hr Hs Ht Htl [m Hm] Hg (Hreq & Hresp & Hrep & Hrd).
  assert (length seg = len) as Hseg by (unfold seg, segment; rewrite length_take, length_drop; lia).
  pose proof (stride_segment es a t len n ltac:(lia) Ha) as Hstr. fold seg in Hstr.
  set (bat := stride seg (Z.of_nat t) (lenZ seg - 1) (Z.of_nat n)) in *.
  assert (length bat ≤ u)%nat as Hbu
    by (apply (length_stride_unit seg t n u q (length log)); (done || lia || apply Hr)).
  assert (total_size bat ≤ M * lenZ bat) as Hbt by (apply small_entries_total, Forall_stride, Hr).
  unfold AppendBatchAsync.
  destruct (MultiSerializer_stride_ok es (Z.of_nat (a + t)) (Z.of_nat (a + len) - 1) (Z.of_nat n)
    (Buf (req_cap g) ∅)) as (b & Hser & Hb); [done|done|lia..| |]; rewrite Hstr in *.
  { simpl. nia. }
  rewrite Hser. cbn [mbind option_bind]. pose proof (total_size_nonneg bat).
  pose proof (proj1 Hb). rewrite send_ok by lia. cbn [mbind option_bind].
  set (req := peek _ 0 _).
  assert (batch_for u n s (mine n s log) bat req) as Hbf.
  { apply (round_batch log seg q s t); try done; try lia; [by exists m|].
    apply holds_batch_msg; [done|]. fold bat. lia. }
  destruct (AppendBatchHandler_ok u n s Hcreate Hwrite (rep_cap g) (primary g) (backups g) _ _ _
    (sh_primary _ _ _ _ _ _ Hg) (sh_backups _ _ _ _ _ _ Hg) Hbf)
    as (p' & bks' & -> & Hp' & _ & Hbks' & Hrepl & Hglob).
  { unfold req. rewrite length_peek. nia. }
  cbn [mbind option_bind]. eexists _, _. split; [done|]. split; [|done].
  pose proof (mine_extend n s log seg t m Hs Ht Hm) as Hmine. fold bat in Hmine.
  split; simpl; rewrite ?Hmine; try done.
  - intros e He. rewrite last_app in He. pose proof (bf_ne _ _ _ _ _ _ Hbf).
    destruct (last bat) as [e'|] eqn:E; [|by apply last_None in E]. simpl in Hrepl. by simplify_eq.
  - rewrite Hglob. apply Hg.
Qed.

(** *** All shards *)

(** How far shard [s] is from the one whose turn it is at index [L]. *)
Definition turn (L s : nat) : nat := ((s + n - L mod n) mod n)%nat.

Lemma turn_spec L s : (s < n)%nat → (turn L s < n)%nat ∧ ∃ m, (s + m * n = L + turn L s)%nat.
Proof.
  intros Hs. unfold turn. pose proof (Nat.mod_upper_bound L n ltac:(lia)) as Hr.
  pose proof (Nat.div_mod L n ltac:(lia)) as HL. split; [apply Nat.mod_upper_bound; lia|].
  set (r := (L mod n)%nat) in *. set (q := (L / n)%nat) in *.
  destruct (decide (r ≤ s)%nat) as [Hle|Hgt].
  - exists q. replace (s + n - r)%nat with (s - r + 1 * n)%nat by lia.
    rewrite Nat.Div0.mod_add, (Nat.mod_small (s - r)) by lia. nia.
  - exists (q + 1)%nat. rewrite Nat.mod_small by lia. nia.
Qed.

Lemma turn_unique L t : (t < n)%nat → turn L ((L + t) mod n) = t.
Proof.
  intros Ht. pose proof (Nat.mod_upper_bound (L + t) n ltac:(lia)) as Hs.
  destruct (turn_spec L ((L + t) mod n) Hs) as (Ht' & m & Hm).
  pose proof (Nat.div_mod (L + t) n ltac:(lia)).
  destruct (Nat.lt_trichotomy m ((L + t) / n)) as [Hlt|[Heq|Hlt]]; nia.
Qed.

(** The first [t] shards of the round have got their entries. *)
Definition progress (glob : Z) (log seg : list LogEntry) (t : nat) (m : gmap Z Shard) : Prop :=
  ∀ s, (s < n)%nat → ∃ g, m !! Z.of_nat s = Some g ∧
    shard_holds u n s glob g (if decide (turn (length log) s < t)%nat then log ++ seg else log) ∧
    big_buffers R cap g.

Lemma shard_holds_past glob log seg s g t :
  (s < n)%nat → (length seg ≤ t)%nat → ¬ (turn (length log) s < t)%nat →
  shard_holds u n s glob g log → shard_holds u n s glob g (log ++ seg).
Proof.
  intros Hs Hlen Ht Hg. destruct (turn_spec (length log) s Hs) as (Htn & m & Hm).
  pose proof (mine_unchanged log seg s _ m Hs Htn Hm ltac:(lia)) as Hmine.
  destruct Hg. split; by rewrite ?Hmine.
Qed.

Lemma progress_done glob log seg t m :
  (length seg ≤ t ∨ n ≤ t)%nat → progress glob log seg t m →
  ∀ s, (s < n)%nat → ∃ g, m !! Z.of_nat s = Some g ∧ shard_holds u n s glob g (log ++ seg) ∧
    big_buffers R cap g.
Proof.
  intros Ht Hp s Hs. destruct (Hp s Hs) as (g & Hg & Hh & Hc). exists g. split; [done|]. split; [|done].
  destruct (turn_spec (length log) s Hs) as [Htn _]. case_decide; [done|].
  apply (shard_holds_past glob log seg s g t); (done || lia).
Qed.

Lemma progress_step glob log seg t m g :
  (t < n)%nat → progress glob log seg t m →
  shard_holds u n ((length log + t) mod n) glob g (log ++ seg) → big_buffers R cap g →
  progress glob log seg (S t) (<[Z.of_nat ((length log + t) mod n) := g]> m).
Proof.
  intros Ht Hp Hg Hc s Hs. destruct (decide (s = (length log + t) mod n)%nat) as [->|Hne].
  - exists g. rewrite lookup_insert_eq. split; [done|]. rewrite turn_unique by done.
    by rewrite decide_True by lia.
  - destruct (Hp s Hs) as (g' & Hg' & Hh & Hc'). exists g'.
    rewrite lookup_insert_ne by (intros Heq; apply Hne; lia). split; [done|]. split; [|done].
    assert (turn (length log) s ≠ t) as Hnt.
    { intros Heq. destruct (turn_spec (length log) s Hs) as (_ & k & Hk). rewrite Heq in Hk.
      apply Hne. rewrite <- Hk, Nat.Div0.mod_add, Nat.mod_small by done. done. }
    case_decide; case_decide; (done || lia).
Qed.

Lemma allCompleted_snoc tokens :
  RPCToken.allCompleted tokens = true → RPCToken.allCompleted (tokens ++ [true]) = true.
Proof. induction tokens as [|[] tokens IH]; simpl; auto. Qed.

Lemma send_stripes_ok fuel be es st0 log len q t tokens glob :
  let a := (length log - st0)%nat in
  let seg := segment es a len in
  Forall wf_entry es → lenZ es < 2 ^ 32 → (st0 ≤ length log)%nat → (a + len ≤ length es)%nat →
  (0 < len)%nat → round_ok log seg q → be_shard_num be = Z.of_nat n →
  (t ≤ n)%nat → (n - t ≤ fuel)%nat → progress glob log seg t (shards be) →
  RPCToken.allCompleted tokens = true →
  ∃ m tokens', send_stripes fuel be es (Z.of_nat st0) (Z.of_nat (length log))
      (Z.of_nat (length log + len) - 1) (Z.of_nat t) tokens = Some (with_shards be m, tokens') ∧
    RPCToken.allCompleted tokens' = true ∧ (∀ k, is_Some (m !! k) → is_Some (shards be !! k)) ∧
    ∀ s, (s < n)%nat → ∃ g, m !! Z.of_nat s = Some g ∧ shard_holds u n s glob g (log ++ seg) ∧
      big_buffers R cap g.
Proof.
  intros a seg Hwf Hlen Hst Ha Hlen0 Hr Hnum. revert be t tokens Hnum.
  induction fuel as [|fuel IH]; intros be t tokens Hnum Ht Hf Hp Htok.
  - assert (t = n) as -> by lia. exists (shards be), tokens. split; [|split; [done|split; [done|]]].
    + simpl. rewrite Hnum, u64_small, Z.ltb_irrefl by lia. by destruct be.
    + apply (progress_done glob log seg n); [lia|done].
  - cbn [send_stripes]. rewrite Hnum, (u64_small (Z.of_nat n)) by lia.
    pose proof (ro_max _ _ _ Hr) as Hmax.
    assert (length seg = len) as Hseg by (unfold seg, segment; rewrite length_take, length_drop; lia).
    destruct (Z.ltb_spec (Z.of_nat t) (Z.of_nat n)) as [Htn|Htn].
    + rewrite u64_small by lia.
      destruct (Z.ltb_spec (Z.of_nat (length log + len) - 1) (Z.of_nat (length log) + Z.of_nat t)).
      { exists (shards be), tokens. split; [by destruct be|]. split; [done|]. split; [done|].
        apply (progress_done glob log seg t); [lia|done]. }
      set (s := ((length log + t) mod n)%nat). pose proof (Nat.mod_upper_bound (length log + t) n ltac:(lia)) as Hs.
      fold s in Hs. replace ((Z.of_nat (length log) + Z.of_nat t) mod Z.of_nat n) with (Z.of_nat s)
        by (unfold s; rewrite Nat2Z.inj_mod; f_equal; lia).
      destruct (Hp s Hs) as (g & Hg & Hh & Hc). rewrite Hg. cbn [mbind option_bind].
      unfold s in Hh. rewrite turn_unique, decide_False in Hh by lia. fold s in Hh.
      replace (u64 (Z.of_nat (length log) + Z.of_nat t - Z.of_nat st0)) with (Z.of_nat (a + t))
        by (rewrite u64_small; lia).
      replace (u64 (Z.of_nat (length log + len) - 1 - Z.of_nat st0)) with (Z.of_nat (a + len) - 1)
        by (rewrite u64_small; lia).
      rewrite u32_small by lia.
      destruct (AppendBatchAsync_ok g es log a len q s t glob) as (g' & e & -> & Hh' & Hc'); try done; try lia.
      { exists ((length log + t) / n)%nat. unfold s. pose proof (Nat.div_mod (length log + t) n ltac:(lia)). lia. }
      cbn [mbind option_bind]. fold seg in Hh'.
      destruct (IH (with_shards be (<[Z.of_nat s := g']> (shards be))) (S t)
        (tokens ++ [RPCToken.SetComplete RPCToken.init])) as (m & tokens' & Hsend & Htok' & Hdom & Hall);
        [done|lia|lia|apply progress_step; (done || lia)|by apply allCompleted_snoc|].
      exists m, tokens'. split; [|split; [done|split; [|done]]].
      * by replace (Z.of_nat t + 1) with (Z.of_nat (S t)) by lia.
      * intros k Hk%Hdom. cbn [shards with_shards] in Hk. destruct (decide (Z.of_nat s = k)) as [<-|Hne];
          [by eexists|by rewrite lookup_insert_ne in Hk].
    + exists (shards be), tokens. split; [by destruct be|]. split; [done|]. split; [done|].
      apply (progress_done glob log seg t); [lia|done].
Qed.

(** *** All rounds *)

Lemma take_segment (es : list LogEntry) k len : take k es ++ segment es k len = take (k + len) es.
Proof. unfold segment. by rewrite take_take_drop. Qed.

Lemma numbered_prefix log log' : numbered (log ++ log') → numbered log.
Proof. intros Hn i e He. apply Hn. by apply lookup_app_l_Some. Qed.

Section AllRounds.
Context (es log0 : list LogEntry) (cnt : nat) (glob : Z).
Context (Hwf : Forall wf_entry es) (Hes32 : lenZ es < 2 ^ 32) (Hcnt : (0 < cnt ≤ length es)%nat).
Context (Hvalid : Forall valid_entry (take cnt es)) (Hsmall : small_entries M (take cnt es)).
Context (Hnumb : numbered (log0 ++ take cnt es)).

Let BG : nat := (u * n)%nat.
Let E : nat := (length log0 + cnt)%nat.

Context (Hmax : Z.of_nat (E + 2 * BG + n) < 2 ^ 64) (Hn0 : (0 < n)%nat).

(** The entries of one round. *)
Lemma round_of_segment k len q :
  (k + len ≤ cnt)%nat → (q * BG ≤ length log0 + k)%nat → (length log0 + k + len ≤ (q + 1) * BG)%nat →
  round_ok (log0 ++ take k es) (segment es k len) q.
Proof.
  intros Hk Hlo Hhi.
  assert (segment es k len `prefix_of` drop k (take cnt es)) as [rest Hp].
  { exists (drop len (drop k (take cnt es))).
    rewrite <- (take_drop len (drop k (take cnt es))) at 1. f_equal. unfold segment.
    rewrite !take_drop_commute, take_take. do 2 f_equal. lia. }
  assert (Forall (λ e, valid_entry e ∧ entry_size e ≤ M) (segment es k len)) as Hall.
  { assert (Forall (λ e, valid_entry e ∧ entry_size e ≤ M) (drop k (take cnt es))) as Hd
      by (apply Forall_drop, Forall_and; done).
    rewrite Hp in Hd. by apply Forall_app in Hd as [? _]. }
  apply Forall_and in Hall as [Hv Hs].
  assert (length (take k es) = k) as Hlk by (rewrite length_take; lia).
  assert (length (segment es k len) = len) as Hls by (unfold segment; rewrite length_take, length_drop; lia).
  split; rewrite ?length_app, ?Hlk, ?Hls; try done; try (unfold E, BG in *; lia).
  rewrite <- app_assoc, take_segment. apply (numbered_prefix _ (drop (k + len) (take cnt es))).
  rewrite <- app_assoc. replace (take (k + len) es) with (take (k + len) (take cnt es))
    by (rewrite take_take; f_equal; lia). by rewrite take_drop.
Qed.

(** One round brings the shards from the log before it to the log after it. *)
Lemma round_step be k len q :
  store_repr u n R cap glob be (log0 ++ take k es) →
  (k + len ≤ cnt)%nat → (0 < len)%nat → (q * BG ≤ length log0 + k)%nat →
  (length log0 + k + len ≤ (q + 1) * BG)%nat →
  ∃ m tokens, send_stripes (Z.to_nat (u64 (be_shard_num be))) be es (lenZ log0)
      (Z.of_nat (length log0 + k)) (Z.of_nat (length log0 + k + len) - 1) 0 [] = Some (with_shards be m, tokens) ∧
    waitForAllShards tokens = Ok () ∧
    store_repr u n R cap glob (with_shards be m) (log0 ++ take (k + len) es).
Proof.
  intros Hr Hk Hlen Hlo Hhi. pose proof (round_of_segment k len q Hk Hlo Hhi) as Hro.
  assert (length (log0 ++ take k es) = length log0 + k)%nat as Hl
    by (rewrite length_app, length_take; lia).
  pose proof (st_num _ _ _ _ _ _ _ Hr) as Hnum. pose proof (st_n _ _ _ _ _ _ _ Hr).
  destruct (send_stripes_ok n be es (length log0) (log0 ++ take k es) len q 0 [] glob)
    as (m & tokens & Hsend & Htok & Hdom & Hall); rewrite ?Hl;
    replace (length log0 + k - length log0)%nat with k by lia; try done; try lia.
  { intros s Hs. rewrite decide_False by lia. by apply Hr. }
  rewrite Hl in Hsend, Hall. replace (length log0 + k - length log0)%nat with k in Hall by lia.
  exists m, tokens. rewrite Hnum, u64_small, Nat2Z.id by lia. split; [done|]. split.
  { unfold waitForAllShards. by rewrite Htok. }
  rewrite <- take_segment, app_assoc. destruct Hr. split; try done. intros j Hj. by apply st_dom0, Hdom.
Qed.

Lemma append_rounds_ok fuel be k q :
  let Q := ((E - 1) / BG)%nat in
  store_repr u n R cap glob be (log0 ++ take k es) → (k ≤ cnt)%nat →
  ((q ≤ Q ∧ length log0 < (q + 1) * BG ∧ length log0 + k = max (q * BG) (length log0)) ∨ (q = Q + 1 ∧ k = cnt))%nat →
  (Q + 1 - q ≤ fuel)%nat →
  ∃ m, append_rounds fuel be es (lenZ log0) (Z.of_nat E - 1) (Z.of_nat (q * BG)) (Z.of_nat (Q * BG))
      (Z.of_nat BG) = Ok (with_shards be m) ∧
    store_repr u n R cap glob (with_shards be m) (log0 ++ take cnt es).
Proof.
  intros Q. assert (0 < BG)%nat as HBG by (unfold BG; nia).
  pose proof (Nat.div_mod (E - 1) BG ltac:(lia)) as HQ. fold Q in HQ.
  pose proof (Nat.mod_upper_bound (E - 1) BG ltac:(lia)).
  revert be k q. induction fuel as [|fuel IH]; intros be k q Hr Hk Hq Hf.
  - exists (shards be). destruct Hq as [|[-> ->]]; [lia|]. simpl.
    rewrite (proj2 (Z.leb_gt _ _)) by nia. destruct be. done.
  - cbn [append_rounds]. destruct Hq as [(HqQ & Hlq & Hl)|[-> ->]]; cycle 1.
    { rewrite (proj2 (Z.leb_gt _ _)) by nia. exists (shards be). by destruct be. }
    rewrite (proj2 (Z.leb_le _ _)) by nia.
    set (len := (min ((q + 1) * BG) E - (length log0 + k))%nat).
    assert (q * BG ≤ Q * BG)%nat by (apply Nat.mul_le_mono_r; lia).
    assert (length log0 + k < E ∧ length log0 + k < (q + 1) * BG)%nat as [HE Hq1] by (unfold E in *; lia).
    destruct (round_step be k len q) as (m & tokens & Hsend & Hwait & Hr'); [done|unfold len, E in *; lia|lia..|].
    assert (length log0 + k + len = min ((q + 1) * BG) E)%nat as Hto by lia.
    replace (if Z.of_nat (q * BG) <? lenZ log0 then lenZ log0 else Z.of_nat (q * BG))
      with (Z.of_nat (length log0 + k)) by (case_zb; lia).
    rewrite (u64_small (Z.of_nat (q * BG) + Z.of_nat BG - 1)) by lia.
    replace (if Z.of_nat E - 1 <? Z.of_nat (q * BG) + Z.of_nat BG - 1 then Z.of_nat E - 1
             else Z.of_nat (q * BG) + Z.of_nat BG - 1)
      with (Z.of_nat (length log0 + k + len) - 1) by (case_zb; lia).
    rewrite Hsend. cbn [lift mbind outcome_bind]. rewrite Hwait. cbn [mbind outcome_bind].
    rewrite u64_small by lia. replace (Z.of_nat (q * BG) + Z.of_nat BG) with (Z.of_nat ((q + 1) * BG)) by lia.
    destruct (IH (with_shards be m) (k + len)%nat (q + 1)%nat) as (m' & Happ & Hr''); [done|unfold E in *; lia| |lia|].
    { destruct (decide (q = Q)) as [->|Hne]; [right; split; [done|]; unfold E in *; nia|left].
      assert ((q + 1) * BG ≤ Q * BG)%nat by (apply Nat.mul_le_mono_r; lia).
      unfold E in *. lia. }
    exists m'. split; [exact Happ|done].
Qed.
End AllRounds.
End Rounds.

(** ** The backend *)

(** What may follow the entries of a batch: the end marker of a fetch. *)
Definition batch_tail (tail : list LogEntry) : Prop :=
  tail = [] ∨ ∃ m, tail = [m] ∧ wf_entry m ∧ log_idx m = 0.

(** New entries that continue the log. *)
Record new_entries (u n : nat) (M cap : Z) (log new : list LogEntry) : Prop := {
  ne_ne : new ≠ [];
  ne_num : numbered (log ++ new);
  ne_valid : Forall valid_entry new;
  ne_small : small_entries M new;
  ne_len : lenZ new + 1 < 2 ^ 32;
  ne_M : 0 ≤ M;
  ne_cap : 4 + M * Z.of_nat u ≤ cap < 2 ^ 64;
  ne_u : Z.of_nat u < 2 ^ 32;
  ne_max : Z.of_nat (length log + length new + 2 * (u * n) + n) < 2 ^ 64
}.

Lemma numbered_last log new e :
  numbered (log ++ new) → last new = Some e → log_idx e = lenZ log + lenZ new - 1.
Proof.
  intros Hn Hl. rewrite last_lookup in Hl. pose proof (lookup_lt_Some _ _ _ Hl).
  rewrite (Hn (length log + pred (length new))%nat e); [lia|].
  rewrite lookup_app_r by lia. rewrite <- Hl. f_equal. lia.
Qed.

Lemma numbered_head log new e :
  numbered (log ++ new) → head new = Some e → log_idx e = lenZ log.
Proof.
  intros Hn Hh. apply (Hn (length log) e). rewrite lookup_app_r, Nat.sub_diag by lia.
  by destruct new.
Qed.

(** The index range that [AppendBatch] computes. *)
Lemma batch_range log new tail :
  numbered (log ++ new) → new ≠ [] → batch_tail tail →
  ∃ first back, head (new ++ tail) = Some first ∧ last (new ++ tail) = Some back ∧
    log_idx first = lenZ log ∧
    (if (1 <? lenZ (new ++ tail)) && (log_idx back =? 0)
     then log_idx <$> (new ++ tail) !! (length (new ++ tail) - 2)%nat else Some (log_idx back))
      = Some (lenZ log + lenZ new - 1).
Proof.
  intros Hn Hne Ht. destruct (last new) as [l|] eqn:El; [|by apply last_None in El].
  pose proof (numbered_last log new l Hn El) as Hl.
  destruct (head new) as [f|] eqn:Ef; [|by destruct new].
  assert (length new ≠ 0)%nat by (by destruct new).
  destruct Ht as [->|(m & -> & _ & Hm)].
  - rewrite app_nil_r. exists f, l. rewrite Ef, El. split; [done|]. split; [done|].
    split; [by apply (numbered_head log new)|]. rewrite Hl. repeat case_zb; try done; simpl; lia.
  - exists f, m. rewrite last_snoc. split; [by destruct new|]. split; [done|].
    split; [by apply (numbered_head log new)|]. rewrite Hm, length_app. cbn [length].
    rewrite (proj2 (Z.ltb_lt _ _)) by lia. cbn [andb Z.eqb].
    replace (length new + 1 - 2)%nat with (pred (length new)) by lia.
    rewrite lookup_app_l, <- last_lookup, El by lia. simpl. by rewrite Hl.
Qed.

Section Backend.
Context `{Posix, Erpc} (u n : nat) (M cap : Z).
Context (Hcreate : ∀ p, may_create p = true) (Hwrite : ∀ k, write_len k = k).

Lemma be_big_stripe R be log glob :
  store_repr u n R cap glob be log →
  big_stripe (be_stripe_unit_size be) (be_shard_num be) = Z.of_nat (u * n).
Proof.
  intros []. unfold big_stripe. rewrite st_unit0, st_num0, (u64_small (Z.of_nat n)) by lia.
  rewrite u64_small by lia. lia.
Qed.

(** The bases of the first and the last round, and the number of rounds. *)
Lemma round_bases L E BG :
  (0 < BG)%nat → (L < E)%nat → Z.of_nat E < 2 ^ 64 →
  let q := (L / BG)%nat in
  let Q := ((E - 1) / BG)%nat in
  u64 (Z.of_nat L / Z.of_nat BG * Z.of_nat BG) = Z.of_nat (q * BG) ∧
  u64 ((Z.of_nat E - 1) / Z.of_nat BG * Z.of_nat BG) = Z.of_nat (Q * BG) ∧
  Z.to_nat ((Z.of_nat (Q * BG) - Z.of_nat (q * BG)) / Z.of_nat BG + 1) = (Q + 1 - q)%nat ∧
  (q ≤ Q)%nat ∧ (q * BG ≤ L)%nat ∧ (L < (q + 1) * BG)%nat.
Proof.
  intros HBG HLE HE q Q.
  pose proof (Nat.div_mod (E - 1) BG ltac:(lia)) as HQ. fold Q in HQ.
  pose proof (Nat.div_mod L BG ltac:(lia)) as Hq. fold q in Hq.
  pose proof (Nat.mod_upper_bound L BG ltac:(lia)).
  assert (q ≤ Q)%nat as HqQ by (apply Nat.Div0.div_le_mono; lia).
  split; [|split; [|split; [|nia]]].
  - rewrite <- Nat2Z.inj_div, <- Nat2Z.inj_mul. apply u64_small. fold q. nia.
  - replace (Z.of_nat E - 1) with (Z.of_nat (E - 1)) by lia.
    rewrite <- Nat2Z.inj_div, <- Nat2Z.inj_mul. apply u64_small. fold Q. nia.
  - replace (Z.of_nat (Q * BG) - Z.of_nat (q * BG)) with (Z.of_nat (Q - q) * Z.of_nat BG) by nia.
    rewrite Z.div_mul by lia. lia.
Qed.

(** Appending does not depend on the buffers for reads. *)
Lemma AppendBatch_gen R be log new tail glob :
  store_repr u n R cap glob be log → new_entries u n M cap log new → batch_tail tail →
  ∃ be', AppendBatch be (new ++ tail) = Ok (be', lenZ log + lenZ new - 1) ∧
    store_repr u n R cap glob be' (log ++ new).
Proof.
  intros Hr Hne Ht. destruct Hne as [Hne Hn Hv Hsm Hlen HM Hcap Hu32 Hmax].
  destruct (batch_range log new tail Hn Hne Ht) as (first & back & Hf & Hb & Hfi & Hend).
  pose proof (st_u _ _ _ _ _ _ _ Hr) as Hu. pose proof (st_n _ _ _ _ _ _ _ Hr) as Hn0.
  assert (length new ≠ 0)%nat by (by destruct new).
  assert (length tail ≤ 1)%nat as Htl by (destruct Ht as [->|(m & -> & _)]; simpl; lia).
  assert (Forall wf_entry (new ++ tail)) as Hwf.
  { apply Forall_app_2; [by apply valid_wf|]. destruct Ht as [->|(m & -> & Hm & _)]; [done|]. by constructor. }
  unfold AppendBatch. rewrite Hf, Hb. cbn [lift mbind outcome_bind]. rewrite Hfi, Hend.
  cbn [lift mbind outcome_bind]. rewrite (be_big_stripe _ _ _ _ Hr).
  assert (0 < u * n)%nat by nia. rewrite (proj2 (Z.eqb_neq _ _)) by lia.
  replace (lenZ log + lenZ new - 1) with (Z.of_nat (length log + length new) - 1) by lia.
  destruct (round_bases (length log) (length log + length new) (u * n)) as (-> & -> & -> & Hq); [lia..|].
  destruct (append_rounds_ok u n M R cap Hcreate Hwrite (proj1 Hcap) HM (proj2 Hcap) Hu
    (st_n31 _ _ _ _ _ _ _ Hr) Hu32 (new ++ tail) log (length new) glob)
    with (fuel := ((length log + length new - 1) / (u * n) + 1 - length log / (u * n))%nat)
      (be := be) (k := 0%nat) (q := (length log / (u * n))%nat) as (m & Happ & Hr');
    rewrite ?take_app_length, ?length_app; try done; try lia.
  { by rewrite app_nil_r. }
  rewrite take_app_length in Hr'. exists (with_shards be m). split; [|done].
  rewrite Happ. done.
Qed.

Lemma AppendBatch_ok be log new tail glob :
  store_repr u n M cap glob be log → new_entries u n M cap log new → batch_tail tail →
  ∃ be', AppendBatch be (new ++ tail) = Ok (be', lenZ log + lenZ new - 1) ∧
    store_repr u n M cap glob be' (log ++ new).
Proof. apply AppendBatch_gen. Qed.

(** *** Reads *)

(** An entry that the shard has is replicated. *)
Lemma replicated_covers g s log glob j e :
  shard_holds u n s glob g log → numbered log → log !! (s + j * n)%nat = Some e →
  Z.of_nat s + Z.of_nat j * Z.of_nat n ≤ replicated_index_ (primary g).
Proof.
  intros Hg Hnum Ee. pose proof (sr_s _ _ _ _ _ (sh_primary _ _ _ _ _ _ Hg)) as Hs.
  destruct (last (mine n s log)) as [l|] eqn:El.
  - rewrite (sh_replicated _ _ _ _ _ _ Hg l El). rewrite last_lookup in El.
    rewrite lookup_mine in El by done. rewrite (Hnum _ _ El).
    rewrite <- lookup_mine in Ee by done. apply lookup_lt_Some in Ee. nia.
  - apply last_None in El. rewrite <- lookup_mine, El in Ee by done. done.
Qed.

(** A read of an entry that the shard may show: the answer must fit the buffer of the
    client. *)
Lemma shard_ReadEntry_sends g s log glob slow j e e0 :
  let idx := Z.of_nat s + Z.of_nat j * Z.of_nat n in
  shard_holds u n s glob g log → 8 ≤ req_cap g → numbered log → idx < 2 ^ 64 →
  log !! (s + j * n)%nat = Some e → idx ≤ glob → entry_size e ≤ bcap (read_resp g) →
  ∃ p, shard_ReadEntry g slow idx e0 =
      (if resp_cap g <? entry_size e then Fault else Ok (with_servers g p (backups g), true, e)) ∧
    shard_holds u n s glob (with_servers g p (backups g)) log.
Proof.
  intros idx Hg Hcap8 Hnum Hidx Ee Hle HM.
  pose proof (sr_s _ _ _ _ _ (sh_primary _ _ _ _ _ _ Hg)) as Hs.
  pose proof (read_turn_ok u n s (primary g) (mine n s log) j (sh_primary _ _ _ _ _ _ Hg) Hidx) as Hturn.
  fold idx in Hturn. rewrite lookup_mine, (sh_global _ _ _ _ _ _ Hg), Ee in Hturn by done.
  pose proof (replicated_covers g s log glob j e Hg Hnum Ee) as Hrepl. fold idx in Hrepl.
  rewrite (proj2 (Z.ltb_ge _ _) Hrepl), (proj2 (Z.ltb_ge _ _) Hle) in Hturn. cbn [orb] in Hturn.
  unfold shard_ReadEntry, store_int. rewrite store_ok by (rewrite ?length_le; simpl; lia).
  cbn [lift mbind outcome_bind]. rewrite send_ok by (simpl; lia). cbn [lift mbind outcome_bind].
  unfold bpoke. cbn [bmem]. change (Z.to_nat 8) with 8%nat. rewrite (peek_poke_int ∅ 0 8).
  unfold ReadEntryHandler. rewrite load_u64_response by lia. cbn [mbind option_bind]. rewrite Hturn. cbn [mbind option_bind].
  assert (valid_entry e) as Hv.
  { rewrite <- lookup_mine in Ee by done.
    eapply (Forall_lookup_1 valid_entry); [apply (sr_valid _ _ _ _ _ (sh_primary _ _ _ _ _ _ Hg))|exact Ee]. }
  pose proof (entry_size_encode e). pose proof (entry_size_pos e).
  rewrite (Serializer_ok e) by (apply Hv || lia). cbn [mbind option_bind].
  rewrite send_ok by (simpl; lia). cbn [lift mbind option_bind outcome_bind].
  rewrite length_peek. cbn [resp_cap with_servers]. rewrite Z2Nat.id by lia.
  exists (count_read (primary g) slow). split.
  - destruct (resp_cap g <? entry_size e); [done|]. rewrite (proj2 (Z.leb_gt _ _)) by lia.
    rewrite (entry_message e) by (done || lia || apply peek_poke_same). done.
  - destruct Hg as [Hp Hb Hrp Hgl]. split; try done. destruct Hp. by split.
Qed.

(** A read of an entry that the shard does not have, or may not show yet. *)
Lemma shard_ReadEntry_waits g s log glob slow j e0 :
  let idx := Z.of_nat s + Z.of_nat j * Z.of_nat n in
  shard_holds u n s glob g log → 8 ≤ req_cap g → idx < 2 ^ 64 →
  log !! (s + j * n)%nat = None ∨ glob < idx → shard_ReadEntry g slow idx e0 = Blocked.
Proof.
  intros idx Hg Hcap8 Hidx Hno. pose proof (sr_s _ _ _ _ _ (sh_primary _ _ _ _ _ _ Hg)) as Hs.
  pose proof (read_turn_ok u n s (primary g) (mine n s log) j (sh_primary _ _ _ _ _ _ Hg) Hidx) as Hturn.
  fold idx in Hturn. rewrite lookup_mine, (sh_global _ _ _ _ _ _ Hg) in Hturn by done.
  unfold shard_ReadEntry, store_int. rewrite store_ok by (rewrite ?length_le; simpl; lia).
  cbn [lift mbind outcome_bind]. rewrite send_ok by (simpl; lia). cbn [lift mbind outcome_bind].
  unfold bpoke. cbn [bmem]. change (Z.to_nat 8) with 8%nat. rewrite (peek_poke_int ∅ 0 8).
  unfold ReadEntryHandler. rewrite load_u64_response by lia. cbn [mbind option_bind]. rewrite Hturn. cbn [mbind option_bind].
  destruct Hno as [->|Hgt]; [by destruct (_ || _)|]. by rewrite (proj2 (Z.ltb_lt _ _) Hgt), orb_true_r.
Qed.

Lemma shard_ReadEntry_ok g s log glob slow j e0 :
  let idx := Z.of_nat s + Z.of_nat j * Z.of_nat n in
  shard_holds u n s glob g log → big_buffers M cap g → 8 ≤ cap → numbered log →
  small_entries M log → idx < 2 ^ 64 →
  match log !! (s + j * n)%nat with
  | Some e =>
      if idx <=? glob
      then ∃ g', shard_ReadEntry g slow idx e0 = Ok (g', true, e) ∧ shard_holds u n s glob g' log ∧
             big_buffers M cap g'
      else shard_ReadEntry g slow idx e0 = Blocked
  | None => shard_ReadEntry g slow idx e0 = Blocked
  end.
Proof.
  intros idx Hg (Hreq & Hresp & Hrep & Hrd) Hcap8 Hnum Hsm Hidx.
  destruct (log !! (s + j * n)%nat) as [e|] eqn:Ee; [|apply (shard_ReadEntry_waits g s log glob); auto; lia].
  destruct (Z.leb_spec idx glob) as [Hle|Hgt]; [|apply (shard_ReadEntry_waits g s log glob); auto; lia].
  pose proof (Forall_lookup_1 _ _ _ _ Hsm Ee) as HM. simpl in HM.
  destruct (shard_ReadEntry_sends g s log glob slow j e e0) as (p & Hread & Hh); try done; try lia.
  fold idx in Hread. rewrite Hread, (proj2 (Z.ltb_ge _ _)) by lia. eexists. split; [done|]. split; [done|]. by split_and!.
Qed.

Lemma be_ReadEntry_ok be log glob slow i e0 :
  store_repr u n M cap glob be log → 8 ≤ cap → numbered log → small_entries M log → Z.of_nat i < 2 ^ 64 →
  match log !! i with
  | Some e =>
      if Z.of_nat i <=? glob
      then ∃ be', be_ReadEntry be slow (Z.of_nat i) e0 = Ok (be', true, e) ∧ store_repr u n M cap glob be' log
      else be_ReadEntry be slow (Z.of_nat i) e0 = Blocked
  | None => be_ReadEntry be slow (Z.of_nat i) e0 = Blocked
  end.
Proof.
  intros Hr Hcap8 Hnum Hsm Hi. pose proof (st_n _ _ _ _ _ _ _ Hr) as Hn. pose proof (st_n31 _ _ _ _ _ _ _ Hr).
  set (s := (i mod n)%nat). set (j := (i / n)%nat).
  assert (s < n)%nat as Hs by (apply Nat.mod_upper_bound; lia).
  pose proof (Nat.div_mod i n ltac:(lia)) as Hdm. fold s j in Hdm.
  destruct (st_shards _ _ _ _ _ _ _ Hr s Hs) as (g & Hg & Hh & Hb).
  pose proof (shard_ReadEntry_ok g s log glob slow j e0 Hh Hb Hcap8 Hnum Hsm) as Hread.
  replace (s + j * n)%nat with i in Hread by lia.
  replace (Z.of_nat s + Z.of_nat j * Z.of_nat n) with (Z.of_nat i) in Hread by lia. specialize (Hread Hi).
  unfold be_ReadEntry. rewrite (st_num _ _ _ _ _ _ _ Hr), (proj2 (Z.eqb_neq _ _)), u64_small by lia.
  assert (i32 (Z.of_nat i mod Z.of_nat n) = Z.of_nat s) as ->
    by (rewrite <- Nat2Z.inj_mod; apply i32_small; fold s; lia).
  rewrite Hg. cbn [lift mbind outcome_bind].
  destruct (log !! i) as [e|]; [|by rewrite Hread].
  destruct (Z.of_nat i <=? glob); [|by rewrite Hread].
  destruct Hread as (g' & -> & Hh' & Hb'). cbn [mbind outcome_bind]. eexists. split; [done|].
  destruct Hr. split; try done; cbn [shards with_shards].
  - intros s' Hs'. destruct (decide (s' = s)) as [->|Hne].
    + exists g'. by rewrite lookup_insert_eq.
    + rewrite lookup_insert_ne by lia. auto.
  - intros k Hk. destruct (decide (Z.of_nat s = k)) as [<-|Hne]; [eauto|].
    rewrite lookup_insert_ne in Hk by done. auto.
Qed.

(** *** The global index *)

Lemma UpdateGlobalIdxAsync_ok g s log glob idx :
  shard_holds u n s glob g log → big_buffers M cap g → 8 ≤ cap → 0 ≤ idx < 2 ^ 64 →
  ∃ g', UpdateGlobalIdxAsync g idx = Some g' ∧ shard_holds u n s idx g' log ∧ big_buffers M cap g'.
Proof.
  intros Hg (Hreq & Hrep & Hrd) Hcap8 Hidx. unfold UpdateGlobalIdxAsync, store_int.
  rewrite store_ok by (rewrite ?length_le; simpl; lia). cbn [mbind option_bind].
  rewrite send_ok by (simpl; lia). cbn [mbind option_bind].
  unfold bpoke. cbn [bmem]. change (Z.to_nat 8) with 8%nat. rewrite (peek_poke_int ∅ 0 8).
  unfold UpdateGlobalIdxHandler. rewrite load_u64_response by done. cbn [mbind option_bind].
  eexists. split; [done|]. split; [|done]. destruct Hg as [[] Hb Hrp Hgl]. by split.
Qed.

Lemma update_shards (m : gmap Z Shard) idx :
  (∀ k g, m !! k = Some g → is_Some (UpdateGlobalIdxAsync g idx)) →
  ∃ m' : gmap Z Shard, map_fold (λ k g acc, m ← acc; g ← UpdateGlobalIdxAsync g idx; Some (<[k := g]> m)) (Some ∅) m
      = Some m' ∧
    ∀ k, m' !! k = m !! k ≫= λ g, UpdateGlobalIdxAsync g idx.
Proof.
  revert m. apply (map_fold_weak_ind (λ acc m,
    (∀ k g, m !! k = Some g → is_Some (UpdateGlobalIdxAsync g idx)) →
    ∃ m' : gmap Z Shard, acc = Some m' ∧ ∀ k, m' !! k = m !! k ≫= λ g, UpdateGlobalIdxAsync g idx)).
  - intros _. exists ∅. split; [done|]. intros k. by rewrite !lookup_empty.
  - intros k g m acc Hk IH Hall.
    destruct (Hall k g) as [g' Hg']; [by rewrite lookup_insert_eq|].
    destruct IH as (m' & -> & Hm').
    { intros k' g0 Hk'. apply (Hall k'). by rewrite lookup_insert_ne by congruence. }
    simpl. rewrite Hg'. simpl. exists (<[k := g']> m'). split; [done|]. intros k'.
    destruct (decide (k = k')) as [<-|Hne]; [by rewrite !lookup_insert_eq|by rewrite !lookup_insert_ne].
Qed.

Lemma UpdateGlobalIdx_ok be log glob idx :
  store_repr u n M cap glob be log → 8 ≤ cap → 0 ≤ idx < 2 ^ 64 →
  ∃ be', UpdateGlobalIdx be idx = Some be' ∧ store_repr u n M cap idx be' log.
Proof.
  intros Hr Hcap8 Hidx. destruct (update_shards (shards be) idx) as (m & Hfold & Hm).
  { intros k g Hg. destruct (st_dom _ _ _ _ _ _ _ Hr k) as (s & Hs & ->); [by eexists|].
    destruct (st_shards _ _ _ _ _ _ _ Hr s Hs) as (g' & Hg' & Hh & Hb). simplify_eq.
    destruct (UpdateGlobalIdxAsync_ok g s log glob idx Hh Hb Hcap8 Hidx) as (g' & -> & _). by eexists. }
  unfold UpdateGlobalIdx. rewrite Hfold. simpl. eexists. split; [done|].
  destruct Hr. split; try done; cbn [shards with_shards].
  - intros s Hs. destruct (st_shards0 s Hs) as (g & Hg & Hh & Hb).
    destruct (UpdateGlobalIdxAsync_ok g s log glob idx Hh Hb Hcap8 Hidx) as (g' & Hu & Hh' & Hb').
    exists g'. rewrite Hm, Hg. simpl. by rewrite Hu.
  - intros k Hk. apply st_dom0. rewrite Hm in Hk. destruct (shards be !! k); [by eexists|].
    by destruct Hk.
Qed.
End Backend.

(** ** A fresh store *)

(** A shard server over an empty folder. *)
Definition fresh_server (u n s : nat) : ShardServer :=
  mkShard ∅ ∅ ∅ (Z.of_nat u) (Z.of_nat n) (Z.of_nat s) "./data/" 0 0 0 0 (mkOs ∅ ∅).

Lemma fresh_server_repr u n s :
  (0 < u)%nat → (s < n)%nat → Z.of_nat n < 2 ^ 31 → Z.of_nat u * Z.of_nat n < 2 ^ 64 →
  shard_repr u n s (fresh_server u n s) [].
Proof.
  intros. assert (∀ b, stripe u b [] = []) as Hst by (intros; unfold stripe; by rewrite drop_nil, take_nil).
  split; try done; intros b; rewrite Hst; done.
Qed.

Definition fresh_shard (u n s : nat) (cap : Z) : Shard :=
  mkShardGroup (fresh_server u n s) [fresh_server u n s] cap 4096 cap (Buf 8192 ∅).

(** Two shards with one backup each and stripe units of two entries. *)
Definition two_shards : NaiveBackend :=
  mkBackend 2 2 (<[0 := fresh_shard 2 2 0 2048]> (<[1 := fresh_shard 2 2 1 2048]> ∅)).

Lemma two_shards_repr : store_repr 2 2 1000 2048 0 two_shards [].
Proof.
  assert (∀ s, (s < 2)%nat → shard_holds 2 2 s 0 (fresh_shard 2 2 s 2048) []) as Hsh.
  { intros s Hs. assert (mine 2 s [] = []) as Hm.
    { apply list_eq. intros j. by rewrite lookup_mine, !lookup_nil. }
    pose proof (fresh_server_repr 2 2 s ltac:(lia) Hs ltac:(lia) ltac:(lia)).
    split; rewrite ?Hm; try done. by apply Forall_singleton. }
  split; try done; try lia.
  - intros [|[|s]] Hs; [| |lia].
    + exists (fresh_shard 2 2 0 2048). split; [done|]. split; [by apply Hsh|done].
    + exists (fresh_shard 2 2 1 2048). split; [done|]. split; [by apply Hsh|done].
  - intros k Hk. simpl in Hk. destruct (decide (k = 0)) as [->|H0]; [by exists 0%nat; split; [lia|]|].
    destruct (decide (k = 1)) as [->|H1]; [by exists 1%nat; split; [lia|]|].
    rewrite !lookup_insert_ne, lookup_empty in Hk by done. by destruct Hk.
Qed.

(** Five entries, the end marker of a fetch, and what they are stored as. *)
Definition five_entries : list LogEntry := (λ i, mkEntry 42 i i 2 1 0 [Byte.x41; Byte.x42]) <$> [0; 1; 2; 3; 4].
Definition marker_entry : LogEntry := set_client_seq LogEntry_default 180.

Lemma five_entries_new : new_entries 2 2 1000 2048 [] five_entries.
Proof.
  split; try done.
  - intros i e He. do 5 (destruct i as [|i]; [by simplify_eq/=|]). done.
  - repeat constructor; by apply (bool_decide_unpack (valid_entry _)); vm_compute.
  - repeat constructor; by vm_compute.
Qed.

(** C15. A batch handed to the storage backend, whole stripe units or parts of them,
    with or without the end marker of a fetch, is stored completely: every entry is on
    the shard of its residue class and on each backup of it, in the vector and the data
    file of its stripe unit, and the index of the last entry is returned.  Once that
    index is published with [UpdateGlobalIdx], a read of any index of the log returns
    its entry. *)
Theorem store_and_read `{Posix, Erpc} u n M cap be log new tail glob slow e0 :
  (∀ p, may_create p = true) → (∀ k, write_len k = k) →
  store_repr u n M cap glob be log → new_entries u n M cap log new → batch_tail tail →
  8 ≤ cap → small_entries M log →
  ∃ be1 be2, AppendBatch be (new ++ tail) = Ok (be1, lenZ log + lenZ new - 1) ∧
    UpdateGlobalIdx be1 (lenZ log + lenZ new - 1) = Some be2 ∧
    store_repr u n M cap (lenZ log + lenZ new - 1) be2 (log ++ new) ∧
    ∀ i e, (log ++ new) !! i = Some e →
      ∃ be3, be_ReadEntry be2 slow (Z.of_nat i) e0 = Ok (be3, true, e).
Proof.
  intros Hcreate Hwrite Hr Hne Ht Hcap8 Hsm. pose proof (ne_max _ _ _ _ _ _ Hne) as Hmax.
  assert (length new ≠ 0)%nat as Hlen by (pose proof (ne_ne _ _ _ _ _ _ Hne); by destruct new).
  destruct (AppendBatch_ok u n M cap Hcreate Hwrite be log new tail glob Hr Hne Ht) as (be1 & Happ & Hr1).
  destruct (UpdateGlobalIdx_ok u n M cap be1 _ _ (lenZ log + lenZ new - 1) Hr1 Hcap8) as (be2 & Hupd & Hr2);
    [lia|].
  exists be1, be2. split; [done|]. split; [done|]. split; [done|]. intros i e He.
  pose proof (lookup_lt_Some _ _ _ He) as Hi. rewrite length_app in Hi.
  pose proof (be_ReadEntry_ok u n M cap be2 (log ++ new) _ slow i e0 Hr2 Hcap8 (ne_num _ _ _ _ _ _ Hne)) as Hrd.
  rewrite He, (proj2 (Z.leb_le _ _)) in Hrd by lia.
  destruct Hrd as (be3 & Hrd & _); [|lia|by exists be3].
  apply Forall_app_2; [done|apply Hne].
Qed.

Lemma store_and_read_witness :
  ∃ be1 be2, AppendBatch two_shards (five_entries ++ [marker_entry]) = Ok (be1, 4) ∧
    UpdateGlobalIdx be1 4 = Some be2 ∧ store_repr 2 2 1000 2048 4 be2 five_entries ∧
    ∀ i e, five_entries !! i = Some e →
      ∃ be3, be_ReadEntry be2 false (Z.of_nat i) LogEntry_default = Ok (be3, true, e).
Proof.
  apply (store_and_read 2 2 1000 2048 two_shards [] five_entries [marker_entry] 0 false LogEntry_default).
  - done.
  - done.
  - exact two_shards_repr.
  - exact five_entries_new.
  - right. exists marker_entry. by vm_compute.
  - done.
  - constructor.
Defined.

(** C20. A read never returns an entry beyond the published global index, nor one that
    the shard does not have: the request waits.  Otherwise it returns the entry of that
    index, and serving it changes nothing of what the shards hold. *)
Theorem read_waits_or_returns `{Posix, Erpc} u n M cap be log glob slow i e0 :
  store_repr u n M cap glob be log → 8 ≤ cap → numbered log → small_entries M log →
  Z.of_nat i < 2 ^ 64 →
  match log !! i with
  | Some e =>
      if Z.of_nat i <=? glob
      then ∃ be', be_ReadEntry be slow (Z.of_nat i) e0 = Ok (be', true, e) ∧ store_repr u n M cap glob be' log
      else be_ReadEntry be slow (Z.of_nat i) e0 = Blocked
  | None => be_ReadEntry be slow (Z.of_nat i) e0 = Blocked
  end.
Proof. apply be_ReadEntry_ok. Qed.

(** Five entries are stored, and only the first is published. *)
Lemma five_unpublished :
  ∃ be, AppendBatch two_shards (five_entries ++ [marker_entry]) = Ok (be, 4) ∧ store_repr 2 2 1000 2048 0 be five_entries.
Proof.
  apply (AppendBatch_ok 2 2 1000 2048) with (log := []) (new := five_entries) (tail := [marker_entry]) (glob := 0).
  - done.
  - done.
  - exact two_shards_repr.
  - exact five_entries_new.
  - right. exists marker_entry. by vm_compute.
Qed.

Lemma read_waits_or_returns_witness :
  ∃ be, AppendBatch two_shards (five_entries ++ [marker_entry]) = Ok (be, 4) ∧
    (∃ be', be_ReadEntry be false 0 LogEntry_default = Ok (be', true, mkEntry 42 0 0 2 1 0 [Byte.x41; Byte.x42]) ∧
       store_repr 2 2 1000 2048 0 be' five_entries) ∧
    be_ReadEntry be false 3 LogEntry_default = Blocked ∧ be_ReadEntry be false 5 LogEntry_default = Blocked.
Proof.
  destruct five_unpublished as (be & Happ & Hr). exists be. split; [exact Happ|]. clear Happ.
  pose proof (ne_num _ _ _ _ _ _ five_entries_new) as Hn. pose proof (ne_small _ _ _ _ _ _ five_entries_new) as Hs.
  split; [|split].
  - exact (read_waits_or_returns 2 2 1000 2048 be five_entries 0 false 0 LogEntry_default Hr ltac:(lia) Hn Hs ltac:(lia)).
  - exact (read_waits_or_returns 2 2 1000 2048 be five_entries 0 false 3 LogEntry_default Hr ltac:(lia) Hn Hs ltac:(lia)).
  - exact (read_waits_or_returns 2 2 1000 2048 be five_entries 0 false 5 LogEntry_default Hr ltac:(lia) Hn Hs ltac:(lia)).
Defined.
