(* ===== verification/KafkaBackend.v ===== *)
(** The backend that stores the log in a Kafka topic:
    [src/cons_log/storage/kafka_backend.cc].

    The producer of cppkafka is a parameter: a message that was produced is sent to its
    partition behind the messages produced before it, and [flush] returns when all
    messages are on the brokers.  The second [flush] of [AppendBatch] gives up after a
    second, so that nothing is assumed of what it has delivered. *)

From stdpp Require Import strings.
From S2P Require Import Prelude Props Sequencer LogEntry.

Local Open Scope Z_scope.

(** ** The producer *)

(** [sent p topic k] are the messages of a partition, those on the brokers and those that
    are queued.  [produce] may throw. *)
Class Kafka : Type := {
  Producer : Type;
  new_producer : string → Producer;
  produce : Producer → string → Z → list byte → option Producer;
  flush : Producer → Producer;
  flush_for : Z → Producer → Producer;
  sent : Producer → string → Z → list (list byte);
  sent_new : ∀ servers topic k, sent (new_producer servers) topic k = [];
  sent_produce : ∀ p topic k m p', produce p topic k m = Some p' →
    ∀ topic' k', sent p' topic' k' = if bool_decide (topic' = topic ∧ k' = k) then sent p topic k ++ [m] else sent p topic' k';
  sent_flush : ∀ p, sent (flush p) = sent p;
  sent_flush_for : ∀ ms p, sent (flush_for ms p) = sent p
}.

Section KafkaBackend.
Context `{Kafka}.

(** ** State *)

Record KafkaBackend : Type := mkKafka {
  producer_ : option Producer;
  kshard_num_ : Z;
  kstripe_unit_size_ : Z;
  topic_ : string;
  buf_ : buffer
}.

(** The constructor. *)
Definition kafka_new : KafkaBackend := mkKafka None 0 0 EmptyString (Buf 8192 ∅).

Definition kafka_InitializeBackend (p : Properties) (k : KafkaBackend) : option KafkaBackend :=
  let prod := new_producer (GetProperty p "bootstrap.servers" "localhost:9092") in
  num ← stoi (GetProperty p "shard.num" "1");
  unit ← stoi (GetProperty p "shard.stripe_unit_size" "100000");
  Some (mkKafka (Some prod) num (u64 unit) (GetProperty p "kafka.topic" "default-topic") (buf_ k)).

(** ** AppendBatch *)

(** The loop up to [end]: the producer, the buffer and [stripe_count].  The index modulo
    zero is undefined. *)
Fixpoint produce_each (k : KafkaBackend) (es : list LogEntry) (p : Producer) (b : buffer) (stripe_count : Z)
    : option (Producer * buffer * Z) :=
  match es with
  | [] => Some (p, b, stripe_count)
  | e :: es =>
      if kshard_num_ k =? 0 then None else
      let shard_id := i32 (log_idx e mod u64 (kshard_num_ k)) in
      '(b, len) ← Serializer e b 0;
      payload ← load b 0 (Z.to_nat len);
      p ← produce p (topic_ k) shard_id payload;
      let stripe_count := u64 (stripe_count + 1) in
      if u64 (kstripe_unit_size_ k * u64 (kshard_num_ k)) <=? stripe_count
      then produce_each k es (flush p) b 0
      else produce_each k es p b stripe_count
  end.

(** The position of [end]; [es.end() - 1] of an empty vector is undefined. *)
Definition batch_end (es : list LogEntry) : option nat :=
  e ← last es;
  Some (if (1 <? lenZ es) && (log_idx e =? 0) then (length es - 2)%nat else (length es - 1)%nat).

Definition kafka_AppendBatch (k : KafkaBackend) (es : list LogEntry) : option (KafkaBackend * Z) :=
  stop ← batch_end es;
  p ← producer_ k;
  '(p, b, _) ← produce_each k (take stop es) p (buf_ k) 0;
  e ← es !! stop;
  Some (mkKafka (Some (flush_for 1000 p)) (kshard_num_ k) (kstripe_unit_size_ k) (topic_ k) b, log_idx e).

Definition kafka_FinalizeBackend (k : KafkaBackend) : KafkaBackend :=
  mkKafka None (kshard_num_ k) (kstripe_unit_size_ k) (topic_ k) (buf_ k).

Definition kafka_ReadEntry (k : KafkaBackend) (idx : Z) : bool := false.

(** ** What is stored *)

(** The backend of a topic with [n] partitions, to which every message can be produced. *)
Record kafka_ok (n : Z) (k : KafkaBackend) : Prop := {
  ko_producer : is_Some (producer_ k);
  ko_num : kshard_num_ k = n ∧ 0 < n < 2 ^ 31;
  ko_buf : bcap (buf_ k) = 8192;
  ko_produce : ∀ p i m, 0 ≤ i < n → is_Some (produce p (topic_ k) i m)
}.

(** The messages of partition [i]. *)
Definition partition (k : KafkaBackend) (i : Z) : list (list byte) :=
  match producer_ k with Some p => sent p (topic_ k) i | None => [] end.

(** The message [m] is the entry [e]. *)
Definition carries (m : list byte) (e : LogEntry) : Prop :=
  ∀ e0, Deserializer e0 (msg_buf m) 0 = Some (e, lenZ m).

Definition of_partition (n i : Z) (es : list LogEntry) : list LogEntry := filter (λ e, log_idx e mod n = i) es.

Lemma message_carries e b :
  valid_entry e → entry_size e ≤ bcap b →
  ∃ b' m, Serializer e b 0 = Some (b', entry_size e) ∧ bcap b' = bcap b ∧
    load b' 0 (Z.to_nat (entry_size e)) = Some m ∧ carries m e.
Proof.
  intros Hv Hcap. pose proof (entry_size_pos e) as Hpos. pose proof (entry_size_encode e) as Henc.
  destruct (Serializer_step e b 0) as (b' & Hs & [Hc _] & He); [apply Hv|lia|lia|].
  exists b', (peek (rd (bmem b')) 0 (Z.to_nat (entry_size e))). split_and!; [done|done|by rewrite load_ok by lia|].
  intros e0. rewrite length_peek, Z2Nat.id by lia. apply Deserializer_ok; [done|lia| |].
  - unfold msg_buf. cbn [bcap]. rewrite length_peek. lia.
  - unfold encoded_at in *. rewrite <- He at 2. apply peek_ext. intros i Hi. apply rd_msg_peek. lia.
Qed.

Lemma produce_each_ok n k es p b c :
  kafka_ok n k → Forall valid_entry es → Forall (λ e, entry_size e ≤ 8192) es → bcap b = 8192 →
  ∃ p' b' c', produce_each k es p b c = Some (p', b', c') ∧ bcap b' = 8192 ∧
    ∀ i, ∃ ms, sent p' (topic_ k) i = sent p (topic_ k) i ++ ms ∧ Forall2 carries ms (of_partition n i es).
Proof.
  intros Hk Hv Hz Hb. destruct Hk as [_ [Hn Hr] _ Hp].
  revert p b c Hb. induction es as [|e es IH]; intros p b c Hb; [|apply Forall_cons in Hv as [Hve Hv]; apply Forall_cons in Hz as [Hze Hz]].
  - exists p, b, c. split_and!; [done..|]. intros i. exists []. by rewrite app_nil_r.
  - simpl. rewrite Hn, (proj2 (Z.eqb_neq _ _)), (u64_small n) by lia. pose proof (Z.mod_pos_bound (log_idx e) n ltac:(lia)) as Hmod.
    rewrite i32_small by lia. destruct (message_carries e b Hve ltac:(lia)) as (b1 & m & -> & Hc1 & Hl & Hm).
    cbn [mbind option_bind]. rewrite Hl. cbn [mbind option_bind].
    destruct (Hp p (log_idx e mod n) m Hmod) as [p1 Hp1]. rewrite Hp1. cbn [mbind option_bind].
    assert (∃ p2 c2, sent p2 = sent p1 ∧ (if u64 (kstripe_unit_size_ k * n) <=? u64 (c + 1) then produce_each k es (flush p1) b1 0
      else produce_each k es p1 b1 (u64 (c + 1))) = produce_each k es p2 b1 c2) as (p2 & c2 & Hs2 & ->).
    { destruct (_ <=? _); [exists (flush p1), 0; by rewrite sent_flush|by exists p1, (u64 (c + 1))]. }
    destruct (IH Hv Hz p2 b1 c2 ltac:(lia)) as (p' & b' & c' & -> & Hb' & Hsent). exists p', b', c'. split_and!; [done..|].
    intros i. destruct (Hsent i) as (ms & Hms & Hf). rewrite Hs2, (sent_produce _ _ _ _ _ Hp1) in Hms.
    unfold of_partition. destruct (decide (log_idx e mod n = i)) as [<-|Hi].
    + rewrite bool_decide_true, <- app_assoc in Hms by done. exists (m :: ms). split; [done|].
      rewrite filter_cons_True by done. by constructor.
    + rewrite bool_decide_false in Hms by naive_solver. exists ms. by rewrite filter_cons_False.
Qed.
End KafkaBackend.

(** What a batch leaves in the topic. *)
Lemma kafka_AppendBatch_sent `{Kafka} n k es e :
  kafka_ok n k → Forall valid_entry es → Forall (λ e, entry_size e ≤ 8192) es → log_idx e ≠ 0 →
  ∃ k', kafka_AppendBatch k (es ++ [e]) = Some (k', log_idx e) ∧ kafka_ok n k' ∧
    ∀ i, ∃ ms, partition k' i = partition k i ++ ms ∧ Forall2 carries ms (of_partition n i es).
Proof.
  intros Hk Hv Hz He. unfold kafka_AppendBatch, batch_end. rewrite last_snoc. cbn [mbind option_bind].
  rewrite (proj2 (Z.eqb_neq _ _) He), andb_false_r, length_app, Nat.add_sub, take_app_length. simpl.
  destruct (ko_producer _ _ Hk) as [p Hp]. rewrite Hp. simpl.
  destruct (produce_each_ok n k es p (buf_ k) 0 Hk Hv Hz (ko_buf _ _ Hk)) as (p' & b' & c' & -> & Hb' & Hs). simpl.
  rewrite list_lookup_middle by done. simpl. eexists. split; [done|]. split.
  - destruct Hk. by split.
  - intros i. unfold partition. simpl. rewrite Hp, sent_flush_for. apply Hs.
Qed.

(** C38. [KafkaBackend::AppendBatch] leaves out the last entry of every batch.  It returns the
    index of the last entry [e], as a backend does that has stored the batch; but its loop
    ends before [e], so that each partition receives exactly the entries before [e] whose
    index it has, in order, and [e] is not sent. *)
Theorem kafka_AppendBatch_drops_last `{Kafka} n k es e :
  kafka_ok n k → Forall valid_entry es → Forall (λ e, entry_size e ≤ 8192) es → log_idx e ≠ 0 →
  ∃ k', kafka_AppendBatch k (es ++ [e]) = Some (k', log_idx e) ∧ kafka_ok n k' ∧
    ∀ i, ∃ ms, partition k' i = partition k i ++ ms ∧ Forall2 carries ms (of_partition n i es).
Proof. apply kafka_AppendBatch_sent. Qed.

(** A batch whose last entry has index zero ends before that entry: it is treated as absent,
    and then the entry before it is left out too. *)
Lemma kafka_AppendBatch_zero `{Kafka} n k es e e0 :
  kafka_ok n k → Forall valid_entry es → Forall (λ e, entry_size e ≤ 8192) es → log_idx e0 = 0 →
  ∃ k', kafka_AppendBatch k (es ++ [e; e0]) = Some (k', log_idx e) ∧
    ∀ i, ∃ ms, partition k' i = partition k i ++ ms ∧ Forall2 carries ms (of_partition n i es).
Proof.
  intros Hk Hv Hz He. unfold kafka_AppendBatch, batch_end. rewrite (app_assoc es [e] [e0] : es ++ [e; e0] = _), last_snoc.
  cbn [mbind option_bind]. rewrite He, !length_app. simpl.
  rewrite (proj2 (Z.ltb_lt _ _)) by lia. simpl. replace (length es + 1 + 1 - 2)%nat with (length es) by lia.
  rewrite <- app_assoc, take_app_length. destruct (ko_producer _ _ Hk) as [p Hp]. rewrite Hp. simpl.
  destruct (produce_each_ok n k es p (buf_ k) 0 Hk Hv Hz (ko_buf _ _ Hk)) as (p' & b' & c' & -> & Hb' & Hs). simpl.
  rewrite list_lookup_middle by done. simpl. eexists. split; [done|].
  intros i. unfold partition. simpl. rewrite Hp, sent_flush_for. apply Hs.
Qed.

(** ** A producer in memory *)

#[export] Instance Kafka_memory : Kafka.
Proof.
  refine {| Producer := gmap (string * Z) (list (list byte)) * nat;
            new_producer := λ _, (∅, 0%nat);
            produce := λ p topic k m, Some (<[(topic, k) := default [] (p.1 !! (topic, k)) ++ [m]]> p.1, S p.2);
            flush := λ p, (p.1, 0%nat);
            flush_for := λ _ p, p;
            sent := λ p topic k, default [] (p.1 !! (topic, k)) |}.
  - intros servers topic k. simpl. by rewrite lookup_empty.
  - intros p topic k m p' [= <-] topic' k'. simpl. case_bool_decide as E.
    + destruct E as [-> ->]. by rewrite lookup_insert_eq.
    + rewrite lookup_insert_ne; [done|]. intros [= -> ->]. by apply E.
  - done.
  - done.
Defined.

Definition kafka_started : KafkaBackend :=
  default kafka_new (kafka_InitializeBackend (<["shard.num" := "2"]> ∅)%string kafka_new).

Lemma kafka_started_ok : kafka_ok 2 kafka_started.
Proof. split; [by eexists|split; [by vm_compute|lia]|done|by eexists]. Qed.

Lemma kafka_AppendBatch_drops_last_witness :
  let e i := mkEntry 42 i i 2 1 0 [Byte.x41; Byte.x42] in
  ∃ k', kafka_AppendBatch kafka_started [e 0; e 1; e 2; e 3] = Some (k', 3) ∧ kafka_ok 2 k' ∧
    ∀ i, ∃ ms, partition k' i = partition kafka_started i ++ ms ∧ Forall2 carries ms (of_partition 2 i [e 0; e 1; e 2]).
Proof.
  intros e. apply (kafka_AppendBatch_drops_last 2 kafka_started [e 0; e 1; e 2] (e 3)).
  - exact kafka_started_ok.
  - apply (bool_decide_unpack _). by vm_compute.
  - apply (bool_decide_unpack _). by vm_compute.
  - done.
Defined.
