(* ===== verification/BackendBench.v ===== *)
(** The programs that exercise a storage backend on their own:
    [src/cons_log/storage/basic_backend.cc], over Kafka, and
    [src/cons_log/storage/basic_backend_read.cc], a writer and readers over the shards.

    Their entries have 4096 bytes of data, so that an entry has 4128 bytes: more than the
    page that a shard client has for a response. *)

From stdpp Require Import strings.
From S2P Require Import Prelude Props Sequencer LogEntry DurLogFlat Replica DlTransport ShardServer.
From S2P Require Import ShardRepr NaiveBackend StorageLog KafkaBackend.

Local Open Scope Z_scope.

(** ** The programs *)

(** The entries of a round: the same payload, numbered from [idx] on. *)
Definition bench_entry (payload : list byte) (idx : Z) : LogEntry := set_flags (set_log_idx (LogEntry_of_cstr payload) idx) 1.

Definition bench_batch (payload : list byte) (batch_size : nat) (idx : Z) : list LogEntry :=
  (λ i, bench_entry payload (u64 (idx + Z.of_nat i))) <$> seq 0 batch_size.

(** [char payload[4097]], 4096 times 42 and a NUL. *)
Definition bench_payload : list byte := replicate 4096 Byte.x2a ++ [Byte.x00].

(** The loop over the rounds of [basic_backend.cc]. *)
Fixpoint kafka_rounds `{Kafka} (payload : list byte) (batch_size : nat) (round : nat) (idx : Z) (be : KafkaBackend)
    : option KafkaBackend :=
  match round with
  | O => Some be
  | S round =>
      '(be, _) ← kafka_AppendBatch be (bench_batch payload batch_size idx);
      kafka_rounds payload batch_size round (u64 (idx + Z.of_nat batch_size)) be
  end.

Section Shards.
Context `{Posix, Erpc}.

(** [writer_thread]. *)
Fixpoint writer_rounds (payload : list byte) (batch_size round : nat) (idx : Z) (be : NaiveBackend) : outcome NaiveBackend :=
  match round with
  | O => Ok be
  | S round =>
      '(be, _) ← AppendBatch be (bench_batch payload batch_size idx);
      writer_rounds payload batch_size round (u64 (idx + Z.of_nat batch_size)) be
  end.

(** [reader_thread] from [idx] on, [k] more reads. *)
Fixpoint reader_loop (k : nat) (idx : Z) (be : NaiveBackend) : outcome NaiveBackend :=
  match k with
  | O => Ok be
  | S k =>
      '(be, _, _) ← be_ReadEntry be false idx LogEntry_default;
      reader_loop k (u64 (idx + 1)) be
  end.
End Shards.

(** ** The entries *)

Lemma c_str_clean bs rest : Forall (λ b, b ≠ Byte.x00) bs → c_str (bs ++ Byte.x00 :: rest) = bs.
Proof. induction 1 as [|b bs Hb _ IH]; [done|]. simpl. rewrite IH. by destruct b. Qed.

(** A text of at most [n] bytes and a NUL. *)
Definition bench_text (bs : list byte) (n : Z) : Prop := Forall (λ b, b ≠ Byte.x00) bs ∧ lenZ bs ≤ n ∧ n < 2 ^ 31.

Lemma bench_entry_ok bs n i :
  bench_text bs n → 0 ≤ i < 2 ^ 64 →
  let e := bench_entry (bs ++ [Byte.x00]) i in
  valid_entry e ∧ entry_size e = 32 + pad4 (lenZ bs) ∧ log_idx e = i.
Proof.
  intros (Hc & Hlen & Hn) Hi e. unfold e, bench_entry, LogEntry_of_cstr. rewrite c_str_clean by done.
  rewrite u32_small by lia. split_and!; [|done|done].
  unfold valid_entry, wf_entry. simpl. lia.
Qed.

Lemma bench_batch_lookup bs k idx j e :
  bench_batch bs k idx !! j = Some e → (j < k)%nat ∧ e = bench_entry bs (u64 (idx + Z.of_nat j)).
Proof.
  unfold bench_batch. rewrite list_lookup_fmap. intros (i & Hi & ->)%fmap_Some.
  apply lookup_seq in Hi as [-> Hi]. split; [lia|done].
Qed.

Lemma bench_batch_Forall (P : LogEntry → Prop) bs k idx :
  0 ≤ idx → idx + Z.of_nat k < 2 ^ 64 → (∀ i, 0 ≤ i < 2 ^ 64 → P (bench_entry bs i)) → Forall P (bench_batch bs k idx).
Proof.
  intros H0 Hk HP. apply Forall_lookup. intros j e [Hj ->]%bench_batch_lookup. apply HP. rewrite u64_small; lia.
Qed.

Lemma bench_batch_snoc bs k idx :
  bench_batch bs (S k) idx = bench_batch bs k idx ++ [bench_entry bs (u64 (idx + Z.of_nat k))].
Proof. unfold bench_batch. by rewrite seq_S, fmap_app. Qed.

Lemma length_bench_batch bs k idx : length (bench_batch bs k idx) = k.
Proof. unfold bench_batch. by rewrite length_fmap, length_seq. Qed.

Lemma bench_batch_numbered bs k log :
  numbered log → Z.of_nat (length log + k) < 2 ^ 64 → numbered (log ++ bench_batch bs k (lenZ log)).
Proof.
  intros Hn Hk i e [He|[Hge He]]%lookup_app_Some; [by apply Hn|].
  apply bench_batch_lookup in He as [Hi ->]. simpl. rewrite u64_small by lia. lia.
Qed.

(** ** Kafka *)

(** What a partition should hold after [round] rounds of [k] + 1 entries, but for the last
    entry of each round. *)
Fixpoint all_but_last (bs : list byte) (k round : nat) (idx : Z) : list LogEntry :=
  match round with
  | O => []
  | S round => bench_batch bs k idx ++ all_but_last bs k round (idx + Z.of_nat (S k))
  end.

(** After [round] rounds of [k] + 1 entries the topic has [round] entries less than were
    written: in each partition those that it should have, in order, but for the last of each
    round. *)
Lemma kafka_rounds_lose `{Kafka} n bs m k round idx be :
  kafka_ok n be → bench_text bs m → 32 + pad4 (lenZ bs) ≤ 8192 → (0 < k)%nat → 0 ≤ idx →
  idx + Z.of_nat round * Z.of_nat (S k) < 2 ^ 64 →
  ∃ be', kafka_rounds (bs ++ [Byte.x00]) (S k) round idx be = Some be' ∧ kafka_ok n be' ∧
    ∀ i, ∃ ms, partition be' i = partition be i ++ ms ∧
      Forall2 carries ms (of_partition n i (all_but_last (bs ++ [Byte.x00]) k round idx)).
Proof.
  intros Hbe Hp Hsz Hk H0. revert be idx Hbe H0. induction round as [|round IH]; intros be idx Hbe H0 Hmax; simpl.
  - exists be. split_and!; [done..|]. intros i. exists []. by rewrite app_nil_r.
  - rewrite bench_batch_snoc, (u64_small (idx + Z.of_nat k)) by lia.
    destruct (kafka_AppendBatch_sent n be (bench_batch (bs ++ [Byte.x00]) k idx) (bench_entry (bs ++ [Byte.x00]) (idx + Z.of_nat k)))
      as (be1 & -> & Hbe1 & Hs1).
    + done.
    + apply bench_batch_Forall; [lia..|]. intros i Hi. by apply (bench_entry_ok bs m).
    + apply bench_batch_Forall; [lia..|]. intros i Hi. destruct (bench_entry_ok bs m i Hp Hi) as (_ & -> & _). lia.
    + destruct (bench_entry_ok bs m (idx + Z.of_nat k) Hp ltac:(lia)) as (_ & _ & ->). lia.
    + simpl. rewrite u64_small by lia. destruct (IH be1 (idx + Z.of_nat (S k)) Hbe1) as (be' & -> & Hbe' & Hs'); [lia..|].
      exists be'. split_and!; [done..|]. intros i. destruct (Hs1 i) as (ms1 & E1 & F1), (Hs' i) as (ms2 & E2 & F2).
      exists (ms1 ++ ms2). rewrite E2, E1, <- app_assoc. split; [done|]. unfold of_partition. rewrite filter_app.
      by apply Forall2_app.
Qed.

(** ** Shards *)

Section Oversized.
Context `{Posix, Erpc}.

(** The buffers for reads stay as they are. *)
Definition read_bufs (g : Shard) : Z * buffer := (resp_cap g, read_resp g).
Definition same_bufs (be be' : NaiveBackend) : Prop := ∀ k, read_bufs <$> shards be' !! k = read_bufs <$> shards be !! k.

Lemma AppendBatchAsync_bufs g es from to itrv g' e : AppendBatchAsync g es from to itrv = Some (g', e) → read_bufs g' = read_bufs g.
Proof.
  unfold AppendBatchAsync. intros Ha.
  destruct (MultiSerializer_stride _ _ _ _ _ _) as [[[b len] actual]|]; [|done]. simpl in Ha.
  destruct (send b len) as [bs|]; [|done]. simpl in Ha. destruct (AppendBatchHandler _ _ _ _) as [[p bks]|]; [|done].
  simpl in Ha. by simplify_eq.
Qed.

Lemma send_stripes_bufs fuel be es st from to s tokens be' tokens' :
  send_stripes fuel be es st from to s tokens = Some (be', tokens') → same_bufs be be'.
Proof.
  revert be s tokens. induction fuel as [|fuel IH]; intros be s tokens Hs; simpl in Hs; destruct (s <? _); try done; [by simplify_eq|..|by simplify_eq].
  destruct (to <? _); [by simplify_eq|]. destruct (shards be !! _) as [g|] eqn:Hg; [|done]. simpl in Hs.
  destruct (AppendBatchAsync _ _ _ _ _) as [[g' e]|] eqn:Ha; [|done]. simpl in Hs. apply IH in Hs. intros k. rewrite Hs.
  cbn [with_shards shards]. destruct (decide (u64 (from + s) mod u64 (be_shard_num be) = k)) as [<-|Hne].
  - rewrite lookup_insert_eq, Hg. simpl. by rewrite (AppendBatchAsync_bufs _ _ _ _ _ _ _ Ha).
  - by rewrite lookup_insert_ne.
Qed.

Lemma append_rounds_bufs fuel be es st en i last big be' :
  append_rounds fuel be es st en i last big = Ok be' → same_bufs be be'.
Proof.
  revert be i. induction fuel as [|fuel IH]; intros be i Hs; simpl in Hs; destruct (i <=? last); try done; [by simplify_eq|..|by simplify_eq].
  destruct (send_stripes _ _ _ _ _ _ _ _) as [[be1 tokens]|] eqn:Hss; [|done]. cbn [lift mbind outcome_bind] in Hs.
  destruct (waitForAllShards tokens); try done. cbn [mbind outcome_bind] in Hs. apply IH in Hs. intros k.
  by rewrite Hs, (send_stripes_bufs _ _ _ _ _ _ _ _ _ _ Hss).
Qed.

Lemma AppendBatch_bufs be es be' i : AppendBatch be es = Ok (be', i) → same_bufs be be'.
Proof.
  unfold AppendBatch. intros Ha. destruct (head es); [|done]. cbn [lift mbind outcome_bind] in Ha.
  destruct (last es); [|done]. cbn [lift mbind outcome_bind] in Ha.
  destruct (if _ : bool then _ else _); [|done]. cbn [lift mbind outcome_bind] in Ha. destruct (_ =? 0); [done|].
  destruct (append_rounds _ _ _ _ _ _ _ _) eqn:Hr; try done. cbn [mbind outcome_bind] in Ha. simplify_eq. by eapply append_rounds_bufs.
Qed.


(** The writer: all rounds are stored, whatever the buffers of the readers are. *)
Lemma writer_rounds_ok u n M R cap glob bs m k round be log :
  (∀ p, may_create p = true) → (∀ z, write_len z = z) →
  store_repr u n R cap glob be log → numbered log → bench_text bs m → 32 + pad4 (lenZ bs) ≤ M → (0 < k)%nat →
  Z.of_nat k + 1 < 2 ^ 32 → 4 + M * Z.of_nat u ≤ cap < 2 ^ 64 → Z.of_nat u < 2 ^ 32 →
  Z.of_nat (length log + round * k + 2 * (u * n) + n) < 2 ^ 64 →
  ∃ be' log', writer_rounds (bs ++ [Byte.x00]) k round (lenZ log) be = Ok be' ∧
    store_repr u n R cap glob be' (log ++ log') ∧ numbered (log ++ log') ∧ same_bufs be be' ∧
    length log' = (round * k)%nat ∧ Forall (λ e, entry_size e = 32 + pad4 (lenZ bs)) log'.
Proof.
  intros Hcr Hwr Hr Hnum Hp Hsz Hk Hk32 Hcap Hu32. revert be log Hr Hnum.
  induction round as [|round IH]; intros be log Hr Hnum Hmax; simpl.
  - exists be, []. rewrite app_nil_r. by split_and!.
  - assert (new_entries u n M cap log (bench_batch (bs ++ [Byte.x00]) k (lenZ log))) as Hne.
    { split; try done; try (rewrite ?length_bench_batch; lia).
      - intros E. apply (f_equal length) in E. rewrite length_bench_batch in E. simpl in E. lia.
      - by apply bench_batch_numbered; [|lia].
      - apply bench_batch_Forall; [lia..|]. intros i Hi. by apply (bench_entry_ok bs m).
      - apply bench_batch_Forall; [lia..|]. intros i Hi. destruct (bench_entry_ok bs m i Hp Hi) as (_ & -> & _). lia.
      - pose proof (pad4_range (lenZ bs)). lia. }
    destruct (AppendBatch_gen u n M cap Hcr Hwr R be log _ [] glob Hr Hne) as (be1 & Ha & Hr1); [by left|].
    rewrite app_nil_r in Ha. rewrite Ha. cbn [mbind outcome_bind].
    rewrite u64_small by lia. destruct (IH be1 _ Hr1 (ne_num _ _ _ _ _ _ Hne)) as (be' & log' & Hw & Hr' & Hn' & Hb' & Hl' & Hs').
    { rewrite length_app, length_bench_batch. lia. }
    rewrite length_app, length_bench_batch, Nat2Z.inj_add in Hw.
    exists be', (bench_batch (bs ++ [Byte.x00]) k (lenZ log) ++ log'). rewrite app_assoc. split_and!; try done.
    + intros i. by rewrite Hb', (AppendBatch_bufs _ _ _ _ Ha).
    + rewrite length_app, length_bench_batch. lia.
    + apply Forall_app. split; [|done]. apply bench_batch_Forall; [lia..|]. intros i Hi.
      by destruct (bench_entry_ok bs m i Hp Hi) as (_ & -> & _).
Qed.

(** What a reader gets for index zero. *)
Lemma read_first u n R cap be log slow e0 :
  store_repr u n R cap 0 be log → 8 ≤ cap → numbered log →
  (∀ k g e, shards be !! k = Some g → head log = Some e → resp_cap g < entry_size e ≤ bcap (read_resp g)) →
  be_ReadEntry be slow 0 e0 = if decide (log = []) then Blocked else Fault.
Proof.
  intros Hr Hcap Hnum Hsz. pose proof (st_n _ _ _ _ _ _ _ Hr) as Hn. pose proof (st_n31 _ _ _ _ _ _ _ Hr).
  destruct (st_shards _ _ _ _ _ _ _ Hr 0%nat Hn) as (g & Hg & Hh & Hb & _).
  unfold be_ReadEntry. rewrite (st_num _ _ _ _ _ _ _ Hr), (proj2 (Z.eqb_neq _ _)), u64_small, Z.mod_0_l by lia.
  change (i32 0) with (Z.of_nat 0). rewrite Hg. cbn [lift mbind outcome_bind]. destruct log as [|e log]; simpl.
  - pose proof (shard_ReadEntry_waits u n g 0 [] 0 slow 0 e0 Hh ltac:(lia) ltac:(lia) ltac:(by left)) as Hw.
    change (Z.of_nat 0 + Z.of_nat 0 * Z.of_nat n) with 0 in Hw. by rewrite Hw.
  - destruct (Hsz _ _ e Hg eq_refl) as [Hlt Hle].
    destruct (shard_ReadEntry_sends u n g 0 (e :: log) 0 slow 0 e e0 Hh ltac:(lia) Hnum ltac:(lia) eq_refl ltac:(lia) Hle)
      as (p & Hread & _). change (Z.of_nat 0 + Z.of_nat 0 * Z.of_nat n) with 0 in Hread. rewrite Hread.
    by rewrite (proj2 (Z.ltb_lt _ _) Hlt).
Qed.
End Oversized.

(** The benchmark of the storage layer cannot read what it writes.  The writer stores all
    of its rounds; a reader that comes before the first round waits; and as soon as the first
    round is stored, the first read fails, since the shard's answer, the entry with its 4096 bytes of
    data, does not fit the page that a shard client has allocated for it. *)
Theorem bench_reader_fails `{Posix, Erpc} u n R cap be k round j :
  (∀ p, may_create p = true) → (∀ z, write_len z = z) →
  store_repr u n R cap 0 be [] → (∀ i g, shards be !! i = Some g → resp_cap g = PAGE_SIZE ∧ 4128 ≤ bcap (read_resp g)) →
  4 + 4128 * Z.of_nat u ≤ cap < 2 ^ 64 → Z.of_nat u < 2 ^ 32 → (0 < k)%nat → Z.of_nat k + 1 < 2 ^ 32 → (0 < round)%nat →
  Z.of_nat (round * k + 2 * (u * n) + n) < 2 ^ 64 →
  reader_loop (S j) 0 be = Blocked ∧
  ∃ be', writer_rounds bench_payload k round 0 be = Ok be' ∧ reader_loop (S j) 0 be' = Fault.
Proof.
  intros Hcr Hwr Hr Hbuf Hcap Hu32 Hk Hk32 Hround Hmax. assert (bench_text (replicate 4096 Byte.x2a) 4096) as Hp.
  { split_and!; [by apply Forall_replicate|by rewrite length_replicate|lia]. }
  destruct (writer_rounds_ok u n 4128 R cap 0 (replicate 4096 Byte.x2a) 4096 k round be [] Hcr Hwr Hr) as (be' & log & Hw & Hr' & Hn' & Hb' & Hl' & Hs');
    [by intros ? ?|exact Hp|by rewrite length_replicate|done..|]. rewrite length_replicate in Hs'.
  pose proof (st_u _ _ _ _ _ _ _ Hr). assert (8 ≤ cap) as Hcap8 by lia. split.
  - cbn [reader_loop]. rewrite (read_first u n R cap be [] false _ Hr Hcap8); [done|by intros ? ?|done].
  - exists be'. split; [done|]. cbn [reader_loop]. simpl app in Hr', Hn'. rewrite (read_first u n R cap be' log false _ Hr' Hcap8 Hn').
    + rewrite decide_False; [done|]. intros ->. simpl in Hl'. lia.
    + intros i g e Hg He. specialize (Hb' i). rewrite Hg in Hb'. simpl in Hb'. symmetry in Hb'.
      apply fmap_Some in Hb' as (g0 & Hg0 & [= E1 E2]). destruct (Hbuf i g0 Hg0) as [E3 E4].
      assert (resp_cap g = PAGE_SIZE) as -> by congruence. assert (read_resp g = read_resp g0) as -> by congruence.
      destruct log as [|e' log]; [done|]. injection He as ->. rewrite (Forall_inv Hs').
      change (32 + pad4 (Z.of_nat 4096)) with 4128. done.
Qed.

(** ** A run *)

(** One shard without a backup. *)
Definition bench_shard : NaiveBackend := mkBackend 2 1 {[0 := mkShardGroup (fresh_server 2 1 0) [] 8260 PAGE_SIZE 8260 (Buf 8192 ∅)]}.

Lemma bench_reader_fails_witness :
  reader_loop 1 0 bench_shard = Blocked ∧
  ∃ be', writer_rounds bench_payload 3 2 0 bench_shard = Ok be' ∧ reader_loop 1 0 be' = Fault.
Proof.
  apply (bench_reader_fails 2 1 0 8260 bench_shard 3 2 0); try done; try lia.
  - split; try done; try lia.
    + intros [|s] Hs; [|lia]. eexists. split; [done|]. split; [|by split_and!].
      split; try done. apply (fresh_server_repr 2 1 0); lia.
    + intros i [g Hg]. cbn [bench_shard shards] in Hg. apply lookup_singleton_Some in Hg as [<- _]. exists 0%nat. split; [lia|done].
  - intros i g Hg. cbn [bench_shard shards] in Hg. apply lookup_singleton_Some in Hg as [_ <-]. split; [done|]. simpl. lia.
Defined.
