(* ===== verification/ShardRecovery.v ===== *)
(** A shard server that is started again over its data files.

    The files written by [addToEntryCache] of [src/cons_log/storage/shard_server.cc] are
    enough to serve the same reads; a batch that continues a stripe unit after a restart,
    however, does not reach the unit's file. *)

From S2P Require Import Prelude Props Sequencer LogEntry DlTransport ShardServer.
From S2P Require Import ShardRepr NaiveBackend StorageLog.

Local Open Scope Z_scope.

(** The server after a restart: the same configuration and files, nothing cached, no
    file open, and the indices it is started with. *)
Definition restarted (st : ShardServer) (rep glob : Z) : ShardServer :=
  mkShard ∅ ∅ ∅ (stripe_unit_size_ st) (shard_num_ st) (shard_id_ st) (folder_path_ st) rep glob 0 0
    (mkOs (files (os st)) ∅).

Section Recovery.
Context `{Posix} (u n s : nat).

(** Loading a unit of a restarted server. *)
Lemma load_restarted st entries rep glob b :
  shard_repr u n s st entries → stripe u b entries ≠ [] →
  ∃ st', loadFromDiskToCache (restarted st rep glob) (key u n b) = Some (st', 0) ∧
    entries_cache_set_ st' = <[key u n b := stripe u b entries]> ∅ ∧
    same_shard (restarted st rep glob) st' ∧ files (os st') = files (os st) ∧
    fds (os st') !! 0 = None.
Proof.
  intros Hr Hne. destruct (sr_file _ _ _ _ _ Hr b Hne) as (bytes & Hf & Hh).
  assert (Forall valid_entry (stripe u b entries)) as Hv
    by (apply Forall_take, Forall_drop, (sr_valid _ _ _ _ _ Hr)).
  pose proof (file_holds_load bytes _ Hh Hv) as Hload.
  assert (lenZ bytes ≠ 0) as Hlen.
  { destruct Hh as [-> _]. destruct (stripe u b entries) as [|e es]; [done|]. simpl.
    pose proof (entry_size_pos e). pose proof (total_size_nonneg es). lia. }
  unfold loadFromDiskToCache, open_rdonly.
  change (getDataFilePath (restarted st rep glob) (key u n b)) with (getDataFilePath st (key u n b)).
  cbn [restarted os files fds]. rewrite Hf.
  pose proof (fd_alloc_std ∅) as Hstd. cbn [fst snd]. rewrite (proj2 (Z.ltb_ge _ _)) by lia.
  cbn [files]. rewrite Hf. cbn [default from_option id]. rewrite (proj2 (Z.eqb_neq _ _) Hlen), Hload.
  cbn [mbind option_bind]. destruct (_ <? _); eexists; (split; [done|]); simpl; repeat split.
  - by rewrite lookup_insert_ne by lia.
  - by rewrite delete_insert_eq.
Qed.
End Recovery.

(** A shard that has stored one entry in a unit of two, as a witness. *)
Definition one_entry : list LogEntry := [mkEntry 42 0 0 2 1 0 [Byte.x41; Byte.x42]].

(** The message that carries the entries [es]. *)
Definition batch_message (es : list LogEntry) (len : nat) : list byte :=
  match MultiSerializer es (Buf 256 ∅) 0 with
  | Some (b, _) => peek (rd (bmem b)) 0 len
  | None => []
  end.

Definition one_stored : ShardServer :=
  default (fresh_server 2 1 0) (addToEntryCache (fresh_server 2 1 0) 0 (batch_message one_entry 40)).

Lemma batch_message_for u log es len :
  Forall valid_entry es → es ≠ [] → Z.of_nat len = 4 + total_size es → Z.of_nat len ≤ 256 →
  (∀ i e, es !! i = Some e → log_idx e = Z.of_nat (length log) + Z.of_nat i) →
  (length log + length es ≤ (length log / u + 1) * u)%nat → Z.of_nat (length log) < 2 ^ 32 →
  batch_for u 1 0 log es (batch_message es len).
Proof.
  intros Hv Hne Hlen H256 Hidx Hfit Hlog. pose proof (length_total_size es).
  destruct (MultiSerializer_ok es (Buf 256 ∅)) as (b & Hs & Hb & _); [by apply valid_wf|lia|simpl; lia|].
  unfold batch_message. rewrite Hs. split; try done; try lia.
  - by apply holds_batch_msg.
  - intros i e He. rewrite (Hidx i e He). lia.
Qed.

Definition next_entry : list LogEntry := [mkEntry 42 1 1 2 1 0 [Byte.x41; Byte.x42]].

Lemma one_entry_batch : batch_for 2 1 0 [] one_entry (batch_message one_entry 40).
Proof.
  apply batch_message_for; try done; try (simpl; lia).
  - constructor; [|constructor]. by apply (bool_decide_unpack (valid_entry _)); vm_compute.
  - intros [|i] e He; by simplify_eq/=.
Qed.

Lemma next_entry_batch : batch_for 2 1 0 one_entry next_entry (batch_message next_entry 40).
Proof.
  apply batch_message_for; try done; try (simpl; lia).
  - constructor; [|constructor]. by apply (bool_decide_unpack (valid_entry _)); vm_compute.
  - intros [|i] e He; by simplify_eq/=.
Qed.

Lemma one_stored_repr : shard_repr 2 1 0 one_stored one_entry.
Proof.
  pose proof one_entry_batch as Hb.
  destruct (addToEntryCache_ok 2 1 0 ltac:(done) ltac:(done) (fresh_server 2 1 0) [] one_entry _
    (fresh_server_repr 2 1 0 ltac:(lia) ltac:(lia) ltac:(lia) ltac:(lia)) Hb) as (st' & Hadd & _ & Hr & _).
  unfold one_stored. change (key 2 1 (length (@nil LogEntry) / 2)) with 0 in Hadd. rewrite Hadd. exact Hr.
Qed.

(** C22. The data files are enough to serve reads after a restart: a server that is
    started again over the files of a shard returns, for every index up to the
    replicated and the global index it is started with, the entry the shard had stored,
    and lets every other read wait. *)
Theorem restart_serves_reads `{Posix} u n s st entries rep glob j :
  let idx := Z.of_nat s + Z.of_nat j * Z.of_nat n in
  shard_repr u n s st entries → idx < 2 ^ 64 →
  ∃ st', read_turn (restarted st rep glob) idx =
    Some (st', if (rep <? idx) || (glob <? idx) then None else entries !! j).
Proof.
  intros idx Hr Hidx. pose proof (sr_u _ _ _ _ _ Hr) as Hu. pose proof (sr_s _ _ _ _ _ Hr) as Hs.
  pose proof (sr_n _ _ _ _ _ Hr) as Hn. destruct (base_of_ok _ _ _ _ _ j Hr Hidx) as [Hbase Hrange].
  fold idx in Hbase, Hrange. unfold read_turn.
  change (base_of (restarted st rep glob) idx) with (base_of st idx). rewrite Hbase. cbn [mbind option_bind].
  change (shard_num_ (restarted st rep glob)) with (shard_num_ st).
  rewrite (sr_num _ _ _ _ _ Hr), !u64_small by lia.
  destruct (index_place u n s j) as [_ Hloc]; [done..|]. fold idx in Hloc. rewrite Hloc.
  pose proof (lookup_stripe u entries j Hu) as Hlk. cbn [restarted entries_cache_set_].
  rewrite lookup_empty. destruct (stripe u (j / u) entries) as [|e c] eqn:E.
  - unfold loadFromDiskToCache, open_rdonly.
    change (getDataFilePath (restarted st rep glob) (key u n (j / u)))
      with (getDataFilePath st (key u n (j / u))).
    cbn [restarted os files]. rewrite (sr_nofile _ _ _ _ _ Hr _ E). simpl.
    rewrite bool_decide_false by (rewrite lookup_empty; by intros [? ?]). eexists.
    rewrite <- Hlk, lookup_nil. cbn [negb]. by destruct ((rep <? idx) || (glob <? idx)).
  - destruct (load_restarted u n s st entries rep glob (j / u)%nat Hr) as (st' & -> & Hc & Hsame & _);
      [by rewrite E|]. cbn [mbind option_bind negb andb Z.eqb].
    destruct Hsame as (_ & _ & _ & _ & Hrep & Hglob). exists st'. unfold cache_at.
    rewrite Hc, lookup_insert_eq, Hrep, Hglob, E. cbn [default from_option id restarted replicated_index_ global_index_].
    rewrite Nat2Z.id, <- !orb_assoc, Hlk.
    destruct (Z.leb_spec (lenZ (e :: c)) (Z.of_nat (j mod u))) as [Hle|Hlt]; cbn [orb].
    + assert (entries !! j = None) as -> by (rewrite <- Hlk; apply lookup_ge_None_2; lia).
      by destruct (_ || _).
    + destruct (_ || _); [done|]. destruct (entries !! j) eqn:Ej; [done|]. apply lookup_ge_None in Hlk. lia.
Qed.

Lemma restart_serves_reads_witness :
  ∃ st', read_turn (restarted one_stored 0 0) 0 = Some (st', Some (mkEntry 42 0 0 2 1 0 [Byte.x41; Byte.x42])).
Proof. apply (restart_serves_reads 2 1 0 one_stored one_entry 0 0 0 one_stored_repr). done. Defined.

(** C36. A batch that continues a stripe unit after a restart is not written to any file.
    [addToEntryCache] loads the unit from disk but leaves the descriptor it writes to at
    zero, so the new entries are in memory only, and the next restart loses them. *)
Theorem restart_append_not_persisted `{Posix} u n s st entries es req rep glob :
  let k := key u n (length entries / u) in
  shard_repr u n s st entries → batch_for u n s entries es req →
  (length entries mod u ≠ 0)%nat →
  ∃ st', addToEntryCache (restarted st rep glob) k req = Some st' ∧
    cache_at st' k = stripe u (length entries / u) entries ++ es ∧
    files (os st') = files (os st).
Proof.
  intros k Hr Hb Hmod. pose proof (sr_u _ _ _ _ _ Hr) as Hu.
  assert (stripe u (length entries / u) entries ≠ []) as Hne.
  { intros E. apply (f_equal length) in E. rewrite stripe_last_length in E by done. done. }
  destruct (load_restarted u n s st entries rep glob _ Hr Hne) as (st1 & Hload & Hc & _ & Hfiles & Hfd0).
  fold k in Hload, Hc. unfold addToEntryCache, cache_fd. cbn [restarted entries_cache_set_].
  rewrite lookup_empty. change (mkShard ∅ ∅ ∅ _ _ _ _ rep glob 0 0 _) with (restarted st rep glob).
  rewrite Hload. cbn [mbind option_bind Z.ltb Z.compare].
  assert (cache_at st1 k = stripe u (length entries / u) entries) as Hca
    by (unfold cache_at; by rewrite Hc, lookup_insert_eq).
  rewrite Hca, (MultiDeserializer_ok _ _ es) by apply Hb. cbn [mbind option_bind].
  pose proof (total_size_nonneg es). pose proof (bf_bytes _ _ _ _ _ _ Hb).
  replace (4 + total_size es - 4) with (total_size es) by lia. rewrite (u64_small (total_size es)) by lia.
  destruct (bf_holds _ _ _ _ _ _ Hb) as (Hcap & _). rewrite load_ok by lia. cbn [mbind option_bind].
  unfold write. cbn [with_cache_size with_cache os]. rewrite Hfd0. eexists. split; [done|].
  split; [|done]. unfold cache_at. simpl. by rewrite lookup_insert_eq.
Qed.

Lemma restart_append_not_persisted_witness :
  ∃ st', addToEntryCache (restarted one_stored 0 0) 0 (batch_message next_entry 40) = Some st' ∧
    cache_at st' 0 = one_entry ++ next_entry ∧ files (os st') = files (os one_stored).
Proof.
  apply (restart_append_not_persisted 2 1 0 one_stored one_entry next_entry
           (batch_message next_entry 40) 0 0 one_stored_repr); [apply next_entry_batch|done].
Defined.
