(* ===== verification/ShardBatch.v ===== *)
(** Reading a range of entries from a shard in one request:
    [collectBatchEntries] and [ReadBatchHandler] of [src/cons_log/storage/shard_server.cc],
    which the build with [CORFU] compiles and no server registers.

    The handler waits until the unit of the last index is cached and holds it, and then
    takes the whole range from the cache, unit by unit.  It does not look whether the
    units before the last are cached. *)

From S2P Require Import Prelude Props Sequencer LogEntry DlTransport ShardServer.
From S2P Require Import ShardRepr NaiveBackend StorageLog ShardRecovery.

Local Open Scope Z_scope.

(** ** The handler *)

Section ReadBatch.
Context `{Posix}.

(** The loop over the units: the buffer, the offset in it and the number of entries.
    [entries_cache_set_[i]] makes an empty vector for a unit that is not cached. *)
Fixpoint collect_units (fuel : nat) (st : ShardServer) (i end_base_idx start_idx end_idx : Z) (b : buffer)
    (offset num_entries : Z) : option (ShardServer * buffer * Z * Z) :=
  if end_base_idx <? i then Some (st, b, offset, num_entries) else
  match fuel with
  | O => None
  | S fuel =>
      let big := big_stripe (stripe_unit_size_ st) (shard_num_ st) in
      let to := u64 (i + big - 1) in
      let from := if i <? start_idx then start_idx else i in
      let to := if end_idx <? to then end_idx else to in
      let from_local_idx := u64 (from - i) / u64 (shard_num_ st) in
      let to_local_idx := u64 (to - i) / u64 (shard_num_ st) in
      let num := u64 (to_local_idx - from_local_idx + 1) in
      let st := with_cache st (<[i := cache_at st i]> (entries_cache_set_ st)) in
      '(b, len) ← MultiSerializer_range (cache_at st i) from_local_idx (u32 num) b offset true;
      collect_units fuel st (u64 (i + big)) end_base_idx start_idx end_idx b (u64 (offset + len)) (u64 (num_entries + num))
  end.

Definition collectBatchEntries (st : ShardServer) (start_idx end_idx : Z) (buf : buffer)
    : option (ShardServer * buffer * Z) :=
  end_base_idx ← base_of st end_idx;
  start_base_idx ← base_of st start_idx;
  let big := big_stripe (stripe_unit_size_ st) (shard_num_ st) in
  let fuel := Z.to_nat ((end_base_idx - start_base_idx) / big + 1) in
  '(st, b, offset, num_entries) ← collect_units fuel st start_base_idx end_base_idx start_idx end_idx buf 4 0;
  b ← store_int 4 b 0 (u32 num_entries);
  Some (st, b, offset).

(** One turn of the loop: [None] when the thread waits for a change. *)
Definition batch_turn (st : ShardServer) (start_idx end_idx : Z) (resp : buffer)
    : option (ShardServer * option (buffer * Z)) :=
  base_idx ← base_of st end_idx;
  let local_cache_idx := u64 (end_idx - base_idx) / u64 (shard_num_ st) in
  '(st, loaded) ← (match entries_cache_set_ st !! base_idx with
                   | None => '(st, r) ← loadFromDiskToCache st base_idx; Some (st, r =? 0)
                   | Some _ => Some (st, true)
                   end);
  if negb loaded && negb (bool_decide (is_Some (entries_cache_set_ st !! base_idx)))
  then Some (st, None)
  else if (lenZ (cache_at st base_idx) <=? local_cache_idx) || (replicated_index_ st <? end_idx)
  then Some (st, None)
  else '(st, b, len) ← collectBatchEntries st start_idx end_idx resp; Some (st, Some (b, len)).

(** [slow] says whether the thread has waited before. *)
Definition ReadBatchHandler `{Erpc} (resp : buffer) (slow : bool) (st : ShardServer) (req : list byte)
    : option (ShardServer * option (list byte)) :=
  start_idx ← load_int 8 (msg_buf req) 0;
  end_idx ← load_int 8 (msg_buf req) 8;
  '(st, r) ← batch_turn st start_idx end_idx resp;
  match r with
  | None => Some (st, None)
  | Some (b, len) => bs ← send b len; Some (count_read st slow, Some bs)
  end.
End ReadBatch.

(** ** Serializing in pieces *)

Lemma serialize_each_app es es' b p o :
  serialize_each (es ++ es') b p o = ('(b, o) ← serialize_each es b p o; serialize_each es' b p o).
Proof.
  revert b o. induction es as [|e es IH]; intros b o; [done|]. simpl.
  destruct (Serializer e b (p + o)) as [[b' sz]|]; [|done]. simpl. by rewrite IH.
Qed.

(** The position in the buffer and the offset are interchangeable. *)
Lemma serialize_each_shift es b p k o :
  serialize_each es b (p + k) o = ('(b, z) ← serialize_each es b p (k + o); Some (b, z - k)).
Proof.
  revert b o. induction es as [|e es IH]; intros b o; simpl; [do 2 f_equal; lia|].
  rewrite Z.add_assoc. destruct (Serializer e b (p + k + o)) as [[b' sz]|]; [|done]. simpl.
  by rewrite IH, Z.add_assoc.
Qed.

(** ** The range that a shard holds *)

(** The entries at the places [j1] to [j2] of the shard. *)
Definition between (j1 j2 : nat) (mine : list LogEntry) : list LogEntry := take (S j2 - j1) (drop j1 mine).

Lemma between_split j1 j j2 mine :
  (j1 ≤ j)%nat → (j < j2)%nat → between j1 j2 mine = between j1 j mine ++ between (S j) j2 mine.
Proof.
  intros H1 H2. unfold between. replace (S j2 - j1)%nat with ((S j - j1) + (S j2 - S j))%nat by lia.
  rewrite <- take_take_drop, drop_drop. do 3 f_equal. lia.
Qed.

Lemma between_stripe u mine b j1 j2 :
  (b * u ≤ j1)%nat → (j2 < (b + 1) * u)%nat →
  between j1 j2 mine = take (S j2 - j1) (drop (j1 - b * u) (stripe u b mine)).
Proof.
  intros H1 H2. unfold between, stripe. rewrite skipn_firstn_comm, take_take, drop_drop. f_equal; [lia|]. f_equal. lia.
Qed.

Lemma length_between j1 j2 mine : (j2 < length mine)%nat → (j1 ≤ j2)%nat → length (between j1 j2 mine) = (S j2 - j1)%nat.
Proof. intros. unfold between. rewrite length_take, length_drop. lia. Qed.

(** Where an index at or after the start of a unit is in it. *)
Lemma local_place u n s b j :
  (s < n)%nat → (b * u ≤ j)%nat →
  (Z.of_nat s + Z.of_nat j * Z.of_nat n - key u n b) / Z.of_nat n = Z.of_nat (j - b * u).
Proof.
  intros Hs Hj. unfold key.
  replace (Z.of_nat s + Z.of_nat j * Z.of_nat n - Z.of_nat b * (Z.of_nat u * Z.of_nat n))
    with (Z.of_nat s + Z.of_nat (j - b * u) * Z.of_nat n) by nia.
  rewrite Z.div_add, (Z.div_small (Z.of_nat s)) by lia. lia.
Qed.

Section Collect.
Context `{Posix} (u n s : nat) (st : ShardServer) (mine : list LogEntry).
Context (Hr : shard_repr u n s st mine).

Definition place_idx (j : nat) : Z := Z.of_nat s + Z.of_nat j * Z.of_nat n.

(** The first and the last place of the range in a unit. *)
Lemma from_local b j1 :
  (j1 < (b + 1) * u)%nat → place_idx j1 < 2 ^ 64 →
  u64 ((if key u n b <? place_idx j1 then place_idx j1 else key u n b) - key u n b) / Z.of_nat n =
    Z.of_nat (Nat.max j1 (b * u) - b * u).
Proof.
  intros H1 Hmax. pose proof (sr_u _ _ _ _ _ Hr) as Hu. pose proof (sr_s _ _ _ _ _ Hr) as Hs.
  assert (0 ≤ key u n b) by (unfold key; nia).
  destruct (decide (b * u ≤ j1)%nat) as [Hle|Hgt].
  - assert (key u n b ≤ place_idx j1) by (unfold key, place_idx; nia).
    replace (if key u n b <? place_idx j1 then place_idx j1 else key u n b) with (place_idx j1).
    + rewrite u64_small by lia. unfold place_idx. rewrite local_place by done. lia.
    + destruct (Z.ltb_spec (key u n b) (place_idx j1)); lia.
  - assert (place_idx j1 < key u n b) by (unfold key, place_idx; nia).
    rewrite (proj2 (Z.ltb_ge _ _)), Z.sub_diag, u64_small, Z.div_0_l by lia. lia.
Qed.

Lemma to_local b j2 :
  (b * u ≤ j2)%nat → place_idx j2 + Z.of_nat u * Z.of_nat n < 2 ^ 64 →
  let to := u64 (key u n b + Z.of_nat u * Z.of_nat n - 1) in
  u64 ((if place_idx j2 <? to then place_idx j2 else to) - key u n b) / Z.of_nat n =
    Z.of_nat (Nat.min j2 (b * u + u - 1) - b * u).
Proof.
  intros H2 Hmax to. pose proof (sr_u _ _ _ _ _ Hr) as Hu. pose proof (sr_s _ _ _ _ _ Hr) as Hs.
  assert (0 ≤ key u n b ≤ place_idx j2) by (unfold key, place_idx; nia).
  unfold to. rewrite (u64_small (key u n b + Z.of_nat u * Z.of_nat n - 1)) by nia.
  destruct (Z.ltb_spec (place_idx j2) (key u n b + Z.of_nat u * Z.of_nat n - 1)) as [Hlt|Hge].
  - rewrite u64_small by lia. unfold place_idx. rewrite local_place by done.
    assert (j2 < b * u + u)%nat; [|lia]. unfold key, place_idx in Hlt. nia.
  - assert (b * u + u - 1 ≤ j2)%nat by (unfold key, place_idx in Hge; nia).
    replace (key u n b + Z.of_nat u * Z.of_nat n - 1 - key u n b) with ((Z.of_nat n - 1) + (Z.of_nat u - 1) * Z.of_nat n) by lia.
    rewrite u64_small by nia. rewrite Z.div_add, Z.div_small by lia. lia.
Qed.

(** One unit: the part of the range that is in it. *)
Lemma collect_unit fuel b j1 j2 buf offset num :
  let p := Nat.max j1 (b * u) in let q := Nat.min j2 (b * u + u - 1) in
  (j1 < (b + 1) * u)%nat → (b * u ≤ j2)%nat → (j1 ≤ j2)%nat → (j2 < length mine)%nat →
  place_idx j2 + Z.of_nat u * Z.of_nat n < 2 ^ 64 → Z.of_nat u < 2 ^ 32 →
  collect_units (S fuel) st (key u n b) (key u n (j2 / u)) (place_idx j1) (place_idx j2) buf offset num =
    ('(buf, z) ← serialize_each (between p q mine) buf 0 offset;
     collect_units fuel st (key u n (b + 1)) (key u n (j2 / u)) (place_idx j1) (place_idx j2) buf
       (u64 z) (u64 (num + Z.of_nat (S q - p)))).
Proof.
  intros p q H1 H2 H12 Hlen Hmax Hu32. pose proof (sr_u _ _ _ _ _ Hr) as Hu. pose proof (sr_s _ _ _ _ _ Hr) as Hs.
  pose proof (sr_n _ _ _ _ _ Hr) as Hn.
  assert (b ≤ j2 / u)%nat as Hb by (apply Nat.div_le_lower_bound; lia).
  assert (key u n b ≤ key u n (j2 / u)) as Hkey by (unfold key; nia).
  assert (0 ≤ key u n b ≤ place_idx j2) as Hrange by (unfold key, place_idx; nia).
  assert (0 ≤ place_idx j1 ≤ place_idx j2) as Hj1 by (unfold place_idx; nia).
  assert (b * u ≤ p ∧ p ≤ q ∧ q < (b + 1) * u)%nat as (Hp1 & Hpq & Hq2) by lia.
  cbn [collect_units]. cbv zeta. rewrite (proj2 (Z.ltb_ge _ _)) by done.
  rewrite (big_stripe_ok _ _ _ _ _ Hr), (sr_num _ _ _ _ _ Hr), (u64_small (Z.of_nat n)) by lia.
  rewrite from_local, to_local by (done || lia). fold p q.
  replace (Z.of_nat (q - b * u) - Z.of_nat (p - b * u) + 1) with (Z.of_nat (S q - p)) by lia.
  rewrite (u64_small (Z.of_nat _)), u32_small, (u64_small (key u n b + _)) by nia.
  assert (cache_at st (key u n b) = stripe u b mine ∧ is_Some (entries_cache_set_ st !! key u n b)) as [Hca Hin].
  { unfold cache_at. rewrite (sr_cache _ _ _ _ _ Hr). destruct (stripe u b mine) as [|e c] eqn:E; [|done].
    apply (f_equal length) in E. unfold stripe in E. rewrite length_take, length_drop in E. simpl in E. lia. }
  replace (with_cache st (<[key u n b := cache_at st (key u n b)]> (entries_cache_set_ st))) with st.
  2:{ unfold with_cache, cache_at. destruct Hin as [c Hc]. rewrite Hc. simpl. rewrite insert_id by done. by destruct st. }
  rewrite Hca. unfold MultiSerializer_range. cbn [negb mbind option_bind].
  rewrite serialize_range_each, !Nat2Z.id; [|lia| |].
  2:{ unfold stripe. rewrite length_take, length_drop. lia. }
  2:{ unfold stripe. rewrite length_take, length_drop. lia. }
  rewrite <- (between_stripe u mine b p q) by lia.
  rewrite <- (Z.add_0_l offset) at 1. rewrite serialize_each_shift, Z.add_0_r.
  destruct (serialize_each (between p q mine) buf 0 offset) as [[buf' z]|]; [|done]. cbn [mbind option_bind].
  replace (key u n b + Z.of_nat u * Z.of_nat n) with (key u n (b + 1)) by (unfold key; lia).
  by replace (offset + (z - offset)) with z by lia.
Qed.

Lemma Forall_between j1 j2 : Forall valid_entry (between j1 j2 mine).
Proof. apply Forall_take, Forall_drop, (sr_valid _ _ _ _ _ Hr). Qed.

(** All the units from [b] on: the rest of the range, one entry after the other. *)
Lemma collect_range k b j1 j2 buf offset num :
  let p := Nat.max j1 (b * u) in
  (b + k = j2 / u)%nat → (j1 < (b + 1) * u)%nat → (j1 ≤ j2)%nat → (j2 < length mine)%nat →
  place_idx j2 + Z.of_nat u * Z.of_nat n < 2 ^ 64 → Z.of_nat u < 2 ^ 32 → 0 ≤ offset → 0 ≤ num →
  offset + total_size (between p j2 mine) ≤ bcap buf → bcap buf < 2 ^ 64 → num + Z.of_nat (S j2 - p) < 2 ^ 64 →
  ∃ buf', serialize_each (between p j2 mine) buf 0 offset = Some (buf', offset + total_size (between p j2 mine)) ∧
    collect_units (S k) st (key u n b) (key u n (j2 / u)) (place_idx j1) (place_idx j2) buf offset num =
      Some (st, buf', offset + total_size (between p j2 mine), num + Z.of_nat (S j2 - p)).
Proof.
  revert b buf offset num. induction k as [|k IH]; intros b buf offset num p Hb H1 H12 Hlen Hmax Hu32 Ho Hnum Hcap Hb64 Hn64;
    pose proof (sr_u _ _ _ _ _ Hr) as Hu; pose proof (Nat.div_mod j2 u ltac:(lia)) as Hdm;
    pose proof (Nat.mod_upper_bound j2 u ltac:(lia)) as Hmod;
    destruct (serialize_each_ok (between p j2 mine) buf 0 offset) as (buf' & Hs & Hf & _);
      try (apply valid_wf, Forall_between); try lia; exists buf'; (split; [done|]);
    pose proof (total_size_nonneg (between p j2 mine)); rewrite collect_unit by (done || lia || nia); fold p.
  - replace (Nat.min j2 (b * u + u - 1)) with j2 by nia. rewrite Hs. cbn [mbind option_bind].
    assert (key u n (j2 / u) < key u n (b + 1)) by (pose proof (sr_s _ _ _ _ _ Hr); unfold key; nia).
    rewrite !u64_small by lia. cbn [collect_units]. by rewrite (proj2 (Z.ltb_lt _ _)).
  - assert (b * u + u ≤ j2)%nat as Hlast by nia. replace (Nat.min j2 (b * u + u - 1)) with (b * u + u - 1)%nat by lia.
    rewrite (between_split p (b * u + u - 1) j2) in Hs, Hcap |- * by lia. rewrite total_size_app in Hcap |- *.
    pose proof (total_size_nonneg (between p (b * u + u - 1) mine)). pose proof (total_size_nonneg (between (S (b * u + u - 1)) j2 mine)).
    rewrite serialize_each_app in Hs.
    destruct (serialize_each_ok (between p (b * u + u - 1) mine) buf 0 offset) as (buf1 & Hs1 & [Hc1 _] & _);
      [apply valid_wf, Forall_between|lia|lia|]. rewrite Hs1 in Hs |- *. cbn [mbind option_bind] in Hs |- *.
    replace (S (b * u + u - 1)) with (Nat.max j1 ((b + 1) * u)) in * by lia.
    destruct (IH (b + 1)%nat buf1 (offset + total_size (between p (b * u + u - 1) mine)) (num + Z.of_nat (Nat.max j1 ((b + 1) * u) - p)))
      as (buf2 & Hs2 & Hcu); [lia..|]. rewrite Hs2 in Hs. injection Hs as <-.
    rewrite !u64_small by lia. rewrite Hcu. do 2 f_equal; [f_equal; lia|lia].
Qed.
End Collect.

(** ** The request and the response *)

Definition batch_request (start_idx end_idx : Z) : list byte := le_bytes 8 start_idx ++ le_bytes 8 end_idx.

Lemma batch_request_load a c :
  0 ≤ a < 2 ^ 64 → 0 ≤ c < 2 ^ 64 →
  load_int 8 (msg_buf (batch_request a c)) 0 = Some a ∧ load_int 8 (msg_buf (batch_request a c)) 8 = Some c.
Proof.
  intros Ha Hc. assert (bcap (msg_buf (batch_request a c)) = 16) as Hcap.
  { unfold msg_buf, batch_request. cbn [bcap]. by rewrite length_app, !length_le. }
  rewrite !load_int_ok by lia.
  assert (peek (rd (bmem (msg_buf (batch_request a c)))) 0 8 = le_bytes 8 a) as ->.
  { change 8%nat with (length (le_bytes 8 a)) at 1. apply peek_eq_iff. intros i b Hi. rewrite Z.add_0_l.
    apply rd_msg_buf. by apply lookup_app_l_Some. }
  assert (peek (rd (bmem (msg_buf (batch_request a c)))) 8 8 = le_bytes 8 c) as ->.
  { change 8%nat with (length (le_bytes 8 c)) at 1. apply peek_eq_iff. intros i b Hi. replace (8 + Z.of_nat i) with (Z.of_nat (8 + i)) by lia.
    apply rd_msg_buf. unfold batch_request. rewrite lookup_app_r, length_le by (rewrite length_le; lia).
    by replace (8 + i - 8)%nat with i by lia. }
  rewrite !un_le_le by (of_nat_lit; lia). done.
Qed.

(** [collectBatchEntries] on a shard all of whose units are cached. *)
Lemma collectBatchEntries_ok `{Posix} u n s st mine j1 j2 resp :
  shard_repr u n s st mine → Z.of_nat u < 2 ^ 32 → (j1 ≤ j2)%nat → (j2 < length mine)%nat →
  place_idx n s j2 + Z.of_nat u * Z.of_nat n < 2 ^ 64 → lenZ (between j1 j2 mine) < 2 ^ 32 →
  4 + total_size (between j1 j2 mine) ≤ bcap resp → bcap resp < 2 ^ 64 →
  ∃ b, collectBatchEntries st (place_idx n s j1) (place_idx n s j2) resp =
      Some (st, b, 4 + total_size (between j1 j2 mine)) ∧
    holds_batch b (between j1 j2 mine) ∧ bcap b = bcap resp.
Proof.
  intros Hr Hu32 H12 Hlen Hmax Hl32 Hcap Hb64. pose proof (sr_u _ _ _ _ _ Hr) as Hu. pose proof (sr_s _ _ _ _ _ Hr) as Hs.
  assert (place_idx n s j1 ≤ place_idx n s j2) as Hle by (unfold place_idx; nia).
  unfold collectBatchEntries, place_idx in *. destruct (base_of_ok _ _ _ _ _ j1 Hr ltac:(nia)) as [-> _].
  destruct (base_of_ok _ _ _ _ _ j2 Hr ltac:(nia)) as [-> _]. cbn [mbind option_bind].
  rewrite (big_stripe_ok _ _ _ _ _ Hr).
  assert (j1 / u ≤ j2 / u)%nat as Hdiv by (apply Nat.Div0.div_le_mono; lia).
  assert ((key u n (j2 / u) - key u n (j1 / u)) / (Z.of_nat u * Z.of_nat n) = Z.of_nat (j2 / u - j1 / u)) as ->.
  { unfold key. rewrite <- Z.mul_sub_distr_r, Z.div_mul by nia. lia. }
  replace (Z.to_nat (Z.of_nat (j2 / u - j1 / u) + 1)) with (S (j2 / u - j1 / u)) by lia.
  pose proof (Nat.div_mod j1 u ltac:(lia)). pose proof (Nat.mod_upper_bound j1 u ltac:(lia)).
  rewrite length_between in Hl32 by done.
  destruct (collect_range u n s st mine Hr (j2 / u - j1 / u) (j1 / u) j1 j2 resp 4 0) as (b & Hser & Hcol);
    replace (Nat.max j1 (j1 / u * u)) with j1 in * by nia; try (done || lia || nia).
  unfold place_idx in Hcol. rewrite Hcol. cbn [mbind option_bind]. rewrite Z.add_0_l, u32_small by lia.
  destruct (batch_then_count (between j1 j2 mine) resp) as (b' & Hser' & Hh & Hc); [apply valid_wf, (Forall_between u n s st mine Hr)|done|].
  rewrite Hser in Hser'. injection Hser' as <-. pose proof (total_size_nonneg (between j1 j2 mine)).
  unfold store_int. rewrite store_ok by (rewrite ?length_le; lia). cbn [mbind option_bind]. eexists. split; [done|].
  rewrite length_between in Hh by done. done.
Qed.

(** ** Reading a range *)

(** C25. The handler answers a range that the shard holds with the entries of the range, in
    order, and waits when the last of them is missing or not replicated. *)
Theorem ReadBatchHandler_ok `{Posix} `{Erpc} u n s st mine j1 j2 resp slow :
  let req := batch_request (place_idx n s j1) (place_idx n s j2) in
  shard_repr u n s st mine → Z.of_nat u < 2 ^ 32 → (j1 ≤ j2)%nat →
  place_idx n s j2 + Z.of_nat u * Z.of_nat n < 2 ^ 64 → lenZ (between j1 j2 mine) < 2 ^ 32 →
  4 + total_size (between j1 j2 mine) ≤ bcap resp → bcap resp < 2 ^ 64 →
  if (Z.of_nat j2 <? lenZ mine) && (place_idx n s j2 <=? replicated_index_ st)
  then ∃ bs, ReadBatchHandler resp slow st req = Some (count_read st slow, Some bs) ∧
    MultiDeserializer [] (msg_buf bs) 0 = Some (between j1 j2 mine, lenZ bs)
  else ReadBatchHandler resp slow st req = Some (st, None).
Proof.
  intros req Hr Hu32 H12 Hmax Hl32 Hcap Hb64. pose proof (sr_u _ _ _ _ _ Hr) as Hu. pose proof (sr_s _ _ _ _ _ Hr) as Hs.
  pose proof (sr_n _ _ _ _ _ Hr) as Hn. assert (0 ≤ place_idx n s j1 ≤ place_idx n s j2) as Hle by (unfold place_idx; nia).
  destruct (batch_request_load (place_idx n s j1) (place_idx n s j2)) as [H1 H2]; [nia..|].
  unfold ReadBatchHandler, batch_turn, req. rewrite H1, H2. cbn [mbind option_bind].
  destruct (base_of_ok _ _ _ _ _ j2 Hr ltac:(unfold place_idx in *; nia)) as [Hbase Hrange]. fold (place_idx n s j2) in Hbase, Hrange.
  rewrite Hbase. cbn [mbind option_bind]. rewrite (sr_num _ _ _ _ _ Hr), !u64_small by lia.
  destruct (index_place u n s j2) as [_ Hloc]; [done..|]. fold (place_idx n s j2) in Hloc. rewrite Hloc.
  pose proof (sr_cache _ _ _ _ _ Hr (j2 / u)%nat) as Hc. rewrite Hc. pose proof (lookup_stripe u mine j2 Hu) as Hlk.
  destruct (stripe u (j2 / u) mine) as [|e c] eqn:E.
  - simpl. rewrite (load_nothing u n s _ _ _ Hr E). simpl. rewrite Hc. simpl. rewrite lookup_nil in Hlk.
    symmetry in Hlk. apply lookup_ge_None in Hlk. by rewrite (proj2 (Z.ltb_ge _ _)) by lia.
  - simpl nonempty. cbn [mbind option_bind negb andb]. unfold cache_at. rewrite Hc. simpl nonempty. cbn [default from_option id].
    destruct (Z.leb_spec (lenZ (e :: c)) (Z.of_nat (j2 mod u))) as [Hge|Hlt]; cbn [orb].
    + assert (mine !! j2 = None) as Hnone%lookup_ge_None by (rewrite <- Hlk; apply lookup_ge_None_2; lia).
      by rewrite (proj2 (Z.ltb_ge _ _)) by lia.
    + assert (is_Some (mine !! j2)) as Hj2%lookup_lt_is_Some by (rewrite <- Hlk; apply lookup_lt_is_Some_2; lia).
      rewrite (proj2 (Z.ltb_lt _ _)) by lia. rewrite Z.leb_antisym, andb_true_l.
      destruct (replicated_index_ st <? place_idx n s j2); [done|]. cbn [negb].
      destruct (collectBatchEntries_ok u n s st mine j1 j2 resp) as (b & -> & Hh & Hcb); try done.
      cbn [mbind option_bind]. pose proof (total_size_nonneg (between j1 j2 mine)). rewrite send_ok by lia.
      cbn [mbind option_bind]. eexists. split; [done|]. rewrite length_peek, Z2Nat.id by lia.
      apply (MultiDeserializer_ok []); [|apply (Forall_between u n s st mine Hr)|done]. apply holds_batch_msg; [done|lia].
Qed.

(** The unit of the first index is not cached: the vector that is made for it is empty, and
    the first entry of the range is read past its end. *)
Lemma collect_missing `{Posix} fuel st i eb start_idx end_idx b offset num :
  let big := big_stripe (stripe_unit_size_ st) (shard_num_ st) in
  entries_cache_set_ st !! i = None → i ≤ start_idx → start_idx < i + big → start_idx ≤ end_idx → i ≤ eb →
  0 ≤ i → i + big < 2 ^ 64 → end_idx < 2 ^ 64 → 0 < shard_num_ st < 2 ^ 31 → (big - 1) / shard_num_ st + 1 < 2 ^ 32 →
  collect_units fuel st i eb start_idx end_idx b offset num = None.
Proof.
  intros big Hi H1 H2 H3 H4 H5 H6 H7 Hn Hu32. destruct fuel as [|fuel]; cbn [collect_units]; rewrite (proj2 (Z.ltb_ge _ _)) by done; [done|].
  cbv zeta. fold big. rewrite (u64_small (i + big - 1)), (u64_small (shard_num_ st)) by lia.
  assert ((if i <? start_idx then start_idx else i) = start_idx) as -> by (destruct (Z.ltb_spec i start_idx); lia).
  set (to := if end_idx <? i + big - 1 then end_idx else i + big - 1).
  assert (start_idx ≤ to ≤ i + big - 1 ∧ to ≤ end_idx) as [[Ht1 Ht2] Ht3] by (unfold to; destruct (Z.ltb_spec end_idx (i + big - 1)); lia).
  rewrite (u64_small (start_idx - i)), (u64_small (to - i)) by lia.
  assert ((start_idx - i) / shard_num_ st ≤ (to - i) / shard_num_ st ≤ (big - 1) / shard_num_ st) as [Hd1 Hd2].
  { split; apply Z.div_le_mono; lia. }
  pose proof (Z.div_pos (start_idx - i) (shard_num_ st) ltac:(lia) ltac:(lia)) as Hd0.
  rewrite (u64_small (_ - _ + 1)), u32_small by lia. unfold MultiSerializer_range, cache_at. cbn [with_cache entries_cache_set_].
  rewrite lookup_insert_eq, Hi. cbn [default from_option id negb mbind option_bind].
  destruct (Z.to_nat _) as [|k] eqn:Hk; [lia|]. done.
Qed.

(** [collectBatchEntries] on a server that has cached a later unit only. *)
Lemma collect_fault `{Posix} u n s st mine st' j1 j2 resp c :
  shard_repr u n s st mine → Z.of_nat u < 2 ^ 32 → (j1 / u < j2 / u)%nat →
  place_idx n s j2 + Z.of_nat u * Z.of_nat n < 2 ^ 64 →
  stripe_unit_size_ st' = stripe_unit_size_ st → shard_num_ st' = shard_num_ st →
  entries_cache_set_ st' = {[key u n (j2 / u) := c]} →
  collectBatchEntries st' (place_idx n s j1) (place_idx n s j2) resp = None.
Proof.
  intros Hr Hu32 Hdiv Hmax E1 E2 Hc. pose proof (sr_u _ _ _ _ _ Hr) as Hu. pose proof (sr_s _ _ _ _ _ Hr) as Hs.
  pose proof (sr_n _ _ _ _ _ Hr) as Hn. pose proof (Nat.div_mod j1 u ltac:(lia)) as Hd1.
  pose proof (Nat.mod_upper_bound j1 u ltac:(lia)) as Hm1. pose proof (Nat.div_mod j2 u ltac:(lia)) as Hd2.
  assert (j1 ≤ j2)%nat as H12 by nia.
  assert (place_idx n s j1 ≤ place_idx n s j2) as Hle by (unfold place_idx; nia).
  assert (place_idx n s j1 < key u n (j1 / u) + Z.of_nat u * Z.of_nat n) as Hin by (unfold place_idx, key; nia).
  assert (∀ i, base_of st' i = base_of st i) as Hbase by (intros i; unfold base_of; by rewrite E1, E2).
  destruct (base_of_ok _ _ _ _ _ j1 Hr ltac:(unfold place_idx in *; nia)) as [Hb1 Hr1]. fold (place_idx n s j1) in Hb1, Hr1.
  destruct (base_of_ok _ _ _ _ _ j2 Hr ltac:(unfold place_idx in *; nia)) as [Hb2 Hr2]. fold (place_idx n s j2) in Hb2, Hr2.
  unfold collectBatchEntries. rewrite !Hbase, Hb1, Hb2. cbn [mbind option_bind].
  rewrite collect_missing; rewrite ?E1, ?E2, ?(big_stripe_ok _ _ _ _ _ Hr), ?(sr_num _ _ _ _ _ Hr); try done; try lia.
  - rewrite Hc. apply lookup_singleton_None. intros Hk%key_inj; lia.
  - unfold key; nia.
  - replace (Z.of_nat u * Z.of_nat n - 1) with ((Z.of_nat n - 1) + (Z.of_nat u - 1) * Z.of_nat n) by lia.
    rewrite Z.div_add, Z.div_small by lia. lia.
Qed.

(** A range that spans more than one stripe unit cannot be read after a restart:
    the handler loads the unit of the last index, finds the index, and then takes the entries of
    the earlier units from a cache that does not have them, past the end of an empty vector.
    The same range was served before the restart ([ReadBatchHandler_ok]), and each of its
    entries can be read on its own ([restart_serves_reads]). *)
Theorem ReadBatchHandler_restart_fault `{Posix} `{Erpc} u n s st mine rep glob j1 j2 resp slow :
  let req := batch_request (place_idx n s j1) (place_idx n s j2) in
  shard_repr u n s st mine → Z.of_nat u < 2 ^ 32 → (j1 / u < j2 / u)%nat → (j2 < length mine)%nat →
  place_idx n s j2 + Z.of_nat u * Z.of_nat n < 2 ^ 64 → place_idx n s j2 ≤ rep →
  ReadBatchHandler resp slow (restarted st rep glob) req = None.
Proof.
  intros req Hr Hu32 Hdiv Hlen Hmax Hrep. pose proof (sr_u _ _ _ _ _ Hr) as Hu. pose proof (sr_s _ _ _ _ _ Hr) as Hs.
  pose proof (sr_n _ _ _ _ _ Hr) as Hn. assert (0 ≤ place_idx n s j1 ≤ place_idx n s j2) as Hle.
  { pose proof (Nat.div_mod j1 u ltac:(lia)). pose proof (Nat.mod_upper_bound j1 u ltac:(lia)).
    pose proof (Nat.div_mod j2 u ltac:(lia)). unfold place_idx. nia. }
  destruct (batch_request_load (place_idx n s j1) (place_idx n s j2)) as [H1 H2]; [nia..|].
  unfold ReadBatchHandler, batch_turn, req. rewrite H1, H2. cbn [mbind option_bind].
  destruct (base_of_ok _ _ _ _ _ j2 Hr ltac:(unfold place_idx in *; nia)) as [Hbase Hrange]. fold (place_idx n s j2) in Hbase, Hrange.
  change (base_of (restarted st rep glob) (place_idx n s j2)) with (base_of st (place_idx n s j2)). rewrite Hbase.
  cbn [mbind option_bind]. change (shard_num_ (restarted st rep glob)) with (shard_num_ st).
  rewrite (sr_num _ _ _ _ _ Hr), !u64_small by lia.
  destruct (index_place u n s j2) as [_ Hloc]; [done..|]. fold (place_idx n s j2) in Hloc. rewrite Hloc.
  pose proof (lookup_stripe u mine j2 Hu) as Hlk. apply lookup_lt_is_Some_2 in Hlen as [e He]. rewrite He in Hlk.
  change (entries_cache_set_ (restarted st rep glob)) with (∅ : gmap Z (list LogEntry)). rewrite lookup_empty.
  destruct (load_restarted u n s st mine rep glob (j2 / u)%nat Hr) as (st' & -> & Hc & (E1 & E2 & _ & _ & E5 & _) & _);
    [intros E; by rewrite E in Hlk|]. cbn [mbind option_bind negb andb Z.eqb].
  unfold cache_at. rewrite Hc, lookup_insert_eq, E5. cbn [default from_option id restarted replicated_index_].
  apply lookup_lt_Some in Hlk. rewrite (proj2 (Z.leb_gt _ _)), (proj2 (Z.ltb_ge _ _)) by lia. cbn [orb].
  by rewrite (collect_fault u n s st mine st' j1 j2 resp _ Hr Hu32 Hdiv Hmax E1 E2 Hc).
Qed.

(** ** A shard with two units *)

Definition two_stored : ShardServer :=
  default (fresh_server 1 1 0)
    (st ← addToEntryCache (fresh_server 1 1 0) 0 (batch_message one_entry 40);
     addToEntryCache st 1 (batch_message next_entry 40)).

Lemma two_stored_repr : shard_repr 1 1 0 two_stored (one_entry ++ next_entry).
Proof.
  assert (batch_for 1 1 0 [] one_entry (batch_message one_entry 40)) as Hb1.
  { apply batch_message_for; try done; try (simpl; lia); [apply (bf_valid _ _ _ _ _ _ one_entry_batch)|].
    intros [|i] e He; by simplify_eq/=. }
  assert (batch_for 1 1 0 one_entry next_entry (batch_message next_entry 40)) as Hb2.
  { apply batch_message_for; try done; try (simpl; lia); [apply (bf_valid _ _ _ _ _ _ next_entry_batch)|].
    intros [|i] e He; by simplify_eq/=. }
  destruct (addToEntryCache_ok 1 1 0 ltac:(done) ltac:(done) (fresh_server 1 1 0) [] one_entry _
    (fresh_server_repr 1 1 0 ltac:(lia) ltac:(lia) ltac:(lia) ltac:(lia)) Hb1) as (st1 & Hadd1 & _ & Hr1 & _).
  destruct (addToEntryCache_ok 1 1 0 ltac:(done) ltac:(done) st1 one_entry next_entry _ Hr1 Hb2) as (st2 & Hadd2 & _ & Hr2 & _).
  unfold two_stored. change (key 1 1 (length (@nil LogEntry) / 1)) with 0 in Hadd1.
  change (key 1 1 (length one_entry / 1)) with 1 in Hadd2. rewrite Hadd1. cbn [mbind option_bind]. by rewrite Hadd2.
Qed.

Lemma ReadBatchHandler_restart_fault_witness :
  ReadBatchHandler (Buf 4096 ∅) false (restarted two_stored 1 1) (batch_request 0 1) = None.
Proof.
  apply (ReadBatchHandler_restart_fault 1 1 0 two_stored (one_entry ++ next_entry) 1 1 0 1 (Buf 4096 ∅) false two_stored_repr);
    [lia|simpl; lia|simpl; lia|by vm_compute|by vm_compute].
Defined.

Lemma with_indices_repr u n s st mine rep glob : shard_repr u n s st mine → shard_repr u n s (with_indices st rep glob) mine.
Proof. intros []. by split. Qed.

Lemma ReadBatchHandler_ok_witness :
  ∃ bs, ReadBatchHandler (Buf 4096 ∅) false (with_indices two_stored 1 1) (batch_request (place_idx 1 0 0) (place_idx 1 0 1)) =
      Some (count_read (with_indices two_stored 1 1) false, Some bs) ∧
    MultiDeserializer [] (msg_buf bs) 0 = Some (between 0 1 (one_entry ++ next_entry), lenZ bs).
Proof.
  pose proof (ReadBatchHandler_ok 1 1 0 (with_indices two_stored 1 1) (one_entry ++ next_entry) 0 1 (Buf 4096 ∅) false (with_indices_repr _ _ _ _ _ 1 1 two_stored_repr)) as W.
  cbv zeta in W. assert ((Z.of_nat 1 <? lenZ (one_entry ++ next_entry)) && (place_idx 1 0 1 <=? replicated_index_ (with_indices two_stored 1 1)) = true) as E by reflexivity.
  rewrite E in W. apply W; [lia|lia|reflexivity|reflexivity|discriminate|reflexivity].
Defined.
