(* ===== verification/ShardUnopt.v ===== *)
(** The shard server without the read optimisation:
    [src/cons_log/storage/shard_server_wo_opt.cc].

    Instead of the entries themselves this server keeps, for each stripe unit, a map from
    log indices to offsets in the data file, and reads every entry from the file.  It has
    no global index. *)

From stdpp Require Import strings pretty.
From S2P Require Import Prelude Props Sequencer LogEntry DlTransport ShardServer.

Local Open Scope Z_scope.

Module Unoptimized.

(** ** State *)

Record t : Type := mk {
  gsn_to_file_offset_map_ : gmap Z (gmap Z Z);
  entries_fd_set_ : gmap Z Z;
  cache_size_ : gmap Z Z;
  num_entries_ : gmap Z Z;
  stripe_unit_size_ : Z;
  shard_num_ : Z;
  shard_id_ : Z;
  folder_path_ : string;
  replicated_index_ : Z;
  num_slow_path_reads : Z;
  num_fast_path_reads : Z;
  os : Os
}.

Definition with_maps (st : t) (m : gmap Z (gmap Z Z)) : t :=
  mk m (entries_fd_set_ st) (cache_size_ st) (num_entries_ st) (stripe_unit_size_ st) (shard_num_ st)
    (shard_id_ st) (folder_path_ st) (replicated_index_ st) (num_slow_path_reads st)
    (num_fast_path_reads st) (os st).
Definition with_fds (st : t) (m : gmap Z Z) : t :=
  mk (gsn_to_file_offset_map_ st) m (cache_size_ st) (num_entries_ st) (stripe_unit_size_ st) (shard_num_ st)
    (shard_id_ st) (folder_path_ st) (replicated_index_ st) (num_slow_path_reads st)
    (num_fast_path_reads st) (os st).
Definition with_sizes (st : t) (sizes nums : gmap Z Z) : t :=
  mk (gsn_to_file_offset_map_ st) (entries_fd_set_ st) sizes nums (stripe_unit_size_ st) (shard_num_ st)
    (shard_id_ st) (folder_path_ st) (replicated_index_ st) (num_slow_path_reads st)
    (num_fast_path_reads st) (os st).
Definition with_replicated (st : t) (i : Z) : t :=
  mk (gsn_to_file_offset_map_ st) (entries_fd_set_ st) (cache_size_ st) (num_entries_ st)
    (stripe_unit_size_ st) (shard_num_ st) (shard_id_ st) (folder_path_ st) i (num_slow_path_reads st)
    (num_fast_path_reads st) (os st).
Definition with_os (st : t) (o : Os) : t :=
  mk (gsn_to_file_offset_map_ st) (entries_fd_set_ st) (cache_size_ st) (num_entries_ st)
    (stripe_unit_size_ st) (shard_num_ st) (shard_id_ st) (folder_path_ st) (replicated_index_ st)
    (num_slow_path_reads st) (num_fast_path_reads st) o.
Definition count_read (st : t) (slow : bool) : t :=
  mk (gsn_to_file_offset_map_ st) (entries_fd_set_ st) (cache_size_ st) (num_entries_ st)
    (stripe_unit_size_ st) (shard_num_ st) (shard_id_ st) (folder_path_ st) (replicated_index_ st)
    (if slow then u64 (num_slow_path_reads st + 1) else num_slow_path_reads st)
    (if slow then num_fast_path_reads st else u64 (num_fast_path_reads st + 1)) (os st).

(** [Initialize], the part that fills the members. *)
Definition Initialize (p : Properties) (o : Os) : option t :=
  unit ← stoi (GetProperty p "shard.stripe_unit_size" "100000");
  num ← stoi (GetProperty p "shard.num" "1");
  id ← stoi (GetProperty p "shard.id" "0");
  rep ← stoull (GetProperty p "shard.replicated_index" "0");
  Some (mk ∅ ∅ ∅ ∅ (u64 unit) num id (GetProperty p "shard.folder_path" "./data/") rep 0 0 o).

Definition getDataFilePath (st : t) (base_idx : Z) : string :=
  (folder_path_ st +:+ "/entries_" +:+ pretty base_idx +:+ "_r_" +:+ pretty (shard_id_ st) +:+ ".dat")%string.

Definition base_of (st : t) (idx : Z) : option Z :=
  let big := big_stripe (stripe_unit_size_ st) (shard_num_ st) in
  if big =? 0 then None else Some (u64 (idx / big * big)).

(** [std::unordered_map::operator[]] *)
Definition map_at (st : t) (base_idx : Z) : gmap Z Z := default ∅ (gsn_to_file_offset_map_ st !! base_idx).
Definition size_at (st : t) (base_idx : Z) : Z := default 0 (cache_size_ st !! base_idx).
Definition num_at (st : t) (base_idx : Z) : Z := default 0 (num_entries_ st !! base_idx).

(** [std::prev(map.end())->first]: the largest key, undefined for an empty map. *)
Definition last_key (m : gmap Z Z) : option Z :=
  map_fold (λ k _ r, Some (match r with None => k | Some r => Z.max k r end)) None m.

(** [pread]: the bytes from [offset] on, up to the end of the file; a negative offset is
    refused. *)
Definition pread (o : Os) (fd len offset : Z) : option (list byte) :=
  f ← fds o !! fd;
  if 2 ^ 63 <=? offset then None else
  Some (take (Z.to_nat len) (drop (Z.to_nat offset) (default [] (files o !! of_path f)))).

(** ** Files *)

Section Files.
Context `{Posix}.

(** The number of entries is added to what is there. *)
Definition loadFromDiskToCache (st : t) (base_idx : Z) : option (t * Z) :=
  let path := getDataFilePath st base_idx in
  let '(o, fd) := open_rdonly (os st) path in
  let st := with_os st o in
  if fd <? 0 then Some (st, fd) else
  let contents := default [] (files o !! path) in
  let st_size := lenZ contents in
  if st_size =? 0 then Some (st, -1) else
  '(m, size, num) ← ProcessAndBuildMap_size ∅ (msg_buf contents) 0 st_size 0;
  let st := with_maps st (<[base_idx := m]> (gsn_to_file_offset_map_ st)) in
  let st := with_sizes st (<[base_idx := size]> (cache_size_ st))
              (<[base_idx := u64 (num_at st base_idx + num)]> (num_entries_ st)) in
  if stripe_unit_size_ st <=? st_size
  then Some (with_os st (close (os st) fd), 0)
  else Some (st, 0).

(** The branch that creates the file; [None] is the early return. *)
Definition create_stripe (st : t) (base_idx : Z) : t * option Z :=
  let st := with_maps st (<[base_idx := ∅]> (gsn_to_file_offset_map_ st)) in
  let st := with_sizes st (<[base_idx := 0]> (cache_size_ st)) (<[base_idx := 0]> (num_entries_ st)) in
  let '(o, fd) := open_trunc (os st) (getDataFilePath st base_idx) in
  let st := with_os st o in
  if fd <? 0 then (st, None)
  else (with_fds st (<[base_idx := fd]> (entries_fd_set_ st)), Some fd).

(** Finding the descriptor; it is [0] after a successful load. *)
Definition stripe_fd (st : t) (base_idx : Z) : option (t * option Z) :=
  match gsn_to_file_offset_map_ st !! base_idx with
  | None =>
      '(st, r) ← loadFromDiskToCache st base_idx;
      if r <? 0 then Some (create_stripe st base_idx) else Some (st, Some 0)
  | Some _ =>
      let fd := default 0 (entries_fd_set_ st !! base_idx) in
      Some (with_fds st (<[base_idx := fd]> (entries_fd_set_ st)), Some fd)
  end.

Definition processEntriesAndBuildMap (st : t) (base_idx : Z) (req : list byte) : option t :=
  '(st, fd) ← stripe_fd st base_idx;
  match fd with
  | None => Some st
  | Some fd =>
      '(m, n) ← ProcessAndBuildMap (map_at st base_idx) (msg_buf req) 0 (size_at st base_idx);
      let st := with_maps st (<[base_idx := m]> (gsn_to_file_offset_map_ st)) in
      let batch_len := u64 (n - 4) in
      num ← load_int 4 (msg_buf req) 0;
      let st := with_sizes st (<[base_idx := u64 (size_at st base_idx + batch_len)]> (cache_size_ st))
                  (<[base_idx := u64 (num_at st base_idx + num)]> (num_entries_ st)) in
      bs ← load (msg_buf req) 4 (Z.to_nat batch_len);
      let '(o, _) := write (os st) fd bs in
      Some (with_os st o)
  end.

(** A missing descriptor is reported and then dereferenced. *)
Definition writeFromCacheToDisk (st : t) (base_idx : Z) : option (t * Z) :=
  fd ← entries_fd_set_ st !! base_idx;
  Some (with_os st (close (os st) fd), 0).

(** The [int] returned and the response buffer, which keeps its bytes when nothing is
    read. *)
Definition readEntryFromDisk (st : t) (base_idx file_offset : Z) (resp : buffer) (len : Z)
    : option (t * buffer * Z) :=
  let '(o, fd) := open_rdonly (os st) (getDataFilePath st base_idx) in
  if fd <? 0 then Some (with_os st o, resp, fd) else
  let ret := pread o fd len file_offset in
  let st := with_os st (close o fd) in
  match ret with
  | None => Some (st, resp, -1)
  | Some bs => resp ← store resp 0 bs; Some (st, resp, lenZ bs)
  end.

(** ** Handlers *)

Definition first_base (st : t) (req : list byte) : option Z :=
  '(first_e_in_batch, _) ← Deserializer LogEntry_default (msg_buf req) 4;
  base_of st (log_idx first_e_in_batch).

Definition ReplicateBatchHandler (st : t) (req : list byte) : option (t * Z) :=
  base_idx ← first_base st req;
  st ← processEntriesAndBuildMap st base_idx req;
  if stripe_unit_size_ st <=? num_at st base_idx then
    '(st, r) ← writeFromCacheToDisk st base_idx;
    Some (st, if r <? 0 then 1 else 0)
  else Some (st, 0).

(** [ReplicateBatchAsync] copies the message into a request buffer of [cap] bytes. *)
Definition replicate_to `{Erpc} (cap : Z) (backup : t) (req : list byte) : option t :=
  b ← store (Buf cap ∅) 0 req;
  bs ← send b (lenZ req);
  fst <$> ReplicateBatchHandler backup bs.

(** The requests to the backups.  A request refers to its token in the vector; when the
    vector grows over its capacity, which then doubles, the token of a request that has
    not been answered is written after it was freed.  [prompt] says which requests are
    answered by the [RunERPCOnce] after them. *)
Fixpoint send_batches `{Erpc} (cap : Z) (size capacity : nat) (pending : bool) (prompt : list bool)
    (backups : list t) (req : list byte) : option (list t) :=
  match backups with
  | [] => Some []
  | b :: backups =>
      let full := (size =? capacity)%nat in
      if full && pending then None else
      b ← replicate_to cap b req;
      bs ← send_batches cap (S size) (if full then Nat.max 1 (2 * capacity) else capacity)
             (pending || negb (default false (head prompt))) (tail prompt) backups req;
      Some (b :: bs)
  end.

Definition AppendBatchHandler `{Erpc} (cap : Z) (prompt : list bool) (st : t) (backups : list t)
    (req : list byte) : option (t * list t) :=
  base_idx ← first_base st req;
  backups ← send_batches cap 0 0 false prompt backups req;
  st ← processEntriesAndBuildMap st base_idx req;
  '(st, _) ← (if stripe_unit_size_ st <=? num_at st base_idx
              then writeFromCacheToDisk st base_idx else Some (st, 0));
  i ← last_key (map_at st base_idx);
  Some (with_replicated st i, backups).

(** The length of an entry from the offsets of the entry and of the next one, with the
    map after [offset_map[idx]]. *)
Definition entry_len (st : t) (base_idx idx : Z) : t * Z * Z :=
  let offset_map := map_at st base_idx in
  let next := offset_map !! u64 (idx + u64 (shard_num_ st)) in
  let offset := default 0 (offset_map !! idx) in
  let st := with_maps st (<[base_idx := <[idx := offset]> offset_map]> (gsn_to_file_offset_map_ st)) in
  (st, offset, u64 (default (size_at st base_idx) next - offset)).

(** One turn of the loop of [ReadEntryHandler]: the response buffer and the length to
    be sent, or [None] when the thread waits for a change and tries again. *)
Definition read_turn (st : t) (idx : Z) (resp : buffer) : option (t * option (buffer * Z)) :=
  base_idx ← base_of st idx;
  let local_cache_idx := u64 (idx - base_idx) / u64 (shard_num_ st) in
  '(st, loaded) ← (match gsn_to_file_offset_map_ st !! base_idx with
                   | None => '(st, r) ← loadFromDiskToCache st base_idx; Some (st, r =? 0)
                   | Some _ => Some (st, true)
                   end);
  if negb loaded && negb (bool_decide (is_Some (gsn_to_file_offset_map_ st !! base_idx)))
  then Some (st, None)
  else if (num_at st base_idx <=? local_cache_idx) || (replicated_index_ st <? idx)
  then Some (st, None)
  else
    let '(st, offset, len) := entry_len st base_idx idx in
    '(st, resp, _) ← readEntryFromDisk st base_idx offset resp len;
    Some (st, Some (resp, len)).

(** [slow] says whether the thread has waited before; [resp] is the buffer of the server
    thread. *)
Definition ReadEntryHandler `{Erpc} (resp : buffer) (slow : bool) (st : t) (req : list byte)
    : option (t * buffer * option (list byte)) :=
  idx ← load_int 8 (msg_buf req) 0;
  '(st, r) ← read_turn st idx resp;
  match r with
  | None => Some (st, resp, None)
  | Some (resp, len) =>
      bs ← send resp len;
      Some (count_read st slow, resp, Some bs)
  end.
End Files.
End Unoptimized.
