(* ===== verification/ShardUnoptSim.v ===== *)
(** The shard server without the read optimisation behaves like the one with it.

    A simulation between [Unoptimized] and [ShardServer]: both write the same data files,
    and the offset maps of the one describe the cached vectors of the other.  It follows
    that a reader decodes the same entries from both. *)

From stdpp Require Import strings pretty.
From S2P Require Import Prelude Props Sequencer LogEntry DlTransport ShardServer ShardRepr ShardUnopt.
From S2P Require Import NaiveBackend StorageLog ShardRecovery.

Local Open Scope Z_scope.

Module U := Unoptimized.

(** ** Offset maps *)

Definition offsets (c : list LogEntry) : gmap Z Z := insert_offsets ∅ 0 c.

Lemma insert_offsets_app m o c es :
  insert_offsets m o (c ++ es) = insert_offsets (insert_offsets m o c) (o + total_size c) es.
Proof.
  revert m o. induction c as [|e c IH]; intros m o; simpl; [by rewrite Z.add_0_r|].
  by rewrite IH, Z.add_assoc.
Qed.

Lemma insert_offsets_other m o c i :
  (∀ e, e ∈ c → log_idx e ≠ i) → insert_offsets m o c !! i = m !! i.
Proof.
  revert m o. induction c as [|e c IH]; intros m o Hi; simpl; [done|].
  rewrite IH by (intros e' He'; apply Hi; by right). apply lookup_insert_ne, Hi. by left.
Qed.

Lemma insert_offsets_lookup m o c j e :
  NoDup (log_idx <$> c) → c !! j = Some e →
  insert_offsets m o c !! log_idx e = Some (o + total_size (take j c)).
Proof.
  revert m o j. induction c as [|e' c IH]; intros m o j Hnd Hj; [done|].
  simpl in Hnd. apply NoDup_cons in Hnd as [Hni Hnd]. destruct j as [|j]; simpl in *.
  - simplify_eq. rewrite insert_offsets_other, lookup_insert_eq; [by rewrite Z.add_0_r|].
    intros e' He' Heq. apply Hni. rewrite <- Heq. by apply list_elem_of_fmap_2.
  - rewrite (IH _ _ j) by done. f_equal. lia.
Qed.

Lemma insert_offsets_dom m o c i :
  is_Some (insert_offsets m o c !! i) ↔ is_Some (m !! i) ∨ ∃ e, e ∈ c ∧ log_idx e = i.
Proof.
  revert m o. induction c as [|e c IH]; intros m o; simpl.
  - split; [by left|]. intros [?|(e & He & _)]; [done|]. by apply not_elem_of_nil in He.
  - rewrite IH, lookup_insert_is_Some'. split.
    + intros [[<-|?]|(e' & ? & ?)]; [right; exists e|by left|right; exists e']; (split; [|done]); by constructor.
    + intros [?|(e' & [->|?]%elem_of_cons & <-)]; [by left; right|by left; left|right; by exists e'].
Qed.

(** Building the map from a message. *)
Lemma build_map_num_ok es m dummy b p cur offset :
  laid (rd (bmem b)) (p + offset) es → Forall valid_entry es →
  0 ≤ p + offset → p + offset + total_size es ≤ bcap b →
  0 ≤ cur → 4 ≤ offset → cur + offset - 4 + total_size es < 2 ^ 64 →
  build_map_num (length es) m dummy b p cur offset =
    Some (insert_offsets m (cur + offset - 4) es, offset + total_size es).
Proof.
  intros Hl Hv. revert m dummy offset Hl. induction Hv as [|e es He Hv IH];
    intros m dummy offset Hl Hp Hcap Hcur Hoff Hmax; simpl in *; [by rewrite Z.add_0_r|].
  pose proof (total_size_nonneg es). pose proof (entry_size_pos e).
  destruct (Deserializer_laid e dummy es b (p + offset)) as [HD Hsz]; [done..|lia|].
  destruct Hl as [_ Hl]. rewrite <- Z.add_assoc in Hl. rewrite HD. simpl.
  rewrite Hsz, (u64_small (cur + offset - 4)), IH by (done || lia). do 2 f_equal; [|lia]. f_equal. lia.
Qed.

Lemma ProcessAndBuildMap_ok m b es cur :
  holds_batch b es → Forall valid_entry es → lenZ es < 2 ^ 32 → 0 ≤ cur → cur + total_size es < 2 ^ 64 →
  ProcessAndBuildMap m b 0 cur = Some (insert_offsets m cur es, 4 + total_size es).
Proof.
  intros (Hcap & Hn & Hl) Hv Hlen Hcur Hmax. pose proof (total_size_nonneg es).
  unfold ProcessAndBuildMap. rewrite load_int_ok by lia. rewrite Hn, un_le_le by (of_nat_lit; lia).
  cbn [mbind option_bind]. rewrite Nat2Z.id, build_map_num_ok by (done || lia). do 3 f_equal. lia.
Qed.

(** The largest key. *)
Lemma last_key_spec m :
  match U.last_key m with
  | None => m = ∅
  | Some k => is_Some (m !! k) ∧ ∀ k', is_Some (m !! k') → k' ≤ k
  end.
Proof.
  unfold U.last_key.
  apply (map_fold_weak_ind (λ r m, match r with
    | None => m = ∅ | Some k => is_Some (m !! k) ∧ ∀ k', is_Some (m !! k') → k' ≤ k end)); [done|].
  intros i x m' r Hi Hr. destruct r as [r|].
  - destruct Hr as [Hr Hmax]. split.
    + destruct (Z.max_spec i r) as [[_ ->]|[_ ->]]; rewrite lookup_insert_is_Some'; auto.
    + intros k' [->|Hk']%lookup_insert_is_Some'; [lia|]. specialize (Hmax k' Hk'). lia.
  - subst m'. rewrite lookup_insert_is_Some'. split; [by left|].
    intros k' [->|Hk']%lookup_insert_is_Some'; [lia|]. rewrite lookup_empty in Hk'. by destruct Hk'.
Qed.

(** Entries with increasing indices. *)
Definition increasing (c : list LogEntry) : Prop :=
  ∀ i j ei ej, (i < j)%nat → c !! i = Some ei → c !! j = Some ej → log_idx ei < log_idx ej.

Lemma increasing_nodup c : increasing c → NoDup (log_idx <$> c).
Proof.
  intros Hinc. apply NoDup_alt. intros i j x. rewrite !list_lookup_fmap.
  intros (ei & Hi & ->)%fmap_Some (ej & Hj & Heq)%fmap_Some.
  destruct (Nat.lt_trichotomy i j) as [Hlt|[->|Hlt]]; [|done|].
  - pose proof (Hinc _ _ _ _ Hlt Hi Hj). lia.
  - pose proof (Hinc _ _ _ _ Hlt Hj Hi). lia.
Qed.

Lemma last_key_offsets c e :
  increasing c → last c = Some e → U.last_key (offsets c) = Some (log_idx e).
Proof.
  intros Hinc Hl. pose proof (last_key_spec (offsets c)) as Hk.
  assert (e ∈ c) as Hin by (apply last_Some in Hl as [l ->]; set_solver).
  assert (is_Some (offsets c !! log_idx e)) as He by (apply insert_offsets_dom; right; by exists e).
  destruct (U.last_key (offsets c)) as [k|]; [|rewrite Hk, lookup_empty in He; by destruct He].
  destruct Hk as [Hk Hmax]. f_equal. pose proof (Hmax _ He).
  apply insert_offsets_dom in Hk as [Hk|(e' & He' & <-)]; [rewrite lookup_empty in Hk; by destruct Hk|].
  apply list_elem_of_lookup_1 in He' as [i Hi]. rewrite last_lookup in Hl.
  pose proof (lookup_lt_Some _ _ _ Hi). destruct (decide (i = pred (length c))) as [->|Hne]; [by simplify_eq|].
  pose proof (Hinc i (pred (length c)) e' e ltac:(lia) Hi Hl). lia.
Qed.

(** ** The simulation *)

Record sim (st : U.t) (so : ShardServer) : Prop := {
  sim_unit : U.stripe_unit_size_ st = stripe_unit_size_ so;
  sim_num : U.shard_num_ st = shard_num_ so;
  sim_id : U.shard_id_ st = shard_id_ so;
  sim_folder : U.folder_path_ st = folder_path_ so;
  sim_rep : U.replicated_index_ st = replicated_index_ so;
  sim_fds : U.entries_fd_set_ st = entries_fd_set_ so;
  sim_size : U.cache_size_ st = cache_size_ so;
  sim_os : U.os st = os so;
  sim_maps : U.gsn_to_file_offset_map_ st = offsets <$> entries_cache_set_ so;
  sim_cached : ∀ k c, entries_cache_set_ so !! k = Some c →
    U.size_at st k = total_size c ∧ U.num_at st k = lenZ c
}.

Lemma sim_path st so k : sim st so → U.getDataFilePath st k = getDataFilePath so k.
Proof. intros []. unfold U.getDataFilePath, getDataFilePath. by rewrite sim_folder0, sim_id0. Qed.

Lemma sim_base st so idx : sim st so → U.base_of st idx = base_of so idx.
Proof. intros []. unfold U.base_of, base_of. by rewrite sim_unit0, sim_num0. Qed.

Lemma sim_first_base st so req : sim st so → U.first_base st req = first_base so req.
Proof.
  intros Hs. unfold U.first_base, first_base. destruct (Deserializer _ _ _) as [[e ?]|]; [|done].
  cbn [mbind option_bind]. by apply sim_base.
Qed.

Section Sim.
Context `{Posix}.

Lemma create_sim st so k :
  sim st so →
  ∃ st1 so1 fd, U.create_stripe st k = (st1, fd) ∧ create_stripe so k = (so1, fd) ∧ sim st1 so1.
Proof.
  intros Hs. pose proof (sim_path st so k Hs) as Hp. pose proof Hs as []. unfold U.create_stripe, create_stripe.
  cbn [U.with_sizes U.with_maps U.os with_cache_size with_cache os].
  change (U.getDataFilePath (U.with_sizes _ _ _) k) with (U.getDataFilePath st k).
  change (getDataFilePath (with_cache_size _ _) k) with (getDataFilePath so k). rewrite Hp, sim_os0.
  assert (∀ o m, sim (U.with_fds (U.with_os (U.with_sizes (U.with_maps st
      (<[k := ∅]> (U.gsn_to_file_offset_map_ st))) (<[k := 0]> (U.cache_size_ st)) (<[k := 0]> (U.num_entries_ st))) o) m)
    (with_fds (with_os (with_cache_size (with_cache so (<[k := []]> (entries_cache_set_ so)))
      (<[k := 0]> (cache_size_ so))) o) m)) as Hsim.
  { intros o m. split; simpl; try done.
    - by rewrite sim_size0.
    - rewrite sim_maps0, fmap_insert. done.
    - intros k' c Hc. unfold U.size_at, U.num_at in *. simpl. destruct (decide (k' = k)) as [->|Hne].
      + rewrite lookup_insert_eq in Hc. simplify_eq. by rewrite !lookup_insert_eq.
      + rewrite lookup_insert_ne in Hc by done. rewrite !lookup_insert_ne by done. by apply sim_cached0. }
  destruct (open_trunc (os so) (getDataFilePath so k)) as [o fd]. destruct (fd <? 0).
  - eexists _, _, None. split; [done|]. split; [done|].
    specialize (Hsim o (entries_fd_set_ so)). destruct Hsim. split; try done.
  - eexists _, _, (Some fd). split; [done|]. split; [done|]. rewrite <- sim_fds0 at 1.
    cbn [U.with_os U.with_sizes U.with_maps U.entries_fd_set_ with_os with_cache_size with_cache entries_fd_set_].
    rewrite sim_fds0. apply Hsim.
Qed.

(** Every stripe unit with a file is cached, as long as the server was not restarted. *)
Definition all_cached (so : ShardServer) (k : Z) : Prop :=
  entries_cache_set_ so !! k = None → files (os so) !! getDataFilePath so k = None.

Lemma stripe_fd_sim st so k so1 fd :
  sim st so → all_cached so k → cache_fd so k = Some (so1, fd) →
  ∃ st1, U.stripe_fd st k = Some (st1, fd) ∧ sim st1 so1.
Proof.
  intros Hs Hc Hfd. pose proof Hs as []. unfold U.stripe_fd. rewrite sim_maps0, lookup_fmap.
  unfold cache_fd in Hfd. destruct (entries_cache_set_ so !! k) as [c|] eqn:Ek; simpl.
  - simplify_eq. rewrite sim_fds0. eexists. split; [done|]. by split.
  - specialize (Hc Ek). revert Hfd. unfold loadFromDiskToCache, U.loadFromDiskToCache, open_rdonly.
    rewrite (sim_path _ _ _ Hs), sim_os0, Hc. simpl.
    assert (U.with_os st (os so) = st) as -> by (rewrite <- sim_os0; by destruct st).
    assert (with_os so (os so) = so) as -> by (by destruct so).
    destruct (create_sim st so k Hs) as (st1 & so1' & fd' & -> & -> & Hs1). intros ?. simplify_eq. by exists st1.
Qed.

Lemma cache_fd_at so k so1 fd :
  all_cached so k → cache_fd so k = Some (so1, fd) → entries_cache_set_ so1 !! k = Some (cache_at so k).
Proof.
  intros Hc. unfold cache_fd, cache_at. destruct (entries_cache_set_ so !! k) as [c|] eqn:Ek.
  - intros ?. by simplify_eq/=.
  - unfold loadFromDiskToCache, open_rdonly. rewrite (Hc Ek). simpl. unfold create_stripe.
    destruct (open_trunc _ _) as [o fd']. destruct (fd' <? 0); intros ?; simplify_eq/=; apply lookup_insert_eq.
Qed.

(** The new entries in the vector and in the map of a unit. *)
Lemma add_entries_sim st so k c es o :
  sim st so → entries_cache_set_ so !! k = Some c →
  total_size c + total_size es < 2 ^ 64 → lenZ c + lenZ es < 2 ^ 64 →
  sim (U.with_os (U.with_sizes
         (U.with_maps st (<[k := insert_offsets (offsets c) (total_size c) es]> (U.gsn_to_file_offset_map_ st)))
         (<[k := u64 (total_size c + total_size es)]> (U.cache_size_ st))
         (<[k := u64 (lenZ c + lenZ es)]> (U.num_entries_ st))) o)
      (with_os (with_cache_size (with_cache so (<[k := c ++ es]> (entries_cache_set_ so)))
         (<[k := u64 (total_size c + total_size es)]> (cache_size_ so))) o).
Proof.
  intros Hs Hk Hmax Hnum. pose proof Hs as []. pose proof (total_size_nonneg c). pose proof (total_size_nonneg es).
  split; simpl; try done.
  - by rewrite sim_size0.
  - rewrite sim_maps0, fmap_insert. f_equal. unfold offsets. by rewrite insert_offsets_app.
  - intros k' c' Hc'. unfold U.size_at, U.num_at in *. simpl. destruct (decide (k' = k)) as [->|Hne].
    + rewrite lookup_insert_eq in Hc'. simplify_eq. rewrite !lookup_insert_eq. simpl.
      rewrite !u64_small, total_size_app, length_app by lia. split; [done|lia].
    + rewrite lookup_insert_ne in Hc' by done. rewrite !lookup_insert_ne by done. by apply sim_cached0.
Qed.

Lemma process_sim st so k req es so' :
  sim st so → all_cached so k → holds_batch (msg_buf req) es → Forall valid_entry es → lenZ es < 2 ^ 32 →
  total_size (cache_at so k) + total_size es < 2 ^ 63 →
  addToEntryCache so k req = Some so' →
  ∃ st', U.processEntriesAndBuildMap st k req = Some st' ∧ sim st' so'.
Proof.
  intros Hs Hc Hb Hv Hlen Hmax Hadd. unfold addToEntryCache in Hadd.
  destruct (cache_fd so k) as [[so1 fd]|] eqn:Ecf; [|done]. cbn [mbind option_bind] in Hadd.
  pose proof (cache_fd_at _ _ _ _ Hc Ecf) as Hk1.
  destruct (stripe_fd_sim st so k so1 fd Hs Hc Ecf) as (st1 & Hst1 & Hs1).
  unfold U.processEntriesAndBuildMap. rewrite Hst1. cbn [mbind option_bind].
  destruct fd as [fd|]; [|simplify_eq; by exists st1].
  set (c := cache_at so k) in *. pose proof (total_size_nonneg c). pose proof (total_size_nonneg es).
  pose proof (length_total_size c). pose proof (length_total_size es).
  assert (cache_at so1 k = c) as Hc1 by (unfold cache_at; by rewrite Hk1).
  destruct (sim_cached _ _ Hs1 k c Hk1) as [Hsize Hnum].
  assert (U.map_at st1 k = offsets c) as Hmap
    by (unfold U.map_at; by rewrite (sim_maps _ _ Hs1), lookup_fmap, Hk1).
  rewrite Hc1, (MultiDeserializer_ok _ _ es) in Hadd by done. cbn [mbind option_bind] in Hadd.
  rewrite Hmap, Hsize, (ProcessAndBuildMap_ok _ _ es) by (done || lia). cbn [mbind option_bind].
  destruct Hb as (Hcap & Hn & Hl). rewrite load_int_ok by lia. rewrite Hn, un_le_le by (of_nat_lit; lia).
  cbn [mbind option_bind]. replace (4 + total_size es - 4) with (total_size es) in * by lia.
  rewrite (u64_small (total_size es)) in * by lia. rewrite load_ok in * by lia. cbn [mbind option_bind] in *.
  change (cache_size_at (with_cache so1 _) k) with (cache_size_at so1 k) in Hadd.
  change (U.size_at (U.with_maps st1 _) k) with (U.size_at st1 k).
  change (U.num_at (U.with_maps st1 _) k) with (U.num_at st1 k).
  assert (cache_size_at so1 k = total_size c) as Hsz1
    by (rewrite <- Hsize; unfold cache_size_at, U.size_at; by rewrite (sim_size _ _ Hs1)).
  rewrite Hsz1 in Hadd. rewrite Hsize, Hnum.
  cbn [U.with_sizes U.with_maps U.os with_cache_size with_cache os] in *.
  rewrite (sim_os _ _ Hs1). destruct (write (os so1) fd _) as [o ?]. simplify_eq.
  eexists. split; [done|]. apply (add_entries_sim st1 so1 k (cache_at so k) es o); [done..|lia|lia].
Qed.

Lemma close_sim st so k st1 r :
  sim st so → writeFromCacheToDisk so k = Some (st1, r) →
  ∃ st', U.writeFromCacheToDisk st k = Some (st', r) ∧ sim st' st1.
Proof.
  intros Hs. pose proof Hs as []. unfold writeFromCacheToDisk, U.writeFromCacheToDisk. rewrite sim_fds0.
  destruct (entries_fd_set_ so !! k); [|done]. cbn [mbind option_bind]. intros ?. simplify_eq.
  rewrite sim_os0. eexists. split; [done|]. by split.
Qed.
End Sim.

(** ** Handlers *)

Section Handlers.
Context `{Posix} (u n s : nat).
Context (Hcreate : ∀ p, may_create p = true) (Hwrite : ∀ k, write_len k = k).

Lemma repr_cached so mine b : shard_repr u n s so mine → all_cached so (key u n b).
Proof.
  intros Hr Hk. rewrite (sr_cache _ _ _ _ _ Hr) in Hk. apply (sr_nofile _ _ _ _ _ Hr).
  by destruct (stripe u b mine).
Qed.

Lemma stripe_size b mine : total_size (stripe u b mine) ≤ total_size mine.
Proof.
  unfold stripe. rewrite <- (take_drop (b * u) mine) at 2. rewrite <- (take_drop u (drop (b * u) mine)) at 2.
  rewrite !total_size_app. pose proof (total_size_nonneg (take (b * u) mine)).
  pose proof (total_size_nonneg (drop u (drop (b * u) mine))). lia.
Qed.

Lemma cache_at_stripe so mine b : shard_repr u n s so mine → cache_at so (key u n b) = stripe u b mine.
Proof.
  intros Hr. unfold cache_at. rewrite (sr_cache _ _ _ _ _ Hr). by destruct (stripe u b mine).
Qed.

Lemma num_at_sim st so k : sim st so → cache_at so k ≠ [] → U.num_at st k = lenZ (cache_at so k).
Proof.
  intros Hs Hne. unfold cache_at in *. destruct (entries_cache_set_ so !! k) as [c|] eqn:E; [|done].
  by apply (sim_cached _ _ Hs k c).
Qed.

(** Adding a batch and closing the file when the unit is full, in both servers. *)
Lemma add_and_close_sim st so mine es req :
  let k := key u n (length mine / u) in
  sim st so → shard_repr u n s so mine → batch_for u n s mine es req → total_size (mine ++ es) < 2 ^ 63 →
  ∃ so1 so' st1 st', addToEntryCache so k req = Some so1 ∧ U.processEntriesAndBuildMap st k req = Some st1 ∧
    (if stripe_unit_size_ so1 <=? lenZ (cache_at so1 k) then writeFromCacheToDisk so1 k else Some (so1, 0))
      = Some (so', 0) ∧
    (if U.stripe_unit_size_ st1 <=? U.num_at st1 k then U.writeFromCacheToDisk st1 k else Some (st1, 0))
      = Some (st', 0) ∧
    sim st' so' ∧ shard_repr u n s so' (mine ++ es) ∧ last (cache_at so' k) = last es.
Proof.
  intros k Hs Hr Hb Hmax. rewrite total_size_app in Hmax.
  destruct (add_and_close u n s Hcreate Hwrite so mine es req Hr Hb)
    as (so1 & so' & Hadd & _ & Hclose & _ & Hr' & Hlast). fold k in Hadd, Hclose, Hlast.
  destruct (addToEntryCache_ok u n s Hcreate Hwrite so mine es req Hr Hb) as (so1' & Hadd' & _ & _ & Hc1 & _).
  fold k in Hadd', Hc1. simplify_eq. pose proof (stripe_size (length mine / u) mine).
  destruct (process_sim st so k req es so1 Hs (repr_cached _ _ _ Hr)) as (st1 & Hst1 & Hs1);
    [apply Hb..|unfold k; rewrite (cache_at_stripe _ _ _ Hr); lia|done|].
  assert (cache_at so1 k ≠ []) as Hne.
  { rewrite Hc1. intros Happ. apply app_nil in Happ as [_ ->]. by destruct (bf_ne _ _ _ _ _ _ Hb). }
  rewrite <- (sim_unit _ _ Hs1), <- (num_at_sim _ _ _ Hs1 Hne) in Hclose.
  exists so1, so', st1. rewrite <- (sim_unit _ _ Hs1), <- (num_at_sim _ _ _ Hs1 Hne).
  destruct (_ <=? _).
  - destruct (close_sim _ _ _ _ _ Hs1 Hclose) as (st' & Hw & Hs'). exists st'. rewrite Hw. auto 8.
  - simplify_eq. exists st1. auto 8.
Qed.

Lemma ReplicateBatchHandler_sim st so mine es req :
  sim st so → shard_repr u n s so mine → batch_for u n s mine es req → total_size (mine ++ es) < 2 ^ 63 →
  ∃ so' st', ReplicateBatchHandler so req = Some (so', 0) ∧ U.ReplicateBatchHandler st req = Some (st', 0) ∧
    sim st' so' ∧ shard_repr u n s so' (mine ++ es).
Proof.
  intros Hs Hr Hb Hmax. unfold ReplicateBatchHandler, U.ReplicateBatchHandler.
  rewrite (sim_first_base _ _ _ Hs), (first_base_ok _ _ _ _ _ _ _ Hr Hb). cbn [mbind option_bind].
  destruct (add_and_close_sim st so mine es req Hs Hr Hb Hmax)
    as (so1 & so' & st1 & st' & -> & -> & Hco & Hcu & Hs' & Hr' & _).
  cbn [mbind option_bind]. exists so', st'. split; [|split; [|done]].
  - revert Hco. destruct (stripe_unit_size_ so1 <=? _); [by intros ->|intros; by simplify_eq].
  - revert Hcu. destruct (U.stripe_unit_size_ st1 <=? _); [by intros ->|intros; by simplify_eq].
Qed.

Lemma replicate_to_sim `{Erpc} cap st so mine es req :
  sim st so → shard_repr u n s so mine → batch_for u n s mine es req → total_size (mine ++ es) < 2 ^ 63 →
  lenZ req ≤ cap →
  ∃ so' st', replicate_to cap so req = Some so' ∧ U.replicate_to cap st req = Some st' ∧
    sim st' so' ∧ shard_repr u n s so' (mine ++ es).
Proof.
  intros Hs Hr Hb Hmax Hcap. unfold replicate_to, U.replicate_to. rewrite store_ok by (simpl; lia).
  cbn [mbind option_bind]. rewrite send_ok by (simpl; lia). cbn [mbind option_bind]. rewrite Nat2Z.id.
  unfold bpoke. cbn [bmem]. rewrite peek_poke_same.
  destruct (ReplicateBatchHandler_sim st so mine es req Hs Hr Hb Hmax) as (so' & st' & -> & -> & Hs' & Hr').
  by exists so', st'.
Qed.

(** The tokens stay in place when at most one request is sent or each is answered before
    the next. *)
Definition tokens_stay (backups : nat) (prompt : list bool) : Prop :=
  (backups ≤ 1)%nat ∨ prompt = replicate backups true.

Lemma send_batches_sim `{Erpc} cap sts sos mine es req size capacity prompt :
  Forall2 sim sts sos → Forall (λ so, shard_repr u n s so mine) sos → batch_for u n s mine es req →
  total_size (mine ++ es) < 2 ^ 63 → lenZ req ≤ cap → tokens_stay (length sts) prompt →
  ∃ sos' sts', mapM (λ b, replicate_to cap b req) sos = Some sos' ∧
    U.send_batches cap size capacity false prompt sts req = Some sts' ∧ length sts' = length sts ∧
    Forall2 sim sts' sos' ∧ Forall (λ so, shard_repr u n s so (mine ++ es)) sos'.
Proof.
  intros Hss Hrs Hb Hmax Hcap. revert size capacity prompt.
  induction Hss as [|st so sts sos Hs Hss IH]; intros size capacity prompt Hst;
    cbn [mapM U.send_batches length] in *.
  - by exists [], [].
  - inversion Hrs as [|? ? Hr Hrs']; subst. rewrite andb_false_r.
    destruct (replicate_to_sim cap st so mine es req Hs Hr Hb Hmax Hcap) as (so' & st' & -> & -> & Hs' & Hr').
    cbn [mbind option_bind orb].
    destruct Hst as [Hlen| ->].
    + simpl in Hlen. assert (sts = []) as -> by (apply length_zero_iff_nil; lia).
      apply Forall2_nil_inv_l in Hss as ->. simpl. exists [so'], [st']. repeat split; auto.
    + cbn [replicate head tail default from_option id negb].
      destruct (IH Hrs' (S size) (if (size =? capacity)%nat then Nat.max 1 (2 * capacity) else capacity)
        (replicate (length sts) true) (or_intror eq_refl)) as (sos' & sts' & -> & -> & Hl & Hss' & Hrs'').
      cbn [mbind option_bind].
      exists (so' :: sos'), (st' :: sts'). simpl. repeat split; auto.
Qed.

Lemma repr_increasing so mine : shard_repr u n s so mine → increasing mine.
Proof.
  intros Hr i j ei ej Hij Hi Hj. pose proof (sr_s _ _ _ _ _ Hr).
  rewrite (sr_idx _ _ _ _ _ Hr _ _ Hi), (sr_idx _ _ _ _ _ Hr _ _ Hj). nia.
Qed.

Lemma stripe_increasing b mine : increasing mine → increasing (stripe u b mine).
Proof.
  intros Hinc i j ei ej Hij. unfold stripe. intros Hi Hj.
  apply lookup_take_Some in Hi as [Hi _]. apply lookup_take_Some in Hj as [Hj _].
  rewrite lookup_drop in Hi, Hj. apply (Hinc (b * u + i)%nat (b * u + j)%nat); (done || lia).
Qed.

Lemma AppendBatchHandler_sim `{Erpc} cap st sts so sos mine es req prompt :
  sim st so → shard_repr u n s so mine → Forall2 sim sts sos → Forall (λ so, shard_repr u n s so mine) sos →
  batch_for u n s mine es req → total_size (mine ++ es) < 2 ^ 63 → lenZ req ≤ cap →
  tokens_stay (length sts) prompt →
  ∃ so' sos' st' sts', AppendBatchHandler cap so sos req = Some (so', sos') ∧
    U.AppendBatchHandler cap prompt st sts req = Some (st', sts') ∧ length sts' = length sts ∧
    sim st' so' ∧ shard_repr u n s so' (mine ++ es) ∧ Forall2 sim sts' sos' ∧
    Forall (λ so, shard_repr u n s so (mine ++ es)) sos'.
Proof.
  intros Hs Hr Hss Hrs Hb Hmax Hcap Hst. unfold AppendBatchHandler, U.AppendBatchHandler.
  rewrite (sim_first_base _ _ _ Hs), (first_base_ok _ _ _ _ _ _ _ Hr Hb). cbn [mbind option_bind].
  destruct (send_batches_sim cap sts sos mine es req 0 0 prompt Hss Hrs Hb Hmax Hcap Hst)
    as (sos' & sts' & -> & -> & Hl & Hss' & Hrs'). cbn [mbind option_bind].
  destruct (add_and_close_sim st so mine es req Hs Hr Hb Hmax)
    as (so1 & so' & st1 & st' & -> & -> & Hco & Hcu & Hs' & Hr' & Hlast).
  cbn [mbind option_bind]. rewrite Hco, Hcu. cbn [mbind option_bind]. rewrite Hlast.
  destruct (last es) as [e|] eqn:El; [|by apply last_None, (bf_ne _ _ _ _ _ _ Hb) in El]. cbn [mbind option_bind].
  set (k := key u n (length mine / u)) in *.
  assert (entries_cache_set_ so' !! k = Some (cache_at so' k)) as Hk.
  { unfold cache_at in *. by destruct (entries_cache_set_ so' !! k). }
  unfold U.map_at. rewrite (sim_maps _ _ Hs'), lookup_fmap, Hk. cbn [fmap option_fmap option_map default from_option id].
  rewrite (last_key_offsets _ e); [|unfold k; rewrite (cache_at_stripe _ _ _ Hr');
    by eapply stripe_increasing, repr_increasing|done]. cbn [mbind option_bind].
  eexists _, sos', _, sts'. split; [done|]. split; [done|]. split; [done|]. split; [by destruct Hs'|].
  split; [destruct Hr'; by split|done].
Qed.
End Handlers.

(** ** Reads *)

(** One entry of a file that holds [c]. *)
Lemma file_holds_entry bytes c i e :
  file_holds bytes c → c !! i = Some e →
  file_holds (take (Z.to_nat (entry_size e)) (drop (Z.to_nat (total_size (take i c))) bytes)) [e].
Proof.
  intros [Hlen Hl] Hi. rewrite <- (take_drop_middle c i e Hi) in Hl, Hlen.
  pose proof (total_size_nonneg (take i c)). pose proof (total_size_nonneg (drop (S i) c)).
  rewrite total_size_app in Hlen. simpl in Hlen. apply laid_app in Hl as [_ [Hl _]].
  apply file_holds_slice; [by split|done|lia].
Qed.

Section Reads.
Context `{Posix} (u n s : nat).

Lemma stripe_idx so mine b i e :
  shard_repr u n s so mine → stripe u b mine !! i = Some e →
  log_idx e = Z.of_nat s + (Z.of_nat b * Z.of_nat u + Z.of_nat i) * Z.of_nat n.
Proof.
  intros Hr Hi. unfold stripe in Hi. apply lookup_take_Some in Hi as [Hi _]. rewrite lookup_drop in Hi.
  rewrite (sr_idx _ _ _ _ _ Hr _ _ Hi). lia.
Qed.

(** The offset of the next entry of the unit. *)
Lemma next_offset so mine b i e :
  let c := stripe u b mine in
  shard_repr u n s so mine → c !! i = Some e →
  offsets c !! (log_idx e + Z.of_nat n) =
    if decide (S i < length c)%nat then Some (total_size (take (S i) c)) else None.
Proof.
  intros c Hr Hi. pose proof (sr_s _ _ _ _ _ Hr). pose proof (stripe_idx so mine b i e Hr Hi) as Hidx.
  assert (increasing c) as Hinc by (by eapply stripe_increasing, repr_increasing).
  case_decide as Hd.
  - destruct (lookup_lt_is_Some_2 c (S i) Hd) as [e' He'].
    pose proof (stripe_idx so mine b (S i) e' Hr He') as Hidx'.
    replace (log_idx e + Z.of_nat n) with (log_idx e') by lia.
    by apply (insert_offsets_lookup ∅ 0 c _ e'); [apply increasing_nodup|].
  - destruct (offsets c !! _) eqn:E; [|done].
    apply mk_is_Some, insert_offsets_dom in E as [E|(e' & He' & Heq)]; [rewrite lookup_empty in E; by destruct E|].
    apply list_elem_of_lookup_1 in He' as [i' Hi']. pose proof (lookup_lt_Some _ _ _ Hi').
    pose proof (stripe_idx so mine b i' e' Hr Hi') as Hidx'. assert (i' = S i) by nia. lia.
Qed.

Lemma entry_len_ok st so mine j e :
  let k := key u n (j / u) in let c := stripe u (j / u) mine in
  sim st so → shard_repr u n s so mine → mine !! j = Some e → log_idx e + Z.of_nat n < 2 ^ 64 →
  U.entry_len st k (log_idx e) =
    (st, total_size (take (j mod u) c), u64 (total_size (take (S (j mod u)) c) - total_size (take (j mod u) c))).
Proof.
  intros k c Hs Hr Hj Hmax. pose proof (sr_u _ _ _ _ _ Hr) as Hu. pose proof (sr_s _ _ _ _ _ Hr).
  pose proof (sr_n _ _ _ _ _ Hr). pose proof (lookup_stripe u mine j Hu) as Hc. fold c in Hc. rewrite Hj in Hc.
  assert (increasing c) as Hinc by (by eapply stripe_increasing, repr_increasing).
  pose proof (increasing_nodup _ Hinc) as Hnd.
  assert (entries_cache_set_ so !! k = Some c) as Hk
    by (unfold k; rewrite (sr_cache _ _ _ _ _ Hr); fold c; by destruct c).
  assert (U.gsn_to_file_offset_map_ st !! k = Some (offsets c)) as Hm
    by (by rewrite (sim_maps _ _ Hs), lookup_fmap, Hk).
  assert (U.map_at st k = offsets c) as Hma by (unfold U.map_at; by rewrite Hm).
  pose proof (insert_offsets_lookup ∅ 0 c _ e Hnd Hc) as Ho. rewrite Z.add_0_l in Ho. fold (offsets c) in Ho.
  destruct (sim_cached _ _ Hs k c Hk) as [Hsize _].
  pose proof (next_offset so mine (j / u) (j mod u) e Hr Hc) as Hnext. fold c in Hnext.
  pose proof (sr_idx _ _ _ _ _ Hr _ _ Hj).
  unfold U.entry_len. rewrite Hma, Ho. cbn [default from_option id].
  rewrite (sim_num _ _ Hs), (sr_num _ _ _ _ _ Hr), (u64_small (Z.of_nat n)) by lia.
  rewrite (u64_small (log_idx e + Z.of_nat n)) by nia.
  rewrite (insert_id (offsets c)), (insert_id (U.gsn_to_file_offset_map_ st)) by done.
  assert (U.with_maps st (U.gsn_to_file_offset_map_ st) = st) as -> by (by destruct st).
  rewrite Hnext, Hsize. case_decide as Hd; cbn [default from_option id]; [done|]. by rewrite (take_ge _ (S _)) by lia.
Qed.

(** Reading an entry of a unit from its file leaves no descriptor behind. *)
Lemma readEntryFromDisk_ok st so k bytes o len resp :
  sim st so → files (os so) !! getDataFilePath so k = Some bytes → o < 2 ^ 63 →
  let bs := take (Z.to_nat len) (drop (Z.to_nat o) bytes) in
  lenZ bs ≤ bcap resp →
  U.readEntryFromDisk st k o resp len = Some (st, bpoke resp 0 bs, lenZ bs).
Proof.
  intros Hs Hf Ho bs Hcap. unfold U.readEntryFromDisk, open_rdonly.
  rewrite (sim_path _ _ _ Hs), (sim_os _ _ Hs), Hf. pose proof (fd_alloc_std (fds (os so))).
  rewrite (proj2 (Z.ltb_ge _ _)) by lia. unfold U.pread. cbn [fds files]. rewrite lookup_insert_eq.
  cbn [mbind option_bind of_path]. rewrite (proj2 (Z.leb_gt _ _)) by lia. rewrite Hf.
  cbn [default from_option id]. fold bs. rewrite store_ok by lia. cbn [mbind option_bind].
  unfold close. cbn [fds files]. rewrite delete_insert_id by apply fd_alloc_fresh.
  do 3 f_equal. pose proof (sim_os _ _ Hs). destruct (os so). destruct st. simpl in *. by subst.
Qed.

(** One turn of a read on the unoptimised server. *)
Lemma read_turn_sim st so mine j resp :
  let idx := Z.of_nat s + Z.of_nat j * Z.of_nat n in
  sim st so → shard_repr u n s so mine → idx + Z.of_nat n < 2 ^ 64 → total_size mine < 2 ^ 63 →
  (∀ e, e ∈ mine → entry_size e ≤ bcap resp) →
  ∃ r, U.read_turn st idx resp = Some (st, r) ∧
    match (if replicated_index_ so <? idx then None else mine !! j) with
    | None => r = None
    | Some e => ∃ bs, file_holds bs [e] ∧ r = Some (bpoke resp 0 bs, entry_size e)
    end.
Proof.
  intros idx Hs Hr Hidx Htot Hresp. pose proof (sr_u _ _ _ _ _ Hr) as Hu. pose proof (sr_s _ _ _ _ _ Hr) as Hsn.
  pose proof (sr_n _ _ _ _ _ Hr) as Hn.
  destruct (base_of_ok _ _ _ _ _ j Hr ltac:(lia)) as [Hbase Hrange]. fold idx in Hbase, Hrange.
  unfold U.read_turn. rewrite (sim_base _ _ _ Hs), Hbase. cbn [mbind option_bind].
  rewrite (sim_num _ _ Hs), (sr_num _ _ _ _ _ Hr), !u64_small by lia.
  destruct (index_place u n s j) as [_ Hloc]; [done..|]. fold idx in Hloc. rewrite Hloc.
  pose proof (sr_cache _ _ _ _ _ Hr (j / u)%nat) as Hc. pose proof (lookup_stripe u mine j Hu) as Hlk.
  set (k := key u n (j / u)) in *. set (c := stripe u (j / u) mine) in *.
  rewrite (sim_maps _ _ Hs), lookup_fmap, Hc.
  destruct (nonempty c) as [c'|] eqn:Ec; cbn [fmap option_fmap option_map mbind option_bind].
  - assert (c' = c) as -> by (destruct c; by simplify_eq/=). destruct (sim_cached _ _ Hs k c Hc) as [_ Hnum].
    cbn [negb andb]. rewrite Hnum, (sim_rep _ _ Hs).
    destruct (Z.leb_spec (lenZ c) (Z.of_nat (j mod u))) as [Hle|Hlt]; cbn [orb].
    { exists None. split; [done|]. assert (mine !! j = None) as -> by (rewrite <- Hlk; apply lookup_ge_None_2; lia).
      by destruct (_ <? _). }
    destruct (replicated_index_ so <? idx); [by exists None|].
    destruct (mine !! j) as [e|] eqn:Ej; [|apply lookup_ge_None in Hlk; lia].
    pose proof (sr_idx _ _ _ _ _ Hr _ _ Ej) as He. fold idx in He. rewrite <- He.
    pose proof (entry_len_ok st so mine j e Hs Hr Ej ltac:(lia)) as Hel. fold c k in Hel. rewrite Hel.
    rewrite (take_S_r _ _ _ Hlk), total_size_app. simpl total_size.
    pose proof (entry_size_pos e). pose proof (Hresp e ltac:(by eapply list_elem_of_lookup_2)).
    pose proof (total_size_nonneg (take (j mod u) c)). pose proof (stripe_size u (j / u) mine) as Hsz. fold c in Hsz.
    rewrite <- (take_drop_middle c _ _ Hlk), total_size_app in Hsz. simpl in Hsz.
    pose proof (total_size_nonneg (drop (S (j mod u)) c)).
    rewrite u64_small by lia. replace (_ + (entry_size e + 0) - _) with (entry_size e) by lia.
    destruct (sr_file _ _ _ _ _ Hr (j / u)%nat) as (bytes & Hf & Hh); [fold c; by destruct c|].
    fold c k in Hf, Hh. pose proof (file_holds_entry bytes c _ e Hh Hlk) as Hb.
    rewrite (readEntryFromDisk_ok st so k bytes) by (done || lia || (destruct Hb as [-> _]; simpl; lia)).
    cbn [mbind option_bind]. eexists. split; [done|]. by eexists.
  - assert (c = []) as E by (by destruct c). unfold U.loadFromDiskToCache, open_rdonly.
    pose proof (sr_nofile _ _ _ _ _ Hr (j / u)%nat E) as Hf. fold k in Hf.
    rewrite (sim_path _ _ _ Hs), (sim_os _ _ Hs), Hf.
    assert (U.with_os st (os so) = st) as -> by (rewrite <- (sim_os _ _ Hs); by destruct st).
    cbn [Z.ltb Z.compare mbind option_bind Z.eqb negb andb].
    rewrite (sim_maps _ _ Hs), lookup_fmap, Hc. cbn [fmap option_fmap option_map].
    rewrite bool_decide_false by (by intros []). cbn [negb]. exists None. split; [done|].
    rewrite <- Hlk, E, lookup_nil. by destruct (_ <? _).
Qed.
End Reads.

(** ** Runs *)

(** Batches that continue the sequence of the shard one after the other. *)
Fixpoint batches_for (u n s : nat) (mine : list LogEntry) (bs : list (list LogEntry * list byte)) : Prop :=
  match bs with
  | [] => True
  | b :: bs => batch_for u n s mine b.1 b.2 ∧ batches_for u n s (mine ++ b.1) bs
  end.

Fixpoint append_all `{Posix} `{Erpc} (cap : Z) (so : ShardServer) (sos : list ShardServer)
    (reqs : list (list byte)) : option (ShardServer * list ShardServer) :=
  match reqs with
  | [] => Some (so, sos)
  | req :: reqs => '(so, sos) ← AppendBatchHandler cap so sos req; append_all cap so sos reqs
  end.

Fixpoint append_all_unopt `{Posix} `{Erpc} (cap : Z) (prompt : list bool) (st : U.t) (sts : list U.t)
    (reqs : list (list byte)) : option (U.t * list U.t) :=
  match reqs with
  | [] => Some (st, sts)
  | req :: reqs =>
      '(st, sts) ← U.AppendBatchHandler cap prompt st sts req; append_all_unopt cap prompt st sts reqs
  end.

Section Runs.
Context `{Posix} `{Erpc} (u n s : nat).
Context (Hcreate : ∀ p, may_create p = true) (Hwrite : ∀ k, write_len k = k).

(** All entries of the shard are replicated. *)
Definition all_replicated (so : ShardServer) (mine : list LogEntry) : Prop :=
  ∀ j e, mine !! j = Some e → log_idx e ≤ replicated_index_ so.

Lemma append_all_sim cap prompt st sts so sos mine bs :
  sim st so → shard_repr u n s so mine → Forall2 sim sts sos → Forall (λ so, shard_repr u n s so mine) sos →
  all_replicated so mine → batches_for u n s mine bs → Forall (λ b, lenZ b.2 ≤ cap) bs →
  total_size (mine ++ concat bs.*1) < 2 ^ 63 → tokens_stay (length sts) prompt →
  ∃ so' sos' st' sts', append_all cap so sos bs.*2 = Some (so', sos') ∧
    append_all_unopt cap prompt st sts bs.*2 = Some (st', sts') ∧
    sim st' so' ∧ shard_repr u n s so' (mine ++ concat bs.*1) ∧ all_replicated so' (mine ++ concat bs.*1).
Proof.
  revert st sts so sos mine. induction bs as [|[es req] bs IH]; intros st sts so sos mine Hs Hr Hss Hrs Hrep Hbs Hcap Hmax Hst.
  { rewrite app_nil_r. by exists so, sos, st, sts. }
  destruct Hbs as [Hb Hbs]. apply Forall_cons_1 in Hcap as [Hc Hcap]. cbn [fst snd] in *.
  change (concat ((es, req) :: bs).*1) with (es ++ concat bs.*1) in *.
  change ((es, req) :: bs).*2 with (req :: bs.*2). cbn [append_all append_all_unopt].
  rewrite app_assoc in Hmax.
  assert (total_size (mine ++ es) < 2 ^ 63) as Hm
    by (rewrite (total_size_app (mine ++ es)) in Hmax; pose proof (total_size_nonneg (concat bs.*1)); lia).
  destruct (AppendBatchHandler_sim u n s Hcreate Hwrite cap st sts so sos mine es req prompt Hs Hr Hss Hrs Hb Hm Hc Hst)
    as (so1 & sos1 & st1 & sts1 & Ho & -> & Hl & Hs1 & Hr1 & Hss1 & Hrs1). rewrite Ho. cbn [mbind option_bind].
  destruct (AppendBatchHandler_ok u n s Hcreate Hwrite cap so sos mine es req Hr Hrs Hb Hc)
    as (so1' & sos1' & Ho' & _ & _ & _ & Hlast & _). simplify_eq.
  rewrite app_assoc. rewrite <- Hl in Hst. apply (IH _ _ _ _ _ Hs1 Hr1 Hss1 Hrs1); try done.
  intros j e Hj. destruct (last es) as [el|] eqn:El; [|done]. simpl in Hlast. injection Hlast as ->.
  pose proof (repr_increasing u n s _ _ Hr1) as Hinc.
  assert (last (mine ++ es) = Some el) as Hll by (rewrite last_app, El; done). rewrite last_lookup in Hll.
  pose proof (lookup_lt_Some _ _ _ Hj). destruct (decide (j = pred (length (mine ++ es)))) as [->|Hne]; [by simplify_eq|].
  pose proof (Hinc j (pred (length (mine ++ es))) e el ltac:(lia) Hj Hll). lia.
Qed.

(** The answers of the two servers to a read, as their client decodes them. *)
Definition decoded (r : option (list byte)) : option (option (LogEntry * Z)) :=
  (λ bs, Deserializer LogEntry_default (msg_buf bs) 0) <$> r.

Lemma decoded_entry bs e : file_holds bs [e] → valid_entry e → decoded (Some bs) = Some (Some (e, entry_size e)).
Proof.
  intros [Hlen Hl] Hv. unfold decoded. cbn [fmap option_fmap option_map]. f_equal.
  simpl in Hlen. apply (Deserializer_laid e _ [] (msg_buf bs) 0); try done. simpl. lia.
Qed.

Lemma opt_read so mine j g resp slow :
  let idx := Z.of_nat s + Z.of_nat j * Z.of_nat n in
  shard_repr u n s so mine → all_replicated so mine → idx ≤ g → idx < 2 ^ 64 →
  (∀ e, e ∈ mine → entry_size e ≤ bcap resp) →
  ∃ so' r, ReadEntryHandler resp slow (with_indices so (replicated_index_ so) g) (le_bytes 8 idx) = Some (so', r) ∧
    decoded r = (λ e, Some (e, entry_size e)) <$> mine !! j.
Proof.
  intros idx Hr Hrep Hg Hidx Hresp. unfold ReadEntryHandler.
  rewrite load_u64_response by lia. cbn [mbind option_bind].
  assert (shard_repr u n s (with_indices so (replicated_index_ so) g) mine) as Hr' by (destruct Hr; by split).
  unfold idx. rewrite (read_turn_ok u n s _ mine j Hr' Hidx). cbn [mbind option_bind]. fold idx.
  cbn [with_indices replicated_index_ global_index_]. rewrite (proj2 (Z.ltb_ge g idx)), orb_false_r by done.
  destruct (mine !! j) as [e|] eqn:Ej; [|destruct (_ <? _); by eexists _, None].
  pose proof (sr_idx _ _ _ _ _ Hr _ _ Ej) as Hi. fold idx in Hi.
  rewrite (proj2 (Z.ltb_ge _ _)) by (rewrite <- Hi; by apply (Hrep j)).
  assert (valid_entry e) as Hv by (by eapply Forall_lookup_1; [apply Hr|]).
  pose proof (Hresp e ltac:(by eapply list_elem_of_lookup_2)). pose proof (entry_size_pos e).
  destruct (Serializer_step e resp 0) as (b & -> & Hf & He); [apply Hv|lia|lia|]. cbn [mbind option_bind].
  destruct Hf as [Hcap _]. rewrite send_ok by lia. cbn [mbind option_bind]. eexists _, _. split; [done|].
  apply decoded_entry; [|done]. split; [rewrite length_peek; simpl; lia|].
  apply (laid_ext (rd (bmem b)) _ 0); [|by split]. intros a Ha. simpl in Ha. rewrite Z.add_0_l.
  replace a with (Z.of_nat (Z.to_nat a)) at 2 by lia. symmetry. apply rd_msg_buf.
  rewrite peek_lookup by lia. do 2 f_equal. lia.
Qed.

Lemma unopt_read st so mine j resp slow :
  let idx := Z.of_nat s + Z.of_nat j * Z.of_nat n in
  sim st so → shard_repr u n s so mine → all_replicated so mine → idx + Z.of_nat n < 2 ^ 64 →
  total_size mine < 2 ^ 63 → (∀ e, e ∈ mine → entry_size e ≤ bcap resp) →
  ∃ st' resp' r, U.ReadEntryHandler resp slow st (le_bytes 8 idx) = Some (st', resp', r) ∧
    decoded r = (λ e, Some (e, entry_size e)) <$> mine !! j.
Proof.
  intros idx Hs Hr Hrep Hidx Htot Hresp. unfold U.ReadEntryHandler.
  rewrite load_u64_response by lia. cbn [mbind option_bind].
  destruct (read_turn_sim u n s st so mine j resp Hs Hr Hidx Htot Hresp) as (r & Hrt & Hres).
  fold idx in Hrt, Hres. rewrite Hrt. cbn [mbind option_bind].
  destruct (mine !! j) as [e|] eqn:Ej; [|destruct (_ <? _) in Hres; subst r; by eexists _, _, None].
  pose proof (sr_idx _ _ _ _ _ Hr _ _ Ej) as Hi. fold idx in Hi.
  rewrite (proj2 (Z.ltb_ge _ _)) in Hres by (rewrite <- Hi; by apply (Hrep j)).
  destruct Hres as (bs & Hbs & ->). pose proof (entry_size_pos e).
  pose proof (Hresp e ltac:(by eapply list_elem_of_lookup_2)).
  rewrite send_ok by (simpl; lia). cbn [mbind option_bind]. eexists _, _, _. split; [done|].
  assert (Z.to_nat (entry_size e) = length bs) as -> by (destruct Hbs as [Hl _]; simpl in Hl; lia).
  unfold bpoke. cbn [bmem]. rewrite peek_poke_same.
  apply decoded_entry; [done|]. by eapply Forall_lookup_1; [apply Hr|].
Qed.
End Runs.

Definition fresh_unopt (u n s : nat) : U.t :=
  U.mk ∅ ∅ ∅ ∅ (Z.of_nat u) (Z.of_nat n) (Z.of_nat s) "./data/" 0 0 0 (mkOs ∅ ∅).

Lemma fresh_sim u n s : sim (fresh_unopt u n s) (fresh_server u n s).
Proof. split; try done. Qed.

(** C19. The read optimisation does not change what is read.  Two primaries with the same
    number of backups, one with and one without the optimisation, get the same batches;
    then both answer a read of any index of the shard, the optimised one once the index is
    published, and their client decodes the same entry from both answers: the entry of the
    batches at that place.  Without such an entry both let the read wait. *)
Theorem unoptimized_reads_agree `{Posix} `{Erpc} u n s cap backups prompt bs :
  (∀ p, may_create p = true) → (∀ k, write_len k = k) →
  (0 < u)%nat → (s < n)%nat → Z.of_nat n < 2 ^ 31 → Z.of_nat u * Z.of_nat n < 2 ^ 64 →
  batches_for u n s [] bs → Forall (λ b, lenZ b.2 ≤ cap) bs → total_size (concat bs.*1) < 2 ^ 63 →
  tokens_stay backups prompt →
  ∃ so sos st sts,
    append_all cap (fresh_server u n s) (replicate backups (fresh_server u n s)) bs.*2 = Some (so, sos) ∧
    append_all_unopt cap prompt (fresh_unopt u n s) (replicate backups (fresh_unopt u n s)) bs.*2 = Some (st, sts) ∧
    ∀ j g resp slow, let idx := Z.of_nat s + Z.of_nat j * Z.of_nat n in
      idx ≤ g → idx + Z.of_nat n < 2 ^ 64 → (∀ e, e ∈ concat bs.*1 → entry_size e ≤ bcap resp) →
      ∃ so' st' resp' ro ru,
        ReadEntryHandler resp slow (with_indices so (replicated_index_ so) g) (le_bytes 8 idx) = Some (so', ro) ∧
        U.ReadEntryHandler resp slow st (le_bytes 8 idx) = Some (st', resp', ru) ∧
        decoded ro = decoded ru ∧ decoded ru = (λ e, Some (e, entry_size e)) <$> concat bs.*1 !! j.
Proof.
  intros Hcreate Hwrite Hu Hs Hn Hbig Hbs Hcap Hmax Hst.
  pose proof (fresh_server_repr u n s Hu Hs Hn Hbig) as Hr.
  destruct (append_all_sim u n s Hcreate Hwrite cap prompt (fresh_unopt u n s) (replicate backups (fresh_unopt u n s))
    (fresh_server u n s) (replicate backups (fresh_server u n s)) [] bs)
    as (so & sos & st & sts & Ho & Hun & Hsim & Hr' & Hrep); try done.
  - apply Forall2_replicate, fresh_sim.
  - by apply Forall_replicate.
  - by rewrite length_replicate.
  - exists so, sos, st, sts. split; [done|]. split; [done|]. intros j g resp slow idx Hg Hidx Hresp.
    destruct (opt_read u n s so _ j g resp slow Hr' Hrep Hg ltac:(unfold idx in *; lia) Hresp) as (so' & ro & Hro & Hdo).
    destruct (unopt_read u n s st so _ j resp slow Hsim Hr' Hrep Hidx Hmax Hresp) as (st' & resp' & ru & Hru & Hdu).
    exists so', st', resp', ro, ru. split; [done|]. split; [done|]. by rewrite Hdo, Hdu.
Qed.

(** Two batches of one entry each, a backup, and a unit of two entries. *)
Definition two_batches : list (list LogEntry * list byte) :=
  [(one_entry, batch_message one_entry 40); (next_entry, batch_message next_entry 40)].

Lemma unoptimized_reads_agree_witness :
  ∃ so st so' st' resp' ro ru,
    append_all 2048 (fresh_server 2 1 0) [fresh_server 2 1 0] two_batches.*2 = Some so ∧
    append_all_unopt 2048 [] (fresh_unopt 2 1 0) [fresh_unopt 2 1 0] two_batches.*2 = Some st ∧
    ReadEntryHandler (Buf 64 ∅) false (with_indices so.1 (replicated_index_ so.1) 1) (le_bytes 8 1) = Some (so', ro) ∧
    U.ReadEntryHandler (Buf 64 ∅) false st.1 (le_bytes 8 1) = Some (st', resp', ru) ∧
    decoded ro = decoded ru ∧ decoded ru = Some (Some (mkEntry 42 1 1 2 1 0 [Byte.x41; Byte.x42], 36)).
Proof.
  assert (batches_for 2 1 0 [] two_batches) as Hb
    by (split; [apply one_entry_batch|split; [apply next_entry_batch|done]]).
  assert (forallb (λ b, lenZ b.2 <=? 2048) two_batches = true) as Hcap by (by vm_compute).
  assert (Forall (λ b, lenZ b.2 ≤ 2048) two_batches) as Hc.
  { rewrite List.forallb_forall in Hcap. apply List.Forall_forall. intros b Hin. by apply Z.leb_le, Hcap. }
  destruct (unoptimized_reads_agree (H := Posix_plain) (H0 := Erpc_exact) 2 1 0 2048 1 [] two_batches (λ _, eq_refl) (λ _, eq_refl)
    ltac:(lia) ltac:(lia) ltac:(lia) ltac:(lia) Hb Hc ltac:(by vm_compute) ltac:(by left))
    as (so & sos & st & sts & Ho & Hun & Hread).
  destruct (Hread 1%nat 1 (Buf 64 ∅) false) as (so' & st' & resp' & ro & ru & Hro & Hru & Hd & He); [lia|lia|..].
  - intros e He. apply list_elem_of_In in He. simpl in He. destruct He as [<-|[<-|[]]]; by vm_compute.
  - exists (so, sos), (st, sts), so', st', resp', ro, ru.
    split; [exact Ho|]. split; [exact Hun|]. split; [exact Hro|]. split; [exact Hru|]. split; [exact Hd|].
    rewrite He. by vm_compute.
Defined.

(** The vector of tokens of [AppendBatchHandler] is not reserved: with two backups and a
    first request that is not answered at once, its token is written after it was freed. *)
Lemma unopt_tokens_dangle `{Posix} `{Erpc} cap prompt st b1 b2 bs req :
  U.AppendBatchHandler cap (false :: prompt) st (b1 :: b2 :: bs) req = None.
Proof.
  unfold U.AppendBatchHandler. destruct (U.first_base st req); [|done]. simpl.
  destruct (U.replicate_to cap b1 req); done.
Qed.

(** ** Restart *)

Lemma build_map_size_ok es m dummy b p size cur offset num fuel :
  laid (rd (bmem b)) (p + offset) es → Forall valid_entry es →
  0 ≤ p + offset → p + offset + total_size es ≤ bcap b → size = offset + total_size es →
  0 ≤ cur → 0 ≤ offset → cur + size < 2 ^ 64 → 0 ≤ num → num + lenZ es < 2 ^ 32 → (length es ≤ fuel)%nat →
  build_map_size fuel m dummy b p size cur offset num =
    Some (insert_offsets m (cur + offset) es, size, num + lenZ es).
Proof.
  intros Hl Hv. revert m dummy offset num fuel Hl. induction Hv as [|e es He Hv IH];
    intros m dummy offset num fuel Hl Hp Hcap Hsize Hcur Hoff Hmax Hnum Hlen Hfuel; simpl in *.
  { destruct fuel; simpl; (case_zb; [lia|]); f_equal; (f_equal; [f_equal; lia|lia]). }
  pose proof (total_size_nonneg es). pose proof (entry_size_pos e).
  destruct fuel as [|fuel]; [lia|]. simpl. case_zb; [|lia].
  destruct (Deserializer_laid e dummy es b (p + offset)) as [HD Hsz]; [done..|lia|].
  destruct Hl as [_ Hl]. rewrite <- Z.add_assoc in Hl. rewrite HD. cbn [mbind option_bind].
  rewrite Hsz, (u64_small (cur + offset)) by lia. unfold u32. rewrite Z.mod_small by lia.
  rewrite IH by (done || lia). f_equal. f_equal; [f_equal; f_equal; lia|lia].
Qed.

(** The server after a restart: the same configuration and files, nothing in memory. *)
Definition restarted_unopt (st : U.t) (rep : Z) : U.t :=
  U.mk ∅ ∅ ∅ ∅ (U.stripe_unit_size_ st) (U.shard_num_ st) (U.shard_id_ st) (U.folder_path_ st) rep 0 0
    (mkOs (files (U.os st)) ∅).

Lemma file_holds_map bytes c :
  file_holds bytes c → Forall valid_entry c → total_size c < 2 ^ 37 →
  ProcessAndBuildMap_size ∅ (msg_buf bytes) 0 (lenZ bytes) 0 = Some (offsets c, total_size c, lenZ c).
Proof.
  intros [Hlen Hl] Hv Hmax. pose proof (total_size_nonneg c). pose proof (length_total_size c).
  unfold ProcessAndBuildMap_size. rewrite Hlen.
  apply (build_map_size_ok c ∅); try done; simpl; try lia. apply entries_fuel_ok. lia.
Qed.

(** Loading a unit of a restarted server: the offsets are there again, a descriptor for
    writing is not. *)
Lemma load_restarted_unopt `{Posix} u n s st so mine rep b :
  sim st so → shard_repr u n s so mine → stripe u b mine ≠ [] → total_size (stripe u b mine) < 2 ^ 37 →
  ∃ st', U.loadFromDiskToCache (restarted_unopt st rep) (key u n b) = Some (st', 0) ∧
    U.gsn_to_file_offset_map_ st' = {[ key u n b := offsets (stripe u b mine) ]} ∧
    U.size_at st' (key u n b) = total_size (stripe u b mine) ∧
    U.num_at st' (key u n b) = lenZ (stripe u b mine) ∧
    U.entries_fd_set_ st' = ∅ ∧ U.stripe_unit_size_ st' = U.stripe_unit_size_ st ∧ fds (U.os st') !! 0 = None.
Proof.
  intros Hs Hr Hne Hmax. destruct (sr_file _ _ _ _ _ Hr b Hne) as (bytes & Hf & Hh).
  set (c := stripe u b mine) in *. set (k := key u n b) in *.
  assert (Forall valid_entry c) as Hv by (apply Forall_take, Forall_drop, (sr_valid _ _ _ _ _ Hr)).
  pose proof (file_holds_map bytes c Hh Hv Hmax) as Hload. pose proof (length_total_size c).
  assert (lenZ bytes ≠ 0) as Hlen.
  { destruct Hh as [-> _]. destruct c as [|e c']; [done|]. simpl.
    pose proof (entry_size_pos e). pose proof (total_size_nonneg c'). lia. }
  unfold U.loadFromDiskToCache, open_rdonly.
  change (U.getDataFilePath (restarted_unopt st rep) k) with (U.getDataFilePath st k).
  rewrite (sim_path _ _ _ Hs). cbn [restarted_unopt U.os files fds]. rewrite (sim_os _ _ Hs), Hf.
  pose proof (fd_alloc_std ∅) as Hstd. rewrite (proj2 (Z.ltb_ge _ _)) by lia.
  cbn [files]. rewrite Hf. cbn [default from_option id]. rewrite (proj2 (Z.eqb_neq _ _) Hlen), Hload.
  cbn [mbind option_bind]. change (U.num_at (U.with_maps _ _) k) with (default 0 ((∅ : gmap Z Z) !! k)).
  rewrite lookup_empty. cbn [default from_option id]. rewrite Z.add_0_l, (u64_small (lenZ c)) by lia.
  destruct (_ <=? _); eexists; (split; [done|]); unfold U.size_at, U.num_at; simpl;
    rewrite !lookup_insert_eq; repeat split; try done.
  - by rewrite delete_insert_id.
  - by rewrite lookup_insert_ne by lia.
Qed.

(** C34. After a restart the server without the optimisation does not survive the end of a
    stripe unit.  The unit is loaded from its file, but no descriptor is kept for it, and
    when the batch completes the unit [writeFromCacheToDisk] dereferences the end of the
    descriptor map: the behaviour of the handler is undefined. *)
Theorem unopt_restart_undefined `{Posix} `{Erpc} u n s st so mine es req rep cap prompt :
  sim st so → shard_repr u n s so mine → batch_for u n s mine es req → (length mine mod u ≠ 0)%nat →
  (length mine + length es = (length mine / u + 1) * u)%nat → total_size (mine ++ es) < 2 ^ 37 →
  U.AppendBatchHandler cap prompt (restarted_unopt st rep) [] req = None.
Proof.
  intros Hs Hr Hb Hmod Hfull Hmax. pose proof (sr_u _ _ _ _ _ Hr) as Hu. rewrite total_size_app in Hmax.
  unfold U.AppendBatchHandler.
  assert (U.first_base (restarted_unopt st rep) req = Some (key u n (length mine / u))) as ->.
  { change (U.first_base (restarted_unopt st rep) req) with (U.first_base st req).
    rewrite (sim_first_base _ _ _ Hs). by eapply first_base_ok. }
  cbn [mbind option_bind U.send_batches]. set (b := (length mine / u)%nat). set (k := key u n b).
  pose proof (stripe_size u b mine) as Hsz. pose proof (total_size_nonneg (stripe u b mine)).
  pose proof (total_size_nonneg es). pose proof (stripe_last_length u mine Hu) as Hlast. fold b in Hlast.
  assert (stripe u b mine ≠ []) as Hne by (intros E; rewrite E in Hlast; done).
  destruct (load_restarted_unopt u n s st so mine rep b Hs Hr Hne ltac:(lia))
    as (st1 & Hload & Hm & Hsize & Hnum & Hfds & Hunit & Hfd0). fold k in Hload, Hm, Hsize, Hnum.
  unfold U.processEntriesAndBuildMap, U.stripe_fd. cbn [restarted_unopt U.gsn_to_file_offset_map_].
  rewrite lookup_empty. change (U.mk ∅ ∅ ∅ ∅ _ _ _ _ rep 0 0 _) with (restarted_unopt st rep).
  rewrite Hload. cbn [mbind option_bind Z.ltb Z.compare]. destruct (bf_holds _ _ _ _ _ _ Hb) as (Hcap & Hn & Hl).
  pose proof (bf_len _ _ _ _ _ _ Hb).
  rewrite Hsize, (ProcessAndBuildMap_ok _ _ es) by (apply Hb || lia). cbn [mbind option_bind].
  rewrite load_int_ok by lia. rewrite Hn, un_le_le by (of_nat_lit; lia). cbn [mbind option_bind].
  replace (4 + total_size es - 4) with (total_size es) by lia. rewrite (u64_small (total_size es)) by lia.
  rewrite load_ok by lia. cbn [mbind option_bind]. unfold write. cbn [U.with_sizes U.with_maps U.os].
  rewrite Hfd0. cbn [mbind option_bind]. set (st2 := U.with_os _ _).
  assert (U.num_at st2 k = Z.of_nat u) as ->.
  { unfold st2, U.num_at at 1. cbn [U.with_os U.with_sizes U.num_entries_]. rewrite lookup_insert_eq.
    change (U.num_at (U.with_maps st1 _) k) with (U.num_at st1 k). cbn [default from_option id].
    pose proof (length_total_size (stripe u b mine)). pose proof (length_total_size es).
    rewrite Hnum, u64_small by lia. pose proof (Nat.div_mod (length mine) u ltac:(lia)) as Hdm. fold b in Hdm. lia. }
  change (U.stripe_unit_size_ st2) with (U.stripe_unit_size_ st1).
  rewrite Hunit, (sim_unit _ _ Hs), (sr_unit _ _ _ _ _ Hr), Z.leb_refl. unfold U.writeFromCacheToDisk.
  change (U.entries_fd_set_ st2) with (U.entries_fd_set_ st1). by rewrite Hfds, lookup_empty.
Qed.

(** A unit of two entries, restarted after the first. *)
Lemma unopt_restart_undefined_witness :
  ∃ st sts, append_all_unopt 2048 [] (fresh_unopt 2 1 0) [] [batch_message one_entry 40] = Some (st, sts) ∧
    U.AppendBatchHandler 2048 [] (restarted_unopt st 0) [] (batch_message next_entry 40) = None.
Proof.
  destruct (append_all_sim (H := Posix_plain) (H0 := Erpc_exact) 2 1 0 (λ _, eq_refl) (λ _, eq_refl) 2048 []
    (fresh_unopt 2 1 0) [] (fresh_server 2 1 0) [] [] [(one_entry, batch_message one_entry 40)] (fresh_sim 2 1 0)
    (fresh_server_repr 2 1 0 ltac:(lia) ltac:(lia) ltac:(lia) ltac:(lia)))
    as (so & sos & st & sts & Ho & Hu & Hs & Hr & _); [constructor|constructor|done|..].
  - split; [apply one_entry_batch|done].
  - constructor; [|constructor]. by apply Z.leb_le; vm_compute.
  - by vm_compute.
  - left. simpl. lia.
  - exists st, sts. split; [exact Hu|].
    exact (unopt_restart_undefined 2 1 0 st so one_entry next_entry _ 0 2048 [] Hs Hr next_entry_batch
      ltac:(simpl; lia) ltac:(simpl; lia) ltac:(by vm_compute)).
Defined.
