(* ===== verification/ConsLog.v ===== *)
(** The consensus log: [src/cons_log/cons_log.cc].

    Its leader fetches the entries that the primary replica of the durability log has
    collected, stores them on the shards in the order of the primary, has all replicas
    collect them, and then publishes the new end of the log.  Clients append to the
    replicas meanwhile: the operations here take the messages that reach the replicas
    between their steps as an argument. *)

From stdpp Require Import strings.
From S2P Require Import Prelude Props Sequencer LogEntry DurLogFlat FlatRing FlatGC.
From S2P Require Import DlTransport FlatCli Replica Links ShardServer NaiveBackend.

Local Open Scope Z_scope.

(** ** Connections to the replicas *)

(** What is under way on a connection: an RDMA write, or an RPC with its message. *)
Inductive flight : Type := RdmaWrite | Rpc (bs : list byte).

(** A [DurabilityLogFlatCli] with its request token, the replica at the other end with
    its response buffer, and the operation under way with the number of polls that it
    still takes. *)
Record Link : Type := mkLink {
  l_cli : FlatCli;
  tkn_ : bool;
  l_svr : FlatLog;
  l_resp : buffer;
  l_flight : option (nat * flight)
}.

Definition with_cli (l : Link) (c : FlatCli) : Link :=
  mkLink c (tkn_ l) (l_svr l) (l_resp l) (l_flight l).
Definition with_svr (l : Link) (st : FlatLog) : Link :=
  mkLink (l_cli l) (tkn_ l) st (l_resp l) (l_flight l).
Definition with_flight (l : Link) (f : option (nat * flight)) : Link :=
  mkLink (l_cli l) (tkn_ l) (l_svr l) (l_resp l) f.
Definition with_rdma_tkn (l : Link) (b : bool) : Link :=
  mkLink (l_cli l) b (l_svr l) (l_resp l) (l_flight l).

Definition link_IsPrimary (l : Link) : bool := IsPrimary (erpc_cli (l_cli l)).

Abbreviation Links := (Conns Link).

#[export] Instance Link_replicated : Replicated Link :=
  {| r_svr := l_svr; r_resp := l_resp; r_set := with_svr |}.

(** ** The state of the consensus log *)

Record ConsensusLog : Type := mkCons {
  dur_cli_ : Links;
  pri_dur_uri : string;
  backend_ : NaiveBackend;
  max_ordered_idx_ : Z;
  max_fetch_size_ : Z;
  total_be_size_ : Z;
  total_be_n_ : Z
}.

Definition with_links (cl : ConsensusLog) (ls : Links) : ConsensusLog :=
  mkCons ls (pri_dur_uri cl) (backend_ cl) (max_ordered_idx_ cl) (max_fetch_size_ cl)
    (total_be_size_ cl) (total_be_n_ cl).
Definition with_backend (cl : ConsensusLog) (be : NaiveBackend) : ConsensusLog :=
  mkCons (dur_cli_ cl) (pri_dur_uri cl) be (max_ordered_idx_ cl) (max_fetch_size_ cl)
    (total_be_size_ cl) (total_be_n_ cl).
Definition with_ordered (cl : ConsensusLog) (idx : Z) : ConsensusLog :=
  mkCons (dur_cli_ cl) (pri_dur_uri cl) (backend_ cl) idx (max_fetch_size_ cl)
    (total_be_size_ cl) (total_be_n_ cl).
Definition count_batch (cl : ConsensusLog) (es : list LogEntry) : ConsensusLog :=
  mkCons (dur_cli_ cl) (pri_dur_uri cl) (backend_ cl) (max_ordered_idx_ cl) (max_fetch_size_ cl)
    (u64 (total_be_size_ cl + (lenZ es - 1))) (u64 (total_be_n_ cl + 1)).

Definition GetNumOrderedEntries (cl : ConsensusLog) : Z := u64 (max_ordered_idx_ cl - 1).

Section ConsensusLog.
Context `{Posix, Erpc, Rdma}.

(** ** Garbage collection *)

(** [DurabilityLogFlatCli::DeleteOrderedEntriesAsync]; [delay] is how long it will take. *)
Definition DeleteOrderedEntriesAsync (delay : nat) (l : Link) (seqs : list ReqID) : option Link :=
  if link_IsPrimary l then
    c ← stage_watermarks (l_cli l) seqs;
    Some (with_flight (with_rdma_tkn (with_cli l c) false) (Some (delay, RdmaWrite)))
  else
    '(e, bs) ← cli_DeleteOrderedEntriesAsync (erpc_cli (l_cli l)) seqs;
    Some (with_flight (with_cli l (with_erpc (l_cli l) e)) (Some (delay, Rpc bs))).

(** The response to a request has arrived and [rpc_cont_func_async] was called. *)
Definition rpc_done (l : Link) (st : FlatLog) (rs : list byte) : Link :=
  let e := erpc_cli (l_cli l) in
  with_flight (with_svr (with_cli l (with_erpc (l_cli l)
    (with_tkn (with_resp e rs) (RPCToken.SetComplete (rpc_tkn_ e))))) st) None.

(** The network and the replica make progress.  A request that the replica cannot
    finish yet stays under way. *)
Definition advance (l : Link) : option Link :=
  match l_flight l with
  | None => Some l
  | Some (S delay, f) => Some (with_flight l (Some (delay, f)))
  | Some (O, RdmaWrite) =>
      remote ← write_watermarks (l_cli l) (mem_rg_raw_ (l_svr l));
      Some (with_flight (with_rdma_tkn (with_svr l (with_mem (l_svr l) remote)) true) None)
  | Some (O, Rpc bs) =>
      match dl_handle (l_resp l) (l_svr l) DEL_ORDERED_ENTRIES bs with
      | Ok (st, rs) => Some (rpc_done l st rs)
      | Blocked => Some l
      | Fault => None
      end
  end.

(** [DurabilityLogFlatCli::CheckAndRunOnce]. *)
Definition link_CheckAndRunOnce (l : Link) : option (Link * bool) :=
  if link_IsPrimary l then l ← advance l; Some (l, tkn_ l)
  else if RPCToken.Complete (rpc_tkn_ (erpc_cli (l_cli l))) then Some (l, true)
  else l ← advance l; Some (l, RPCToken.Complete (rpc_tkn_ (erpc_cli (l_cli l)))).

(** All connections are polled, also after one that is not complete. *)
Fixpoint allDeletionCompleted (ls : Links) : option (Links * bool) :=
  match ls with
  | [] => Some ([], true)
  | (d, l) :: ls =>
      '(l, done) ← link_CheckAndRunOnce l;
      '(ls, ret) ← allDeletionCompleted ls;
      Some ((d, l) :: ls, if negb done then false else ret)
  end.

(** [while (!allDeletionCompleted());], with appends before each turn. *)
Fixpoint wait_deleted (fuel i : nat) (sched : nat → list (string * list byte)) (ls : Links) : outcome Links :=
  ls ← serve (sched i) ls;
  '(ls, ret) ← lift (allDeletionCompleted ls);
  if ret : bool then Ok ls
  else match fuel with O => Blocked | S fuel => wait_deleted fuel (S i) sched ls end.

(** The loop over [dur_cli_]; the result is the last [last_log_idx]. *)
Fixpoint delete_all (delay : string → nat) (entries : list LogEntry) (ls : Links) (last_log_idx : Z)
    : option (Links * Z) :=
  match ls with
  | [] => Some ([], last_log_idx)
  | (d, l) :: ls =>
      '(req_ids, last_log_idx) ← ProcessFetchedEntries (link_IsPrimary l) entries [];
      l ← DeleteOrderedEntriesAsync (delay d) l req_ids;
      '(ls, last_log_idx) ← delete_all delay entries ls last_log_idx;
      Some ((d, l) :: ls, last_log_idx)
  end.

(** ** fetchAndStore *)

(** [pri_dur_cli_->FetchUnorderedEntries]; the appends are handled between its two RDMA
    reads. *)
Definition fetch_primary (reqs : list (string * list byte)) (cl : ConsensusLog) (es : list LogEntry)
    (from : Z) : outcome (ConsensusLog * list LogEntry * Z) :=
  l ← lift (link_at (pri_dur_uri cl) (dur_cli_ cl));
  ls ← serve reqs (dur_cli_ cl);
  l' ← lift (link_at (pri_dur_uri cl) ls);
  '(c, es, fetch_size) ← lift (FetchUnorderedEntries_from (l_cli l') (mem_rg_raw_ (l_svr l))
                                 (mem_rg_raw_ (l_svr l')) es from (max_fetch_size_ cl));
  Ok (with_links cl (link_set (pri_dur_uri cl) (with_cli l' c) ls), es, fetch_size).

(** Appends are handled during the fetch ([sched 0]), while the entries are stored
    ([sched 1]) and while the loop waits ([sched 2], ...).  [Blocked] means that the
    loop has not ended within [fuel] more turns. *)
Definition collect_all (fuel : nat) (delay : string → nat) (sched : nat → list (string * list byte))
    (entries : list LogEntry) (cl : ConsensusLog) : outcome (ConsensusLog * Z) :=
  ls ← serve (sched 1%nat) (dur_cli_ cl);
  '(ls, last_log_idx) ← lift (delete_all delay entries ls 0);
  ls ← wait_deleted fuel 2 sched ls;
  Ok (with_links cl ls, last_log_idx).

(** The entries are stored, collected on the replicas, and published. *)
Definition store_batch (fuel : nat) (delay : string → nat) (sched : nat → list (string * list byte))
    (entries : list LogEntry) (cl : ConsensusLog) : outcome ConsensusLog :=
  '(be, idx) ← AppendBatch (backend_ cl) entries;
  '(cl, last_log_idx) ← collect_all fuel delay sched entries (with_ordered (with_backend cl be) idx);
  be ← lift (UpdateGlobalIdx (backend_ cl) last_log_idx);
  Ok (with_backend cl be).

Definition fetchAndStore (fuel : nat) (delay : string → nat) (sched : nat → list (string * list byte))
    (cl : ConsensusLog) : outcome (ConsensusLog * bool) :=
  '(cl, entries, fetch_size) ← fetch_primary (sched 0%nat) cl [] 0;
  if fetch_size =? 0 then Ok (cl, false) else
  cl ← store_batch fuel delay sched entries (count_batch cl entries);
  Ok (cl, true).
End ConsensusLog.
