(* ===== verification/ConsOrder.v ===== *)
(** What a round of the consensus log achieves: the entries that the primary replica
    has collected become the next part of the stored log, in the order of the primary.

    [link_inv] relates each connection to the abstract state of its replica, a log and
    the number of its collected entries; a round is followed through its phases. *)

From stdpp Require Import strings.
From S2P Require Import Prelude Props Sequencer LogEntry DurLogFlat FlatRing FlatGC DlTransport.
From S2P Require Import FlatCli Replica Links ShardServer ShardRepr NaiveBackend StorageLog ConsLog.

Local Open Scope Z_scope.

(** ** Invariants of a connection *)

Section Order.
Context `{Posix, Erpc, Rdma} (M : Z) (clients : list Z) (pri : string).
Context (HM : M ≤ SAFE_RG_SIZE + 4) (Hclients : lenZ clients < 2 ^ 32).

Record link_inv (d : string) (l : Link) (g : Ghost) : Prop := {
  li_replica : replica M (l_svr l) g.1 g.2;
  li_clients : from_clients clients g.1;
  li_resp : 18 ≤ bcap (l_resp l);
  li_role : link_IsPrimary l = streq d pri;
  li_server : is_primary_ (l_svr l) = streq d pri;
  li_primary : d = pri → rg_size_ (l_svr l) ≤ bcap (mr_ (l_cli l)) ∧ 0 ≤ mr_offset_for_gc_ (l_cli l) ∧
    mr_offset_for_gc_ (l_cli l) + 16 ≤ bcap (mr_ (l_cli l));
  li_backup : d ≠ pri → 4 + 16 * lenZ clients ≤ bcap (req_ (erpc_cli (l_cli l)));
  li_fresh : d ≠ pri → g.1 = [] → GetFlagFromBuf (mem_rg_raw_ (l_svr l)) 0 ≠ Some 1
}.

(** The invariant of all connections, with what holds in a phase of the round. *)
Definition links_inv (P : string → Link → Ghost → Prop) (ls : Links) (gs : list Ghost) : Prop :=
  Forall2 (λ dl g, link_inv dl.1 dl.2 g ∧ P dl.1 dl.2 g) ls gs.

(** Appends do not disturb a phase. *)
Definition stable (P : string → Link → Ghost → Prop) : Prop :=
  ∀ d l st hist k e, same_config (l_svr l) st → P d l (hist, k) → P d (with_svr l st) (hist ++ [e], k).

Lemma links_append_inv P :
  stable P →
  append_inv M clients (λ n d l g, (link_inv d l g ∧ P d l g) ∧ lenZ g.1 + Z.of_nat n < 2 ^ 32).
Proof.
  intros HP. split; simpl.
  - intros n d l g [[Hl _] _]. apply Hl.
  - intros n d l g [[Hl _] _]. pose proof (li_resp _ _ _ Hl). lia.
  - intros n d l g [_ Hb]. lia.
  - intros n d l g [Hl Hb]. split; [done|lia].
  - intros n d l st hist k e [[Hl HPl] Hb] Hcfg Hr He. simpl in Hb.
    split; [split; [|by apply HP]|rewrite length_app; simpl; lia].
    destruct Hl, Hcfg as (Hc1 & _ & _ & Hc4 & _). split; try done; simpl in *.
    + apply Forall_app_2; [done|by apply Forall_singleton].
    + congruence.
    + by rewrite Hc4.
    + intros _ Hnil. by destruct hist.
Qed.

Lemma links_serve_ok P reqs ls gs :
  stable P → links_inv P ls gs → Forall (λ r, message_ok M clients r.2) reqs → budget (length reqs) gs →
  ∃ ls' gs', serve reqs ls = Ok ls' ∧ links_inv P ls' gs' ∧ ls'.*1 = ls.*1 ∧ Forall2 grown gs gs' ∧
    ∀ n, budget (length reqs + n) gs → budget n gs'.
Proof.
  intros HP Hls Hmsg Hb.
  destruct (serve_ok M clients HM _ (links_append_inv P HP) 0 reqs ls gs) as (ls' & gs' & Hs & Hls' & Hk & Hgr).
  - apply Forall2_same_length_lookup. split; [by eapply Forall2_length|]. intros i dl g Hi Hg.
    split; [by apply (Forall2_lookup_lr _ _ _ _ _ _ Hls Hi Hg)|].
    pose proof (Forall_lookup_1 _ _ _ _ Hb Hg) as Hbg. simpl in Hbg. lia.
  - done.
  - exists ls', gs'. split; [done|]. split; [|split; [done|split]].
    + eapply Forall2_impl; [exact Hls'|]. by intros dl g [? _].
    + eapply Forall2_impl; [exact Hgr|]. by intros g g' [? _].
    + intros n. by apply budget_grown.
Qed.

(** ** Phases of the garbage collection *)

Definition idle (d : string) (l : Link) (g : Ghost) : Prop := l_flight l = None.

(** Before the requests are sent: the primary still has what was fetched. *)
Definition ready (hist : list LogEntry) (k : nat) (d : string) (l : Link) (g : Ghost) : Prop :=
  l_flight l = None ∧ (d = pri → g.2 = k ∧ hist `prefix_of` g.1).

Definition completed (l : Link) : bool :=
  if link_IsPrimary l then tkn_ l else RPCToken.Complete (rpc_tkn_ (erpc_cli (l_cli l))).

(** Until the requests are done; [kt] is how much the primary will have collected. *)
Definition waiting (kt : nat) (d : string) (l : Link) (g : Ghost) : Prop :=
  match l_flight l with
  | None => completed l = true ∧ (d = pri → g.2 = kt)
  | Some (_, RdmaWrite) =>
      d = pri ∧ tkn_ l = false ∧ (g.2 ≤ kt ≤ length g.1)%nat ∧
      staged (l_cli l) (total_size (take kt g.1)) (Z.of_nat kt)
  | Some (_, Rpc bs) =>
      d ≠ pri ∧ RPCToken.Complete (rpc_tkn_ (erpc_cli (l_cli l))) = false ∧ ∃ ids, carries_ids ids bs
  end.

(** After [m] polls the replica has the request under way. *)
Definition soon (m : nat) (l : Link) : Prop :=
  match l_flight l with Some (delay, _) => (delay ≤ m)%nat | None => True end.

Lemma soon_weaken m m' l : (m ≤ m')%nat → soon m l → soon m' l.
Proof. unfold soon. destruct (l_flight l) as [[]|]; lia. Qed.

Definition waiting_soon (kt m : nat) (d : string) (l : Link) (g : Ghost) : Prop :=
  waiting kt d l g ∧ soon m l.

Lemma idle_stable : stable idle.
Proof. by intros d l st hist k e _. Qed.

Lemma ready_stable hist k : stable (ready hist k).
Proof.
  intros d l st h k' e _ (Hf & Hp). split; [done|].
  intros Hd. destruct (Hp Hd) as [? ?]. split; [done|]. by apply prefix_app_r.
Qed.

Lemma waiting_stable kt : stable (waiting kt).
Proof.
  intros d l st h k' e _. unfold waiting. cbn [with_svr l_flight].
  destruct (l_flight l) as [[delay [|bs]]|]; [|done..].
  intros (Hd & Ht & Hk & Hs). simpl in *. rewrite length_app, take_app_le by lia.
  split; [done|]. split; [done|]. split; [lia|done].
Qed.

Lemma waiting_soon_stable kt m : stable (waiting_soon kt m).
Proof. intros d l st h k e Hc [Hw Hs]. split; [by apply waiting_stable|done]. Qed.

Lemma primary_link (ls : Links) ip : ls.*1 !! ip = Some pri → ∃ l, ls !! ip = Some (pri, l).
Proof. rewrite list_lookup_fmap. destruct (ls !! ip) as [[d l]|]; [|done]. intros [= ->]. by eexists. Qed.

(** Every backup has received an entry. *)
Definition backups_started (ls : Links) (gs : list Ghost) : Prop :=
  Forall2 (λ dl g, dl.1 ≠ pri → g.1 ≠ []) ls gs.

Lemma backups_grown (ls ls' : Links) gs gs' :
  backups_started ls gs → Forall2 evolved gs gs' → ls'.*1 = ls.*1 → backups_started ls' gs'.
Proof.
  intros Hst Hev Hk. apply Forall2_same_length_lookup. split.
  - apply (f_equal length) in Hk. rewrite !length_fmap in Hk. rewrite Hk, (Forall2_length _ _ _ Hst).
    by apply (Forall2_length _ _ _ Hev).
  - intros i [d l'] g' Hi Hg' Hd Hnil. destruct (Forall2_lookup_r _ _ _ _ _ Hev Hg') as (g & Hg & Hpre & _).
    assert (∃ l, ls !! i = Some (d, l)) as [l Hl].
    { assert (ls.*1 !! i = Some d) as Hd' by (rewrite <- Hk, list_lookup_fmap, Hi; done).
      rewrite list_lookup_fmap in Hd'. destruct (ls !! i) as [[d0 l0]|]; [|done]. injection Hd' as ->. by eexists. }
    apply (Forall2_lookup_lr _ _ _ _ _ _ Hst Hl Hg Hd). simpl in *. rewrite Hnil in Hpre.
    by apply prefix_nil_inv in Hpre.
Qed.

(** What neither the garbage collection nor appends change on a connection. *)
Definition kept (l l' : Link) : Prop :=
  rg_size_ (l_svr l') = rg_size_ (l_svr l) ∧ mr_offset_for_gc_ (l_cli l') = mr_offset_for_gc_ (l_cli l).

(** *** Sending the requests *)

Lemma DeleteOrderedEntriesAsync_ok delay d l g st hist k got :
  flat_repr st hist k → got `prefix_of` drop k hist → got ≠ [] →
  link_inv d l g → ready hist k d l g → from_clients clients hist →
  let kt := (k + length got)%nat in
  ∃ ids l', ProcessFetchedEntries (link_IsPrimary l) (with_marker hist k got) [] =
      Some (ids, Z.of_nat kt - 1) ∧
    DeleteOrderedEntriesAsync delay l ids = Some l' ∧ link_inv d l' g ∧ waiting kt d l' g ∧
    soon delay l' ∧ kept l l'.
Proof.
  intros Hr Hpre Hne Hl (Hf & Hp) Hcl kt.
  pose proof (Process_primary st hist k k got Hr Hpre Hne) as Hproc. fold kt in Hproc.
  assert (Forall wf_entry got ∧ from_clients clients got) as [Hwf Hcg].
  { destruct Hpre as [rest Hd]. pose proof (fr_valid _ _ _ Hr) as Hv.
    apply valid_wf in Hv. rewrite <- (take_drop k hist), Hd in Hv, Hcl.
    apply Forall_app in Hv as [_ Hv]. apply Forall_app in Hcl as [_ Hcl].
    apply Forall_app in Hv as [Hv _]. by apply Forall_app in Hcl as [Hcl _]. }
  assert ((k ≤ kt ≤ length hist)%nat) as Hkt.
  { destruct Hpre as [rest Hd]. apply (f_equal length) in Hd. rewrite length_drop, length_app in Hd.
    pose proof (fr_k _ _ _ Hr). unfold kt. lia. }
  unfold DeleteOrderedEntriesAsync. rewrite (li_role _ _ _ Hl). destruct (streq_spec d pri) as [->|Hd].
  - destruct (Hp eq_refl) as [Hk Hh]. destruct (li_primary _ _ _ Hl eq_refl) as (Hmr & Ho & Hoc).
    assert (total_size (take k hist) + total_size got = total_size (take kt hist)) as Htot.
    { rewrite (total_size_take_drop k kt) by lia. f_equal. destruct Hpre as [rest ->].
      by rewrite take_app_length' by lia. }
    rewrite Htot in Hproc. pose proof (repr_seq_range _ _ _ Hr) as [Hs64 Hl64].
    pose proof (total_size_split kt hist). pose proof (total_size_nonneg (drop kt hist)).
    pose proof (total_size_nonneg (take kt hist)).
    destruct (stage_watermarks_ok (l_cli l) (total_size (take kt hist)) (Z.of_nat kt))
      as (c & Hst & (Hc1 & Hc2 & Hc3) & Hsg); [lia..|].
    eexists _, _. split; [exact Hproc|]. rewrite Hst. split; [done|]. split; [|split].
    + destruct Hl. split; try done; unfold link_IsPrimary in *; simpl; rewrite ?Hc1, ?Hc2, ?Hc3; done.
    + unfold waiting. simpl. destruct Hh as [more Hh]. rewrite Hh, length_app, take_app_le by lia.
      split; [done|]. split; [done|]. split; [lia|done].
    + simpl. unfold soon. simpl. split; [lia|done].
  - destruct (last got) as [e|] eqn:El; [|by apply last_None in El].
    pose proof (last_fetched_idx _ _ _ _ _ _ Hr Hpre El) as Hi. fold kt in Hi.
    assert (with_marker hist k got = got ++ [end_marker (total_size (take k hist) + total_size got)])
      as -> by (by destruct got).
    set (s := total_size _ + _). set (ids := backup_ids got s).
    pose proof (backup_ids_length got s clients Hcg) as Hlen. fold ids in Hlen.
    pose proof (li_backup _ _ _ Hl Hd) as Hcap.
    destruct (ReqIdSerializer_ok ids (req_ (erpc_cli (l_cli l)))) as (b & Hser & Hb' & Hbc); [lia..|].
    eexists _, _. split; [apply Process_backup; rewrite El; simpl; f_equal; lia|].
    unfold cli_DeleteOrderedEntriesAsync. fold ids. simpl. rewrite Hser. simpl. rewrite send_ok by lia.
    simpl. split; [done|]. split; [|split].
    + destruct Hl. split; try done. intros _. simpl. lia.
    + unfold waiting. simpl. split; [done|]. split; [done|].
      exists ids. intros acc. apply ReqIdDeserializer_ok; [|by apply backup_ids_wf|fold ids; lia].
      apply holds_ids_msg; [done|lia].
    + unfold soon. simpl. split; [lia|done].
Qed.

Lemma delete_all_ok delay m entries st hist k got ls gs z :
  flat_repr st hist k → got `prefix_of` drop k hist → got ≠ [] → from_clients clients hist →
  links_inv (ready hist k) ls gs → entries = with_marker hist k got →
  Forall (λ d, delay d ≤ m)%nat ls.*1 →
  let kt := (k + length got)%nat in
  ∃ ls', delete_all delay entries ls z =
      Some (ls', match ls with [] => z | _ => Z.of_nat kt - 1 end) ∧
    ls'.*1 = ls.*1 ∧ links_inv (waiting_soon kt m) ls' gs ∧ Forall2 kept ls.*2 ls'.*2.
Proof.
  intros Hr Hpre Hne Hcl Hinv -> Hdelay kt. revert z Hdelay.
  induction Hinv as [|[d l] g ls gs [Hl Hrd] _ IH]; intros z Hdelay; cbn [delete_all].
  { exists []. repeat split; constructor. }
  apply Forall_cons in Hdelay as [Hd Hdelay]. simpl in Hl, Hrd, Hd.
  destruct (DeleteOrderedEntriesAsync_ok (delay d) d l g st hist k got) as (ids & l' & -> & Hdel & Hl' & Hw & Hs & Hkp);
    try done. simpl. rewrite Hdel. simpl. fold kt in Hw.
  destruct (IH (Z.of_nat kt - 1) Hdelay) as (ls' & Hall & Hk & Hinv' & Hkps). fold kt. rewrite Hall. simpl.
  exists ((d, l') :: ls'). split; [|split; [|split; [|by constructor]]].
  - by destruct ls.
  - by rewrite !fmap_cons, Hk.
  - constructor; [|done]. split; [done|]. split; [done|]. by apply (soon_weaken (delay d)).
Qed.

(** *** Waiting for them *)

(** One poll. *)
Lemma CheckAndRunOnce_ok kt d l g m :
  link_inv d l g → waiting_soon kt m d l g →
  ∃ l' g' r, link_CheckAndRunOnce l = Some (l', r) ∧ link_inv d l' g' ∧ waiting_soon kt (pred m) d l' g' ∧
    evolved g g' ∧ g'.1 = g.1 ∧ (r = true ↔ l_flight l' = None) ∧ kept l l' ∧
    (m = 0%nat → (d ≠ pri → g.1 ≠ []) → r = true).
Proof.
  intros Hl [Hw Hs]. unfold link_CheckAndRunOnce, advance. pose proof Hw as Hw0. unfold waiting in Hw.
  pose proof (li_role _ _ _ Hl) as Hrole.
  destruct (l_flight l) as [[[|delay] f]|] eqn:Hf; cycle 2.
  { destruct Hw as [Hc Hk]. exists l, g, true. unfold completed in Hc.
    assert (∀ b : bool, b = true → Some (l, b) = Some (l, true)) as Hb by (by intros ? ->).
    split; [destruct (link_IsPrimary l); [by apply Hb|by rewrite Hc]|].
    split; [done|]. split; [split; [done|by unfold soon; rewrite Hf]|]. split; [done|]. by rewrite Hf. }
  - destruct f as [|bs].
    + destruct Hw as (-> & Ht & Hk & Hst). rewrite Hrole, streq_refl.
      destruct (li_primary _ _ _ Hl eq_refl) as (Hmr & Ho & Hoc).
      destruct (replica_collect M (l_cli l) (l_svr l) g.1 g.2 kt (li_replica _ _ _ Hl))
        as (remote & -> & Hr' & Hcfg); [done..|]. simpl.
      exists (with_flight (with_rdma_tkn (with_svr l (with_mem (l_svr l) remote)) true) None), (g.1, kt), true.
      split; [done|]. split; [|split; [split; [|done]|split; [by split; [|simpl; lia]|done]]].
      * destruct Hl. by split.
      * unfold waiting, completed, link_IsPrimary in *. simpl. by rewrite Hrole, streq_refl.
    + destruct Hw as (Hd & Ht & ids & Hids). rewrite Hrole. destruct (streq_spec d pri) as [|_]; [done|].
      rewrite Ht. change (dl_handle (l_resp l) (l_svr l) DEL_ORDERED_ENTRIES bs)
        with (DeleteOrderedEntriesHandler (l_resp l) (l_svr l) bs).
      assert (is_primary_ (l_svr l) = false) as Hsv.
      { rewrite (li_server _ _ _ Hl). by destruct (streq_spec d pri). }
      destruct (decide (g.1 = [])) as [Hnil|Hne].
      { pose proof (li_replica _ _ _ Hl) as Hr. rewrite Hnil in Hr.
        rewrite (replica_delete_empty M _ _ _ _ _ Hr Hsv Hids (li_fresh _ _ _ Hl Hd Hnil)). simpl. rewrite Ht.
        exists l, g, false. split_and!; try done; [by unfold waiting_soon, soon; rewrite Hf; split; [|lia]|by rewrite Hf|].
        intros _ Hne. by destruct (Hne Hd). }
      destruct (replica_delete M (l_resp l) (l_svr l) g.1 g.2 ids bs (li_replica _ _ _ Hl))
        as (st' & n & j & Hdel & Hr' & Hcfg & _); try done; [pose proof (li_resp _ _ _ Hl); lia|]. rewrite Hdel. simpl.
      exists (rpc_done l st' (le_bytes 8 n)), (g.1, (g.2 + j)%nat), true. split; [done|].
      assert (kept l (rpc_done l st' (le_bytes 8 n))) as Hkp by (split; [apply Hcfg|done]).
      split; [|split; [split; [|done]|split; [by split; [|simpl; lia]|done]]].
      * destruct Hl, Hcfg as (Hc1 & _). split; try done. simpl. by rewrite Hc1.
      * unfold waiting, completed, link_IsPrimary, IsPrimary in *. simpl. rewrite Hrole.
        by destruct (streq_spec d pri).
  - exists (with_flight l (Some (delay, f))), g, false.
    assert (waiting kt d (with_flight l (Some (delay, f))) g) as Hw'.
    { unfold waiting in *. by rewrite Hf in Hw0. }
    assert (m ≠ 0%nat ∧ soon (pred m) (with_flight l (Some (delay, f)))) as [Hm Hs'].
    { unfold soon in *. rewrite Hf in Hs. simpl. lia. }
    split; [|split; [by destruct Hl; split|split; [by split|]]]; [|by split_and!; try done; intros].
    + destruct f as [|bs]; destruct Hw as (Hd & Ht & _).
      * subst d. rewrite Hrole, streq_refl. simpl. by rewrite Ht.
      * rewrite Hrole. destruct (streq_spec d pri) as [|_]; [done|]. rewrite Ht. simpl. by rewrite Ht.
Qed.

(** All connections are polled. *)
Lemma allDeletionCompleted_ok kt m ls gs :
  links_inv (waiting_soon kt m) ls gs →
  ∃ ls' gs' r, allDeletionCompleted ls = Some (ls', r) ∧ ls'.*1 = ls.*1 ∧
    links_inv (waiting_soon kt (pred m)) ls' gs' ∧ Forall2 evolved gs gs' ∧ gs'.*1 = gs.*1 ∧
    (r = true ↔ Forall (λ dl, l_flight dl.2 = None) ls') ∧ Forall2 kept ls.*2 ls'.*2 ∧
    (m = 0%nat → backups_started ls gs → r = true).
Proof.
  induction 1 as [|[d l] g ls gs [Hl Hw] _ IH]; cbn [allDeletionCompleted].
  { exists [], [], true. repeat split; try constructor. }
  simpl in Hl, Hw.
  destruct (CheckAndRunOnce_ok kt d l g m Hl Hw) as (l' & g' & r & -> & Hl' & Hw' & Hev & Hg1 & Hr & Hkp & Hz0).
  destruct IH as (ls' & gs' & r' & -> & Hk & Hinv' & Hevs & Hgs1 & Hr' & Hkps & Hz0'). simpl.
  exists ((d, l') :: ls'), (g' :: gs'), (if negb r then false else r').
  split; [done|]. split; [by rewrite !fmap_cons, Hk|]. split; [by constructor|]. split; [by constructor|].
  split; [by rewrite !fmap_cons, Hgs1, Hg1|]. split; [|split; [by constructor|]].
  - rewrite Forall_cons, <- Hr, <- Hr'. destruct r; simpl; naive_solver.
  - intros Hm Hst. apply Forall2_cons in Hst as [Hb Hst]. rewrite (Hz0 Hm Hb). by apply Hz0'.
Qed.

(** After the requests: nothing is under way and the primary has collected [kt]. *)
Definition collected (kt : nat) (d : string) (l : Link) (g : Ghost) : Prop :=
  l_flight l = None ∧ (d = pri → g.2 = kt).

Lemma links_inv_impl (P Q : string → Link → Ghost → Prop) ls gs :
  (∀ d l g, (d, l) ∈ ls → P d l g → Q d l g) → links_inv P ls gs → links_inv Q ls gs.
Proof.
  intros HPQ Hinv. apply Forall2_same_length_lookup. split; [by eapply Forall2_length|].
  intros i [d l] g Hi Hg. destruct (Forall2_lookup_lr _ _ _ _ _ _ Hinv Hi Hg) as [Hl HP].
  split; [done|]. apply HPQ; [|done]. by eapply list_elem_of_lookup_2.
Qed.

Lemma waiting_done kt m ls gs :
  links_inv (waiting_soon kt m) ls gs → Forall (λ dl, l_flight dl.2 = None) ls →
  links_inv (collected kt) ls gs.
Proof.
  intros Hinv Hnone. eapply links_inv_impl; [|exact Hinv]. intros d l g Hin [Hw _].
  eapply Forall_forall in Hnone; [|exact Hin]. simpl in Hnone. unfold waiting in Hw. rewrite Hnone in Hw.
  split; [done|]. apply Hw.
Qed.

Lemma wait_deleted_ok kt sched fuel i ls gs :
  links_inv (waiting_soon kt fuel) ls gs → backups_started ls gs →
  (∀ j, Forall (λ r, message_ok M clients r.2) (sched j)) →
  budget (arrivals sched i (S fuel)) gs →
  ∃ ls' gs', wait_deleted fuel i sched ls = Ok ls' ∧ ls'.*1 = ls.*1 ∧ links_inv (collected kt) ls' gs' ∧
    Forall2 evolved gs gs' ∧ ∀ m, budget (arrivals sched i (S fuel) + m) gs → budget m gs'.
Proof.
  intros Hinv Hst Hmsg. revert i ls gs Hinv Hst. induction fuel as [|fuel IH]; intros i ls gs Hinv Hst Hb.
  all: destruct (links_serve_ok _ (sched i) ls gs (waiting_soon_stable kt _) Hinv (Hmsg i))
    as (ls1 & gs1 & Hserve & Hinv1 & Hk1 & Hg1 & Hb1);
    [eapply budget_weaken; [|exact Hb]; unfold arrivals; simpl; lia|].
  all: assert (∀ n m, budget (arrivals sched i (S n) + m) gs → budget (arrivals sched (S i) n + m) gs1) as Hb1'
    by (intros n m Hm; apply Hb1; eapply budget_weaken; [|exact Hm]; unfold arrivals; simpl; lia).
  all: assert (Forall2 evolved gs gs1) as Hev1 by (eapply Forall2_impl; [exact Hg1|apply grown_evolved]).
  all: pose proof (backups_grown _ _ _ _ Hst Hev1 Hk1) as Hst1.
  all: destruct (allDeletionCompleted_ok kt _ ls1 gs1 Hinv1)
    as (ls2 & gs2 & r & Hall & Hk2 & Hinv2 & Hev & Hgs & Hr & _ & Hz0).
  all: assert (Forall2 evolved gs gs2) as Hev2 by (by transitivity gs1).
  all: cbn [wait_deleted]; rewrite Hserve; cbn [mbind outcome_bind]; rewrite Hall; cbn [lift mbind outcome_bind].
  all: destruct r; [exists ls2, gs2; split; [done|]; split; [congruence|]; split;
    [eapply waiting_done; [done|by apply Hr]|split; [done|]; intros m Hm; eapply budget_same; [exact Hgs|];
     apply Hb1' in Hm; eapply budget_weaken; [|exact Hm]; lia]|].
  - specialize (Hz0 eq_refl Hst1). done.
  - destruct (IH (S i) ls2 gs2 Hinv2) as (ls3 & gs3 & Hw & Hk3 & Hinv3 & Hev3 & Hb3).
    { by eapply backups_grown. }
    { eapply budget_same; [exact Hgs|]. by apply Hb1. }
    exists ls3, gs3. split; [done|]. split; [congruence|]. split; [done|]. split; [by transitivity gs2|].
    intros m Hm. apply Hb3. eapply budget_same; [exact Hgs|]. by apply Hb1'.
Qed.

(** ** A round *)

(** Reads are served up to the last entry of the first [k]. *)
Definition published (k : nat) : Z := Z.max 0 (Z.of_nat k - 1).

(** Dimensions of the storage: stripe units of [u] entries on [n] shards. *)
Record dims (u n : nat) (cap : Z) : Prop := {
  dm_M : 0 ≤ M;
  dm_cap : 4 + M * Z.of_nat u ≤ cap < 2 ^ 64;
  dm_cap8 : 8 ≤ cap;
  dm_u : Z.of_nat u < 2 ^ 32;
  dm_max : 2 ^ 32 + Z.of_nat (2 * (u * n) + n) < 2 ^ 64
}.

(** The stored log is the first [k] entries of the primary's log [hist]. *)
Record cons_repr (u n : nat) (cap : Z) (cl : ConsensusLog) (gs : list Ghost) (ip : nat)
    (hist : list LogEntry) (k : nat) : Prop := {
  cr_pri : pri_dur_uri cl = pri;
  cr_keys : NoDup (dur_cli_ cl).*1;
  cr_at : (dur_cli_ cl).*1 !! ip = Some pri;
  cr_links : links_inv idle (dur_cli_ cl) gs;
  cr_ghost : gs !! ip = Some (hist, k);
  cr_store : store_repr u n M cap (published k) (backend_ cl) (take k hist);
  cr_max : 0 ≤ max_fetch_size_ cl < 2 ^ 32
}.

(** [ready], with the size of the primary's region. *)
Definition ready_sized (hist : list LogEntry) (k : nat) (R : Z) (d : string) (l : Link) (g : Ghost) : Prop :=
  ready hist k d l g ∧ (d = pri → rg_size_ (l_svr l) = R).

Lemma ready_sized_stable hist k R : stable (ready_sized hist k R).
Proof.
  intros d l st h k' e Hcfg [Hrd HR]. split; [by apply ready_stable|].
  intros Hd. destruct Hcfg as (_ & _ & _ & Hrg & _). simpl. rewrite Hrg. by apply HR.
Qed.

Lemma start_ready ls gs ip hist k l :
  NoDup ls.*1 → links_inv idle ls gs → ls !! ip = Some (pri, l) →
  gs !! ip = Some (hist, k) → links_inv (ready_sized hist k (rg_size_ (l_svr l))) ls gs.
Proof.
  intros Hnd Hinv Hip Hg. apply Forall2_same_length_lookup. split; [by eapply Forall2_length|].
  intros i [d l'] g Hi Hgi. destruct (Forall2_lookup_lr _ _ _ _ _ _ Hinv Hi Hgi) as [Hl Hf].
  simpl in *. assert (d = pri → i = ip) as Heq.
  { intros ->. eapply (NoDup_lookup ls.*1 i ip pri); [done|..]; rewrite list_lookup_fmap.
    - by rewrite Hi.
    - by rewrite Hip. }
  split; [done|]. split; [split; [done|]|].
  - intros Hd. specialize (Heq Hd). simplify_eq. by split.
  - intros Hd. specialize (Heq Hd). by simplify_eq.
Qed.

(** The fetch, while appends arrive. *)
Lemma fetch_primary_ok u n cap cl gs ip hist k reqs :
  cons_repr u n cap cl gs ip hist k →
  Forall (λ r, message_ok M clients r.2) reqs → budget (length reqs) gs →
  let got := fetched hist k (max_fetch_size_ cl) in
  ∃ ls' gs', fetch_primary reqs cl [] 0 =
      Ok (with_links cl ls', with_marker hist k got, total_size got) ∧
    ls'.*1 = (dur_cli_ cl).*1 ∧ links_inv (ready hist k) ls' gs' ∧ Forall2 grown gs gs' ∧
    ∀ m, budget (length reqs + m) gs → budget m gs'.
Proof.
  intros Hcr Hmsg Hb got. destruct (primary_link _ _ (cr_at _ _ _ _ _ _ _ _ Hcr)) as [l Hip].
  pose proof (cr_keys _ _ _ _ _ _ _ _ Hcr) as Hnd. pose proof (cr_ghost _ _ _ _ _ _ _ _ Hcr) as Hg.
  pose proof (start_ready _ _ _ _ _ _ Hnd (cr_links _ _ _ _ _ _ _ _ Hcr) Hip Hg) as Hinv.
  destruct (Forall2_lookup_lr _ _ _ _ _ _ Hinv Hip Hg) as [Hl _]. simpl in Hl.
  destruct (links_serve_ok _ reqs _ _ (ready_sized_stable hist k (rg_size_ (l_svr l))) Hinv Hmsg Hb)
    as (ls1 & gs1 & Hserve & Hinv1 & Hk1 & Hgr & Hb1).
  pose proof (cr_at _ _ _ _ _ _ _ _ Hcr) as Hat. rewrite <- Hk1 in Hat, Hnd.
  destruct (primary_link _ _ Hat) as [l1 Hip1].
  destruct (Forall2_lookup_l _ _ _ _ _ Hinv1 Hip1) as ([h1 k1] & Hg1 & Hl1 & (Hf1 & Hp1) & HR1).
  destruct (Hp1 eq_refl) as [Hk1' [more Hh1]]. specialize (HR1 eq_refl). simpl in *. subst k1 h1.
  destruct (li_primary _ _ _ Hl1 eq_refl) as (Hmr & Ho & Hoc).
  pose proof (replica_total M HM _ _ _ (li_replica _ _ _ Hl)) as Htot. simpl in Htot.
  pose proof (rp_rg _ _ _ _ (li_replica _ _ _ Hl)) as Hrg.
  destruct (Fetch_ok (l_cli l1) (l_svr l) (l_svr l1) hist more k 0 [] (max_fetch_size_ cl))
    as (c & Hfetch & (Hc1 & Hc2 & Hc3)); try done; try lia;
    [apply (li_replica _ _ _ Hl)|apply (li_replica _ _ _ Hl1)|apply Hcr|].
  rewrite Nat.max_0_r in Hfetch. fold got in Hfetch. simpl in Hfetch.
  destruct (link_at_idx _ _ _ _ Hnd Hip1) as [Hat1 Hset].
  exists (<[ip := (pri, with_cli l1 c)]> ls1), gs1. split.
  - unfold fetch_primary. rewrite (cr_pri _ _ _ _ _ _ _ _ Hcr).
    destruct (link_at_idx _ _ _ _ (cr_keys _ _ _ _ _ _ _ _ Hcr) Hip) as [-> _]. cbn [lift mbind outcome_bind].
    rewrite Hserve. cbn [mbind outcome_bind]. rewrite Hat1. cbn [lift mbind outcome_bind].
    rewrite Hfetch. cbn [lift mbind outcome_bind]. by rewrite Hset.
  - rewrite (insert_keys _ _ _ _ _ Hip1). split; [done|]. split; [|split; [done|done]].
    rewrite <- (list_insert_id gs1 ip (hist ++ more, k)) by done. apply Forall2_insert.
    + eapply links_inv_impl; [|exact Hinv1]. by intros d l' g _ [? _].
    + split.
      * destruct Hl1. split; try done; unfold link_IsPrimary in *; simpl; rewrite ?Hc1, ?Hc2, ?Hc3; done.
      * split; [done|]. intros _. split; [done|by eexists].
Qed.

(** Collecting what was fetched, on all replicas. *)
Lemma collect_all_ok fuel delay sched cl gs st hist k got :
  flat_repr st hist k → got `prefix_of` drop k hist → got ≠ [] → from_clients clients hist →
  links_inv (ready hist k) (dur_cli_ cl) gs → backups_started (dur_cli_ cl) gs → dur_cli_ cl ≠ [] →
  (∀ j, Forall (λ r, message_ok M clients r.2) (sched j)) → Forall (λ d, delay d ≤ fuel)%nat (dur_cli_ cl).*1 →
  budget (arrivals sched 1 (S (S fuel))) gs →
  let kt := (k + length got)%nat in
  ∃ ls' gs', collect_all fuel delay sched (with_marker hist k got) cl =
      Ok (with_links cl ls', Z.of_nat kt - 1) ∧
    ls'.*1 = (dur_cli_ cl).*1 ∧ links_inv (collected kt) ls' gs' ∧ Forall2 evolved gs gs' ∧
    ∀ m, budget (arrivals sched 1 (S (S fuel)) + m) gs → budget m gs'.
Proof.
  intros Hr Hpre Hne Hcl Hinv Hst Hls Hmsg Hdelay Hb kt.
  destruct (links_serve_ok _ (sched 1%nat) _ _ (ready_stable hist k) Hinv (Hmsg 1%nat))
    as (ls1 & gs1 & Hserve & Hinv1 & Hk1 & Hgr & Hb1).
  { eapply budget_weaken; [|exact Hb]. unfold arrivals. simpl. lia. }
  destruct (delete_all_ok delay fuel (with_marker hist k got) st hist k got ls1 gs1 0)
    as (ls2 & Hdel & Hk2 & Hinv2 & _); try done; [by rewrite Hk1|].
  assert (Forall2 evolved gs gs1) as Hev1 by (eapply Forall2_impl; [exact Hgr|apply grown_evolved]).
  destruct (wait_deleted_ok kt sched fuel 2 ls2 gs1 Hinv2) as (ls3 & gs3 & Hw & Hk3 & Hinv3 & Hev & Hb3).
  { eapply backups_grown; [exact Hst|exact Hev1|congruence]. }
  { done. }
  { by apply Hb1. }
  exists ls3, gs3. split; [|split; [congruence|split; [done|split]]].
  - unfold collect_all. rewrite Hserve. cbn [mbind outcome_bind]. rewrite Hdel. cbn [lift mbind outcome_bind].
    rewrite Hw. cbn [mbind outcome_bind]. destruct ls1 as [|dl ls1]; [|done].
    by destruct (dur_cli_ cl).
  - by transitivity gs1.
  - intros m Hm. apply Hb3, Hb1. eapply budget_weaken; [|exact Hm]. unfold arrivals. simpl. lia.
Qed.

(** What was fetched continues the stored log. *)
Lemma prefix_new u n cap st hist b k got :
  dims u n cap → replica M st hist b → (b ≤ k)%nat → got `prefix_of` drop k hist → got ≠ [] →
  new_entries u n M cap (take k hist) got ∧ take k hist ++ got = take (k + length got) hist ∧
  (k + length got ≤ length hist)%nat.
Proof.
  clear Hclients. intros Hd Hr Hb [rest Hp] Hne. pose proof (rp_flat _ _ _ _ Hr) as Hf. pose proof (rp_len _ _ _ _ Hr) as Hlen.
  assert (take k hist ++ got = take (k + length got) hist) as Htake.
  { rewrite <- take_take_drop, Hp. by rewrite take_app_length. }
  assert (k + length got ≤ length hist)%nat as Hl.
  { apply (f_equal length) in Hp. rewrite length_drop, length_app in Hp. destruct got; [done|]. simpl in *. lia. }
  split; [|done]. destruct Hd.
  assert (∀ Q : LogEntry → Prop, Forall Q hist → Forall Q got) as Hall.
  { intros Q HQ. rewrite <- (take_drop k hist), Hp in HQ. apply Forall_app in HQ as [_ HQ].
    by apply Forall_app in HQ as [HQ _]. }
  split; try done.
  - rewrite Htake. intros i e [He _]%lookup_take_Some. by apply (fr_entry _ _ _ Hf).
  - apply Hall, Hf.
  - apply Hall, Hr.
  - destruct (decide (lenZ got + 1 < 2 ^ 32)) as [|Hge]; [done|]. exfalso.
    assert (lenZ got = 2 ^ 32 - 1) as Hg by lia. pose proof (fr_room _ _ _ Hf) as Hroom.
    pose proof (rp_rg _ _ _ _ Hr). pose proof (length_total_size got) as Hge'.
    pose proof (total_size_split k hist) as Hs1. pose proof (total_size_split b hist) as Hs2.
    pose proof (total_size_mono b k hist Hb).
    rewrite Hp, total_size_app in Hs1. pose proof (total_size_nonneg rest). lia.
  - rewrite length_take. lia.
Qed.

Lemma marker_tail hist k got :
  got ≠ [] → 0 ≤ total_size (take k hist) + total_size got < 2 ^ 64 →
  ∃ tail, with_marker hist k got = got ++ tail ∧ batch_tail tail.
Proof.
  clear HM Hclients. intros Hne Hs. exists [end_marker (total_size (take k hist) + total_size got)].
  split; [by destruct got|]. right. eexists. split; [done|]. split; [|done].
  unfold wf_entry. simpl. lia.
Qed.

Section Round.
Context (u n : nat) (cap : Z) (Hdims : dims u n cap).
Context (Hcreate : ∀ p, may_create p = true) (Hwrite : ∀ j, write_len j = j).

Lemma cons_repr_links cl gs ip hist k ls gs' hist' :
  cons_repr u n cap cl gs ip hist k → ls.*1 = (dur_cli_ cl).*1 → links_inv idle ls gs' →
  gs' !! ip = Some (hist', k) → take k hist' = take k hist →
  cons_repr u n cap (with_links cl ls) gs' ip hist' k.
Proof. intros [] Hk Hinv Hg Ht. split; simpl; try done; by rewrite ?Hk, ?Ht. Qed.

(** Storing what was fetched. *)
Lemma store_batch_ok fuel delay sched cl gs ip st hist k max :
  let got := fetched hist k max in
  let kt := (k + length got)%nat in
  replica M st hist k → from_clients clients hist → got ≠ [] →
  pri_dur_uri cl = pri → NoDup (dur_cli_ cl).*1 → (dur_cli_ cl).*1 !! ip = Some pri →
  links_inv (ready hist k) (dur_cli_ cl) gs → backups_started (dur_cli_ cl) gs →
  0 ≤ max_fetch_size_ cl < 2 ^ 32 →
  store_repr u n M cap (published k) (backend_ cl) (take k hist) →
  (∀ j, Forall (λ r, message_ok M clients r.2) (sched j)) → Forall (λ d, delay d ≤ fuel)%nat (dur_cli_ cl).*1 →
  budget (arrivals sched 1 (S (S fuel))) gs →
  ∃ cl' gs' hist', store_batch fuel delay sched (with_marker hist k got) cl = Ok cl' ∧
    cons_repr u n cap cl' gs' ip hist' kt ∧ Forall2 evolved gs gs' ∧ hist `prefix_of` hist' ∧
    (dur_cli_ cl').*1 = (dur_cli_ cl).*1 ∧ max_fetch_size_ cl' = max_fetch_size_ cl ∧
    ∀ m, budget (arrivals sched 1 (S (S fuel)) + m) gs → budget m gs'.
Proof.
  intros got kt Hrep Hcl Hne Hpri Hnd Hat Hinv Hbs Hmax Hst Hmsg Hdelay Hb.
  pose proof (rp_flat _ _ _ _ Hrep) as Hf. pose proof (replica_total M HM _ _ _ Hrep) as Htot.
  destruct (prefix_new u n cap _ _ _ k got Hdims Hrep ltac:(done) (fetched_prefix _ _ _) Hne) as (Hnew & Htake & _).
  fold kt in Htake.
  destruct (fetched_take hist k max (fr_k _ _ _ Hf)) as [Hlen Hsum]. fold got kt in Hlen, Hsum.
  assert (length got ≠ 0%nat) as Hl0 by (by destruct got).
  pose proof (total_size_split kt hist). pose proof (total_size_nonneg (drop kt hist)).
  pose proof (total_size_nonneg (take k hist)). pose proof (total_size_nonneg got).
  destruct (marker_tail hist k got Hne) as (tail & Hmk & Htail); [lia|].
  destruct (AppendBatch_ok u n M cap Hcreate Hwrite (backend_ cl) (take k hist) got tail _ Hst Hnew Htail)
    as (be1 & Happ & Hst1).
  set (cl1 := with_ordered (with_backend cl be1) (lenZ (take k hist) + lenZ got - 1)).
  destruct (collect_all_ok fuel delay sched cl1 gs st hist k got Hf (fetched_prefix _ _ _) Hne Hcl Hinv Hbs)
    as (ls2 & gs2 & Hcol & Hk2 & Hinv2 & Hev & Hbud); try done.
  { intros Hnil. change (dur_cli_ cl = []) in Hnil. by rewrite Hnil in Hat. }
  destruct (UpdateGlobalIdx_ok u n M cap be1 _ _ (Z.of_nat kt - 1) Hst1 (dm_cap8 _ _ _ Hdims))
    as (be2 & Hupd & Hst2).
  { pose proof (rp_len _ _ _ _ Hrep). lia. }
  change (dur_cli_ cl1) with (dur_cli_ cl) in Hk2. rewrite <- Hk2 in Hat, Hnd.
  destruct (primary_link _ _ Hat) as [l2 Hip2].
  destruct (Forall2_lookup_l _ _ _ _ _ Hinv2 Hip2) as ([h2 k2] & Hg2 & Hl2 & [_ Hkt]).
  specialize (Hkt eq_refl). simpl in Hkt, Hl2. subst k2.
  destruct (Forall2_lookup_r _ _ _ _ _ Hev Hg2) as ([h1 k1] & Hg1 & Hh2 & _).
  assert (hist `prefix_of` h2) as Hh.
  { rewrite Hk2 in Hat. destruct (primary_link _ _ Hat) as [l1 Hip1].
    destruct (Forall2_lookup_lr _ _ _ _ _ _ Hinv Hip1 Hg1) as [_ (_ & Hp)].
    destruct (Hp eq_refl) as [_ Hh1]. by etrans. }
  exists (with_backend (with_links cl1 ls2) be2), gs2, h2. split; [|split; [|done]].
  - unfold store_batch. rewrite Hmk, Happ, <- Hmk. cbn [mbind outcome_bind]. fold cl1. fold got in Hcol.
    rewrite Hcol. cbn [mbind outcome_bind]. fold kt. simpl. by rewrite Hupd.
  - split; simpl; try done.
    + eapply links_inv_impl; [|exact Hinv2]. by intros d l' g _ [? _].
    + rewrite (prefix_take hist h2), <- Htake by done. unfold published. by rewrite Z.max_r by lia.
Qed.

Lemma fetchAndStore_ok fuel delay sched cl gs ip hist k :
  cons_repr u n cap cl gs ip hist k → backups_started (dur_cli_ cl) gs →
  (∀ j, Forall (λ r, message_ok M clients r.2) (sched j)) → Forall (λ d, delay d ≤ fuel)%nat (dur_cli_ cl).*1 →
  budget (arrivals sched 0 (S (S (S fuel)))) gs →
  let got := fetched hist k (max_fetch_size_ cl) in
  ∃ cl' gs' hist', fetchAndStore fuel delay sched cl = Ok (cl', bool_decide (got ≠ [])) ∧
    cons_repr u n cap cl' gs' ip hist' (k + length got) ∧ Forall2 evolved gs gs' ∧
    hist `prefix_of` hist' ∧ max_fetch_size_ cl' = max_fetch_size_ cl ∧
    ∀ m, budget (arrivals sched 0 (S (S (S fuel))) + m) gs → budget m gs'.
Proof.
  intros Hcr Hst Hmsg Hdelay Hb got.
  destruct (fetch_primary_ok u n cap cl gs ip hist k (sched 0%nat) Hcr (Hmsg 0%nat))
    as (ls1 & gs1 & Hfetch & Hk1 & Hinv1 & Hgr & Hb1).
  { eapply budget_weaken; [|exact Hb]. unfold arrivals. simpl. lia. }
  fold got in Hfetch. unfold fetchAndStore. rewrite Hfetch. cbn [mbind outcome_bind].
  pose proof (cr_ghost _ _ _ _ _ _ _ _ Hcr) as Hg. destruct (primary_link _ _ (cr_at _ _ _ _ _ _ _ _ Hcr)) as [l Hip].
  destruct (Forall2_lookup_lr _ _ _ _ _ _ (cr_links _ _ _ _ _ _ _ _ Hcr) Hip Hg) as [Hl _]. simpl in Hl.
  pose proof (li_replica _ _ _ Hl) as Hrep. simpl in Hrep. pose proof (fr_k _ _ _ (rp_flat _ _ _ _ Hrep)) as Hkh.
  assert (Forall2 evolved gs gs1) as Hev1 by (eapply Forall2_impl; [exact Hgr|apply grown_evolved]).
  destruct (Z.eqb_spec (total_size got) 0) as [Hz|Hz].
  - assert (got = []) as Hnil by (by apply total_size_zero). rewrite Hnil. simpl.
    destruct (Forall2_lookup_l _ _ _ _ _ Hgr Hg) as ([h1 k1] & Hg1 & Hh1 & Hk1'). simpl in Hh1, Hk1'. subst k1.
    exists (with_links cl ls1), gs1, h1. rewrite Nat.add_0_r. split; [done|]. split; cycle 1.
    { split; [done|]. split; [done|]. split; [done|]. intros m Hm. apply Hb1.
      eapply budget_weaken; [|exact Hm]. unfold arrivals. simpl. lia. }
    apply (cons_repr_links cl gs ip hist); try done.
    + eapply links_inv_impl; [|exact Hinv1]. by intros d l' g _ [? _].
    + by apply prefix_take.
  - assert (got ≠ []) as Hne by (by intros Hnil; rewrite Hnil in Hz).
    destruct (store_batch_ok fuel delay sched (count_batch (with_links cl ls1) (with_marker hist k got)) gs1 ip
      _ hist k (max_fetch_size_ cl) Hrep (li_clients _ _ _ Hl) Hne)
      as (cl' & gs' & hist' & Hsb & Hcr' & Hev & Hh & Hks & Hmx & Hbud); simpl; rewrite ?Hk1; try done; try apply Hcr.
    { by eapply backups_grown. }
    { by apply Hb1. }
    fold got in Hsb. rewrite Hsb. simpl. rewrite bool_decide_true by done. exists cl', gs', hist'.
    split; [done|]. split; [done|]. split; [by transitivity gs1|]. split; [done|]. split; [done|].
    intros m Hm. apply Hbud, Hb1. eapply budget_weaken; [|exact Hm]. unfold arrivals. simpl. lia.
Qed.
End Round.
End Order.
