(* ===== verification/System.v ===== *)
(** The system as a whole: replicas, consensus log and shards.

    Clients append to the replicas, the consensus log does its rounds, and readers read
    from the shards, in any order.  Whatever has happened, the stored log is the
    beginning of the log of the primary replica, and a read returns an entry of it. *)

From stdpp Require Import strings.
From S2P Require Import Prelude Props Sequencer LogEntry DurLogFlat FlatRing FlatGC DlTransport.
From S2P Require Import FlatCli Replica Links ShardServer ShardRepr NaiveBackend StorageLog.
From S2P Require Import ConsLog ConsOrder.

Local Open Scope Z_scope.

(** ** Steps *)

Section Steps.
Context `{Posix, Erpc, Rdma} (M : Z) (clients : list Z).

(** Every backup has received an entry. *)
Definition started (cl : ConsensusLog) : Prop :=
  Forall (λ dl, dl.1 = pri_dur_uri cl ∨ GetNumDurEntry (l_svr dl.2) ≠ 0) (dur_cli_ cl).

(** A step and the number of append requests that arrive in it. *)
Inductive step : nat → ConsensusLog → ConsensusLog → Prop :=
  | step_append cl reqs ls :
      Forall (λ r, message_ok M clients r.2) reqs →
      serve reqs (dur_cli_ cl) = Ok ls →
      step (length reqs) cl (with_links cl ls)
  | step_round cl cl' b fuel delay sched :
      (∀ j, Forall (λ r, message_ok M clients r.2) (sched j)) →
      Forall (λ d, delay d ≤ fuel)%nat (dur_cli_ cl).*1 →
      started cl →
      fetchAndStore fuel delay sched cl = Ok (cl', b) →
      step (arrivals sched 0 (S (S (S fuel)))) cl cl'
  | step_read cl slow idx e0 be b e :
      be_ReadEntry (backend_ cl) slow (Z.of_nat idx) e0 = Ok (be, b, e) → Z.of_nat idx < 2 ^ 64 →
      step 0 cl (with_backend cl be).

Inductive run : nat → ConsensusLog → ConsensusLog → Prop :=
  | run_refl cl : run 0 cl cl
  | run_step n m cl1 cl2 cl3 : step n cl1 cl2 → run m cl2 cl3 → run (n + m) cl1 cl3.
End Steps.

(** ** The invariant *)

Section Invariant.
Context `{Posix, Erpc, Rdma} (M : Z) (clients : list Z) (pri : string).
Context (HM : M ≤ SAFE_RG_SIZE + 4) (Hclients : lenZ clients < 2 ^ 32).
Context (u n : nat) (cap : Z) (Hdims : dims M u n cap).
Context (Hcreate : ∀ p, may_create p = true) (Hwrite : ∀ j, write_len j = j).

Lemma started_links P cl gs :
  links_inv M clients pri P (dur_cli_ cl) gs → pri_dur_uri cl = pri → started cl →
  backups_started pri (dur_cli_ cl) gs.
Proof.
  intros Hinv Hpri Hst. apply Forall2_same_length_lookup. split; [by eapply Forall2_length|].
  intros i [d l] g Hi Hg Hd. destruct (Forall2_lookup_lr _ _ _ _ _ _ Hinv Hi Hg) as [Hl _]. simpl in *.
  pose proof (Forall_lookup_1 _ _ _ _ Hst Hi) as [Hp|Hn]; simpl in *.
  - by rewrite Hpri in Hp.
  - intros Hnil. apply Hn. unfold GetNumDurEntry, Sequencer.GetCurSeqNonAtm.
    rewrite (fr_idx _ _ _ (rp_flat _ _ _ _ (li_replica _ _ _ _ _ _ Hl))), Hnil. done.
Qed.

Lemma started_ghost cl gs ip hist k :
  cons_repr M clients pri u n cap cl gs ip hist k → started cl → backups_started pri (dur_cli_ cl) gs.
Proof. intros Hcr. by eapply started_links; apply Hcr. Qed.

Lemma cons_repr_numbered cl gs ip hist k :
  cons_repr M clients pri u n cap cl gs ip hist k →
  numbered (take k hist) ∧ small_entries M (take k hist).
Proof.
  intros Hcr. destruct (primary_link pri _ _ (cr_at _ _ _ _ _ _ _ _ _ _ _ Hcr)) as [l Hip].
  destruct (Forall2_lookup_lr _ _ _ _ _ _ (cr_links _ _ _ _ _ _ _ _ _ _ _ Hcr) Hip
    (cr_ghost _ _ _ _ _ _ _ _ _ _ _ Hcr)) as [Hl _]. pose proof (li_replica _ _ _ _ _ _ Hl) as Hr. simpl in Hr.
  split.
  - intros i e [He _]%lookup_take_Some. by apply (fr_entry _ _ _ (rp_flat _ _ _ _ Hr)).
  - apply Forall_take, Hr.
Qed.

(** Reading an index: the entry of the primary's log, once it is ordered. *)
Lemma read_ok cl gs ip hist k slow i e0 :
  cons_repr M clients pri u n cap cl gs ip hist k → Z.of_nat i < 2 ^ 64 →
  match take k hist !! i with
  | Some e => ∃ be, be_ReadEntry (backend_ cl) slow (Z.of_nat i) e0 = Ok (be, true, e) ∧
      cons_repr M clients pri u n cap (with_backend cl be) gs ip hist k
  | None => be_ReadEntry (backend_ cl) slow (Z.of_nat i) e0 = Blocked
  end.
Proof.
  intros Hcr Hi. destruct (cons_repr_numbered _ _ _ _ _ Hcr) as [Hnum Hsm].
  pose proof (be_ReadEntry_ok u n M cap (backend_ cl) (take k hist) (published k) slow i e0
    (cr_store _ _ _ _ _ _ _ _ _ _ _ Hcr) (dm_cap8 _ _ _ _ Hdims) Hnum Hsm Hi) as Hrd.
  destruct (take k hist !! i) as [e|] eqn:He; [|done].
  pose proof (lookup_lt_Some _ _ _ He) as Hlt. rewrite length_take in Hlt. unfold published in *.
  rewrite (proj2 (Z.leb_le _ _)) in Hrd by lia. destruct Hrd as (be & -> & Hst). exists be. split; [done|].
  destruct Hcr. by split.
Qed.

Lemma step_ok m n' cl cl' gs ip hist k :
  cons_repr M clients pri u n cap cl gs ip hist k → step M clients m cl cl' → budget (m + n') gs →
  ∃ gs' hist' k', cons_repr M clients pri u n cap cl' gs' ip hist' k' ∧ budget n' gs' ∧
    hist `prefix_of` hist' ∧ (k ≤ k')%nat.
Proof.
  intros Hcr Hstep Hb.
  destruct Hstep as [cl reqs ls Hmsg Hserve|cl cl' b fuel delay sched Hmsg Hdelay Hst Hround|cl slow i e0 be b e Hrd Hi].
  - destruct (links_serve_ok M clients pri HM idle reqs (dur_cli_ cl) gs (idle_stable)
      (cr_links _ _ _ _ _ _ _ _ _ _ _ Hcr) Hmsg) as (ls' & gs' & Hserve' & Hinv & Hk & Hgr & Hb').
    { eapply budget_weaken; [|exact Hb]. lia. }
    rewrite Hserve in Hserve'. injection Hserve' as <-.
    destruct (Forall2_lookup_l _ _ _ _ _ Hgr (cr_ghost _ _ _ _ _ _ _ _ _ _ _ Hcr)) as ([h' k'] & Hg' & Hh & Hk').
    simpl in Hh, Hk'. subst k'. exists gs', h', k. split; [|split; [by apply Hb'|done]].
    destruct (primary_link pri _ _ (cr_at _ _ _ _ _ _ _ _ _ _ _ Hcr)) as [l Hip].
    destruct (Forall2_lookup_lr _ _ _ _ _ _ (cr_links _ _ _ _ _ _ _ _ _ _ _ Hcr) Hip
      (cr_ghost _ _ _ _ _ _ _ _ _ _ _ Hcr)) as [Hl _].
    apply (cons_repr_links M clients pri u n cap cl gs ip hist); try done.
    apply prefix_take; [done|]. apply (fr_k _ _ _ (rp_flat _ _ _ _ (li_replica _ _ _ _ _ _ Hl))).
  - destruct (fetchAndStore_ok M clients pri HM Hclients u n cap Hdims Hcreate Hwrite fuel delay sched cl gs ip hist k
      Hcr (started_ghost _ _ _ _ _ Hcr Hst) Hmsg Hdelay) as (cl2 & gs' & h' & Hr2 & Hcr' & _ & Hh & _ & Hb').
    { eapply budget_weaken; [|exact Hb]. lia. }
    rewrite Hround in Hr2. injection Hr2 as <- _. eexists gs', h', _. split; [done|]. split; [by apply Hb'|].
    split; [done|lia].
  - exists gs, hist, k. pose proof (read_ok cl gs ip hist k slow i e0 Hcr Hi) as Hok.
    rewrite Hrd in Hok. destruct (take k hist !! i); [|done]. destruct Hok as (be' & Heq & Hcr').
    injection Heq as <- _ _. done.
Qed.

Lemma run_ok m cl cl' gs ip hist k :
  run M clients m cl cl' → cons_repr M clients pri u n cap cl gs ip hist k → budget m gs →
  ∃ gs' hist' k', cons_repr M clients pri u n cap cl' gs' ip hist' k' ∧ hist `prefix_of` hist' ∧ (k ≤ k')%nat.
Proof.
  intros Hrun. revert gs hist k. induction Hrun as [cl|m m' cl1 cl2 cl3 Hs _ IH]; intros gs hist k Hcr Hb.
  { by exists gs, hist, k. }
  destruct (step_ok m m' cl1 cl2 gs ip hist k Hcr Hs Hb) as (gs2 & h2 & k2 & Hcr2 & Hb2 & Hh2 & Hk2).
  destruct (IH gs2 h2 k2 Hcr2 Hb2) as (gs3 & h3 & k3 & Hcr3 & Hh3 & Hk3).
  exists gs3, h3, k3. split; [done|]. split; [by etrans|lia].
Qed.
End Invariant.

(** ** A small system *)

(** A primary and a backup with the two entries of [FlatGC], and two shards. *)
Definition pri_log : FlatLog :=
  default small_log (Initialize (<["leader"%string := "true"%string]> small_props) ∅).
Definition pri_two : FlatLog := appended (appended pri_log (entry_of 42 7)) (entry_of 43 9).

Definition pri_link : Link :=
  mkLink (mkFlatCli (mkCli true (Buf 8192 ∅) [] false false [] ∅) (Buf (2 ^ 20 + 8192) ∅) (2 ^ 20) 0 0)
    false pri_two test_resp None.
Definition bak_link : Link :=
  mkLink (mkFlatCli test_cli (Buf 0 ∅) 0 0 0) false two_entries test_resp None.

Definition small_system : ConsensusLog :=
  mkCons [("p"%string, pri_link); ("b"%string, bak_link)] "p" two_shards 0 0 0 0.
Definition small_ghost : list Ghost := [(two_hist, 0%nat); (two_hist, 0%nat)].

(** A request for the primary. *)
Definition request_msg : list byte :=
  peek (rd (bmem (bpoke (Buf 8192 ∅) 0 (encode (stored (entry_of 42 8) 0 0))))) 0 36.

Definition test_sched (j : nat) : list (string * list byte) :=
  match j with 0%nat => [("p"%string, request_msg)] | _ => [] end.

Lemma request_msg_ok : message_ok 1000 [42; 43] request_msg.
Proof.
  exists (stored (entry_of 42 8) 0 0). split; [|split; [by apply (bool_decide_unpack _); vm_compute|set_solver]].
  intros e0. apply entry_message; [by apply (bool_decide_unpack _); vm_compute|apply peek_poke_same|by vm_compute].
Qed.

Lemma test_sched_ok j : Forall (λ r, message_ok 1000 [42; 43] r.2) (test_sched j).
Proof. destruct j; repeat constructor. apply request_msg_ok. Qed.

Lemma pri_two_repr : flat_repr pri_two two_hist 0.
Proof.
  apply (flat_repr_appended (appended pri_log (entry_of 42 7)) [stored (entry_of 42 7) 0 0] 0 (entry_of 43 9)).
  - apply (flat_repr_appended pri_log [] 0 (entry_of 42 7)).
    + apply (Initialize_repr (<["leader"%string := "true"%string]> small_props) ∅); by vm_compute.
    + split; by vm_compute.
  - split; by vm_compute.
Qed.

Lemma two_hist_small : small_entries 1000 two_hist.
Proof. repeat constructor; by vm_compute. Qed.

Lemma small_dims : dims 1000 2 2 2048.
Proof. split; by vm_compute. Qed.

Lemma small_system_repr : cons_repr 1000 [42; 43] "p" 2 2 2048 small_system small_ghost 0 two_hist 0.
Proof.
  split; try done.
  - apply NoDup_cons. split; [set_solver|]. apply NoDup_singleton.
  - constructor; [|constructor; [|constructor]]; (split; [|done]); split;
      lazymatch goal with |- _ → _ → GetFlagFromBuf _ _ ≠ _ => intros _ Hnil; discriminate Hnil | _ => try done end.
    + split; try done; [apply pri_two_repr|apply two_hist_small|]. intros rid. left. by vm_compute.
    + repeat constructor; set_solver.
    + apply two_entries_replica.
    + repeat constructor; set_solver.
  - exact two_shards_repr.
Qed.

(** ** What a fetch returns *)

Lemma fetched_some M hist k max :
  small_entries M hist → (k < length hist)%nat → max = 0 ∨ M ≤ max →
  fetched hist k max ≠ [] ∧ (max = 0 → fetched hist k max = drop k hist).
Proof.
  intros Hsm Hk Hmax. unfold fetched, window.
  assert (max = 0 → take_fit (total_size (drop k hist)) (drop k hist) = drop k hist) as Hall
    by (intros _; by apply take_fit_all).
  destruct (drop k hist) as [|e es] eqn:Hd.
  { apply (f_equal length) in Hd. rewrite length_drop in Hd. simpl in Hd. lia. }
  assert (entry_size e ≤ M) as He.
  { assert (small_entries M (drop k hist)) as Hs by (by apply Forall_drop). rewrite Hd in Hs.
    by apply Forall_cons in Hs as [? _]. }
  pose proof (total_size_nonneg es). pose proof (entry_size_pos e).
  split; [|intros ->; by apply Hall].
  case_zb; simpl total_size; simpl take_fit; (case_zb; [done|lia]).
Qed.

(** ** Claims *)

(** C1. A round of the consensus log.  The primary's log is [hist], its first [k]
    entries are stored.  [fetchAndStore] returns, whatever append requests the replicas
    handle meanwhile and however long the garbage collection of each replica takes, once
    the loop has polled longer than that.  Then the entries that it fetched are stored
    and published as the continuation of the log: the stored log is the first
    [k + length got] entries of the primary's log, which has only grown; on no replica
    has an entry been removed from the log. *)
Theorem fetchAndStore_refines `{Posix, Erpc, Rdma} M clients pri u n cap fuel delay sched cl gs ip hist k :
  let got := fetched hist k (max_fetch_size_ cl) in
  M ≤ SAFE_RG_SIZE + 4 → lenZ clients < 2 ^ 32 → dims M u n cap →
  (∀ p, may_create p = true) → (∀ j, write_len j = j) →
  cons_repr M clients pri u n cap cl gs ip hist k → started cl →
  (∀ j, Forall (λ r, message_ok M clients r.2) (sched j)) → Forall (λ d, delay d ≤ fuel)%nat (dur_cli_ cl).*1 →
  budget (arrivals sched 0 (S (S (S fuel)))) gs →
  ∃ cl' gs' hist', fetchAndStore fuel delay sched cl = Ok (cl', bool_decide (got ≠ [])) ∧
    cons_repr M clients pri u n cap cl' gs' ip hist' (k + length got) ∧ hist `prefix_of` hist' ∧
    Forall2 evolved gs gs'.
Proof.
  intros got HM Hcl Hd Hcr Hw Hrep Hst Hmsg Hdelay Hb.
  destruct (fetchAndStore_ok M clients pri HM Hcl u n cap Hd Hcr Hw fuel delay sched cl gs ip hist k Hrep
    (started_ghost _ _ _ _ _ _ _ _ _ _ _ Hrep Hst) Hmsg Hdelay Hb)
    as (cl' & gs' & hist' & Hf & Hrep' & Hev & Hh & _).
  by exists cl', gs', hist'.
Qed.

Lemma fetchAndStore_refines_witness :
  ∃ cl' gs' hist', fetchAndStore 3 (λ d, if streq d "p" then 3%nat else 1%nat) test_sched small_system
      = Ok (cl', true) ∧
    cons_repr 1000 [42; 43] "p" 2 2 2048 cl' gs' 0 hist' 2 ∧ two_hist `prefix_of` hist' ∧
    Forall2 evolved small_ghost gs'.
Proof.
  apply (fetchAndStore_refines 1000 [42; 43] "p" 2 2 2048 3 (λ d, if streq d "p" then 3%nat else 1%nat)
    test_sched small_system small_ghost 0 two_hist 0).
  - done.
  - done.
  - exact small_dims.
  - done.
  - done.
  - exact small_system_repr.
  - constructor; [by left|]. constructor; [|constructor]. right. by vm_compute.
  - exact test_sched_ok.
  - repeat constructor.
  - repeat constructor.
Defined.

(** C4. Reads follow the primary.  After any run of the system (appends at the replicas
    in any order, rounds of the consensus log, reads) from a state that represents a
    log, the primary has a log that extends the initial one, and has collected a number
    of its entries, at least the initial one, such that reading an index below that number
    returns the entry of the primary's log at that index, and reading any other index
    waits. *)
Theorem reads_follow_primary `{Posix, Erpc, Rdma} M clients pri u n cap m cl cl' gs ip hist k :
  M ≤ SAFE_RG_SIZE + 4 → lenZ clients < 2 ^ 32 → dims M u n cap →
  (∀ p, may_create p = true) → (∀ j, write_len j = j) →
  cons_repr M clients pri u n cap cl gs ip hist k → budget m gs → run M clients m cl cl' →
  ∃ l hist' k', link_at pri (dur_cli_ cl') = Some l ∧ flat_repr (l_svr l) hist' k' ∧
    hist `prefix_of` hist' ∧ (k ≤ k')%nat ∧
    ∀ i slow e0, Z.of_nat i < 2 ^ 64 →
      match take k' hist' !! i with
      | Some e => ∃ be, be_ReadEntry (backend_ cl') slow (Z.of_nat i) e0 = Ok (be, true, e)
      | None => be_ReadEntry (backend_ cl') slow (Z.of_nat i) e0 = Blocked
      end.
Proof.
  intros HM Hcl Hd Hcr Hw Hrep Hb Hrun.
  destruct (run_ok M clients pri HM Hcl u n cap Hd Hcr Hw m cl cl' gs ip hist k Hrun Hrep Hb)
    as (gs' & hist' & k' & Hrep' & Hh & Hk).
  destruct (primary_link pri _ _ (cr_at _ _ _ _ _ _ _ _ _ _ _ Hrep')) as [l Hip].
  destruct (Forall2_lookup_lr _ _ _ _ _ _ (cr_links _ _ _ _ _ _ _ _ _ _ _ Hrep') Hip
    (cr_ghost _ _ _ _ _ _ _ _ _ _ _ Hrep')) as [Hl _].
  exists l, hist', k'. split; [apply (link_at_idx _ ip); [apply Hrep'|done]|].
  split; [apply (rp_flat _ _ _ _ (li_replica _ _ _ _ _ _ Hl))|].
  split; [done|]. split; [done|]. intros i slow e0 Hi.
  pose proof (read_ok M clients pri u n cap Hd cl' gs' ip hist' k' slow i e0 Hrep' Hi) as Hrd.
  destruct (take k' hist' !! i); [|done]. destruct Hrd as (be & Hbe & _). by exists be.
Qed.

(** The small system after a round. *)
Lemma small_round :
  ∃ cl' gs' hist', run 1000 [42; 43] 1 small_system cl' ∧
    cons_repr 1000 [42; 43] "p" 2 2 2048 cl' gs' 0 hist' 2 ∧ two_hist `prefix_of` hist' ∧ budget 0 gs'.
Proof.
  destruct (fetchAndStore_ok 1000 [42; 43] "p" ltac:(done) ltac:(done) 2 2 2048 small_dims (λ _, eq_refl)
    (λ _, eq_refl) 0 (λ _, 0%nat) test_sched small_system small_ghost 0 two_hist 0 small_system_repr)
    as (cl' & gs' & hist' & Hf & Hcr & _ & Hh & _ & Hb).
  - repeat constructor; done.
  - exact test_sched_ok.
  - repeat constructor.
  - repeat constructor.
  - exists cl', gs', hist'. split; [|split; [exact Hcr|split; [done|apply Hb; repeat constructor]]].
    apply (run_step _ _ 1 0 _ cl'); [|constructor].
    apply (step_round _ _ _ _ _ 0 (λ _, 0%nat) test_sched) with (4 := Hf).
    + exact test_sched_ok.
    + repeat constructor.
    + constructor; [by left|]. constructor; [|constructor]. right. by vm_compute.
Qed.

Lemma reads_follow_primary_witness :
  ∃ cl' l hist' k', run 1000 [42; 43] 1 small_system cl' ∧ link_at "p" (dur_cli_ cl') = Some l ∧
    flat_repr (l_svr l) hist' k' ∧ two_hist `prefix_of` hist' ∧ (0 ≤ k')%nat ∧
    ∀ i slow e0, Z.of_nat i < 2 ^ 64 →
      match take k' hist' !! i with
      | Some e => ∃ be, be_ReadEntry (backend_ cl') slow (Z.of_nat i) e0 = Ok (be, true, e)
      | None => be_ReadEntry (backend_ cl') slow (Z.of_nat i) e0 = Blocked
      end.
Proof.
  destruct small_round as (cl' & _ & _ & Hrun & _). exists cl'.
  destruct (reads_follow_primary 1000 [42; 43] "p" 2 2 2048 1 small_system cl' small_ghost 0 two_hist 0
    ltac:(done) ltac:(done) small_dims (λ _, eq_refl) (λ _, eq_refl) small_system_repr
    ltac:(repeat constructor) Hrun) as (l & hist' & k' & Hrest).
  exists l, hist', k'. auto.
Defined.

(** C5. What a read has returned stays: if a read of an index returns an entry, then
    after any further run of the system a read of that index returns the same entry. *)
Theorem reads_are_stable `{Posix, Erpc, Rdma} M clients pri u n cap m cl cl' gs ip hist k i slow slow' e0 e0' be b e :
  M ≤ SAFE_RG_SIZE + 4 → lenZ clients < 2 ^ 32 → dims M u n cap →
  (∀ p, may_create p = true) → (∀ j, write_len j = j) →
  cons_repr M clients pri u n cap cl gs ip hist k → budget m gs → run M clients m cl cl' →
  Z.of_nat i < 2 ^ 64 → be_ReadEntry (backend_ cl) slow (Z.of_nat i) e0 = Ok (be, b, e) →
  ∃ be', be_ReadEntry (backend_ cl') slow' (Z.of_nat i) e0' = Ok (be', true, e).
Proof.
  intros HM Hcl Hd Hcr Hw Hrep Hb Hrun Hi Hrd.
  destruct (run_ok M clients pri HM Hcl u n cap Hd Hcr Hw m cl cl' gs ip hist k Hrun Hrep Hb)
    as (gs' & hist' & k' & Hrep' & Hh & Hk).
  pose proof (read_ok M clients pri u n cap Hd cl gs ip hist k slow i e0 Hrep Hi) as Hr0.
  pose proof (read_ok M clients pri u n cap Hd cl' gs' ip hist' k' slow' i e0' Hrep' Hi) as Hr1.
  rewrite Hrd in Hr0. destruct (take k hist !! i) as [e1|] eqn:He; [|done].
  destruct Hr0 as (be1 & Heq & _). injection Heq as _ _ ->.
  apply lookup_take_Some in He as [He Hik].
  rewrite (proj2 (lookup_take_Some hist' k' i e1)) in Hr1.
  - destruct Hr1 as (be' & Hbe & _). by exists be'.
  - split; [by eapply prefix_lookup_Some|lia].
Qed.

Lemma reads_are_stable_witness :
  ∃ cl cl' be be' e, run 1000 [42; 43] 0 cl cl' ∧
    be_ReadEntry (backend_ cl) false (Z.of_nat 1) LogEntry_default = Ok (be, true, e) ∧
    be_ReadEntry (backend_ cl') true (Z.of_nat 1) LogEntry_default = Ok (be', true, e).
Proof.
  destruct small_round as (cl & gs & hist & _ & Hcr & [more ->] & Hb).
  destruct (read_ok 1000 [42; 43] "p" 2 2 2048 small_dims cl gs 0 _ 2 false 1 LogEntry_default Hcr eq_refl)
    as (be & Hrd & _).
  assert (run 1000 [42; 43] 0 cl (with_backend cl be)) as Hrun.
  { apply (run_step _ _ 0 0 _ (with_backend cl be)); [|constructor]. by eapply step_read. }
  destruct (reads_are_stable 1000 [42; 43] "p" 2 2 2048 0 cl (with_backend cl be) gs 0 _ 2 1 false true
    LogEntry_default LogEntry_default be true _ ltac:(done) ltac:(done) small_dims (λ _, eq_refl) (λ _, eq_refl)
    Hcr Hb Hrun eq_refl Hrd) as (be' & Hrd').
  by eexists cl, (with_backend cl be), be, be', _.
Defined.

(** C6. Rounds make progress.  If the consensus log may fetch any entry (its
    [max_fetch_size] is zero, for no bound, or at least the size of an entry), a round
    orders at least one of the entries that wait in the primary; without a bound it
    orders all that were there when it began. *)
Theorem round_progress `{Posix, Erpc, Rdma} M clients pri u n cap fuel delay sched cl gs ip hist k :
  M ≤ SAFE_RG_SIZE + 4 → lenZ clients < 2 ^ 32 → dims M u n cap →
  (∀ p, may_create p = true) → (∀ j, write_len j = j) →
  cons_repr M clients pri u n cap cl gs ip hist k → started cl →
  (∀ j, Forall (λ r, message_ok M clients r.2) (sched j)) → Forall (λ d, delay d ≤ fuel)%nat (dur_cli_ cl).*1 →
  budget (arrivals sched 0 (S (S (S fuel)))) gs →
  (k < length hist)%nat → max_fetch_size_ cl = 0 ∨ M ≤ max_fetch_size_ cl →
  ∃ cl' gs' hist' k', fetchAndStore fuel delay sched cl = Ok (cl', true) ∧
    cons_repr M clients pri u n cap cl' gs' ip hist' k' ∧ hist `prefix_of` hist' ∧
    (k < k')%nat ∧ (max_fetch_size_ cl = 0 → k' = length hist).
Proof.
  intros HM Hcl Hd Hcr Hw Hrep Hst Hmsg Hdelay Hb Hk Hmax.
  destruct (fetchAndStore_ok M clients pri HM Hcl u n cap Hd Hcr Hw fuel delay sched cl gs ip hist k Hrep
    (started_ghost _ _ _ _ _ _ _ _ _ _ _ Hrep Hst) Hmsg Hdelay Hb)
    as (cl' & gs' & hist' & Hf & Hrep' & Hev & Hh & _).
  destruct (primary_link pri _ _ (cr_at _ _ _ _ _ _ _ _ _ _ _ Hrep)) as [l Hip].
  destruct (Forall2_lookup_lr _ _ _ _ _ _ (cr_links _ _ _ _ _ _ _ _ _ _ _ Hrep) Hip
    (cr_ghost _ _ _ _ _ _ _ _ _ _ _ Hrep)) as [Hl _].
  pose proof (rp_small _ _ _ _ (li_replica _ _ _ _ _ _ Hl)) as Hsm. simpl in Hsm.
  destruct (fetched_some M hist k (max_fetch_size_ cl) Hsm Hk Hmax) as [Hne Hall].
  eexists cl', gs', hist', _. rewrite bool_decide_true in Hf by done. split; [done|]. split; [exact Hrep'|].
  split; [done|]. split.
  - destruct (fetched hist k (max_fetch_size_ cl)); [done|]. simpl. lia.
  - intros H0'. rewrite (Hall H0'), length_drop. lia.
Qed.

Lemma round_progress_witness :
  ∃ cl' gs' hist' k', fetchAndStore 0 (λ _, 0%nat) test_sched small_system = Ok (cl', true) ∧
    cons_repr 1000 [42; 43] "p" 2 2 2048 cl' gs' 0 hist' k' ∧ two_hist `prefix_of` hist' ∧
    (0 < k')%nat ∧ (max_fetch_size_ small_system = 0 → k' = 2%nat).
Proof.
  apply (round_progress 1000 [42; 43] "p" 2 2 2048 0 (λ _, 0%nat) test_sched small_system small_ghost 0 two_hist 0).
  - done.
  - done.
  - exact small_dims.
  - done.
  - done.
  - exact small_system_repr.
  - constructor; [by left|]. constructor; [|constructor]. right. by vm_compute.
  - exact test_sched_ok.
  - repeat constructor.
  - repeat constructor.
  - apply Nat.lt_0_succ.
  - by left.
Defined.
