(* ===== verification/Pipeline.v ===== *)
(** The pipelined mode of the consensus log: [ConsensusLog::fetch] and
    [ConsensusLog::store] of [src/cons_log/cons_log.cc], in the two threads of
    [src/cons_log/erpc_cl_transport.cc].

    One thread fetches the next entries of the primary into one of two buffers while the
    other thread stores the entries of the other buffer and has them collected.  The
    threads are cut into steps at the places where they touch what the other thread or a
    replica changes: the two RDMA reads of the fetch, storing the batch, sending the
    garbage collection, and each poll for its end.  A buffer's lock is held by [fetch]
    until the buffer is full and by [store] until it is empty again, so that between
    these steps the flag [empty_] alone decides who may use it. *)

From stdpp Require Import strings.
From S2P Require Import Prelude Props Sequencer LogEntry DurLogFlat FlatRing FlatGC DlTransport.
From S2P Require Import FlatCli Replica Links ShardServer ShardRepr NaiveBackend StorageLog.
From S2P Require Import ConsLog ConsOrder System.

Local Open Scope Z_scope.

(** ** State *)

Record PipelineObj : Type := mkPipe { entries_buf_ : list LogEntry; empty_ : bool }.

(** Where the fetch thread is: at the beginning of [fetch], or between the two RDMA
    reads; [r1] is the primary's region when the range was read. *)
Inductive fetch_pc : Type := FIdle | FRead (r1 : buffer).

(** Where the store thread is: at the beginning of [store], after [AppendBatch], or in
    the loop that waits for the garbage collection. *)
Inductive store_pc : Type := SIdle | SAppended | SWaiting (last_log_idx : Z).

(** [buffers_], the static variables of [fetch] and [store], and the two threads. *)
Record Pipeline : Type := mkPipeline {
  buffers_ : gmap Z PipelineObj;
  fetch_round : Z;
  fetch_begin : Z;
  store_round : Z;
  f_pc : fetch_pc;
  s_pc : store_pc
}.

Definition Pipeline_init : Pipeline :=
  mkPipeline (<[0 := mkPipe [] true]> (<[1 := mkPipe [] true]> ∅)) 0 0 0 FIdle SIdle.

Definition with_fpc (p : Pipeline) (pc : fetch_pc) : Pipeline :=
  mkPipeline (buffers_ p) (fetch_round p) (fetch_begin p) (store_round p) pc (s_pc p).
Definition with_spc (p : Pipeline) (pc : store_pc) : Pipeline :=
  mkPipeline (buffers_ p) (fetch_round p) (fetch_begin p) (store_round p) (f_pc p) pc.

Section Pipeline.
Context `{Posix, Erpc, Rdma}.

(** ** The fetch thread *)

(** [fetch] until the range is read: it waits while its buffer is full. *)
Definition fetch_range (cl : ConsensusLog) (p : Pipeline) : outcome (ConsensusLog * Pipeline) :=
  match f_pc p with
  | FRead _ => Blocked
  | FIdle =>
      buf ← lift (buffers_ p !! (fetch_round p mod 2));
      if negb (empty_ buf) then Blocked else
      l ← lift (link_at (pri_dur_uri cl) (dur_cli_ cl));
      Ok (cl, with_fpc p (FRead (mem_rg_raw_ (l_svr l))))
  end.

(** The rest of [fetch]. *)
Definition fetch_entries (cl : ConsensusLog) (p : Pipeline) : outcome (ConsensusLog * Pipeline) :=
  match f_pc p with
  | FIdle => Blocked
  | FRead r1 =>
      let r := fetch_round p mod 2 in
      buf ← lift (buffers_ p !! r);
      l ← lift (link_at (pri_dur_uri cl) (dur_cli_ cl));
      '(c, entries, fetch_len) ← lift (FetchUnorderedEntries_from (l_cli l) r1 (mem_rg_raw_ (l_svr l))
                                         (entries_buf_ buf) (fetch_begin p) (max_fetch_size_ cl));
      let cl := with_links cl (link_set (pri_dur_uri cl) (with_cli l c) (dur_cli_ cl)) in
      if fetch_len =? 0
      then Ok (cl, mkPipeline (<[r := mkPipe entries true]> (buffers_ p))
                     (fetch_round p) (fetch_begin p) (store_round p) FIdle (s_pc p))
      else Ok (count_batch cl entries,
               mkPipeline (<[r := mkPipe entries false]> (buffers_ p))
                 (u64 (fetch_round p + 1)) (u64 (fetch_begin p + fetch_len)) (store_round p) FIdle (s_pc p))
  end.

(** ** The store thread *)

(** [store] until the batch is stored: it waits while its buffer is empty, and gives up
    once [run] is false. *)
Definition store_append (run : bool) (cl : ConsensusLog) (p : Pipeline) : outcome (ConsensusLog * Pipeline) :=
  match s_pc p with
  | SIdle =>
      buf ← lift (buffers_ p !! (store_round p mod 2));
      if empty_ buf then (if run then Blocked else Ok (cl, p)) else
      '(be, idx) ← AppendBatch (backend_ cl) (entries_buf_ buf);
      Ok (with_ordered (with_backend cl be) idx, with_spc p SAppended)
  | _ => Blocked
  end.

(** The loop that sends the garbage collection; [delay] is how long each will take. *)
Definition store_delete (delay : string → nat) (cl : ConsensusLog) (p : Pipeline)
    : outcome (ConsensusLog * Pipeline) :=
  match s_pc p with
  | SAppended =>
      buf ← lift (buffers_ p !! (store_round p mod 2));
      '(ls, last_log_idx) ← lift (delete_all delay (entries_buf_ buf) (dur_cli_ cl) 0);
      Ok (with_links cl ls, with_spc p (SWaiting last_log_idx))
  | _ => Blocked
  end.

(** A turn of [while (!allDeletionCompleted());], and after the last one the rest of
    [store]. *)
Definition store_poll (cl : ConsensusLog) (p : Pipeline) : outcome (ConsensusLog * Pipeline) :=
  match s_pc p with
  | SWaiting last_log_idx =>
      '(ls, ret) ← lift (allDeletionCompleted (dur_cli_ cl));
      let cl := with_links cl ls in
      if negb ret then Ok (cl, p) else
      be ← lift (UpdateGlobalIdx (backend_ cl) last_log_idx);
      Ok (with_backend cl be,
          mkPipeline (<[store_round p mod 2 := mkPipe [] true]> (buffers_ p)) (fetch_round p) (fetch_begin p)
            (u64 (store_round p + 1)) (f_pc p) SIdle)
  | _ => Blocked
  end.

(** ** Runs *)

(** What can happen next: append requests reach the replicas, a thread does a step, or
    a reader reads from the shards. *)
Inductive pevent : Type :=
  | PAppend (reqs : list (string * list byte))
  | PFetchRange
  | PFetchEntries
  | PStore (run : bool)
  | PDelete (delay : string → nat)
  | PPoll
  | PRead (slow : bool) (idx : Z) (e0 : LogEntry).

Definition pipe_step (ev : pevent) (cl : ConsensusLog) (p : Pipeline) : outcome (ConsensusLog * Pipeline) :=
  match ev with
  | PAppend reqs => ls ← serve reqs (dur_cli_ cl); Ok (with_links cl ls, p)
  | PFetchRange => fetch_range cl p
  | PFetchEntries => fetch_entries cl p
  | PStore run => store_append run cl p
  | PDelete delay => store_delete delay cl p
  | PPoll => store_poll cl p
  | PRead slow idx e0 => '(be, _, _) ← be_ReadEntry (backend_ cl) slow idx e0; Ok (with_backend cl be, p)
  end.

(** A thread or reader that must wait leaves everything as it is. *)
Fixpoint pipe_run (evs : list pevent) (cl : ConsensusLog) (p : Pipeline) : outcome (ConsensusLog * Pipeline) :=
  match evs with
  | [] => Ok (cl, p)
  | ev :: evs =>
      match pipe_step ev cl p with
      | Ok (cl', p') => pipe_run evs cl' p'
      | Blocked => pipe_run evs cl p
      | Fault => Fault
      end
  end.
End Pipeline.
