(* ===== verification/PipelineOrder.v ===== *)
(** What the pipelined mode of the consensus log achieves.

    [queue_inv] is the invariant of the two buffers: they hold consecutive parts of the
    primary's log, between what is published and where the fetch continues.  [pipe_inv]
    adds the connections and the shards, by the place of the store thread.  Each step of
    the two threads keeps it, whatever the other thread and the clients do in between. *)

From stdpp Require Import strings.
From S2P Require Import Prelude Props Sequencer LogEntry DurLogFlat FlatRing FlatGC DlTransport.
From S2P Require Import FlatCli Replica Links ShardServer ShardRepr NaiveBackend StorageLog.
From S2P Require Import ConsLog ConsOrder System Pipeline.

Local Open Scope Z_scope.

(** ** The buffers *)

(** The [i]-th batch of the queue [qs] that follows the first [k0] entries, in its
    buffer, or an empty buffer. *)
Definition in_flight (hist : list LogEntry) (k0 : nat) (qs : list (list LogEntry)) (i : nat) : PipelineObj :=
  match qs !! i with
  | Some got => mkPipe (with_marker hist (k0 + length (concat (take i qs))) got) false
  | None => mkPipe [] true
  end.

(** How many entries have been fetched. *)
Definition fetched_upto (k0 : nat) (qs : list (list LogEntry)) : nat := (k0 + length (concat qs))%nat.

(** The region [r1] is that of a primary whose log was a part of [hist] that has the
    first [kf] entries. *)
Definition snapshot (R : Z) (r1 : buffer) (hist : list LogEntry) (kf : nat) : Prop :=
  ∃ hist0 k, hist0 `prefix_of` hist ∧ (k ≤ kf ≤ length hist0)%nat ∧
    bcap r1 = R + SAFE_RG_SIZE + PAGE_SIZE ∧ get_word r1 R 0 = total_size hist0 ∧
    get_word r1 R 1 = total_size (take k hist0) ∧ total_size (drop k hist0) ≤ R - 2 ^ 18.

Record queue_inv (R : Z) (p : Pipeline) (hist : list LogEntry) (k0 : nat) (qs : list (list LogEntry)) : Prop := {
  qi_k0 : (k0 ≤ length hist)%nat;
  qi_qs : concat qs `prefix_of` drop k0 hist;
  qi_ne : Forall (λ q, q ≠ []) qs;
  qi_two : (length qs ≤ 2)%nat;
  qi_bufs : ∀ i, (i < 2)%nat →
    buffers_ p !! ((store_round p + Z.of_nat i) mod 2) = Some (in_flight hist k0 qs i);
  qi_round : fetch_round p mod 2 = (store_round p + Z.of_nat (length qs)) mod 2;
  qi_begin : fetch_begin p = total_size (take (fetched_upto k0 qs) hist);
  qi_fetch : match f_pc p with
             | FIdle => True
             | FRead r1 => (length qs < 2)%nat ∧ snapshot R r1 hist (fetched_upto k0 qs)
             end
}.

Lemma u64_mod2 z : u64 z mod 2 = z mod 2.
Proof. unfold u64. rewrite Z.mod_mod_divide; [done|]. by exists (2 ^ 63). Qed.

Lemma mod2_two z : (z + 2) mod 2 = z mod 2.
Proof. replace (z + 2) with (z + 1 * 2) by lia. apply Z_mod_plus_full. Qed.

Lemma mod2_next z : (z + 1) mod 2 ≠ z mod 2.
Proof. rewrite Zplus_mod. change (1 mod 2) with 1. pose proof (Z.mod_pos_bound z 2 ltac:(lia)).
  assert (z mod 2 = 0 ∨ z mod 2 = 1) as [->| ->] by lia; done. Qed.

Lemma with_marker_grow hist hist' k got :
  hist `prefix_of` hist' → (k ≤ length hist)%nat → with_marker hist' k got = with_marker hist k got.
Proof. intros Hh Hk. unfold with_marker. by rewrite (prefix_take hist hist'). Qed.

Lemma queue_len R p hist k0 qs : queue_inv R p hist k0 qs → (fetched_upto k0 qs ≤ length hist)%nat.
Proof.
  intros [Hk0 [rest Hq] _ _ _ _ _ _]. apply (f_equal length) in Hq.
  rewrite length_drop, length_app in Hq. unfold fetched_upto. lia.
Qed.

Lemma concat_take_le (qs : list (list LogEntry)) i : (length (concat (take i qs)) ≤ length (concat qs))%nat.
Proof. rewrite <- (take_drop i qs) at 2. rewrite concat_app, length_app. lia. Qed.

Lemma in_flight_grow hist hist' k0 qs i :
  hist `prefix_of` hist' → (fetched_upto k0 qs ≤ length hist)%nat →
  in_flight hist' k0 qs i = in_flight hist k0 qs i.
Proof.
  intros Hh Hl. unfold in_flight. destruct (qs !! i) as [got|]; [|done].
  rewrite (with_marker_grow hist hist'); [done|done|]. pose proof (concat_take_le qs i). unfold fetched_upto in *. lia.
Qed.

Lemma queue_grow R p hist hist' k0 qs :
  queue_inv R p hist k0 qs → hist `prefix_of` hist' → queue_inv R p hist' k0 qs.
Proof.
  intros Hq Hh. pose proof (queue_len _ _ _ _ _ Hq) as Hl. pose proof (prefix_length _ _ Hh) as Hlh.
  destruct Hq. split; try done.
  - lia.
  - etrans; [done|]. destruct Hh as [more ->]. rewrite drop_app_le by lia. by eexists.
  - intros i Hi. rewrite (in_flight_grow hist hist') by done. by apply qi_bufs0.
  - by rewrite (prefix_take hist hist').
  - destruct (f_pc p) as [|r1]; [done|]. destruct qi_fetch0 as (H2 & hist0 & k & Hp & Hrest).
    split; [done|]. exists hist0, k. split; [by etrans|done].
Qed.

(** The buffer of the next fetch. *)
Lemma fetch_slot R p hist k0 qs :
  queue_inv R p hist k0 qs →
  ∃ buf, buffers_ p !! (fetch_round p mod 2) = Some buf ∧
    ((length qs < 2)%nat ∧ buf = mkPipe [] true ∨ length qs = 2%nat ∧ empty_ buf = false).
Proof.
  intros []. rewrite qi_round0. destruct (decide (length qs < 2)%nat) as [Hlt|Hge].
  - eexists. split; [by apply qi_bufs0|]. left. unfold in_flight. by rewrite (lookup_ge_None_2 qs (length qs)).
  - assert (length qs = 2%nat) as Hl by lia. pose proof (qi_bufs0 0%nat ltac:(lia)) as H0.
    rewrite Hl. change (Z.of_nat 2) with 2. rewrite mod2_two, <- (Z.add_0_r (store_round p)). eexists. split; [exact H0|].
    right. unfold in_flight. by destruct qs.
Qed.

(** The buffer of the next batch to be stored. *)
Lemma store_slot R p hist k0 qs :
  queue_inv R p hist k0 qs → buffers_ p !! (store_round p mod 2) = Some (in_flight hist k0 qs 0).
Proof. intros []. pose proof (qi_bufs0 0%nat ltac:(lia)) as H0. by rewrite Z.add_0_r in H0. Qed.

(** A batch is put into the queue. *)
Lemma queue_push R p hist k0 qs got s :
  queue_inv R p hist k0 qs → (length qs < 2)%nat → got `prefix_of` drop (fetched_upto k0 qs) hist → got ≠ [] →
  total_size hist < 2 ^ 64 →
  queue_inv R (mkPipeline (<[fetch_round p mod 2 := mkPipe (with_marker hist (fetched_upto k0 qs) got) false]> (buffers_ p))
    (u64 (fetch_round p + 1)) (u64 (fetch_begin p + total_size got)) (store_round p) FIdle s) hist k0 (qs ++ [got]).
Proof.
  intros Hq H2 [rest Hp] Hne H64. pose proof (queue_len _ _ _ _ _ Hq) as Hlq. destruct Hq.
  assert (concat (qs ++ [got]) = concat qs ++ got) as Hc by (rewrite concat_app; simpl; by rewrite app_nil_r).
  split; simpl; try done.
  - rewrite Hc. destruct qi_qs0 as [r Hr]. exists rest. rewrite Hr, <- app_assoc. f_equal.
    rewrite <- Hp. unfold fetched_upto. rewrite <- drop_drop, Hr. by rewrite drop_app_length.
  - apply Forall_app_2; [done|by constructor].
  - rewrite length_app. simpl. lia.
  - intros i Hi. rewrite qi_round0. destruct (decide (i = length qs)) as [->|Hne'].
    + rewrite lookup_insert_eq. unfold in_flight. rewrite lookup_app_r, Nat.sub_diag by done. simpl.
      by rewrite take_app_length.
    + rewrite lookup_insert_ne, qi_bufs0 by (done || (destruct i as [|[|]], qs as [|? [|]]; simpl in *; try lia;
        change (Z.of_nat 1) with 1; change (Z.of_nat 0) with 0; rewrite Z.add_0_r;
        first [apply mod2_next | apply not_eq_sym, mod2_next])).
      f_equal. unfold in_flight. destruct (decide (i < length qs)%nat).
      * rewrite lookup_app_l, take_app_le by lia. done.
      * rewrite !lookup_ge_None_2; [done|..]; rewrite ?length_app; simpl; lia.
  - rewrite u64_mod2, length_app. cbn [length]. rewrite Zplus_mod, qi_round0, <- Zplus_mod. f_equal. lia.
  - rewrite qi_begin0. unfold fetched_upto in *. rewrite Hc, length_app.
    assert (total_size (take (k0 + length (concat qs)) hist) + total_size got =
      total_size (take (k0 + (length (concat qs) + length got)) hist)) as Heq.
    { rewrite (total_size_take_drop (k0 + length (concat qs)) (k0 + (length (concat qs) + length got))) by lia.
      f_equal. rewrite Hp. rewrite take_app_length'; [done|lia]. }
    rewrite <- Heq. apply u64_small.
    pose proof (total_size_split (k0 + (length (concat qs) + length got)) hist).
    pose proof (total_size_nonneg (drop (k0 + (length (concat qs) + length got)) hist)).
    pose proof (total_size_nonneg (take (k0 + (length (concat qs) + length got)) hist)). lia.
Qed.

(** The first batch of the queue is done. *)
Lemma queue_pop R p hist k0 got qs :
  queue_inv R p hist k0 (got :: qs) →
  queue_inv R (mkPipeline (<[store_round p mod 2 := mkPipe [] true]> (buffers_ p)) (fetch_round p) (fetch_begin p)
    (u64 (store_round p + 1)) (f_pc p) SIdle) hist (k0 + length got) qs.
Proof.
  intros Hq. pose proof (queue_len _ _ _ _ _ Hq) as Hlq. destruct Hq. unfold fetched_upto in *.
  simpl in Hlq, qi_two0. rewrite length_app in Hlq.
  assert (∀ n, (k0 + length got + n = k0 + (length got + n))%nat) as Hadd by lia.
  split; simpl; try done.
  - lia.
  - destruct qi_qs0 as [r Hr]. simpl in Hr. exists r. rewrite <- drop_drop, Hr, <- app_assoc. by rewrite drop_app_length.
  - by inversion qi_ne0.
  - lia.
  - intros [|[|i]] Hi; [..|lia].
    + rewrite Z.add_0_r, u64_mod2, lookup_insert_ne by (apply not_eq_sym, mod2_next).
      change (store_round p + 1) with (store_round p + Z.of_nat 1). rewrite qi_bufs0 by lia. f_equal. unfold in_flight. simpl.
      destruct (qs !! 0%nat); [|done]. rewrite app_nil_r. by rewrite Nat.add_0_r.
    + rewrite Zplus_mod, u64_mod2, <- Zplus_mod.
      replace (store_round p + 1 + Z.of_nat 1) with (store_round p + 2) by lia. rewrite mod2_two, lookup_insert_eq.
      unfold in_flight. by rewrite lookup_ge_None_2 by lia.
  - rewrite qi_round0, (Zplus_mod (u64 _)), u64_mod2, <- Zplus_mod. f_equal. simpl. lia.
  - rewrite qi_begin0. unfold fetched_upto. simpl. by rewrite length_app, Hadd.
  - destruct (f_pc p) as [|r1]; [done|]. destruct qi_fetch0 as [H2 Hs]. split; [simpl in H2; lia|].
    unfold fetched_upto. simpl in Hs. rewrite length_app in Hs. by rewrite Hadd.
Qed.

(** How many entries will be published next, and how many are stored. *)
Definition next_upto (k0 : nat) (qs : list (list LogEntry)) : nat := (k0 + length (hd [] qs))%nat.
Definition stored_upto (pc : store_pc) (k0 : nat) (qs : list (list LogEntry)) : nat :=
  match pc with SIdle => k0 | _ => next_upto k0 qs end.

Lemma next_le_fetched k0 qs : (next_upto k0 qs ≤ fetched_upto k0 qs)%nat.
Proof. unfold next_upto, fetched_upto. destruct qs; simpl; rewrite ?length_app; lia. Qed.

Lemma stored_le_next pc k0 qs : (k0 ≤ stored_upto pc k0 qs ≤ next_upto k0 qs)%nat.
Proof. unfold stored_upto, next_upto. destruct pc; lia. Qed.

(** ** The whole pipeline *)

Section Pipe.
Context `{Posix, Erpc, Rdma} (M : Z) (clients : list Z) (pri : string).
Context (HM : M ≤ SAFE_RG_SIZE + 4) (Hclients : lenZ clients < 2 ^ 32).
Context (u n : nat) (cap : Z) (Hdims : dims M u n cap).
Context (Hcreate : ∀ p, may_create p = true) (Hwrite : ∀ j, write_len j = j).
Context (R : Z).

(** The garbage collection's place in the local region lies after what a fetch writes,
    which leaves out the 64 pages that [waitForPlace] keeps free. *)
Definition after_fetch (o : Z) : Prop := 16 ≤ o ∧ R - 2 ^ 18 ≤ o.
Definition sized (d : string) (l : Link) : Prop :=
  d = pri → rg_size_ (l_svr l) = R ∧ after_fetch (mr_offset_for_gc_ (l_cli l)).

Definition store_phase (pc : store_pc) (kt m : nat) (d : string) (l : Link) (g : Ghost) : Prop :=
  match pc with SWaiting _ => waiting_soon pri kt m d l g | _ => idle d l g end.

(** The first [k0] entries are published, the batches of [qs] are in the buffers; the
    polls of the store thread end within [m]. *)
Record pipe_inv (m : nat) (cl : ConsensusLog) (p : Pipeline) (gs : list Ghost) (ip : nat)
    (hist : list LogEntry) (k0 : nat) (qs : list (list LogEntry)) : Prop := {
  pv_pri : pri_dur_uri cl = pri;
  pv_keys : NoDup (dur_cli_ cl).*1;
  pv_at : (dur_cli_ cl).*1 !! ip = Some pri;
  pv_links : links_inv M clients pri
    (λ d l g, store_phase (s_pc p) (next_upto k0 qs) m d l g ∧ sized d l) (dur_cli_ cl) gs;
  pv_ghost : ∃ k, gs !! ip = Some (hist, k) ∧
    match s_pc p with SWaiting _ => (k0 ≤ k ≤ next_upto k0 qs)%nat | _ => k = k0 end;
  pv_store : store_repr u n M cap (published k0) (backend_ cl) (take (stored_upto (s_pc p) k0 qs) hist);
  pv_max : 0 ≤ max_fetch_size_ cl < 2 ^ 32;
  pv_queue : queue_inv R p hist k0 qs;
  pv_busy : match s_pc p with
            | SIdle => True
            | SAppended => qs ≠ []
            | SWaiting last => qs ≠ [] ∧ last = Z.of_nat (next_upto k0 qs) - 1
            end
}.

(** The primary. *)
Lemma pipe_primary m cl p gs ip hist k0 qs :
  pipe_inv m cl p gs ip hist k0 qs →
  ∃ l k, dur_cli_ cl !! ip = Some (pri, l) ∧ gs !! ip = Some (hist, k) ∧
    link_inv M clients pri pri l (hist, k) ∧ rg_size_ (l_svr l) = R ∧ after_fetch (mr_offset_for_gc_ (l_cli l)) ∧
    store_phase (s_pc p) (next_upto k0 qs) m pri l (hist, k) ∧ (k0 ≤ k ≤ fetched_upto k0 qs)%nat.
Proof.
  intros Hi. destruct (primary_link pri _ _ (pv_at _ _ _ _ _ _ _ _ Hi)) as [l Hip].
  destruct (pv_ghost _ _ _ _ _ _ _ _ Hi) as (k & Hg & Hk).
  destruct (Forall2_lookup_lr _ _ _ _ _ _ (pv_links _ _ _ _ _ _ _ _ Hi) Hip Hg) as [Hl [Hph Hsz]].
  destruct (Hsz eq_refl) as [HR Ho]. simpl in *. exists l, k. pose proof (next_le_fetched k0 qs).
  split_and!; try done; destruct (s_pc p); unfold fetched_upto in *; lia.
Qed.

(** Every replica has received an entry. *)
Definition live (gs : list Ghost) : Prop := Forall (λ h, h ≠ []) gs.*1.

Lemma live_started P (ls : Links) gs : links_inv M clients pri P ls gs → live gs → backups_started pri ls gs.
Proof.
  clear HM Hclients. intros Hinv Hl. apply Forall2_same_length_lookup. split; [by eapply Forall2_length|].
  intros i dl g _ Hg _. apply (Forall_lookup_1 _ _ i _ Hl). by rewrite list_lookup_fmap, Hg.
Qed.

Lemma pipe_live m cl p gs ip hist k0 qs :
  pipe_inv m cl p gs ip hist k0 qs → started cl → hist ≠ [] → live gs.
Proof.
  intros Hi Hst Hne.
  pose proof (started_links M clients pri _ _ _ (pv_links _ _ _ _ _ _ _ _ Hi) (pv_pri _ _ _ _ _ _ _ _ Hi) Hst) as Hb.
  apply Forall_lookup. intros i h Hh. rewrite list_lookup_fmap in Hh. destruct (gs !! i) as [g|] eqn:Hg; [|done].
  injection Hh as <-. destruct (Forall2_lookup_r _ _ _ _ _ Hb Hg) as ([d l] & Hd & Hgi). simpl in Hgi.
  destruct (decide (d = pri)) as [->|Hdp]; [|by apply Hgi].
  destruct (pv_ghost _ _ _ _ _ _ _ _ Hi) as (k & Hgp & _).
  assert (i = ip) as ->; [|by simplify_eq].
  eapply (NoDup_lookup (dur_cli_ cl).*1 i ip pri); [apply Hi| |apply Hi]. by rewrite list_lookup_fmap, Hd.
Qed.

Lemma store_phase_stable pc kt m :
  stable (λ d l g, store_phase pc kt m d l g ∧ sized d l).
Proof.
  intros d l st hist k e Hcfg [Hph Hsz]. split.
  - destruct pc; [by apply idle_stable|by apply idle_stable|by apply waiting_soon_stable].
  - intros Hd. destruct (Hsz Hd) as [HR Ho]. destruct Hcfg as (_ & _ & _ & Hrg & _). simpl. by rewrite Hrg.
Qed.

(** *** Appends and reads *)

Lemma pipe_append_ok m cl p gs ip hist k0 qs reqs n' :
  pipe_inv m cl p gs ip hist k0 qs → Forall (λ r, message_ok M clients r.2) reqs → budget (length reqs + n') gs →
  ∃ ls gs' hist', serve reqs (dur_cli_ cl) = Ok ls ∧ pipe_inv m (with_links cl ls) p gs' ip hist' k0 qs ∧
    hist `prefix_of` hist' ∧ budget n' gs'.
Proof.
  intros Hi Hmsg Hb. pose proof (queue_len _ _ _ _ _ (pv_queue _ _ _ _ _ _ _ _ Hi)) as Hlen.
  destruct (links_serve_ok M clients pri HM _ reqs (dur_cli_ cl) gs (store_phase_stable _ _ _)
    (pv_links _ _ _ _ _ _ _ _ Hi) Hmsg) as (ls & gs' & Hserve & Hinv & Hk & Hgr & Hb').
  { eapply budget_weaken; [|exact Hb]. lia. }
  destruct (pv_ghost _ _ _ _ _ _ _ _ Hi) as (k & Hg & Hkk).
  destruct (Forall2_lookup_l _ _ _ _ _ Hgr Hg) as ([h' k'] & Hg' & Hh & Hk'). simpl in Hh, Hk'. subst k'.
  exists ls, gs', h'. split; [done|]. split; [|split; [done|by apply Hb']].
  pose proof (stored_le_next (s_pc p) k0 qs). pose proof (next_le_fetched k0 qs).
  destruct Hi. split; simpl; try done; rewrite ?Hk; try done.
  - by exists k.
  - by rewrite (prefix_take hist h') by (done || lia).
  - by eapply queue_grow.
Qed.

Lemma pipe_read_ok m cl p gs ip hist k0 qs slow i e0 :
  pipe_inv m cl p gs ip hist k0 qs → Z.of_nat i < 2 ^ 64 →
  match take (stored_upto (s_pc p) k0 qs) hist !! i with
  | Some e => (∃ be, be_ReadEntry (backend_ cl) slow (Z.of_nat i) e0 = Ok (be, true, e) ∧
                 pipe_inv m (with_backend cl be) p gs ip hist k0 qs) ∨
              ((k0 ≤ i)%nat ∧ be_ReadEntry (backend_ cl) slow (Z.of_nat i) e0 = Blocked)
  | None => be_ReadEntry (backend_ cl) slow (Z.of_nat i) e0 = Blocked
  end.
Proof.
  intros Hi Hi64. destruct (pipe_primary _ _ _ _ _ _ _ _ Hi) as (l & k & _ & _ & Hl & _).
  pose proof (li_replica _ _ _ _ _ _ Hl) as Hr. simpl in Hr. set (ks := stored_upto _ _ _).
  assert (numbered (take ks hist) ∧ small_entries M (take ks hist)) as [Hnum Hsm].
  { split; [|apply Forall_take, Hr]. intros j e [He _]%lookup_take_Some. by apply (fr_entry _ _ _ (rp_flat _ _ _ _ Hr)). }
  pose proof (be_ReadEntry_ok u n M cap (backend_ cl) (take ks hist) (published k0) slow i e0
    (pv_store _ _ _ _ _ _ _ _ Hi) (dm_cap8 _ _ _ _ Hdims) Hnum Hsm Hi64) as Hrd.
  destruct (take ks hist !! i) as [e|] eqn:He; [|done].
  destruct (Z.leb_spec (Z.of_nat i) (published k0)) as [Hle|Hgt].
  - destruct Hrd as (be & -> & Hst). left. exists be. split; [done|]. destruct Hi. by split.
  - right. split; [|done]. unfold published in Hgt. lia.
Qed.

(** *** The fetch thread *)

Lemma fetch_range_ok m cl p gs ip hist k0 qs :
  pipe_inv m cl p gs ip hist k0 qs →
  match fetch_range cl p with
  | Ok (cl', p') => cl' = cl ∧ (∃ r1, f_pc p' = FRead r1 ∧ get_word r1 R 0 = total_size hist) ∧ s_pc p' = s_pc p ∧
      pipe_inv m cl p' gs ip hist k0 qs
  | Blocked => f_pc p ≠ FIdle ∨ length qs = 2%nat
  | Fault => False
  end.
Proof.
  intros Hi. pose proof (pv_queue _ _ _ _ _ _ _ _ Hi) as Hq. unfold fetch_range.
  destruct (f_pc p) eqn:Hf; [|by left].
  destruct (pipe_primary _ _ _ _ _ _ _ _ Hi) as (l & k & Hip & Hg & Hl & HR & Ho & _ & Hk).
  pose proof (queue_len _ _ _ _ _ Hq) as Hlen. pose proof (li_replica _ _ _ _ _ _ Hl) as Hr. simpl in Hr.
  destruct (link_at_idx _ _ _ _ (pv_keys _ _ _ _ _ _ _ _ Hi) Hip) as [Hat _].
  destruct (fetch_slot _ _ _ _ _ Hq) as (buf & -> & [[H2 ->]|[H2 He]]); cbn [lift mbind outcome_bind]; cycle 1.
  { rewrite He. by right. }
  simpl. rewrite (pv_pri _ _ _ _ _ _ _ _ Hi), Hat. simpl. split; [done|].
  split; [eexists; split; [done|rewrite <- HR; apply (rp_flat _ _ _ _ Hr)]|]. split; [done|].
  destruct Hi. split; try done. destruct Hq. split; try done. simpl. split; [done|].
  exists hist, k. pose proof (rp_room _ _ _ _ Hr). pose proof (rp_flat _ _ _ _ Hr) as []. unfold sequencer_, ordered_watermk_ in *. rewrite HR in *.
  split_and!; try done; lia.
Qed.

(** What a fetch does to the connection leaves the garbage collection alone. *)
Lemma store_phase_cli pc kt m l g c :
  after_fetch (mr_offset_for_gc_ (l_cli l)) → same_cli (l_cli l) c →
  frame (mr_ (l_cli l)) (mr_ c) 0 (Z.max 16 (R - 2 ^ 18)) →
  store_phase pc kt m pri l g → store_phase pc kt m pri (with_cli l c) g.
Proof.
  intros [Ho1 Ho2] (Hc1 & Hc2 & Hc3) Hfr. destruct pc; [done|done|]. intros [Hw Hs]. split; [|done].
  unfold waiting in *. simpl. destruct (l_flight l) as [[delay [|bs]]|].
  - destruct Hw as (Hd & Ht & Hk & [Hs1 Hs2]). split_and!; try done; try apply Hk.
    unfold staged. rewrite Hc3. split; erewrite frame_peek; try done; lia.
  - by rewrite Hc1.
  - unfold completed, link_IsPrimary in *. simpl. by rewrite Hc1.
Qed.

(** Which batch a fetch returns, given the log at its first RDMA read. *)
Lemma fetch_snapshot c st hist k kf r1 max :
  replica M st hist k → (k ≤ kf)%nat → rg_size_ st = R → R ≤ bcap (mr_ c) → 0 ≤ max < 2 ^ 32 →
  snapshot R r1 hist kf →
  ∃ got c', FetchUnorderedEntries_from c r1 (mem_rg_raw_ st) [] (total_size (take kf hist)) max =
      Some (c', with_marker hist kf got, total_size got) ∧
    got `prefix_of` drop kf hist ∧ same_cli c c' ∧ frame (mr_ c) (mr_ c') 0 (Z.max 16 (R - 2 ^ 18)) ∧
    (get_word r1 R 0 = total_size hist → got = fetched hist kf max).
Proof.
  intros Hr Hk HR Hmr Hmax (hist0 & k1 & [more ->] & Hk1 & Hcap & Hw0 & Hw1 & Hroom).
  pose proof (replica_total M HM _ _ _ Hr) as Htot. rewrite total_size_app in Htot.
  pose proof (total_size_nonneg more) as Hmore.
  pose proof (rp_flat _ _ _ _ Hr) as Hf. pose proof (rp_rg _ _ _ _ Hr) as Hrg. pose proof (fr_cap _ _ _ Hf) as Hcap2.
  rewrite HR in *. set (w := window (total_size (drop kf hist0)) max).
  assert (0 ≤ w ≤ total_size (drop kf hist0)) as Hw.
  { pose proof (total_size_nonneg (drop kf hist0)). unfold w, window. case_zb; lia. }
  assert (total_size (drop kf hist0) ≤ total_size (drop k1 hist0)) as Hd.
  { pose proof (total_size_split k1 hist0). pose proof (total_size_split kf hist0).
    pose proof (total_size_mono k1 kf hist0 ltac:(lia)). lia. }
  destruct (Fetch_gen c r1 (mem_rg_raw_ st) R hist0 k1 kf [] max (fetched hist0 kf max)) as (c' & Hfetch & Hc & Hfr);
    rewrite ?(Nat.max_r k1 kf) by lia; try done; try lia.
  - unfold fetched. fold w. apply take_fit_size. lia.
  - intros mr Hn Hm. apply (fetch_deserialize hist0 more k kf _ (with_mr c mr) st); try done; [lia|]. by rewrite HR.
  - rewrite Nat.max_r in Hfetch by lia. exists (fetched hist0 kf max), c'.
    rewrite (take_app_le hist0) by lia.
    rewrite (with_marker_grow hist0 (hist0 ++ more)) by (lia || (by eexists)).
    split; [done|]. split; [|split; [done|split]].
    + rewrite drop_app_le by lia. etrans; [apply fetched_prefix|by eexists].
    + eapply frame_weaken; [| |exact Hfr]; rewrite ?Nat.max_r by lia; lia.
    + rewrite Hw0, total_size_app. intros Heq. rewrite (total_size_zero more) by lia. by rewrite app_nil_r.
Qed.

Lemma pipe_set_cli m cl p gs ip hist k0 qs l c :
  pipe_inv m cl p gs ip hist k0 qs → dur_cli_ cl !! ip = Some (pri, l) → same_cli (l_cli l) c →
  frame (mr_ (l_cli l)) (mr_ c) 0 (Z.max 16 (R - 2 ^ 18)) →
  pipe_inv m (with_links cl (<[ip := (pri, with_cli l c)]> (dur_cli_ cl))) p gs ip hist k0 qs.
Proof.
  intros Hi Hip Hc Hfr. destruct (pipe_primary _ _ _ _ _ _ _ _ Hi) as (l' & k & Hip' & Hg & Hl & HR & Ho & Hph & _).
  rewrite Hip in Hip'. injection Hip' as <-. pose proof Hc as (Hc1 & Hc2 & Hc3).
  pose proof (insert_keys _ _ _ _ (with_cli l c) Hip) as Hk.
  destruct Hi. split; simpl; rewrite ?Hk; try done.
  - rewrite <- (list_insert_id gs ip (hist, k)) by done. apply Forall2_insert; [done|]. split.
    + destruct Hl. split; try done; unfold link_IsPrimary in *; simpl; rewrite ?Hc1, ?Hc2, ?Hc3; done.
    + split; [by apply store_phase_cli|]. intros _. simpl. by rewrite Hc3.
Qed.

Lemma pipe_set_queue m cl p p' gs ip hist k0 qs qs' :
  pipe_inv m cl p gs ip hist k0 qs → s_pc p' = s_pc p → queue_inv R p' hist k0 (qs ++ qs') →
  (qs = [] → s_pc p = SIdle) → pipe_inv m cl p' gs ip hist k0 (qs ++ qs').
Proof.
  intros Hi Hs Hq Hb. assert (s_pc p = SIdle ∨ next_upto k0 (qs ++ qs') = next_upto k0 qs) as Hn.
  { destruct qs; [left; by apply Hb|by right]. }
  destruct Hi. split; try done; rewrite Hs.
  - destruct Hn as [Hn| ->]; [|done]. by rewrite Hn in *.
  - destruct Hn as [Hn| ->]; [|done]. by rewrite Hn in *.
  - unfold stored_upto in *. destruct Hn as [Hn| ->]; [|done]. by rewrite Hn in *.
  - destruct Hn as [Hn| ->]; [by rewrite Hn|]. destruct qs as [|q qs1]; [by rewrite (Hb eq_refl)|].
    destruct (s_pc p); try done. split; [done|apply pv_busy0].
Qed.

Lemma fetch_entries_ok m cl p gs ip hist k0 qs :
  pipe_inv m cl p gs ip hist k0 qs →
  match fetch_entries cl p with
  | Ok (cl', p') => f_pc p' = FIdle ∧ s_pc p' = s_pc p ∧ max_fetch_size_ cl' = max_fetch_size_ cl ∧
      ∃ got, pipe_inv m cl' p' gs ip hist k0 (qs ++ match got with [] => [] | _ => [got] end) ∧
        ∀ r1, f_pc p = FRead r1 → get_word r1 R 0 = total_size hist →
          got = fetched hist (fetched_upto k0 qs) (max_fetch_size_ cl)
  | Blocked => f_pc p = FIdle
  | Fault => False
  end.
Proof.
  intros Hi. pose proof (pv_queue _ _ _ _ _ _ _ _ Hi) as Hq. unfold fetch_entries.
  destruct (f_pc p) as [|r1] eqn:Hf; [done|]. pose proof (qi_fetch _ _ _ _ _ Hq) as Hsn. rewrite Hf in Hsn.
  destruct Hsn as [H2 Hsn].
  destruct (pipe_primary _ _ _ _ _ _ _ _ Hi) as (l & k & Hip & Hg & Hl & HR & Ho & Hph & Hk).
  pose proof (queue_len _ _ _ _ _ Hq) as Hlen. pose proof (li_replica _ _ _ _ _ _ Hl) as Hr. simpl in Hr.
  destruct (link_at_idx _ _ _ _ (pv_keys _ _ _ _ _ _ _ _ Hi) Hip) as [Hat Hset].
  destruct (li_primary _ _ _ _ _ _ Hl eq_refl) as (Hmr & Ho1 & Ho2). rewrite HR in Hmr.
  destruct (fetch_slot _ _ _ _ _ Hq) as (buf & -> & [[_ ->]|[? _]]); [|lia]. cbn [lift mbind outcome_bind].
  rewrite (pv_pri _ _ _ _ _ _ _ _ Hi), Hat. cbn [lift mbind outcome_bind entries_buf_].
  destruct (fetch_snapshot (l_cli l) (l_svr l) hist k (fetched_upto k0 qs) r1 (max_fetch_size_ cl))
    as (got & c & Hfetch & Hpre & Hc & Hfr & Hgot0); try done; [lia|apply Hi|].
  rewrite (qi_begin _ _ _ _ _ Hq), Hfetch. cbn [lift mbind outcome_bind]. rewrite Hset.
  pose proof (pipe_set_cli _ _ _ _ _ _ _ _ _ _ Hi Hip Hc Hfr) as Hi'.
  assert (qs = [] → s_pc p = SIdle) as Hb.
  { intros ->. pose proof (pv_busy _ _ _ _ _ _ _ _ Hi) as Hb. by destruct (s_pc p) as [| |]; [|..|destruct Hb]. }
  assert (∀ r, FRead r1 = FRead r → get_word r R 0 = total_size hist →
    got = fetched hist (fetched_upto k0 qs) (max_fetch_size_ cl)) as Hgot by (by intros r [= <-]).
  destruct (Z.eqb_spec (total_size got) 0) as [Hz|Hz].
  - apply total_size_zero in Hz. split_and!; try done. exists got. subst got. split; [|done].
    eapply pipe_set_queue; [exact Hi'|done| |done]. rewrite app_nil_r. destruct Hq. split; try done. simpl.
    intros i Hlt. rewrite insert_id; [by apply qi_bufs0|]. rewrite qi_round0, qi_bufs0 by done.
    unfold in_flight. by rewrite lookup_ge_None_2.
  - split_and!; try done. exists got. split; [|done]. destruct got as [|e got]; [done|].
    assert (∀ cl0, pipe_inv m cl0 p gs ip hist k0 qs → pipe_inv m (count_batch cl0 (with_marker hist (fetched_upto k0 qs) (e :: got))) p gs ip hist k0 qs) as Hcnt by (by intros cl0 []; split).
    eapply pipe_set_queue; [by apply Hcnt|done| |done]. rewrite <- (qi_begin _ _ _ _ _ Hq).
    apply queue_push; try done. pose proof (replica_total M HM _ _ _ Hr). lia.
Qed.

(** *** The store thread *)

Lemma first_batch m cl p gs ip hist k0 got qs :
  pipe_inv m cl p gs ip hist k0 (got :: qs) →
  got ≠ [] ∧ got `prefix_of` drop k0 hist ∧
  buffers_ p !! (store_round p mod 2) = Some (mkPipe (with_marker hist k0 got) false) ∧
  take k0 hist ++ got = take (k0 + length got) hist ∧ (k0 + length got ≤ length hist)%nat.
Proof.
  intros Hi. pose proof (pv_queue _ _ _ _ _ _ _ _ Hi) as Hq. pose proof (qi_ne _ _ _ _ _ Hq) as Hne.
  pose proof (store_slot _ _ _ _ _ Hq) as Hslot. pose proof (queue_len _ _ _ _ _ Hq) as Hlen.
  destruct (qi_qs _ _ _ _ _ Hq) as [rest Hp]. apply Forall_cons in Hne as [Hne _]. simpl in Hp.
  rewrite <- app_assoc in Hp. unfold in_flight in Hslot. simpl in Hslot. rewrite Nat.add_0_r in Hslot.
  unfold fetched_upto in Hlen. simpl in Hlen. rewrite length_app in Hlen.
  split_and!; try done; [by eexists| |lia]. rewrite <- take_take_drop, Hp. by rewrite take_app_length.
Qed.

Lemma store_append_ok m cl p gs ip hist k0 qs run :
  pipe_inv m cl p gs ip hist k0 qs →
  match store_append run cl p with
  | Ok (cl', p') => cl' = cl ∧ p' = p ∨
      s_pc p' = SAppended ∧ f_pc p' = f_pc p ∧ max_fetch_size_ cl' = max_fetch_size_ cl ∧
      pipe_inv m cl' p' gs ip hist k0 qs
  | Blocked => s_pc p ≠ SIdle ∨ qs = []
  | Fault => False
  end.
Proof.
  intros Hi. unfold store_append. destruct (s_pc p) eqn:Hs; [|by left..].
  destruct (pipe_primary _ _ _ _ _ _ _ _ Hi) as (l & k & Hip & Hg & Hl & _).
  destruct (pv_ghost _ _ _ _ _ _ _ _ Hi) as (k' & Hg' & Hk). rewrite Hs in Hk. subst k'. assert (k = k0) as -> by congruence.
  pose proof (li_replica _ _ _ _ _ _ Hl) as Hr. simpl in Hr. destruct qs as [|got qs].
  { rewrite (store_slot _ _ _ _ _ (pv_queue _ _ _ _ _ _ _ _ Hi)). simpl. destruct run; [by right|by left]. }
  destruct (first_batch _ _ _ _ _ _ _ _ _ Hi) as (Hne & Hpre & -> & Htake & Hle). cbn [lift mbind outcome_bind empty_].
  destruct (prefix_new M u n cap _ _ _ k0 got Hdims Hr ltac:(done) Hpre Hne) as (Hnew & _ & _).
  pose proof (replica_total M HM _ _ _ Hr) as Htot. pose proof (total_size_split (k0 + length got) hist) as Hsp.
  pose proof (total_size_nonneg (drop (k0 + length got) hist)). rewrite <- Htake, total_size_app in Hsp.
  pose proof (total_size_nonneg (take k0 hist)). pose proof (total_size_nonneg got).
  destruct (marker_tail hist k0 got Hne) as (tail & Hmk & Htail); [lia|].
  pose proof (pv_store _ _ _ _ _ _ _ _ Hi) as Hst. rewrite Hs in Hst. simpl in Hst.
  destruct (AppendBatch_ok u n M cap Hcreate Hwrite (backend_ cl) (take k0 hist) got tail _ Hst Hnew Htail)
    as (be & Happ & Hst'). cbn [entries_buf_]. rewrite Hmk, Happ. cbn [mbind outcome_bind]. right.
  split; [done|]. split; [done|]. split; [done|]. destruct Hi. rewrite Hs in *. split; try done.
  - simpl. unfold next_upto. simpl. by rewrite <- Htake.
  - by destruct pv_queue0.
Qed.

Lemma sized_kept P (ls ls' : Links) gs gs' Q :
  links_inv M clients pri (λ d l g, Q d l g ∧ sized d l) ls gs → ls'.*1 = ls.*1 → Forall2 kept ls.*2 ls'.*2 →
  links_inv M clients pri P ls' gs' → links_inv M clients pri (λ d l g, P d l g ∧ sized d l) ls' gs'.
Proof.
  intros Hinv Hk Hkept Hinv'. apply Forall2_same_length_lookup. split; [by eapply Forall2_length|].
  intros i [d l'] g' Hi Hg'. destruct (Forall2_lookup_lr _ _ _ _ _ _ Hinv' Hi Hg') as [Hl' HP].
  split; [done|]. split; [done|]. simpl in *.
  assert (ls'.*2 !! i = Some l') as Hi2 by (by rewrite list_lookup_fmap, Hi).
  destruct (Forall2_lookup_r _ _ _ _ _ Hkept Hi2) as (l & Hl & Hrg & Ho).
  assert (ls.*1 !! i = Some d) as Hd by (by rewrite <- Hk, list_lookup_fmap, Hi).
  rewrite list_lookup_fmap in Hl. rewrite list_lookup_fmap in Hd. destruct (ls !! i) as [[d0 l0]|] eqn:Hls; [|done]. simplify_eq/=.
  destruct (Forall2_lookup_l _ _ _ _ _ Hinv Hls) as (g & _ & _ & _ & Hsz). simpl in Hsz.
  intros Hd. rewrite Hrg, Ho. by apply Hsz.
Qed.

Lemma store_delete_ok m m' cl p gs ip hist k0 qs delay :
  pipe_inv m cl p gs ip hist k0 qs → Forall (λ d, delay d ≤ m')%nat (dur_cli_ cl).*1 →
  match store_delete delay cl p with
  | Ok (cl', p') => (∃ last, s_pc p' = SWaiting last) ∧ f_pc p' = f_pc p ∧
      max_fetch_size_ cl' = max_fetch_size_ cl ∧ pipe_inv m' cl' p' gs ip hist k0 qs
  | Blocked => s_pc p ≠ SAppended
  | Fault => False
  end.
Proof.
  intros Hi Hdelay. unfold store_delete. destruct (s_pc p) eqn:Hs; [done| |done].
  destruct (pipe_primary _ _ _ _ _ _ _ _ Hi) as (l & k & Hip & Hg & Hl & _).
  destruct (pv_ghost _ _ _ _ _ _ _ _ Hi) as (k' & Hg' & Hk). rewrite Hs in Hk. subst k'. assert (k = k0) as -> by congruence.
  pose proof (li_replica _ _ _ _ _ _ Hl) as Hr. simpl in Hr.
  pose proof (pv_busy _ _ _ _ _ _ _ _ Hi) as Hb. rewrite Hs in Hb. destruct qs as [|got qs]; [done|].
  destruct (first_batch _ _ _ _ _ _ _ _ _ Hi) as (Hne & Hpre & -> & Htake & Hle). cbn [lift mbind outcome_bind].
  pose proof (pv_links _ _ _ _ _ _ _ _ Hi) as Hinv. rewrite Hs in Hinv.
  assert (links_inv M clients pri (ready pri hist k0) (dur_cli_ cl) gs) as Hrd.
  { eapply links_inv_impl; [|eapply (start_ready M clients pri _ _ ip hist k0 l)]; try done; try apply Hi.
    - by intros d l' g _ [? _].
    - eapply links_inv_impl; [|exact Hinv]. by intros d l' g _ [? _]. }
  destruct (delete_all_ok M clients pri Hclients delay m' (with_marker hist k0 got) (l_svr l) hist k0 got (dur_cli_ cl) gs 0)
    as (ls & Hdel & Hk & Hinv' & Hkept); try done; [apply Hr|apply (li_clients _ _ _ _ _ _ Hl)|].
  cbn [entries_buf_]. rewrite Hdel. cbn [lift mbind outcome_bind].
  split; [by eexists|]. split; [done|]. split; [done|].
  destruct Hi. rewrite Hs in *. split; simpl; rewrite ?Hk; try done.
  - by eapply sized_kept.
  - exists k0. split; [done|]. unfold next_upto. lia.
  - by destruct pv_queue0.
  - split; [done|]. by destruct (dur_cli_ cl).
Qed.

Lemma waiting_bound kt m l g : waiting_soon pri kt m pri l g → (g.2 ≤ kt)%nat.
Proof.
  intros [Hw _]. unfold waiting in Hw. destruct (l_flight l) as [[delay [|bs]]|]; [lia|by destruct Hw|].
  destruct Hw as [_ ->]; done.
Qed.

Lemma store_poll_ok m cl p gs ip hist k0 qs :
  pipe_inv m cl p gs ip hist k0 qs →
  match store_poll cl p with
  | Ok (cl', p') => f_pc p' = f_pc p ∧ max_fetch_size_ cl' = max_fetch_size_ cl ∧
      ∃ gs', Forall2 evolved gs gs' ∧ gs'.*1 = gs.*1 ∧
        ((m = 0%nat → ¬ live gs) ∧ p' = p ∧
           pipe_inv (pred m) cl' p' gs' ip hist k0 qs ∨
         s_pc p' = SIdle ∧ pipe_inv (pred m) cl' p' gs' ip hist (next_upto k0 qs) (tail qs))
  | Blocked => match s_pc p with SWaiting _ => False | _ => True end
  | Fault => False
  end.
Proof.
  intros Hi. unfold store_poll. destruct (s_pc p) as [| |last] eqn:Hs; [done..|].
  pose proof (pv_busy _ _ _ _ _ _ _ _ Hi) as Hb. rewrite Hs in Hb. destruct Hb as [Hne ->].
  destruct qs as [|got qs]; [done|]. destruct (first_batch _ _ _ _ _ _ _ _ _ Hi) as (Hgot & Hpre & _ & Htake & Hle).
  pose proof (pv_links _ _ _ _ _ _ _ _ Hi) as Hinv. rewrite Hs in Hinv.
  destruct (allDeletionCompleted_ok M clients pri (next_upto k0 (got :: qs)) m (dur_cli_ cl) gs)
    as (ls & gs' & r & Hall & Hk & Hinv' & Hev & Hgs & Hr & Hkept & Hlast).
  { eapply links_inv_impl; [|exact Hinv]. by intros d l' g _ [? _]. }
  rewrite Hall. cbn [lift mbind outcome_bind].
  assert (∃ k, gs' !! ip = Some (hist, k) ∧ (k0 ≤ k ≤ next_upto k0 (got :: qs))%nat) as (k & Hg' & Hkb).
  { destruct (pipe_primary _ _ _ _ _ _ _ _ Hi) as (l & k & Hip & Hg & _ & _ & _ & _ & Hkk).
    destruct (Forall2_lookup_l _ _ _ _ _ Hev Hg) as ([h' k'] & Hg' & _ & Hle').
    assert (gs'.*1 !! ip = Some hist) as Hh by (by rewrite Hgs, list_lookup_fmap, Hg).
    rewrite list_lookup_fmap, Hg' in Hh. injection Hh as ->. exists k'. split; [done|]. simpl in Hle'.
    pose proof (pv_at _ _ _ _ _ _ _ _ Hi) as Hat. rewrite <- Hk in Hat. destruct (primary_link _ _ _ Hat) as [l' Hip'].
    destruct (Forall2_lookup_lr _ _ _ _ _ _ Hinv' Hip' Hg') as [_ Hw]. apply waiting_bound in Hw. simpl in Hw. lia. }
  pose proof (sized_kept _ _ _ _ _ _ Hinv Hk Hkept Hinv') as Hsz.
  destruct r; cbn [negb].
  - pose proof (waiting_done M clients pri _ _ _ _ Hinv' (proj1 Hr eq_refl)) as Hcol.
    pose proof (sized_kept _ _ _ _ _ _ Hinv Hk Hkept Hcol) as Hsz'.
    pose proof (pv_store _ _ _ _ _ _ _ _ Hi) as Hst. rewrite Hs in Hst.
    assert (length got ≠ 0%nat) as Hl0 by (by destruct got). unfold next_upto in *. cbn [hd] in *.
    destruct (pipe_primary _ _ _ _ _ _ _ _ Hi) as (l & k1 & _ & _ & Hl & _).
    pose proof (rp_len _ _ _ _ (li_replica _ _ _ _ _ _ Hl)) as Hlen. simpl in Hlen.
    destruct (UpdateGlobalIdx_ok u n M cap (backend_ cl) _ _ (Z.of_nat (k0 + length got) - 1) Hst (dm_cap8 _ _ _ _ Hdims))
      as (be & Hupd & Hst'); [lia|]. simpl. rewrite Hupd. cbn [lift mbind outcome_bind].
    split; [done|]. split; [done|]. exists gs'. split; [done|]. split; [done|]. right. split; [done|].
    destruct Hi. split; simpl; rewrite ?Hk; try done.
    + eapply links_inv_impl; [|exact Hsz']. by intros d l' g _ [[? _] ?].
    + exists k. split; [done|]. rewrite <- Hk in pv_at0. destruct (primary_link _ _ _ pv_at0) as [l' Hip'].
      destruct (Forall2_lookup_lr _ _ _ _ _ _ Hcol Hip' Hg') as [_ [_ Hkt]]. by apply Hkt.
    + unfold published. rewrite Z.max_r by lia. done.
    + by apply queue_pop.
  - split; [done|]. split; [done|]. exists gs'. split; [done|]. split; [done|]. left.
    split; [|split; [done|]].
    + intros Hm Hst. by specialize (Hlast Hm (live_started _ _ _ Hinv Hst)).
    + destruct Hi. rewrite Hs in *. split; simpl; rewrite ?Hk, ?Hs; try done. by exists k.
Qed.

(** ** Runs *)

Definition event_ok (ev : pevent) : Prop :=
  match ev with
  | PAppend reqs => Forall (λ r, message_ok M clients r.2) reqs
  | PRead _ idx _ => 0 ≤ idx < 2 ^ 64
  | _ => True
  end.

Definition event_appends (ev : pevent) : nat := match ev with PAppend reqs => length reqs | _ => 0 end.

Lemma pipe_weaken m m' cl p gs ip hist k0 qs :
  (m ≤ m')%nat → pipe_inv m cl p gs ip hist k0 qs → pipe_inv m' cl p gs ip hist k0 qs.
Proof.
  intros Hm []. split; try done. eapply links_inv_impl; [|exact pv_links0]. intros d l g _ [Hph Hsz]. split; [|done].
  destruct (s_pc p); try done. destruct Hph as [Hw Hs]. split; [done|]. by eapply soon_weaken.
Qed.

Lemma delay_bound (delay : string → nat) (ds : list string) : ∃ m, Forall (λ d, delay d ≤ m)%nat ds.
Proof.
  induction ds as [|d ds [m Hm]]; [by exists 0%nat|]. exists (delay d + m)%nat. constructor; [lia|].
  eapply List.Forall_impl; [|exact Hm]. simpl. intros; lia.
Qed.

(** A step goes wrong in no case. *)
Lemma pipe_step_ok m n' cl p gs ip hist k0 qs ev :
  pipe_inv m cl p gs ip hist k0 qs → event_ok ev → budget (event_appends ev + n') gs →
  match pipe_step ev cl p with
  | Ok (cl', p') => ∃ m' gs' hist' k0' qs', pipe_inv m' cl' p' gs' ip hist' k0' qs' ∧ budget n' gs' ∧
      hist `prefix_of` hist' ∧ max_fetch_size_ cl' = max_fetch_size_ cl ∧
      match ev with PAppend _ => True | _ => Forall2 evolved gs gs' ∧ gs'.*1 = gs.*1 end
  | Blocked => True
  | Fault => False
  end.
Proof.
  intros Hi Hev Hb. destruct ev as [reqs| | |run|delay| |slow idx e0]; simpl in *.
  - destruct (pipe_append_ok _ _ _ _ _ _ _ _ reqs n' Hi Hev Hb) as (ls & gs' & h' & -> & Hi' & Hh & Hb'). simpl.
    by exists m, gs', h', k0, qs.
  - pose proof (fetch_range_ok _ _ _ _ _ _ _ _ Hi) as Hok. destruct (fetch_range cl p) as [[cl' p']| |]; try done.
    destruct Hok as (-> & _ & _ & Hi'). by exists m, gs, hist, k0, qs.
  - pose proof (fetch_entries_ok _ _ _ _ _ _ _ _ Hi) as Hok. destruct (fetch_entries cl p) as [[cl' p']| |]; try done.
    destruct Hok as (_ & _ & Hmx & got & Hi' & _). by eexists m, gs, hist, k0, _.
  - pose proof (store_append_ok _ _ _ _ _ _ _ _ run Hi) as Hok.
    destruct (store_append run cl p) as [[cl' p']| |]; try done.
    destruct Hok as [[-> ->]|(_ & _ & Hmx & Hi')]; by exists m, gs, hist, k0, qs.
  - destruct (delay_bound delay (dur_cli_ cl).*1) as [m' Hm'].
    pose proof (store_delete_ok _ m' _ _ _ _ _ _ _ delay Hi Hm') as Hok.
    destruct (store_delete delay cl p) as [[cl' p']| |]; try done.
    destruct Hok as (_ & _ & Hmx & Hi'). by exists m', gs, hist, k0, qs.
  - pose proof (store_poll_ok m _ _ _ _ _ _ _ Hi) as Hok.
    destruct (store_poll cl p) as [[cl' p']| |]; try done.
    destruct Hok as (_ & Hmx & gs' & Hev' & Hgs & [(_ & _ & Hi')|[_ Hi']]); eexists _, gs', hist, _, _;
      (split; [exact Hi'|]; split; [by eapply budget_same|done]).
  - pose proof (pipe_read_ok _ _ _ _ _ _ _ _ slow (Z.to_nat idx) e0 Hi ltac:(lia)) as Hok.
    rewrite Z2Nat.id in Hok by lia. destruct (take _ hist !! Z.to_nat idx); [|by rewrite Hok].
    destruct Hok as [(be & -> & Hi')|[_ ->]]; [|done]. simpl. by exists m, gs, hist, k0, qs.
Qed.

Lemma pipe_run_ok evs m n' cl p gs ip hist k0 qs :
  pipe_inv m cl p gs ip hist k0 qs → Forall event_ok evs → budget (sum_list_with event_appends evs + n') gs →
  ∃ cl' p' m' gs' hist' k0' qs', pipe_run evs cl p = Ok (cl', p') ∧ pipe_inv m' cl' p' gs' ip hist' k0' qs' ∧
    budget n' gs' ∧ hist `prefix_of` hist' ∧ max_fetch_size_ cl' = max_fetch_size_ cl.
Proof.
  revert m cl p gs hist k0 qs. induction evs as [|ev evs IH]; intros m cl p gs hist k0 qs Hi Hev Hb; simpl.
  { by exists cl, p, m, gs, hist, k0, qs. }
  apply Forall_cons in Hev as [Hev Hevs]. simpl in Hb. rewrite <- Nat.add_assoc in Hb.
  pose proof (pipe_step_ok _ _ _ _ _ _ _ _ _ ev Hi Hev Hb) as Hok.
  destruct (pipe_step ev cl p) as [[cl1 p1]| |]; [| |done].
  - destruct Hok as (m1 & gs1 & h1 & k1 & qs1 & Hi1 & Hb1 & Hh1 & Hmx1 & _).
    destruct (IH _ _ _ _ _ _ _ Hi1 Hevs Hb1) as (cl' & p' & m' & gs' & h' & k' & qs' & Hrun & Hi' & Hb' & Hh' & Hmx').
    exists cl', p', m', gs', h', k', qs'. split; [done|]. split; [done|]. split; [done|]. split; [by etrans|congruence].
  - apply (IH m cl p gs hist k0 qs Hi Hevs). eapply budget_weaken; [|exact Hb]. lia.
Qed.

(** ** Draining the pipeline *)

(** Steps of the two threads lead from one state to the other. *)
Definition leads (s s' : ConsensusLog * Pipeline) : Prop :=
  ∃ evs, Forall (λ ev, event_appends ev = 0%nat ∧ event_ok ev) evs ∧ pipe_run evs s.1 s.2 = Ok s'.

Lemma leads_step ev s s' :
  event_appends ev = 0%nat → event_ok ev → pipe_step ev s.1 s.2 = Ok s' → leads s s'.
Proof.
  intros Ha He Hs. exists [ev]. split; [by repeat constructor|]. simpl. rewrite Hs. by destruct s'.
Qed.

#[local] Instance leads_refl : Reflexive leads.
Proof. intros [cl p]. by exists []. Qed.
#[local] Instance leads_trans : Transitive leads.
Proof.
  intros s1 s2 s3 (evs1 & Hev1 & H12) (evs2 & Hev2 & H23). exists (evs1 ++ evs2). split; [by apply Forall_app_2|].
  destruct s1 as [cl p]. simpl in *. revert cl p H12. clear Hev1. induction evs1 as [|ev evs1 IH]; intros cl p H12; simpl in *.
  - by injection H12 as <-.
  - destruct (pipe_step ev cl p) as [[cl1 p1]| |]; [by apply IH..|done].
Qed.

(** The state and what does not change while the pipeline drains. *)
Definition drained (max : Z) (ip : nat) (hist : list LogEntry) (s s' : ConsensusLog * Pipeline)
    (pc : fetch_pc) (k0 : nat) (qs : list (list LogEntry)) : Prop :=
  leads s s' ∧ max_fetch_size_ s'.1 = max ∧ f_pc s'.2 = pc ∧ s_pc s'.2 = SIdle ∧
  ∃ m gs, live gs ∧ pipe_inv m s'.1 s'.2 gs ip hist k0 qs.

(** The polls end. *)
Lemma drain_polls m cl p gs ip hist k0 qs last :
  pipe_inv m cl p gs ip hist k0 qs → live gs → s_pc p = SWaiting last →
  ∃ s', drained (max_fetch_size_ cl) ip hist (cl, p) s' (f_pc p) (next_upto k0 qs) (tail qs).
Proof.
  intros Hi Hl Hs. revert cl p gs Hi Hl Hs.
  induction m as [|m IH]; intros cl p gs Hi Hl Hs; pose proof (store_poll_ok _ _ _ _ _ _ _ _ Hi) as Hok;
    destruct (store_poll cl p) as [[cl' p']| |] eqn:Hp; try (by rewrite Hs in Hok); try done;
    destruct Hok as (Hf & Hmx & gs' & _ & Hgs & [(Hm & -> & Hi')|[Hs' Hi']]); try (by destruct (Hm eq_refl Hl)).
  2: { destruct (IH _ _ _ Hi' ltac:(unfold live; by rewrite Hgs) Hs) as (s' & Hl' & Hmx' & Hrest).
       exists s'. split; [|by rewrite Hmx']. etrans; [|exact Hl']. by apply (leads_step PPoll (cl, p)). }
  all: exists (cl', p'); split; [by apply (leads_step PPoll (cl, p))|]; split_and!; try done;
    eexists _, gs'; (split; [unfold live; by rewrite Hgs|exact Hi']).
Qed.

(** The store thread finishes the first batch. *)
Lemma drain_batch m cl p gs ip hist k0 qs :
  pipe_inv m cl p gs ip hist k0 qs → live gs → s_pc p ≠ SIdle ∨ qs ≠ [] →
  ∃ s', drained (max_fetch_size_ cl) ip hist (cl, p) s' (f_pc p) (next_upto k0 qs) (tail qs).
Proof.
  assert (∀ m cl p gs, pipe_inv m cl p gs ip hist k0 qs → live gs → s_pc p = SAppended →
    ∃ s', drained (max_fetch_size_ cl) ip hist (cl, p) s' (f_pc p) (next_upto k0 qs) (tail qs)) as Happ.
  { clear m cl p gs. intros m cl p gs Hi Hlv Hs. pose proof (store_delete_ok _ 1 _ _ _ _ _ _ _ (λ _, 0%nat) Hi) as Hok.
    destruct (store_delete (λ _, 0%nat) cl p) as [[cl1 p1]| |] eqn:Hd.
    - destruct Hok as ([last Hl] & Hf & Hmx & Hi1); [by apply Forall_true; intros; lia|].
      destruct (drain_polls _ _ _ _ _ _ _ _ _ Hi1 Hlv Hl) as (s' & Hlead & Hmx' & Hf' & Hrest). exists s'.
      split; [|by rewrite Hmx', Hf', Hmx, Hf]. etrans; [|exact Hlead]. by apply (leads_step (PDelete (λ _, 0%nat)) (cl, p)).
    - exfalso. by apply Hok; [apply Forall_true; intros; lia|].
    - exfalso. apply Hok. apply Forall_true. intros; lia. }
  intros Hi Hlv Hb. destruct (s_pc p) as [| |last] eqn:Hs; [|by eapply Happ|by eapply drain_polls].
  destruct Hb as [Hb|Hb]; [done|]. pose proof (store_append_ok _ _ _ _ _ _ _ _ true Hi) as Hok.
  destruct (store_append true cl p) as [[cl1 p1]| |] eqn:Ha; [|by destruct Hok|done].
  destruct Hok as [[-> ->]|(Hs1 & Hf & Hmx & Hi1)].
  - exfalso. destruct qs as [|got qs]; [done|]. destruct (first_batch _ _ _ _ _ _ _ _ _ Hi) as (_ & _ & Hbuf & _).
    unfold store_append in Ha. rewrite Hs, Hbuf in Ha. cbn [lift mbind outcome_bind empty_] in Ha.
    destruct (AppendBatch _ _) as [[]| |]; try done. cbn [mbind outcome_bind] in Ha. injection Ha as _ Ha.
    apply (f_equal s_pc) in Ha. by rewrite Hs in Ha.
  - destruct (Happ _ _ _ _ Hi1 Hlv Hs1) as (s' & Hl & Hmx' & Hf' & Hrest). exists s'.
    split; [|by rewrite Hmx', Hf', Hmx, Hf]. etrans; [|exact Hl]. by apply (leads_step (PStore true) (cl, p)).
Qed.

(** The store thread finishes all batches. *)
Lemma drain_queue m cl p gs ip hist k0 qs :
  pipe_inv m cl p gs ip hist k0 qs → live gs →
  ∃ s', drained (max_fetch_size_ cl) ip hist (cl, p) s' (f_pc p) (fetched_upto k0 qs) [].
Proof.
  revert m cl p gs k0. induction qs as [|got qs IH]; intros m cl p gs k0 Hi Hlv.
  - assert (s_pc p = SIdle) as Hs.
    { pose proof (pv_busy _ _ _ _ _ _ _ _ Hi) as Hb. by destruct (s_pc p) as [| |]; [|..|destruct Hb]. }
    exists (cl, p). unfold fetched_upto. simpl. rewrite Nat.add_0_r. split; [done|]. split_and!; try done. by exists m, gs.
  - destruct (drain_batch _ _ _ _ _ _ _ _ Hi Hlv) as ([cl1 p1] & Hl & Hmx & Hf & Hs & m1 & gs1 & Hlv1 & Hi1); [by right|].
    simpl in *. destruct (IH _ _ _ _ _ Hi1 Hlv1) as (s' & Hl' & Hmx' & Hf' & Hs' & Hi'). exists s'.
    split; [by etrans|]. rewrite Hmx', Hf', Hmx, Hf. split_and!; try done.
    replace (fetched_upto k0 (got :: qs)) with (fetched_upto (next_upto k0 (got :: qs)) qs); [done|].
    unfold fetched_upto, next_upto. simpl. rewrite length_app. lia.
Qed.

(** A fetch under way ends, and what it returned is stored. *)
Lemma drain_fetch m cl p gs ip hist k0 qs :
  pipe_inv m cl p gs ip hist k0 qs → live gs →
  ∃ k0' s', drained (max_fetch_size_ cl) ip hist (cl, p) s' FIdle k0' [] ∧
    ∀ r1, f_pc p = FRead r1 → get_word r1 R 0 = total_size hist →
      k0' = (fetched_upto k0 qs + length (fetched hist (fetched_upto k0 qs) (max_fetch_size_ cl)))%nat.
Proof.
  intros Hi Hlv. pose proof (fetch_entries_ok _ _ _ _ _ _ _ _ Hi) as Hok.
  destruct (fetch_entries cl p) as [[cl1 p1]| |] eqn:Hfe; [| |done].
  - destruct Hok as (Hf & Hs & Hmx & got & Hi1 & Hgot).
    destruct (drain_queue _ _ _ _ _ _ _ _ Hi1 Hlv) as (s' & Hl & Hmx' & Hf' & Hrest). eexists _, s'. split.
    + split; [|by rewrite Hmx', Hf', Hmx, Hf]. etrans; [|exact Hl]. by apply (leads_step PFetchEntries (cl, p)).
    + intros r1 Hr1 Hw. specialize (Hgot r1 Hr1 Hw). unfold fetched_upto at 1. rewrite concat_app, length_app.
      rewrite <- Hgot. unfold fetched_upto. destruct got; simpl; rewrite ?app_nil_r; simpl; lia.
  - destruct (drain_queue _ _ _ _ _ _ _ _ Hi Hlv) as (s' & Hd). rewrite Hok in Hd. eexists _, s'. split; [done|].
    intros r1. by rewrite Hok.
Qed.

(** Everything that the primary has is fetched and stored. *)
Lemma drain_all m cl p gs ip hist k0 qs :
  pipe_inv m cl p gs ip hist k0 qs → live gs → max_fetch_size_ cl = 0 ∨ M ≤ max_fetch_size_ cl →
  ∃ s', drained (max_fetch_size_ cl) ip hist (cl, p) s' FIdle (length hist) [].
Proof.
  intros Hi Hlv Hmax. destruct (drain_fetch _ _ _ _ _ _ _ _ Hi Hlv) as (k & s1 & Hd & _). clear Hi Hlv m gs k0 qs.
  remember (length hist - k)%nat as j eqn:Hj. revert k s1 Hd Hj. induction (lt_wf j) as [j _ IH].
  intros k [cl1 p1] (Hl & Hmx & Hf & Hs & m & gs & Hlv & Hi) Hj. simpl in *.
  pose proof (qi_k0 _ _ _ _ _ (pv_queue _ _ _ _ _ _ _ _ Hi)) as Hk0.
  destruct (decide (k < length hist)%nat) as [Hlt|Hge]; cycle 1.
  { exists (cl1, p1). replace (length hist) with k by lia. split; [done|]. split_and!; try done. by exists m, gs. }
  pose proof (fetch_range_ok _ _ _ _ _ _ _ _ Hi) as Hok.
  destruct (fetch_range cl1 p1) as [[cl2 p2]| |] eqn:Hfr; [|by destruct Hok|done].
  destruct Hok as (-> & (r1 & Hr1 & Hw) & Hs2 & Hi2).
  destruct (drain_fetch _ _ _ _ _ _ _ _ Hi2 Hlv) as (k3 & s3 & (Hl3 & Hmx3 & Hf3 & Hs3 & Hi3) & Hk3).
  specialize (Hk3 r1 Hr1 Hw). unfold fetched_upto in Hk3. simpl in Hk3. rewrite Nat.add_0_r in Hk3.
  destruct (pipe_primary _ _ _ _ _ _ _ _ Hi) as (l & kk & _ & _ & Hlk & _).
  pose proof (rp_small _ _ _ _ (li_replica _ _ _ _ _ _ Hlk)) as Hsm. simpl in Hsm.
  destruct (fetched_some M hist k (max_fetch_size_ cl1) Hsm Hlt ltac:(by rewrite Hmx)) as [Hne _].
  assert (length (fetched hist k (max_fetch_size_ cl1)) ≠ 0%nat) by (by destruct (fetched hist k (max_fetch_size_ cl1))).
  apply (IH (length hist - k3)%nat ltac:(lia) k3 s3); [|done]. split; [|by rewrite Hmx3].
  etrans; [exact Hl|]. etrans; [|exact Hl3]. by apply (leads_step PFetchRange (cl1, p1)).
Qed.

(** ** The start *)

(** Where the watermarks are put in the local region. *)
Definition gc_apart (cl : ConsensusLog) : Prop :=
  ∀ l, link_at pri (dur_cli_ cl) = Some l → rg_size_ (l_svr l) = R ∧ after_fetch (mr_offset_for_gc_ (l_cli l)).

Lemma pipe_start cl gs ip hist :
  cons_repr M clients pri u n cap cl gs ip hist 0 → gc_apart cl →
  pipe_inv 0 cl Pipeline_init gs ip hist 0 [].
Proof.
  intros Hcr Hgc. destruct Hcr. split; try done.
  - eapply links_inv_impl; [|exact cr_links]. intros d l g Hin Hidle. split; [done|].
    intros ->. apply list_elem_of_lookup in Hin as [i Hl]. apply Hgc. by apply (link_at_idx _ i).
  - by exists 0%nat.
  - split; try done.
    + apply Nat.le_0_l.
    + apply prefix_nil.
    + simpl. lia.
    + by intros [|[|i]] Hlt; [..|lia].
Qed.
End Pipe.

(** ** Claims *)

(** Readers get the entries of [log]: the first [kp] at once, later ones at once or after
    waiting; an index past its end waits. *)
Definition serves `{Posix, Erpc} (be : NaiveBackend) (log : list LogEntry) (kp : nat) : Prop :=
  ∀ i slow e0, Z.of_nat i < 2 ^ 64 →
    match log !! i with
    | Some e => (∃ be', be_ReadEntry be slow (Z.of_nat i) e0 = Ok (be', true, e)) ∨
                (kp ≤ i)%nat ∧ be_ReadEntry be slow (Z.of_nat i) e0 = Blocked
    | None => be_ReadEntry be slow (Z.of_nat i) e0 = Blocked
    end.

Lemma pipe_serves `{Posix, Erpc} M clients pri u n cap (Hd : dims M u n cap) R m cl p gs ip hist k0 qs :
  pipe_inv M clients pri u n cap R m cl p gs ip hist k0 qs →
  serves (backend_ cl) (take (stored_upto (s_pc p) k0 qs) hist) k0.
Proof.
  intros Hi i slow e0 Hi64.
  pose proof (pipe_read_ok M clients pri u n cap Hd R _ _ _ _ _ _ _ _ slow i e0 Hi Hi64) as Hrd.
  destruct (take _ hist !! i); [|done]. destruct Hrd as [(be & Hbe & _)|Hbl]; [left; by exists be|by right].
Qed.

(** C3. The pipelined mode follows the primary, too.  The consensus log starts on a
    primary that has collected nothing.  Then the steps of the fetch thread, the store
    thread, the readers and the appends, in any order, never go wrong, and at each moment
    the shards serve a beginning of the primary's log [hist']: the fetch may run ahead of
    the store by two batches and may read the primary while the store has it collected,
    but no entry is lost, stored twice or stored out of order.  The threads do not block
    each other: once every backup has received an entry, they can go on without further
    appends until all of [hist'] is served, if the bound on a fetch admits every entry. *)
Theorem pipelined_follows_primary `{Posix, Erpc, Rdma} M clients pri u n cap R cl gs ip hist evs :
  M ≤ SAFE_RG_SIZE + 4 → lenZ clients < 2 ^ 32 → dims M u n cap →
  (∀ p, may_create p = true) → (∀ j, write_len j = j) →
  cons_repr M clients pri u n cap cl gs ip hist 0 → gc_apart pri R cl →
  Forall (event_ok M clients) evs → budget (sum_list_with event_appends evs) gs →
  ∃ cl' p' l hist' k kp ks,
    pipe_run evs cl Pipeline_init = Ok (cl', p') ∧
    link_at pri (dur_cli_ cl') = Some l ∧ flat_repr (l_svr l) hist' k ∧ hist `prefix_of` hist' ∧
    (kp ≤ ks ≤ length hist')%nat ∧ serves (backend_ cl') (take ks hist') kp ∧
    (started cl' → max_fetch_size_ cl = 0 ∨ M ≤ max_fetch_size_ cl →
     ∃ more cl'' p'', Forall (λ ev, event_appends ev = 0%nat) more ∧
       pipe_run more cl' p' = Ok (cl'', p'') ∧ serves (backend_ cl'') hist' (length hist')).
Proof.
  intros HM Hcl Hd Hcr Hw Hrep Hgc Hev Hb.
  pose proof (pipe_start M clients pri u n cap R cl gs ip hist Hrep Hgc) as Hi0.
  destruct (pipe_run_ok M clients pri HM Hcl u n cap Hd Hcr Hw R evs 0 0 cl Pipeline_init gs ip hist 0 [] Hi0 Hev)
    as (cl' & p' & m & gs' & hist' & k0 & qs & Hrun & Hi & _ & Hh & Hmx).
  { by rewrite Nat.add_0_r. }
  destruct (pipe_primary M clients pri u n cap R _ _ _ _ _ _ _ _ Hi) as (l & k & Hip & _ & Hl & _).
  exists cl', p', l, hist', k, k0, (stored_upto (s_pc p') k0 qs).
  split; [done|]. split; [apply (link_at_idx _ ip); [apply Hi|done]|].
  split; [apply (rp_flat _ _ _ _ (li_replica _ _ _ _ _ _ Hl))|]. split; [done|].
  split; [|split; [by eapply pipe_serves|]].
  - pose proof (stored_le_next (s_pc p') k0 qs). pose proof (next_le_fetched k0 qs).
    pose proof (queue_len _ _ _ _ _ (pv_queue _ _ _ _ _ _ _ _ _ _ _ _ _ _ _ Hi)). lia.
  - intros Hst Hmax. rewrite <- Hmx in Hmax.
    destruct (decide (hist' = [])) as [->|Hne].
    { exists [], cl', p'. split; [constructor|]. split; [done|].
      pose proof (pipe_serves M clients pri u n cap Hd R _ _ _ _ _ _ _ _ Hi) as Hsv. rewrite take_nil in Hsv.
      intros i slow e0 H64. exact (Hsv i slow e0 H64). }
    pose proof (pipe_live M clients pri u n cap R _ _ _ _ _ _ _ _ Hi Hst Hne) as Hlv.
    destruct (drain_all M clients pri HM Hcl u n cap Hd Hcr Hw R _ _ _ _ _ _ _ _ Hi Hlv Hmax)
      as ([cl2 p2] & (more & Hmore & Hrun2) & _ & _ & Hs & m2 & gs2 & _ & Hi2).
    exists more, cl2, p2. split; [eapply List.Forall_impl; [|exact Hmore]; by intros ev [? _]|]. split; [done|].
    pose proof (pipe_serves M clients pri u n cap Hd R _ _ _ _ _ _ _ _ Hi2) as Hsv. simpl in Hs, Hsv. rewrite Hs in Hsv.
    simpl in Hsv. by rewrite firstn_all in Hsv.
Qed.

(** The small system of [System], pipelined: an append arrives between the two reads of
    the first fetch, and the second fetch falls between the steps of the store. *)
Definition test_events : list pevent :=
  [PFetchRange; PAppend [("p"%string, request_msg)]; PFetchEntries; PStore true; PFetchRange;
   PDelete (λ _, 1%nat); PFetchEntries; PPoll; PRead false 0 LogEntry_default; PPoll].

Lemma small_apart : gc_apart "p" (rg_size_ pri_two) small_system.
Proof. intros l [= <-]. split; [done|]. by vm_compute. Qed.

Lemma pipelined_follows_primary_witness :
  ∃ cl' p' l hist' k kp ks,
    pipe_run test_events small_system Pipeline_init = Ok (cl', p') ∧
    link_at "p" (dur_cli_ cl') = Some l ∧ flat_repr (l_svr l) hist' k ∧ two_hist `prefix_of` hist' ∧
    (kp ≤ ks ≤ length hist')%nat ∧ serves (backend_ cl') (take ks hist') kp ∧
    (started cl' → max_fetch_size_ small_system = 0 ∨ 1000 ≤ max_fetch_size_ small_system →
     ∃ more cl'' p'', Forall (λ ev, event_appends ev = 0%nat) more ∧
       pipe_run more cl' p' = Ok (cl'', p'') ∧ serves (backend_ cl'') hist' (length hist')).
Proof.
  apply (pipelined_follows_primary 1000 [42; 43] "p" 2 2 2048 (rg_size_ pri_two) small_system small_ghost 0 two_hist
    test_events).
  - done.
  - done.
  - exact small_dims.
  - done.
  - done.
  - exact small_system_repr.
  - exact small_apart.
  - repeat constructor; try done. apply request_msg_ok.
  - repeat constructor.
Defined.

(** ** After a restart *)

(** [fetch_begin] starts at zero also when the primary has collected entries: the first
    fetch then begins at the watermark, but [fetch_begin] counts only what it returned,
    and the second fetch begins at the watermark again.  Here a consensus log that
    starts after the events above finds one entry that is not collected, and both
    buffers receive it. *)
Lemma restart_fetches_twice :
  match pipe_run test_events small_system Pipeline_init with
  | Ok (cl, _) =>
      match pipe_run [PFetchRange; PFetchEntries; PFetchRange; PFetchEntries] cl Pipeline_init with
      | Ok (_, p) => buffers_ p !! 0 = buffers_ p !! 1 ∧ empty_ <$> buffers_ p !! 0 = Some false ∧
          fetch_begin p = 72
      | _ => False
      end
  | _ => False
  end.
Proof. by vm_compute. Qed.
