(* ===== verification/Startup.v ===== *)
(** Start-up: how the servers, the consensus log and the clients are set up from their
    configurations, and that this establishes the invariants of the other files.

    [src/dur_log/erpc_dl_transport.cc] and [src/cons_log/storage/shard_server.cc] start the
    servers, [InitializeConn] of [src/dur_log/dur_log_erpc_cli.cc],
    [src/dur_log/dur_log_flat_cli.cc] and [src/cons_log/storage/shard_client.cc] connect to
    them, [ConsensusLog::Initialize] and [NaiveBackend::InitializeBackend] put the
    connections together.  An exception or undefined behaviour is [None] or [Fault]; a
    connection to a server that is not there is never made: [Blocked]. *)

From Stdlib Require Import Ascii.
From stdpp Require Import strings pretty.
From S2P Require Import Prelude Props Sequencer LogEntry DurLogFlat FlatRing FlatGC DlTransport.
From S2P Require Import FlatCli Replica Links ShardServer ShardRepr NaiveBackend StorageLog.
From S2P Require Import ConsLog ConsOrder System Pipeline PipelineOrder.

Local Open Scope Z_scope.

(** ** RPC ids *)

Definition DL_CLI_RPCID_OFFSET : Z := 0.
Definition CL_CLI_RPCID_OFFSET : Z := 64.
Definition DL_SVR_RPCID_OFFSET : Z := 128.
Definition CL_SVR_RPCID_OFFSET : Z := 192.
Definition DL_RSV_RPCID : Z := 191.
Definition CL_RSV_RPCID : Z := 254.

(** What the transports of a process share, and what those of a thread share: the
    nexus, the [Rpc] object (by its id) with its users, and the counters of ids. *)
Record RpcEnv : Type := mkRpcEnv {
  nexus_ : option string;
  rpc_ : option Z;
  rpc_use_cnt_ : Z;
  global_rpc_id_ : Z;
  local_rpc_cnt_ : gmap string Z
}.

Definition RpcEnv_init : RpcEnv := mkRpcEnv None None 0 0 ∅.

(** A session: the server with the id of its [Rpc] object, and the size of the message
    buffers; the client that made the nexus deletes it. *)
Record Session : Type := mkSession {
  s_uri : string;
  remote_rpc_id : Z;
  s_msg_size : Z;
  del_nexus_on_finalize_ : bool
}.

Definition make_nexus (cli_uri : string) (env : RpcEnv) : option string * bool :=
  match nexus_ env with None => (Some cli_uri, true) | Some uri => (Some uri, false) end.

(** ** Clients of the durability log *)

(** The local id: that of the thread's [Rpc] object, which is made if there is none.  The
    consensus log has a reserved one. *)
Definition dl_local_id (p : Properties) (exclusive : bool) (env : RpcEnv) : option (Z * Z) :=
  match rpc_ env with
  | Some id => Some (id, global_rpc_id_ env)
  | None =>
      _ ← stoi (GetProperty p "erpc.phy_port" "0");
      if exclusive then Some (CL_RSV_RPCID, global_rpc_id_ env)
      else Some (u8 (DL_CLI_RPCID_OFFSET + global_rpc_id_ env), u8 (global_rpc_id_ env + 1))
  end.

(** The remote id: the reserved one, or one of the server's threads, by the client id of
    the configuration or else round robin; with the counter of the server. *)
Definition dl_remote_id (p : Properties) (exclusive : bool) (cnt : Z) : option (Z * Z) :=
  count ← stoi (GetProperty p "dur_log.threadcount" "1");
  let server_rpc_count := u64 count in
  if exclusive then Some (DL_RSV_RPCID, cnt)
  else if ContainsKey p "dur_log.client_id" then
    id ← stoll (GetProperty p "dur_log.client_id" "");
    if server_rpc_count =? 0 then None
    else Some (u8 (DL_SVR_RPCID_OFFSET + u64 id mod server_rpc_count), cnt)
  else if server_rpc_count =? 0 then None
  else Some (u8 (DL_SVR_RPCID_OFFSET + cnt mod server_rpc_count), u8 (cnt + 1)).

(** [DurabilityLogERPCCli::InitializeConn]; [exclusive] is whether [param] is set, and
    [raw] what the allocated buffers contain. *)
Definition dl_InitializeConn (p : Properties) (server_uri : string) (exclusive : bool) (raw : gmap Z byte)
    (env : RpcEnv) : option (RpcEnv * ErpcCli * Session) :=
  let is_primary := streq server_uri (GetProperty p "dur_log.primary_uri" "localhost:31850") in
  let '(nexus, del) := make_nexus (GetProperty p "dur_log.client_uri" "localhost:31851") env in
  '(local, global) ← dl_local_id p exclusive env;
  '(remote, cnt) ← dl_remote_id p exclusive (default 0 (local_rpc_cnt_ env !! server_uri));
  msg_size ← stoull (GetProperty p "dur_log.msg_size" "8192");
  Some (mkRpcEnv nexus (Some local) (i32 (rpc_use_cnt_ env + 1)) global
          (<[server_uri := cnt]> (local_rpc_cnt_ env)),
        mkCli is_primary (Buf (i32 msg_size) raw) [] false RPCToken.init [] ∅,
        mkSession server_uri remote (i32 msg_size) del).

(** [DurabilityLogFlatCli::InitializeConn]: on the primary, a local memory region as large
    as the remote log, and a place for the watermarks in its last page.  In test mode
    there is no queue pair, and the first fetch dereferences a null pointer. *)
Definition flat_InitializeConn (p : Properties) (svr : string) (exclusive : bool) (raw : gmap Z byte)
    (env : RpcEnv) : option (RpcEnv * FlatCli) :=
  '(env, c, _) ← dl_InitializeConn p svr exclusive raw env;
  if negb (IsPrimary c) then Some (env, mkFlatCli c (Buf 0 ∅) 0 0 0) else
  m ← stoi (GetProperty p "dur_log.mr_size_m" "512");
  if negb ((- 2 ^ 31 <=? m * 1024 * 1024) && (m * 1024 * 1024 <? 2 ^ 31)) then None else
  let size := u64 (m * 1024 * 1024) in
  if negb (streq (GetProperty p "test" "false") "false") then None else
  _ ← SeparateValue svr ":"%char !! 0%nat;
  _ ← stoi (GetProperty p "rdma.ip_port_ctrl" "8011");
  Some (env, mkFlatCli c (Buf size raw) (u64 (size - PAGE_SIZE)) 0 0).

(** ** Servers *)

(** [ERPCDurLogTransport::Initialize] with [server_func]: a replica and the buffers of its
    responses; [raw] is what the memory region contains. *)
Record ReplicaNode : Type := mkNode { rn_log : FlatLog; rn_resp : buffer }.

Definition dl_server_start (p : Properties) (raw : gmap Z byte) : option ReplicaNode :=
  _ ← stoi (GetProperty p "threadcount" "1");
  _ ← stoi (GetProperty p "erpc.phy_port" "0");
  msg_size ← stoull (GetProperty p "dur_log.msg_size" "8192");
  st ← Initialize p raw;
  Some (mkNode st (Buf msg_size ∅)).

(** The ids of the threads that serve a replica; the last one serves the consensus log. *)
Definition dl_server_ids (n_th : nat) : list Z :=
  ((λ i, u8 (DL_SVR_RPCID_OFFSET + Z.of_nat i)) <$> seq 0 n_th) ++ [DL_RSV_RPCID].

(** [ShardServer::Initialize], until the connections; [is_dir] and [mkdir] are whether the
    folder exists and whether it can be made, [fs] what it contains. *)
Definition shard_Initialize (p : Properties) (is_dir mkdir : bool) (fs : gmap string (list byte))
    : option ShardServer :=
  unit ← stoi (GetProperty p "shard.stripe_unit_size" "100000");
  num ← stoi (GetProperty p "shard.num" "1");
  id ← stoi (GetProperty p "shard.id" "0");
  rep ← stoull (GetProperty p "shard.replicated_index" "0");
  glob ← stoull (GetProperty p "shard.global_index" "0");
  if is_dir || mkdir
  then Some (mkShard ∅ ∅ ∅ (u64 unit) num id (GetProperty p "shard.folder_path" "./data/") rep glob 0 0 (mkOs fs ∅))
  else None.

(** [ShardClient::InitializeConn]: the same id is used on both sides, zero or the one
    given. *)
Definition shard_InitializeConn (p : Properties) (svr_uri : string) (param : option Z) (env : RpcEnv)
    : option (RpcEnv * Session) :=
  let rpc_id := default 0 param in
  let '(nexus, del) := make_nexus (GetProperty p "shard.client_uri" "localhost:31861") env in
  rpc ← (match rpc_ env with
         | Some id => Some id
         | None => _ ← stoi (GetProperty p "erpc.phy_port" "0"); Some (u8 rpc_id)
         end);
  msg_size ← stoull (GetProperty p "shard.msg_size" "2048");
  Some (mkRpcEnv nexus (Some rpc) (i32 (rpc_use_cnt_ env + 1)) (global_rpc_id_ env) (local_rpc_cnt_ env),
        mkSession svr_uri (u8 rpc_id) (i32 msg_size) del).

(** [backups_[b] = ...] for each address. *)
Fixpoint connect_backups {A : Type} (p : Properties) (node : string → option A) (uris : list string)
    (env : RpcEnv) (bs : Conns A) : outcome (RpcEnv * Conns A) :=
  match uris with
  | [] => Ok (env, bs)
  | b :: uris =>
      '(env, _) ← lift (shard_InitializeConn p b None env);
      match node b with
      | None => Blocked
      | Some st =>
          connect_backups p node uris env
            (match link_at b bs with Some _ => link_set b st bs | None => bs ++ [(b, st)] end)
      end
  end.

(** The rest of [ShardServer::Initialize]: the leader of a shard with its backups, the
    message buffers between them and those of the threads that serve reads.  The others
    only serve the leader. *)
Definition shard_start (p : Properties) (is_dir mkdir : bool) (fs : gmap string (list byte))
    (node : string → option ShardServer) (env : RpcEnv) : outcome Shard :=
  st ← lift (shard_Initialize p is_dir mkdir fs);
  if negb (streq (GetProperty p "leader" "false") "true") then Ok (mkShardGroup st [] 0 0 0 (Buf 0 ∅)) else
  '(_, bs) ← connect_backups p node
    (SeparateValue (GetProperty p "shard.backup_uri" "localhost:31860") ","%char) env [];
  rep ← lift (stoull (GetProperty p "shard.msg_size" "2048"));
  _ ← lift (stoi (GetProperty p "threadcount" "1"));
  resp ← lift (stoull (GetProperty p "dur_log.msg_size" "8192"));
  Ok (mkShardGroup st bs.*2 0 0 (i32 rep) (Buf resp ∅)).

(** ** The storage backend *)

(** The message buffers of a shard client: requests of the configured size, responses of a
    page. *)
Definition with_bufs (g : Shard) (n : Z) : Shard :=
  mkShardGroup (primary g) (backups g) n PAGE_SIZE (rep_cap g) (read_resp g).

(** The loop over the shards from [i] on, [k] more. *)
Fixpoint connect_shards (p : Properties) (node : string → option Shard) (uris : list string)
    (param : option Z) (k i : nat) (env : RpcEnv) (m : gmap Z Shard) : outcome (RpcEnv * gmap Z Shard) :=
  match k with
  | O => Ok (env, m)
  | S k =>
      uri ← lift (uris !! i);
      '(env, s) ← lift (shard_InitializeConn p uri param env);
      match node uri with
      | None => Blocked
      | Some g => connect_shards p node uris param k (S i) env (<[Z.of_nat i := with_bufs g (s_msg_size s)]> m)
      end
  end.

(** [NaiveBackend::InitializeBackend], and [NaiveReadBackend::InitializeBackend] with the
    id of a read thread of the shards. *)
Definition InitializeBackend (p : Properties) (node : string → option Shard) (thread_id : option Z)
    (env : RpcEnv) : outcome (RpcEnv * NaiveBackend) :=
  unit ← lift (stoi (GetProperty p "shard.stripe_unit_size" "100000"));
  num ← lift (stoll (GetProperty p "shard.num" ""));
  let shd_servers := SeparateValue (GetProperty p "shard.primary_uri" "localhost:31860") ","%char in
  '(env, m) ← connect_shards p node shd_servers ((λ t, t + CL_CLI_RPCID_OFFSET) <$> thread_id)
                (Z.to_nat (i32 num)) 0 env ∅;
  Ok (env, mkBackend (u64 unit) (i32 num) m).

(** ** The consensus log *)

(** [dur_cli_[d] = ...] for each address. *)
Fixpoint connect_links (p : Properties) (node : string → option ReplicaNode) (raw : gmap Z byte)
    (uris : list string) (env : RpcEnv) (ls : Links) : outcome (RpcEnv * Links) :=
  match uris with
  | [] => Ok (env, ls)
  | d :: uris =>
      '(env, c) ← lift (flat_InitializeConn p d true raw env);
      match node d with
      | None => Blocked
      | Some nd =>
          let l := mkLink c false (rn_log nd) (rn_resp nd) None in
          connect_links p node raw uris env
            (match link_at d ls with Some _ => link_set d l ls | None => ls ++ [(d, l)] end)
      end
  end.

(** [ConsensusLog::Initialize]; nothing is set up if this is not the leader.  An address of
    the primary that is not among the replicas leaves a null pointer. *)
Definition ConsensusLog_Initialize (p : Properties) (replica : string → option ReplicaNode)
    (shard : string → option Shard) (raw : gmap Z byte) (env : RpcEnv) : outcome (RpcEnv * option ConsensusLog) :=
  if negb (streq (GetProperty p "leader" "true") "true") then Ok (env, None) else
  let pri := GetProperty p "dur_log.primary_uri" "localhost:31850" in
  let dur_svr_uri := SeparateValue (GetProperty p "dur_log.server_uri" "localhost:31850") ","%char in
  '(env, ls) ← connect_links p replica raw dur_svr_uri env [];
  max ← lift (stoi (GetProperty p "cons_log.max_fetch_size" "0"));
  _ ← lift (link_at pri ls);
  '(env, be) ← InitializeBackend p shard None env;
  Ok (env, Some (mkCons ls pri be 0 (u32 max) 0 0)).

(** ** Clients *)

(** The loop of [LazyLogClient::Initialize] over the replicas. *)
Fixpoint connect_client (p : Properties) (raw : gmap Z byte) (uris : list string) (env : RpcEnv)
    (ks : Conns ErpcCli) : option (RpcEnv * Conns ErpcCli) :=
  match uris with
  | [] => Some (env, ks)
  | d :: uris =>
      '(env, c, _) ← dl_InitializeConn p d false raw env;
      connect_client p raw uris env (match link_at d ks with Some _ => link_set d c ks | None => ks ++ [(d, c)] end)
  end.

(** ** What the servers start with *)

Lemma stoull_range s z : stoull s = Some z → 0 ≤ z < 2 ^ 64.
Proof.
  unfold stoull. destruct (strtol s); [|done]. simpl. destruct (_ && _); [|done]. intros [= <-]. apply u64_range.
Qed.

(** The flag at the beginning of a region with the contents [raw]. *)
Definition first_flag (raw : gmap Z byte) : Z := un_le (peek (rd raw) FlagPos 2).

Lemma Initialize_fresh p raw st m :
  Initialize p raw = Some st → stoi (GetProperty p "dur_log.mr_size_m" "512") = Some m → 1 ≤ m < 2048 →
  rg_size_ st = m * 2 ^ 20 ∧ is_primary_ st = streq (GetProperty p "leader" "false") "true" ∧
  wait_ st = negb (streq (GetProperty p "wait" "true") "false") ∧
  GetFlagFromBuf (mem_rg_raw_ st) 0 = Some (first_flag raw) ∧
  (wait_ st = true → ∀ M, replica M st [] 0).
Proof.
  intros Hi Hm Hr. pose proof Hi as Hi'. unfold Initialize in Hi. rewrite Hm in Hi. simpl in Hi.
  assert (u64 (m * 1024 * 1024) = m * 2 ^ 20) as Hrg by (rewrite u64_small by lia; lia).
  destruct (negb _); [done|]. injection Hi as <-. simpl. rewrite Hrg in *. split; [done|]. split; [done|]. split; [done|].
  split.
  - unfold GetFlagFromBuf. rewrite load_int_ok; [|done|simpl; sizes]. unfold first_flag. do 2 f_equal.
    rewrite Z.add_0_l. apply peek_ext. intros i Hlt. rewrite !rd_set_word by sizes. done.
  - intros Hw M. split; simpl; try done.
    + eapply Initialize_repr; [exact Hi'|]. simpl. lia.
    + lia.
    + apply Z.div_str_pos. unfold min_entry_size, MetaDataSize, FlagPos. lia.
    + constructor.
    + intros rid. left. by rewrite lookup_empty.
    + lia.
Qed.

Lemma dl_server_start_ok p raw nd :
  dl_server_start p raw = Some nd →
  Initialize p raw = Some (rn_log nd) ∧
  stoull (GetProperty p "dur_log.msg_size" "8192") = Some (bcap (rn_resp nd)).
Proof.
  unfold dl_server_start. destruct (stoi (GetProperty p "threadcount" "1")); [|done]. simpl.
  destruct (stoi _); [|done]. simpl. destruct (stoull _); [|done]. simpl. destruct (Initialize p raw); [|done]. simpl. by intros [= <-].
Qed.

(** A shard server over an empty folder, with its number among the shards. *)
Definition shard_conf (p : Properties) (u n s : nat) : Prop :=
  stoi (GetProperty p "shard.stripe_unit_size" "100000") = Some (Z.of_nat u) ∧
  stoi (GetProperty p "shard.num" "1") = Some (Z.of_nat n) ∧
  stoi (GetProperty p "shard.id" "0") = Some (Z.of_nat s) ∧
  stoull (GetProperty p "shard.global_index" "0") = Some 0.

Lemma shard_Initialize_ok p is_dir mkdir u n s st :
  shard_Initialize p is_dir mkdir ∅ = Some st → shard_conf p u n s →
  (0 < u)%nat → (s < n)%nat → Z.of_nat u < 2 ^ 31 → Z.of_nat n < 2 ^ 31 →
  shard_repr u n s st [] ∧ global_index_ st = 0.
Proof.
  intros Hi (Hu & Hn & Hs & Hg) Hu0 Hsn Hu31 Hn31. unfold shard_Initialize in Hi. rewrite Hu, Hn, Hs, Hg in Hi. simpl in Hi.
  destruct (stoull _) as [rep|]; [|done]. simpl in Hi. destruct (is_dir || mkdir); [|done]. injection Hi as <-.
  assert (∀ b, stripe u b [] = []) as Hst by (intros; unfold stripe; by rewrite drop_nil, take_nil).
  split; [|done]. split; simpl; try done; try (intros b; rewrite Hst; done); [|nia].
  rewrite u64_small by lia. done.
Qed.

Lemma connect_backups_ok (P : ShardServer → Prop) p node uris env bs env' bs' :
  connect_backups p node uris env bs = Ok (env', bs') →
  (∀ b st, node b = Some st → P st) → Forall (λ b, P b.2) bs → Forall (λ b, P b.2) bs'.
Proof.
  intros Hc Hnode. revert env bs Hc. induction uris as [|b uris IH]; intros env bs; simpl; [by intros [= _ <-]|].
  destruct (shard_InitializeConn _ _ _ _) as [[env1 s]|]; [|done]. simpl.
  destruct (node b) as [st|] eqn:Hb; [|done]. intros Hc Hbs. apply (IH env1 _ Hc).
  destruct (link_at b bs) eqn:Hat.
  - apply link_at_lookup in Hat as (i & Hi & ->). apply Forall_insert; [done|]. by apply (Hnode b).
  - apply Forall_app_2; [done|]. apply Forall_singleton. by apply (Hnode b).
Qed.

(** A started shard. *)
Record shard_up (u n s : nat) (cap M : Z) (g : Shard) : Prop := {
  su_start : ∃ p is_dir mkdir node env, shard_start p is_dir mkdir ∅ node env = Ok g ∧
    shard_conf p u n s ∧ GetProperty p "leader" "false" = "true" ∧
    (∀ z, stoull (GetProperty p "shard.msg_size" "2048") = Some z → cap ≤ z < 2 ^ 31) ∧
    (∀ z, stoull (GetProperty p "dur_log.msg_size" "8192") = Some z → M ≤ z) ∧
    ∀ b st, node b = Some st → ∃ pb is_dir mkdir, shard_Initialize pb is_dir mkdir ∅ = Some st ∧ shard_conf pb u n s
}.

Lemma shard_up_ok u n s cap M g :
  shard_up u n s cap M g → (0 < u)%nat → (s < n)%nat → Z.of_nat u < 2 ^ 31 → Z.of_nat n < 2 ^ 31 →
  shard_holds u n s 0 g [] ∧ cap ≤ rep_cap g ∧ M ≤ bcap (read_resp g).
Proof.
  intros [(p & is_dir & mkdir & node & env & Hst & Hconf & Hlead & Hmsg & Hresp & Hnode)] Hu Hs Hu31 Hn31.
  unfold shard_start in Hst. destruct (shard_Initialize p is_dir mkdir ∅) as [st|] eqn:Hi; [|done]. simpl in Hst.
  rewrite Hlead in Hst. simpl in Hst.
  destruct (connect_backups _ _ _ _ _) as [[env' bs]| |] eqn:Hc; [|done..]. simpl in Hst.
  destruct (stoull (GetProperty p "shard.msg_size" "2048")) as [rep|] eqn:Hrep; [|done]. simpl in Hst.
  apply stoull_range in Hrep.
  destruct (stoi _); [|done]. simpl in Hst. destruct (stoull (GetProperty p "dur_log.msg_size" "8192")) as [resp|]; [|done].
  simpl in Hst. injection Hst as <-. destruct (shard_Initialize_ok p is_dir mkdir u n s st Hi Hconf) as [Hr Hg]; try done.
  specialize (Hmsg rep eq_refl). specialize (Hresp resp eq_refl). simpl.
  assert (mine n s [] = []) as Hm by (apply list_eq; intros j; by rewrite lookup_mine, !lookup_nil).
  split; [|split; [|done]].
  - split; simpl; rewrite ?Hm; try done. apply Forall_fmap.
    eapply (connect_backups_ok (λ b, shard_repr u n s b [])); [exact Hc| |constructor].
    intros b st' (pb & d1 & d2 & Hi' & Hconf')%Hnode. by eapply shard_Initialize_ok.
  - rewrite i32_small by lia. lia.
Qed.

(** ** Connecting to them *)

Lemma link_at_None {L} d (ls : Conns L) : d ∉ ls.*1 → link_at d ls = None.
Proof.
  induction ls as [|[d' l] ls IH]; [done|]. intros Hd. rewrite fmap_cons, not_elem_of_cons in Hd. destruct Hd as [Hne Hd].
  simpl. destruct (streq_spec d d') as [->|_]; [done|by apply IH].
Qed.

(** The configuration of a process that connects to the replicas; [pri] is the primary,
    [mr] the megabytes of a region, [msg] the size of the message buffers. *)
Record dl_conf (p : Properties) (pri : string) (mr msg : Z) : Prop := {
  dc_pri : GetProperty p "dur_log.primary_uri" "localhost:31850" = pri;
  dc_mr : stoi (GetProperty p "dur_log.mr_size_m" "512") = Some mr;
  dc_mr_range : 1 ≤ mr < 2048;
  dc_msg : stoull (GetProperty p "dur_log.msg_size" "8192") = Some msg;
  dc_msg31 : msg < 2 ^ 31;
  dc_phy : is_Some (stoi (GetProperty p "erpc.phy_port" "0"));
  dc_threads : is_Some (stoi (GetProperty p "dur_log.threadcount" "1"))
}.

Lemma dl_exclusive_ok p pri mr msg d raw env :
  dl_conf p pri mr msg →
  ∃ env' s, dl_InitializeConn p d true raw env =
    Some (env', mkCli (streq d pri) (Buf msg raw) [] false RPCToken.init [] ∅, s).
Proof.
  intros []. apply stoull_range in dc_msg0 as Hmsg. destruct dc_phy0 as [ph Hph], dc_threads0 as [th Hth].
  unfold dl_InitializeConn, dl_local_id, dl_remote_id. rewrite dc_pri0, dc_msg0, Hph, Hth.
  destruct (make_nexus _ _) as [nx del]. destruct (rpc_ env); simpl; rewrite (i32_small msg) by lia; by eexists _, _.
Qed.

Lemma flat_InitializeConn_ok p pri mr msg d raw env :
  dl_conf p pri mr msg → GetProperty p "test" "false" = "false" →
  is_Some (stoi (GetProperty p "rdma.ip_port_ctrl" "8011")) → SeparateValue pri ":"%char ≠ [] →
  ∃ env' c, flat_InitializeConn p d true raw env = Some (env', c) ∧
    IsPrimary (erpc_cli c) = streq d pri ∧ bcap (req_ (erpc_cli c)) = msg ∧
    (d = pri → bcap (mr_ c) = mr * 2 ^ 20 ∧ mr_offset_for_gc_ c = mr * 2 ^ 20 - PAGE_SIZE).
Proof.
  intros Hc Ht [port Hport] Hpri. destruct (dl_exclusive_ok p pri mr msg d raw env Hc) as (env' & s & Hconn). destruct Hc.
  unfold flat_InitializeConn. rewrite Hconn. simpl. destruct (streq_spec d pri) as [->|Hne]; simpl; [|by eexists _, _].
  rewrite dc_mr0. simpl. rewrite (proj2 (Z.leb_le _ _)), (proj2 (Z.ltb_lt _ _)), Ht by lia. simpl.
  destruct (SeparateValue pri ":"%char) as [|ip rest]; [done|]. simpl. rewrite Hport. simpl.
  rewrite !u64_small by (unfold PAGE_SIZE; lia). eexists _, _. split; [done|]. split; [done|]. split; [done|].
  intros _. simpl. unfold PAGE_SIZE. lia.
Qed.

(** A started replica: it has the same size of region as the processes that connect, it
    is the leader exactly if it is the primary, and its region does not begin with a set
    flag. *)
Definition replica_up (pri d : string) (mr : Z) (nd : ReplicaNode) : Prop :=
  ∃ p raw, dl_server_start p raw = Some nd ∧ first_flag raw ≠ 1 ∧ 18 ≤ bcap (rn_resp nd) ∧
    stoi (GetProperty p "dur_log.mr_size_m" "512") = Some mr ∧
    streq (GetProperty p "leader" "false") "true" = streq d pri ∧
    streq (GetProperty p "wait" "true") "false" = false.

Section Boot.
Context (M : Z) (clients : list Z) (pri : string) (mr msg : Z) (p : Properties).
Context (Hconf : dl_conf p pri mr msg) (Htest : GetProperty p "test" "false" = "false").
Context (Hport : is_Some (stoi (GetProperty p "rdma.ip_port_ctrl" "8011"))) (Hip : SeparateValue pri ":"%char ≠ []).
Context (Hmsg : 4 + 16 * lenZ clients ≤ msg).

Lemma connected_link d c nd :
  replica_up pri d mr nd → IsPrimary (erpc_cli c) = streq d pri → bcap (req_ (erpc_cli c)) = msg →
  (d = pri → bcap (mr_ c) = mr * 2 ^ 20 ∧ mr_offset_for_gc_ c = mr * 2 ^ 20 - PAGE_SIZE) →
  link_inv M clients pri d (mkLink c false (rn_log nd) (rn_resp nd) None) ([], 0%nat) ∧
  rg_size_ (rn_log nd) = mr * 2 ^ 20.
Proof.
  intros (q & raw & Hst & Hflag & Hresp & Hmr & Hlead & Hwait) Hpri Hreq Hpc. pose proof (dc_mr_range _ _ _ _ Hconf) as Hr.
  destruct (dl_server_start_ok q raw nd Hst) as [Hi _].
  destruct (Initialize_fresh q raw (rn_log nd) mr Hi Hmr Hr) as (Hrg & Hlead' & Hwait' & Hfl & Hrep).
  rewrite Hwait in Hwait'. split; [|done]. split; simpl; try done.
  - by apply Hrep.
  - constructor.
  - congruence.
  - intros Hd. destruct (Hpc Hd) as [-> ->]. rewrite Hrg. unfold PAGE_SIZE. lia.
  - intros _. lia.
  - intros _ _. rewrite Hfl. congruence.
Qed.

Lemma connect_links_ok node raw uris env ls :
  (∀ d, d ∈ uris → ∃ nd, node d = Some nd ∧ replica_up pri d mr nd) → NoDup (ls.*1 ++ uris) →
  ∃ env' ls', connect_links p node raw uris env ls = Ok (env', ls ++ ls') ∧ ls'.*1 = uris ∧
    links_inv M clients pri (λ d l g, idle d l g ∧ sized pri (mr * 2 ^ 20) d l) ls'
      (replicate (length uris) ([], 0%nat)).
Proof.
  revert env ls. induction uris as [|d uris IH]; intros env ls Hnode Hnd; simpl.
  { exists env, []. rewrite app_nil_r. split; [done|]. split; [done|]. constructor. }
  destruct (flat_InitializeConn_ok p pri mr msg d raw env Hconf Htest Hport Hip) as (env1 & c & -> & Hc1 & Hc2 & Hc3).
  simpl. destruct (Hnode d) as (nd & -> & Hup); [set_solver|].
  rewrite link_at_None; [|apply list.NoDup_app in Hnd as (_ & Hd & _); intros Hin; apply (Hd d Hin); set_solver].
  set (l := mkLink c false (rn_log nd) (rn_resp nd) None).
  destruct (IH env1 (ls ++ [(d, l)])) as (env' & ls' & -> & Hk & Hinv).
  - intros d' Hd'. apply Hnode. set_solver.
  - rewrite fmap_app. simpl. by rewrite <- app_assoc.
  - exists env', ((d, l) :: ls'). rewrite <- app_assoc. split; [done|]. split; [by rewrite fmap_cons, Hk|].
    destruct (connected_link d c nd Hup Hc1 Hc2 Hc3) as [Hl Hrg].
    constructor; [|done]. split; [done|]. split; [done|]. intros Hd. simpl in *. split; [done|].
    destruct (Hc3 Hd) as [_ ->]. pose proof (dc_mr_range _ _ _ _ Hconf). unfold after_fetch, PAGE_SIZE. lia.
Qed.
End Boot.

(** Buffers for the messages to a shard. *)
Definition shard_msg (p : Properties) (cap : Z) : Prop :=
  ∃ z, stoull (GetProperty p "shard.msg_size" "2048") = Some z ∧ cap ≤ z < 2 ^ 31.

Lemma shard_InitializeConn_ok p cap uri param env :
  is_Some (stoi (GetProperty p "erpc.phy_port" "0")) → shard_msg p cap →
  ∃ env' s, shard_InitializeConn p uri param env = Some (env', s) ∧ cap ≤ s_msg_size s.
Proof.
  intros [ph Hph] (z & Hz & Hcap). apply stoull_range in Hz as Hz0. unfold shard_InitializeConn. rewrite Hph, Hz.
  destruct (make_nexus _ _) as [nx del]. destruct (rpc_ env); simpl; (do 2 eexists; split; [done|]); simpl; rewrite i32_small by lia; lia.
Qed.

Lemma connect_shards_ok p node uris param u n cap M k i env m :
  M ≤ PAGE_SIZE →
  is_Some (stoi (GetProperty p "erpc.phy_port" "0")) → shard_msg p cap →
  (0 < u)%nat → Z.of_nat u < 2 ^ 31 → Z.of_nat n < 2 ^ 31 → (i + k = n)%nat →
  (∀ s, (s < n)%nat → ∃ uri g, uris !! s = Some uri ∧ node uri = Some g ∧ shard_up u n s cap M g) →
  (∀ s, (s < i)%nat → ∃ g, m !! Z.of_nat s = Some g ∧ shard_holds u n s 0 g [] ∧ big_buffers M cap g) →
  (∀ z, is_Some (m !! z) → ∃ s, (s < n)%nat ∧ z = Z.of_nat s) →
  ∃ env' m', connect_shards p node uris param k i env m = Ok (env', m') ∧
    (∀ s, (s < n)%nat → ∃ g, m' !! Z.of_nat s = Some g ∧ shard_holds u n s 0 g [] ∧ big_buffers M cap g) ∧
    (∀ z, is_Some (m' !! z) → ∃ s, (s < n)%nat ∧ z = Z.of_nat s).
Proof.
  intros HM Hph Hmsg Hu Hu31 Hn31 Hik Hnode. revert i env m Hik. induction k as [|k IH]; intros i env m Hik Hm Hdom; simpl.
  { exists env, m. replace i with n in Hm by lia. done. }
  destruct (Hnode i ltac:(lia)) as (uri & g & -> & Hg & Hup). simpl.
  destruct (shard_InitializeConn_ok p cap uri param env Hph Hmsg) as (env1 & s & -> & Hs). simpl. rewrite Hg.
  destruct (shard_up_ok u n i cap M g Hup Hu ltac:(lia) Hu31 Hn31) as (Hh & Hrep & Hrd).
  apply IH; [lia| |].
  - intros s' Hs'. destruct (decide (s' = i)) as [->|Hne].
    + rewrite lookup_insert_eq. eexists. split; [done|]. split; [|done]. destruct Hh. by split.
    + rewrite lookup_insert_ne by lia. apply Hm. lia.
  - intros z. destruct (decide (z = Z.of_nat i)) as [->|Hne]; [exists i; split; [lia|done]|].
    rewrite lookup_insert_ne by done. apply Hdom.
Qed.

(** The addresses in a configuration. *)
Definition replica_uris (p : Properties) : list string :=
  SeparateValue (GetProperty p "dur_log.server_uri" "localhost:31850") ","%char.
Definition shard_uris (p : Properties) : list string :=
  SeparateValue (GetProperty p "shard.primary_uri" "localhost:31860") ","%char.

(** The configuration of the consensus log fits the servers that have been started. *)
Record cluster_ok (M : Z) (clients : list Z) (pri : string) (u n : nat) (cap mr msg : Z) (p : Properties)
    (replica : string → option ReplicaNode) (shard : string → option Shard) : Prop := {
  co_leader : GetProperty p "leader" "true" = "true"%string;
  co_test : GetProperty p "test" "false" = "false"%string;
  co_conf : dl_conf p pri mr msg;
  co_port : is_Some (stoi (GetProperty p "rdma.ip_port_ctrl" "8011"));
  co_ip : SeparateValue pri ":"%char ≠ [];
  co_msg : 4 + 16 * lenZ clients ≤ msg;
  co_fetch : is_Some (stoi (GetProperty p "cons_log.max_fetch_size" "0"));
  co_distinct : NoDup (replica_uris p);
  co_primary : pri ∈ replica_uris p;
  co_replicas : ∀ d, d ∈ replica_uris p → ∃ nd, replica d = Some nd ∧ replica_up pri d mr nd;
  co_u : (0 < u)%nat ∧ Z.of_nat u < 2 ^ 31;
  co_n : (0 < n)%nat ∧ Z.of_nat n < 2 ^ 31;
  co_unit : stoi (GetProperty p "shard.stripe_unit_size" "100000") = Some (Z.of_nat u);
  co_num : stoll (GetProperty p "shard.num" "") = Some (Z.of_nat n);
  co_M : M ≤ PAGE_SIZE;
  co_shard_msg : shard_msg p cap;
  co_shards : ∀ s, (s < n)%nat → ∃ uri g, shard_uris p !! s = Some uri ∧ shard uri = Some g ∧ shard_up u n s cap M g
}.

Lemma InitializeBackend_ok M clients pri u n cap mr msg p replica shard thread env :
  cluster_ok M clients pri u n cap mr msg p replica shard →
  ∃ env' be, InitializeBackend p shard thread env = Ok (env', be) ∧ store_repr u n M cap 0 be [].
Proof.
  intros []. destruct co_u0 as [Hu Hu31], co_n0 as [Hn Hn31]. unfold InitializeBackend.
  rewrite co_unit0, co_num0. simpl. rewrite i32_small, Nat2Z.id by lia.
  destruct (connect_shards_ok p shard (shard_uris p) ((λ t, t + CL_CLI_RPCID_OFFSET) <$> thread) u n cap M n 0 env ∅)
    as (env' & m & Hc & Hm & Hdom); try done.
  - apply co_conf0.
  - intros s Hs. lia.
  - intros z [? Hz]. by rewrite lookup_empty in Hz.
  - unfold shard_uris in Hc. rewrite Hc. simpl. eexists env', _. split; [done|].
    split; simpl; try done; [nia|]. rewrite u64_small by lia. done.
Qed.

Lemma Initialize_boots M clients pri u n cap mr msg p replica shard raw env :
  cluster_ok M clients pri u n cap mr msg p replica shard →
  ∃ env' cl ip, ConsensusLog_Initialize p replica shard raw env = Ok (env', Some cl) ∧
    (dur_cli_ cl).*1 = replica_uris p ∧
    cons_repr M clients pri u n cap cl (replicate (length (replica_uris p)) ([], 0%nat)) ip [] 0 ∧
    gc_apart pri (mr * 2 ^ 20) cl.
Proof.
  intros Hco. pose proof Hco as []. unfold ConsensusLog_Initialize. rewrite co_leader0. simpl.
  rewrite (dc_pri _ _ _ _ co_conf0).
  destruct (connect_links_ok M clients pri mr msg p co_conf0 co_test0 co_port0 co_ip0 co_msg0 replica raw
    (replica_uris p) env [] co_replicas0 co_distinct0) as (env1 & ls & Hls & Hk & Hinv).
  unfold replica_uris in Hls. rewrite Hls. simpl. destruct co_fetch0 as [mx ->]. simpl.
  apply list_elem_of_lookup in co_primary0 as [ip Hip]. rewrite <- Hk in Hip.
  assert (∃ l, ls !! ip = Some (pri, l)) as [l Hl].
  { rewrite list_lookup_fmap in Hip. destruct (ls !! ip) as [[d l]|]; [|done]. injection Hip as ->. by exists l. }
  rewrite <- Hk in co_distinct0. destruct (link_at_idx ls ip pri l co_distinct0 Hl) as [Hat _]. rewrite Hat. simpl.
  destruct (InitializeBackend_ok _ _ _ _ _ _ _ _ _ _ _ None env1 Hco) as (env2 & be & -> & Hbe). simpl.
  eexists env2, _, ip. split; [done|]. split; [done|]. split.
  - split; simpl; try done.
    + eapply Forall2_impl; [exact Hinv|]. by intros x y (? & ? & ?).
    + apply lookup_lt_Some in Hl. rewrite lookup_replicate_2; [done|]. by rewrite <- Hk, length_fmap.
    + unfold u32. apply Z.mod_pos_bound. lia.
  - intros l' Hl'. simpl in Hl'. simplify_eq. destruct (Forall2_lookup_l _ _ _ _ _ Hinv Hl) as (g & _ & _ & _ & Hs).
    by apply Hs.
Qed.

(** C14. Start-up.  When the replicas and the shards have been started over empty regions
    and folders, with configurations that agree with the one of the consensus log,
    [ConsensusLog::Initialize] succeeds, has a connection to each replica and each shard,
    and establishes the invariant of the consensus log with an empty log: every client
    object has the role, the buffers and the peer that the operations rely on, and the
    place of the watermarks in the local region is apart from what a fetch writes.  A
    process that is not the leader connects to nothing and is left without a state. *)
Theorem ConsensusLog_Initialize_ok M clients pri u n cap mr msg p replica shard raw env :
  (GetProperty p "leader" "true" ≠ "true"%string →
     ConsensusLog_Initialize p replica shard raw env = Ok (env, None)) ∧
  (cluster_ok M clients pri u n cap mr msg p replica shard →
   ∃ env' cl ip, ConsensusLog_Initialize p replica shard raw env = Ok (env', Some cl) ∧
     (dur_cli_ cl).*1 = replica_uris p ∧
     cons_repr M clients pri u n cap cl (replicate (length (replica_uris p)) ([], 0%nat)) ip [] 0 ∧
     gc_apart pri (mr * 2 ^ 20) cl).
Proof.
  split; [|apply Initialize_boots]. intros Hl. unfold ConsensusLog_Initialize.
  by destruct (streq_spec (GetProperty p "leader" "true") "true").
Qed.

(** ** Clients *)

(** A client can find the thread of a replica that serves it. *)
Definition client_threads (p : Properties) : Prop :=
  (∃ count, stoi (GetProperty p "dur_log.threadcount" "1") = Some count ∧ 1 ≤ count) ∧
  (ContainsKey p "dur_log.client_id" = true → is_Some (stoll (GetProperty p "dur_log.client_id" ""))).

Lemma dl_shared_ok p pri mr msg d raw env :
  dl_conf p pri mr msg → client_threads p →
  ∃ env' s, dl_InitializeConn p d false raw env =
    Some (env', mkCli (streq d pri) (Buf msg raw) [] false RPCToken.init [] ∅, s).
Proof.
  intros [] [(count & Hcount & Hpos) Hid]. apply stoull_range in dc_msg0 as Hmsg. destruct dc_phy0 as [ph Hph].
  assert (count < 2 ^ 31) as Hc31.
  { unfold stoi in Hcount. destruct (strtol _); [|done]. simpl in Hcount. destruct (_ && _) eqn:Hb; [|done].
    injection Hcount as <-. apply andb_prop in Hb as [_ Hb]. by apply Z.ltb_lt. }
  assert (∀ cnt, ∃ r, dl_remote_id p false cnt = Some r) as Hr.
  { intros cnt. unfold dl_remote_id. rewrite Hcount. simpl. rewrite (u64_small count) by lia.
    rewrite (proj2 (Z.eqb_neq count 0)) by lia. destruct (ContainsKey _ _); [|by eexists].
    destruct (Hid eq_refl) as [id ->]. by eexists. }
  unfold dl_InitializeConn, dl_local_id. destruct (Hr (default 0 (local_rpc_cnt_ env !! d))) as [[remote cnt] ->].
  rewrite dc_pri0, dc_msg0, Hph. destruct (make_nexus _ _) as [nx del].
  destruct (rpc_ env); simpl; rewrite (i32_small msg) by lia; by eexists _, _.
Qed.

(** A client has a connection to each replica, with its role and its buffers. *)
Lemma connect_client_ok p pri mr msg raw uris env ks :
  dl_conf p pri mr msg → client_threads p → NoDup (ks.*1 ++ uris) →
  ∃ env' ks', connect_client p raw uris env ks = Some (env', ks ++ ks') ∧ ks'.*1 = uris ∧
    Forall (λ dc, cli_ready dc.2 msg ∧ IsPrimary dc.2 = streq dc.1 pri) ks'.
Proof.
  intros Hc Ht. revert env ks. induction uris as [|d uris IH]; intros env ks Hnd; simpl.
  { exists env, []. rewrite app_nil_r. split; [done|]. split; [done|]. constructor. }
  destruct (dl_shared_ok p pri mr msg d raw env Hc Ht) as (env1 & s & ->). simpl.
  rewrite link_at_None; [|apply list.NoDup_app in Hnd as (_ & Hd & _); intros Hin; apply (Hd d Hin); set_solver].
  set (c := mkCli _ _ _ _ _ _ _).
  destruct (IH env1 (ks ++ [(d, c)])) as (env' & ks' & -> & Hk & Hks); [rewrite fmap_app; simpl; by rewrite <- app_assoc|].
  exists env', ((d, c) :: ks'). rewrite <- app_assoc. split; [done|]. split; [by rewrite fmap_cons, Hk|]. by constructor.
Qed.

(** ** RPC ids *)

Lemma u8_small z : 0 ≤ z < 2 ^ 8 → u8 z = z.
Proof. intros. by apply Z.mod_small. Qed.

Lemma dl_server_ids_nodup n_th : NoDup (dl_server_ids n_th) ↔ (n_th ≤ 63)%nat.
Proof.
  unfold dl_server_ids. split.
  - intros Hnd. destruct (decide (n_th ≤ 63)%nat) as [|Hgt]; [done|]. exfalso.
    apply list.NoDup_app in Hnd as (_ & Hd & _). apply (Hd DL_RSV_RPCID); [|set_solver].
    apply list_elem_of_fmap. exists 63%nat. split; [done|]. apply elem_of_seq. lia.
  - intros Hle. apply list.NoDup_app. split; [|split].
    + apply NoDup_fmap_2_strong; [|apply NoDup_seq]. intros i j Hi%elem_of_seq Hj%elem_of_seq.
      unfold DL_SVR_RPCID_OFFSET. rewrite !u8_small by lia. lia.
    + intros id (i & -> & Hi%elem_of_seq)%list_elem_of_fmap Hid%list_elem_of_singleton.
      unfold DL_SVR_RPCID_OFFSET, DL_RSV_RPCID in Hid. rewrite u8_small in Hid by lia. lia.
    + apply list.NoDup_singleton.
Qed.

Lemma server_id_elem n_th k : 0 ≤ k < Z.of_nat n_th → (n_th ≤ 63)%nat →
  u8 (DL_SVR_RPCID_OFFSET + k) ∈ dl_server_ids n_th ∧ u8 (DL_SVR_RPCID_OFFSET + k) ≠ DL_RSV_RPCID.
Proof.
  intros Hk Hn. unfold dl_server_ids. split.
  - apply elem_of_app. left. apply list_elem_of_fmap. exists (Z.to_nat k). rewrite Z2Nat.id by lia.
    split; [done|]. apply elem_of_seq. lia.
  - unfold DL_SVR_RPCID_OFFSET, DL_RSV_RPCID. rewrite u8_small by lia. lia.
Qed.

(** C28. The RPC ids of the durability log.  The threads of a replica have different ids
    exactly if there are at most 63 of them beside the one for the consensus log.  Then,
    with the number of threads known to the clients at most that of the replica, every
    connection goes to a thread that exists, and to the reserved one exactly if it is made
    by the consensus log. *)
Theorem dl_rpc_ids n_th :
  (NoDup (dl_server_ids n_th) ↔ (n_th ≤ 63)%nat) ∧
  ∀ p count cnt exclusive, (n_th ≤ 63)%nat →
    stoi (GetProperty p "dur_log.threadcount" "1") = Some count → 1 ≤ count ≤ Z.of_nat n_th → 0 ≤ cnt →
    (ContainsKey p "dur_log.client_id" = true → is_Some (stoll (GetProperty p "dur_log.client_id" ""))) →
    ∃ id cnt', dl_remote_id p exclusive cnt = Some (id, cnt') ∧ id ∈ dl_server_ids n_th ∧
      (id = DL_RSV_RPCID ↔ exclusive = true) ∧ 0 ≤ cnt'.
Proof.
  split; [apply dl_server_ids_nodup|]. intros p count cnt exclusive Hn Hcount Hr Hcnt Hid.
  unfold dl_remote_id. rewrite Hcount. simpl. rewrite (u64_small count) by lia. destruct exclusive.
  { exists DL_RSV_RPCID, cnt. split; [done|]. split; [apply elem_of_app; right; set_solver|]. done. }
  rewrite (proj2 (Z.eqb_neq count 0)) by lia.
  destruct (ContainsKey _ _) eqn:Hk.
  - destruct (Hid eq_refl) as [id ->]. simpl. pose proof (Z.mod_pos_bound (u64 id) count ltac:(lia)).
    destruct (server_id_elem n_th (u64 id mod count) ltac:(lia) Hn). by eexists _, _.
  - pose proof (Z.mod_pos_bound cnt count ltac:(lia)).
    destruct (server_id_elem n_th (cnt mod count) ltac:(lia) Hn). eexists _, _. split; [done|]. split; [done|].
    split; [done|]. by apply Z.mod_pos_bound.
Qed.

Lemma dl_rpc_ids_witness :
  ∃ id cnt', dl_remote_id (<["dur_log.threadcount"%string := "3"%string]> ∅) false 7 = Some (id, cnt') ∧
    id ∈ dl_server_ids 4 ∧ (id = DL_RSV_RPCID ↔ false = true) ∧ 0 ≤ cnt'.
Proof.
  apply (proj2 (dl_rpc_ids 4) (<["dur_log.threadcount"%string := "3"%string]> ∅) 3); [lia|by vm_compute|lia|lia|].
  by vm_compute.
Defined.

(** ** A small cluster *)

(** Two replicas and two shards, one of them with a backup. *)
Definition small_cluster : Properties :=
  <["dur_log.server_uri" := "p:1,b:1"]> (<["dur_log.primary_uri" := "p:1"]>
  (<["dur_log.mr_size_m" := "1"]> (<["shard.primary_uri" := "s:1,t:1"]> (<["shard.num" := "2"]>
  (<["shard.stripe_unit_size" := "2"]> (∅ : gmap string string))))))%string.

Definition small_replica (d : string) : option ReplicaNode :=
  if streq d "p:1" then dl_server_start (<["leader" := "true"]> small_cluster)%string ∅
  else dl_server_start small_cluster ∅.

Definition shard_props (id : string) : Properties := <["shard.id"%string := id]> small_cluster.

Definition leader_props (id backup : string) : Properties :=
  <["leader" := "true"]> (<["shard.backup_uri" := backup]> (shard_props id))%string.

Definition start_shard (id backup : string) : option Shard :=
  match shard_start (leader_props id backup) true false ∅ (λ _, shard_Initialize (shard_props id) true false ∅) RpcEnv_init with
  | Ok g => Some g
  | _ => None
  end.

Definition small_shard (d : string) : option Shard :=
  if streq d "s:1" then start_shard "0" "c:1" else start_shard "1" "".

Lemma start_shard_up id backup s g :
  start_shard id backup = Some g → shard_conf (shard_props id) 2 2 s → shard_conf (leader_props id backup) 2 2 s →
  GetProperty (leader_props id backup) "leader" "false" = "true"%string →
  stoull (GetProperty (leader_props id backup) "shard.msg_size" "2048") = Some 2048 →
  stoull (GetProperty (leader_props id backup) "dur_log.msg_size" "8192") = Some 8192 → shard_up 2 2 s 2048 1000 g.
Proof.
  intros Hg Hb Hp Hl Hm Hd. unfold start_shard in Hg. destruct (shard_start _ _ _ _ _ _) as [g'| |] eqn:Hst; [|done..].
  injection Hg as ->. split. eexists (leader_props id backup), true, false, _, RpcEnv_init. split; [exact Hst|].
  split; [exact Hp|]. split; [exact Hl|]. split; [intros z Hz; rewrite Hm in Hz; injection Hz as <-; lia|].
  split; [intros z Hz; rewrite Hd in Hz; injection Hz as <-; lia|]. intros b st Hbs. by exists (shard_props id), true, false.
Qed.

Lemma small_shard_up s :
  (s < 2)%nat → ∃ uri g, ["s:1"; "t:1"]%string !! s = Some uri ∧ small_shard uri = Some g ∧ shard_up 2 2 s 2048 1000 g.
Proof.
  intros Hs. destruct s as [|[|s]]; [| |lia].
  - destruct (start_shard "0" "c:1") as [g|] eqn:Hg; [|by vm_compute in Hg]. exists "s:1"%string, g. split; [done|].
    split; [exact Hg|]. apply (start_shard_up _ _ _ _ Hg); clear Hg g; by vm_compute.
  - destruct (start_shard "1" "") as [g|] eqn:Hg; [|by vm_compute in Hg]. exists "t:1"%string, g. split; [done|].
    split; [exact Hg|]. apply (start_shard_up _ _ _ _ Hg); clear Hg g; by vm_compute.
Qed.

Lemma small_replica_up d : d ∈ ["p:1"; "b:1"]%string → ∃ nd, small_replica d = Some nd ∧ replica_up "p:1" d 1 nd.
Proof.
  rewrite !elem_of_cons. unfold small_replica. intros [->|[->|Hd]]; [| |by apply elem_of_nil in Hd]; simpl;
    (destruct (dl_server_start _ _) as [nd|] eqn:Hnd; [|by vm_compute in Hnd]); exists nd; (split; [done|]);
    eexists _, ∅; (split; [exact Hnd|]); (split; [by vm_compute|]);
    apply dl_server_start_ok in Hnd as [_ Hresp]; vm_compute in Hresp; injection Hresp as Hresp;
    change (8192 = bcap (rn_resp nd)) in Hresp; rewrite <- Hresp; by vm_compute.
Qed.

Lemma small_cluster_ok : cluster_ok 1000 [42; 43] "p:1" 2 2 2048 1 8192 small_cluster small_replica small_shard.
Proof.
  assert (replica_uris small_cluster = ["p:1"; "b:1"]%string) as Huris by (by vm_compute).
  split; rewrite ?Huris; [by vm_compute|by vm_compute|..].
  - split; [by vm_compute..|by eexists; vm_compute|by eexists; vm_compute].
  - by eexists; vm_compute.
  - by vm_compute.
  - by vm_compute.
  - by eexists; vm_compute.
  - apply list.NoDup_cons. split; [set_solver|]. apply list.NoDup_singleton.
  - set_solver.
  - exact small_replica_up.
  - lia.
  - lia.
  - by vm_compute.
  - by vm_compute.
  - by vm_compute.
  - exists 2048. by vm_compute.
  - assert (shard_uris small_cluster = ["s:1"; "t:1"]%string) as -> by (by vm_compute). exact small_shard_up.
Qed.

Lemma ConsensusLog_Initialize_ok_witness :
  ∃ env' cl ip, ConsensusLog_Initialize small_cluster small_replica small_shard ∅ RpcEnv_init = Ok (env', Some cl) ∧
    (dur_cli_ cl).*1 = replica_uris small_cluster ∧
    cons_repr 1000 [42; 43] "p:1" 2 2 2048 cl (replicate (length (replica_uris small_cluster)) ([], 0%nat)) ip [] 0 ∧
    gc_apart "p:1" (1 * 2 ^ 20) cl.
Proof.
  exact (proj2 (ConsensusLog_Initialize_ok 1000 [42; 43] "p:1" 2 2 2048 1 8192 _ _ _ ∅ RpcEnv_init) small_cluster_ok).
Defined.
