(* ===== verification/Lifecycle.v ===== *)
(** Setting up and tearing down the eRPC objects that the connections of a process share.

    [InitializeConn] and [Finalize] of [src/dur_log/dur_log_erpc_cli.cc] and
    [src/cons_log/storage/shard_client.cc], [Finalize] of [src/client/lazylog_cli.cc],
    [src/cons_log/cons_log.cc], [src/cons_log/erpc_cl_transport.cc],
    [src/cons_log/storage/naive_backend.cc] and [src/cons_log/storage/shard_server.cc].

    A process has one [Nexus], each thread one [Rpc] object on it, and the connections of a
    thread share its [Rpc].  A counter per thread decides which connection deletes the
    [Rpc]; the connection that made the [Nexus] may delete it.  Here objects are numbered
    and a pointer to one that was deleted is dangling: using it is a [Fault].  Of eRPC it is
    assumed that an [Rpc] leaves its [Nexus] when it is deleted, which must still be there. *)

From Stdlib Require Import Ascii.
From stdpp Require Import strings gmultiset.
From S2P Require Import Prelude Props Sequencer LogEntry DurLogFlat DlTransport FlatCli.
From S2P Require Import Startup.

Local Open Scope Z_scope.

(** ** The objects of a process *)

(** [nexus_] with the object it points to; the thread local [rpc_], with the object and its
    id, and [rpc_use_cnt_]; the counters; and the objects that exist, an [Rpc] with its
    [Nexus]. *)
Record Proc : Type := mkProc {
  p_nexus : option (nat * string);
  p_rpc : gmap nat (nat * Z);
  p_use : gmap nat Z;
  p_global : Z;
  p_cnt : gmap string Z;
  live_nexus : gset nat;
  live_rpc : gmap nat nat;
  p_fresh : nat
}.

Definition Proc_init : Proc := mkProc None ∅ ∅ 0 ∅ ∅ ∅ 0.

(** What a thread sees. *)
Definition env_of (P : Proc) (t : nat) : RpcEnv :=
  mkRpcEnv (snd <$> p_nexus P) (snd <$> p_rpc P !! t) (default 0 (p_use P !! t)) (p_global P) (p_cnt P).

(** [new erpc::Nexus] if there is none. *)
Definition ensure_nexus (uri : string) (P : Proc) : Proc :=
  match p_nexus P with
  | Some _ => P
  | None => mkProc (Some (p_fresh P, uri)) (p_rpc P) (p_use P) (p_global P) (p_cnt P)
              ({[p_fresh P]} ∪ live_nexus P) (live_rpc P) (S (p_fresh P))
  end.

(** [new erpc::Rpc] if the thread has none; a session is then created on it.  That the id is
    not used by another thread is required of the ids of servers ([server_enter]). *)
Definition ensure_rpc (t : nat) (id : Z) (P : Proc) : outcome Proc :=
  match p_rpc P !! t with
  | Some (r, _) => if decide (is_Some (live_rpc P !! r)) then Ok P else Fault
  | None =>
      match p_nexus P with
      | Some (n, _) =>
          if decide (n ∈ live_nexus P)
          then Ok (mkProc (p_nexus P) (<[t := (p_fresh P, id)]> (p_rpc P)) (p_use P) (p_global P) (p_cnt P)
                     (live_nexus P) (<[p_fresh P := n]> (live_rpc P)) (S (p_fresh P)))
          else Fault
      | None => Fault
      end
  end.

(** The counters after [InitializeConn]. *)
Definition set_counters (t : nat) (env : RpcEnv) (P : Proc) : Proc :=
  mkProc (p_nexus P) (p_rpc P) (<[t := rpc_use_cnt_ env]> (p_use P)) (global_rpc_id_ env) (local_rpc_cnt_ env)
    (live_nexus P) (live_rpc P) (p_fresh P).

(** What a connection goes to: a replica of the durability log, possibly as the consensus
    log, or a shard, possibly with the id of one of its read threads. *)
Inductive target : Type :=
  | Replica_of (uri : string) (exclusive : bool)
  | Shard_of (uri : string) (param : option Z).

Definition target_connect (p : Properties) (x : target) (env : RpcEnv) : option (RpcEnv * Session) :=
  match x with
  | Replica_of uri exclusive => '(env, _, s) ← dl_InitializeConn p uri exclusive ∅ env; Some (env, s)
  | Shard_of uri param => shard_InitializeConn p uri param env
  end.

(** An open connection. *)
Record Handle : Type := mkHandle { h_thread : nat; h_shard : bool; h_session : Session }.

Definition is_shard (x : target) : bool := match x with Shard_of _ _ => true | Replica_of _ _ => false end.

Definition open_one (p : Properties) (t : nat) (x : target) (P : Proc) : outcome (Proc * Handle) :=
  '(env, s) ← lift (target_connect p x (env_of P t));
  P ← ensure_rpc t (default 0 (rpc_ env)) (ensure_nexus (default EmptyString (nexus_ env)) P);
  Ok (set_counters t env P, mkHandle t (is_shard x) s).

Fixpoint open_all (p : Properties) (xs : list (nat * target)) (P : Proc) : outcome (Proc * list Handle) :=
  match xs with
  | [] => Ok (P, [])
  | (t, x) :: xs =>
      '(P, h) ← open_one p t x P;
      '(P, hs) ← open_all p xs P;
      Ok (P, h :: hs)
  end.

(** The hash map of the connections to [uris], in which an address that is named twice has
    the last one. *)
Definition by_uri (uris : list string) (hs : list Handle) : gmap string Handle := list_to_map (reverse (zip uris hs)).

(** The shards that [InitializeBackend] connects to: the first [shard_num_] of the list. *)
Definition shard_conns (p : Properties) : outcome (list string) :=
  _ ← lift (stoi (GetProperty p "shard.stripe_unit_size" "100000"));
  num ← lift (stoll (GetProperty p "shard.num" ""));
  if lenZ (shard_uris p) <? i32 num then Fault else Ok (take (Z.to_nat (i32 num)) (shard_uris p)).

(** The connections that [LazyLogClient::Initialize] makes: [dur_clis_] and those of
    [be_rd_cli_], whose [thread_id_] is [id]. *)
Definition client_open (p : Properties) (t : nat) (id : Z) (P : Proc) : outcome (Proc * gmap string Handle * list Handle) :=
  '(P, hr) ← open_all p ((λ u, (t, Replica_of u false)) <$> replica_uris p) P;
  ss ← shard_conns p;
  '(P, hs) ← open_all p ((λ u, (t, Shard_of u (Some id))) <$> ss) P;
  Ok (P, by_uri (replica_uris p) hr, hs).

(** ** Finalize *)

(** [delete rpc_]. *)
Definition delete_rpc (r : nat) (P : Proc) : outcome Proc :=
  match live_rpc P !! r with
  | Some n =>
      if decide (n ∈ live_nexus P)
      then Ok (mkProc (p_nexus P) (p_rpc P) (p_use P) (p_global P) (p_cnt P) (live_nexus P) (delete r (live_rpc P)) (p_fresh P))
      else Fault
  | None => Fault
  end.

(** [delete nexus_].  The clients then reset the pointer; a transport does not, but its
    process ends there. *)
Definition delete_nexus (P : Proc) : outcome Proc :=
  match p_nexus P with
  | Some (n, _) =>
      if decide (n ∈ live_nexus P)
      then Ok (mkProc None (p_rpc P) (p_use P) (p_global P) (p_cnt P) (live_nexus P ∖ {[n]}) (live_rpc P) (p_fresh P))
      else Fault
  | None => Ok P
  end.

(** The message buffers are freed, on the [Rpc] of the thread, and the thread has one user
    less; the last one deletes the [Rpc], but leaves [rpc_] as it is. *)
Definition release_rpc (t : nat) (P : Proc) : outcome Proc :=
  match p_rpc P !! t with
  | Some (r, _) =>
      if decide (is_Some (live_rpc P !! r)) then
        let use := default 0 (p_use P !! t) in
        let P := mkProc (p_nexus P) (p_rpc P) (<[t := i32 (use - 1)]> (p_use P)) (p_global P) (p_cnt P)
                   (live_nexus P) (live_rpc P) (p_fresh P) in
        if use =? 1 then delete_rpc r P else Ok P
      else Fault
  | None => Fault
  end.

(** [DurabilityLogERPCCli::Finalize]. *)
Definition dl_Finalize (h : Handle) (P : Proc) : outcome Proc :=
  P ← release_rpc (h_thread h) P;
  if negb (del_nexus_on_finalize_ (h_session h)) then Ok P else
  let g := p_global P in
  let P := mkProc (p_nexus P) (p_rpc P) (p_use P) (u8 (g - 1)) (p_cnt P) (live_nexus P) (live_rpc P) (p_fresh P) in
  if g =? 1 then delete_nexus P else Ok P.

(** [ShardClient::Finalize]. *)
Definition shard_Finalize (h : Handle) (P : Proc) : outcome Proc :=
  P ← release_rpc (h_thread h) P;
  if del_nexus_on_finalize_ (h_session h) then delete_nexus P else Ok P.

Definition close_one (h : Handle) (P : Proc) : outcome Proc :=
  if h_shard h then shard_Finalize h P else dl_Finalize h P.

Fixpoint close_all (hs : list Handle) (P : Proc) : outcome Proc :=
  match hs with
  | [] => Ok P
  | h :: hs => P ← close_one h P; close_all hs P
  end.

(** [LazyLogClient::Finalize]: the shards, then the replicas, each in the order of a hash
    map, that is, in any order. *)
Definition client_Finalize (shards replicas : list Handle) (P : Proc) : outcome Proc :=
  P ← close_all shards P; close_all replicas P.

(** [ERPCConsLogTransport::Finalize] with [ConsensusLog::Finalize]: joining a fetch thread
    that was never started throws. *)
Definition cl_Finalize (pipelined : bool) (shards replicas : list Handle) (P : Proc) : outcome Proc :=
  if negb pipelined then Fault else
  P ← close_all shards P; P ← close_all replicas P; delete_nexus P.

(** An [Rpc] that exists has the id. *)
Definition id_used (P : Proc) (id : Z) : bool :=
  existsb (λ '(_, (r, id')), (id' =? id) && bool_decide (is_Some (live_rpc P !! r))) (map_to_list (p_rpc P)).

(** A server thread: an [Rpc] with an id of its own on the thread, unless the thread has
    one, as the main thread of a shard from the connections to the backups.  eRPC refuses an
    id that is used. *)
Definition server_enter (t : nat) (id : Z) (P : Proc) : outcome Proc :=
  if bool_decide (p_rpc P !! t = None) && id_used P id then Fault else
  P ← ensure_rpc t id P;
  Ok (mkProc (p_nexus P) (p_rpc P) (<[t := i32 (default 0 (p_use P !! t) + 1)]> (p_use P)) (p_global P) (p_cnt P)
        (live_nexus P) (live_rpc P) (p_fresh P)).

(** [ShardServer::Finalize], after [server_func] has returned in the main thread: the
    connections to the backups, and the nexus. *)
Definition shard_svr_Finalize (backups : list Handle) (P : Proc) : outcome Proc :=
  P ← close_all backups P; delete_nexus P.

(** ** Connecting *)

(** A configuration with which connections can be made. *)
Definition conn_conf (p : Properties) : Prop :=
  (∃ pri mr msg, dl_conf p pri mr msg) ∧ client_threads p ∧ ∃ cap, shard_msg p cap.

(** Whether a connection of a thread without an [Rpc] counts in [global_rpc_id_]. *)
Definition counted (x : target) : bool := match x with Replica_of _ false => true | _ => false end.

Lemma target_connect_ok p x env :
  conn_conf p →
  ∃ env' s, target_connect p x env = Some (env', s) ∧ is_Some (nexus_ env') ∧
    rpc_use_cnt_ env' = i32 (rpc_use_cnt_ env + 1) ∧
    global_rpc_id_ env' =
      (if bool_decide (rpc_ env = None) && counted x then u8 (global_rpc_id_ env + 1) else global_rpc_id_ env) ∧
    del_nexus_on_finalize_ s = bool_decide (nexus_ env = None).
Proof.
  intros ((pri & mr & msg & []) & [(count & Hcount & Hpos) Hid] & cap & z & Hz & _).
  destruct dc_phy as [ph Hph]. assert (∀ e cnt, ∃ r, dl_remote_id p e cnt = Some r) as Hr.
  { intros e cnt. unfold dl_remote_id. rewrite Hcount. simpl. destruct e; [by eexists|].
    assert (count < 2 ^ 64) as Hc64.
    { unfold stoi in Hcount. destruct (strtol _); [|done]. simpl in Hcount. destruct (_ && _) eqn:Hb; [|done].
      injection Hcount as <-. apply andb_prop in Hb as [_ Hb]. apply Z.ltb_lt in Hb. lia. }
    rewrite (u64_small count), (proj2 (Z.eqb_neq count 0)) by lia. destruct (ContainsKey _ _); [|by eexists].
    destruct (Hid eq_refl) as [id ->]. by eexists. }
  destruct x as [uri e|uri param]; simpl.
  - unfold dl_InitializeConn, dl_local_id, make_nexus.
    destruct (Hr e (default 0 (local_rpc_cnt_ env !! uri))) as [[remote cnt] ->]. rewrite dc_msg, Hph.
    destruct (rpc_ env), (nexus_ env), e; simpl; eexists _, _; split; done.
  - unfold shard_InitializeConn, make_nexus. rewrite Hz, Hph.
    destruct (rpc_ env), (nexus_ env); simpl; eexists _, _; split; done.
Qed.

(** ** The invariant *)

(** [us] has each thread as often as its [Rpc] has users.  Every thread with a user has an
    [Rpc] of its own on the nexus [n], and these are all that there are. *)
Record lc_inv (P : Proc) (n : nat) (us : gmultiset nat) : Prop := {
  lc_use : ∀ t, default 0 (p_use P !! t) = Z.of_nat (multiplicity t us);
  lc_small : ∀ t, Z.of_nat (multiplicity t us) < 2 ^ 31;
  lc_own : ∀ t, t ∈ us → ∃ r id, p_rpc P !! t = Some (r, id) ∧ live_rpc P !! r = Some n;
  lc_owner : ∀ r n', live_rpc P !! r = Some n' → n' = n ∧ ∃ t id, p_rpc P !! t = Some (r, id) ∧ t ∈ us;
  lc_inj : ∀ t t' r id id', p_rpc P !! t = Some (r, id) → p_rpc P !! t' = Some (r, id') → t = t';
  lc_below : ∀ t r id, p_rpc P !! t = Some (r, id) → (r < p_fresh P)%nat
}.

(** A user of the thread [t] goes while the nexus is there. *)
Lemma release_rpc_ok P n t us :
  lc_inv P n ({[+ t +]} ⊎ us) → n ∈ live_nexus P →
  ∃ P', release_rpc t P = Ok P' ∧ lc_inv P' n us ∧ p_rpc P' = p_rpc P ∧
    p_nexus P' = p_nexus P ∧ p_global P' = p_global P ∧ live_nexus P' = live_nexus P.
Proof.
  intros [] Hn. destruct (lc_own0 t ltac:(multiset_solver)) as (r & id & Hr & Hlive). unfold release_rpc. rewrite Hr. cbv zeta.
  rewrite decide_True by (by rewrite Hlive). pose proof (lc_use0 t) as Hu. pose proof (lc_small0 t) as Hs.
  rewrite multiplicity_disj_union, multiplicity_singleton_eq in Hu, Hs. rewrite Hu.
  assert (∀ t', default 0 (<[t := i32 (Z.of_nat (1 + multiplicity t us) - 1)]> (p_use P) !! t') =
    Z.of_nat (multiplicity t' us)) as Huse.
  { intros t'. destruct (decide (t' = t)) as [->|Hne].
    - rewrite lookup_insert_eq. simpl. rewrite i32_small by lia. lia.
    - rewrite lookup_insert_ne by done. rewrite lc_use0, multiplicity_disj_union, multiplicity_singleton_ne by done. lia. }
  assert (∀ t', Z.of_nat (multiplicity t' us) < 2 ^ 31) as Hsm.
  { intros t'. specialize (lc_small0 t'). rewrite multiplicity_disj_union in lc_small0. lia. }
  destruct (Z.eqb_spec (Z.of_nat (1 + multiplicity t us)) 1) as [H1|H1].
  - unfold delete_rpc. cbn [live_rpc live_nexus]. rewrite Hlive, decide_True by done. eexists. split; [done|].
    assert (t ∉ us) as Ht by (apply not_elem_of_multiplicity; lia).
    split; [|done]. split; simpl; try done.
    + intros t' Ht'. destruct (lc_own0 t' ltac:(multiset_solver)) as (r' & id' & Hr' & Hl'). exists r', id'. split; [done|].
      rewrite lookup_delete_ne; [done|]. intros ->. by rewrite (lc_inj0 _ _ _ _ _ Hr Hr') in Ht.
    + intros r' n' Hr'. apply lookup_delete_Some in Hr' as [Hne Hr']. destruct (lc_owner0 _ _ Hr') as (-> & t' & id' & Ht' & Hin).
      split; [done|]. exists t', id'. split; [done|]. apply gmultiset_elem_of_disj_union in Hin as [Hin|Hin]; [|done].
      apply gmultiset_elem_of_singleton in Hin as ->. congruence.
  - eexists. split; [done|]. split; [|done]. assert (t ∈ us) as Ht by (apply elem_of_multiplicity; lia). split; simpl; try done.
    + intros t' Ht'. apply lc_own0. multiset_solver.
    + intros r' n' Hr'. destruct (lc_owner0 _ _ Hr') as (-> & t' & id' & Ht' & Hin). split; [done|]. exists t', id'.
      split; [done|]. multiset_solver.
Qed.

(** The same when it is gone: the last user of a thread cannot delete its [Rpc]. *)
Lemma release_rpc_dead P n t us :
  lc_inv P n ({[+ t +]} ⊎ us) → n ∉ live_nexus P →
  if decide (t ∈ us)
  then ∃ P', release_rpc t P = Ok P' ∧ lc_inv P' n us ∧ live_nexus P' = live_nexus P
  else release_rpc t P = Fault.
Proof.
  intros Hi Hn. destruct (lc_own _ _ _ Hi t ltac:(multiset_solver)) as (r & id & Hr & Hlive).
  pose proof (lc_use _ _ _ Hi t) as Hu. rewrite multiplicity_disj_union, multiplicity_singleton_eq in Hu.
  case_decide as Ht.
  - set (Q := mkProc (p_nexus P) (p_rpc P) (p_use P) (p_global P) (p_cnt P) ({[n]} ∪ live_nexus P) (live_rpc P) (p_fresh P)).
    assert (lc_inv Q n ({[+ t +]} ⊎ us)) as HQ by (destruct Hi; by split).
    destruct (release_rpc_ok Q n t us HQ ltac:(set_solver)) as (Q' & HQ' & HiQ & _). unfold release_rpc in HQ' |- *. cbv zeta in HQ' |- *.
    cbn [p_rpc live_rpc p_use p_nexus p_global p_cnt live_nexus p_fresh Q] in HQ'. rewrite Hr in HQ' |- *.
    rewrite decide_True in HQ' |- * by (by rewrite Hlive). rewrite Hu in HQ' |- *. pose proof (proj1 (elem_of_multiplicity _ _) Ht) as Hm.
    assert ((Z.of_nat (1 + multiplicity t us) =? 1) = false) as Hb by (apply Z.eqb_neq; lia). rewrite Hb in HQ' |- *. injection HQ' as <-. eexists. split; [done|]. split; [|done].
    destruct HiQ. by split.
  - apply not_elem_of_multiplicity in Ht. unfold release_rpc. rewrite Hr, decide_True by (by rewrite Hlive). cbv zeta.
    rewrite Hu, (proj2 (Z.eqb_eq _ _)) by lia. unfold delete_rpc. cbn [live_rpc live_nexus]. by rewrite Hlive, decide_False.
Qed.

(** The invariant does not look at the counters of the process. *)
Lemma lc_inv_eq P P' n us :
  lc_inv P n us → p_use P' = p_use P → p_rpc P' = p_rpc P → live_rpc P' = live_rpc P → p_fresh P' = p_fresh P →
  lc_inv P' n us.
Proof. intros [] E1 E2 E3 E4. split; by rewrite ?E1, ?E2, ?E3, ?E4. Qed.

Lemma lc_inv_empty P n : lc_inv P n ∅ → live_rpc P = ∅.
Proof.
  intros []. apply map_empty. intros r. destruct (live_rpc P !! r) as [n'|] eqn:Hr; [|done].
  destruct (lc_owner0 _ _ Hr) as (_ & t & id & _ & Ht). multiset_solver.
Qed.

(** ** Closing connections *)

(** The threads of the connections [hs]. *)
Definition users (hs : list Handle) : gmultiset nat := list_to_set_disj (h_thread <$> hs).

(** A connection that found a nexus. *)
Definition plain (h : Handle) : Prop := del_nexus_on_finalize_ (h_session h) = false.

Lemma users_app hs hs' : users (hs ++ hs') = users hs ⊎ users hs'.
Proof. unfold users. by rewrite fmap_app, list_to_set_disj_app. Qed.

Lemma users_perm hs hs' : hs ≡ₚ hs' → users hs = users hs'.
Proof. intros Hp. unfold users. by rewrite Hp. Qed.

Lemma close_plain h P : plain h → close_one h P = release_rpc (h_thread h) P.
Proof.
  intros Hp. unfold close_one, shard_Finalize, dl_Finalize. rewrite Hp.
  by destruct (h_shard h), (release_rpc _ P).
Qed.

Lemma close_all_app hs hs' P : close_all (hs ++ hs') P = (P ← close_all hs P; close_all hs' P).
Proof. revert P. induction hs as [|h hs IH]; intros P; [done|]. simpl. destruct (close_one h P); simpl; auto. Qed.

Lemma close_all_plain hs P n us :
  Forall plain hs → lc_inv P n (users hs ⊎ us) → n ∈ live_nexus P →
  ∃ P', close_all hs P = Ok P' ∧ lc_inv P' n us ∧ p_nexus P' = p_nexus P ∧ p_global P' = p_global P ∧
    live_nexus P' = live_nexus P.
Proof.
  intros Hp. revert P. induction Hp as [|h hs Hh Hp IH]; intros P Hi Hn.
  - exists P. split_and!; try done. by replace us with (users [] ⊎ us) by multiset_solver.
  - simpl. rewrite close_plain by done. change (users (h :: hs)) with ({[+ h_thread h +]} ⊎ users hs) in Hi.
    rewrite <- gmultiset_disj_union_assoc in Hi. destruct (release_rpc_ok _ _ _ _ Hi Hn) as (P1 & -> & Hi1 & _ & E1 & E2 & E3).
    destruct (IH P1 Hi1 ltac:(by rewrite E3)) as (P' & HP' & Hi' & F1 & F2 & F3). exists P'. simpl.
    rewrite F1, F2, F3. by split_and!.
Qed.

Lemma close_all_dead hs P n :
  Forall plain hs → hs ≠ [] → lc_inv P n (users hs) → n ∉ live_nexus P → close_all hs P = Fault.
Proof.
  intros Hp. revert P. induction Hp as [|h hs Hh Hp IH]; intros P Hne Hi Hn; [done|]. simpl. rewrite close_plain by done.
  change (users (h :: hs)) with ({[+ h_thread h +]} ⊎ users hs) in Hi. pose proof (release_rpc_dead _ _ _ _ Hi Hn) as Hr.
  case_decide as Ht; [|by rewrite Hr]. destruct Hr as (P' & -> & Hi' & E). simpl. apply IH; [|done|by rewrite E].
  intros ->. unfold users in Ht. simpl in Ht. multiset_solver.
Qed.

(** The connection that made the nexus, to a replica, is closed: the nexus goes if this was
    the only thread that counts. *)
Lemma close_creator h P n u us :
  del_nexus_on_finalize_ (h_session h) = true → h_shard h = false →
  lc_inv P n ({[+ h_thread h +]} ⊎ us) → n ∈ live_nexus P → p_nexus P = Some (n, u) →
  ∃ P', close_one h P = Ok P' ∧ lc_inv P' n us ∧
    live_nexus P' = (if p_global P =? 1 then live_nexus P ∖ {[n]} else live_nexus P).
Proof.
  intros Hd Hs Hi Hn HP. unfold close_one, dl_Finalize. rewrite Hs, Hd.
  destruct (release_rpc_ok _ _ _ _ Hi Hn) as (P1 & -> & Hi1 & _ & E1 & E2 & E3). simpl. rewrite E2.
  destruct (p_global P =? 1) eqn:Hg; [|eexists; split; [done|]; split; [by apply (lc_inv_eq P1)|done]].
  unfold delete_nexus. cbn [p_nexus live_nexus]. rewrite E1, HP, E3, decide_True by done.
  eexists. split; [done|]. split; [by apply (lc_inv_eq P1)|done].
Qed.

(** ** Opening connections *)

(** The process with the connections [us] open, all on the nexus [n]: the threads that have
    an [Rpc] are those with a connection. *)
Record open_inv (P : Proc) (n : nat) (us : gmultiset nat) : Prop := {
  oi_lc : lc_inv P n us;
  oi_nexus : snd <$> p_nexus P ≠ None ∧ fst <$> p_nexus P = Some n;
  oi_live : live_nexus P = {[n]};
  oi_rpc : ∀ t, is_Some (p_rpc P !! t) → t ∈ us
}.

(** One user more of the thread [t]. *)
Lemma add_user P n t us env :
  lc_inv P n us → Z.of_nat (multiplicity t us) + 1 < 2 ^ 31 → rpc_use_cnt_ env = i32 (default 0 (p_use P !! t) + 1) →
  (∀ t', default 0 (<[t := rpc_use_cnt_ env]> (p_use P) !! t') = Z.of_nat (multiplicity t' ({[+ t +]} ⊎ us))) ∧
  (∀ t', Z.of_nat (multiplicity t' ({[+ t +]} ⊎ us)) < 2 ^ 31).
Proof.
  intros [] Hsmall ->. split; intros t'; rewrite multiplicity_disj_union.
  - destruct (decide (t' = t)) as [->|Hd].
    + rewrite lookup_insert_eq, multiplicity_singleton_eq. simpl. rewrite lc_use0, i32_small by lia. lia.
    + rewrite lookup_insert_ne, multiplicity_singleton_ne, lc_use0 by done. lia.
  - rewrite multiplicity_singleton. specialize (lc_small0 t'). case_decide; subst; lia.
Qed.

(** The thread [t], which had no [Rpc], gets one. *)
Lemma new_rpc P n t id us env :
  lc_inv P n us → p_rpc P !! t = None →
  Z.of_nat (multiplicity t us) + 1 < 2 ^ 31 → rpc_use_cnt_ env = i32 (default 0 (p_use P !! t) + 1) →
  lc_inv (set_counters t env (mkProc (p_nexus P) (<[t := (p_fresh P, id)]> (p_rpc P)) (p_use P) (p_global P) (p_cnt P)
    (live_nexus P) (<[p_fresh P := n]> (live_rpc P)) (S (p_fresh P)))) n ({[+ t +]} ⊎ us).
Proof.
  intros Hi Hr Hsmall Henv. destruct (add_user _ _ _ _ _ Hi Hsmall Henv) as [Huse Hsm]. destruct Hi.
  assert (∀ r, is_Some (live_rpc P !! r) → r ≠ p_fresh P) as Hfr.
  { intros r [n' Hl] ->. destruct (lc_owner0 _ _ Hl) as (_ & t' & id' & Ht' & _). apply lc_below0 in Ht'. lia. }
  assert (∀ t' r id', p_rpc P !! t' = Some (r, id') → t' ≠ t ∧ r ≠ p_fresh P) as Hold.
  { intros t' r id' Ht'. split; [congruence|]. apply lc_below0 in Ht'. lia. }
  split; simpl; eauto.
  - intros t' Ht'. destruct (decide (t' = t)) as [->|Hd]; [exists (p_fresh P), id; by rewrite !lookup_insert_eq|].
    destruct (lc_own0 t' ltac:(multiset_solver)) as (r & id' & Hr' & Hl). exists r, id'.
    rewrite !lookup_insert_ne by (done || (apply not_eq_sym, Hfr; by rewrite Hl)). done.
  - intros r n' Hl. apply lookup_insert_Some in Hl as [[<- <-]|[Hne' Hl]].
    + split; [done|]. exists t, id. rewrite lookup_insert_eq. split; [done|multiset_solver].
    + destruct (lc_owner0 _ _ Hl) as (-> & t' & id' & Ht' & Hin). split; [done|]. exists t', id'.
      destruct (Hold _ _ _ Ht') as [Hd _]. rewrite lookup_insert_ne by done. split; [done|multiset_solver].
  - intros t1 t2 r i1 i2 E1 E2. apply lookup_insert_Some in E1 as [[<- [= <- <-]]|[Hd1 E1]];
      apply lookup_insert_Some in E2 as [[<- [= E3]]|[Hd2 E2]]; try done; [| |by eapply lc_inj0].
    + by destruct (Hold _ _ _ E2) as [_ ?].
    + subst. by destruct (Hold _ _ _ E1) as [_ ?].
  - intros t' r i E1. apply lookup_insert_Some in E1 as [[<- [= <- <-]]|[Hd1 E1]]; [lia|].
    apply lc_below0 in E1. lia.
Qed.

(** The [Rpc] of a thread that has no [Rpc], or uses the one that it has, after one more
    use. *)
Lemma ensure_rpc_lc P n v t id us :
  lc_inv P n us → p_nexus P = Some (n, v) → n ∈ live_nexus P → (is_Some (p_rpc P !! t) → t ∈ us) →
  Z.of_nat (multiplicity t us) + 1 < 2 ^ 31 →
  ∃ P', ensure_rpc t id P = Ok P' ∧ p_nexus P' = p_nexus P ∧ live_nexus P' = live_nexus P ∧ p_use P' = p_use P ∧
    (∀ t', t' ≠ t → p_rpc P' !! t' = p_rpc P !! t') ∧
    ∀ env, rpc_use_cnt_ env = i32 (default 0 (p_use P !! t) + 1) → lc_inv (set_counters t env P') n ({[+ t +]} ⊎ us).
Proof.
  intros Hi Hn Hlive Ht Hsmall. unfold ensure_rpc. destruct (p_rpc P !! t) as [[r i]|] eqn:Hr.
  - specialize (Ht ltac:(by eexists)). destruct (lc_own _ _ _ Hi t Ht) as (r' & id' & Hr' & Hl). rewrite Hr in Hr'. injection Hr' as <- <-.
    rewrite decide_True by (by rewrite Hl). eexists. split_and!; [done..|]. intros env Henv.
    destruct (add_user _ _ _ _ _ Hi Hsmall Henv) as [Huse Hsm]. destruct Hi. split; simpl; eauto.
    + intros t' Ht'. apply lc_own0. apply gmultiset_elem_of_disj_union in Ht' as [Ht'|Ht']; [|done].
      by apply gmultiset_elem_of_singleton in Ht' as ->.
    + intros r' n' Hr'. destruct (lc_owner0 _ _ Hr') as (-> & t' & id' & Ht' & Hin'). split; [done|]. exists t', id'.
      split; [done|]. multiset_solver.
  - pose proof (λ env, new_rpc P n t id us env Hi Hr Hsmall) as Hnew. rewrite Hn in Hnew |- *.
    rewrite decide_True by done. eexists. split_and!; [done..| |done]. intros t' Hne. simpl. by rewrite lookup_insert_ne.
Qed.

Lemma ensure_rpc_ok P n t id us :
  open_inv P n us → Z.of_nat (multiplicity t us) + 1 < 2 ^ 31 →
  ∃ P', ensure_rpc t id P = Ok P' ∧ p_nexus P' = p_nexus P ∧ live_nexus P' = live_nexus P ∧
    ∀ env, rpc_use_cnt_ env = i32 (default 0 (p_use P !! t) + 1) →
      open_inv (set_counters t env P') n ({[+ t +]} ⊎ us).
Proof.
  intros [Hi [Hne Hnx] Hlive Hrpc] Hsmall. destruct (p_nexus P) as [[n0 v]|] eqn:HP; [|done]. simpl in Hnx. injection Hnx as ->.
  destruct (ensure_rpc_lc P n v t id us Hi HP ltac:(rewrite Hlive; set_solver) (Hrpc t) Hsmall)
    as (P' & HP' & E1 & E2 & _ & E3 & Hinv). rewrite HP in E1. exists P'. split_and!; [done..|]. intros env Henv.
  split; [by apply Hinv|simpl; by rewrite E1|simpl; by rewrite E2|]. simpl. intros t' Ht'.
  destruct (decide (t' = t)) as [->|Hd]; [multiset_solver|]. rewrite E3 in Ht' by done. specialize (Hrpc t' Ht'). multiset_solver.
Qed.

(** One more connection. *)
Lemma open_one_ok p P n t x us :
  conn_conf p → open_inv P n us → Z.of_nat (multiplicity t us) + 1 < 2 ^ 31 →
  ∃ P' h, open_one p t x P = Ok (P', h) ∧ open_inv P' n ({[+ t +]} ⊎ us) ∧ h_thread h = t ∧ plain h ∧ h_shard h = is_shard x ∧
    p_global P' = (if bool_decide (t ∉ us) && counted x then u8 (p_global P + 1) else p_global P).
Proof.
  intros Hp Hi Hs. destruct (oi_nexus _ _ _ Hi) as [Hne Hnx]. destruct (p_nexus P) as [[n0 u]|] eqn:HP; [|done].
  destruct (target_connect_ok p x (env_of P t) Hp) as (env & s & Hc & Hnex & Huse & Hg & Hdel). unfold open_one. rewrite Hc. simpl.
  unfold ensure_nexus. rewrite HP. destruct (ensure_rpc_ok _ _ _ (default 0 (rpc_ env)) _ Hi Hs) as (P' & -> & E1 & E2 & Hinv). simpl.
  eexists _, _. split; [done|]. split; [by apply Hinv|]. split_and!; [done| |done|].
  - unfold plain. simpl. rewrite Hdel. simpl. by rewrite HP.
  - simpl. rewrite Hg. simpl. replace (bool_decide (snd <$> p_rpc P !! t = None)) with (bool_decide (t ∉ us)); [done|].
    apply bool_decide_ext. split.
    + intros Ht. destruct (p_rpc P !! t) as [[r id]|] eqn:Hr; [|done]. destruct Ht. apply (oi_rpc _ _ _ Hi). by rewrite Hr.
    + intros Hr Ht. destruct (lc_own _ _ _ (oi_lc _ _ _ Hi) t Ht) as (r & id & Hr' & _). by rewrite Hr' in Hr.
Qed.

(** The first connection of the process makes the nexus. *)
Lemma open_first p t x :
  conn_conf p →
  ∃ P' h, open_one p t x Proc_init = Ok (P', h) ∧ open_inv P' 0 {[+ t +]} ∧ h_thread h = t ∧
    del_nexus_on_finalize_ (h_session h) = true ∧ h_shard h = is_shard x ∧
    p_global P' = (if counted x then 1 else 0).
Proof.
  intros Hp. destruct (target_connect_ok p x (env_of Proc_init t) Hp) as (env & s & Hc & Hnex & Huse & Hg & Hdel).
  unfold open_one. rewrite Hc. cbn [lift mbind outcome_bind].
  set (P0 := ensure_nexus (default EmptyString (nexus_ env)) Proc_init).
  assert (open_inv P0 0 ∅) as Hi.
  { split; [split| | |]; simpl; try done; intros t'; [intros Ht; multiset_solver|by intros [? ?]]. }
  destruct (ensure_rpc_ok P0 0 t (default 0 (rpc_ env)) ∅ Hi) as (P' & -> & E1 & E2 & Hinv).
  { rewrite multiplicity_empty. lia. }
  eexists _, _. split; [done|]. split.
  - replace {[+ t +]} with ({[+ t +]} ⊎ (∅ : gmultiset nat)) by multiset_solver. by apply Hinv.
  - split_and!; [done|by simpl; rewrite Hdel|done|]. simpl. rewrite Hg. simpl. by destruct (counted x).
Qed.

(** The threads among those of [xs], besides those of [us], that count. *)
Fixpoint counting (us : gmultiset nat) (xs : list (nat * target)) : nat :=
  match xs with
  | [] => 0
  | (t, x) :: xs => (if bool_decide (t ∉ us) && counted x then 1 else 0) + counting ({[+ t +]} ⊎ us) xs
  end.

Lemma multiplicity_le_size (t : nat) (us : gmultiset nat) : (multiplicity t us ≤ size us)%nat.
Proof.
  induction us as [|t' us IH] using gmultiset_ind; [rewrite multiplicity_empty; lia|].
  rewrite multiplicity_disj_union, multiplicity_singleton, gmultiset_size_disj_union, gmultiset_size_singleton.
  case_decide; lia.
Qed.

Lemma users_size hs : size (users hs) = length hs.
Proof.
  induction hs as [|h hs IH]; [apply gmultiset_size_empty|]. change (users (h :: hs)) with ({[+ h_thread h +]} ⊎ users hs).
  rewrite gmultiset_size_disj_union, gmultiset_size_singleton, IH. done.
Qed.

(** Connections of a thread that is known do not count. *)
Lemma counting_known t (f : string → target) xs v : counting ({[+ t +]} ⊎ v) ((λ u, (t, f u)) <$> xs) = 0%nat.
Proof.
  revert v. induction xs as [|x xs IH]; intros v; [done|]. simpl. rewrite IH, bool_decide_false by multiset_solver. done.
Qed.

Lemma open_all_ok p n xs : conn_conf p → ∀ P us,
  open_inv P n us → Z.of_nat (size us + length xs) < 2 ^ 31 → 0 ≤ p_global P → p_global P + Z.of_nat (counting us xs) < 2 ^ 8 →
  ∃ P' hs, open_all p xs P = Ok (P', hs) ∧ open_inv P' n (users hs ⊎ us) ∧ Forall plain hs ∧
    Forall2 (λ h x, h_thread h = x.1 ∧ h_shard h = is_shard x.2) hs xs ∧
    p_global P' = p_global P + Z.of_nat (counting us xs).
Proof.
  intros Hp. induction xs as [|[t x] xs IH]; intros P us Hi Hs H0 Hg; simpl in *.
  - exists P, []. split_and!; try done; [|lia]. by replace (users [] ⊎ us) with us by multiset_solver.
  - destruct (open_one_ok p P n t x us Hp Hi) as (P1 & h & -> & Hi1 & Ht & Hpl & Hsh & Hg1).
    { pose proof (multiplicity_le_size t us). lia. }
    simpl. destruct (IH P1 _ Hi1) as (P2 & hs & -> & Hi2 & Hpls & Hshs & Hg2).
    + rewrite gmultiset_size_disj_union, gmultiset_size_singleton. lia.
    + rewrite Hg1. destruct (_ && _); [rewrite u8_small; lia|done].
    + rewrite Hg1. destruct (_ && _); [rewrite u8_small; lia|lia].
    + exists P2, (h :: hs). split_and!; [done| |by constructor|by constructor|].
      * change (users (h :: hs)) with ({[+ h_thread h +]} ⊎ users hs). rewrite Ht.
        by replace ({[+ t +]} ⊎ users hs ⊎ us) with (users hs ⊎ ({[+ t +]} ⊎ us)) by multiset_solver.
      * rewrite Hg2, Hg1. destruct (_ && _); [rewrite u8_small; lia|lia].
Qed.

(** ** The client *)

Lemma release_rpc_keeps t P P' : release_rpc t P = Ok P' → p_rpc P' = p_rpc P.
Proof.
  unfold release_rpc, delete_rpc. cbn [live_rpc live_nexus]. intros E. repeat (case_match || case_decide); by simplify_eq.
Qed.

Lemma delete_nexus_keeps P P' : delete_nexus P = Ok P' → p_rpc P' = p_rpc P ∧ live_rpc P' = live_rpc P.
Proof. unfold delete_nexus. intros E. repeat (case_match || case_decide); by simplify_eq. Qed.

(** [rpc_] is left as it is. *)
Lemma close_all_keeps hs P P' : close_all hs P = Ok P' → p_rpc P' = p_rpc P.
Proof.
  revert P. induction hs as [|h hs IH]; intros P E; simpl in E; [by simplify_eq|].
  destruct (close_one h P) as [P1| |] eqn:H1; try done. rewrite (IH P1 E). clear IH E.
  unfold close_one, shard_Finalize, dl_Finalize in H1. destruct (release_rpc _ P) as [P2| |] eqn:H2; [|by destruct (h_shard h)..].
  rewrite <- (release_rpc_keeps _ _ _ H2). simpl in H1.
  repeat case_match; try (by simplify_eq); by destruct (delete_nexus_keeps _ _ H1) as [-> _].
Qed.

Lemma open_dangling p t x P : conn_conf p → is_Some (p_rpc P !! t) → live_rpc P = ∅ → open_one p t x P = Fault.
Proof.
  intros Hp [[r i] Hr] Hl. destruct (target_connect_ok p x (env_of P t) Hp) as (env & s & Hc & _). unfold open_one.
  rewrite Hc. simpl. unfold ensure_rpc, ensure_nexus. destruct (p_nexus P); simpl; by rewrite Hr, Hl, decide_False.
Qed.

(** Each address is named once, so that no connection is replaced. *)
Lemma by_uri_values uris hs :
  NoDup uris → length uris = length hs → (map_to_list (by_uri uris hs)).*2 ≡ₚ hs.
Proof.
  intros Hnd Hlen. unfold by_uri. rewrite map_to_list_to_map; rewrite fmap_reverse.
  - rewrite snd_zip by lia. apply reverse_Permutation.
  - rewrite fst_zip by lia. by rewrite reverse_Permutation.
Qed.

(** The connections of a client, all of them of the thread [t]. *)
Lemma client_open_ok p t id u0 us ss :
  conn_conf p → replica_uris p = u0 :: us → NoDup (u0 :: us) → shard_conns p = Ok ss →
  Z.of_nat (length us + length ss) < 2 ^ 30 →
  ∃ P m c hr hs, client_open p t id Proc_init = Ok (P, m, hs) ∧ m !! u0 = Some c ∧ (map_to_list m).*2 ≡ₚ c :: hr ∧
    open_inv P 0 (users (c :: hr ++ hs)) ∧ h_thread c = t ∧ p_global P = 1 ∧ h_shard c = false ∧
    del_nexus_on_finalize_ (h_session c) = true ∧ Forall plain (hr ++ hs).
Proof.
  intros Hp Hu Hnd Hss Hlen. unfold client_open. rewrite Hu, fmap_cons. cbn [open_all].
  destruct (open_first p t (Replica_of u0 false) Hp) as (P0 & c & -> & Hi0 & Ht & Hd & Hs & Hg0). cbn [mbind outcome_bind].
  cbn in Hs, Hg0.
  assert (counting {[+ t +]} ((λ u, (t, Replica_of u false)) <$> us) = 0%nat) as Hc0.
  { replace {[+ t +]} with ({[+ t +]} ⊎ (∅ : gmultiset nat)) by multiset_solver. apply counting_known. }
  destruct (open_all_ok p 0 ((λ u, (t, Replica_of u false)) <$> us) Hp P0 {[+ t +]} Hi0) as (P1 & hr & -> & Hi1 & Hpl1 & Hsh1 & Hg1).
  { rewrite gmultiset_size_singleton, length_fmap. lia. }
  { lia. }
  { rewrite Hc0, Hg0. lia. }
  cbn [mbind outcome_bind]. rewrite Hss. cbn [mbind outcome_bind]. pose proof (Forall2_length _ _ _ Hsh1) as Hlr. rewrite length_fmap in Hlr.
  assert (counting (users hr ⊎ {[+ t +]}) ((λ u, (t, Shard_of u (Some id))) <$> ss) = 0%nat) as Hc1.
  { rewrite gmultiset_disj_union_comm. apply counting_known. }
  destruct (open_all_ok p 0 ((λ u, (t, Shard_of u (Some id))) <$> ss) Hp P1 _ Hi1) as (P2 & hs & -> & Hi2 & Hpl2 & _ & Hg2).
  { rewrite gmultiset_size_disj_union, gmultiset_size_singleton, users_size, length_fmap. lia. }
  { lia. }
  { rewrite Hc1, Hg1, Hc0, Hg0. lia. }
  cbn [mbind outcome_bind].
  exists P2, (by_uri (u0 :: us) (c :: hr)), c, hr, hs. split_and!; [done| | | |done| |done..|].
  - apply elem_of_list_to_map; [|apply elem_of_reverse; simpl; left].
    rewrite fmap_reverse, fst_zip by (simpl; lia). by rewrite reverse_Permutation.
  - apply by_uri_values; [done|simpl; lia].
  - replace (users (c :: hr ++ hs)) with (users hs ⊎ (users hr ⊎ {[+ t +]})); [done|].
    change (users (c :: hr ++ hs)) with ({[+ h_thread c +]} ⊎ users (hr ++ hs)). rewrite Ht, users_app. multiset_solver.
  - rewrite Hg2, Hc1, Hg1, Hc0, Hg0. done.
  - by apply Forall_app.
Qed.

(** The connection [c] that made the nexus is closed between the others. *)
Lemma close_around P n c a b :
  open_inv P n (users (a ++ c :: b)) → Forall plain (a ++ b) → del_nexus_on_finalize_ (h_session c) = true → h_shard c = false →
  if (p_global P =? 1) && bool_decide (b ≠ []) then close_all (a ++ c :: b) P = Fault
  else ∃ P', close_all (a ++ c :: b) P = Ok P' ∧ live_rpc P' = ∅ ∧
    live_nexus P' = if p_global P =? 1 then ∅ else {[n]}.
Proof.
  intros [Hi [Hne Hn] Hl _] [Hpa Hpb]%Forall_app Hd Hs. destruct (p_nexus P) as [[n0 u]|] eqn:HP; [|done].
  simpl in Hn. injection Hn as ->. rewrite users_app in Hi. rewrite close_all_app.
  destruct (close_all_plain _ _ _ _ Hpa Hi) as (P1 & -> & Hi1 & E1 & E2 & E3); [rewrite Hl; set_solver|]. simpl.
  change (users (c :: b)) with ({[+ h_thread c +]} ⊎ users b) in Hi1.
  destruct (close_creator c P1 n u _ Hd Hs Hi1) as (P2 & -> & Hi2 & E4); [rewrite E3, Hl; set_solver|by rewrite E1|].
  simpl. rewrite E2, E3, Hl in E4. destruct (p_global P =? 1); simpl.
  - case_bool_decide as Hb.
    + apply (close_all_dead _ _ _ Hpb Hb Hi2). rewrite E4. set_solver.
    + destruct b; [|done]. exists P2. split_and!; [done|by apply (lc_inv_empty _ n)|]. rewrite E4. set_solver.
  - rewrite <- (right_id_L ∅ (⊎) (users b)) in Hi2.
    destruct (close_all_plain _ _ _ _ Hpb Hi2) as (P3 & -> & Hi3 & _ & _ & F3); [rewrite E4; set_solver|].
    exists P3. split_and!; [done|by apply (lc_inv_empty _ n)|by rewrite F3].
Qed.

(** C37. The teardown of a client works only in one order.  A client connects from one thread
    to its replicas, the first of which makes the nexus, and to its shards.
    [LazyLogClient::Finalize] closes the shards and then the replicas in the order of a hash
    map.  If the first replica comes last, every connection is closed, nothing is left of the
    [Rpc] or the nexus, and a connection that is made afterwards uses the [Rpc] that was
    deleted; in any other order the nexus is deleted while the [Rpc] is still on it. *)
Theorem client_Finalize_order p t id u0 us ss :
  conn_conf p → replica_uris p = u0 :: us → NoDup (u0 :: us) → shard_conns p = Ok ss →
  Z.of_nat (length us + length ss) < 2 ^ 30 →
  ∃ P m c hs, client_open p t id Proc_init = Ok (P, m, hs) ∧ m !! u0 = Some c ∧
    ∀ hs' hr', hs' ≡ₚ hs → hr' ≡ₚ (map_to_list m).*2 →
      (last hr' = Some c →
        ∃ P', client_Finalize hs' hr' P = Ok P' ∧ live_rpc P' = ∅ ∧ live_nexus P' = ∅ ∧
          ∀ x, open_one p t x P' = Fault) ∧
      (last hr' ≠ Some c → client_Finalize hs' hr' P = Fault).
Proof.
  intros Hp Hu Hnd Hss Hlen.
  destruct (client_open_ok p t id u0 us ss Hp Hu Hnd Hss Hlen) as (P & m & c & hr & hs & Ho & Hm & Hperm & Hi & Htc & Hg & Hs & Hd & Hpl).
  exists P, m, c, hs. split_and!; [done..|]. intros hs' hr' Hps Hpr. rewrite Hperm in Hpr. apply Forall_app in Hpl as [Hplr Hpls].
  assert (c ∈ hr') as Hc by (rewrite Hpr; left). apply list_elem_of_split in Hc as (a & b & ->).
  rewrite <- Permutation_middle in Hpr. apply Permutation_cons_inv in Hpr as Hab.
  rewrite <- Hab in Hplr. apply Forall_app in Hplr as [Hpa Hpb]. rewrite <- Hps in Hpls.
  assert (c :: hr ++ hs ≡ₚ (hs' ++ a) ++ c :: b) as Hall by (rewrite <- Hab, <- Hps; solve_Permutation).
  assert (is_Some (p_rpc P !! t)) as Ht.
  { destruct (lc_own _ _ _ (oi_lc _ _ _ Hi) t) as (r & i & -> & _); [|done]. unfold users. simpl. rewrite Htc. multiset_solver. }
  rewrite (users_perm _ _ Hall) in Hi. unfold client_Finalize. rewrite <- close_all_app, app_assoc.
  pose proof (close_around P 0 c _ b Hi ltac:(by rewrite <- app_assoc, !Forall_app) Hd Hs) as Hclose. rewrite Hg in Hclose.
  rewrite last_app_cons. simpl in Hclose. case_bool_decide as Hb.
  - split; [|done]. intros Hlast. destruct b as [|x b _] using rev_ind; [done|].
    rewrite app_comm_cons, last_snoc in Hlast. injection Hlast as ->. apply Forall_app in Hpb as [_ Hx].
    pose proof (Forall_inv Hx) as Hc. unfold plain in Hc. congruence.
  - destruct b; [|done]. split; [|done]. intros _. destruct Hclose as (P' & HP' & Hlr & Hln).
    exists P'. split_and!; [done..|]. intros x. apply open_dangling; [done| |done]. by rewrite (close_all_keeps _ _ _ HP').
Qed.

(** A process whose nexus was made by the transport of a server: its connections can be
    closed in any order, and the nexus goes last. *)
Lemma transport_Finalize_ok P n hs :
  open_inv P n (users hs) → Forall plain hs →
  ∃ P', (P ← close_all hs P; delete_nexus P) = Ok P' ∧ live_rpc P' = ∅ ∧ live_nexus P' = ∅.
Proof.
  intros [Hi [Hne Hn] Hl _] Hp. destruct (p_nexus P) as [[n0 u]|] eqn:HP; [|done]. simpl in Hn. injection Hn as ->.
  rewrite <- (right_id_L ∅ (⊎) (users hs)) in Hi.
  destruct (close_all_plain _ _ _ _ Hp Hi) as (P1 & -> & Hi1 & E1 & _ & E3); [rewrite Hl; set_solver|]. simpl.
  unfold delete_nexus. rewrite E1, HP, E3, Hl, decide_True by set_solver. eexists.
  split_and!; [done|by apply (lc_inv_empty P1 n)|]. set_solver.
Qed.

Lemma transport_Finalize p uri xs :
  conn_conf p → Z.of_nat (length xs) < 2 ^ 31 → (counting ∅ xs < 256)%nat →
  ∃ P hs, open_all p xs (ensure_nexus uri Proc_init) = Ok (P, hs) ∧
    ∀ shards replicas, shards ++ replicas ≡ₚ hs →
      (∃ P', cl_Finalize true shards replicas P = Ok P' ∧ live_rpc P' = ∅ ∧ live_nexus P' = ∅) ∧
      (∃ P', shard_svr_Finalize (shards ++ replicas) P = Ok P' ∧ live_rpc P' = ∅ ∧ live_nexus P' = ∅).
Proof.
  intros Hp Hlen Hcnt. assert (open_inv (ensure_nexus uri Proc_init) 0 ∅) as Hi.
  { split; [split| | |]; simpl; try done; intros t'; [intros Ht; multiset_solver|by intros [? ?]]. }
  destruct (open_all_ok p 0 xs Hp _ _ Hi) as (P & hs & -> & Hi' & Hpl & _);
    [rewrite gmultiset_size_empty; lia|done|simpl; lia|].
  exists P, hs. split; [done|]. intros shards replicas Hperm. rewrite <- Hperm in Hpl.
  rewrite right_id_L, (users_perm _ _ (Permutation_sym Hperm)) in Hi' by apply _.
  destruct (transport_Finalize_ok P 0 _ Hi' Hpl) as (P' & HP' & Hrest). split; exists P'; split; try done.
  unfold cl_Finalize. simpl. rewrite close_all_app in HP'. by destruct (close_all shards P).
Qed.

(** Several threads of a process connect, at least two of them to replicas.  Nothing goes
    wrong when they close, whatever the order, but the nexus stays: only the connection that
    made it counts down [global_rpc_id_], to which each thread had added. *)
Lemma threads_leak_nexus p t u xs :
  conn_conf p → Z.of_nat (length xs) < 2 ^ 30 → (1 ≤ counting {[+ t +]} xs < 255)%nat →
  ∃ P hs, open_all p ((t, Replica_of u false) :: xs) Proc_init = Ok (P, hs) ∧
    ∀ hs', hs' ≡ₚ hs → ∃ P', close_all hs' P = Ok P' ∧ live_rpc P' = ∅ ∧ live_nexus P' = {[0%nat]}.
Proof.
  intros Hp Hlen Hcnt. simpl.
  destruct (open_first p t (Replica_of u false) Hp) as (P0 & c & -> & Hi0 & Ht & Hd & Hs & Hg0). simpl in Hs, Hg0 |- *.
  destruct (open_all_ok p 0 xs Hp P0 {[+ t +]} Hi0) as (P & hs & -> & Hi & Hpl & _ & Hg).
  { rewrite gmultiset_size_singleton. lia. }
  { lia. }
  { lia. }
  exists P, (c :: hs). split; [done|]. intros hs' Hperm. assert (c ∈ hs') as Hc by (rewrite Hperm; left).
  apply list_elem_of_split in Hc as (a & b & ->). assert (users hs ⊎ {[+ t +]} = users (a ++ c :: b)) as Hus.
  { rewrite (users_perm _ _ Hperm). change (users (c :: hs)) with ({[+ h_thread c +]} ⊎ users hs). rewrite Ht. multiset_solver. }
  rewrite Hus in Hi. rewrite <- Permutation_middle in Hperm. apply Permutation_cons_inv in Hperm.
  pose proof (close_around P 0 c a b Hi ltac:(by rewrite Hperm) Hd Hs) as Hclose. rewrite (proj2 (Z.eqb_neq _ _)) in Hclose by lia.
  exact Hclose.
Qed.

(** ** A cluster *)

Lemma small_conn_conf : conn_conf small_cluster.
Proof.
  pose proof small_cluster_ok as []. split_and!; [by eexists _, _, _| |by eexists].
  split; [exists 1; split; [by vm_compute|lia]|by vm_compute].
Qed.

Lemma client_Finalize_order_witness :
  ∃ P m c hs, client_open small_cluster 7 3 Proc_init = Ok (P, m, hs) ∧ m !! "p:1"%string = Some c ∧
    ∀ hs' hr', hs' ≡ₚ hs → hr' ≡ₚ (map_to_list m).*2 →
      (last hr' = Some c →
        ∃ P', client_Finalize hs' hr' P = Ok P' ∧ live_rpc P' = ∅ ∧ live_nexus P' = ∅ ∧
          ∀ x, open_one small_cluster 7 x P' = Fault) ∧
      (last hr' ≠ Some c → client_Finalize hs' hr' P = Fault).
Proof.
  apply (client_Finalize_order small_cluster 7 3 "p:1" ["b:1"] ["s:1"; "t:1"])%string.
  - exact small_conn_conf.
  - by vm_compute.
  - apply (bool_decide_unpack _). by vm_compute.
  - by vm_compute.
  - simpl. lia.
Defined.
