(* ===== verification/Servers.v ===== *)
(** The server programs: the transports they choose, the requests they serve, and their
    threads from the start to the end.

    [src/rpc/rpc_factory.cc], [src/rpc/transport.cc], [src/dur_log/dur_svr.cc],
    [src/cons_log/cons_svr.cc], [src/cons_log/storage/shard_svr.cc], and [server_func],
    [Initialize] and [Finalize] of [src/dur_log/erpc_dl_transport.cc],
    [src/cons_log/erpc_cl_transport.cc], [src/cons_log/storage/shard_server.cc] and
    [src/cons_log/storage/shard_server_wo_opt.cc] as far as they concern the threads.

    Of eRPC it is assumed that a request of a type for which no handler is registered is
    dropped, so that its sender waits, and that an [Rpc] cannot be made with an id that
    another one of the process has. *)

From Stdlib Require Import Ascii.
From stdpp Require Import strings gmultiset.
From S2P Require Import Prelude Props Sequencer LogEntry DurLogFlat DlTransport FlatCli ShardServer.
From S2P Require Import NaiveBackend ShardUnopt ShardUnoptSim Links ConsLog Startup Lifecycle.

Local Open Scope Z_scope.

(** ** The transports *)

Inductive TransportKind : Type :=
  | DurLogSvr | DurLogCli | ConsLogSvr | ConsLogCli.

Definition Registry : Type := gmap string TransportKind.

Definition RegisterRPC (name : string) (creator : TransportKind) (registry : Registry) : Registry :=
  <[name := creator]> registry.

(** A null pointer if there is no transport with that name. *)
Definition CreateRPCTransport (registry : Registry) (rpc_name : string) : option TransportKind := registry !! rpc_name.

Definition CreateSvrRPCTransport (registry : Registry) (p : Properties) : option TransportKind :=
  CreateRPCTransport registry (GetProperty p "server.rpc_transport" "").

Definition CreateCliRPCTransport (registry : Registry) (p : Properties) : option TransportKind :=
  CreateRPCTransport registry (GetProperty p "client.rpc_transport" "").

(** What is registered before [main] of the two servers. *)
Definition dur_svr_registry : Registry := RegisterRPC "durlog_erpc_svr" DurLogSvr ∅.
Definition cons_svr_registry : Registry :=
  RegisterRPC "conslog_erpc_svr" ConsLogSvr (RegisterRPC "durlog_erpc_cli" DurLogCli ∅).

(** ** Requests *)

Definition APPEND_BATCH : Z := 21.
Definition REP_BATCH : Z := 22.
Definition READ_ENTRY_BE : Z := 23.
Definition UPDATE_GLBL_IDX : Z := 24.

Section Dispatch.
Context `{Posix} `{Erpc}.

(** The handlers of a shard server; [None] when the request is answered later, [Blocked]
    when it is dropped.  [cap] are the bytes of a request to a backup. *)
Definition shard_dispatch (cap : Z) (resp : buffer) (slow : bool) (st : ShardServer) (backups : list ShardServer)
    (req_type : Z) (req : list byte) : outcome (ShardServer * list ShardServer * option (list byte)) :=
  if req_type =? APPEND_BATCH then '(st, bs) ← lift (AppendBatchHandler cap st backups req); Ok (st, bs, Some (le_bytes 4 0))
  else if req_type =? REP_BATCH then '(st, r) ← lift (ReplicateBatchHandler st req); Ok (st, backups, Some (le_bytes 4 r))
  else if req_type =? READ_ENTRY_BE then '(st, r) ← lift (ReadEntryHandler resp slow st req); Ok (st, backups, r)
  else if req_type =? UPDATE_GLBL_IDX then st ← lift (UpdateGlobalIdxHandler st req); Ok (st, backups, Some (le_bytes 4 0))
  else Blocked.

Definition unopt_dispatch (cap : Z) (prompt : list bool) (resp : buffer) (slow : bool) (st : Unoptimized.t)
    (backups : list Unoptimized.t) (req_type : Z) (req : list byte)
    : outcome (Unoptimized.t * list Unoptimized.t * option (list byte)) :=
  if req_type =? APPEND_BATCH
  then '(st, bs) ← lift (Unoptimized.AppendBatchHandler cap prompt st backups req); Ok (st, bs, Some (le_bytes 4 0))
  else if req_type =? REP_BATCH
  then '(st, r) ← lift (Unoptimized.ReplicateBatchHandler st req); Ok (st, backups, Some (le_bytes 4 r))
  else if req_type =? READ_ENTRY_BE
  then '(st, _, r) ← lift (Unoptimized.ReadEntryHandler resp slow st req); Ok (st, backups, r)
  else Blocked.

(** [NaiveBackend::UpdateGlobalIdx] over shards with the primaries [prims], the servers of
    the given kind, with request buffers of [cap] bytes: a request to each, then all answers. *)
Fixpoint update_each {S : Type} (serve : S → Z → list byte → outcome S) (cap idx : Z) (prims : list S)
    : outcome (list S) :=
  match prims with
  | [] => Ok []
  | st :: prims =>
      b ← lift (store_int 8 (Buf cap ∅) 0 idx);
      bs ← lift (send b 8);
      st ← serve st UPDATE_GLBL_IDX bs;
      prims ← update_each serve cap idx prims;
      Ok (st :: prims)
  end.

Definition shard_serve (cap : Z) (st : ShardServer) (req_type : Z) (req : list byte) : outcome ShardServer :=
  '(st, _, _) ← shard_dispatch cap (Buf 0 ∅) false st [] req_type req; Ok st.
Definition unopt_serve (cap : Z) (st : Unoptimized.t) (req_type : Z) (req : list byte) : outcome Unoptimized.t :=
  '(st, _, _) ← unopt_dispatch cap [] (Buf 0 ∅) false st [] req_type req; Ok st.
End Dispatch.

(** ** Threads *)

(** [nexus_ = new erpc::Nexus(server_uri, 0, 0)]. *)
Definition new_nexus (uri : string) (P : Proc) : Proc :=
  mkProc (Some (p_fresh P, uri)) (p_rpc P) (p_use P) (p_global P) (p_cnt P)
    ({[p_fresh P]} ∪ live_nexus P) (live_rpc P) (S (p_fresh P)).

(** A thread enters [server_func], with the id of its [Rpc], or leaves it after [run_]
    was reset. *)
Inductive thread_event : Type :=
  | Enter (t : nat) (id : Z)
  | Leave (t : nat).

Definition do_thread (ev : thread_event) (P : Proc) : outcome Proc :=
  match ev with
  | Enter t id => server_enter t id P
  | Leave t => release_rpc t P
  end.

Fixpoint do_threads (evs : list thread_event) (P : Proc) : outcome Proc :=
  match evs with
  | [] => Ok P
  | ev :: evs => P ← do_thread ev P; do_threads evs P
  end.

Fixpoint entered (evs : list thread_event) : list (nat * Z) :=
  match evs with
  | [] => []
  | (Enter t id) :: evs => (t, id) :: entered evs
  | (Leave _) :: evs => entered evs
  end.

(** The threads of [running] and those of [evs] run to their end, each once. *)
Fixpoint joined (running : gmultiset nat) (gone : gset nat) (evs : list thread_event) : Prop :=
  match evs with
  | [] => running = ∅
  | (Enter t _) :: evs => (t ∉ running) ∧ (t ∉ gone) ∧ joined ({[+ t +]} ⊎ running) gone evs
  | (Leave t) :: evs => (t ∈ running) ∧ joined (running ∖ {[+ t +]}) ({[t]} ∪ gone) evs
  end.

(** [ERPCDurLogTransport]: [n_th] threads and the one for the consensus log. *)
Definition dl_threads (n_th : nat) : list (nat * Z) :=
  ((λ i, (S i, u8 (DL_SVR_RPCID_OFFSET + Z.of_nat i))) <$> seq 0 n_th) ++ [(S n_th, DL_RSV_RPCID)].

(** [Initialize], the threads and [Finalize], as far as the objects of eRPC are concerned. *)
Definition dl_server_run (p : Properties) (evs : list thread_event) : outcome Proc :=
  let P := new_nexus (GetProperty p "dur_log.server_uri" "localhost:31850") Proc_init in
  P ← do_threads evs P;
  delete_nexus P.

(** [ShardServer]: the main thread, which has the connections to the backups, and [n_th]
    threads for reads if this is the leader. *)
Definition shard_threads (leader : bool) (n_th : nat) : list (nat * Z) :=
  (if leader then (λ i, (S i, u8 (CL_CLI_RPCID_OFFSET + Z.of_nat i))) <$> seq 0 n_th else []) ++ [(0%nat, 0)].

Definition shard_leader (p : Properties) : bool := streq (GetProperty p "leader" "false") "true".
Definition backup_uris (p : Properties) : list string :=
  SeparateValue (GetProperty p "shard.backup_uri" "localhost:31860") ","%char.

(** [order] is the order of the hash map [backups_]. *)
Definition shard_server_run (order : list Handle → list Handle) (p : Properties) (evs : list thread_event) : outcome Proc :=
  let P := new_nexus (GetProperty p "shard.server_uri" "localhost:31860") Proc_init in
  '(P, hs) ← (if shard_leader p then open_all p ((λ b, (0%nat, Shard_of b None)) <$> backup_uris p) P else Ok (P, []));
  P ← do_threads evs P;
  shard_svr_Finalize (order (map_to_list (by_uri (backup_uris p) hs)).*2) P.

(** [ERPCConsLogTransport] on the leader: the connections of the main thread.  If the primary
    is not one of the replicas, [dur_cli_] has a null pointer for it. *)
Definition cons_server_run (order : list Handle → list Handle) (p : Properties) (pipelined : bool) : outcome Proc :=
  let P := new_nexus (GetProperty p "cons_log.server_uri" "localhost:31850") Proc_init in
  '(P, hr) ← open_all p ((λ d, (0%nat, Replica_of d true)) <$> replica_uris p) P;
  ss ← shard_conns p;
  '(P, hs) ← open_all p ((λ d, (0%nat, Shard_of d None)) <$> ss) P;
  if negb (bool_decide (GetProperty p "dur_log.primary_uri" "localhost:31850" ∈ replica_uris p)) then Fault else
  cl_Finalize pipelined (order hs) (order (map_to_list (by_uri (replica_uris p) hr)).*2) P.

(** ** The consensus log and its clients *)

(** The threads that would serve requests; [n_th] is zero. *)
Definition cons_n_th : nat := 0.
Definition cons_server_ids : list Z := (λ i, u8 (CL_SVR_RPCID_OFFSET + Z.of_nat i)) <$> seq 0 cons_n_th.

Definition GetNumOrderedEntriesHandler `{Erpc} (resp : buffer) (cl : ConsensusLog) : option (list byte) :=
  respond_u64 resp (GetNumOrderedEntries cl).

(** [k] turns of [while (run_) cons_log_->fetchAndStore()]; without the members that
    [ConsensusLog::Initialize] sets up on the leader a null pointer is used. *)
Fixpoint cons_loop `{Posix, Erpc, Rdma} (k : nat) (fuel : nat) (delay : string → nat) (sched : nat → list (string * list byte))
    (c : option ConsensusLog) : outcome (option ConsensusLog) :=
  match k with
  | O => Ok c
  | S k =>
      match c with
      | None => Fault
      | Some cl => '(cl, _) ← fetchAndStore fuel delay sched cl; cons_loop k fuel delay sched (Some cl)
      end
  end.

(** [ConsensusLogERPCCli::InitializeConn]: it waits until the session is connected.  Here
    [local_rpc_cnt_] is the map of this class. *)
Definition cons_InitializeConn (p : Properties) (server_uri : string) (env : RpcEnv) : outcome (RpcEnv * Session) :=
  let '(nexus, del) := make_nexus (GetProperty p "cons_log.client_uri" "localhost:31851") env in
  '(rpc, global) ← lift (match rpc_ env with
    | Some id => Some (id, global_rpc_id_ env)
    | None =>
        _ ← stoi (GetProperty p "erpc.phy_port" "0");
        Some (u8 (CL_CLI_RPCID_OFFSET + global_rpc_id_ env), u8 (global_rpc_id_ env + 1))
    end);
  let cnt := default 0 (local_rpc_cnt_ env !! server_uri) in
  let remote := u8 (CL_SVR_RPCID_OFFSET + cnt) in
  if negb (bool_decide (remote ∈ cons_server_ids)) then Blocked else
  msg_size ← lift (stoull (GetProperty p "cons_log.msg_size" "2048"));
  Ok (mkRpcEnv nexus (Some rpc) (i32 (rpc_use_cnt_ env + 1)) global (<[server_uri := u8 (cnt + 1)]> (local_rpc_cnt_ env)),
      mkSession server_uri remote (i32 msg_size) del).

(** [ConsensusLogERPCCli::GetNumOrderedEntries]. *)
Definition cons_cli_GetNumOrderedEntries : Z := 0.

(** ** Starting an unoptimised shard server *)

(** The primary with its backups, the size of a request to a backup and the response buffer
    of a read thread. *)
Record UnoptShard : Type := mkUnopt {
  u_primary : Unoptimized.t;
  u_backups : list Unoptimized.t;
  u_rep_cap : Z;
  u_read_resp : buffer
}.

(** [is_dir] and [mkdir] are whether the folder exists and whether it can be made. *)
Definition unopt_Initialize (p : Properties) (is_dir mkdir : bool) (fs : gmap string (list byte)) : option Unoptimized.t :=
  st ← Unoptimized.Initialize p (mkOs fs ∅);
  if is_dir || mkdir then Some st else None.

Definition unopt_start (p : Properties) (is_dir mkdir : bool) (fs : gmap string (list byte))
    (node : string → option Unoptimized.t) (env : RpcEnv) : outcome UnoptShard :=
  st ← lift (unopt_Initialize p is_dir mkdir fs);
  if negb (shard_leader p) then Ok (mkUnopt st [] 0 (Buf 0 ∅)) else
  '(_, bs) ← connect_backups p node (backup_uris p) env [];
  rep ← lift (stoull (GetProperty p "shard.msg_size" "2048"));
  _ ← lift (stoi (GetProperty p "threadcount" "1"));
  resp ← lift (stoull (GetProperty p "dur_log.msg_size" "8192"));
  Ok (mkUnopt st bs.*2 (i32 rep) (Buf resp ∅)).

(** The same configuration gives an optimised and an unoptimised shard that correspond. *)
Definition shard_sim (u : UnoptShard) (g : Shard) : Prop :=
  sim (u_primary u) (primary g) ∧ Forall2 sim (u_backups u) (backups g) ∧
  u_rep_cap u = rep_cap g ∧ u_read_resp u = read_resp g.

Lemma unopt_Initialize_sim p is_dir mkdir fs so :
  shard_Initialize p is_dir mkdir fs = Some so → ∃ st, unopt_Initialize p is_dir mkdir fs = Some st ∧ sim st so.
Proof.
  unfold shard_Initialize, unopt_Initialize, Unoptimized.Initialize. intros Hi.
  repeat match type of Hi with
  | mbind _ ?x = Some _ => destruct x; cbn [mbind option_bind] in Hi |- *; [|discriminate]
  end.
  destruct (is_dir || mkdir); [|done]. injection Hi as <-. eexists. split; [done|]. by split.
Qed.

(** Connections with the same addresses to servers that correspond. *)
Lemma connect_backups_sim {A B} (R : A → B → Prop) p nodeA nodeB uris env as_ bs env' bs' :
  (∀ d b, nodeB d = Some b → ∃ a, nodeA d = Some a ∧ R a b) →
  Forall2 (λ x y, x.1 = y.1 ∧ R x.2 y.2) as_ bs →
  connect_backups p nodeB uris env bs = Ok (env', bs') →
  ∃ as', connect_backups p nodeA uris env as_ = Ok (env', as') ∧ Forall2 (λ x y, x.1 = y.1 ∧ R x.2 y.2) as' bs'.
Proof.
  intros Hnode. revert env as_ bs. induction uris as [|d uris IH]; intros env as_ bs Hrel Hc; simpl in *.
  { injection Hc as <- <-. by exists as_. }
  destruct (shard_InitializeConn p d None env) as [[env1 s1]|]; [|done]. cbn [lift mbind outcome_bind] in *.
  destruct (nodeB d) as [b|] eqn:Hb; [|done]. destruct (Hnode d b Hb) as (a & -> & Hab). eapply IH; [|exact Hc].
  clear -Hrel Hab. assert (match link_at d as_ with Some _ => is_Some (link_at d bs) | None => link_at d bs = None end ∧
    Forall2 (λ x y, x.1 = y.1 ∧ R x.2 y.2) (link_set d a as_) (link_set d b bs)) as [Hat Hset].
  { induction Hrel as [|[d1 a1] [d2 b1] as_ bs [E1 E2] Hrel [IH1 IH2]]; simpl in *; [done|]. subst d2.
    destruct (streq d d1); [by split; [eexists|by constructor]|]. split; [done|by constructor]. }
  destruct (link_at d as_).
  - by destruct Hat as [? ->].
  - rewrite Hat. apply Forall2_app; [done|]. by repeat constructor.
Qed.

(** The two servers start alike. *)
Lemma unopt_start_sim p is_dir mkdir fs nodeU node env g :
  (∀ d so, node d = Some so → ∃ st, nodeU d = Some st ∧ sim st so) →
  shard_start p is_dir mkdir fs node env = Ok g →
  ∃ h, unopt_start p is_dir mkdir fs nodeU env = Ok h ∧ shard_sim h g.
Proof.
  intros Hnode Hst. unfold shard_start in Hst. unfold unopt_start, shard_leader, backup_uris.
  destruct (shard_Initialize p is_dir mkdir fs) as [so|] eqn:Hso; [|done]. cbn [lift mbind outcome_bind] in Hst.
  destruct (unopt_Initialize_sim _ _ _ _ _ Hso) as (st & -> & Hsim). cbn [lift mbind outcome_bind].
  destruct (streq _ _); cbn [negb] in *.
  - destruct (connect_backups p node _ env []) as [[env' bs]| |] eqn:Hc; try done. cbn [mbind outcome_bind] in Hst.
    destruct (connect_backups_sim sim p nodeU node _ env [] [] env' bs Hnode ltac:(constructor) Hc) as (us & -> & Hrel).
    cbn [mbind outcome_bind].
    repeat match type of Hst with
    | mbind _ (lift ?x) = Ok _ => destruct x; cbn [lift mbind outcome_bind] in Hst |- *; [|discriminate]
    end.
    injection Hst as <-. eexists. split; [done|]. split_and!; [done| |done|done].
    clear -Hrel. induction Hrel as [|[d1 a1] [d2 b1] us bs [_ E] _ IH]; [constructor|by constructor].
  - injection Hst as <-. eexists. split; [done|]. split_and!; [done|constructor|done|done].
Qed.

(** ** The factory *)

(** The transport that was registered last under a name is created; a program whose
    configuration names no transport, as by default, has none. *)
Lemma CreateRPCTransport_registered name name' k reg :
  CreateRPCTransport (RegisterRPC name k reg) name' = if decide (name' = name) then Some k else CreateRPCTransport reg name'.
Proof.
  unfold CreateRPCTransport, RegisterRPC. case_decide as E.
  - subst. by rewrite (lookup_insert_eq reg).
  - by rewrite (lookup_insert_ne reg) by done.
Qed.

Lemma dur_svr_transport p :
  CreateSvrRPCTransport dur_svr_registry p =
    if decide (GetProperty p "server.rpc_transport" "" = "durlog_erpc_svr"%string) then Some DurLogSvr else None.
Proof. unfold CreateSvrRPCTransport, dur_svr_registry. by rewrite CreateRPCTransport_registered. Qed.

(** ** Threads that come and go *)

(** Every thread of [T] has the id that [ids] gives it, and no other thread has an [Rpc]. *)
Definition ids_of (ids : nat → Z) (T : gset nat) (P : Proc) : Prop :=
  ∀ t r id, p_rpc P !! t = Some (r, id) → t ∈ T ∧ id = ids t.

Lemma id_not_used ids T P t :
  (∀ t1 t2, t1 ∈ T → t2 ∈ T → ids t1 = ids t2 → t1 = t2) → ids_of ids T P → t ∈ T → p_rpc P !! t = None →
  id_used P (ids t) = false.
Proof.
  intros Hinj HP Ht Hn. apply not_true_is_false. unfold id_used. intros [[t' [r id]] [Hin Hb]]%existsb_exists.
  apply list_elem_of_In, elem_of_map_to_list in Hin. apply andb_true_iff in Hb as [->%Z.eqb_eq _].
  destruct (HP _ _ _ Hin) as [Ht' Hid]. rewrite (Hinj t t' Ht Ht' Hid) in Hn. congruence.
Qed.

Lemma server_enter_ok ids T P n v t us :
  (∀ t1 t2, t1 ∈ T → t2 ∈ T → ids t1 = ids t2 → t1 = t2) → ids_of ids T P → t ∈ T →
  lc_inv P n us → p_nexus P = Some (n, v) → n ∈ live_nexus P → (is_Some (p_rpc P !! t) → t ∈ us) →
  Z.of_nat (multiplicity t us) + 1 < 2 ^ 31 →
  ∃ P', server_enter t (ids t) P = Ok P' ∧ p_nexus P' = p_nexus P ∧ live_nexus P' = live_nexus P ∧
    (∀ t', t' ≠ t → p_rpc P' !! t' = p_rpc P !! t') ∧ lc_inv P' n ({[+ t +]} ⊎ us) ∧ ids_of ids T P'.
Proof.
  intros Hinj HP HT Hi Hn Hl Ht Hs. unfold server_enter.
  assert (bool_decide (p_rpc P !! t = None) && id_used P (ids t) = false) as ->.
  { case_bool_decide as E; [|done]. by rewrite (id_not_used ids T). }
  destruct (ensure_rpc_lc P n v t (ids t) us Hi Hn Hl Ht Hs) as (P' & Hens & E1 & E2 & E3 & E4 & Hinv).
  rewrite Hens. simpl. eexists. split; [done|]. split_and!; [done..| |].
  - specialize (Hinv (mkRpcEnv None None (i32 (default 0 (p_use P !! t) + 1)) (p_global P') (p_cnt P')) eq_refl).
    unfold set_counters in Hinv. simpl in Hinv. by rewrite E3 in Hinv |- *.
  - intros t' r id. simpl. unfold ensure_rpc in Hens. destruct (p_rpc P !! t) as [[r0 i0]|] eqn:Er.
    + case_decide; [|done]. injection Hens as <-. apply HP.
    + rewrite Hn, decide_True in Hens by done. injection Hens as <-. simpl. intros E%lookup_insert_Some.
      destruct E as [[<- [= <- <-]]|[_ E]]; [done|by apply (HP _ r)].
Qed.

(** Whatever the order in which the threads come and go, in the end only the connections
    [us] are left. *)
Lemma do_threads_ok ids T n v us evs :
  (∀ t1 t2, t1 ∈ T → t2 ∈ T → ids t1 = ids t2 → t1 = t2) → Z.of_nat (size us) + 1 < 2 ^ 31 → ∀ P running gone,
  (∀ t id, (t, id) ∈ entered evs → t ∈ T ∧ id = ids t) → ids_of ids T P →
  lc_inv P n (running ⊎ us) → p_nexus P = Some (n, v) → n ∈ live_nexus P →
  (∀ t, is_Some (p_rpc P !! t) → t ∈ running ⊎ us ∨ t ∈ gone) → joined running gone evs →
  ∃ P', do_threads evs P = Ok P' ∧ lc_inv P' n us ∧ p_nexus P' = p_nexus P ∧ live_nexus P' = live_nexus P.
Proof.
  intros Hinj Hs. induction evs as [|[t id|t] evs IH]; intros P running gone Hevs HP Hi Hn Hl Hr Hj; simpl in *.
  - subst running. rewrite left_id_L in Hi by apply _. by exists P.
  - destruct Hj as (Hrun & Hgone & Hj). destruct (Hevs t id) as [HT ->]; [by left|].
    destruct (server_enter_ok ids T P n v t _ Hinj HP HT Hi Hn Hl) as (P1 & -> & E1 & E2 & E3 & Hi1 & HP1).
    { intros Ht. by destruct (Hr t Ht). }
    { rewrite multiplicity_disj_union. apply not_elem_of_multiplicity in Hrun. pose proof (multiplicity_le_size t us). lia. }
    simpl. rewrite <- E1, <- E2. rewrite (assoc_L (⊎)) in Hi1. apply (IH P1 ({[+ t +]} ⊎ running) gone); try done.
    + intros t' id' Hin. apply Hevs. by right.
    + by rewrite E1.
    + by rewrite E2.
    + intros t' Ht'. destruct (decide (t' = t)) as [->|Hne]; [left; multiset_solver|]. rewrite E3 in Ht' by done.
      destruct (Hr t' Ht') as [Hin|]; [left; multiset_solver|by right].
  - destruct Hj as (Hrun & Hj). assert (running = {[+ t +]} ⊎ (running ∖ {[+ t +]})) as Heq.
    { apply gmultiset_disj_union_difference'. done. }
    rewrite Heq, <- (assoc_L (⊎)) in Hi. destruct (release_rpc_ok P n t _ Hi Hl) as (P1 & -> & Hi1 & E0 & E1 & _ & E2).
    simpl. rewrite <- E1, <- E2. apply (IH P1 (running ∖ {[+ t +]}) ({[t]} ∪ gone)); try done.
    + intros t' r id. rewrite E0. apply HP.
    + by rewrite E1.
    + by rewrite E2.
    + intros t' Ht'. rewrite E0 in Ht'. destruct (Hr t' Ht') as [Hin|]; [|right; set_solver].
      destruct (decide (t' = t)) as [->|Hne]; [right; set_solver|]. left. rewrite Heq in Hin. multiset_solver.
Qed.

Lemma new_nexus_inv uri : open_inv (new_nexus uri Proc_init) 0 ∅.
Proof. split; [split| | |]; simpl; try done; intros t'; [intros Ht; multiset_solver|by intros [? ?]]. Qed.

(** The main thread has closed its connections, and the nexus goes last. *)
Lemma Finalize_frees P n v hs :
  lc_inv P n (users hs) → p_nexus P = Some (n, v) → live_nexus P = {[n]} → Forall plain hs →
  ∃ P', shard_svr_Finalize hs P = Ok P' ∧ live_rpc P' = ∅ ∧ live_nexus P' = ∅.
Proof.
  intros Hi Hn Hl Hp. unfold shard_svr_Finalize. rewrite <- (right_id_L ∅ (⊎) (users hs)) in Hi.
  destruct (close_all_plain hs P n ∅ Hp Hi) as (P1 & -> & Hi1 & E1 & _ & E2); [rewrite Hl; set_solver|]. simpl.
  unfold delete_nexus. rewrite E1, Hn, E2, Hl, decide_True by set_solver. eexists. split; [done|].
  split; [by apply (lc_inv_empty P1 n)|simpl; set_solver].
Qed.

(** The ids of the threads: those of a replica are the ones of [dl_rpc_ids]; those of a shard
    are distinct up to 192 read threads, when the id wraps to that of the main thread. *)
Lemma dl_threads_ids n_th : (dl_threads n_th).*2 = dl_server_ids n_th.
Proof. unfold dl_threads, dl_server_ids. rewrite fmap_app, <- list_fmap_compose. done. Qed.

(** The threads are numbered from one on, with one more. *)
Lemma numbered_nodup (f : nat → Z) n_th t id :
  (t = 0 ∨ n_th < t)%nat → NoDup (((λ i, (S i, f i)) <$> seq 0 n_th) ++ [(t, id)]).*1.
Proof.
  intros Ht. rewrite fmap_app, <- list_fmap_compose. apply list.NoDup_app. split_and!.
  - apply NoDup_fmap_2; [intros x y [=]; done|apply NoDup_seq].
  - intros t' (i & -> & Hi%elem_of_seq)%list_elem_of_fmap Ht'%list_elem_of_singleton. simpl in Ht'. lia.
  - apply list.NoDup_singleton.
Qed.

Lemma shard_rpc_ids n_th : NoDup (shard_threads true n_th).*2 ↔ (n_th ≤ 192)%nat.
Proof.
  unfold shard_threads. rewrite fmap_app, <- list_fmap_compose. simpl. unfold compose. simpl.
  rewrite list.NoDup_app. split.
  - intros (_ & Hd & _). destruct (decide (n_th ≤ 192)%nat) as [|Hn]; [done|]. destruct (Hd 0); [|left].
    apply list_elem_of_fmap. exists 192%nat. split; [done|]. apply elem_of_seq. lia.
  - intros Hn. split; [|split; [|apply list.NoDup_singleton]].
    + apply NoDup_fmap_2_strong; [|apply NoDup_seq]. intros x y Hx%elem_of_seq Hy%elem_of_seq.
      unfold CL_CLI_RPCID_OFFSET. rewrite !u8_small by lia. lia.
    + intros x (i & -> & Hi%elem_of_seq)%list_elem_of_fmap Hx%list_elem_of_singleton. rewrite u8_small in Hx by (unfold CL_CLI_RPCID_OFFSET; lia).
      unfold CL_CLI_RPCID_OFFSET in Hx. lia.
Qed.

(** Threads with different numbers and different ids. *)
Definition id_in (l : list (nat * Z)) (t : nat) : Z := default 0 ((list_to_map l : gmap nat Z) !! t).

Lemma id_in_elem l t id : NoDup l.*1 → (t, id) ∈ l → id_in l t = id.
Proof. intros Hnd Hin. unfold id_in. by rewrite (elem_of_list_to_map_1 l t id). Qed.

Lemma id_in_inj l t1 t2 : NoDup l.*1 → NoDup l.*2 → t1 ∈ l.*1 → t2 ∈ l.*1 → id_in l t1 = id_in l t2 → t1 = t2.
Proof.
  intros Hnd1 Hnd2 ([t i1] & -> & H1)%list_elem_of_fmap ([t' i2] & -> & H2)%list_elem_of_fmap. simpl.
  rewrite (id_in_elem _ _ _ Hnd1 H1), (id_in_elem _ _ _ Hnd1 H2). intros <-.
  apply list_elem_of_lookup in H1 as [j1 H1]. apply list_elem_of_lookup in H2 as [j2 H2].
  assert (j1 = j2) as ->; [|congruence]. eapply (NoDup_lookup l.*2 _ _ i1 Hnd2); rewrite list_lookup_fmap; by rewrite ?H1, ?H2.
Qed.

(** The threads of a server with the connections [hs], and its [Finalize]. *)
Lemma threads_then_Finalize l P hs hs' evs :
  NoDup l.*1 → NoDup l.*2 → entered evs ≡ₚ l → (∀ t r id, p_rpc P !! t = Some (r, id) → (t, id) ∈ l) →
  open_inv P 0 (users hs) → Forall plain hs → Z.of_nat (length hs) + 1 < 2 ^ 31 → joined ∅ ∅ evs → hs' ≡ₚ hs →
  ∃ P', (P ← do_threads evs P; shard_svr_Finalize hs' P) = Ok P' ∧ live_rpc P' = ∅ ∧ live_nexus P' = ∅.
Proof.
  intros Hn1 Hn2 Hev Hids [Hi [Hne Hn] Hl Hr] Hpl Hs Hj Hperm. destruct (p_nexus P) as [[n v]|] eqn:HP; [|done].
  simpl in Hn. injection Hn as ->.
  assert (∀ t id, (t, id) ∈ l → t ∈ (list_to_set l.*1 : gset nat) ∧ id = id_in l t) as Hl0.
  { intros t id Hin. rewrite (id_in_elem l t id) by done. split; [|done]. apply elem_of_list_to_set, list_elem_of_fmap.
    by exists (t, id). }
  destruct (do_threads_ok (id_in l) (list_to_set l.*1) 0 v (users hs) evs) with (P := P) (running := ∅ : gmultiset nat) (gone := ∅ : gset nat)
    as (P1 & -> & Hi1 & E1 & E2); try done.
  - intros t1 t2 H1%elem_of_list_to_set H2%elem_of_list_to_set. by apply id_in_inj.
  - by rewrite users_size.
  - intros t id Hin. apply Hl0. by rewrite <- Hev.
  - intros t r id Ht. apply Hl0. by eapply Hids.
  - by rewrite left_id_L by apply _.
  - rewrite Hl. set_solver.
  - intros t Ht. left. rewrite left_id_L by apply _. by apply Hr.
  - rewrite <- (users_perm _ _ Hperm) in Hi1. rewrite <- Hperm in Hpl.
    apply (Finalize_frees P1 0 v); [done|by rewrite E1|by rewrite E2|done].
Qed.

(** The connections to the backups give the main thread an [Rpc] with the id 0. *)
Lemma backups_ids p uris : ∀ P P' hs,
  (∀ t r id, p_rpc P !! t = Some (r, id) → t = 0%nat ∧ id = 0) →
  open_all p ((λ b, (0%nat, Shard_of b None)) <$> uris) P = Ok (P', hs) →
  ∀ t r id, p_rpc P' !! t = Some (r, id) → t = 0%nat ∧ id = 0.
Proof.
  induction uris as [|b uris IH]; intros P P' hs HP Ho; [by injection Ho as <- <-|].
  rewrite fmap_cons in Ho. cbn [open_all] in Ho. destruct (open_one p 0 (Shard_of b None) P) as [[P1 h]| |] eqn:H1; try done.
  cbn [mbind outcome_bind] in Ho. destruct (open_all p _ P1) as [[P2 hs2]| |] eqn:H2; try done. injection Ho as <- _.
  refine (IH P1 P2 hs2 _ H2). clear IH H2. unfold open_one in H1. cbn [target_connect] in H1.
  destruct (shard_InitializeConn p b None (env_of P 0)) as [[env s]|] eqn:Hc; [|done]. cbn [mbind outcome_bind lift] in H1.
  assert (rpc_ env = Some 0) as Henv.
  { unfold shard_InitializeConn in Hc. destruct (make_nexus _ _). cbn [env_of rpc_] in Hc.
    destruct (p_rpc P !! 0%nat) as [[r i]|] eqn:Hr; cbn [fmap option_fmap option_map snd mbind option_bind] in Hc.
    - destruct (stoull _); [|done]. destruct (HP _ _ _ Hr) as [_ ->]. by injection Hc as <- _.
    - destruct (stoi _); [|done]. cbn [mbind option_bind] in Hc. destruct (stoull _); [|done]. by injection Hc as <- _. }
  rewrite Henv in H1. simpl in H1. destruct (ensure_rpc 0 0 _) as [P3| |] eqn:H3; try done. injection H1 as <- _.
  assert (p_rpc (ensure_nexus (default EmptyString (nexus_ env)) P) = p_rpc P) as Hsame by (unfold ensure_nexus; by destruct (p_nexus P)).
  unfold ensure_rpc in H3. rewrite Hsame in H3. simpl. intros t r id.
  destruct (p_rpc P !! 0%nat) as [[r0 i0]|]; repeat case_match; simplify_eq/=; rewrite ?Hsame; try apply HP.
  intros [[<- [= <- <-]]|[_ E]]%lookup_insert_Some; [done|by apply (HP _ r)].
Qed.

(** Connections that do not count. *)
Lemma counting_none us t (f : string → target) xs :
  (∀ x, counted (f x) = false) → counting us ((λ b, (t, f b)) <$> xs) = 0%nat.
Proof. intros Hf. revert us. induction xs as [|x xs IH]; intros us; [done|]. simpl. by rewrite Hf, andb_false_r, IH. Qed.

(** C24. A replica and a shard server end in order.  The threads of a replica, of which there
    are at most 63, and those of a shard server, with at most 192 read threads, start and stop
    in any interleaving, each with an [Rpc] of its own or, in the main thread of a shard's
    leader, with the one of the connections to the backups.  No two of them have the same id.
    When all have been joined and [Finalize] has run, whatever the order of its hash map, no
    object was used after it was deleted, and neither an [Rpc] nor the nexus is left. *)
Theorem servers_end_clean order p n_dl n_shd evs evs' :
  conn_conf p → (∀ hs, order hs ≡ₚ hs) → NoDup (backup_uris p) → Z.of_nat (length (backup_uris p)) < 2 ^ 30 →
  (n_dl ≤ 63)%nat → entered evs ≡ₚ dl_threads n_dl → joined ∅ ∅ evs →
  (n_shd ≤ 192)%nat → entered evs' ≡ₚ shard_threads (shard_leader p) n_shd → joined ∅ ∅ evs' →
  (∃ P, dl_server_run p evs = Ok P ∧ live_rpc P = ∅ ∧ live_nexus P = ∅) ∧
  (∃ P, shard_server_run order p evs' = Ok P ∧ live_rpc P = ∅ ∧ live_nexus P = ∅).
Proof.
  intros Hp Hord Hnd Hlen Hdl He Hj Hshd He' Hj'. split.
  - apply (threads_then_Finalize (dl_threads n_dl) _ [] []); try done; [apply numbered_nodup; lia| |apply new_nexus_inv].
    rewrite dl_threads_ids. by apply dl_server_ids_nodup.
  - unfold shard_server_run. destruct (shard_leader p).
    2:{ apply (threads_then_Finalize [(0%nat, 0)] _ []); try done; [by apply list.NoDup_singleton..|apply new_nexus_inv|].
        rewrite Hord. unfold by_uri. by destruct (backup_uris p). }
    pose proof (counting_none ∅ 0 (λ b, Shard_of b None) (backup_uris p) (λ _, eq_refl)) as Hc.
    destruct (open_all_ok p 0 ((λ b, (0%nat, Shard_of b None)) <$> backup_uris p) Hp _ ∅
      (new_nexus_inv (GetProperty p "shard.server_uri" "localhost:31860"))) as (P & hs & Ho & Hi & Hpl & Hf & _).
    + rewrite gmultiset_size_empty, length_fmap. lia.
    + done.
    + rewrite Hc. done.
    + rewrite Ho. cbn [mbind outcome_bind]. rewrite right_id_L in Hi by apply _.
      apply Forall2_length in Hf. rewrite length_fmap in Hf.
      apply (threads_then_Finalize (shard_threads true n_shd) P hs); try done; [apply numbered_nodup; lia|by apply shard_rpc_ids| |lia|].
      * intros t r id Ht. destruct (backups_ids p _ _ _ _ (λ _ _ _ E, match lookup_empty_Some _ _ E with end) Ho t r id Ht) as [-> ->].
        apply elem_of_app. right. by apply list_elem_of_singleton.
      * rewrite Hord. by apply by_uri_values.
Qed.

(** The consensus log ends in order in the pipelined mode, and never otherwise. *)
Lemma cons_server_end order p ss :
  conn_conf p → (∀ hs, order hs ≡ₚ hs) → NoDup (replica_uris p) → shard_conns p = Ok ss →
  GetProperty p "dur_log.primary_uri" "localhost:31850" ∈ replica_uris p →
  Z.of_nat (length (replica_uris p) + length ss) < 2 ^ 31 →
  (∃ P, cons_server_run order p true = Ok P ∧ live_rpc P = ∅ ∧ live_nexus P = ∅) ∧ cons_server_run order p false = Fault.
Proof.
  intros Hp Hord Hnd Hss Hpri Hlen. unfold cons_server_run.
  set (xs := (λ d, (0%nat, Replica_of d true)) <$> replica_uris p). set (ys := (λ d, (0%nat, Shard_of d None)) <$> ss).
  assert (length xs = length (replica_uris p) ∧ length ys = length ss) as [Hx Hy] by (unfold xs, ys; by rewrite !length_fmap).
  assert (∀ us, counting us xs = 0%nat ∧ counting us ys = 0%nat) as Hc
    by (intros us; unfold xs, ys; split; [by apply (counting_none us 0 (λ d, Replica_of d true))|by apply (counting_none us 0 (λ d, Shard_of d None))]).
  destruct (open_all_ok p 0 xs Hp _ ∅ (new_nexus_inv (GetProperty p "cons_log.server_uri" "localhost:31850")))
    as (P1 & hr & -> & Hi1 & Hp1 & Hf1 & Hg1); [rewrite gmultiset_size_empty; lia|done|by rewrite (proj1 (Hc _))|].
  rewrite (proj1 (Hc _)) in Hg1. cbn [mbind outcome_bind]. rewrite right_id_L in Hi1 by apply _. rewrite Hss.
  apply Forall2_length in Hf1. cbn [mbind outcome_bind]. fold ys.
  destruct (open_all_ok p 0 ys Hp P1 _ Hi1) as (P2 & hs & -> & Hi2 & Hp2 & _ & _).
  { rewrite users_size. lia. }
  { rewrite Hg1. done. }
  { rewrite Hg1, (proj2 (Hc _)). done. }
  cbn [mbind outcome_bind]. rewrite bool_decide_eq_true_2 by done. split; [|done]. rewrite <- users_app in Hi2.
  set (hr' := order (map_to_list _).*2). assert (order hs ++ hr' ≡ₚ hs ++ hr) as Hperm.
  { unfold hr'. rewrite !Hord. f_equiv. apply by_uri_values; [done|lia]. }
  rewrite <- (users_perm _ _ Hperm) in Hi2.
  destruct (transport_Finalize_ok P2 0 _ Hi2) as (P' & HP' & Hrest); [rewrite Hperm; by apply Forall_app|].
  exists P'. split; [|done]. unfold cl_Finalize. simpl. rewrite close_all_app in HP'. by destruct (close_all (order hs) P2).
Qed.

(** A client of the consensus log is never connected: there is no thread for it. *)
Lemma cons_cli_blocks p uri env :
  is_Some (stoi (GetProperty p "erpc.phy_port" "0")) → cons_InitializeConn p uri env = Blocked.
Proof.
  intros [ph Hph]. unfold cons_InitializeConn, make_nexus. rewrite Hph. by destruct (nexus_ env), (rpc_ env).
Qed.

(** A process that is not the leader of the consensus log fails in its first turn. *)
Lemma cons_follower_fails `{Posix, Erpc, Rdma} p replica shard raw env k fuel delay sched :
  GetProperty p "leader" "true" ≠ "true"%string →
  ConsensusLog_Initialize p replica shard raw env = Ok (env, None) ∧
  cons_loop (S k) fuel delay sched None = Fault.
Proof.
  intros Hl. split; [|done]. unfold ConsensusLog_Initialize. destruct (streq _ _) eqn:E; [|done].
  by apply String.eqb_eq in E.
Qed.

(** ** The unoptimised shard server *)

(** The optimised server sets its index and answers. *)
Lemma shard_update_all `{Posix} `{Erpc} cap rcap idx prims :
  8 ≤ cap → 0 ≤ idx < 2 ^ 64 →
  update_each (shard_serve rcap) cap idx prims = Ok ((λ st, with_indices st (replicated_index_ st) idx) <$> prims).
Proof.
  intros Hcap Hidx. induction prims as [|st prims IH]; [done|]. cbn [update_each]. rewrite IH. unfold store_int.
  rewrite store_ok by (rewrite ?length_le; simpl; lia). cbn [mbind outcome_bind lift].
  rewrite send_ok by (simpl; lia). cbn [mbind outcome_bind lift].
  assert (peek (rd (bmem (bpoke (Buf cap ∅) 0 (le_bytes 8 idx)))) 0 (Z.to_nat 8) = le_bytes 8 idx) as -> by apply (peek_poke_int _ 0 8).
  unfold shard_serve, shard_dispatch, UpdateGlobalIdxHandler. cbn [Z.eqb Pos.eqb APPEND_BATCH REP_BATCH READ_ENTRY_BE UPDATE_GLBL_IDX].
  rewrite load_u64_response by done. done.
Qed.

(** The consensus log cannot run over unoptimised shard servers: after each batch it sends
    the index up to which entries may be read to every shard, and waits for the answers; a
    [ShardServer] sets its index, but [ShardServerUnoptimized] has no handler for that
    request, so that the consensus log waits for ever. *)
Theorem unopt_UpdateGlobalIdx_blocks `{Posix} `{Erpc} cap rcap idx prims :
  8 ≤ cap → 0 ≤ idx < 2 ^ 64 → prims ≠ [] →
  update_each (unopt_serve rcap) cap idx prims = Blocked.
Proof.
  intros Hcap Hidx Hne. destruct prims as [|st prims]; [done|]. cbn [update_each]. unfold store_int.
  rewrite store_ok by (rewrite ?length_le; simpl; lia). cbn [mbind outcome_bind lift].
  by rewrite send_ok by (simpl; lia).
Qed.

(** ** A shard server with two read threads *)

Definition leader_conf : Properties := <["leader" := "true"]> (<["threadcount" := "2"]> small_cluster)%string.

(** The read threads and the main thread come and go in some order. *)
Definition some_order : list thread_event := [Enter 1 64; Enter 0 0; Leave 1; Enter 2 65; Leave 0; Leave 2].

Lemma some_order_threads : entered some_order ≡ₚ shard_threads true 2.
Proof. unfold some_order, shard_threads. simpl. solve_Permutation. Qed.

(** A replica with one thread besides the one of the consensus log. *)
Definition dl_order : list thread_event := [Enter 2 191; Enter 1 128; Leave 2; Leave 1].

Lemma servers_end_clean_witness :
  (∃ P, dl_server_run leader_conf dl_order = Ok P ∧ live_rpc P = ∅ ∧ live_nexus P = ∅) ∧
  (∃ P, shard_server_run reverse leader_conf some_order = Ok P ∧ live_rpc P = ∅ ∧ live_nexus P = ∅).
Proof.
  apply (servers_end_clean reverse leader_conf 1 2 dl_order some_order).
  - split_and!; [exists "p:1"%string, 1, 8192|split; [exists 1|]|exists 2048, 2048].
    + split; (by vm_compute) || lia || (eexists; by vm_compute).
    + split; [by vm_compute|lia].
    + by vm_compute.
    + split; [by vm_compute|lia].
  - intros hs. apply reverse_Permutation.
  - apply (bool_decide_unpack _). by vm_compute.
  - assert (length (backup_uris leader_conf) = 1%nat) as -> by (by vm_compute). lia.
  - lia.
  - unfold dl_order, dl_threads. simpl. solve_Permutation.
  - simpl. split_and!; try multiset_solver; try set_solver.
  - lia.
  - exact some_order_threads.
  - simpl. split_and!; try multiset_solver; try set_solver.
Defined.
