(* ===== verification/SystemView.v ===== *)
(** The system as its clients see it: replicas, consensus log and shards in the pipelined
    mode, of which the client knows the log of the primary.

    [sys_inv P lo rem cl p hist]: the log of the primary is [hist], its entries all satisfy
    [P], the primary has collected [lo] of them or more, and [rem] more appends may come.  An
    append at a replica, a read and a step of the consensus log keep it.  Clients of the
    system ([History], [KVRun]) are proved against these lemmas. *)

From stdpp Require Import strings.
From S2P Require Import Prelude Props Sequencer LogEntry DurLogFlat FlatRing FlatGC DlTransport.
From S2P Require Import FlatCli Replica Links ShardServer ShardRepr NaiveBackend StorageLog.
From S2P Require Import ConsLog ConsOrder System Pipeline PipelineOrder Startup.

Local Open Scope Z_scope.

(** ** Connections keep their names *)

Lemma link_set_keys {L} d (l : L) ls : (link_set d l ls).*1 = ls.*1.
Proof.
  induction ls as [|[d' l'] ls IH]; [done|]. simpl. destruct (streq d d'); [done|]. rewrite !fmap_cons. simpl.
  by rewrite IH.
Qed.

Section Keys.
Context `{Posix, Erpc, Rdma}.

Lemma serve_keys reqs (ls ls' : Links) : serve reqs ls = Ok ls' → ls'.*1 = ls.*1.
Proof.
  revert ls. induction reqs as [|[d bs] reqs IH]; intros ls; cbn [serve]; [by intros [= ->]|].
  destruct (link_at d ls) as [l|]; [|apply IH]. destruct (serve_append l bs); [|done..]. simpl.
  intros Hs%IH. by rewrite Hs, link_set_keys.
Qed.

Lemma allDeletionCompleted_keys (ls ls' : Links) r : allDeletionCompleted ls = Some (ls', r) → ls'.*1 = ls.*1.
Proof.
  revert ls' r. induction ls as [|[d l] ls IH]; intros ls' r; cbn [allDeletionCompleted]; [by intros [= <- _]|].
  destruct (link_CheckAndRunOnce l) as [[l' b]|]; [|done]. simpl.
  destruct (allDeletionCompleted ls) as [[ls1 r1]|]; [|done]. simpl. intros [= <- _].
  rewrite !fmap_cons. simpl. by rewrite (IH ls1 r1).
Qed.

Lemma delete_all_keys delay es (ls ls' : Links) z z' : delete_all delay es ls z = Some (ls', z') → ls'.*1 = ls.*1.
Proof.
  revert ls' z z'. induction ls as [|[d l] ls IH]; intros ls' z z'; cbn [delete_all]; [by intros [= <- _]|].
  destruct (ProcessFetchedEntries _ _ _) as [[ids z1]|]; [|done]. simpl.
  destruct (DeleteOrderedEntriesAsync _ _ _) as [l'|]; [|done]. simpl.
  destruct (delete_all delay es ls z1) as [[ls1 z2]|] eqn:Hd; [|done]. simpl. intros [= <- _].
  rewrite !fmap_cons. simpl. by rewrite (IH ls1 z1 z2).
Qed.

Lemma pipe_step_keys ev cl p cl' p' :
  pipe_step ev cl p = Ok (cl', p') → (dur_cli_ cl').*1 = (dur_cli_ cl).*1.
Proof.
  destruct ev as [reqs| | |run|delay| |slow idx e0]; simpl.
  - destruct (serve reqs _) as [ls| |] eqn:Hs; [|done..]. simpl. intros [= <- _]. by apply serve_keys in Hs.
  - unfold fetch_range. destruct (f_pc p); [|done]. destruct (buffers_ p !! _) as [buf|]; [|done]. simpl.
    destruct (negb _); [done|]. destruct (link_at _ _); [|done]. simpl. by intros [= <- _].
  - unfold fetch_entries. destruct (f_pc p); [done|]. destruct (buffers_ p !! _) as [buf|]; [|done]. simpl.
    destruct (link_at _ _) as [l|]; [|done]. simpl. destruct (FetchUnorderedEntries_from _ _ _ _ _ _) as [[[c es] z]|]; [|done].
    simpl. destruct (z =? 0); intros [= <- _]; simpl; apply link_set_keys.
  - unfold store_append. destruct (s_pc p); [|done..]. destruct (buffers_ p !! _) as [buf|]; [|done]. simpl.
    destruct (empty_ buf); [destruct run; [done|by intros [= <- _]]|].
    destruct (AppendBatch _ _) as [[be i]| |]; [|done..]. simpl. by intros [= <- _].
  - unfold store_delete. destruct (s_pc p); [done| |done]. destruct (buffers_ p !! _) as [buf|]; [|done]. simpl.
    destruct (delete_all _ _ _ _) as [[ls z]|] eqn:Hd; [|done]. simpl. intros [= <- _]. by apply delete_all_keys in Hd.
  - unfold store_poll. destruct (s_pc p); [done..|]. destruct (allDeletionCompleted _) as [[ls r]|] eqn:Hd; [|done].
    simpl. apply allDeletionCompleted_keys in Hd. destruct (negb r); [by intros [= <- _]|].
    destruct (UpdateGlobalIdx _ _); [|done]. simpl. by intros [= <- _].
  - destruct (be_ReadEntry _ _ _ _) as [[[be b] e]| |]; [|done..]. simpl. by intros [= <- _].
Qed.
End Keys.

(** ** Connections *)

(** What stays of a connection; [z] is the size of the entries. *)
Definition conn_ok (z : Z) (pri : string) (dc : string * ErpcCli) : Prop :=
  z ≤ bcap (req_ dc.2) ∧ IsPrimary dc.2 = streq dc.1 pri.

Lemma cli_AppendEntry_message `{Erpc} z pri d c e :
  conn_ok z pri (d, c) → entry_size e ≤ z → valid_entry e →
  ∃ bs, carries e bs ∧ ∀ resp st,
    match AppendEntryHandler resp st bs with
    | Ok (st', rs) => load_int 8 (msg_buf rs) 0 = None ∨
        ∃ c' v, load_int 8 (msg_buf rs) 0 = Some v ∧
          cli_AppendEntry (dl_handle resp) c st e = Ok (c', st', v) ∧ conn_ok z pri (d, c')
    | Blocked => cli_AppendEntry (dl_handle resp) c st e = Blocked
    | Fault => True
    end.
Proof.
  intros [Hcap Hpri] Hsz Hv. simpl in *. pose proof (entry_size_encode e) as Henc.
  set (b := bpoke (req_ c) 0 (encode e)). assert (bcap b = bcap (req_ c)) as Hb by done.
  exists (peek (rd (bmem b)) 0 (Z.to_nat (entry_size e))). split.
  { intros e0. apply entry_message; [done|apply peek_poke_same|lia]. }
  intros resp st. unfold cli_AppendEntry. rewrite (Serializer_ok e) by (try apply Hv; lia). simpl. fold b.
  unfold round_trip. simpl. rewrite send_ok by lia. cbn [lift mbind outcome_bind].
  change (dl_handle resp st APPEND_ENTRY) with (AppendEntryHandler resp st).
  destruct (AppendEntryHandler _ _ _) as [[st' rs]| |]; [|done..]. cbn [mbind outcome_bind].
  destruct (load_int 8 (msg_buf rs) 0) as [v|] eqn:Hl; [|by left]. right. eexists _, v. split; [done|].
  cbn -[load_int msg_buf]. rewrite Hl. split; [done|]. by split; simpl.
Qed.

Lemma conn_at z pri (ks : Conns ErpcCli) d :
  Forall (conn_ok z pri) ks → d ∈ ks.*1 → ∃ c, link_at d ks = Some c ∧ conn_ok z pri (d, c) ∧
    ∀ c', conn_ok z pri (d, c') → Forall (conn_ok z pri) (link_set d c' ks).
Proof.
  induction ks as [|[d' c] ks IH]; simpl; [by intros _ ?%elem_of_nil|].
  intros [Hc Hks]%Forall_cons Hd. destruct (streq_spec d d') as [->|Hne].
  - exists c. split; [done|]. split; [done|]. intros c' Hc'. by constructor.
  - apply elem_of_cons in Hd as [->|Hd]; [done|]. destruct (IH Hks Hd) as (c0 & Hat & Hc0 & Hset).
    exists c0. split; [done|]. split; [done|]. intros c' Hc'. constructor; [done|by apply Hset].
Qed.

(** A client that has connected to the replicas of its configuration, all of them among
    [keys], with room for entries of [z] bytes. *)
Record client_up (z : Z) (clients : list Z) (pri : string) (keys : list string) (c : Conns ErpcCli * Z) : Prop := {
  cu_conn : ∃ q mr msg raw env env', dl_conf q pri mr msg ∧ z ≤ msg ∧ 4 ≤ msg ∧ client_threads q ∧
    NoDup (replica_uris q) ∧ replica_uris q ⊆ keys ∧ pri ∈ replica_uris q ∧
    connect_client q raw (replica_uris q) env [] = Some (env', c.1);
  cu_id : c.2 ∈ clients ∧ 0 ≤ c.2 < 2 ^ 64
}.

Lemma client_up_conns z clients pri keys c :
  client_up z clients pri keys c →
  NoDup c.1.*1 ∧ c.1.*1 ⊆ keys ∧ pri ∈ c.1.*1 ∧ Forall (conn_ok z pri) c.1 ∧
  Forall (λ dc, ∃ msg, cli_ready dc.2 msg ∧ 4 ≤ msg) c.1.
Proof.
  intros [(q & mr & msg & raw & env & env' & Hc & Hz & H4 & Ht & Hnd & Hsub & Hpri & Hconn) _].
  destruct (connect_client_ok q pri mr msg raw (replica_uris q) env [] Hc Ht Hnd) as (env1 & ks & Hks & Hk & Hall).
  rewrite Hconn in Hks. injection Hks as _ Hks. rewrite Hks, Hk. simpl. split; [done|]. split; [done|]. split; [done|].
  split; (eapply List.Forall_impl; [|exact Hall]); intros dc [Hr Hp]; [destruct Hr; split; [lia|done]|by exists msg].
Qed.

(** A request that leaves the replica as it is. *)
Lemma unchanged_server cl d l :
  link_at d (dur_cli_ cl) = Some l → with_links cl (link_set d (with_svr l (l_svr l)) (dur_cli_ cl)) = cl.
Proof.
  intros (i & Hi & Hset)%link_at_lookup. rewrite Hset.
  replace (with_svr l (l_svr l)) with l by (by destruct l). rewrite list_insert_id by done. by destruct cl.
Qed.

(** ** Appending one entry at one replica *)

Section Append.
Context `{Posix, Erpc, Rdma} (M : Z) (clients : list Z) (pri : string).
Context (HM : M ≤ SAFE_RG_SIZE + 4).
Context (u n : nat) (cap R : Z).

Abbreviation pipe_inv := (PipelineOrder.pipe_inv M clients pri u n cap R).

Lemma pipe_append_one m cl p gs ip hist k0 qs j d l h k e bs :
  pipe_inv m cl p gs ip hist k0 qs → dur_cli_ cl !! j = Some (d, l) → gs !! j = Some (h, k) →
  carries e bs → request_ok M e → client_id e ∈ clients → lenZ h + 1 < 2 ^ 32 →
  match AppendEntryHandler (l_resp l) (l_svr l) bs with
  | Ok (st, rs) => rs = le_bytes 8 (total_size h) ∧
      let h' := h ++ [stored e (lenZ h) (view_ (l_svr l))] in
      pipe_inv m (with_links cl (<[j := (d, with_svr l st)]> (dur_cli_ cl))) p (<[j := (h', k)]> gs) ip
        (if decide (j = ip) then h' else hist) k0 qs
  | Blocked => True
  | Fault => False
  end.
Proof.
  intros Hi Hd Hg Hc Hreq Hcli Hlen. pose proof (queue_len _ _ _ _ _ (pv_queue _ _ _ _ _ _ _ _ _ _ _ _ _ _ _ Hi)) as Hql.
  destruct (Forall2_lookup_lr _ _ _ _ _ _ (pv_links _ _ _ _ _ _ _ _ _ _ _ _ _ _ _ Hi) Hd Hg) as [Hl HP].
  pose proof (links_append_inv M clients pri _ (store_phase_stable clients pri R (s_pc p) (next_upto k0 qs) m)) as Hai.
  assert (8 ≤ bcap (l_resp l)) as Hresp by (pose proof (li_resp _ _ _ _ _ _ Hl) as Hx; simpl in Hx; lia).
  pose proof (replica_append M HM (l_resp l) (l_svr l) h k e bs (li_replica _ _ _ _ _ _ Hl) Hc Hreq Hlen
    Hresp) as Happ.
  destruct (_ <? _); [|by rewrite Happ]. destruct Happ as (st & -> & Hr' & Hcfg). split; [done|].
  set (h' := h ++ [stored e (lenZ h) (view_ (l_svr l))]) in *.
  assert (lenZ (h, k).1 + Z.of_nat 1 < 2 ^ 32) as Hb by (simpl; lia).
  pose proof (ai_append _ _ _ Hai 0 d l st h k _ (conj (conj Hl HP) Hb) Hcfg Hr' Hcli) as [Hl' _].
  pose proof (insert_keys _ _ _ _ (with_svr l st) Hd) as Hk.
  destruct (pv_ghost _ _ _ _ _ _ _ _ _ _ _ _ _ _ _ Hi) as (k1 & Hg1 & Hkk).
  assert (hist `prefix_of` (if decide (j = ip) then h' else hist)) as Hh.
  { destruct (decide (j = ip)) as [->|]; [|done]. assert (h = hist) as -> by congruence. by eexists. }
  pose proof (stored_le_next (s_pc p) k0 qs). pose proof (next_le_fetched k0 qs).
  destruct Hi. split; simpl; rewrite ?Hk; try done.
  - by apply Forall2_insert.
  - exists k1. split; [|done]. destruct (decide (j = ip)) as [->|Hne].
    + rewrite list_lookup_insert_eq by (by apply lookup_lt_Some in Hg). congruence.
    + by rewrite list_lookup_insert_ne.
  - rewrite (prefix_take hist) by (done || lia). done.
  - by eapply queue_grow.
Qed.
End Append.

(** ** The invariant *)

Section View.
Context `{Posix, Erpc, Rdma} (M : Z) (clients : list Z) (pri : string).
Context (HM : M ≤ SAFE_RG_SIZE + 4) (Hclients : lenZ clients < 2 ^ 32).
Context (u n : nat) (cap : Z) (Hdims : dims M u n cap).
Context (Hcreate : ∀ p, may_create p = true) (Hwrite : ∀ j, write_len j = j).
Context (R : Z) (ip : nat) (keys : list string) (Hip : keys !! ip = Some pri) (P : LogEntry → Prop).

Definition sys_inv (lo rem : nat) (cl : ConsensusLog) (p : Pipeline) (hist : list LogEntry) : Prop :=
  ∃ m gs k0 qs k, pipe_inv M clients pri u n cap R m cl p gs ip hist k0 qs ∧ budget rem gs ∧
    gs !! ip = Some (hist, k) ∧ (lo ≤ k)%nat ∧ Forall P hist ∧ (dur_cli_ cl).*1 = keys.

Lemma sys_weaken lo rem rem' cl p hist : (rem' ≤ rem)%nat → sys_inv lo rem cl p hist → sys_inv lo rem' cl p hist.
Proof. intros Hle (m & gs & k0 & qs & k & Hi & Hb & Hr). exists m, gs, k0, qs, k. split; [done|]. split; [by eapply budget_weaken|done]. Qed.

(** A replica handles an append request. *)
Lemma sys_handle lo rem cl p hist d e bs :
  sys_inv lo (S rem) cl p hist → d ∈ keys → carries e bs → request_ok M e → client_id e ∈ clients →
  (∀ i v, P (stored e i v)) →
  ∃ l, link_at d (dur_cli_ cl) = Some l ∧
    match AppendEntryHandler (l_resp l) (l_svr l) bs with
    | Ok (st, rs) => ∃ h hist', rs = le_bytes 8 (total_size h) ∧ total_size h < 2 ^ 64 ∧
        sys_inv lo rem (with_links cl (link_set d (with_svr l st) (dur_cli_ cl))) p hist' ∧
        (d = pri → h = hist ∧ hist' = hist ++ [stored e (lenZ hist) (view_ (l_svr l))]) ∧
        (d ≠ pri → hist' = hist)
    | Blocked => True
    | Fault => False
    end.
Proof.
  intros (m & gs & k0 & qs & k1 & Hi & Hb & Hg1 & Hlo & HP & Hk) Hd Hbs Hreq Hcli HPe.
  apply list_elem_of_lookup in Hd as [j Hj]. pose proof Hj as Hj'. rewrite <- Hk, list_lookup_fmap in Hj'.
  destruct (dur_cli_ cl !! j) as [[d0 l]|] eqn:Hl; [|done]. simpl in Hj'. injection Hj' as ->.
  pose proof (pv_keys _ _ _ _ _ _ _ _ _ _ _ _ _ _ _ Hi) as Hnd.
  destruct (link_at_idx _ _ _ _ Hnd Hl) as [Hat Hset]. exists l. split; [done|].
  destruct (Forall2_lookup_l _ _ _ _ _ (pv_links _ _ _ _ _ _ _ _ _ _ _ _ _ _ _ Hi) Hl) as ([h k] & Hg & Hli & _).
  pose proof (Forall_lookup_1 _ _ _ _ Hb Hg) as Hlen. simpl in Hlen.
  pose proof (pipe_append_one M clients pri HM u n cap R m cl p gs ip hist k0 qs j d l h k e bs Hi Hl Hg Hbs
    Hreq Hcli ltac:(lia)) as Happ.
  destruct (AppendEntryHandler _ _ _) as [[st rs]| |]; [|done..]. destruct Happ as [-> Hi'].
  pose proof (replica_total M HM _ _ _ (li_replica _ _ _ _ _ _ Hli)) as Htot. simpl in Htot.
  assert (j = ip ↔ d = pri) as Hjd.
  { split; [intros ->; congruence|]. intros ->. rewrite <- Hk in Hj, Hip. by eapply NoDup_lookup. }
  eexists h, _. split; [done|]. split; [lia|]. rewrite Hset. split; [|split].
  - exists m. eexists _, k0, qs, k1. split; [exact Hi'|]. split; [|split; [|split; [done|split]]].
    + apply Forall_insert; [by eapply budget_weaken; [|exact Hb]; lia|]. simpl. rewrite length_app. simpl. lia.
    + destruct (decide (j = ip)) as [->|Hne]; [|by rewrite list_lookup_insert_ne].
      rewrite list_lookup_insert_eq by (by apply lookup_lt_Some in Hg). congruence.
    + destruct (decide (j = ip)) as [->|]; [|done]. assert (h = hist) as -> by congruence.
      apply Forall_app_2; [done|]. by apply Forall_singleton.
    + simpl. by rewrite (insert_keys _ _ _ _ _ Hl).
  - intros Hp. apply Hjd in Hp as ->. rewrite decide_True by done. by assert (h = hist) as -> by congruence.
  - intros Hp. rewrite decide_False; [done|]. by rewrite Hjd.
Qed.

Lemma sys_read lo rem cl p hist slow i e0 :
  sys_inv lo rem cl p hist → 0 ≤ i < 2 ^ 64 →
  match be_ReadEntry (backend_ cl) slow i e0 with
  | Ok (be, _, e) => (data <$> hist) !! Z.to_nat i = Some (data e) ∧ sys_inv lo rem (with_backend cl be) p hist
  | Blocked => True
  | Fault => False
  end.
Proof.
  intros (m & gs & k0 & qs & k & Hi & Hrest) Hr.
  pose proof (pipe_read_ok M clients pri u n cap Hdims R _ _ _ _ _ _ _ _ slow (Z.to_nat i) e0 Hi ltac:(lia)) as Hrd.
  rewrite Z2Nat.id in Hrd by lia. destruct (take _ hist !! Z.to_nat i) as [e|] eqn:He; [|by rewrite Hrd].
  destruct Hrd as [(be & -> & Hi')|[_ ->]]; [|done]. apply lookup_take_Some in He as [He _].
  split; [by rewrite list_lookup_fmap, He|]. by exists m, gs, k0, qs, k.
Qed.

Lemma sys_step lo rem cl p hist ev :
  sys_inv lo rem cl p hist → event_ok M clients ev → (∀ reqs, ev ≠ PAppend reqs) →
  match pipe_step ev cl p with
  | Ok (cl', p') => sys_inv lo rem cl' p' hist
  | Blocked => True
  | Fault => False
  end.
Proof.
  intros (m & gs & k0 & qs & k & Hi & Hb & Hg & Hlo & HP & Hk) Hev Hna.
  assert (event_appends ev = 0%nat) as Hz by (destruct ev; try done; by destruct (Hna reqs)).
  pose proof (pipe_step_ok M clients pri HM Hclients u n cap Hdims Hcreate Hwrite R m rem cl p gs ip hist k0 qs ev
    Hi Hev ltac:(by rewrite Hz)) as Hok.
  destruct (pipe_step ev cl p) as [[cl' p']| |] eqn:Hs; [|done..]. apply pipe_step_keys in Hs.
  destruct Hok as (m' & gs' & hist' & k0' & qs' & Hi' & Hb' & Hh & _ & Hgs).
  assert (Forall2 evolved gs gs' ∧ gs'.*1 = gs.*1) as [Hevo Hgs'] by (destruct ev; try done; by destruct (Hna reqs)).
  destruct (pv_ghost _ _ _ _ _ _ _ _ _ _ _ _ _ _ _ Hi') as (k' & Hg' & _).
  destruct (Forall2_lookup_lr _ _ _ _ _ _ Hevo Hg Hg') as [_ Hle]. simpl in Hle.
  assert (hist' = hist) as ->.
  { assert (gs'.*1 !! ip = Some hist') as H1' by (by rewrite list_lookup_fmap, Hg').
    rewrite Hgs', list_lookup_fmap, Hg in H1'. by injection H1'. }
  exists m', gs', k0', qs', k'. split_and!; try done; [lia|congruence].
Qed.

(** The primary, with the number of entries that it has collected. *)
Lemma sys_primary lo rem cl p hist :
  sys_inv lo rem cl p hist →
  ∃ l k, link_at pri (dur_cli_ cl) = Some l ∧ replica M (l_svr l) hist k ∧ 18 ≤ bcap (l_resp l).
Proof.
  intros (m & gs & k0 & qs & k1 & Hi & _).
  destruct (pipe_primary M clients pri u n cap R _ _ _ _ _ _ _ _ Hi) as (l & k & Hl & Hg & Hli & _).
  exists l, k. split; [apply (link_at_idx _ ip); [apply Hi|done]|]. split; apply Hli.
Qed.

(** [GetTail] at the primary: the ordered tail does not go back. *)
Lemma sys_tail lo rem cl p hist c z :
  sys_inv lo rem cl p hist → cli_ready c z → 4 ≤ z →
  ∃ l k c' v, link_at pri (dur_cli_ cl) = Some l ∧ (lo ≤ k ≤ length hist)%nat ∧ cli_ready c' z ∧
    cli_GetNumDurEntry (dl_handle (l_resp l)) c (l_svr l) = Ok (c', l_svr l, (lenZ hist, Z.of_nat k, v)) ∧
    sys_inv k rem cl p hist.
Proof.
  intros (m & gs & k0 & qs & k & Hi & Hb & Hg & Hlo & Hrest) Hc Hz.
  destruct (pipe_primary M clients pri u n cap R _ _ _ _ _ _ _ _ Hi) as (l & k1 & Hl & Hg1 & Hli & _).
  rewrite Hg in Hg1. injection Hg1 as <-. pose proof (rp_flat _ _ _ _ (li_replica _ _ _ _ _ _ Hli)) as Hf. simpl in Hf.
  destruct (cli_GetNumDurEntry_spec (l_resp l) c z (l_svr l) hist k Hc Hz (li_resp _ _ _ _ _ _ Hli) Hf) as (c' & Hget & Hc').
  exists l, k, c', (view_ (l_svr l)). split; [apply (link_at_idx _ ip); [apply Hi|done]|].
  split; [split; [done|apply Hf]|]. split; [done|]. split; [done|]. by exists m, gs, k0, qs, k.
Qed.

(** ** Nothing is under way *)

(** All entries are stored and published. *)
Definition sys_done (cl : ConsensusLog) (p : Pipeline) (hist : list LogEntry) : Prop :=
  s_pc p = SIdle ∧ ∃ m gs, pipe_inv M clients pri u n cap R m cl p gs ip hist (length hist) [].

Lemma sys_done_read cl p hist slow i e e0 :
  sys_done cl p hist → hist !! i = Some e →
  ∃ be, be_ReadEntry (backend_ cl) slow (Z.of_nat i) e0 = Ok (be, true, e) ∧ sys_done (with_backend cl be) p hist.
Proof.
  intros (Hpc & m & gs & Hi) He. pose proof (lookup_lt_Some _ _ _ He) as Hlt.
  destruct (pipe_primary M clients pri u n cap R _ _ _ _ _ _ _ _ Hi) as (l & k & _ & _ & Hli & _).
  pose proof (rp_len _ _ _ _ (li_replica _ _ _ _ _ _ Hli)) as Hlen. simpl in Hlen.
  pose proof (pipe_read_ok M clients pri u n cap Hdims R _ _ _ _ _ _ _ _ slow i e0 Hi ltac:(lia)) as Hrd.
  rewrite Hpc in Hrd. simpl in Hrd. rewrite firstn_all, He in Hrd. destruct Hrd as [(be & -> & Hi')|[Hle _]]; [|lia].
  exists be. split; [done|]. split; [done|]. by exists m, gs.
Qed.

Lemma sys_done_tail cl p hist c z :
  sys_done cl p hist → cli_ready c z → 4 ≤ z →
  ∃ l c' v, link_at pri (dur_cli_ cl) = Some l ∧ cli_ready c' z ∧
    cli_GetNumDurEntry (dl_handle (l_resp l)) c (l_svr l) = Ok (c', l_svr l, (lenZ hist, lenZ hist, v)).
Proof.
  intros (Hpc & m & gs & Hi) Hc Hz.
  destruct (pipe_primary M clients pri u n cap R _ _ _ _ _ _ _ _ Hi) as (l & k & Hl & Hg & Hli & _ & _ & _ & Hk).
  destruct (cli_GetNumDurEntry_spec (l_resp l) c z (l_svr l) hist k Hc Hz (li_resp _ _ _ _ _ _ Hli)
    (rp_flat _ _ _ _ (li_replica _ _ _ _ _ _ Hli))) as (c' & Hget & Hc').
  exists l, c', (view_ (l_svr l)). split; [apply (link_at_idx _ ip); [apply Hi|done]|]. split; [done|].
  unfold fetched_upto in Hk. simpl in Hk. rewrite Nat.add_0_r in Hk. replace (lenZ hist) with (Z.of_nat k) at 2 by lia. done.
Qed.

(** The threads of the consensus log get there without further appends. *)
Lemma sys_drain lo rem cl p hist :
  sys_inv lo rem cl p hist → started cl → hist ≠ [] → max_fetch_size_ cl = 0 ∨ M ≤ max_fetch_size_ cl →
  ∃ more cl' p', Forall (λ ev, event_appends ev = 0%nat) more ∧ pipe_run more cl p = Ok (cl', p') ∧ sys_done cl' p' hist.
Proof.
  intros (m & gs & k0 & qs & k & Hi & _) Hst Hne Hmax.
  destruct (drain_all M clients pri HM Hclients u n cap Hdims Hcreate Hwrite R _ _ _ _ _ _ _ _ Hi
    (pipe_live M clients pri u n cap R _ _ _ _ _ _ _ _ Hi Hst Hne) Hmax)
    as ([cl2 p2] & (more & Hmore & Hrun) & _ & _ & Hpc & m2 & gs2 & Hlive & Hi2). simpl in *.
  exists more, cl2, p2. split; [eapply List.Forall_impl; [|exact Hmore]; by intros ev [? _]|]. split; [done|]. split; [done|].
  by exists m2, gs2.
Qed.
End View.

(** The system that [ConsensusLog::Initialize] sets up. *)
Lemma sys_start `{Posix, Erpc, Rdma} M clients pri u n cap mr msg pc replica shard raw env env' cl P rem :
  cluster_ok M clients pri u n cap mr msg pc replica shard →
  ConsensusLog_Initialize pc replica shard raw env = Ok (env', Some cl) → Z.of_nat rem < 2 ^ 32 →
  ∃ ip, replica_uris pc !! ip = Some pri ∧
    sys_inv M clients pri u n cap (mr * 2 ^ 20) ip (replica_uris pc) P 0 rem cl Pipeline_init [].
Proof.
  intros Hco Hini Hrem.
  destruct (Initialize_boots _ _ _ _ _ _ _ _ _ _ _ raw env Hco) as (env1 & cl1 & ip & Hini' & Hkeys & Hrep & Hgc).
  rewrite Hini in Hini'. injection Hini' as _ <-. exists ip. split; [rewrite <- Hkeys; apply Hrep|].
  exists 0%nat, (replicate (length (replica_uris pc)) ([], 0%nat)), 0%nat, [], 0%nat. split; [by eapply pipe_start|].
  split; [by apply Forall_replicate|]. split; [apply Hrep|]. split; [done|]. split; [constructor|done].
Qed.

(** ** The small cluster *)

Definition started_system : ConsensusLog :=
  match ConsensusLog_Initialize small_cluster small_replica small_shard ∅ RpcEnv_init with
  | Ok (_, Some cl) => cl
  | _ => small_system
  end.

(** The connections of a client. *)
Definition small_conns : Conns ErpcCli :=
  match connect_client small_cluster ∅ (replica_uris small_cluster) RpcEnv_init [] with
  | Some (_, ks) => ks
  | None => []
  end.

Lemma started_system_ok :
  ∃ env, ConsensusLog_Initialize small_cluster small_replica small_shard ∅ RpcEnv_init = Ok (env, Some started_system).
Proof.
  destruct (Initialize_boots _ _ _ _ _ _ _ _ _ _ _ ∅ RpcEnv_init small_cluster_ok) as (env & cl & _ & Hi & _).
  exists env. unfold started_system. by rewrite Hi.
Qed.

Lemma small_conns_up z clients id :
  z ≤ 8192 → id ∈ clients → 0 ≤ id < 2 ^ 64 →
  client_up z clients "p:1" (replica_uris small_cluster) (small_conns, id).
Proof.
  intros Hz Hid Hr. pose proof small_cluster_ok as []. split; [|done].
  assert (client_threads small_cluster) as Ht by (split; [exists 1; split; [by vm_compute|lia]|by vm_compute]).
  destruct (connect_client_ok small_cluster "p:1" 1 8192 ∅ (replica_uris small_cluster) RpcEnv_init [] co_conf Ht co_distinct)
    as (env & ks & Hks & _).
  exists small_cluster, 1, 8192, ∅, RpcEnv_init, env. do 6 (split; [done|]). split; [done|].
  unfold small_conns. by rewrite Hks.
Qed.
