(* ===== verification/Client.v ===== *)
(** The client library: [src/client/lazylog_cli.cc].

    A client sends each entry to all replicas of the durability log and reads from the
    shards.  While it waits, the replicas also handle requests of other clients. *)

From Stdlib Require Import Ascii.
From stdpp Require Import strings.
From S2P Require Import Prelude Props Sequencer LogEntry DurLogFlat FlatRing FlatGC DlTransport.
From S2P Require Import Replica Links ShardServer NaiveBackend.

Local Open Scope Z_scope.

(** ** Connections *)

(** A [DurabilityLogERPCCli], the replica at its other end, and the append request under
    way: the polls until it is handled, the message and the token. *)
Record CliLink : Type := mkCliLink {
  k_cli : ErpcCli;
  k_svr : FlatLog;
  k_resp : buffer;
  k_flight : option (nat * list byte * nat)
}.

Definition k_with_svr (l : CliLink) (st : FlatLog) : CliLink :=
  mkCliLink (k_cli l) st (k_resp l) (k_flight l).

#[export] Instance CliLink_replicated : Replicated CliLink :=
  {| r_svr := k_svr; r_resp := k_resp; r_set := k_with_svr |}.

Abbreviation CliLinks := (Conns CliLink).

(** ** The client *)

Record LazyLogClient : Type := mkClient {
  dur_clis_ : CliLinks;
  dl_primary_ : string;
  be_rd_cli_ : NaiveBackend;
  client_id_ : Z;
  seq_ : Sequencer.t;
  maj_threshold_ : Z
}.

Definition with_conns (c : LazyLogClient) (ls : CliLinks) : LazyLogClient :=
  mkClient ls (dl_primary_ c) (be_rd_cli_ c) (client_id_ c) (seq_ c) (maj_threshold_ c).
Definition with_seq (c : LazyLogClient) (s : Sequencer.t) : LazyLogClient :=
  mkClient (dur_clis_ c) (dl_primary_ c) (be_rd_cli_ c) (client_id_ c) s (maj_threshold_ c).
Definition with_reader (c : LazyLogClient) (be : NaiveBackend) : LazyLogClient :=
  mkClient (dur_clis_ c) (dl_primary_ c) be (client_id_ c) (seq_ c) (maj_threshold_ c).

(** The client id: the constructor takes the next number of the process, [Initialize]
    adds the address shifted by six, in 32 bits. *)
Definition make_client_id (global_cli_id s_addr : Z) : Z :=
  u64 (global_cli_id + u32 (Z.shiftl s_addr 6)).

(** [dur_clis_[s] = ...]. *)
Definition connect_to (connect : string → CliLink) (ls : CliLinks) (s : string) : CliLinks :=
  match link_at s ls with
  | Some _ => link_set s (connect s) ls
  | None => ls ++ [(s, connect s)]
  end.

(** [Initialize]: the names of the replicas and of the primary, the id and the quorum;
    [connect] sets up the connection to a replica, [reader] the one to the shards. *)
Definition LazyLogClient_Initialize (p : Properties) (global_cli_id s_addr : Z)
    (connect : string → CliLink) (reader : NaiveBackend) : LazyLogClient :=
  let dl_servers := SeparateValue (GetProperty p "dur_log.server_uri" "localhost:31850") ","%char in
  mkClient (foldl (connect_to connect) [] dl_servers)
    (GetProperty p "dur_log.primary_uri" "dur_log.primary_uri") reader
    (make_client_id global_cli_id s_addr) Sequencer.init (lenZ dl_servers).

Definition constructLogEntry (c : LazyLogClient) (d : list byte) : LogEntry * LazyLogClient :=
  let '(s, q) := Sequencer.GetNextSeq (seq_ c) in
  (mkEntry (client_id_ c) s 0 (u32 (lenZ d)) 1 0 d, with_seq c q).

Section LazyLogClient.
Context `{Posix, Erpc}.

(** ** Asynchronous requests *)

Definition AppendEntryAsync (delay : nat) (l : CliLink) (e : LogEntry) (token : nat) : option CliLink :=
  '(c, bs) ← cli_AppendEntryAsync (k_cli l) e;
  Some (mkCliLink (with_tokens c (pending_reqs_ c) (<[token := RPCToken.init]> (tokens c)))
          (k_svr l) (k_resp l) (Some (delay, bs, token))).

(** The network and the replica make progress: the request is handled, unless the
    replica has no room, and [rpc_cont_func_async] completes the token. *)
Definition k_advance (l : CliLink) : outcome CliLink :=
  match k_flight l with
  | None => Ok l
  | Some (S delay, bs, token) => Ok (mkCliLink (k_cli l) (k_svr l) (k_resp l) (Some (delay, bs, token)))
  | Some (O, bs, token) =>
      match dl_handle (k_resp l) (k_svr l) APPEND_ENTRY bs with
      | Ok (st, rs) => Ok (mkCliLink (async_complete (k_cli l) token rs) st (k_resp l) None)
      | Blocked => Ok l
      | Fault => Fault
      end
  end.

Definition token_complete (l : CliLink) (token : nat) : bool :=
  default false (RPCToken.Complete <$> tokens (k_cli l) !! token).

(** The first loop of [AppendEntryAll]: a request to every replica. *)
Fixpoint send_all (delay : string → nat) (ls : CliLinks) (e : LogEntry) (token : nat) : option CliLinks :=
  match ls with
  | [] => Some []
  | (d, l) :: ls =>
      l ← AppendEntryAsync (delay d) l e token;
      ls ← send_all delay ls e token;
      Some ((d, l) :: ls)
  end.

(** [RunERPCOnce] for every connection. *)
Fixpoint poll_all (ls : CliLinks) : outcome CliLinks :=
  match ls with
  | [] => Ok []
  | (d, l) :: ls => l ← k_advance l; ls ← poll_all ls; Ok ((d, l) :: ls)
  end.

Definition tokens_of (ls : CliLinks) (token : nat) : list RPCToken.t :=
  (λ dl, token_complete dl.2 token) <$> ls.

(** The second loop; [Blocked] means that it has not ended within [fuel] more turns. *)
Fixpoint wait_all (fuel i token : nat) (sched : nat → list (string * list byte)) (ls : CliLinks)
    : outcome CliLinks :=
  ls ← serve (sched i) ls;
  ls ← poll_all ls;
  if RPCToken.allCompleted (tokens_of ls token) then Ok ls
  else match fuel with O => Blocked | S fuel => wait_all fuel (S i) token sched ls end.

(** The result is the id of the request. *)
Definition AppendEntryAll (fuel : nat) (delay : string → nat) (sched : nat → list (string * list byte))
    (token : nat) (c : LazyLogClient) (d : list byte) : outcome (LazyLogClient * (Z * Z)) :=
  let '(e, c) := constructLogEntry c d in
  ls ← lift (send_all delay (dur_clis_ c) e token);
  ls ← wait_all fuel 0 token sched ls;
  Ok (with_conns c ls, (client_id e, client_seq e)).

(** ** Quorums *)

(** [n_complete + 1 >= maj_threshold_]. *)
Definition quorumCompleted (maj_threshold : Z) (pri_token : RPCToken.t) (tokens : list RPCToken.t) : bool :=
  if negb (RPCToken.Complete pri_token) then false
  else maj_threshold <=? lenZ (List.filter RPCToken.Complete tokens) + 1.

(** The requests are also queued on their connections. *)
Fixpoint send_quorum (delay : string → nat) (ls : CliLinks) (e : LogEntry) (token : nat) : option CliLinks :=
  match ls with
  | [] => Some []
  | (d, l) :: ls =>
      l ← AppendEntryAsync (delay d) l e token;
      ls ← send_quorum delay ls e token;
      Some ((d, mkCliLink (AddPendingReq (k_cli l) token) (k_svr l) (k_resp l) (k_flight l)) :: ls)
  end.

(** [CheckPendingReq]: a turn of the event loop, after which the oldest request is
    dequeued if it is complete. *)
Definition k_CheckPendingReq (l : CliLink) : outcome CliLink :=
  match pending_reqs_ (k_cli l) with
  | [] => Ok l
  | _ =>
      l ← k_advance l;
      Ok (mkCliLink (match pending_reqs_ (k_cli l) with
                     | t :: q => if token_complete l t then with_tokens (k_cli l) q (tokens (k_cli l))
                                 else k_cli l
                     | [] => k_cli l
                     end) (k_svr l) (k_resp l) (k_flight l))
  end.

Fixpoint check_all (ls : CliLinks) : outcome CliLinks :=
  match ls with
  | [] => Ok []
  | (d, l) :: ls => l ← k_CheckPendingReq l; ls ← check_all ls; Ok ((d, l) :: ls)
  end.

(** The token of the primary, and those of the others.  Without a primary the pointer
    is null. *)
Definition pri_token_of (ls : CliLinks) (token : nat) : option RPCToken.t :=
  last (tokens_of (List.filter (λ dl, IsPrimary (k_cli dl.2)) ls) token).
Definition backup_tokens_of (ls : CliLinks) (token : nat) : list RPCToken.t :=
  tokens_of (List.filter (λ dl, negb (IsPrimary (k_cli dl.2))) ls) token.

Fixpoint wait_quorum (fuel i token : nat) (maj : Z) (sched : nat → list (string * list byte)) (ls : CliLinks)
    : outcome CliLinks :=
  ls ← serve (sched i) ls;
  ls ← check_all ls;
  pri_token ← lift (pri_token_of ls token);
  if quorumCompleted maj pri_token (backup_tokens_of ls token) then Ok ls
  else match fuel with O => Blocked | S fuel => wait_quorum fuel (S i) token maj sched ls end.

Definition AppendEntryQuorum (fuel : nat) (delay : string → nat) (sched : nat → list (string * list byte))
    (token : nat) (c : LazyLogClient) (d : list byte) : outcome (LazyLogClient * (Z * Z)) :=
  let '(e, c) := constructLogEntry c d in
  ls ← lift (send_quorum delay (dur_clis_ c) e token);
  ls ← wait_quorum fuel 0 token (maj_threshold_ c) sched ls;
  Ok (with_conns c ls, (client_id e, client_seq e)).

(** ** AppendEntry *)

(** One replica after the other, in the shuffled order [dur_servs]; the number of the
    primary comes first. *)
Fixpoint append_each (dur_servs : list string) (ls : CliLinks) (e : LogEntry) (sequence_nums : list Z)
    : outcome (CliLinks * list Z) :=
  match dur_servs with
  | [] => Ok (ls, sequence_nums)
  | dur_srv :: dur_servs =>
      l ← lift (link_at dur_srv ls);
      '(c, st, r) ← cli_AppendEntry (dl_handle (k_resp l)) (k_cli l) (k_svr l) e;
      let seq_num := r / 40 in
      let ls := link_set dur_srv (mkCliLink c st (k_resp l) (k_flight l)) ls in
      append_each dur_servs ls e
        (if IsPrimary c then seq_num :: sequence_nums else sequence_nums ++ [seq_num])
  end.

Definition LazyLogClient_AppendEntry (shuffle : list string → list string) (c : LazyLogClient) (d : list byte)
    : outcome (LazyLogClient * list Z) :=
  let '(e, c) := constructLogEntry c d in
  '(ls, nums) ← append_each (shuffle (dur_clis_ c).*1) (dur_clis_ c) e [];
  Ok (with_conns c ls, nums).

(** ** Reads *)

Definition LazyLogClient_ReadEntry (slow : bool) (c : LazyLogClient) (idx : Z)
    : outcome (LazyLogClient * bool * list byte) :=
  '(be, ret, e) ← be_ReadEntry (be_rd_cli_ c) slow idx LogEntry_default;
  Ok (with_reader c be, ret, data e).

Definition on_primary {A} (c : LazyLogClient) (f : CliLink → outcome (CliLink * A))
    : outcome (LazyLogClient * A) :=
  l ← lift (link_at (dl_primary_ c) (dur_clis_ c));
  '(l, a) ← f l;
  Ok (with_conns c (link_set (dl_primary_ c) l (dur_clis_ c)), a).

(** [data] is left alone unless an entry was read. *)
Definition LazyLogClient_SpecReadEntry (c : LazyLogClient) (idx : Z) (d : list byte)
    : outcome (LazyLogClient * (Z * list byte)) :=
  on_primary c (λ l,
    '(k, st, (ret_v, e)) ← cli_SpecRead (dl_handle (k_resp l)) (k_cli l) (k_svr l) idx LogEntry_default;
    Ok (mkCliLink k st (k_resp l) (k_flight l), (ret_v, if 0 <? ret_v then data e else d))).

Definition GetTail (c : LazyLogClient) : outcome (LazyLogClient * (Z * Z * Z)) :=
  on_primary c (λ l,
    '(k, st, t) ← cli_GetNumDurEntry (dl_handle (k_resp l)) (k_cli l) (k_svr l);
    Ok (mkCliLink k st (k_resp l) (k_flight l), t)).

Definition OrderEntry (c : LazyLogClient) (d : list byte) : Z := 0.
Definition ReadEntries (c : LazyLogClient) (from to : Z) (es : list LogEntry) : list LogEntry * bool := (es, false).
End LazyLogClient.
