(* ===== verification/ClientAppend.v ===== *)
(** Appending by a client is durable: when [AppendEntryAll] returns, the entry is in the
    log of every replica. *)

From stdpp Require Import strings.
From S2P Require Import Prelude Props Sequencer LogEntry DurLogFlat FlatRing FlatGC DlTransport.
From S2P Require Import FlatCli Replica Links ShardServer NaiveBackend StorageLog Client.

Local Open Scope Z_scope.

Section Append.
Context `{Erpc} (M : Z) (clients : list Z) (HM : M ≤ SAFE_RG_SIZE + 4).

Record conn_inv (l : CliLink) (g : Ghost) : Prop := {
  cn_replica : replica M (k_svr l) g.1 g.2;
  cn_resp : 8 ≤ bcap (k_resp l);
  cn_req : M ≤ bcap (req_ (k_cli l))
}.

(** The replica has room for [n] more entries. *)
Definition has_room (n : nat) (l : CliLink) (g : Ghost) : Prop :=
  M * (Z.of_nat (length g.1 - g.2) + Z.of_nat n) < rg_size_ (k_svr l) - 2 ^ 18 ∧
  lenZ g.1 + Z.of_nat n < 2 ^ 32.

(** The entry is in the log. *)
Definition logged (e : LogEntry) (g : Ghost) : Prop :=
  ∃ i v, g.1 !! i = Some (stored e (Z.of_nat i) v).

Context (e : LogEntry) (token : nat) (He : request_ok M e).

(** The request is under way and will be handled within [m] polls, or it is done; [n]
    requests of others may still arrive. *)
Definition sent (m n : nat) (d : string) (l : CliLink) (g : Ghost) : Prop :=
  conn_inv l g ∧
  match k_flight l with
  | Some (delay, bs, t) =>
      t = token ∧ (delay < m)%nat ∧ carries e bs ∧ tokens (k_cli l) !! token = @Some RPCToken.t false ∧ has_room (S n) l g
  | None => tokens (k_cli l) !! token = @Some RPCToken.t true ∧ logged e g ∧ lenZ g.1 + Z.of_nat n < 2 ^ 32
  end.

Lemma sent_append_inv m : append_inv M clients (sent m).
Proof.
  split; simpl.
  - intros n d l g [Hc _]. apply Hc.
  - intros n d l g [Hc _]. apply Hc.
  - intros n d l g [_ Hs]. destruct (k_flight l) as [[[delay bs] t]|].
    + destruct Hs as (_ & _ & _ & _ & _ & Hl). lia.
    + destruct Hs as (_ & _ & Hl). lia.
  - intros n d l g [Hc Hs]. split; [done|]. destruct (k_flight l) as [[[delay bs] t]|].
    + destruct Hs as (? & ? & ? & ? & Hr & Hl). split_and!; try done. split; [|lia].
      pose proof (entry_size_pos e). destruct He. nia.
    + destruct Hs as (? & ? & Hl). split_and!; (done || lia).
  - intros n d l st hist k e' [Hc Hs] Hcfg Hr Hcl. split; [by destruct Hc|]. cbn [k_with_svr k_flight k_cli].
    destruct (k_flight l) as [[[delay bs] t]|].
    + destruct Hs as (? & ? & ? & ? & Hroom & Hl). split_and!; try done.
      * unfold has_room in *. destruct Hcfg as (_ & _ & _ & Hrg & _). simpl in *. rewrite Hrg, length_app. simpl.
        pose proof (fr_k _ _ _ (rp_flat _ _ _ _ (cn_replica _ _ Hc))). simpl in *.
        split; [|lia]. replace (length hist + 1 - k)%nat with (S (length hist - k)) by lia. lia.
    + destruct Hs as (? & (i & v & Hi) & Hl). split_and!; try done.
      * exists i, v. simpl in *. by apply lookup_app_l_Some.
      * simpl in *. rewrite length_app. simpl. lia.
Qed.

(** One poll. *)
Lemma k_advance_ok m n d l g :
  sent (S m) n d l g →
  ∃ l' g', k_advance l = Ok l' ∧ sent m n d l' g' ∧ grown g g'.
Proof.
  intros [Hc Hs]. unfold k_advance. destruct (k_flight l) as [[[[|delay] bs] t]|] eqn:Hf; cycle 2.
  - exists l, g. split; [done|]. split; [|done]. split; [done|]. by rewrite Hf.
  - destruct Hs as (-> & Hd & Hbs & Ht & Hr & Hl). destruct g as [hist k]. simpl in Hr, Hl.
    pose proof (cn_replica _ _ Hc) as Hrep. simpl in Hrep. destruct He as [Hv Hsm].
    pose proof (replica_append M HM (k_resp l) (k_svr l) hist k e bs Hrep Hbs He ltac:(lia) (cn_resp _ _ Hc)) as Happ.
    assert (total_size (drop k hist) ≤ M * Z.of_nat (length hist - k)) as Htot.
    { rewrite <- length_drop. apply small_entries_total, Forall_drop, Hrep. }
    pose proof (entry_size_pos e).
    assert (M * Z.of_nat (length hist - k) + M ≤ M * (Z.of_nat (length hist - k) + Z.of_nat (S n))) by nia.
    rewrite (proj2 (Z.ltb_lt _ _)) in Happ by lia. destruct Happ as (st' & Happ & Hrep' & Hcfg).
    change (dl_handle (k_resp l) (k_svr l) APPEND_ENTRY bs) with (AppendEntryHandler (k_resp l) (k_svr l) bs).
    rewrite Happ. eexists _, (hist ++ [stored e (lenZ hist) (view_ (k_svr l))], k). split; [done|].
    split; [|split; [by eexists|done]]. split; [by destruct Hc|]. simpl. split.
    + etrans; [apply lookup_alter_eq|]. exact (f_equal (fmap RPCToken.SetComplete) Ht).
    + split; [|rewrite length_app; simpl; lia]. exists (length hist), (view_ (k_svr l)).
      simpl. rewrite lookup_app_r, Nat.sub_diag by lia. done.
  - exists (mkCliLink (k_cli l) (k_svr l) (k_resp l) (Some (delay, bs, t))), g. split; [done|].
    split; [|done]. split; [by destruct Hc|]. simpl. destruct Hs as (? & ? & ? & ? & ?). split_and!; (done || lia).
Qed.

Lemma poll_all_ok m n ls gs :
  Forall2 (λ dl g, sent (S m) n dl.1 dl.2 g) ls gs →
  ∃ ls' gs', poll_all ls = Ok ls' ∧ Forall2 (λ dl g, sent m n dl.1 dl.2 g) ls' gs' ∧ ls'.*1 = ls.*1 ∧
    Forall2 grown gs gs'.
Proof.
  induction 1 as [|[d l] g ls gs Hl _ IH]; cbn [poll_all]; [by exists [], []|].
  destruct (k_advance_ok m n d l g Hl) as (l' & g' & -> & Hl' & Hg).
  destruct IH as (ls' & gs' & -> & Hls' & Hk & Hgs). cbn [mbind outcome_bind].
  exists ((d, l') :: ls'), (g' :: gs'). split; [done|]. split; [by constructor|].
  split; [by rewrite !fmap_cons, Hk|]. by constructor.
Qed.

(** All requests are handled. *)
Definition all_done (d : string) (l : CliLink) (g : Ghost) : Prop :=
  conn_inv l g ∧ k_flight l = None ∧ logged e g.

Lemma tokens_done m n ls gs :
  Forall2 (λ dl g, sent m n dl.1 dl.2 g) ls gs →
  RPCToken.allCompleted (tokens_of ls token) = true → Forall2 (λ dl g, all_done dl.1 dl.2 g) ls gs.
Proof.
  induction 1 as [|[d l] g ls gs [Hc Hs] _ IH]; [constructor|].
  unfold tokens_of, token_complete. cbn [fmap list_fmap RPCToken.allCompleted snd].
  simpl in Hc, Hs. destruct (k_flight l) as [[[delay bs] t]|] eqn:Hf.
  - destruct Hs as (_ & _ & _ & -> & _). done.
  - destruct Hs as (-> & Hlog & _). simpl. intros Hall. constructor; [done|by apply IH].
Qed.

Lemma tokens_ready n ls gs :
  Forall2 (λ dl g, sent 0 n dl.1 dl.2 g) ls gs → RPCToken.allCompleted (tokens_of ls token) = true.
Proof.
  induction 1 as [|[d l] g ls gs [Hc Hs] _ IH]; [done|].
  unfold tokens_of, token_complete. cbn [fmap list_fmap RPCToken.allCompleted snd].
  simpl in Hs. destruct (k_flight l) as [[[delay bs] t]|].
  - destruct Hs as (_ & Hd & _). lia.
  - destruct Hs as (-> & _). apply IH.
Qed.

Lemma grown_by_grown n gs gs' : Forall2 (grown_by n) gs gs' → Forall2 grown gs gs'.
Proof. intros Hg. eapply Forall2_impl; [exact Hg|]. by intros g g' [? _]. Qed.

(** A turn of the loop. *)
Lemma turn_ok reqs m n ls gs :
  Forall (λ r, message_ok M clients r.2) reqs →
  Forall2 (λ dl g, sent (S m) (length reqs + n) dl.1 dl.2 g) ls gs →
  ∃ ls1 ls2 gs2, serve reqs ls = Ok ls1 ∧ poll_all ls1 = Ok ls2 ∧
    Forall2 (λ dl g, sent m n dl.1 dl.2 g) ls2 gs2 ∧ ls2.*1 = ls.*1 ∧ Forall2 grown gs gs2.
Proof.
  intros Hmsg Hls.
  destruct (serve_ok M clients HM _ (sent_append_inv _) n reqs ls gs Hls Hmsg)
    as (ls1 & gs1 & Hs & Hls1 & Hk1 & Hg1%grown_by_grown).
  destruct (poll_all_ok _ _ ls1 gs1 Hls1) as (ls2 & gs2 & Hp & Hls2 & Hk2 & Hg2).
  exists ls1, ls2, gs2. split; [done|]. split; [done|]. split; [done|]. split; [congruence|].
  by transitivity gs1.
Qed.

Lemma wait_all_ok sched fuel i ls gs :
  (∀ j, Forall (λ r, message_ok M clients r.2) (sched j)) →
  Forall2 (λ dl g, sent (S fuel) (arrivals sched i (S fuel)) dl.1 dl.2 g) ls gs →
  ∃ ls' gs', wait_all fuel i token sched ls = Ok ls' ∧ Forall2 (λ dl g, all_done dl.1 dl.2 g) ls' gs' ∧
    ls'.*1 = ls.*1 ∧ Forall2 grown gs gs'.
Proof.
  intros Hmsg. revert i ls gs. induction fuel as [|fuel IH]; intros i ls gs Hls;
    destruct (turn_ok (sched i) _ _ ls gs (Hmsg i) Hls) as (ls1 & ls2 & gs2 & Hs & Hp & Hls2 & Hk2 & Hg2);
    cbn [wait_all]; rewrite Hs; cbn [mbind outcome_bind]; rewrite Hp; cbn [mbind outcome_bind];
    destruct (RPCToken.allCompleted (tokens_of ls2 token)) eqn:Hall;
    try (exists ls2, gs2; split; [done|]; split; [by eapply tokens_done|done]).
  - by rewrite (tokens_ready _ _ _ Hls2) in Hall.
  - destruct (IH (S i) ls2 gs2 Hls2) as (ls3 & gs3 & -> & Hd & Hk3 & Hg3).
    exists ls3, gs3. split; [done|]. split; [done|]. split; [congruence|by transitivity gs2].
Qed.

(** Sending. *)
Lemma AppendEntryAsync_ok delay fuel n d l g :
  conn_inv l g → has_room (S n) l g → (delay ≤ fuel)%nat →
  ∃ l', AppendEntryAsync delay l e token = Some l' ∧ sent (S fuel) n d l' g ∧ k_flight l' ≠ None ∧
    pending_reqs_ (k_cli l') = pending_reqs_ (k_cli l) ∧ IsPrimary (k_cli l') = IsPrimary (k_cli l).
Proof.
  intros Hc Hroom Hd. pose proof He as [Hv Hsm]. pose proof (entry_size_encode e). pose proof (cn_req _ _ Hc).
  pose proof (entry_size_pos e). unfold AppendEntryAsync, cli_AppendEntryAsync.
  rewrite (Serializer_ok e) by (try apply Hv; lia). simpl.
  rewrite send_ok by (simpl; lia). simpl. eexists. split; [done|]. split; [|done]. split; [by destruct Hc|]. simpl.
  split; [done|]. split; [lia|]. split; [|split; [by rewrite lookup_insert_eq|done]].
  intros e0. apply (entry_message e e0 (bpoke (req_ (k_cli l)) 0 (encode e))); [done|apply peek_poke_same|lia].
Qed.

Lemma send_all_ok delay fuel n ls gs :
  Forall2 (λ dl g, conn_inv dl.2 g ∧ has_room (S n) dl.2 g) ls gs → Forall (λ d, delay d ≤ fuel)%nat ls.*1 →
  ∃ ls', send_all delay ls e token = Some ls' ∧ Forall2 (λ dl g, sent (S fuel) n dl.1 dl.2 g) ls' gs ∧
    ls'.*1 = ls.*1.
Proof.
  induction 1 as [|[d l] g ls gs [Hc Hroom] _ IH]; intros Hd; cbn [send_all]; [by exists []|].
  apply Forall_cons in Hd as [Hd Hds]. simpl in Hc, Hroom, Hd. destruct (IH Hds) as (ls' & -> & Hls' & Hk).
  destruct (AppendEntryAsync_ok (delay d) fuel n d l g Hc Hroom Hd) as (l' & -> & Hl' & _). simpl.
  exists ((d, l') :: ls'). split; [done|]. split; [by constructor|by rewrite !fmap_cons, Hk].
Qed.
End Append.

(** ** Claims *)

(** The entry that a client makes of its data. *)
Definition client_entry (c : LazyLogClient) (d : list byte) : LogEntry :=
  mkEntry (client_id_ c) (seq_ c) 0 (lenZ d) 1 0 d.

Lemma constructLogEntry_ok c d :
  lenZ d < 2 ^ 32 → constructLogEntry c d = (client_entry c d, with_seq c (u64 (seq_ c + 1))).
Proof.
  intros Hd. unfold constructLogEntry, client_entry, Sequencer.GetNextSeq. by rewrite u32_small by lia.
Qed.

(** C9. Appends are durable.  With room on the replicas for the entry and for the
    requests of other clients that arrive meanwhile, [AppendEntryAll] returns, however
    long each replica takes, once it has polled longer than that.  It returns the id of
    the request; the entry is then in the log of every replica, with the index that the
    replica gave it, and the logs have lost nothing. *)
Theorem AppendEntryAll_durable `{Posix, Erpc} M clients fuel delay sched token c d gs :
  M ≤ SAFE_RG_SIZE + 4 → request_ok M (client_entry c d) →
  Forall2 (λ dl g, conn_inv M dl.2 g ∧ has_room M (S (arrivals sched 0 (S fuel))) dl.2 g) (dur_clis_ c) gs →
  (∀ j, Forall (λ r, message_ok M clients r.2) (sched j)) →
  Forall (λ s, delay s ≤ fuel)%nat (dur_clis_ c).*1 →
  ∃ c' gs', AppendEntryAll fuel delay sched token c d = Ok (c', (client_id_ c, seq_ c)) ∧
    Forall2 (λ dl g, conn_inv M dl.2 g ∧ k_flight dl.2 = None ∧ logged (client_entry c d) g) (dur_clis_ c') gs' ∧
    (dur_clis_ c').*1 = (dur_clis_ c).*1 ∧ Forall2 grown gs gs' ∧ seq_ c' = u64 (seq_ c + 1).
Proof.
  intros HM He Hls Hmsg Hdelay. pose proof He as [Hv Hsm]. pose proof (entry_size_bounds (client_entry c d)).
  unfold SAFE_RG_SIZE, PAGE_SIZE, MetaDataSize, FlagPos in *. simpl data in *.
  unfold AppendEntryAll. rewrite constructLogEntry_ok by lia. cbn [dur_clis_ with_seq].
  destruct (send_all_ok M (client_entry c d) token He delay fuel _ _ gs Hls Hdelay) as (ls1 & -> & Hls1 & Hk1).
  cbn [lift mbind outcome_bind].
  destruct (wait_all_ok M clients ltac:(unfold SAFE_RG_SIZE, PAGE_SIZE; lia) (client_entry c d) token He sched fuel 0
    ls1 gs Hmsg Hls1) as (ls2 & gs2 & -> & Hd & Hk2 & Hg).
  cbn [mbind outcome_bind]. eexists _, gs2. split; [done|]. split; [exact Hd|]. split; [simpl; congruence|done].
Qed.

Definition test_client : LazyLogClient :=
  mkClient [("a"%string, mkCliLink test_cli two_entries test_resp None);
            ("b"%string, mkCliLink test_cli two_entries test_resp None)] "a" two_shards 44 5 2.

Lemma AppendEntryAll_durable_witness :
  ∃ c' gs', AppendEntryAll 2 (λ _, 1%nat) (λ _, []) 0 test_client [Byte.x41; Byte.x42; Byte.x43]
      = Ok (c', (44, 5)) ∧
    Forall2 (λ dl g, conn_inv 1000 dl.2 g ∧ k_flight dl.2 = None ∧
      logged (mkEntry 44 5 0 3 1 0 [Byte.x41; Byte.x42; Byte.x43]) g) (dur_clis_ c') gs' ∧
    (dur_clis_ c').*1 = ["a"; "b"]%string ∧ Forall2 grown [(two_hist, 0%nat); (two_hist, 0%nat)] gs' ∧ seq_ c' = 6.
Proof.
  apply (AppendEntryAll_durable 1000 [42; 43] 2 (λ _, 1%nat) (λ _, []) 0 test_client [Byte.x41; Byte.x42; Byte.x43]
    [(two_hist, 0%nat); (two_hist, 0%nat)]).
  - done.
  - by apply (bool_decide_unpack _); vm_compute.
  - constructor; [|constructor; [|constructor]]; (split; [split; [apply two_entries_replica|done|done]|by vm_compute]).
  - intros j. constructor.
  - repeat constructor.
Defined.

(** ** Client ids *)

Lemma make_client_id_eq g a :
  0 ≤ a → 0 ≤ g < 64 → make_client_id g a = g + 64 * (a mod 2 ^ 26).
Proof.
  intros Ha Hg. unfold make_client_id. pose proof (Z.mod_pos_bound a (2 ^ 26) ltac:(lia)).
  assert (u32 (Z.shiftl a 6) = 64 * (a mod 2 ^ 26)) as ->.
  { unfold u32. rewrite Z.shiftl_mul_pow2 by lia. change (2 ^ 32) with (2 ^ 26 * 2 ^ 6).
    rewrite Z.mul_mod_distr_r by lia. lia. }
  apply u64_small. lia.
Qed.

(** C32. Two clients, numbered below 64 on their hosts, have the same id exactly when their
    numbers are equal and their IPv4 addresses agree in the lower 26 bits.  On one host,
    or in one network of at least six bits, ids are unique; the shift in 32 bits drops
    the upper six bits, so that hosts of different networks may share them. *)
Theorem client_ids_unique g1 a1 g2 a2 :
  0 ≤ g1 < 64 → 0 ≤ g2 < 64 → 0 ≤ a1 < 2 ^ 32 → 0 ≤ a2 < 2 ^ 32 →
  make_client_id g1 a1 = make_client_id g2 a2 ↔ g1 = g2 ∧ a1 mod 2 ^ 26 = a2 mod 2 ^ 26.
Proof. intros. rewrite !make_client_id_eq by lia. lia. Qed.

(** 10.0.0.1 and 14.0.0.1. *)
Lemma client_ids_unique_witness : make_client_id 1 167772161 = make_client_id 1 234881025.
Proof. by apply (client_ids_unique 1 167772161 1 234881025). Defined.
