(* ===== verification/ClientQuorum.v ===== *)
(** Appending to a quorum: when [AppendEntryQuorum] returns, the entry is in the log of
    the primary and of as many replicas as the quorum has. *)

From stdpp Require Import strings.
From S2P Require Import Prelude Props Sequencer LogEntry DurLogFlat FlatRing FlatGC DlTransport.
From S2P Require Import FlatCli Replica Links ShardServer NaiveBackend StorageLog Client ClientAppend.

Local Open Scope Z_scope.

(** No request is under way. *)
Definition answered (l : CliLink) : bool := match k_flight l with None => true | Some _ => false end.

(** The connection to the primary. *)
Definition to_primary (dl : string * CliLink) : bool := IsPrimary (k_cli dl.2).

(** How many replicas have answered. *)
Definition n_answered (ls : CliLinks) : Z := lenZ (List.filter (λ dl, answered dl.2) ls).

Lemma filter_split {A} (a p : A → bool) (xs : list A) :
  length (List.filter a xs) =
    (length (List.filter a (List.filter p xs)) + length (List.filter a (List.filter (λ x, negb (p x)) xs)))%nat.
Proof. induction xs as [|x xs IH]; simpl; [done|]. destruct (p x) eqn:Hp, (a x) eqn:Ha; simpl; rewrite ?Ha; simpl; lia. Qed.

Section Quorum.
Context `{Erpc} (M : Z) (clients : list Z) (HM : M ≤ SAFE_RG_SIZE + 4).
Context (e : LogEntry) (token : nat) (He : request_ok M e) (pri : string).

(** The request, as in [AppendEntryAll], and its place in the connection's queue; [pri]
    is the primary. *)
Definition queued (m n : nat) (d : string) (l : CliLink) (g : Ghost) : Prop :=
  sent M e token m n d l g ∧ IsPrimary (k_cli l) = streq d pri ∧
  pending_reqs_ (k_cli l) = if answered l then [] else [token].

Lemma queued_append_inv m : append_inv M clients (queued m).
Proof.
  destruct (sent_append_inv M clients e token He m) as [H1 H2 H3 H4 H5]. split.
  - intros n d l g [Hs _]. by eapply H1.
  - intros n d l g [Hs _]. by eapply H2.
  - intros n d l g [Hs _]. by eapply H3.
  - intros n d l g (Hs & Hi & Hp). split; [by eapply H4|done].
  - intros n d l st hist k e' (Hs & Hi & Hp) Hcfg Hr Hcl. split; [by eapply H5|done].
Qed.

Lemma sent_complete m n d l g : sent M e token m n d l g → token_complete l token = answered l.
Proof.
  intros [_ Hs]. unfold token_complete, answered. destruct (k_flight l) as [[[delay bs] t]|].
  - by destruct Hs as (_ & _ & _ & -> & _).
  - by destruct Hs as (-> & _).
Qed.

Lemma k_advance_queue l l' :
  k_advance l = Ok l' → pending_reqs_ (k_cli l') = pending_reqs_ (k_cli l) ∧ IsPrimary (k_cli l') = IsPrimary (k_cli l).
Proof.
  unfold k_advance. destruct (k_flight l) as [[[[|delay] bs] t]|]; [|by intros [= <-]..].
  destruct (dl_handle _ _ _ _) as [[st rs]| |]; [|by intros [= <-]|done]. by intros [= <-].
Qed.

(** One turn on one connection. *)
Lemma CheckPendingReq_ok m n d l g :
  queued (S m) n d l g →
  ∃ l' g', k_CheckPendingReq l = Ok l' ∧ queued m n d l' g' ∧ grown g g'.
Proof.
  intros (Hs & Hi & Hp). unfold k_CheckPendingReq. rewrite Hp.
  destruct (k_advance_ok M HM e token He m n d l g Hs) as (l1 & g1 & Ha & Hs1 & Hg).
  destruct (answered l) eqn:Hans.
  { exists l, g. split; [done|]. split; [|done]. split; [|by rewrite Hans].
    destruct Hs as [Hc Hs]. split; [done|]. unfold answered in Hans. by destruct (k_flight l). }
  rewrite Ha. cbn [mbind outcome_bind]. destruct (k_advance_queue _ _ Ha) as [Hp1 Hi1]. rewrite Hp1, Hp.
  rewrite (sent_complete _ _ _ _ _ Hs1). eexists _, g1. split; [done|]. split; [|done].
  destruct Hs1 as [Hc1 Hs1]. split; [|split].
  - split; [by destruct Hc1, (answered l1)|]. simpl. by destruct (answered l1).
  - rewrite <- Hi, <- Hi1. simpl. by destruct (answered l1).
  - unfold answered at 2. simpl. fold (answered l1). destruct (answered l1); [done|]. by rewrite Hp1.
Qed.

Lemma check_all_ok m n ls gs :
  Forall2 (λ dl g, queued (S m) n dl.1 dl.2 g) ls gs →
  ∃ ls' gs', check_all ls = Ok ls' ∧ Forall2 (λ dl g, queued m n dl.1 dl.2 g) ls' gs' ∧ ls'.*1 = ls.*1 ∧
    Forall2 grown gs gs'.
Proof.
  induction 1 as [|[d l] g ls gs Hl _ IH]; cbn [check_all]; [by exists [], []|].
  destruct (CheckPendingReq_ok m n d l g Hl) as (l' & g' & -> & Hl' & Hg).
  destruct IH as (ls' & gs' & -> & Hls' & Hk & Hgs). cbn [mbind outcome_bind].
  exists ((d, l') :: ls'), (g' :: gs'). split; [done|]. split; [by constructor|].
  split; [by rewrite !fmap_cons, Hk|]. by constructor.
Qed.

(** *** The condition of the loop *)

Lemma tokens_answered m n ls gs (f : string * CliLink → bool) :
  Forall2 (λ dl g, queued m n dl.1 dl.2 g) ls gs →
  tokens_of (List.filter f ls) token = (λ dl, answered dl.2) <$> List.filter f ls.
Proof.
  induction 1 as [|[d l] g ls gs [Hs _] _ IH]; simpl; [done|]. simpl in Hs. destruct (f (d, l)); [|done].
  unfold tokens_of in *. rewrite !fmap_cons, IH. f_equal. by eapply sent_complete.
Qed.

Lemma filter_fmap_length {A} (f : A → bool) (xs : list A) :
  length (List.filter RPCToken.Complete (f <$> xs)) = length (List.filter f xs).
Proof.
  induction xs as [|x xs IH]; [done|]. rewrite fmap_cons. cbn [List.filter].
  change (RPCToken.Complete (f x)) with (f x). destruct (f x); cbn [length]; by rewrite IH.
Qed.

(** There is one primary. *)
Definition one_primary (ls : CliLinks) : Prop := length (List.filter to_primary ls) = 1%nat.

Lemma one_primary_keys m n ls gs :
  Forall2 (λ dl g, queued m n dl.1 dl.2 g) ls gs → NoDup ls.*1 → pri ∈ ls.*1 → one_primary ls.
Proof.
  unfold one_primary. induction 1 as [|[d l] g ls gs (_ & Hi & _) Hls IH]; [by intros _ ?%not_elem_of_nil|].
  rewrite fmap_cons, NoDup_cons, elem_of_cons. cbn [fst List.filter]. intros [Hd Hnd] Hin. simpl in Hi.
  unfold to_primary at 1. cbn [snd]. rewrite Hi. destruct (streq_spec d pri) as [->|Hne]; [|apply IH; naive_solver].
  cbn [length]. f_equal. clear IH Hi Hin Hnd. induction Hls as [|[d' l'] g' ls gs' (_ & Hi' & _) _ IH]; [done|].
  rewrite fmap_cons, not_elem_of_cons in Hd. cbn [List.filter]. unfold to_primary at 1. cbn [snd]. simpl in Hi'. rewrite Hi'.
  destruct Hd as [Hd Hds]. destruct (streq_spec d' pri) as [->|_]; [done|]. by apply IH.
Qed.

Lemma quorum_answered m n maj ls gs :
  Forall2 (λ dl g, queued m n dl.1 dl.2 g) ls gs → one_primary ls →
  ∃ pri, pri_token_of ls token = Some pri ∧
    (quorumCompleted maj pri (backup_tokens_of ls token) = true ↔
     Forall (λ dl, to_primary dl = true → answered dl.2 = true) ls ∧ maj ≤ n_answered ls).
Proof.
  intros Hls H1. unfold pri_token_of, backup_tokens_of. fold to_primary.
  change (λ dl : string * CliLink, negb (IsPrimary (k_cli dl.2))) with (λ dl, negb (to_primary dl)).
  rewrite !(tokens_answered _ _ _ _ _ Hls). unfold one_primary in H1.
  destruct (List.filter to_primary ls) as [|[d l] [|]] eqn:Hf; try done. exists (answered l). split; [done|].
  assert (Forall (λ dl, to_primary dl = true → answered dl.2 = true) ls ↔ answered l = true) as ->.
  { rewrite Forall_forall. split.
    - intros Hall. apply (Hall (d, l)); [|].
      + apply list_elem_of_In. eapply (proj1 (List.filter_In to_primary (d, l) ls)). rewrite Hf. by left.
      + eapply (proj1 (List.filter_In to_primary (d, l) ls)). rewrite Hf. by left.
    - intros Ha dl Hin Hp. assert (In dl (List.filter to_primary ls)) as Hin'.
      { apply List.filter_In. split; [by apply list_elem_of_In|done]. }
      rewrite Hf in Hin'. destruct Hin' as [<-|[]]. done. }
  unfold quorumCompleted, RPCToken.Complete at 1, n_answered.
  rewrite (filter_split (λ dl, answered dl.2) to_primary ls), Hf, filter_fmap_length. simpl.
  destruct (answered l); simpl; [|naive_solver]. rewrite Z.leb_le. split; [intros; split; [done|lia]|intros [_ ?]; lia].
Qed.

Lemma all_answered n ls gs :
  Forall2 (λ dl g, queued 0 n dl.1 dl.2 g) ls gs →
  Forall (λ dl, to_primary dl = true → answered dl.2 = true) ls ∧ n_answered ls = lenZ ls.
Proof.
  induction 1 as [|[d l] g ls gs [[_ Hs] _] _ [IH1 IH2]]; [done|]. simpl in Hs.
  assert (answered l = true) as Ha.
  { unfold answered. destruct (k_flight l) as [[[delay bs] t]|]; [|done]. destruct Hs as (_ & ? & _). lia. }
  split; [by constructor|]. unfold n_answered in *. simpl. rewrite Ha. simpl. lia.
Qed.

(** *** The loop *)

Lemma wait_quorum_ok sched maj fuel i ls gs :
  (∀ j, Forall (λ r, message_ok M clients r.2) (sched j)) → NoDup ls.*1 → pri ∈ ls.*1 → maj ≤ lenZ ls →
  Forall2 (λ dl g, queued (S fuel) (arrivals sched i (S fuel)) dl.1 dl.2 g) ls gs →
  ∃ ls' gs' m n, wait_quorum fuel i token maj sched ls = Ok ls' ∧
    Forall2 (λ dl g, queued m n dl.1 dl.2 g) ls' gs' ∧
    Forall (λ dl, to_primary dl = true → answered dl.2 = true) ls' ∧ maj ≤ n_answered ls' ∧
    ls'.*1 = ls.*1 ∧ Forall2 grown gs gs'.
Proof.
  intros Hmsg. revert i ls gs. induction fuel as [|fuel IH]; intros i ls gs Hnd Hin Hmaj Hls;
    destruct (serve_ok M clients HM _ (queued_append_inv _) _ (sched i) ls gs Hls (Hmsg i))
      as (ls1 & gs1 & Hs & Hls1 & Hk1 & Hg1%grown_by_grown);
    destruct (check_all_ok _ _ ls1 gs1 Hls1) as (ls2 & gs2 & Hc & Hls2 & Hk2 & Hg2);
    rewrite Hk1 in Hk2; rewrite <- Hk2 in Hnd, Hin;
    assert (lenZ ls2 = lenZ ls) as Hlen by (rewrite <- !(length_fmap fst); by rewrite Hk2);
    destruct (quorum_answered _ _ maj ls2 gs2 Hls2 (one_primary_keys _ _ _ _ Hls2 Hnd Hin)) as (tk & Htk & Hq);
    cbn [wait_quorum]; rewrite Hs; cbn [mbind outcome_bind]; rewrite Hc; cbn [mbind outcome_bind];
    rewrite Htk; cbn [lift mbind outcome_bind];
    assert (Forall2 grown gs gs2) as Hg by (by transitivity gs1);
    (destruct (quorumCompleted maj tk (backup_tokens_of ls2 token));
      [destruct (proj1 Hq eq_refl) as [Hp Hn]; by eexists ls2, gs2, _, _|]).
  - destruct (all_answered _ _ _ Hls2) as [Hp Hn]. assert (false = true); [|done]. apply Hq. split; [done|lia].
  - destruct (IH (S i) ls2 gs2 Hnd Hin ltac:(lia) Hls2) as (ls3 & gs3 & m & n & -> & Hls3 & Hp & Hn & Hk3 & Hg3).
    exists ls3, gs3, m, n. split_and!; try done; [congruence|by transitivity gs2].
Qed.

Lemma send_quorum_ok delay fuel n ls gs :
  Forall2 (λ dl g, conn_inv M dl.2 g ∧ has_room M (S n) dl.2 g ∧ pending_reqs_ (k_cli dl.2) = [] ∧
    IsPrimary (k_cli dl.2) = streq dl.1 pri) ls gs →
  Forall (λ d, delay d ≤ fuel)%nat ls.*1 →
  ∃ ls', send_quorum delay ls e token = Some ls' ∧ Forall2 (λ dl g, queued (S fuel) n dl.1 dl.2 g) ls' gs ∧
    ls'.*1 = ls.*1.
Proof.
  induction 1 as [|[d l] g ls gs (Hc & Hroom & Hp & Hi) _ IH]; intros Hd; cbn [send_quorum]; [by exists []|].
  apply Forall_cons in Hd as [Hd Hds]. simpl in Hc, Hroom, Hd, Hp, Hi. destruct (IH Hds) as (ls' & Hsend & Hls' & Hk).
  destruct (AppendEntryAsync_ok M e token He (delay d) fuel n d l g Hc Hroom Hd) as (l' & -> & Hl' & Hf & Hp' & Hi').
  simpl. rewrite Hsend. simpl. eexists. split; [done|]. split; [|by rewrite !fmap_cons, Hk]. constructor; [|done].
  split; [|split; [simpl; by rewrite <- Hi, <- Hi'|]].
  - destruct Hl' as [Hc' Hl']. split; [by destruct Hc'|done].
  - simpl. rewrite Hp', Hp. unfold answered. simpl. by destruct (k_flight l').
Qed.
End Quorum.

(** C10. Appends to a quorum are durable.  On connections without earlier requests, one of
    them to the primary, and with room on the replicas, [AppendEntryQuorum] returns,
    however long each replica takes, once it has polled longer than that.  The entry is
    then in the log of every replica that has answered; the primary is one of them, and
    they are at least [maj_threshold_].  ([Initialize] makes that all replicas.) *)
Theorem AppendEntryQuorum_durable `{Posix, Erpc} M clients pri fuel delay sched token c d gs :
  M ≤ SAFE_RG_SIZE + 4 → request_ok M (client_entry c d) →
  NoDup (dur_clis_ c).*1 → pri ∈ (dur_clis_ c).*1 → maj_threshold_ c ≤ lenZ (dur_clis_ c) →
  Forall2 (λ dl g, conn_inv M dl.2 g ∧ has_room M (S (arrivals sched 0 (S fuel))) dl.2 g ∧
    pending_reqs_ (k_cli dl.2) = [] ∧ IsPrimary (k_cli dl.2) = streq dl.1 pri) (dur_clis_ c) gs →
  (∀ j, Forall (λ r, message_ok M clients r.2) (sched j)) →
  Forall (λ s, delay s ≤ fuel)%nat (dur_clis_ c).*1 →
  ∃ c' gs', AppendEntryQuorum fuel delay sched token c d = Ok (c', (client_id_ c, seq_ c)) ∧
    Forall2 (λ dl g, conn_inv M dl.2 g ∧ (answered dl.2 = true → logged (client_entry c d) g) ∧
      (dl.1 = pri → answered dl.2 = true)) (dur_clis_ c') gs' ∧
    maj_threshold_ c ≤ n_answered (dur_clis_ c') ∧
    (dur_clis_ c').*1 = (dur_clis_ c).*1 ∧ Forall2 grown gs gs' ∧ seq_ c' = u64 (seq_ c + 1).
Proof.
  intros HM He Hnd Hin Hmaj Hls Hmsg Hdelay. pose proof He as [Hv Hsm].
  assert (lenZ d < 2 ^ 32) as Hd32.
  { pose proof (entry_size_bounds (client_entry c d)).
    unfold SAFE_RG_SIZE, PAGE_SIZE, MetaDataSize, FlagPos in *. simpl data in *. lia. }
  unfold AppendEntryQuorum. rewrite constructLogEntry_ok by done. cbn [dur_clis_ with_seq maj_threshold_].
  destruct (send_quorum_ok M (client_entry c d) token He pri delay fuel _ _ gs Hls Hdelay) as (ls1 & -> & Hls1 & Hk1).
  cbn [lift mbind outcome_bind]. rewrite <- Hk1 in Hnd, Hin.
  assert (lenZ ls1 = lenZ (dur_clis_ c)) as Hlen by (rewrite <- !(length_fmap fst); by rewrite Hk1).
  destruct (wait_quorum_ok M clients HM (client_entry c d) token He pri sched (maj_threshold_ c) fuel 0 ls1 gs
    Hmsg Hnd Hin ltac:(lia) Hls1) as (ls2 & gs2 & m & n & -> & Hls2 & Hp & Hn & Hk2 & Hg).
  cbn [mbind outcome_bind]. eexists _, gs2. split; [done|]. split; [|split; [done|split; [simpl; congruence|done]]].
  simpl. apply Forall2_same_length_lookup. split; [by eapply Forall2_length|]. intros i [s l] g Hi Hgi.
  destruct (Forall2_lookup_lr _ _ _ _ _ _ Hls2 Hi Hgi) as ([Hc Hs] & Hrole & _).
  pose proof (Forall_lookup_1 _ _ _ _ Hp Hi) as Hpi. unfold to_primary in Hpi. simpl in *.
  split; [done|]. split.
  - unfold answered. destruct (k_flight l); [done|]. intros _. apply Hs.
  - intros ->. apply Hpi. by rewrite Hrole, streq_refl.
Qed.

(** A primary and a backup, and a quorum of one: the backup takes longer and may still be
    working. *)
Definition quorum_client : LazyLogClient :=
  mkClient [("a"%string, mkCliLink (mkCli true (Buf 8192 ∅) [] false false [] ∅) two_entries test_resp None);
            ("b"%string, mkCliLink test_cli two_entries test_resp None)] "a" two_shards 44 5 1.

Lemma AppendEntryQuorum_durable_witness :
  ∃ c' gs', AppendEntryQuorum 3 (λ s, if streq s "a" then 1%nat else 3%nat) (λ _, []) 0 quorum_client
      [Byte.x41; Byte.x42; Byte.x43] = Ok (c', (44, 5)) ∧
    Forall2 (λ dl g, conn_inv 1000 dl.2 g ∧
      (answered dl.2 = true → logged (mkEntry 44 5 0 3 1 0 [Byte.x41; Byte.x42; Byte.x43]) g) ∧
      (dl.1 = "a"%string → answered dl.2 = true)) (dur_clis_ c') gs' ∧
    1 ≤ n_answered (dur_clis_ c') ∧
    (dur_clis_ c').*1 = ["a"; "b"]%string ∧ Forall2 grown [(two_hist, 0%nat); (two_hist, 0%nat)] gs' ∧ seq_ c' = 6.
Proof.
  apply (AppendEntryQuorum_durable 1000 [42; 43] "a" 3 (λ s, if streq s "a" then 1%nat else 3%nat) (λ _, []) 0
    quorum_client [Byte.x41; Byte.x42; Byte.x43] [(two_hist, 0%nat); (two_hist, 0%nat)]).
  - done.
  - by apply (bool_decide_unpack _); vm_compute.
  - apply NoDup_cons. split; [set_solver|]. apply NoDup_singleton.
  - set_solver.
  - by vm_compute.
  - constructor; [|constructor; [|constructor]];
      (split; [split; [apply two_entries_replica|done|done]|]; split; [by vm_compute|done]).
  - intros j. constructor.
  - repeat constructor.
Defined.
