(* ===== verification/RateLimit.v ===== *)
(** The token bucket that paces a client: [src/utils/ratelimit.h].

    Times are nanoseconds of the steady clock; arithmetic is on [int64_t], where an
    overflow is undefined, and division truncates. *)

From S2P Require Import Prelude.

Local Open Scope Z_scope.

(** A result that must fit. *)
Definition i64 (z : Z) : option Z := if (- 2 ^ 63 <=? z) && (z <? 2 ^ 63) then Some z else None.

Definition TOKEN_PRECISION : Z := 10000.

Record RateLimiter : Type := mkRL { r_ : Z; b_ : Z; tokens_ : Z; last_ : Z }.

Definition RateLimiter_init (now r b : Z) : option RateLimiter :=
  r ← i64 (r * TOKEN_PRECISION);
  b ← i64 (b * TOKEN_PRECISION);
  Some (mkRL r b 0 now).

(** [-tokens_ * 1000000000 / r_].  It is computed after the lock was released, from the
    members as they are then. *)
Definition wait_time (rl : RateLimiter) : option Z :=
  if r_ rl =? 0 then None else
  w ← i64 (- tokens_ rl * 1000000000);
  Some (Z.quot w (r_ rl)).

(** The result is the time to sleep, if no other thread uses the bucket between the critical
    section and the computation of this time. *)
Definition Consume (now n : Z) (rl : RateLimiter) : option (RateLimiter * Z) :=
  if r_ rl <=? 0 then Some (rl, 0) else
  let diff := now - last_ rl in
  x ← i64 (diff * r_ rl);
  t ← i64 (tokens_ rl + Z.quot x 1000000000);
  let tokens := Z.min (b_ rl) t in
  x ← i64 (n * TOKEN_PRECISION);
  tokens ← i64 (tokens - x);
  let rl := mkRL (r_ rl) (b_ rl) tokens now in
  if tokens <? 0 then w ← wait_time rl; Some (rl, w) else Some (rl, 0).

Definition SetRate (now r : Z) (rl : RateLimiter) : option RateLimiter :=
  let diff := now - last_ rl in
  x ← i64 (diff * r_ rl);
  x ← i64 (x * TOKEN_PRECISION);
  t ← i64 (tokens_ rl + Z.quot x 1000000000);
  r ← i64 (r * TOKEN_PRECISION);
  Some (mkRL r (b_ rl) (Z.min (b_ rl) t) now).

(** Calls of [Consume] in the order of their critical sections; the result is the time at
    which the last of them has returned.  For the last one no other call can come between
    the critical section and the computation of the wait; the waits of the others do not
    enter the result. *)
Fixpoint consume_all (calls : list (Z * Z)) (rl : RateLimiter) (done : Z) : option (RateLimiter * Z) :=
  match calls with
  | [] => Some (rl, done)
  | (now, n) :: calls => '(rl, wait) ← Consume now n rl; consume_all calls rl (now + wait)
  end.

(** ** Calls in order, of bounded amounts *)

Fixpoint paced (calls : list (Z * Z)) (last : Z) : Prop :=
  match calls with
  | [] => True
  | (now, n) :: calls => last ≤ now ∧ 0 ≤ n ∧ paced calls now
  end.

Fixpoint consumed (calls : list (Z * Z)) : Z :=
  match calls with [] => 0 | (_, n) :: calls => n + consumed calls end.
Fixpoint end_time (calls : list (Z * Z)) (last : Z) : Z :=
  match calls with [] => last | (now, _) :: calls => end_time calls now end.

(** A bucket that can be used until [until] for [n] tokens without an overflow. *)
Record in_range (rl : RateLimiter) (until n : Z) : Prop := {
  ir_rate : 0 < r_ rl;
  ir_tokens : tokens_ rl ≤ b_ rl < 2 ^ 62;
  ir_time : r_ rl * (until - last_ rl) < 2 ^ 62;
  ir_need : (TOKEN_PRECISION * n - tokens_ rl) * 1000000000 < 2 ^ 63
}.

Lemma i64_ok z : - 2 ^ 63 ≤ z < 2 ^ 63 → i64 z = Some z.
Proof. intros Hz. unfold i64. zb. Qed.

Lemma paced_facts calls last : paced calls last → last ≤ end_time calls last ∧ 0 ≤ consumed calls.
Proof.
  revert last. induction calls as [|[now n] calls IH]; intros last; simpl; [lia|].
  intros (Hl & Hn & Hp). destruct (IH now Hp). lia.
Qed.

(** One call: the tokens it takes come out of the refill or out of the sleep. *)
Lemma Consume_ok now n rl until m :
  in_range rl until (n + m) → last_ rl ≤ now ≤ until → 0 ≤ n → 0 ≤ m →
  ∃ rl' wait, Consume now n rl = Some (rl', wait) ∧ in_range rl' until m ∧ r_ rl' = r_ rl ∧ last_ rl' = now ∧
    1000000000 * (tokens_ rl' + TOKEN_PRECISION * n) ≤ 1000000000 * tokens_ rl + r_ rl * (now - last_ rl) ∧
    - tokens_ rl' * 1000000000 ≤ r_ rl * (wait + 1).
Proof.
  intros [Hr [Ht Hb] Htime Hneed] Hnow Hn Hm. unfold Consume. rewrite (proj2 (Z.leb_gt _ _)) by lia.
  unfold TOKEN_PRECISION in *. set (diff := now - last_ rl) in *.
  assert (0 ≤ r_ rl * diff ≤ r_ rl * (until - last_ rl)) as Hd by nia.
  replace (diff * r_ rl) with (r_ rl * diff) by lia.
  rewrite (i64_ok (r_ rl * diff)), (i64_ok (n * 10000)) by lia. cbn [mbind option_bind].
  rewrite Z.quot_div_nonneg by lia. set (x := r_ rl * diff / 1000000000).
  pose proof (Z.mul_div_le (r_ rl * diff) 1000000000 ltac:(lia)) as Hx. fold x in Hx.
  assert (0 ≤ x) by (apply Z.div_pos; lia).
  rewrite (i64_ok (tokens_ rl + x)) by lia. cbn [mbind option_bind].
  rewrite (i64_ok (Z.min _ _ - _)) by lia. cbn [mbind option_bind].
  set (t := Z.min (b_ rl) (tokens_ rl + x) - n * 10000).
  assert (tokens_ rl - n * 10000 ≤ t ≤ tokens_ rl + x - n * 10000 ∧ t ≤ b_ rl) as Htk by (unfold t; lia).
  assert (in_range (mkRL (r_ rl) (b_ rl) t now) until m) as Hir.
  { split; simpl; unfold TOKEN_PRECISION; [lia|lia|nia|lia]. }
  destruct (Z.ltb_spec t 0) as [Hneg|Hpos].
  - unfold wait_time. cbn [r_ tokens_]. rewrite (proj2 (Z.eqb_neq _ _)), i64_ok by lia. cbn [mbind option_bind].
    rewrite Z.quot_div_nonneg by lia.
    eexists _, _. split; [done|]. split; [done|]. split; [done|]. split; [done|]. simpl. split; [lia|].
    pose proof (Z.mul_succ_div_gt (- t * 1000000000) (r_ rl) ltac:(lia)). lia.
  - eexists _, _. split; [done|]. split; [done|]. split; [done|]. split; [done|]. simpl. split; [lia|nia].
Qed.

Lemma consume_all_ok calls rl done :
  paced calls (last_ rl) → in_range rl (end_time calls (last_ rl)) (consumed calls) →
  ∃ rl' fin, consume_all calls rl done = Some (rl', fin) ∧
    1000000000 * (tokens_ rl' + TOKEN_PRECISION * consumed calls)
      ≤ 1000000000 * tokens_ rl + r_ rl * (end_time calls (last_ rl) - last_ rl) ∧
    (calls ≠ [] → - tokens_ rl' * 1000000000 ≤ r_ rl * (fin - end_time calls (last_ rl) + 1)).
Proof.
  revert rl done. induction calls as [|[now n] calls IH]; intros rl done; simpl.
  { intros _ _. exists rl, done. split; [done|]. split; [lia|done]. }
  intros (Hl & Hn & Hp) Hir. destruct (paced_facts _ _ Hp) as [Hend Hc].
  destruct (Consume_ok now n rl (end_time calls now) (consumed calls) Hir ltac:(lia) Hn Hc)
    as (rl1 & wait & -> & Hir1 & Hr1 & Hl1 & Hacc & Hw). simpl. rewrite <- Hl1 in Hp.
  destruct (IH rl1 (now + wait)) as (rl' & fin & Hall & Hacc' & Hw'); [done|by rewrite Hl1|].
  exists rl', fin. rewrite Hl1, Hr1 in *. split; [done|]. split; [nia|]. intros _.
  destruct calls as [|c calls]; [|by apply Hw']. simpl in *. injection Hall as <- <-. nia.
Qed.

(** C29. The rate is kept.  From a fresh bucket, any sequence of [Consume] calls, from any
    thread and at any times, has used no more tokens by the time the last of them
    returns than the rate gives for the time since the bucket was made (and one
    nanosecond, for rounding): the sleep makes up for what the bucket lacked. *)
Theorem consume_rate calls r b now rl :
  RateLimiter_init now r b = Some rl → calls ≠ [] → paced calls now →
  in_range rl (end_time calls now) (consumed calls) →
  ∃ rl' fin, consume_all calls rl now = Some (rl', fin) ∧ consumed calls * 1000000000 ≤ r * (fin - now + 1).
Proof.
  intros Hinit Hne Hp Hir. unfold RateLimiter_init in Hinit.
  destruct (i64 (r * TOKEN_PRECISION)) as [r'|] eqn:Er; [|done].
  destruct (i64 (b * TOKEN_PRECISION)) as [b'|] eqn:Eb; [|done]. simpl in Hinit. injection Hinit as <-.
  unfold i64 in Er, Eb. destruct (_ && _) in Er; [|done]. destruct (_ && _) in Eb; [|done]. simplify_eq.
  destruct (consume_all_ok calls (mkRL (r * TOKEN_PRECISION) (b * TOKEN_PRECISION) 0 now) now Hp Hir) as (rl' & fin & Hall & Hacc & Hw). specialize (Hw Hne).
  simpl in *. exists rl', fin. split; [done|]. unfold TOKEN_PRECISION in *. nia.
Qed.

Lemma consume_rate_witness :
  ∃ rl' fin, consume_all [(1000, 5); (2000, 7)] (mkRL 1000000 100000 0 0) 0 = Some (rl', fin) ∧
    12 * 1000000000 ≤ 100 * (fin - 0 + 1).
Proof.
  apply (consume_rate [(1000, 5); (2000, 7)] 100 10 0 (mkRL 1000000 100000 0 0)).
  - done.
  - done.
  - by vm_compute.
  - split; by vm_compute.
Defined.

(** [SetRate] refills the bucket with [TOKEN_PRECISION] times what [Consume] would:
    [r_] already contains the factor.  At one token per second, a millisecond gives a
    thousandth of a token (10 units) by [Consume] and ten tokens by [SetRate]. *)
Theorem SetRate_overfills :
  let rl := mkRL 10000 1000000 0 0 in
  RateLimiter_init 0 1 100 = Some rl ∧
  (tokens_ ∘ fst <$> Consume 1000000 0 rl) = Some 10 ∧ (tokens_ <$> SetRate 1000000 1 rl) = Some 100000.
Proof. by vm_compute. Qed.
