(* ===== verification/DurLogBase.v ===== *)
(** The base class of the durability log, which keeps its entries in a hash map, and the
    mock of it: [src/dur_log/dur_log.cc], [src/dur_log/dur_log_mock.cc].

    The servers use the class of [DurLogFlat], which overrides most of it. *)

From S2P Require Import Prelude Props Sequencer LogEntry DurLogFlat FlatGC.

Local Open Scope Z_scope.

Module DurabilityLog.

(** The watermark is the sequence number of the last ordered entry, at first
    [UINT64_MAX].  [pending_entries_ptr_] and [dur_log_] share entries that nobody
    changes. *)
Record t : Type := mk {
  view : Z;
  is_primary : bool;
  sequencer : Sequencer.t;
  ordered_watermk : Z;
  dur_log : gmap Z LogEntry;
  reqid_to_seq_map : gmap ReqID Z;
  pending_entries_ptr : list LogEntry;
  gsn : Z
}.

Definition with_log (st : t) (m : gmap Z LogEntry) (r : gmap ReqID Z) : t :=
  mk (view st) (is_primary st) (sequencer st) (ordered_watermk st) m r (pending_entries_ptr st) (gsn st).
Definition with_seq (st : t) (s : Sequencer.t) : t :=
  mk (view st) (is_primary st) s (ordered_watermk st) (dur_log st) (reqid_to_seq_map st)
    (pending_entries_ptr st) (gsn st).
Definition with_watermk (st : t) (w : Z) : t :=
  mk (view st) (is_primary st) (sequencer st) w (dur_log st) (reqid_to_seq_map st)
    (pending_entries_ptr st) (gsn st).
Definition with_pending (st : t) (es : list LogEntry) : t :=
  mk (view st) (is_primary st) (sequencer st) (ordered_watermk st) (dur_log st) (reqid_to_seq_map st) es (gsn st).
Definition with_gsn (st : t) (z : Z) : t :=
  mk (view st) (is_primary st) (sequencer st) (ordered_watermk st) (dur_log st) (reqid_to_seq_map st)
    (pending_entries_ptr st) z.

Definition init : t := mk 0 false Sequencer.init (u64 (-1)) ∅ ∅ [] 0.

Definition Initialize (p : Properties) (st : t) : t :=
  let st := with_seq st (Sequencer.Reset (sequencer st)) in
  if negb (streq (GetProperty p "leader" "false") "true") then st
  else mk (view st) true (sequencer st) (ordered_watermk st) (dur_log st) (reqid_to_seq_map st)
         (pending_entries_ptr st) (gsn st).

Definition AppendEntry (st : t) (e : LogEntry) : t * LogEntry * Z :=
  let '(seq, q) := Sequencer.GetNextSeq (sequencer st) in
  let e := set_log_idx e seq in
  let st := with_log (with_seq st q) (<[seq := e]> (dur_log st))
              (<[(client_id e, client_seq e) := seq]> (reqid_to_seq_map st)) in
  (st, e, seq).

Definition OrderEntry (st : t) (e : LogEntry) : Z := 0.
Definition GetNumDurEntry (st : t) : Z := u64 (Sequencer.GetCurSeq (sequencer st) - 1).
Definition GetNumOrderedEntry (st : t) : Z := ordered_watermk st.

(** The loop; [dur_log_.at] throws for a missing entry. *)
Fixpoint fetch_from (fuel : nat) (st : t) (i : Z) (es : list LogEntry) (n max : Z) : option (list LogEntry) :=
  if i <=? Sequencer.GetCurSeq (sequencer st) then
    match fuel with
    | O => None
    | S fuel =>
        e ← dur_log st !! i;
        let es := es ++ [e] in
        let n := u64 (n + 1) in
        if max <=? n then Some es else fetch_from fuel st (u64 (i + 1)) es n max
    end
  else Some es.

(** The counter of the loop hides the variable that is returned: the result is the
    indeterminate value [junk]. *)
Definition FetchUnorderedEntries (junk : Z) (st : t) (es : list LogEntry) (max_entries_num : Z)
    : option (list LogEntry * Z) :=
  es ← fetch_from (S (Z.to_nat max_entries_num)) st (ordered_watermk st) es 0 max_entries_num;
  Some (es, junk).

Definition SpecReadEntry (st : t) (idx : Z) (e : LogEntry) : Z := 0.

Definition GetGSN (st : t) (batchSize : Z) : t * Z := (with_gsn st (u64 (gsn st + batchSize)), gsn st).

(** ** DelOrderedEntries *)

Definition max_seq_of (ids : list ReqID) (reqs : gmap ReqID Z) : gmap ReqID Z * Z :=
  foldl (λ '(reqs, mx) rid, let '(seq, reqs) := at_or_insert reqs rid in (reqs, Z.max mx seq)) (reqs, 0) ids.

(** [for (s = *ordered_watermk_ + 1; s <= max_seq; s++)].  It would not end for the greatest
    64-bit number, which is no position of an entry. *)
Definition seqs (st : t) (max_seq : Z) : list Z :=
  seqZ (u64 (ordered_watermk st + 1)) (max_seq - u64 (ordered_watermk st + 1) + 1).

Definition erase_primary (acc : t * Z) (s : Z) : t * Z :=
  let '(st, n_del) := acc in
  match dur_log st !! s with
  | None => (st, n_del)
  | Some e => (with_log st (delete s (dur_log st)) (delete (client_id e, client_seq e) (reqid_to_seq_map st)),
               u32 (n_del + 1))
  end.

(** [n_del] starts with the indeterminate value [junk]. *)
Definition delEntriesPrimary (junk : Z) (st : t) (max_seq_req_ids : list ReqID) : t * Z :=
  let '(reqs, max_seq) := max_seq_of max_seq_req_ids (reqid_to_seq_map st) in
  let st := with_log st (dur_log st) reqs in
  let '(st, n_del) := foldl erase_primary (st, junk) (seqs st max_seq) in
  (with_watermk st max_seq, n_del).

Definition erase_backup (climap : gmap Z Z) (acc : t * Z) (s : Z) : t * Z :=
  let '(st, n_del) := acc in
  match dur_log st !! s with
  | None => (st, n_del)
  | Some e =>
      let '(st, n_del) :=
        if negb (ordered_by climap (client_id e) (client_seq e))
        then (with_pending st (pending_entries_ptr st ++ [e]), n_del) else (st, u32 (n_del + 1)) in
      (with_log st (delete s (dur_log st)) (delete (client_id e, client_seq e) (reqid_to_seq_map st)), n_del)
  end.

Definition delEntriesBackup (st : t) (max_seq_req_ids : list ReqID) : t * Z :=
  let '(reqs, climap, max_seq) := collect_max max_seq_req_ids (reqid_to_seq_map st) ∅ 0 in
  let st := with_log st (dur_log st) reqs in
  let st := with_pending st (drop_pending climap (pending_entries_ptr st) 0).1 in
  let '(st, n_del) := foldl (erase_backup climap) (st, 0) (seqs st max_seq) in
  (with_watermk st max_seq, n_del).

Definition DelOrderedEntries (junk : Z) (st : t) (max_seq_req_ids : list ReqID) : t * Z :=
  if is_primary st then delEntriesPrimary junk st max_seq_req_ids else delEntriesBackup st max_seq_req_ids.
End DurabilityLog.

(** ** The mock *)

Module DurabilityLogMock.
Import DurabilityLog.

(** "This is a mock data". *)
Definition mock_data : list byte :=
  String.list_byte_of_string "This is a mock data".

Fixpoint mock_entries (n : nat) (mock_client_id : Z) (s : Sequencer.t) (es : list LogEntry)
    : Sequencer.t * list LogEntry :=
  match n with
  | O => (s, es)
  | S n =>
      let '(seq, s) := Sequencer.GetNextSeq s in
      mock_entries n mock_client_id s
        (es ++ [mkEntry mock_client_id seq 0 (lenZ mock_data) 0 0 mock_data])
  end.

Definition FetchUnorderedEntries (mock_client_id : Z) (st : t) (es : list LogEntry) (max_entries_num : Z)
    : t * list LogEntry * Z :=
  let '(s, es) := mock_entries (Z.to_nat max_entries_num) mock_client_id (sequencer st) es in
  (with_seq st s, es, max_entries_num).

Definition DelOrderedEntries (req_ids : list ReqID) : Z := u32 (lenZ req_ids).
End DurabilityLogMock.

(** ** Garbage collection *)

Module DurabilityLogProofs.
Import DurabilityLog.

(** Both loops erase the entries of the range. *)
Definition erases (f : t * Z → Z → t * Z) : Prop :=
  ∀ st n s, dur_log (f (st, n) s).1 = delete s (dur_log st).

Lemma erase_primary_erases : erases erase_primary.
Proof.
  intros st n s. unfold erase_primary. destruct (dur_log st !! s) eqn:Hs; simpl; [done|].
  by rewrite delete_id.
Qed.

Lemma erase_backup_erases climap : erases (erase_backup climap).
Proof.
  intros st n s. unfold erase_backup. destruct (dur_log st !! s) eqn:Hs; simpl.
  - by destruct (negb _).
  - by rewrite delete_id.
Qed.

Lemma foldl_erases f l st n s :
  erases f → dur_log (foldl f (st, n) l).1 !! s = if decide (s ∈ l) then None else dur_log st !! s.
Proof.
  intros Hf. revert st n. induction l as [|x l IH]; intros st n; cbn [foldl].
  { case_decide; [set_solver|done]. }
  pose proof (Hf st n x) as Hx. destruct (f (st, n) x) as [st' n']. simpl in Hx. rewrite IH, Hx.
  destruct (decide (s = x)) as [->|Hne].
  - rewrite lookup_delete_eq. repeat case_decide; set_solver.
  - rewrite lookup_delete_ne by done. repeat case_decide; set_solver.
Qed.

Lemma max_seq_of_ok ids reqs z :
  (foldl (λ '(reqs, mx) rid, let '(seq, reqs) := at_or_insert reqs rid in (reqs, Z.max mx seq)) (reqs, z) ids).2
    = max_position reqs ids z.
Proof.
  revert reqs z. induction ids as [|rid ids IH]; intros reqs z; simpl; [done|].
  destruct (at_or_insert_same reqs rid) as [Hv Hs]. destruct (at_or_insert reqs rid) as [v reqs1].
  simpl in Hv, Hs. subst v. rewrite IH. by apply max_position_same.
Qed.

Lemma seqs_elem st mx s :
  s ∈ seqs st mx ↔ u64 (ordered_watermk st + 1) ≤ s ≤ mx.
Proof. unfold seqs. rewrite elem_of_seqZ. lia. Qed.

(** C30. Garbage collection in the base class: on the primary and on a backup, the entries
    after the watermark, up to the greatest sequence number that the given requests have
    here, leave the log, all others stay, and the watermark becomes that number. *)
Theorem base_collect junk st ids s :
  let mx := max_position (reqid_to_seq_map st) ids 0 in
  let st' := (DelOrderedEntries junk st ids).1 in
  ordered_watermk st' = mx ∧
  dur_log st' !! s =
    if bool_decide (u64 (ordered_watermk st + 1) ≤ s ≤ mx) then None else dur_log st !! s.
Proof.
  intros mx st'. subst st'. unfold DelOrderedEntries. destruct (is_primary st).
  - unfold delEntriesPrimary. pose proof (max_seq_of_ok ids (reqid_to_seq_map st) 0) as Hmx. fold mx in Hmx.
    unfold max_seq_of in *. destruct (foldl _ _ ids) as [reqs mx']. simpl in Hmx. subst mx'.
    pose proof (foldl_erases erase_primary (seqs (with_log st (dur_log st) reqs) mx)
      (with_log st (dur_log st) reqs) junk s erase_primary_erases) as Hf.
    destruct (foldl _ _ (seqs _ mx)) as [st' n']. simpl in *. split; [done|]. rewrite Hf.
    case_decide as Hin; rewrite seqs_elem in Hin; [by rewrite bool_decide_true|by rewrite bool_decide_false].
  - unfold delEntriesBackup. destruct (collect_max_ok ids (reqid_to_seq_map st) ∅ 0) as (reqs & -> & _). fold mx.
    set (st1 := with_pending _ _).
    pose proof (foldl_erases (erase_backup (client_max ids ∅)) (seqs st1 mx) st1 0 s (erase_backup_erases _)) as Hf.
    destruct (foldl _ _ (seqs st1 mx)) as [st' n']. simpl in *. split; [done|]. rewrite Hf.
    case_decide as Hin; rewrite seqs_elem in Hin; [by rewrite bool_decide_true|by rewrite bool_decide_false].
Qed.

(** Nothing can be fetched from a fresh log of the base class: its watermark starts at
    [UINT64_MAX] and the loop begins at the watermark, not behind it.  Whatever was
    appended, no entry is returned, and the number returned is indeterminate. *)
Theorem base_fetch_nothing junk es max :
  lenZ es < 2 ^ 64 - 1 → 0 ≤ max →
  FetchUnorderedEntries junk (foldl (λ st e, (AppendEntry st e).1.1) init es) [] max = Some ([], junk).
Proof.
  intros Hlen Hmax.
  assert (∀ st, ordered_watermk (foldl (λ st e, (AppendEntry st e).1.1) st es) = ordered_watermk st ∧
    (0 ≤ sequencer st → sequencer st + lenZ es < 2 ^ 64 →
     sequencer (foldl (λ st e, (AppendEntry st e).1.1) st es) = sequencer st + lenZ es)) as Hfold.
  { clear. induction es as [|e es IH]; intros st; simpl; [split; [done|lia]|].
    destruct (IH (AppendEntry st e).1.1) as [Hw Hs]. split; [done|]. intros H0 H1.
    assert (sequencer (AppendEntry st e).1.1 = sequencer st + 1) as Hq by (by apply u64_small; lia).
    rewrite Hq in Hs. etrans; [apply Hs; lia|lia]. }
  destruct (Hfold init) as [Hw Hs]. unfold FetchUnorderedEntries.
  rewrite Hw. cbn [init sequencer ordered_watermk] in Hs |- *. cbn [fetch_from]. unfold Sequencer.GetCurSeq. rewrite Hs by (unfold Sequencer.init; lia).
  change (u64 (-1)) with (2 ^ 64 - 1). unfold Sequencer.init. by rewrite (proj2 (Z.leb_gt _ _)) by lia.
Qed.

Lemma base_fetch_nothing_witness :
  FetchUnorderedEntries 7 (foldl (λ st e, (AppendEntry st e).1.1) init [entry_of 42 0; entry_of 42 1]) [] 10
    = Some ([], 7).
Proof. apply (base_fetch_nothing 7 [entry_of 42 0; entry_of 42 1] 10); done. Defined.
End DurabilityLogProofs.
