(* ===== verification/KV.v ===== *)
(** The key-value store on top of the log: [src/app/ll_kv.cc].

    Inserts are appended to the log; one thread plays the log into a hash map, from
    which reads are served.  The thread needs of the log only what [LogReader] states;
    the client of [Client] over the shards of [StorageLog] provides it. *)

From stdpp Require Import strings.
From S2P Require Import Prelude Props Sequencer LogEntry DurLogFlat DlTransport Replica Links.
From S2P Require Import ShardServer NaiveBackend StorageLog Client.

Local Open Scope Z_scope.

Definition KV_INSERT : Z := 41.
Definition KV_READ : Z := 42.

(** ** Strings *)

#[export] Instance byte_countable : Countable byte.
Proof. apply (inj_countable Strings.Byte.to_N Strings.Byte.of_N). intros x. apply Strings.Byte.of_to_N. Defined.

(** The characters of a [std::string], with the terminator after them. *)
Definition c_data (s : list byte) : buffer := msg_buf (s ++ [Byte.x00]).

(** [substr(pos, n)]; [None] is [std::out_of_range]. *)
Definition substr (s : list byte) (pos n : Z) : option (list byte) :=
  if lenZ s <? pos then None else Some (take (Z.to_nat n) (drop (Z.to_nat pos) s)).

(** The key at the beginning of a buffer. *)
Definition DeserializeKey (b : buffer) : option (list byte) :=
  len ← load_int 4 b 0;
  load b 4 (Z.to_nat len).

(** ** The log as the store sees it *)

(** [lr_holds s log tail]: in the state [s] the first [tail] entries of [log] can be
    read. *)
Class LogReader (R : Type) : Type := {
  lr_read : R → Z → outcome (R * list byte);
  lr_holds : R → list LogEntry → nat → Prop;
  lr_read_ok : ∀ s log tail i e,
    lr_holds s log tail → (i < tail)%nat → log !! i = Some e →
    ∃ s', lr_read s (Z.of_nat i) = Ok (s', data e) ∧ lr_holds s' log tail
}.

(** ** Playing the log *)

Record KV : Type := mkKV { kv_store_ : gmap (list byte) (list byte); next_idx_ : Z }.

(** The operation, the last byte of the data. *)
Definition entry_op (d : list byte) : option Z := load_int 1 (c_data d) (lenZ d - 1).

(** One entry; an operation other than an insert is reported. *)
Definition play_entry (m : gmap (list byte) (list byte)) (d : list byte)
    : option (gmap (list byte) (list byte)) :=
  op ← entry_op d;
  if op =? KV_INSERT then
    key ← DeserializeKey (c_data d);
    let offset := lenZ key + 4 in
    value ← substr d offset (u64 (lenZ d - offset - 1));
    Some (<[key := value]> m)
  else Some m.

Section Play.
Context {R : Type} `{LogReader R}.

(** [for (auto i = next_idx_; i < tail; i++)]. *)
Fixpoint play (n : nat) (s : R) (m : gmap (list byte) (list byte)) (i : Z)
    : outcome (R * gmap (list byte) (list byte)) :=
  match n with
  | O => Ok (s, m)
  | S n =>
      '(s, d) ← lr_read s i;
      m ← lift (play_entry m d);
      play n s m (i + 1)
  end.

(** One turn of the loop of [playlog_func], with the ordered tail that [GetTail]
    returned. *)
Definition playlog_turn (kv : KV) (s : R) (tail : Z) : outcome (KV * R) :=
  '(s, m) ← play (Z.to_nat (tail - next_idx_ kv)) s (kv_store_ kv) (next_idx_ kv);
  Ok (mkKV m tail, s).
End Play.

(** ** Requests *)

(** [InsertHandler]: the operation is written behind the [n] bytes of the request, and
    the whole is the data of a log entry. *)
Definition insert_data (b : buffer) (n : Z) : option (list byte) :=
  b ← store_int 1 b n KV_INSERT;
  load b 0 (Z.to_nat (n + 1)).

Definition InsertHandler `{Erpc} (fuel : nat) (delay : string → nat) (sched : nat → list (string * list byte))
    (token : nat) (c : LazyLogClient) (b : buffer) (n : Z) : outcome (LazyLogClient * Z) :=
  d ← lift (insert_data b n);
  '(c, _) ← AppendEntryAll fuel delay sched token c d;
  Ok (c, 0).

Definition UpdateHandler `{Erpc} (fuel : nat) (delay : string → nat) (sched : nat → list (string * list byte))
    (token : nat) (c : LazyLogClient) (b : buffer) (n : Z) : outcome (LazyLogClient * Z) :=
  InsertHandler fuel delay sched token c b n.

(** [ReadHandler]; the response holds a status and, if it is zero, the value. *)
Definition ReadHandler (kv : KV) (resp req : buffer) : option (buffer * Z) :=
  key ← DeserializeKey req;
  match kv_store_ kv !! key with
  | Some value =>
      b ← store_int 4 resp 0 0;
      b ← store b 4 value;
      Some (b, lenZ value + 4)
  | None => b ← store_int 4 resp 0 2; Some (b, 4)
  end.

(** ** Requests of clients *)

(** The request for a key and a value: the length of the key, the key, the value. *)
Definition insert_request (key value : list byte) : list byte := le_bytes 4 (lenZ key) ++ key ++ value.

(** The data of its log entry. *)
Definition insert_entry (key value : list byte) : list byte := insert_request key value ++ le_bytes 1 KV_INSERT.

Lemma load_bytes pre bs post :
  load (msg_buf (pre ++ bs ++ post)) (lenZ pre) (length bs) = Some bs.
Proof.
  rewrite load_ok by (unfold msg_buf; cbn [bcap]; rewrite ?length_app; lia). f_equal.
  apply peek_eq_iff. intros i x Hx.
  replace (lenZ pre + Z.of_nat i) with (Z.of_nat (length pre + i)) by lia. apply rd_msg_buf.
  rewrite lookup_app_r by lia. replace (length pre + i - length pre)%nat with i by lia.
  by apply lookup_app_l_Some.
Qed.

Lemma load_int_bytes pre n z post :
  0 ≤ z < 2 ^ (8 * Z.of_nat n) → load_int n (msg_buf (pre ++ le_bytes n z ++ post)) (lenZ pre) = Some z.
Proof.
  intros Hz. unfold load_int. pose proof (load_bytes pre (le_bytes n z) post) as Hl. rewrite length_le in Hl.
  rewrite Hl. simpl. by rewrite un_le_le.
Qed.

Lemma DeserializeKey_ok key rest :
  lenZ key < 2 ^ 32 → DeserializeKey (msg_buf (le_bytes 4 (lenZ key) ++ key ++ rest)) = Some key.
Proof.
  intros Hk. unfold DeserializeKey. pose proof (load_int_bytes [] 4 (lenZ key) (key ++ rest)) as Hi.
  change ([] ++ ?x) with x in Hi. change (lenZ []) with 0 in Hi. rewrite Hi by (of_nat_lit; lia).
  cbn [mbind option_bind]. rewrite Nat2Z.id. pose proof (load_bytes (le_bytes 4 (lenZ key)) key rest) as Hl.
  rewrite length_le in Hl. exact Hl.
Qed.

Lemma insert_entry_length key value : lenZ (insert_entry key value) = lenZ key + lenZ value + 5.
Proof. unfold insert_entry, insert_request. rewrite !length_app, !length_le. lia. Qed.

(** Playing the entry of an insert has the effect of the insert. *)
Lemma insert_op key value : entry_op (insert_entry key value) = Some KV_INSERT.
Proof.
  assert (lenZ (insert_entry key value) - 1 = lenZ (insert_request key value)) as Hop
    by (unfold insert_entry; rewrite length_app, length_le; lia).
  unfold entry_op. rewrite Hop. unfold c_data, insert_entry. rewrite <- app_assoc. by apply (load_int_bytes _ 1).
Qed.

Lemma play_insert m key value :
  lenZ key + lenZ value + 5 < 2 ^ 32 → play_entry m (insert_entry key value) = Some (<[key := value]> m).
Proof.
  intros Hlen.
  assert (DeserializeKey (c_data (insert_entry key value)) = Some key) as Hk.
  { unfold c_data, insert_entry, insert_request. rewrite <- !app_assoc. apply DeserializeKey_ok. lia. }
  unfold play_entry. rewrite insert_op. cbn [mbind option_bind]. rewrite Z.eqb_refl, Hk. cbn [mbind option_bind].
  unfold substr. rewrite insert_entry_length, (proj2 (Z.ltb_ge _ _)) by lia. cbn [mbind option_bind].
  rewrite u64_small by lia. do 2 f_equal. unfold insert_entry, insert_request.
  rewrite (app_assoc _ key), <- (app_assoc _ value).
  rewrite drop_app_length' by (rewrite length_app, length_le; lia). by rewrite take_app_length' by lia.
Qed.

(** What [InsertHandler] makes of a request that does not fill its buffer. *)
Lemma insert_data_ok b key value :
  lenZ (insert_request key value) < bcap b →
  peek (rd (bmem b)) 0 (length (insert_request key value)) = insert_request key value →
  insert_data b (lenZ (insert_request key value)) = Some (insert_entry key value).
Proof.
  intros Hk Hpk. unfold insert_data, store_int. rewrite store_ok by (rewrite ?length_le; lia). cbn [mbind option_bind].
  rewrite load_ok by (cbn [bcap bpoke]; lia). f_equal.
  replace (Z.to_nat (lenZ (insert_request key value) + 1)) with (length (insert_request key value) + 1)%nat by lia.
  rewrite peek_app. cbn [bmem bpoke]. rewrite peek_poke_out, Hpk by lia. by rewrite (peek_poke_int _ _ 1).
Qed.

(** ** The log of a client over the shards *)

Section Reader.
Context `{Posix, Erpc}.

Definition client_read (c : LazyLogClient) (i : Z) : outcome (LazyLogClient * list byte) :=
  '(c, _, d) ← LazyLogClient_ReadEntry false c i; Ok (c, d).

Definition client_holds (c : LazyLogClient) (log : list LogEntry) (tail : nat) : Prop :=
  ∃ u n M cap glob, store_repr u n M cap glob (be_rd_cli_ c) log ∧ 8 ≤ cap ∧ numbered log ∧
    small_entries M log ∧ Z.of_nat tail - 1 ≤ glob ∧ lenZ log < 2 ^ 64.

#[export] Program Instance LazyLogClient_reader : LogReader LazyLogClient :=
  {| lr_read := client_read; lr_holds := client_holds |}.
Next Obligation.
  intros c log tail i e (u & n & M & cap & glob & Hst & Hcap & Hnum & Hsm & Hglob & Hlen) Hi He.
  pose proof (lookup_lt_Some _ _ _ He) as Hlt.
  pose proof (be_ReadEntry_ok u n M cap (be_rd_cli_ c) log glob false i LogEntry_default Hst Hcap Hnum Hsm
    ltac:(lia)) as Hrd.
  rewrite He, (proj2 (Z.leb_le _ _)) in Hrd by lia. destruct Hrd as (be & Hrd & Hst').
  exists (with_reader c be). unfold client_read, LazyLogClient_ReadEntry. rewrite Hrd. split; [done|].
  by exists u, n, M, cap, glob.
Qed.
End Reader.

(** ** Replaying *)

(** The map after a sequence of inserts, and the value that a key has then. *)
Definition replay (ops : list (list byte * list byte)) : gmap (list byte) (list byte) :=
  foldl (λ m kv, <[kv.1 := kv.2]> m) ∅ ops.

Definition latest (ops : list (list byte * list byte)) (key : list byte) : option (list byte) :=
  snd <$> last (filter (λ kv, kv.1 = key) ops).

Lemma replay_snoc ops k v : replay (ops ++ [(k, v)]) = <[k := v]> (replay ops).
Proof. unfold replay. by rewrite foldl_app. Qed.

Lemma replay_latest ops key : replay ops !! key = latest ops key.
Proof.
  unfold latest. induction ops as [|[k v] ops IH] using rev_ind; [done|].
  rewrite replay_snoc, filter_app. destruct (decide (k = key)) as [->|Hne].
  - rewrite lookup_insert_eq, filter_cons_True, filter_nil by done. by rewrite last_snoc.
  - rewrite lookup_insert_ne, filter_cons_False, filter_nil, app_nil_r by done. exact IH.
Qed.

(** The log holds the inserts. *)
Definition logs_inserts (log : list LogEntry) (ops : list (list byte * list byte)) : Prop :=
  ∀ i k v, ops !! i = Some (k, v) →
    lenZ k + lenZ v + 5 < 2 ^ 32 ∧ ∃ e, log !! i = Some e ∧ data e = insert_entry k v.

Lemma play_ok `{LogReader R} n s i log tail ops :
  lr_holds s log tail → logs_inserts log ops → (i + n ≤ tail)%nat → (i + n ≤ length ops)%nat →
  ∃ s', play n s (replay (take i ops)) (Z.of_nat i) = Ok (s', replay (take (i + n) ops)) ∧ lr_holds s' log tail.
Proof.
  intros Hs Hops Ht Hl. revert s i Hs Ht Hl. induction n as [|n IH]; intros s i Hs Ht Hl; cbn [play].
  { exists s. by rewrite Nat.add_0_r. }
  destruct (lookup_lt_is_Some_2 ops i) as [[k v] Hi]; [lia|]. destruct (Hops i k v Hi) as (Hlen & e & He & Hd).
  destruct (lr_read_ok s log tail i e Hs ltac:(lia) He) as (s' & -> & Hs'). cbn [mbind outcome_bind].
  rewrite Hd, play_insert by done. cbn [lift mbind outcome_bind].
  rewrite <- replay_snoc, <- take_S_r by done.
  replace (Z.of_nat i + 1) with (Z.of_nat (S i)) by lia.
  replace (i + S n)%nat with (S i + n)%nat by lia. apply IH; (done || lia).
Qed.

(** A read of a key in the store after the inserts [ops]. *)
Lemma ReadHandler_latest ops next resp key :
  lenZ key < 2 ^ 32 → (∀ v, latest ops key = Some v → lenZ v + 4 ≤ bcap resp) → 4 ≤ bcap resp →
  ∃ b n, ReadHandler (mkKV (replay ops) next) resp (msg_buf (le_bytes 4 (lenZ key) ++ key)) = Some (b, n) ∧
    peek (rd (bmem b)) 0 (Z.to_nat n) =
      match latest ops key with Some v => le_bytes 4 0 ++ v | None => le_bytes 4 2 end.
Proof.
  intros Hkey Hcap Hcap4. pose proof (DeserializeKey_ok key [] Hkey) as Hk. rewrite app_nil_r in Hk.
  unfold ReadHandler. rewrite Hk. cbn [mbind option_bind kv_store_]. rewrite replay_latest.
  unfold store_int. destruct (latest ops key) as [v|].
  - specialize (Hcap v eq_refl). rewrite store_ok by (rewrite ?length_le; lia). cbn [mbind option_bind].
    rewrite store_ok by (simpl; lia). cbn [mbind option_bind]. eexists _, _. split; [done|].
    replace (Z.to_nat (lenZ v + 4)) with (4 + length v)%nat by lia. rewrite peek_app. cbn [bmem bpoke].
    f_equal; [|apply peek_poke_same]. rewrite peek_poke_out by lia. apply (peek_poke_int _ _ 4).
  - rewrite store_ok by (rewrite ?length_le; lia). eexists _, _. split; [done|]. apply (peek_poke_int _ _ 4).
Qed.

(** ** Claims *)

(** The store follows the log.  If the map is the replay of the inserts of the log up
    to [next_idx_], a turn of the thread that plays the log up to the tail makes it the
    replay of all inserts up to there.  A read of a key is then answered with status 0
    and the value of the last of these inserts of that key, or with status 2 if there is
    none. *)
Theorem kv_reads_latest `{LogReader R} s log tail ops next resp key :
  lr_holds s log tail → logs_inserts log ops → length ops = tail → (next ≤ tail)%nat →
  lenZ key < 2 ^ 32 → (∀ v, latest ops key = Some v → lenZ v + 4 ≤ bcap resp) → 4 ≤ bcap resp →
  ∃ s' kv' b n, playlog_turn (mkKV (replay (take next ops)) (Z.of_nat next)) s (Z.of_nat tail) = Ok (kv', s') ∧
    kv' = mkKV (replay ops) (Z.of_nat tail) ∧ lr_holds s' log tail ∧
    ReadHandler kv' resp (msg_buf (le_bytes 4 (lenZ key) ++ key)) = Some (b, n) ∧
    peek (rd (bmem b)) 0 (Z.to_nat n) =
      match latest ops key with Some v => le_bytes 4 0 ++ v | None => le_bytes 4 2 end.
Proof.
  intros Hs Hops Hlen Hnext Hkey Hcap Hcap4.
  destruct (play_ok (tail - next) s next log tail ops) as (s' & Hplay & Hs'); [done|done|lia|lia|].
  replace (next + (tail - next))%nat with (length ops) in Hplay by lia. rewrite firstn_all in Hplay.
  destruct (ReadHandler_latest ops (Z.of_nat tail) resp key Hkey Hcap Hcap4) as (b & n & Hrd & Hpk).
  eexists s', _, b, n. split; [|by split_and!].
  unfold playlog_turn. cbn [next_idx_ kv_store_].
  replace (Z.to_nat (Z.of_nat tail - Z.of_nat next)) with (tail - next)%nat by lia. by rewrite Hplay.
Qed.

(** Two inserts of one key in the shards of [StorageLog]. *)
Definition kv_ops : list (list byte * list byte) := [([Byte.x61], [Byte.x62]); ([Byte.x61], [Byte.x63; Byte.x64])].
Definition kv_log : list LogEntry :=
  [mkEntry 42 0 0 7 1 0 (insert_entry [Byte.x61] [Byte.x62]);
   mkEntry 42 1 1 8 1 0 (insert_entry [Byte.x61] [Byte.x63; Byte.x64])].

Lemma kv_log_new : new_entries 2 2 1000 2048 [] kv_log.
Proof.
  split; try done.
  - intros i e He. do 2 (destruct i as [|i]; [by simplify_eq/=|]). done.
  - repeat constructor; by apply (bool_decide_unpack (valid_entry _)); vm_compute.
  - repeat constructor; by vm_compute.
Qed.

Lemma kv_log_inserts : logs_inserts kv_log kv_ops.
Proof. intros i k v Hi. do 2 (destruct i as [|i]; [simplify_eq/=; split; [by vm_compute|eexists; done]|]). done. Qed.

Lemma kv_client : ∃ c, client_holds c kv_log 2.
Proof.
  destruct (AppendBatch_ok (H:=Posix_plain) (H0:=Erpc_exact) 2 2 1000 2048 (λ _, eq_refl) (λ _, eq_refl) two_shards [] kv_log [] 0 two_shards_repr
    kv_log_new (or_introl eq_refl)) as (be1 & _ & Hst1).
  destruct (UpdateGlobalIdx_ok (H0:=Erpc_exact) 2 2 1000 2048 be1 _ _ 1 Hst1) as (be2 & _ & Hst2); [done|done|].
  exists (mkClient [] "a" be2 44 0 0). exists 2%nat, 2%nat, 1000, 2048, 1. split_and!; try done.
  - apply (ne_num _ _ _ _ _ _ kv_log_new).
  - apply kv_log_new.
Qed.

Lemma kv_reads_latest_witness :
  ∃ (s s' : LazyLogClient) kv' b n, playlog_turn (mkKV (replay (take 1 kv_ops)) 1) s 2 = Ok (kv', s') ∧
    kv' = mkKV (replay kv_ops) 2 ∧ lr_holds s' kv_log 2 ∧
    ReadHandler kv' (Buf 100 ∅) (msg_buf (le_bytes 4 1 ++ [Byte.x61])) = Some (b, n) ∧
    peek (rd (bmem b)) 0 (Z.to_nat n) = le_bytes 4 0 ++ [Byte.x63; Byte.x64].
Proof.
  destruct kv_client as [c Hc]. exists c.
  apply (kv_reads_latest c kv_log 2 kv_ops 1 (Buf 100 ∅) [Byte.x61]).
  - exact Hc.
  - exact kv_log_inserts.
  - done.
  - apply le_S, le_n.
  - done.
  - intros v Hv. assert (Some v = Some [Byte.x63; Byte.x64]) as [= ->] by (by rewrite <- Hv; vm_compute). done.
  - done.
Defined.

(** C40. An insert survives its way through the log.  [InsertHandler] writes the operation
    code one byte behind the request, so the message buffer must be larger than the
    request: then the data that it appends to the log, played by the other thread, maps
    the key to the value.  Otherwise it writes out of bounds. *)
Theorem kv_insert_roundtrip key value b m :
  lenZ key + lenZ value + 5 < 2 ^ 32 → lenZ (insert_request key value) ≤ bcap b →
  peek (rd (bmem b)) 0 (length (insert_request key value)) = insert_request key value →
  if lenZ (insert_request key value) <? bcap b
  then ∃ d, insert_data b (lenZ (insert_request key value)) = Some d ∧
       play_entry m d = Some (<[key := value]> m)
  else insert_data b (lenZ (insert_request key value)) = None.
Proof.
  intros Hlen Hcap Hpk. case_zb.
  - eexists. split; [by apply insert_data_ok|]. by apply play_insert.
  - unfold insert_data, store_int, store, in_buf.
    rewrite length_le, (proj2 (Z.leb_gt (_ + _) _)) by lia. by rewrite andb_false_r.
Qed.

Lemma kv_insert_roundtrip_witness :
  ∃ d, insert_data (bpoke (Buf 100 ∅) 0 (insert_request [Byte.x61] [Byte.x62])) 6 = Some d ∧
    play_entry ∅ d = Some (<[[Byte.x61] := [Byte.x62]]> ∅).
Proof.
  apply (kv_insert_roundtrip [Byte.x61] [Byte.x62] (bpoke (Buf 100 ∅) 0 (insert_request [Byte.x61] [Byte.x62])) ∅).
  - done.
  - done.
  - apply peek_poke_same.
Defined.
