(* ===== verification/KVRun.v ===== *)
(** The key-value store over the running system: [src/app/ll_kv.cc] with the client of
    [src/client/lazylog_cli.cc].

    Server threads handle inserts and reads, each with a client of its own; if the property
    [reader] is set, a thread plays the ordered log into the map from which reads are
    answered.  Their steps, and those of the consensus log, are interleaved in any way.  A
    server thread handles one request at a time.

    The map [kv_store_] is shared without a lock.  An access to it therefore has a beginning
    and an end, as separate steps: the playing thread is inside [kv_store_[key] = value], or a
    server thread between [find] and the copy of the value.  If one begins while the other is
    under way, the behaviour is undefined: the step is a [Fault].  Accesses that do not
    overlap are taken to be in order, as on a machine with coherent memory; the language
    promises this only for synchronised threads.

    Shown: nothing else fails; the map is always that of a beginning of the primary's log,
    and so are the answers; every insert that was acknowledged is in this log, and it gets
    into the map of a store with a playing thread. *)

From stdpp Require Import strings sorting.
From S2P Require Import Prelude Props Sequencer LogEntry DurLogFlat FlatRing FlatGC DlTransport.
From S2P Require Import FlatCli Replica Links ShardServer NaiveBackend StorageLog ConsLog ConsOrder.
From S2P Require Import System Pipeline PipelineOrder Startup SystemView Client KV.

Local Open Scope Z_scope.

(** ** Server threads *)

(** Where a thread is: in the event loop; in [InsertHandler], waiting in [AppendEntryAll]
    with the payload and the requests that the replicas have not handled yet; or in
    [ReadHandler], reading the map for the request [req]. *)
Inductive handler_pc : Type :=
  | KIdle
  | KWaiting (d : list byte) (reqs : Conns (list byte))
  | KReading (resp req : buffer).

Record KvThread : Type := mkKvThread {
  t_conns : Conns ErpcCli;
  t_client_id : Z;
  t_seq : Sequencer.t;
  t_pc : handler_pc
}.

(** The first loop of [AppendEntryAll], with a new token per connection. *)
Fixpoint kv_send `{Erpc} (ks : Conns ErpcCli) (e : LogEntry) : option (Conns ErpcCli * Conns (list byte)) :=
  match ks with
  | [] => Some ([], [])
  | (d, c) :: ks =>
      '(c, bs) ← cli_AppendEntryAsync c e;
      '(ks, reqs) ← kv_send ks e;
      Some ((d, with_tokens c (pending_reqs_ c) (<[0%nat := RPCToken.init]> (tokens c))) :: ks, (d, bs) :: reqs)
  end.

(** [InsertHandler] until all requests are sent; [n] bytes in the buffer [b]. *)
Definition kv_insert `{Erpc} (t : KvThread) (b : buffer) (n : Z) : outcome KvThread :=
  match t_pc t with
  | KWaiting _ _ | KReading _ _ => Blocked
  | KIdle =>
      d ← lift (insert_data b n);
      let '(s, q) := Sequencer.GetNextSeq (t_seq t) in
      let e := mkEntry (t_client_id t) s 0 (u32 (lenZ d)) 1 0 d in
      '(ks, reqs) ← lift (kv_send (t_conns t) e);
      Ok (mkKvThread ks (t_client_id t) q (KWaiting d reqs))
  end.

Definition drop_req (d : string) (reqs : Conns (list byte)) : Conns (list byte) :=
  List.filter (λ r, negb (streq d r.1)) reqs.

(** The replica [r] handles the request of the thread, and the thread gets the answer. *)
Definition kv_deliver `{Erpc} (t : KvThread) (r : string) (cl : ConsensusLog) : outcome (KvThread * ConsensusLog) :=
  match t_pc t with
  | KIdle | KReading _ _ => Blocked
  | KWaiting d reqs =>
      match link_at r reqs with
      | None => Blocked
      | Some bs =>
          c ← lift (link_at r (t_conns t));
          l ← lift (link_at r (dur_cli_ cl));
          '(st, rs) ← dl_handle (l_resp l) (l_svr l) APPEND_ENTRY bs;
          Ok (mkKvThread (link_set r (async_complete c 0 rs) (t_conns t)) (t_client_id t) (t_seq t)
                (KWaiting d (drop_req r reqs)),
              with_links cl (link_set r (with_svr l st) (dur_cli_ cl)))
      end
  end.

(** [AppendEntryAll] returns once all tokens are complete, and the insert is answered with
    status zero; the result is the payload. *)
Definition conn_complete (c : ErpcCli) : bool := default false (RPCToken.Complete <$> tokens c !! 0%nat).

Definition kv_return (t : KvThread) : outcome (KvThread * list byte) :=
  match t_pc t with
  | KIdle | KReading _ _ => Blocked
  | KWaiting d _ =>
      if RPCToken.allCompleted ((λ dc, conn_complete dc.2) <$> t_conns t)
      then Ok (mkKvThread (t_conns t) (t_client_id t) (t_seq t) KIdle, d) else Blocked
  end.

(** [ReadHandler] up to [kv_store_.find(key)], which begins to read the map. *)
Definition kv_read_begin (t : KvThread) (resp req : buffer) : outcome KvThread :=
  match t_pc t with
  | KIdle =>
      _ ← lift (DeserializeKey req);
      Ok (mkKvThread (t_conns t) (t_client_id t) (t_seq t) (KReading resp req))
  | KWaiting _ _ | KReading _ _ => Blocked
  end.

(** The rest of [ReadHandler]; the result is the request with the answer that is sent. *)
Definition kv_read_end (t : KvThread) (kv : KV) : outcome (KvThread * (buffer * list byte)) :=
  match t_pc t with
  | KReading resp req =>
      '(b, m) ← lift (ReadHandler kv resp req);
      Ok (mkKvThread (t_conns t) (t_client_id t) (t_seq t) KIdle, (req, peek (rd (bmem b)) 0 (Z.to_nat m)))
  | KIdle | KWaiting _ _ => Blocked
  end.

(** ** The thread that plays the log *)

(** At the beginning of a turn; in the loop over the indices up to the tail; with the data of
    the entry that was read; or inside [kv_store_[key] = value]. *)
Inductive play_pc : Type :=
  | PTurn
  | PLoop (i tail : Z)
  | PEntry (i tail : Z) (d : list byte)
  | PWrite (i tail : Z) (d : list byte).

Record Player : Type := mkPlayer { pl_conn : ErpcCli; pl_pc : play_pc }.

(** A step of [playlog_func]: [GetTail] at the primary, reading an entry, beginning to write
    it to the map unless the operation is unknown, having written it, or the end of the turn. *)
Definition play_step `{Posix, Erpc} (pri : string) (slow : bool) (pl : Player) (kv : KV) (cl : ConsensusLog)
    : outcome (Player * KV * ConsensusLog) :=
  match pl_pc pl with
  | PTurn =>
      l ← lift (link_at pri (dur_cli_ cl));
      '(c, st, (_, tail, _)) ← cli_GetNumDurEntry (dl_handle (l_resp l)) (pl_conn pl) (l_svr l);
      Ok (mkPlayer c (PLoop (next_idx_ kv) tail), kv,
          with_links cl (link_set pri (with_svr l st) (dur_cli_ cl)))
  | PLoop i tail =>
      if i <? tail then
        '(be, _, e) ← be_ReadEntry (backend_ cl) slow i LogEntry_default;
        Ok (mkPlayer (pl_conn pl) (PEntry i tail (data e)), kv, with_backend cl be)
      else Ok (mkPlayer (pl_conn pl) PTurn, mkKV (kv_store_ kv) tail, cl)
  | PEntry i tail d =>
      op ← lift (entry_op d);
      Ok (mkPlayer (pl_conn pl) (if op =? KV_INSERT then PWrite i tail d else PLoop (i + 1) tail), kv, cl)
  | PWrite i tail d =>
      m ← lift (play_entry (kv_store_ kv) d);
      Ok (mkPlayer (pl_conn pl) (PLoop (i + 1) tail), mkKV m (next_idx_ kv), cl)
  end.

(** ** The store *)

(** [kv_acks] are the payloads of the inserts that have been answered, [kv_answers] the reads
    that have been answered, with their answers. *)
Record KvSystem : Type := mkKvSystem {
  kv_cons : ConsensusLog;
  kv_pipe : Pipeline;
  kv_map : KV;
  kv_player : option Player;
  kv_threads : list KvThread;
  kv_acks : list (list byte);
  kv_answers : list (buffer * list byte)
}.

Inductive kaction : Type :=
  | KInsert (j : nat) (b : buffer) (n : Z)
  | KDeliver (j : nat) (r : string)
  | KReturn (j : nat)
  | KReadBegin (j : nat) (resp req : buffer)
  | KReadEnd (j : nat)
  | KPlay (slow : bool)
  | KSystem (ev : pevent).

Definition is_reading (t : KvThread) : bool := match t_pc t with KReading _ _ => true | _ => false end.

(** Whether [kv_store_] is being read, is being written, and is about to be written. *)
Definition reading (s : KvSystem) : bool := existsb is_reading (kv_threads s).

Definition writing (s : KvSystem) : bool :=
  match pl_pc <$> kv_player s with Some (PWrite _ _ _) => true | _ => false end.

Definition begins_write (s : KvSystem) : bool :=
  match pl_pc <$> kv_player s with Some (PEntry _ _ d) => bool_decide (entry_op d = Some KV_INSERT) | _ => false end.

(** The step begins an access to the map that conflicts with one under way. *)
Definition races (a : kaction) (s : KvSystem) : bool :=
  match a with
  | KReadBegin j _ _ => match t_pc <$> kv_threads s !! j with Some KIdle => writing s | _ => false end
  | KPlay _ => begins_write s && reading s
  | _ => false
  end.

Definition with_kv_thread (j : nat) (t : KvThread) (s : KvSystem) : KvSystem :=
  mkKvSystem (kv_cons s) (kv_pipe s) (kv_map s) (kv_player s) (<[j := t]> (kv_threads s)) (kv_acks s) (kv_answers s).

Definition kstep `{Posix, Erpc, Rdma} (pri : string) (a : kaction) (s : KvSystem) : outcome KvSystem :=
  if races a s then Fault else
  match a with
  | KInsert j b n =>
      match kv_threads s !! j with
      | None => Blocked
      | Some t => t ← kv_insert t b n; Ok (with_kv_thread j t s)
      end
  | KDeliver j r =>
      match kv_threads s !! j with
      | None => Blocked
      | Some t =>
          '(t, cl) ← kv_deliver t r (kv_cons s);
          Ok (mkKvSystem cl (kv_pipe s) (kv_map s) (kv_player s) (<[j := t]> (kv_threads s)) (kv_acks s) (kv_answers s))
      end
  | KReturn j =>
      match kv_threads s !! j with
      | None => Blocked
      | Some t =>
          '(t, d) ← kv_return t;
          Ok (mkKvSystem (kv_cons s) (kv_pipe s) (kv_map s) (kv_player s) (<[j := t]> (kv_threads s))
                (kv_acks s ++ [d]) (kv_answers s))
      end
  | KReadBegin j resp req =>
      match kv_threads s !! j with
      | None => Blocked
      | Some t => t ← kv_read_begin t resp req; Ok (with_kv_thread j t s)
      end
  | KReadEnd j =>
      match kv_threads s !! j with
      | None => Blocked
      | Some t =>
          '(t, r) ← kv_read_end t (kv_map s);
          Ok (mkKvSystem (kv_cons s) (kv_pipe s) (kv_map s) (kv_player s) (<[j := t]> (kv_threads s))
                (kv_acks s) (kv_answers s ++ [r]))
      end
  | KPlay slow =>
      match kv_player s with
      | None => Blocked
      | Some pl =>
          '(pl, kv, cl) ← play_step pri slow pl (kv_map s) (kv_cons s);
          Ok (mkKvSystem cl (kv_pipe s) kv (Some pl) (kv_threads s) (kv_acks s) (kv_answers s))
      end
  | KSystem ev =>
      '(cl, p) ← pipe_step ev (kv_cons s) (kv_pipe s);
      Ok (mkKvSystem cl p (kv_map s) (kv_player s) (kv_threads s) (kv_acks s) (kv_answers s))
  end.

(** A thread that must wait leaves everything as it is. *)
Fixpoint krun `{Posix, Erpc, Rdma} (pri : string) (acts : list kaction) (s : KvSystem) : outcome KvSystem :=
  match acts with
  | [] => Ok s
  | a :: acts =>
      match kstep pri a s with
      | Ok s' => krun pri acts s'
      | Blocked => krun pri acts s
      | Fault => Fault
      end
  end.

(** Two accesses to the map overlap in the run. *)
Fixpoint kraces `{Posix, Erpc, Rdma} (pri : string) (acts : list kaction) (s : KvSystem) : bool :=
  match acts with
  | [] => false
  | a :: acts =>
      races a s ||
      match kstep pri a s with
      | Ok s' => kraces pri acts s'
      | Blocked => kraces pri acts s
      | Fault => false
      end
  end.

(** [KVTransport::Initialize]: [threadcount] server threads, with the connections and the
    ids of their clients, and, if this is a reader, the thread that plays the log. *)
Definition kv_start (p : Properties) (cli : Z → Conns ErpcCli * Z) (pl : ErpcCli) (cl : ConsensusLog) : option KvSystem :=
  n_th ← stoi (GetProperty p "threadcount" "1");
  let player := if streq (GetProperty p "reader" "false") "true" then Some (mkPlayer pl PTurn) else None in
  Some (mkKvSystem cl Pipeline_init (mkKV ∅ 0) player
          ((λ i, mkKvThread (cli (Z.of_nat i)).1 (cli (Z.of_nat i)).2 Sequencer.init KIdle) <$> seq 0 (Z.to_nat n_th)) [] []).

(** ** Inserts in the log *)

(** The key and the value of a logged insert. *)
Definition insert_of (d : list byte) : list byte * list byte :=
  let len := Z.to_nat (un_le (take 4 d)) in
  (take len (drop 4 d), take (length d - 5 - len) (drop (4 + len) d)).

Definition ops_of (hist : list LogEntry) : list (list byte * list byte) := (λ e, insert_of (data e)) <$> hist.

(** The data of an insert, of at most [M] bytes. *)
Definition is_insert (M : Z) (d : list byte) : Prop :=
  ∃ key value, lenZ key + lenZ value + 5 < 2 ^ 32 ∧ lenZ key + lenZ value + 5 ≤ M ∧ d = insert_entry key value.

(** The answer to a read of a key after some inserts: a status, and the value if there is
    one. *)
Definition reply (ops : list (list byte * list byte)) (key : list byte) : list byte :=
  match latest ops key with Some v => le_bytes 4 0 ++ v | None => le_bytes 4 2 end.

Definition read_request (key : list byte) : buffer := msg_buf (le_bytes 4 (lenZ key) ++ key).

Lemma insert_of_entry key value : lenZ key < 2 ^ 32 → insert_of (insert_entry key value) = (key, value).
Proof.
  intros Hk. assert (length (insert_entry key value) = length key + length value + 5)%nat as Hl
    by (pose proof (insert_entry_length key value); lia).
  unfold insert_of. rewrite Hl. unfold insert_entry, insert_request.
  rewrite <- !app_assoc, take_app_length' by (by rewrite length_le). rewrite un_le_le by (of_nat_lit; lia).
  rewrite Nat2Z.id, drop_app_length' by (by rewrite length_le). rewrite take_app_length. f_equal.
  rewrite (app_assoc _ key), drop_app_length' by (rewrite length_app, length_le; lia).
  by rewrite take_app_length' by lia.
Qed.

Lemma play_op M m d : is_insert M d → play_entry m d = Some (<[(insert_of d).1 := (insert_of d).2]> m).
Proof. intros (key & value & Hlen & _ & ->). rewrite insert_of_entry by lia. by apply play_insert. Qed.

Lemma op_of_insert M d : is_insert M d → entry_op d = Some KV_INSERT.
Proof. intros (key & value & _ & _ & ->). apply insert_op. Qed.

Lemma latest_elem ops key v : latest ops key = Some v → (key, v) ∈ ops.
Proof.
  unfold latest. intros ([k v'] & Hl & ->)%fmap_Some. apply last_Some in Hl as [l Hl].
  assert ((k, v') ∈ filter (λ kv, kv.1 = key) ops) as [Hk Hin]%list_elem_of_filter by (rewrite Hl; set_solver).
  simpl in Hk. by subst.
Qed.

(** The values are small enough for a response buffer of [M] bytes. *)
Lemma latest_small M hist a key v :
  Forall (λ e, is_insert M (data e)) hist → latest (take a (ops_of hist)) key = Some v → lenZ v + 4 ≤ M.
Proof.
  intros HP Hv%latest_elem. apply elem_of_take in Hv as (i & Hi & _).
  unfold ops_of in Hi. rewrite list_lookup_fmap in Hi. destruct (hist !! i) as [e|] eqn:He; [|done].
  destruct (Forall_lookup_1 _ _ _ _ HP He) as (k & v' & H32 & HM & Hd). simpl in Hi. rewrite Hd, insert_of_entry in Hi by lia.
  injection Hi as -> ->. lia.
Qed.

Lemma ReadHandler_reply M hist a next resp key :
  Forall (λ e, is_insert M (data e)) hist → lenZ key < 2 ^ 32 → M ≤ bcap resp → 4 ≤ bcap resp →
  ∃ b m, ReadHandler (mkKV (replay (take a (ops_of hist))) next) resp (read_request key) = Some (b, m) ∧
    peek (rd (bmem b)) 0 (Z.to_nat m) = reply (take a (ops_of hist)) key.
Proof.
  intros HP Hkey HM H4. apply ReadHandler_latest; try done. intros v Hv. pose proof (latest_small _ _ _ _ _ HP Hv). lia.
Qed.

Lemma replay_next hist a e :
  hist !! a = Some e → replay (take (S a) (ops_of hist)) =
    <[(insert_of (data e)).1 := (insert_of (data e)).2]> (replay (take a (ops_of hist))).
Proof.
  intros He. rewrite (take_S_r _ _ (insert_of (data e))) by (unfold ops_of; by rewrite list_lookup_fmap, He).
  destruct (insert_of (data e)) as [key value]. apply replay_snoc.
Qed.

Lemma take_ops_app hist es a : (a ≤ length hist)%nat → take a (ops_of (hist ++ es)) = take a (ops_of hist).
Proof. intros Ha. unfold ops_of. rewrite fmap_app. apply take_app_le. by rewrite length_fmap. Qed.

(** ** Sending *)

Section Send.
Context `{Posix, Erpc, Rdma} (z : Z) (pri : string).

Lemma AppendEntryAsync_message d c e :
  conn_ok z pri (d, c) → entry_size e ≤ z → valid_entry e →
  ∃ c' bs, cli_AppendEntryAsync c e = Some (c', bs) ∧ carries e bs ∧ conn_ok z pri (d, c') ∧
    pending_reqs_ c' = pending_reqs_ c.
Proof.
  intros [Hcap Hpri] Hsz Hv. simpl in *. pose proof (entry_size_encode e) as Henc. unfold cli_AppendEntryAsync.
  rewrite (Serializer_ok e) by (try apply Hv; lia). simpl. set (b := bpoke (req_ c) 0 (encode e)).
  assert (bcap b = bcap (req_ c)) as Hb by done. rewrite send_ok by (pose proof (entry_size_pos e); lia). simpl.
  eexists _, _. split; [done|]. split; [|by split; [split; simpl|]].
  intros e0. apply (entry_message e e0 b); [done|apply peek_poke_same|lia].
Qed.

Lemma kv_send_ok ks e :
  Forall (conn_ok z pri) ks → entry_size e ≤ z → valid_entry e →
  ∃ ks' reqs, kv_send ks e = Some (ks', reqs) ∧ ks'.*1 = ks.*1 ∧ reqs.*1 = ks.*1 ∧
    Forall (conn_ok z pri) ks' ∧ Forall (λ dc, conn_complete dc.2 = false) ks' ∧ Forall (λ r, carries e r.2) reqs.
Proof.
  intros Hks Hsz Hv. induction Hks as [|[d c] ks Hc Hks IH]; cbn [kv_send].
  { exists [], []. split_and!; constructor. }
  destruct (AppendEntryAsync_message d c e Hc Hsz Hv) as (c' & bs & -> & Hbs & Hc' & Hp). simpl.
  destruct IH as (ks' & reqs & -> & Hk1 & Hk2 & Hok & Hcmp & Hcar). simpl. eexists _, _. split; [done|].
  rewrite !fmap_cons, Hk1, Hk2. split; [done|]. split; [done|]. split; [by constructor|]. split; [|by constructor].
  constructor; [|done]. unfold conn_complete. simpl. by rewrite lookup_insert_eq.
Qed.
End Send.

(** ** The invariant *)

Lemma drop_req_keys r (reqs : Conns (list byte)) d : d ∈ (drop_req r reqs).*1 ↔ d ∈ reqs.*1 ∧ d ≠ r.
Proof.
  induction reqs as [|[d' bs] reqs IH]; [set_solver|]. unfold drop_req in *. simpl.
  destruct (streq_spec r d') as [->|Hne]; simpl; rewrite ?fmap_cons; simpl; set_solver.
Qed.

Lemma Forall_drop_req (Q : string * list byte → Prop) r reqs : Forall Q reqs → Forall Q (drop_req r reqs).
Proof. intros Hq. induction Hq as [|q reqs Hq0 _ IH]; [constructor|]. unfold drop_req in *. simpl. by case_match; [constructor|]. Qed.

Lemma link_at_Some {L} d (ls : Conns L) : d ∈ ls.*1 → is_Some (link_at d ls).
Proof.
  induction ls as [|[d' l] ls IH]; simpl; [by intros ?%elem_of_nil|]. intros Hd.
  destruct (streq_spec d d') as [|Hne]; [done|]. apply IH. apply elem_of_cons in Hd as [->|?]; done.
Qed.

Lemma link_at_elem {L} d (ls : Conns L) l : link_at d ls = Some l → (d, l) ∈ ls.
Proof. intros (i & Hi & _)%link_at_lookup. by eapply list_elem_of_lookup_2. Qed.

Lemma link_at_set {L} d d' (l : L) ls :
  link_at d' (link_set d l ls) = if decide (d' = d) then (λ _, l) <$> link_at d ls else link_at d' ls.
Proof.
  induction ls as [|[d0 l0] ls IH]; simpl; [by case_decide|].
  destruct (streq_spec d d0) as [->|Hne]; simpl.
  - destruct (streq_spec d' d0) as [->|Hne']; [by rewrite decide_True|by rewrite decide_False].
  - destruct (streq_spec d' d0) as [->|Hne']; [by rewrite decide_False|]. exact IH.
Qed.

Lemma allCompleted_elem ts t : RPCToken.allCompleted ts = true → t ∈ ts → RPCToken.Complete t = true.
Proof.
  induction ts as [|t' ts IH]; simpl; [by intros _ ?%elem_of_nil|]. destruct (RPCToken.Complete t') eqn:Ht; [|done].
  simpl. intros Hall [->|Hin]%elem_of_cons; [done|by apply IH].
Qed.

Section Inv.
Context `{Posix, Erpc, Rdma} (M : Z) (clients : list Z) (pri : string).
Context (HM : M ≤ SAFE_RG_SIZE + 4) (Hclients : lenZ clients < 2 ^ 32).
Context (u n : nat) (cap : Z) (Hdims : dims M u n cap).
Context (Hcreate : ∀ p, may_create p = true) (Hwrite : ∀ j, write_len j = j).
Context (R : Z) (ip : nat) (keys : list string) (Hip : keys !! ip = Some pri).

Abbreviation sys_inv := (SystemView.sys_inv M clients pri u n cap R ip keys (λ e, is_insert M (data e))).

(** A thread that waits has a request for the primary under way or its payload is in the
    log. *)
Definition waiting_ok (ks : Conns ErpcCli) (hist : list LogEntry) (d : list byte) (reqs : Conns (list byte)) : Prop :=
  is_insert M d ∧ reqs.*1 ⊆ ks.*1 ∧
  Forall (λ r, ∃ e, carries e r.2 ∧ data e = d ∧ request_ok M e ∧ client_id e ∈ clients) reqs ∧
  (∀ r c, link_at r ks = Some c → r ∈ reqs.*1 → conn_complete c = false) ∧
  (pri ∈ reqs.*1 ∨ d ∈ data <$> hist).

(** A read has a key, and room for an answer. *)
Definition reading_ok (resp req : buffer) : Prop :=
  ∃ key, lenZ key < 2 ^ 32 ∧ req = read_request key ∧ M ≤ bcap resp ∧ 4 ≤ bcap resp.

Record thread_ok (hist : list LogEntry) (t : KvThread) : Prop := {
  tk_keys : NoDup (t_conns t).*1 ∧ (t_conns t).*1 ⊆ keys ∧ pri ∈ (t_conns t).*1;
  tk_conns : Forall (conn_ok M pri) (t_conns t);
  tk_id : t_client_id t ∈ clients ∧ 0 ≤ t_client_id t < 2 ^ 64;
  tk_seq : 0 ≤ t_seq t < 2 ^ 64;
  tk_pc : match t_pc t with
          | KIdle => True
          | KWaiting d reqs => waiting_ok (t_conns t) hist d reqs
          | KReading resp req => reading_ok resp req
          end
}.

(** The map is that of the first [a] inserts; the next turn begins at [lo]. *)
Definition played (pl : option Player) (kv : KV) (hist : list LogEntry) (a lo : nat) : Prop :=
  match pl_pc <$> pl with
  | None => a = 0%nat ∧ lo = 0%nat
  | Some PTurn => next_idx_ kv = Z.of_nat a ∧ lo = a
  | Some (PLoop i tail) => i = Z.of_nat a ∧ tail = Z.of_nat lo
  | Some (PEntry i tail d) | Some (PWrite i tail d) =>
      i = Z.of_nat a ∧ tail = Z.of_nat lo ∧ (a < lo)%nat ∧ data <$> hist !! a = Some d
  end.

(** The reads were answered after ever longer beginnings of the log, none longer than [a]. *)
Definition answered_from (hist : list LogEntry) (a : nat) (answers : list (buffer * list byte)) : Prop :=
  ∃ bs : list nat, StronglySorted le bs ∧ Forall (λ b, (b ≤ a)%nat) bs ∧
    Forall2 (λ r b, ∃ key, r.1 = read_request key ∧ r.2 = reply (take b (ops_of hist)) key) answers bs.

Record kv_inv (rem : nat) (s : KvSystem) (hist : list LogEntry) (a lo : nat) : Prop := {
  ki_sys : sys_inv lo rem (kv_cons s) (kv_pipe s) hist;
  ki_conn : ∀ pl, kv_player s = Some pl → ∃ z, cli_ready (pl_conn pl) z ∧ 4 ≤ z;
  ki_played : played (kv_player s) (kv_map s) hist a lo ∧ (a ≤ lo ≤ length hist)%nat;
  ki_store : kv_store_ (kv_map s) = replay (take a (ops_of hist));
  ki_threads : Forall (thread_ok hist) (kv_threads s);
  ki_acks : Forall (λ d, d ∈ data <$> hist) (kv_acks s);
  ki_answers : answered_from hist a (kv_answers s)
}.

Definition kaction_ok (a : kaction) : Prop :=
  match a with
  | KInsert _ b k => ∃ key value, k = lenZ (insert_request key value) ∧ k < bcap b ∧ k + 36 ≤ M ∧
      peek (rd (bmem b)) 0 (length (insert_request key value)) = insert_request key value
  | KReadBegin _ resp req => reading_ok resp req
  | KSystem ev => event_ok M clients ev ∧ ∀ reqs, ev ≠ PAppend reqs
  | _ => True
  end.

Lemma thread_grow hist hist' t : hist `prefix_of` hist' → thread_ok hist t → thread_ok hist' t.
Proof.
  intros [es ->] []. split; try done. destruct (t_pc t) as [|d reqs|resp req]; [done| |done].
  destruct tk_pc0 as (Hd & Hk & Hr & Hc & Hp). split_and!; try done. destruct Hp as [|Hin]; [by left|right].
  rewrite fmap_app. set_solver.
Qed.

(** *** Inserting *)

Lemma kv_insert_ok hist t b k :
  thread_ok hist t → kaction_ok (KInsert 0 b k) →
  match kv_insert t b k with Ok t' => thread_ok hist t' | Blocked => True | Fault => False end.
Proof.
  intros Ht (key & value & -> & Hb & HkM & Hpk). unfold kv_insert. destruct (t_pc t) as [|d0 reqs0|resp0 req0] eqn:Hpc; [|done..].
  rewrite insert_data_ok by done. cbn [lift mbind outcome_bind].
  pose proof (insert_entry_length key value) as Hil. set (d := insert_entry key value) in *.
  assert (lenZ (insert_request key value) = lenZ key + lenZ value + 4) as Hrl
    by (unfold insert_request; rewrite !length_app, length_le; lia).
  destruct (Sequencer.GetNextSeq (t_seq t)) as [sq q] eqn:Hsq. injection Hsq as <- <-.
  destruct Ht. destruct tk_id0 as [Hid Hidr].
  set (e := mkEntry (t_client_id t) (t_seq t) 0 (u32 (lenZ d)) 1 0 d).
  assert (valid_entry e ∧ entry_size e ≤ M) as [Hv Hsz].
  { unfold SAFE_RG_SIZE, PAGE_SIZE in HM. unfold valid_entry, wf_entry, entry_size, MetaDataSize, FlagPos.
    cbn [client_id client_seq log_idx size_ data flags view e]. rewrite u32_small by lia.
    pose proof (pad4_range (lenZ d)). split_and!; (done || lia). }
  destruct (kv_send_ok M pri (t_conns t) e tk_conns0 Hsz Hv) as (ks & reqs & -> & Hk1 & Hk2 & Hks & Hcmp & Hcar). simpl.
  split; simpl; rewrite ?Hk1; try done; [apply u64_range|].
  split_and!; try done.
  - exists key, value. unfold SAFE_RG_SIZE, PAGE_SIZE in HM. split_and!; [lia|lia|done].
  - by rewrite Hk1, Hk2.
  - eapply List.Forall_impl; [|exact Hcar]. intros r Hr. by exists e.
  - intros r c Hc _. apply link_at_elem in Hc. by apply (proj1 (Forall_forall _ _) Hcmp (r, c)).
  - left. rewrite Hk2. apply tk_keys0.
Qed.

(** *** Delivering *)

Lemma kv_deliver_ok lo rem cl p hist t r :
  sys_inv lo (S rem) cl p hist → thread_ok hist t →
  match kv_deliver t r cl with
  | Ok (t', cl') => ∃ es, sys_inv lo rem cl' p (hist ++ es) ∧ thread_ok (hist ++ es) t'
  | Blocked => True
  | Fault => False
  end.
Proof.
  intros Hs Ht. unfold kv_deliver. destruct (t_pc t) as [|d reqs|resp0 req0] eqn:Hpc; [done| |done].
  destruct (link_at r reqs) as [bs|] eqn:Hr; [|done].
  pose proof (tk_pc _ _ Ht) as Hw. rewrite Hpc in Hw. destruct Hw as (Hd & Hsub & Hcar & Hcmp & Hprim).
  pose proof (link_at_elem _ _ _ Hr) as Hin. pose proof (proj1 (Forall_forall _ _) Hcar _ Hin) as (e & Hbs & He & Hreq & Hcli).
  simpl in Hbs. assert (r ∈ reqs.*1) as Hrr by (by apply (list_elem_of_fmap_2 fst) in Hin).
  destruct (tk_keys _ _ Ht) as (Hnd & Hkeys & Hpk).
  destruct (conn_at M pri (t_conns t) r (tk_conns _ _ Ht) (Hsub _ Hrr)) as (c & Hc & Hcok & Hset).
  rewrite Hc. cbn [lift mbind outcome_bind].
  destruct (sys_handle M clients pri HM u n cap R ip keys Hip _ lo rem cl p hist r e bs Hs (Hkeys _ (Hsub _ Hrr)) Hbs Hreq Hcli)
    as (l & Hl & Happ); [intros i v; simpl; by rewrite He|].
  rewrite Hl. cbn [lift mbind outcome_bind]. change (dl_handle (l_resp l) (l_svr l) APPEND_ENTRY bs)
    with (AppendEntryHandler (l_resp l) (l_svr l) bs).
  destruct (AppendEntryHandler _ _ _) as [[st rs]| |]; [|done..]. destruct Happ as (h & hist' & _ & _ & Hs' & Hp & Hnp).
  cbn [mbind outcome_bind].
  assert (∃ es, hist' = hist ++ es ∧ (r = pri → d ∈ data <$> hist ++ es)) as (es & -> & Hes).
  { destruct (decide (r = pri)) as [Hrp|Hrp].
    - destruct (Hp Hrp) as [_ ->]. eexists. split; [done|]. intros _. rewrite fmap_app. simpl. rewrite He. set_solver.
    - rewrite (Hnp Hrp). exists []. by rewrite app_nil_r. }
  exists es. split; [done|]. destruct Ht. split; simpl; rewrite ?link_set_keys; try done; [by apply Hset|].
  split; [done|]. split; [|split; [by apply Forall_drop_req|split]].
  - intros x [Hx _]%drop_req_keys. rewrite link_set_keys. by apply Hsub.
  - intros x c' Hc' [Hx Hne]%drop_req_keys. rewrite link_at_set, decide_False in Hc' by done. by apply (Hcmp x).
  - destruct (decide (r = pri)) as [->|Hne]; [right; by apply Hes|]. destruct Hprim as [Hprim|Hprim].
    + left. apply drop_req_keys. split; [done|congruence].
    + right. rewrite fmap_app. set_solver.
Qed.

(** *** Returning *)

Lemma kv_return_ok hist t :
  thread_ok hist t →
  match kv_return t with
  | Ok (t', d) => thread_ok hist t' ∧ d ∈ data <$> hist
  | Blocked => True
  | Fault => False
  end.
Proof.
  intros Ht. unfold kv_return. destruct (t_pc t) as [|d reqs|resp0 req0] eqn:Hpc; [done| |done].
  destruct (RPCToken.allCompleted _) eqn:Hall; [|done]. pose proof (tk_pc _ _ Ht) as Hw. rewrite Hpc in Hw.
  destruct Hw as (_ & _ & _ & Hcmp & [Hpri|Hin]); cycle 1.
  { split; [|done]. destruct Ht. by split. }
  exfalso. destruct (tk_keys _ _ Ht) as (_ & _ & Hpk). destruct (link_at_Some _ _ Hpk) as [c Hc].
  specialize (Hcmp _ _ Hc Hpri). apply link_at_elem in Hc.
  assert (RPCToken.Complete (conn_complete c) = true) as Hct; [|by rewrite Hcmp in Hct].
  apply (allCompleted_elem _ _ Hall). by apply (list_elem_of_fmap_2 (λ dc : string * ErpcCli, conn_complete dc.2)) in Hc.
Qed.

(** *** Reading *)

Lemma DeserializeKey_request key : lenZ key < 2 ^ 32 → DeserializeKey (read_request key) = Some key.
Proof. intros Hk. pose proof (DeserializeKey_ok key [] Hk) as Hd. by rewrite app_nil_r in Hd. Qed.

Lemma kv_read_begin_ok hist t resp req :
  thread_ok hist t → reading_ok resp req →
  match kv_read_begin t resp req with Ok t' => thread_ok hist t' | Blocked => True | Fault => False end.
Proof.
  intros Ht Hr. unfold kv_read_begin. destruct (t_pc t) eqn:Hpc; [|done..].
  destruct Hr as (key & Hk & -> & Hcap). rewrite DeserializeKey_request by done. simpl. destruct Ht.
  split; try done. simpl. by exists key.
Qed.

(** A read that is under way ends with the answer from the current map. *)
Lemma kv_read_end_ok rem s hist a lo t :
  kv_inv rem s hist a lo → thread_ok hist t →
  if is_reading t then ∃ t' key, kv_read_end t (kv_map s) = Ok (t', (read_request key, reply (take a (ops_of hist)) key)) ∧
    thread_ok hist t' ∧ is_reading t' = false
  else kv_read_end t (kv_map s) = Blocked.
Proof.
  intros Hi Ht. unfold is_reading, kv_read_end. destruct (t_pc t) as [| |resp req] eqn:Hpc; [done..|].
  pose proof (tk_pc _ _ Ht) as Hr. rewrite Hpc in Hr. destruct Hr as (key & Hk & -> & HcM & Hc4).
  destruct (ki_sys _ _ _ _ _ Hi) as (_ & _ & _ & _ & _ & _ & _ & _ & _ & HP & _).
  destruct (kv_map s) as [m next] eqn:Hm. pose proof (ki_store _ _ _ _ _ Hi) as Hst. rewrite Hm in Hst. simpl in Hst. subst m.
  destruct (ReadHandler_reply M hist a next resp key HP Hk HcM Hc4) as (b & m & -> & Hans). simpl. rewrite Hans.
  eexists _, key. split; [done|]. split; [|done]. destruct Ht. by split.
Qed.

Lemma answered_snoc hist a answers key :
  answered_from hist a answers →
  answered_from hist a (answers ++ [(read_request key, reply (take a (ops_of hist)) key)]).
Proof.
  intros (bs & Hs & Hle & Hf). exists (bs ++ [a]). split_and!.
  - apply StronglySorted_app_2; [|done|repeat constructor]. intros x y Hx ->%list_elem_of_singleton.
    by apply (proj1 (Forall_forall _ _) Hle).
  - by apply Forall_app_2; [|constructor].
  - apply Forall2_app; [done|]. constructor; [|constructor]. by exists key.
Qed.

Lemma answered_grow hist es a a' answers :
  (a ≤ a')%nat → (a ≤ length hist)%nat → answered_from hist a answers → answered_from (hist ++ es) a' answers.
Proof.
  intros Ha Hlen (bs & Hs & Hle & Hf). exists bs. split_and!; [done| |].
  - eapply List.Forall_impl; [|exact Hle]. simpl. lia.
  - apply Forall2_same_length_lookup. split; [by apply Forall2_length in Hf|]. intros i r b Hr Hb.
    destruct (Forall2_lookup_lr _ _ _ _ _ _ Hf Hr Hb) as (key & Hk & Hans). exists key. split; [done|].
    pose proof (Forall_lookup_1 _ _ _ _ Hle Hb). simpl in *. by rewrite take_ops_app by lia.
Qed.

(** *** Playing *)

Lemma play_step_ok rem s pl hist a lo slow :
  kv_inv rem s hist a lo → kv_player s = Some pl →
  match play_step pri slow pl (kv_map s) (kv_cons s) with
  | Ok (pl, kv, cl) => ∃ a' lo', (a ≤ a')%nat ∧
      kv_inv rem (mkKvSystem cl (kv_pipe s) kv (Some pl) (kv_threads s) (kv_acks s) (kv_answers s)) hist a' lo'
  | Blocked => True
  | Fault => False
  end.
Proof.
  intros [] Hp. destruct (ki_conn0 _ Hp) as (z & Hc & Hz), ki_played0 as [Hpl Hle]. rewrite Hp in Hpl.
  unfold play_step, played in *. destruct pl as [c [|i tail|i tail d|i tail d]]; cbn [pl_pc pl_conn fmap option_fmap option_map] in *.
  - destruct Hpl as [Hn ->].
    destruct (sys_tail M clients pri u n cap R ip keys _ a rem _ _ _ c z ki_sys0 Hc Hz) as (l & k & c' & v & Hl & Hk & Hc' & Hget & Hs).
    rewrite Hl. cbn [lift mbind outcome_bind]. rewrite Hget. cbn [mbind outcome_bind]. exists a, k. split; [lia|].
    rewrite (unchanged_server _ _ _ Hl). split; simpl; try done. intros pl [= <-]. by exists z.
  - destruct Hpl as [-> ->]. destruct (Z.of_nat a <? Z.of_nat lo) eqn:Hlt; cycle 1.
    { apply Z.ltb_ge in Hlt. assert (lo = a) as -> by lia. exists a, a. split; [lia|]. split; simpl; try done.
      intros pl [= <-]. by exists z. }
    apply Z.ltb_lt in Hlt. destruct (sys_primary M clients pri u n cap R _ _ _ _ _ _ _ _ ki_sys0) as (l & k1 & _ & Hr & _).
    pose proof (rp_len _ _ _ _ Hr).
    pose proof (sys_read M clients pri u n cap Hdims R ip keys _ lo rem _ _ hist slow (Z.of_nat a) LogEntry_default
      ki_sys0 ltac:(lia)) as Hrd.
    destruct (be_ReadEntry _ _ _ _) as [[[be b] e]| |]; [|done..]. destruct Hrd as [He Hs]. cbn [mbind outcome_bind].
    rewrite Nat2Z.id in He. exists a, lo. split; [lia|]. split; simpl; try done.
    + intros pl [= <-]. by exists z.
    + unfold played. simpl. rewrite <- list_lookup_fmap. split; [split_and!; (done || lia)|lia].
  - destruct Hpl as (-> & -> & Hlt & Hd).
    destruct ki_sys0 as (m & gs & k0 & qs & k & Hi & Hb & Hg & Hlo & HP & Hk). apply fmap_Some in Hd as (e & He & ->).
    rewrite (op_of_insert M) by (by apply (Forall_lookup_1 _ _ _ _ HP He)). cbn [lift mbind outcome_bind]. rewrite Z.eqb_refl.
    exists a, lo. split; [lia|]. split; simpl; try done.
    + by exists m, gs, k0, qs, k.
    + intros pl [= <-]. by exists z.
    + unfold played. simpl. rewrite He. done.
  - destruct Hpl as (-> & -> & Hlt & Hd).
    destruct ki_sys0 as (m & gs & k0 & qs & k & Hi & Hb & Hg & Hlo & HP & Hk). apply fmap_Some in Hd as (e & He & ->).
    rewrite (play_op M) by (by apply (Forall_lookup_1 _ _ _ _ HP He)). cbn [lift mbind outcome_bind].
    exists (S a), lo. split; [lia|]. split; simpl; try done.
    + by exists m, gs, k0, qs, k.
    + intros pl [= <-]. by exists z.
    + unfold played. simpl. split; [split; [lia|done]|lia].
    + by rewrite (replay_next _ _ _ He), ki_store0.
    + rewrite <- (app_nil_r hist). apply (answered_grow hist [] a); (done || lia).
Qed.

(** ** Runs *)

Lemma played_grow pl kv hist es a lo : played pl kv hist a lo → played pl kv (hist ++ es) a lo.
Proof.
  assert (∀ d, data <$> hist !! a = Some d → data <$> (hist ++ es) !! a = Some d) as Hgrow.
  { intros d (e & He & ->)%fmap_Some. by rewrite (lookup_app_l_Some _ _ _ _ He). }
  unfold played. destruct (pl_pc <$> pl) as [[|i tail|i tail d|i tail d]|]; naive_solver.
Qed.

Lemma kv_grow rem cl p kv pl ts ks acks ans hist es a lo :
  kv_inv (S rem) (mkKvSystem cl p kv pl ts acks ans) hist a lo → ∀ cl',
  sys_inv lo rem cl' p (hist ++ es) → Forall (thread_ok (hist ++ es)) ks →
  kv_inv rem (mkKvSystem cl' p kv pl ks acks ans) (hist ++ es) a lo.
Proof.
  intros [] cl' Hs Hks. simpl in *. split; simpl; try done.
  - destruct ki_played0. split; [by apply played_grow|]. rewrite length_app. lia.
  - rewrite take_ops_app by lia. done.
  - eapply List.Forall_impl; [|exact ki_acks0]. intros d Hd. rewrite fmap_app. set_solver.
  - by apply (answered_grow hist es a); [lia..|].
Qed.

Lemma kv_weaken rem s hist a lo : kv_inv (S rem) s hist a lo → kv_inv rem s hist a lo.
Proof. intros []. split; try done. eapply sys_weaken; [|done]. lia. Qed.

(** A thread in another state that is in order. *)
Lemma kv_thread_ok rem s hist a lo j t :
  kv_inv rem s hist a lo → thread_ok hist t → kv_inv rem (with_kv_thread j t s) hist a lo.
Proof. intros [] Ht. split; simpl; try done. by apply Forall_insert. Qed.

(** Only a race makes a step fail. *)
Lemma kstep_ok rem s hist a lo act :
  kv_inv (S rem) s hist a lo → kaction_ok act → races act s = false →
  match kstep pri act s with
  | Ok s' => ∃ es a' lo', kv_inv rem s' (hist ++ es) a' lo' ∧ (kv_player s' = None ↔ kv_player s = None)
  | Blocked => True
  | Fault => False
  end.
Proof.
  intros Hi Hact Hrace. pose proof (kv_weaken _ _ _ _ _ Hi) as Hi0. pose proof (ki_threads _ _ _ _ _ Hi) as Hts.
  unfold kstep. rewrite Hrace. destruct act as [j b k|j r|j|j resp req|j|slow|ev].
  - destruct (kv_threads s !! j) as [t|] eqn:Ht; [|done]. pose proof (Forall_lookup_1 _ _ _ _ Hts Ht) as Htk.
    pose proof (kv_insert_ok hist t b k Htk Hact) as Hok. destruct (kv_insert t b k) as [t'| |]; [|done..]. simpl.
    exists [], a, lo. rewrite app_nil_r. split; [by apply kv_thread_ok|done].
  - destruct (kv_threads s !! j) as [t|] eqn:Ht; [|done]. pose proof (Forall_lookup_1 _ _ _ _ Hts Ht) as Htk.
    pose proof (kv_deliver_ok lo rem (kv_cons s) (kv_pipe s) hist t r (ki_sys _ _ _ _ _ Hi) Htk) as Hok.
    destruct (kv_deliver t r _) as [[t' cl']| |]; [|done..]. destruct Hok as (es & Hs & Ht'). simpl. exists es, a, lo.
    split; [|done]. destruct s. eapply kv_grow; [exact Hi|done|]. apply Forall_insert; [|done].
    eapply List.Forall_impl; [|exact Hts]. intros t0. apply thread_grow. by exists es.
  - destruct (kv_threads s !! j) as [t|] eqn:Ht; [|done]. pose proof (Forall_lookup_1 _ _ _ _ Hts Ht) as Htk.
    pose proof (kv_return_ok hist t Htk) as Hok. destruct (kv_return t) as [[t' d]| |]; [|done..]. simpl.
    destruct Hok as [Ht' Hd]. exists [], a, lo. rewrite app_nil_r. split; [|done]. destruct Hi0. split; simpl; try done.
    + by apply Forall_insert.
    + apply Forall_app_2; [done|]. by apply Forall_singleton.
  - destruct (kv_threads s !! j) as [t|] eqn:Ht; [|done]. pose proof (Forall_lookup_1 _ _ _ _ Hts Ht) as Htk.
    pose proof (kv_read_begin_ok hist t resp req Htk Hact) as Hok. destruct (kv_read_begin t resp req) as [t'| |]; [|done..].
    simpl. exists [], a, lo. rewrite app_nil_r. split; [by apply kv_thread_ok|done].
  - destruct (kv_threads s !! j) as [t|] eqn:Ht; [|done]. pose proof (Forall_lookup_1 _ _ _ _ Hts Ht) as Htk.
    pose proof (kv_read_end_ok rem s hist a lo t Hi0 Htk) as Hok. destruct (is_reading t); [|by rewrite Hok].
    destruct Hok as (t' & key & -> & Ht' & _). simpl. exists [], a, lo. rewrite app_nil_r. split; [|done].
    destruct Hi0. split; simpl; try done; [by apply Forall_insert|by apply answered_snoc].
  - destruct (kv_player s) as [pl|] eqn:Hpl; [|done].
    pose proof (play_step_ok rem s pl hist a lo slow Hi0 Hpl) as Hok.
    destruct (play_step _ _ _ _ _) as [[[pl' kv] cl]| |]; [|done..]. destruct Hok as (a' & lo' & _ & Hok). simpl.
    exists [], a', lo'. rewrite app_nil_r. by split.
  - destruct Hact as [Hev Hna].
    pose proof (sys_step M clients pri HM Hclients u n cap Hdims Hcreate Hwrite R ip keys _ lo rem _ _ hist ev
      (ki_sys _ _ _ _ _ Hi0) Hev Hna) as Hok.
    destruct (pipe_step ev _ _) as [[cl p]| |]; [|done..]. simpl. exists [], a, lo. rewrite app_nil_r.
    split; [|done]. destruct Hi0. by split.
Qed.

Lemma krun_ok acts rem s hist a lo :
  kv_inv (length acts + rem) s hist a lo → Forall kaction_ok acts → kraces pri acts s = false →
  ∃ s' es a' lo', krun pri acts s = Ok s' ∧ kv_inv rem s' (hist ++ es) a' lo' ∧ (kv_player s' = None ↔ kv_player s = None).
Proof.
  revert s hist a lo. induction acts as [|act acts IH]; intros s hist a lo Hi Hacts Hr; cbn [krun kraces length Nat.add] in *.
  { exists s, [], a, lo. by rewrite app_nil_r. }
  apply orb_false_iff in Hr as [Hr Hrs].
  apply Forall_cons in Hacts as [Hact Hacts]. pose proof (kstep_ok _ s hist a lo act Hi Hact Hr) as Hok.
  destruct (kstep pri act s) as [s1| |]; [| |done].
  - destruct Hok as (es & a1 & lo1 & Hi1 & Hp1).
    destruct (IH s1 _ a1 lo1 Hi1 Hacts Hrs) as (s' & es' & a' & lo' & Hrun & Hi' & Hp').
    exists s', (es ++ es'), a', lo'. rewrite app_assoc. split_and!; [done..|]. by rewrite Hp'.
  - apply (IH s hist a lo); [|done..]. by apply kv_weaken.
Qed.

(** A race is the end. *)
Lemma kraces_fault acts s : kraces pri acts s = true → krun pri acts s = Fault.
Proof.
  revert s. induction acts as [|act acts IH]; intros s; cbn [kraces krun]; [done|].
  destruct (races act s) eqn:Hr; cbn [orb]; [intros _; unfold kstep; by rewrite Hr|].
  destruct (kstep pri act s); [apply IH|apply IH|done].
Qed.

(** Without a playing thread nothing is written. *)
Lemma no_player_no_race act s : kv_player s = None → races act s = false.
Proof.
  intros Hp. destruct act as [| | |j resp req| |slow|]; try done; unfold races, writing, begins_write; rewrite Hp; simpl; [|done].
  by destruct (t_pc <$> _) as [[]|].
Qed.

Lemma no_player_step act s s' : kv_player s = None → kstep pri act s = Ok s' → kv_player s' = None.
Proof.
  intros Hp. unfold kstep. rewrite no_player_no_race by done. destruct act as [j b k|j r|j|j resp req|j|slow|ev]; rewrite ?Hp; try done.
  1-5: destruct (kv_threads s !! j) as [t|]; [|done]; match goal with |- (?x ≫= _) = _ → _ => destruct x as [y| |] end;
    try done; cbn [mbind outcome_bind]; try destruct y; by intros [= <-].
  destruct (pipe_step _ _ _) as [[cl p]| |]; try done. by intros [= <-].
Qed.

Lemma no_player_run acts s : kv_player s = None → kraces pri acts s = false.
Proof.
  revert s. induction acts as [|act acts IH]; intros s Hp; cbn [kraces]; [done|]. rewrite no_player_no_race by done. simpl.
  destruct (kstep pri act s) eqn:Hs; [|by apply IH|done]. apply IH. by eapply no_player_step.
Qed.

(** ** Catching up *)

(** Steps that serve no new request. *)
Definition background (act : kaction) : Prop :=
  match act with
  | KPlay _ | KReadEnd _ => True
  | KSystem ev => event_appends ev = 0%nat
  | _ => False
  end.

Lemma krun_app acts1 acts2 s s1 : krun pri acts1 s = Ok s1 → krun pri (acts1 ++ acts2) s = krun pri acts2 s1.
Proof.
  revert s. induction acts1 as [|act acts1 IH]; intros s; simpl; [by intros [= ->]|].
  destruct (kstep pri act s); [by apply IH..|done].
Qed.

Lemma krun_system evs s cl p :
  pipe_run evs (kv_cons s) (kv_pipe s) = Ok (cl, p) →
  krun pri (KSystem <$> evs) s = Ok (mkKvSystem cl p (kv_map s) (kv_player s) (kv_threads s) (kv_acks s) (kv_answers s)).
Proof.
  revert s. induction evs as [|ev evs IH]; intros s Hrun; simpl in *.
  - injection Hrun as <- <-. by destruct s.
  - unfold kstep. cbn [races]. destruct (pipe_step ev _ _) as [[cl1 p1]| |]; [|by apply IH|done]. simpl.
    exact (IH (mkKvSystem cl1 p1 (kv_map s) (kv_player s) (kv_threads s) (kv_acks s) (kv_answers s)) Hrun).
Qed.

(** The reads that are under way end. *)
Lemma end_reads js rem s hist a lo :
  kv_inv rem s hist a lo →
  ∃ ts ans, let s' := mkKvSystem (kv_cons s) (kv_pipe s) (kv_map s) (kv_player s) ts (kv_acks s) ans in
    krun pri (KReadEnd <$> js) s = Ok s' ∧ kv_inv rem s' hist a lo ∧
    (∀ j t, ts !! j = Some t → is_reading t = true → kv_threads s !! j = Some t ∧ j ∉ js).
Proof.
  revert s. induction js as [|j js IH]; intros s Hi.
  { exists (kv_threads s), (kv_answers s). destruct s. split; [done|]. split; [done|]. intros j t Ht _. by split; [|apply not_elem_of_nil]. }
  rewrite fmap_cons. cbn [krun]. unfold kstep. cbn [races].
  assert ((∀ t, kv_threads s !! j = Some t → is_reading t = false) →
    ∃ ts ans, let s' := mkKvSystem (kv_cons s) (kv_pipe s) (kv_map s) (kv_player s) ts (kv_acks s) ans in
    krun pri (KReadEnd <$> js) s = Ok s' ∧ kv_inv rem s' hist a lo ∧
    (∀ j' t, ts !! j' = Some t → is_reading t = true → kv_threads s !! j' = Some t ∧ j' ∉ j :: js)) as Hskip.
  { intros Hnr. destruct (IH s Hi) as (ts & ans & Hrun & Hi' & Hts). exists ts, ans. split; [done|]. split; [done|].
    intros j' t Ht Hr. destruct (Hts j' t Ht Hr) as [Hs Hn]. split; [done|]. intros [->|?]%elem_of_cons; [|done].
    specialize (Hnr t Hs). congruence. }
  destruct (kv_threads s !! j) as [t|] eqn:Ht; [|by apply Hskip].
  pose proof (Forall_lookup_1 _ _ _ _ (ki_threads _ _ _ _ _ Hi) Ht) as Htk.
  pose proof (kv_read_end_ok rem s hist a lo t Hi Htk) as Hok. destruct (is_reading t) eqn:Hrt; cycle 1.
  { rewrite Hok. cbn [mbind outcome_bind]. apply Hskip. intros t' [= <-]. done. }
  destruct Hok as (t' & key & -> & Ht' & Hnr). cbn [mbind outcome_bind].
  set (s1 := mkKvSystem _ _ _ _ (<[j := t']> (kv_threads s)) _ _).
  assert (kv_inv rem s1 hist a lo) as Hi1.
  { destruct Hi. split; simpl; try done; [by apply Forall_insert|by apply answered_snoc]. }
  destruct (IH s1 Hi1) as (ts & ans & Hrun & Hi' & Hts). exists ts, ans. split; [done|]. split; [done|].
  intros j' t0 Ht0 Hr0. destruct (Hts j' t0 Ht0 Hr0) as [Hs Hn]. simpl in Hs. destruct (decide (j' = j)) as [->|Hne].
  - apply lookup_lt_Some in Ht. rewrite list_lookup_insert_eq in Hs by done. congruence.
  - rewrite list_lookup_insert_ne in Hs by done. split; [done|]. by intros [->|?]%elem_of_cons.
Qed.

Abbreviation sys_done := (SystemView.sys_done M clients pri u n cap R ip).

Section Turn.
Context (p : Pipeline) (hist : list LogEntry) (c : ErpcCli) (ts : list KvThread) (acks : list (list byte)).
Context (ans : list (buffer * list byte)) (Hnr : existsb is_reading ts = false).
Context (HP : Forall (λ e, is_insert M (data e)) hist).

(** The store when the first [a] inserts are in the map, with the playing thread at [pc]. *)
Abbreviation at_pc cl a next pc :=
  (mkKvSystem cl p (mkKV (replay (take a (ops_of hist))) next) (Some (mkPlayer c pc)) ts acks ans).

(** The data of an entry is put into the map. *)
Lemma write_entry cl a lo next e acts :
  hist !! a = Some e →
  krun pri (KPlay false :: acts) (at_pc cl a next (PWrite (Z.of_nat a) lo (data e))) =
  krun pri acts (at_pc cl (S a) next (PLoop (Z.of_nat (S a)) lo)).
Proof.
  intros He. cbn [krun]. unfold kstep, races, begins_write, play_step. cbn [kv_player kv_map kv_cons pl_pc fmap option_fmap option_map andb].
  cbn [pl_pc pl_conn kv_store_ next_idx_]. rewrite (play_op M _ _ (Forall_lookup_1 _ _ _ _ HP He)). cbn [lift mbind outcome_bind].
  rewrite <- (replay_next _ _ _ He). by replace (Z.of_nat a + 1) with (Z.of_nat (S a)) by lia.
Qed.

Lemma begin_entry cl a lo next e acts :
  hist !! a = Some e →
  krun pri (KPlay false :: KPlay false :: acts) (at_pc cl a next (PEntry (Z.of_nat a) lo (data e))) =
  krun pri acts (at_pc cl (S a) next (PLoop (Z.of_nat (S a)) lo)).
Proof.
  intros He. rewrite <- (write_entry cl a lo next e acts He). remember (KPlay false :: acts) as rest. cbn [krun].
  unfold kstep, races, reading, play_step. cbn [kv_player kv_map kv_cons kv_threads pl_pc pl_conn]. rewrite Hnr, andb_false_r.
  cbn [pl_pc]. rewrite (op_of_insert M _ (Forall_lookup_1 _ _ _ _ HP He)). cbn [lift mbind outcome_bind]. by rewrite Z.eqb_refl.
Qed.

(** The rest of a turn, when all entries can be read. *)
Lemma finish_turn k cl a lo next :
  sys_done cl p hist → (a + k = lo)%nat → (lo ≤ length hist)%nat →
  ∃ cl', sys_done cl' p hist ∧
    krun pri (replicate (S (3 * k)) (KPlay false)) (at_pc cl a next (PLoop (Z.of_nat a) (Z.of_nat lo))) =
    Ok (at_pc cl' lo (Z.of_nat lo) PTurn).
Proof.
  revert cl a. induction k as [|k IH]; intros cl a Hd Hk Hlo.
  - rewrite replicate_S. cbn [Nat.mul replicate krun]. unfold kstep, races, begins_write, play_step.
    cbn [kv_player kv_map kv_cons pl_pc pl_conn kv_store_ fmap option_fmap option_map andb]. replace lo with a by lia. rewrite Z.ltb_irrefl. by exists cl.
  - replace (S (3 * S k))%nat with (S (S (S (S (3 * k)))))%nat by lia. do 3 rewrite (replicate_S _ (KPlay false)).
    destruct (lookup_lt_is_Some_2 hist a) as [e He]; [lia|].
    destruct (sys_done_read M clients pri u n cap Hdims R ip cl p hist false a e LogEntry_default Hd He) as (be & Hrd & Hd').
    destruct (IH (with_backend cl be) (S a) Hd' ltac:(lia) Hlo) as (cl' & Hcl' & Hrun). exists cl'. split; [done|].
    rewrite <- Hrun, <- (begin_entry (with_backend cl be) a (Z.of_nat lo) next e _ He).
    remember (KPlay false :: KPlay false :: replicate (S (3 * k)) (KPlay false)) as rest. cbn [krun]. unfold kstep, races, begins_write, play_step.
    cbn [kv_player kv_map kv_cons pl_pc pl_conn fmap option_fmap option_map andb]. rewrite (proj2 (Z.ltb_lt _ _)) by lia. by rewrite Hrd.
Qed.

(** From anywhere in a turn to its end. *)
Lemma to_turn cl a lo next pc :
  sys_done cl p hist → played (Some (mkPlayer c pc)) (mkKV (replay (take a (ops_of hist))) next) hist a lo →
  (a ≤ lo ≤ length hist)%nat →
  ∃ acts cl' b, Forall background acts ∧ (b ≤ length hist)%nat ∧ sys_done cl' p hist ∧
    krun pri acts (at_pc cl a next pc) = Ok (at_pc cl' b (Z.of_nat b) PTurn).
Proof.
  intros Hd Hp Hle. unfold played in Hp. cbn in Hp. destruct pc as [|i tail|i tail d|i tail d].
  - destruct Hp as [-> ->]. exists [], cl, a. split; [constructor|]. split; [lia|done].
  - destruct Hp as [-> ->]. destruct (finish_turn (lo - a) cl a lo next Hd ltac:(lia) ltac:(lia)) as (cl' & Hd' & Hrun).
    eexists _, cl', lo. split; [|by split; [lia|]]. by apply Forall_replicate.
  - destruct Hp as (-> & -> & Hlt & (e & He & ->)%fmap_Some).
    destruct (finish_turn (lo - S a) cl (S a) lo next Hd ltac:(lia) ltac:(lia)) as (cl' & Hd' & Hrun).
    rewrite <- (begin_entry cl a _ next e _ He) in Hrun.
    eexists _, cl', lo. split; [|by split; [lia|]]. do 2 (constructor; [done|]). by apply Forall_replicate.
  - destruct Hp as (-> & -> & Hlt & (e & He & ->)%fmap_Some).
    destruct (finish_turn (lo - S a) cl (S a) lo next Hd ltac:(lia) ltac:(lia)) as (cl' & Hd' & Hrun).
    rewrite <- (write_entry cl a _ next e _ He) in Hrun.
    eexists _, cl', lo. split; [|by split; [lia|]]. constructor; [done|]. by apply Forall_replicate.
Qed.
End Turn.

Lemma kv_catches_up s hist a lo :
  kv_inv 0 s hist a lo → kv_player s ≠ None → started (kv_cons s) →
  max_fetch_size_ (kv_cons s) = 0 ∨ M ≤ max_fetch_size_ (kv_cons s) →
  ∃ more s', Forall background more ∧ krun pri more s = Ok s' ∧
    kv_store_ (kv_map s') = replay (ops_of hist) ∧ kv_acks s' = kv_acks s.
Proof.
  intros Hi Hpl Hst Hmax. destruct (decide (hist = [])) as [->|Hne].
  { exists [], s. split; [constructor|]. split; [done|]. split; [|done]. rewrite (ki_store _ _ _ _ _ Hi). by destruct a. }
  destruct (end_reads (seq 0 (length (kv_threads s))) _ _ _ _ _ Hi) as (ts & ans & Hrun0 & Hi0 & Hts).
  assert (existsb is_reading ts = false) as Hnr.
  { apply not_true_is_false. intros (t & Hin & Hr)%existsb_exists. apply list_elem_of_In, list_elem_of_lookup in Hin as [j Hj].
    destruct (Hts j t Hj Hr) as [Hs Hn]. apply Hn, elem_of_seq. apply lookup_lt_Some in Hs. lia. }
  pose proof (ki_sys _ _ _ _ _ Hi0) as Hsys. cbn [kv_cons kv_pipe] in Hsys.
  destruct (sys_drain M clients pri HM Hclients u n cap Hdims Hcreate Hwrite R _ _ _ _ _ _ _ _ Hsys Hst Hne Hmax)
    as (evs & cl1 & p1 & Hevs & Hrun1 & Hd1).
  destruct Hsys as (_ & _ & _ & _ & _ & _ & _ & _ & _ & HP & _).
  destruct (ki_played _ _ _ _ _ Hi0) as [Hp Hle]. destruct (kv_player s) as [[c pc]|] eqn:Hps; [|done].
  destruct (ki_conn _ _ _ _ _ Hi0 _ eq_refl) as (z & Hc & Hz). pose proof (ki_store _ _ _ _ _ Hi0) as Hstore.
  cbn in Hp, Hc, Hstore. clear Hi Hi0 Hts. destruct (kv_map s) as [m next]. cbn in Hstore. subst m.
  set (s1 := mkKvSystem (kv_cons s) (kv_pipe s) _ _ ts _ ans) in Hrun0.
  pose proof (krun_system evs s1 cl1 p1 Hrun1) as Hrun1'. unfold s1 in Hrun1'. cbn [kv_map kv_player kv_threads kv_acks kv_answers] in Hrun1'.
  destruct (to_turn p1 hist c ts (kv_acks s) ans Hnr HP cl1 a lo next pc Hd1 Hp ltac:(lia)) as (acts2 & cl2 & b & Hacts2 & Hb & Hd2 & Hrun2).
  destruct (sys_done_tail M clients pri u n cap R ip cl2 p1 hist c z Hd2 Hc Hz) as (l & c' & v & Hl & Hc' & Hget).
  destruct (finish_turn p1 hist c' ts (kv_acks s) ans Hnr HP (length hist - b) cl2 b (length hist) (Z.of_nat b) Hd2 ltac:(lia) ltac:(lia))
    as (cl3 & _ & Hrun3).
  exists ((KReadEnd <$> seq 0 (length (kv_threads s))) ++ (KSystem <$> evs) ++ acts2 ++ [KPlay false] ++ replicate (S (3 * (length hist - b))) (KPlay false)).
  eexists. split; [|split].
  - apply Forall_app_2; [by apply Forall_fmap, Forall_seq|].
    apply Forall_app_2; [apply Forall_fmap; by eapply List.Forall_impl; [|exact Hevs]|].
    apply Forall_app_2; [done|]. constructor; [done|]. by apply Forall_replicate.
  - rewrite (krun_app _ _ _ _ Hrun0), (krun_app _ _ _ _ Hrun1'), (krun_app _ _ _ _ Hrun2).
    remember (replicate _ _) as rest. cbn [app krun]. unfold kstep, races, begins_write, play_step.
    cbn [kv_player kv_map kv_cons pl_pc pl_conn fmap option_fmap option_map andb]. rewrite Hl. cbn [lift mbind outcome_bind]. rewrite Hget.
    cbn [mbind outcome_bind next_idx_]. rewrite (unchanged_server _ _ _ Hl). exact Hrun3.
  - simpl. split; [|done]. by rewrite firstn_all2 by (unfold ops_of; by rewrite length_fmap).
Qed.
End Inv.

(** ** Claims *)

(** The clients of the store: one per server thread, and the one of the thread that plays
    the log, of which only the connection to the primary is used. *)
Record kv_ok (M : Z) (clients : list Z) (pri : string) (keys : list string) (p : Properties)
    (cli : Z → Conns ErpcCli * Z) (pl : ErpcCli) : Prop := {
  ko_threads : is_Some (stoi (GetProperty p "threadcount" "1"));
  ko_cli : ∀ i, 0 ≤ i → client_up M clients pri keys (cli i);
  ko_player : ∃ c, client_up M clients pri keys c ∧ link_at pri c.1 = Some pl
}.

Lemma kv_start_ok `{Posix, Erpc, Rdma} M clients pri u n cap R ip keys p cli pl cl rem :
  sys_inv M clients pri u n cap R ip keys (λ e, is_insert M (data e)) 0 rem cl Pipeline_init [] →
  kv_ok M clients pri keys p cli pl →
  ∃ s, kv_start p cli pl cl = Some s ∧ kv_inv M clients pri u n cap R ip keys rem s [] 0 0 ∧
    (kv_player s ≠ None ↔ GetProperty p "reader" "false" = "true"%string).
Proof.
  intros Hs [[n_th Hn] Hcli (c & Hc & Hpl)]. unfold kv_start. rewrite Hn. cbn [mbind option_bind]. eexists. split; [done|].
  split; [split; simpl|].
  - done.
  - intros pl' Hpl'. destruct (streq _ _); [|done]. injection Hpl' as <-. simpl.
    destruct (client_up_conns _ _ _ _ _ Hc) as (_ & _ & _ & _ & Hready). apply link_at_elem in Hpl.
    exact (proj1 (Forall_forall _ _) Hready _ Hpl).
  - by destruct (streq _ _).
  - done.
  - apply Forall_fmap, Forall_seq. intros i _. simpl. pose proof (Hcli (Z.of_nat i) ltac:(lia)) as Hci.
    destruct (client_up_conns _ _ _ _ _ Hci) as (Hnd & Hsub & Hpri & Hconn & _). split; simpl; try done.
    exact (cu_id _ _ _ _ _ Hci).
  - constructor.
  - exists []. split_and!; constructor.
  - simpl. destruct (streq_spec (GetProperty p "reader" "false") "true"); naive_solver.
Qed.

(** C8. The key-value store over the whole system.  Server threads insert and read, the
    playing thread, which only a store with the property [reader] has, reads the log, the
    consensus log runs, in any interleaving.  The one thing that fails is a race: an access
    to the map [kv_store_] that begins while a conflicting one of another thread is under
    way, which needs a playing thread.  Without a race the run succeeds, and then: the reads
    were answered as after some beginnings of the primary's log, later ones after no shorter
    ones, and the next read will be; every insert that was acknowledged is in the log of the
    primary; a store that is not a reader has only the empty beginning; and in a reader,
    without further requests, the consensus log and the playing thread can go on until the map
    reflects the whole log, provided the fetch bound is zero or at least [M]. *)
Theorem kv_follows_log `{Posix, Erpc, Rdma} M clients pri u n cap mr msg pc replica shard raw env env' cl p cli pl acts :
  M ≤ SAFE_RG_SIZE + 4 → lenZ clients < 2 ^ 32 → dims M u n cap →
  (∀ p, may_create p = true) → (∀ j, write_len j = j) →
  cluster_ok M clients pri u n cap mr msg pc replica shard →
  ConsensusLog_Initialize pc replica shard raw env = Ok (env', Some cl) →
  kv_ok M clients pri (replica_uris pc) p cli pl → Forall (kaction_ok M clients) acts → Z.of_nat (length acts) < 2 ^ 32 →
  ∃ s0, kv_start p cli pl cl = Some s0 ∧
    (kraces pri acts s0 = true → GetProperty p "reader" "false" = "true"%string ∧ krun pri acts s0 = Fault) ∧
    (kraces pri acts s0 = false → ∃ s l hist k a, krun pri acts s0 = Ok s ∧
      link_at pri (dur_cli_ (kv_cons s)) = Some l ∧ flat_repr (l_svr l) hist k ∧
      answered_from hist a (kv_answers s) ∧
      (writing s = false → ∀ resp key, lenZ key < 2 ^ 32 → M ≤ bcap resp → 4 ≤ bcap resp →
         ∃ b m, ReadHandler (kv_map s) resp (read_request key) = Some (b, m) ∧
           peek (rd (bmem b)) 0 (Z.to_nat m) = reply (take a (ops_of hist)) key) ∧
      (∀ d, d ∈ kv_acks s → ∃ key value, d = insert_entry key value ∧ (key, value) ∈ ops_of hist) ∧
      (GetProperty p "reader" "false" ≠ "true"%string → a = 0%nat) ∧
      (GetProperty p "reader" "false" = "true"%string → started (kv_cons s) →
       max_fetch_size_ (kv_cons s) = 0 ∨ M ≤ max_fetch_size_ (kv_cons s) →
       ∃ more s', Forall background more ∧ krun pri more s = Ok s' ∧
         kv_store_ (kv_map s') = replay (ops_of hist) ∧ kv_acks s' = kv_acks s)).
Proof.
  intros HM Hcl Hd Hcr Hw Hco Hini Hkv Hacts Hlen.
  destruct (sys_start _ _ _ _ _ _ _ _ _ _ _ _ _ _ _ (λ e, is_insert M (data e)) (length acts + 0) Hco Hini ltac:(lia))
    as (ip & Hip & Hsys).
  destruct (kv_start_ok _ _ _ _ _ _ _ _ _ _ _ _ _ _ Hsys Hkv) as (s0 & Hs0 & Hi0 & Hrd).
  exists s0. split; [done|]. split.
  { intros Hr. split; [|by apply kraces_fault]. apply Hrd. intros Hn. by rewrite (no_player_run pri acts s0 Hn) in Hr. }
  intros Hr. destruct (krun_ok M clients pri HM Hcl u n cap Hd Hcr Hw _ _ _ Hip acts 0 s0 [] 0 0 Hi0 Hacts Hr)
    as (s & hist & a & lo & Hrun & Hi & Hpl). simpl in Hi.
  pose proof (ki_sys _ _ _ _ _ _ _ _ _ _ _ _ _ _ Hi) as Hsys'.
  destruct (sys_primary _ _ _ _ _ _ _ _ _ _ _ _ _ _ _ Hsys') as (l & k & Hl & Hfr & _).
  destruct Hsys' as (_ & _ & _ & _ & _ & _ & _ & _ & _ & HP & _).
  exists s, l, hist, k, a. split; [done|]. split; [done|]. split; [apply Hfr|].
  split; [apply (ki_answers _ _ _ _ _ _ _ _ _ _ _ _ _ _ Hi)|]. split_and!.
  - intros _ resp key Hkey HcM Hc4. destruct (kv_map s) as [m next] eqn:Hm.
    pose proof (ki_store _ _ _ _ _ _ _ _ _ _ _ _ _ _ Hi) as Hst. rewrite Hm in Hst. simpl in Hst. subst m. by apply (ReadHandler_reply M).
  - intros d Hin. pose proof (proj1 (Forall_forall _ _) (ki_acks _ _ _ _ _ _ _ _ _ _ _ _ _ _ Hi) d Hin) as Hd'.
    apply list_elem_of_fmap in Hd' as (e & -> & He).
    destruct (proj1 (Forall_forall _ _) HP e He) as (key & value & Hlen' & _ & Hde). exists key, value. split; [done|].
    rewrite <- (insert_of_entry key value) by lia. rewrite <- Hde. by apply (list_elem_of_fmap_2 (λ e, insert_of (data e))).
  - intros Hnr. destruct (ki_played _ _ _ _ _ _ _ _ _ _ _ _ _ _ Hi) as [Hp _]. unfold played in Hp.
    destruct (kv_player s) eqn:Hps; [|by destruct Hp]. exfalso. apply Hnr, Hrd. intros Hn. apply Hpl in Hn. done.
  - intros Hr1 Hst Hmax. apply (kv_catches_up M clients pri HM Hcl u n cap Hd Hcr Hw (mr * 2 ^ 20) ip (replica_uris pc) s hist a lo); try done.
    rewrite Hpl. by apply Hrd.
Qed.

(** Two server threads insert the same key; the store is asked before and after. *)
Definition kv_request (value : byte) : buffer := bpoke (Buf 100 ∅) 0 (insert_request [Byte.x61] [value]).

Definition kv_read (j : nat) : kaction := KReadBegin j (Buf 1000 ∅) (read_request [Byte.x61]).

(** Until both inserts are ordered and the playing thread has read the first of them. *)
Definition kv_begin : list kaction :=
  [KInsert 0 (kv_request Byte.x62) 6; KInsert 1 (kv_request Byte.x63) 6; KDeliver 1 "p:1"; KReturn 1; KDeliver 0 "b:1";
   KPlay false; KDeliver 0 "p:1"; KReturn 0; KDeliver 1 "b:1"; KReturn 1; KSystem PFetchRange; KSystem PFetchEntries;
   KSystem (PStore true); KSystem (PDelete (λ _, 0%nat)); KPlay false; KSystem PPoll; KPlay false; kv_read 1; KPlay true].

Definition kv_acts : list kaction :=
  kv_begin ++ [KReadEnd 1; KPlay true; KPlay true; KPlay true; KPlay true; KPlay true; kv_read 0; KPlay true; KReadEnd 0].

Definition kv_props : Properties := <["reader" := "true"]> (<["threadcount" := "2"]> ∅)%string.

Definition kv_player_conn : ErpcCli := default (mkCli true (Buf 0 ∅) [] false false [] ∅) (link_at "p:1" small_conns).

Definition kv_example (p : Properties) : option KvSystem :=
  kv_start p (λ _, (small_conns, 42)) kv_player_conn started_system.

(** Both inserts are acknowledged, in the other order than they are in the log; the reads
    are answered before and after. *)
Example kv_history :
  match kv_example kv_props with
  | Some s0 =>
      match krun "p:1" kv_acts s0 with
      | Ok s => kv_acks s = [insert_entry [Byte.x61] [Byte.x62]; insert_entry [Byte.x61] [Byte.x63]] ∧
          kv_answers s = [(read_request [Byte.x61], le_bytes 4 2); (read_request [Byte.x61], le_bytes 4 0 ++ [Byte.x62])]
      | _ => False
      end
  | None => False
  end.
Proof. by vm_compute. Qed.

(** The playing thread begins to write while the read is under way. *)
Example kv_race :
  match kv_example kv_props with
  | Some s0 => kraces "p:1" (kv_begin ++ [KPlay true]) s0 = true ∧ krun "p:1" (kv_begin ++ [KPlay true]) s0 = Fault
  | None => False
  end.
Proof. by vm_compute. Qed.

Lemma kv_acts_ok : Forall (kaction_ok 1000 [42; 43]) kv_acts.
Proof.
  assert (∀ j value, kaction_ok 1000 [42; 43] (KInsert j (kv_request value) 6)) as Hins.
  { intros j value. exists [Byte.x61], [value]. split; [done|]. split; [done|]. split; [done|]. apply peek_poke_same. }
  assert (∀ j, kaction_ok 1000 [42; 43] (kv_read j)) as Hread by (intros j; by exists [Byte.x61]).
  unfold kv_acts, kv_begin. cbn [app]. repeat (constructor; [first [apply Hins|apply Hread|by split]|]). constructor.
Qed.

Lemma kv_player_up : link_at "p:1" small_conns = Some kv_player_conn.
Proof. by vm_compute. Qed.

Lemma kv_props_ok :
  kv_ok 1000 [42; 43] "p:1" (replica_uris small_cluster) kv_props (λ _, (small_conns, 42)) kv_player_conn.
Proof.
  split.
  - exists 2. by vm_compute.
  - intros i _. apply small_conns_up; [lia|set_solver|lia].
  - exists (small_conns, 42). split; [apply small_conns_up; [lia|set_solver|lia]|exact kv_player_up].
Qed.

Lemma kv_follows_log_witness :
  ∃ s0, kv_example kv_props = Some s0 ∧
    (kraces "p:1" kv_acts s0 = true → GetProperty kv_props "reader" "false" = "true"%string ∧ krun "p:1" kv_acts s0 = Fault) ∧
    (kraces "p:1" kv_acts s0 = false → ∃ s l hist k a, krun "p:1" kv_acts s0 = Ok s ∧
      link_at "p:1" (dur_cli_ (kv_cons s)) = Some l ∧ flat_repr (l_svr l) hist k ∧
      answered_from hist a (kv_answers s) ∧
      (writing s = false → ∀ resp key, lenZ key < 2 ^ 32 → 1000 ≤ bcap resp → 4 ≤ bcap resp →
         ∃ b m, ReadHandler (kv_map s) resp (read_request key) = Some (b, m) ∧
           peek (rd (bmem b)) 0 (Z.to_nat m) = reply (take a (ops_of hist)) key) ∧
      (∀ d, d ∈ kv_acks s → ∃ key value, d = insert_entry key value ∧ (key, value) ∈ ops_of hist) ∧
      (GetProperty kv_props "reader" "false" ≠ "true"%string → a = 0%nat) ∧
      (GetProperty kv_props "reader" "false" = "true"%string → started (kv_cons s) →
       max_fetch_size_ (kv_cons s) = 0 ∨ 1000 ≤ max_fetch_size_ (kv_cons s) →
       ∃ more s', Forall background more ∧ krun "p:1" more s = Ok s' ∧
         kv_store_ (kv_map s') = replay (ops_of hist) ∧ kv_acks s' = kv_acks s)).
Proof.
  destruct started_system_ok as [env' Hini].
  apply (kv_follows_log 1000 [42; 43] "p:1" 2 2 2048 1 8192 small_cluster small_replica small_shard ∅ RpcEnv_init env'
    started_system kv_props (λ _, (small_conns, 42)) kv_player_conn kv_acts).
  - done.
  - done.
  - exact small_dims.
  - done.
  - done.
  - exact small_cluster_ok.
  - exact Hini.
  - exact kv_props_ok.
  - exact kv_acts_ok.
  - clear Hini. done.
Defined.
