(* ===== verification/Corfu.v ===== *)
(** The build with [CORFU]: [src/cons_log/storage/shard_server.cc],
    [src/cons_log/storage/shard_client.cc], [src/cons_log/storage/naive_backend.cc],
    [src/dur_log/erpc_dl_transport.cc], [src/dur_log/dur_log_erpc_cli.cc] and
    [src/client/lazylog_cli.cc] where the macro is defined.

    Here the primary of the durability log only hands out positions of the log.  A client
    writes its entry itself to the shard of its position, at the primary and at two
    backups; a shard keeps the entries of a stripe unit in a file, each at the multiple of
    the entry size that its position gives. *)

From stdpp Require Import strings pretty.
From S2P Require Import Prelude Props Sequencer LogEntry DlTransport ShardServer DurLogBase Client.

Local Open Scope Z_scope.

Module Corfu.

(** ** The shard server *)

Record t : Type := mk {
  entries_fd_set_ : gmap Z Z;
  cache_size_atomic_ : gmap Z Z;
  entry_size_ : Z;
  stripe_unit_size_ : Z;
  shard_num_ : Z;
  shard_id_ : Z;
  folder_path_ : string;
  os : Os
}.

Definition with_units (st : t) (fds counts : gmap Z Z) : t :=
  mk fds counts (entry_size_ st) (stripe_unit_size_ st) (shard_num_ st) (shard_id_ st) (folder_path_ st) (os st).
Definition with_entry_size (st : t) (z : Z) : t :=
  mk (entries_fd_set_ st) (cache_size_atomic_ st) z (stripe_unit_size_ st) (shard_num_ st) (shard_id_ st)
    (folder_path_ st) (os st).
Definition with_os (st : t) (o : Os) : t :=
  mk (entries_fd_set_ st) (cache_size_atomic_ st) (entry_size_ st) (stripe_unit_size_ st) (shard_num_ st)
    (shard_id_ st) (folder_path_ st) o.

Definition getDataFilePath (st : t) (base_idx : Z) : string :=
  (folder_path_ st +:+ "/entries_" +:+ pretty base_idx +:+ "_r_" +:+ pretty (shard_id_ st) +:+ ".dat")%string.

Definition base_of (st : t) (idx : Z) : option Z :=
  let big := big_stripe (stripe_unit_size_ st) (shard_num_ st) in
  if big =? 0 then None else Some (u64 (idx / big * big)).

Definition count_at (st : t) (base_idx : Z) : Z := default 0 (cache_size_atomic_ st !! base_idx).

Section Server.
Context `{Posix}.

(** [pwrite] and [pread]; an offset that does not fit [off_t] is refused, and [pread]
    returns what is there before the end of the file. *)
Definition pwrite (o : Os) (fd : Z) (bs : list byte) (offset : Z) : Os * Z :=
  match fds o !! fd with
  | Some (mkOpen path pos true) =>
      if 2 ^ 63 <=? offset then (o, -1) else
      let n := write_len (lenZ bs) in
      let old := default [] (files o !! path) in
      (mkOs (<[path := write_at old (Z.to_nat offset) (take (Z.to_nat n) bs)]> (files o)) (fds o), n)
  | _ => (o, -1)
  end.

Definition pread (o : Os) (fd len offset : Z) : option (list byte) :=
  f ← fds o !! fd;
  if 2 ^ 63 <=? offset then None else
  Some (take (Z.to_nat len) (drop (Z.to_nat offset) (default [] (files o !! of_path f)))).

(** The section of [addToEntryCacheAsync] under the writer's lock: the descriptor, [None]
    for the early return, and [0] when another thread has created the file since it was
    looked up. *)
Definition create_file (st : t) (base_idx : Z) : t * option Z :=
  match entries_fd_set_ st !! base_idx with
  | Some _ => (st, Some 0)
  | None =>
      let st := with_units st (entries_fd_set_ st) (<[base_idx := 0]> (cache_size_atomic_ st)) in
      let '(o, fd) := open_trunc (os st) (getDataFilePath st base_idx) in
      let st := with_os st o in
      if fd <? 0 then (st, None)
      else (with_units st (<[base_idx := fd]> (entries_fd_set_ st)) (cache_size_atomic_ st), Some fd)
  end.

(** The rest of it, outside the locks: the entry goes to its place in the file. *)
Definition put_entry (st : t) (base_idx fd : Z) (req : list byte) : option t :=
  '(e, entry_len) ← Deserializer LogEntry_default (msg_buf req) 0;
  let local_idx := u64 (log_idx e - base_idx) / u64 (shard_num_ st) in
  bs ← load (msg_buf req) 0 (Z.to_nat entry_len);
  let '(o, _) := pwrite (os st) fd bs (u64 (entry_len * local_idx)) in
  let st := with_os st o in
  let st := if entry_size_ st =? 0 then with_entry_size st entry_len else st in
  Some (with_units st (entries_fd_set_ st) (<[base_idx := i32 (count_at st base_idx + 1)]> (cache_size_atomic_ st))).

(** Looking up the descriptor and creating the file are two critical sections; they are one
    step here, and what happens when another thread creates the file in between is
    [CorfuLog.corfu_create_race]. *)
Definition addToEntryCacheAsync (st : t) (base_idx : Z) (req : list byte) : option t :=
  match entries_fd_set_ st !! base_idx with
  | Some fd => put_entry st base_idx fd req
  | None =>
      let '(st, fd) := create_file st base_idx in
      match fd with
      | None => Some st
      | Some fd => put_entry st base_idx fd req
      end
  end.

Definition writeFromCacheToDisk (st : t) (base_idx : Z) : t :=
  match entries_fd_set_ st !! base_idx with
  | None => st
  | Some fd =>
      with_units (with_os st (close (os st) fd)) (delete base_idx (entries_fd_set_ st))
        (delete base_idx (cache_size_atomic_ st))
  end.

(** The end of [AppendEntryHandler]: the file of a full unit is closed. *)
Definition close_if_full (st : t) (base_idx : Z) : t :=
  if stripe_unit_size_ st <=? u64 (count_at st base_idx) then writeFromCacheToDisk st base_idx else st.

(** The response is the [int] zero. *)
Definition AppendEntryHandler (st : t) (req : list byte) : option (t * list byte) :=
  '(e, _) ← Deserializer LogEntry_default (msg_buf req) 0;
  base_idx ← base_of st (log_idx e);
  st ← addToEntryCacheAsync st base_idx req;
  Some (close_if_full st base_idx, le_bytes 4 0).

(** What [pread] leaves in the response buffer. *)
Definition read_into (resp : buffer) (r : option (list byte)) : option buffer :=
  match r with None => Some resp | Some bs => store resp 0 bs end.

(** The bytes of the entry in the response buffer; [None] when there is no file. *)
Definition read_slot (st : t) (base_idx local_cache_idx : Z) (resp : buffer) : option (t * option buffer) :=
  let offset := u64 (entry_size_ st * local_cache_idx) in
  match entries_fd_set_ st !! base_idx with
  | None =>
      let '(o, fd) := open_rdonly (os st) (getDataFilePath st base_idx) in
      if fd <? 0 then Some (st, None) else
      resp ← read_into resp (pread o fd (entry_size_ st) offset);
      Some (with_os st (close o fd), Some resp)
  | Some fd =>
      resp ← read_into resp (pread (os st) fd (entry_size_ st) offset);
      Some (st, Some resp)
  end.

Definition respond_noent (st : t) (resp : buffer) : option (t * buffer * list byte) :=
  resp ← store_int 4 resp 0 2; Some (st, resp, le_bytes 4 2).

(** [req] is the buffer of the request, from which eight bytes more are read than the
    client sends, and [resp] the preallocated response buffer with what it held before. *)
Definition ReadEntryHandler `{Erpc} (st : t) (resp req : buffer) : option (t * buffer * list byte) :=
  idx ← load_int 8 req 0;
  _ ← load_int 8 req 8;
  base_idx ← base_of st idx;
  let local_cache_idx := u64 (idx - base_idx) / u64 (shard_num_ st) in
  '(st, r) ← read_slot st base_idx local_cache_idx resp;
  match r with
  | None => respond_noent st resp
  | Some resp =>
      '(e, len) ← Deserializer LogEntry_default resp 0;
      if negb (flags e =? 1) then respond_noent st resp else
      bs ← send resp len;
      Some (st, resp, bs)
  end.
End Server.

(** ** The shard client and the backend of a reader *)

(** A shard as its client sees it: the server with its response buffer, the size of the
    request buffer, and what lies behind the request in the buffer of the server. *)
Record Shard : Type := mkCorfuShard { server : t; pre_resp : buffer; req_cap : Z; slack : list byte }.

Record NaiveReadBackend : Type := mkReadBackend { rb_shard_num : Z; rb_shards : gmap Z Shard }.

Section Backend.
Context `{Posix, Erpc}.

(** [ShardClient::AppendEntry]. *)
Definition shard_AppendEntry (g : Shard) (e : LogEntry) : option (Shard * bool) :=
  '(b, len) ← Serializer e (Buf (req_cap g) ∅) 0;
  bs ← send b len;
  '(st, rs) ← AppendEntryHandler (server g) bs;
  Some (mkCorfuShard st (pre_resp g) (req_cap g) (slack g), negb (lenZ rs <=? 4)).

(** [ShardClient::ReadEntry]. *)
Definition shard_ReadEntry (g : Shard) (idx : Z) (e : LogEntry) : option (Shard * bool * LogEntry) :=
  b ← store_int 8 (Buf (req_cap g) ∅) 0 idx;
  bs ← send b 8;
  '(st, resp, rs) ← ReadEntryHandler (server g) (pre_resp g) (msg_buf (bs ++ slack g));
  let g := mkCorfuShard st resp (req_cap g) (slack g) in
  if lenZ rs <=? 4 then Some (g, false, e)
  else '(e, _) ← Deserializer e (msg_buf rs) 0; Some (g, true, e).

(** [idx % shard_num_], and the client of that shard. *)
Definition rb_shard (be : NaiveReadBackend) (idx : Z) : option (Z * Shard) :=
  if u64 (rb_shard_num be) =? 0 then None else
  let shard_id := i32 (idx mod u64 (rb_shard_num be)) in
  g ← rb_shards be !! shard_id; Some (shard_id, g).

Definition rb_with (be : NaiveReadBackend) (shard_id : Z) (g : Shard) : NaiveReadBackend :=
  mkReadBackend (rb_shard_num be) (<[shard_id := g]> (rb_shards be)).

(** The first entry only, and whatever the shard answers. *)
Definition AppendBatch (be : NaiveReadBackend) (es : list LogEntry) : option (NaiveReadBackend * Z) :=
  e ← es !! 0%nat;
  '(shard_id, g) ← rb_shard be (log_idx e);
  '(g, _) ← shard_AppendEntry g e;
  Some (rb_with be shard_id g, 0).

Definition rb_ReadEntry (be : NaiveReadBackend) (idx : Z) (e : LogEntry) : option (NaiveReadBackend * bool * LogEntry) :=
  '(shard_id, g) ← rb_shard be idx;
  '(g, _, e) ← shard_ReadEntry g idx e;
  Some (rb_with be shard_id g, true, e).
End Backend.

(** ** Positions *)

Definition GET_GSN : Z := 7.
Definition GET_GSN_BATCH : Z := 8.

Section Gsn.
Context `{Erpc} (resp : buffer).

Definition GetGSNHandler (st : DurabilityLog.t) (req : list byte) : outcome (DurabilityLog.t * list byte) :=
  let '(st, gsn) := DurabilityLog.GetGSN st 1 in
  bs ← lift (respond_u64 resp gsn); Ok (st, bs).

Definition GetGSNBatchHandler (st : DurabilityLog.t) (req : list byte) : outcome (DurabilityLog.t * list byte) :=
  batchSize ← lift (load_int 8 (msg_buf req) 0);
  let '(st, gsn) := DurabilityLog.GetGSN st batchSize in
  bs ← lift (respond_u64 resp gsn); Ok (st, bs).

Definition gsn_handle (st : DurabilityLog.t) (req_type : Z) (req : list byte) : outcome (DurabilityLog.t * list byte) :=
  if req_type =? GET_GSN then GetGSNHandler st req
  else if req_type =? GET_GSN_BATCH then GetGSNBatchHandler st req
  else Fault.

(** [UINT64_MAX] for a response that is too short. *)
Definition received_gsn (c : ErpcCli) : option Z :=
  if lenZ (resp_ c) <? 8 then Some (u64 (-1)) else load_int 8 (msg_buf (resp_ c)) 0.

Definition getGSN (c : ErpcCli) (s : DurabilityLog.t) : outcome (ErpcCli * DurabilityLog.t * Z) :=
  '(c, s) ← round_trip gsn_handle c s GET_GSN 0;
  gsn ← lift (received_gsn c); Ok (c, s, gsn).

Definition getGSNBatch (c : ErpcCli) (s : DurabilityLog.t) (batchSize : Z) : outcome (ErpcCli * DurabilityLog.t * Z) :=
  b ← lift (store_int 8 (req_ c) 0 batchSize);
  '(c, s) ← round_trip gsn_handle (with_req c b) s GET_GSN_BATCH 8;
  gsn ← lift (received_gsn c); Ok (c, s, gsn).
End Gsn.

(** ** The client *)

(** [be_rd_cli_] and the two [be_rd_cli_backup_]. *)
Record Storage : Type := mkStorage { pri : NaiveReadBackend; bak : NaiveReadBackend; bak2 : NaiveReadBackend }.

Section CorfuClient.
Context `{Posix, Erpc} (resp : buffer).

(** [AppendEntryAll] against the primary of the durability log [s] and the storage. *)
Definition AppendEntryAll (c : LazyLogClient) (k : ErpcCli) (s : DurabilityLog.t) (be : Storage) (d : list byte)
    : outcome (LazyLogClient * ErpcCli * DurabilityLog.t * Storage * (Z * Z)) :=
  let '(e, c) := constructLogEntry c d in
  '(k, s, gsn) ← getGSN resp k s;
  let e := set_log_idx e gsn in
  '(p, _) ← lift (AppendBatch (pri be) [e]);
  '(b, _) ← lift (AppendBatch (bak be) [e]);
  '(b2, _) ← lift (AppendBatch (bak2 be) [e]);
  Ok (c, k, s, mkStorage p b b2, (client_id e, client_seq e)).

(** [ReadEntry] asks the primary of the shard. *)
Definition ReadEntry (be : Storage) (idx : Z) : option (Storage * bool * list byte) :=
  '(p, ret, e) ← rb_ReadEntry (pri be) idx LogEntry_default;
  Some (mkStorage p (bak be) (bak2 be), ret, data e).
End CorfuClient.
End Corfu.
