(* ===== verification/CorfuRepr.v ===== *)
(** The storage of the [CORFU] build holds every entry at its position.

    The abstract state of a shard is a map from places to entries: place [j] of shard [s]
    out of [n] is the position [s + j * n] of the log.  The places are filled in any
    order, so a file can have holes; [corfu_repr] relates the map to the files, the open
    descriptors and the counters of [Corfu]. *)

From stdpp Require Import strings pretty fin_map_dom.
From S2P Require Import Prelude Props Sequencer LogEntry DlTransport ShardServer ShardRepr DurLogBase.
From S2P Require Import Client Corfu.

Local Open Scope Z_scope.

Module C := Corfu.

(** ** Files with holes *)

Lemma rd_msg bs a : 0 ≤ a → rd (bmem (msg_buf bs)) a = default Byte.x00 (bs !! Z.to_nat a).
Proof.
  intros Ha. destruct (bs !! Z.to_nat a) as [x|] eqn:E.
  - replace a with (Z.of_nat (Z.to_nat a)) by lia. by rewrite (rd_msg_buf _ _ x).
  - unfold rd, msg_buf. simpl. by rewrite lookup_map_seqZ_0, E.
Qed.

Lemma rd_bpoke_msg resp bs a : 0 ≤ a < lenZ bs → rd (bmem (bpoke resp 0 bs)) a = rd (bmem (msg_buf bs)) a.
Proof.
  intros Ha. rewrite rd_msg by lia. pose proof (rd_poke_in (bmem resp) 0 bs a ltac:(lia)) as Hin.
  rewrite Z.sub_0_r in Hin. by rewrite Hin.
Qed.

Lemma rd_slice bs o n a :
  0 ≤ a < n → 0 ≤ o →
  rd (bmem (msg_buf (take (Z.to_nat n) (drop (Z.to_nat o) bs)))) a = rd (bmem (msg_buf bs)) (o + a).
Proof.
  intros Ha Ho. rewrite !rd_msg, lookup_take_lt, lookup_drop by lia. do 2 f_equal. lia.
Qed.

(** The bytes of a buffer that holds entries. *)
Lemma file_holds_peek f es :
  laid f 0 es → file_holds (peek f 0 (Z.to_nat (total_size es))) es.
Proof.
  intros Hl. pose proof (total_size_nonneg es). split; [rewrite length_peek; lia|].
  apply (laid_ext f _ 0); [|done]. intros a Ha. rewrite Z.add_0_l, rd_msg by lia.
  rewrite peek_lookup by lia. simpl. f_equal. lia.
Qed.

(** Writing at a place changes the bytes there and no others; a gap reads as zeros. *)
Lemma write_at_lookup old pos bs i :
  default Byte.x00 (write_at old pos bs !! i) =
    if decide (pos ≤ i < pos + length bs)%nat then default Byte.x00 (bs !! (i - pos)%nat)
    else default Byte.x00 (old !! i).
Proof.
  unfold write_at. pose proof (length_take old pos) as Ht.
  destruct (decide (i < length (take pos old))%nat) as [H1|H1].
  { rewrite lookup_app_l, lookup_take_lt by lia. by rewrite decide_False by lia. }
  rewrite lookup_app_r by lia. set (j := (i - length (take pos old))%nat).
  destruct (decide (j < pos - length old)%nat) as [H2|H2].
  { rewrite lookup_app_l by (rewrite length_replicate; lia). rewrite lookup_replicate_2 by lia.
    rewrite decide_False by lia. by rewrite (lookup_ge_None_2 old) by lia. }
  rewrite lookup_app_r by (rewrite length_replicate; lia). rewrite length_replicate.
  destruct (decide (i < pos + length bs)%nat) as [H3|H3].
  - rewrite lookup_app_l by lia. rewrite decide_True by lia. do 2 f_equal. lia.
  - rewrite lookup_app_r by lia. rewrite decide_False by lia. rewrite lookup_drop. do 2 f_equal. lia.
Qed.

Lemma length_write_at old pos bs : length (write_at old pos bs) = Nat.max (length old) (pos + length bs).
Proof. unfold write_at. rewrite !length_app, length_take, length_replicate, length_drop. lia. Qed.

Lemma rd_write_at old pos bs a :
  0 ≤ a →
  rd (bmem (msg_buf (write_at old pos bs))) a =
    if decide (Z.of_nat pos ≤ a < Z.of_nat pos + lenZ bs) then rd (bmem (msg_buf bs)) (a - Z.of_nat pos)
    else rd (bmem (msg_buf old)) a.
Proof.
  intros Ha. rewrite !rd_msg by lia. rewrite write_at_lookup.
  destruct (decide (pos ≤ Z.to_nat a < pos + length bs)%nat).
  - rewrite decide_True by lia. rewrite rd_msg by lia. do 2 f_equal. lia.
  - rewrite decide_False by lia. by rewrite rd_msg by lia.
Qed.

(** ** Representation *)

Section Repr.
Context (u n s : nat) (z : Z).

(** How many places of unit [b] are filled. *)
Definition unit_count (b : nat) (m : gmap nat LogEntry) : nat := size (filter (λ p, (p.1 / u)%nat = b) m).

(** The places of unit [b] in its file: an entry, or nothing but zeros. *)
Definition slots (bytes : list byte) (b : nat) (m : gmap nat LogEntry) : Prop :=
  ∀ i, (i < u)%nat →
    match m !! (b * u + i)%nat with
    | Some e => z * (Z.of_nat i + 1) ≤ lenZ bytes ∧ laid (rd (bmem (msg_buf bytes))) (z * Z.of_nat i) [e]
    | None => ∀ a, z * Z.of_nat i ≤ a < z * (Z.of_nat i + 1) → rd (bmem (msg_buf bytes)) a = Byte.x00
    end.

Record unit_ok (st : C.t) (m : gmap nat LogEntry) (b : nat) : Prop := {
  uo_empty : unit_count b m = 0%nat → C.entries_fd_set_ st !! key u n b = None ∧
    files (C.os st) !! C.getDataFilePath st (key u n b) = None;
  uo_file : (0 < unit_count b m)%nat →
    ∃ bytes, files (C.os st) !! C.getDataFilePath st (key u n b) = Some bytes ∧ slots bytes b m;
  uo_open : (0 < unit_count b m < u)%nat →
    ∃ fd pos, C.entries_fd_set_ st !! key u n b = Some fd ∧
      fds (C.os st) !! fd = Some (mkOpen (C.getDataFilePath st (key u n b)) pos true) ∧
      C.count_at st (key u n b) = Z.of_nat (unit_count b m);
  uo_closed : (u ≤ unit_count b m)%nat → C.entries_fd_set_ st !! key u n b = None
}.

Definition place_ok (j : nat) (e : LogEntry) : Prop :=
  valid_entry e ∧ flags e = 1 ∧ entry_size e = z ∧ log_idx e = Z.of_nat s + Z.of_nat j * Z.of_nat n.

Record corfu_repr (st : C.t) (m : gmap nat LogEntry) : Prop := {
  cr_u : (0 < u)%nat;
  cr_s : (s < n)%nat;
  cr_n : Z.of_nat n < 2 ^ 31;
  cr_u31 : Z.of_nat u < 2 ^ 31;
  cr_big : Z.of_nat u * Z.of_nat n < 2 ^ 64;
  cr_file : z * Z.of_nat u < 2 ^ 63;
  cr_unit : C.stripe_unit_size_ st = Z.of_nat u;
  cr_num : C.shard_num_ st = Z.of_nat n;
  cr_size : C.entry_size_ st = if decide (m = ∅) then 0 else z;
  cr_place : ∀ j e, m !! j = Some e → place_ok j e;
  cr_units : ∀ b, unit_ok st m b
}.

Lemma unit_count_insert b m j e :
  m !! j = None → unit_count b (<[j := e]> m) = ((if decide (j / u = b)%nat then 1 else 0) + unit_count b m)%nat.
Proof.
  intros Hj. unfold unit_count. case_decide as Hb.
  - rewrite map_filter_insert_True by done. rewrite map_size_insert_None; [done|].
    apply map_lookup_filter_None. by left.
  - by rewrite map_filter_insert_not.
Qed.

(** A unit with an empty place is not full. *)
Lemma unit_count_lt m j : (0 < u)%nat → m !! j = None → (unit_count (j / u) m < u)%nat.
Proof.
  intros Hu Hj. unfold unit_count. rewrite <- size_dom. pose proof (Nat.div_mod j u ltac:(lia)).
  pose proof (Nat.mod_upper_bound j u ltac:(lia)).
  assert (dom (filter (λ p, (p.1 / u)%nat = (j / u)%nat) m) ⊆ (set_seq ((j / u) * u) u : gset nat) ∖ {[ j ]}) as Hsub.
  { intros i (e & [Hi Hb]%map_lookup_filter_Some)%elem_of_dom. simpl in Hb.
    pose proof (Nat.div_mod i u ltac:(lia)). pose proof (Nat.mod_upper_bound i u ltac:(lia)).
    apply elem_of_difference. split; [apply elem_of_set_seq; rewrite <- Hb; nia|].
    intros ->%elem_of_singleton. congruence. }
  apply subseteq_size in Hsub. rewrite size_difference, size_set_seq, size_singleton in Hsub; [lia|].
  apply singleton_subseteq_l, elem_of_set_seq. nia.
Qed.

Lemma unit_count_zero b m j e : unit_count b m = 0%nat → (j / u = b)%nat → m !! j = Some e → False.
Proof.
  unfold unit_count. intros Hc Hb Hj. apply map_size_empty_inv in Hc.
  assert (filter (λ p, (p.1 / u)%nat = b) m !! j = Some e) as Hf by (by apply map_lookup_filter_Some).
  by rewrite Hc, lookup_empty in Hf.
Qed.

Lemma C_base_of st m j :
  corfu_repr st m → Z.of_nat s + Z.of_nat j * Z.of_nat n < 2 ^ 64 →
  C.base_of st (Z.of_nat s + Z.of_nat j * Z.of_nat n) = Some (key u n (j / u)) ∧
  u64 (Z.of_nat s + Z.of_nat j * Z.of_nat n - key u n (j / u)) / u64 (C.shard_num_ st) = Z.of_nat (j mod u).
Proof.
  intros [] Hj. destruct (base_idx_ok u n s j) as [Hb Hr]; [done..|].
  destruct (index_place u n s j) as [_ Hl]; [done..|].
  unfold C.base_of, big_stripe. rewrite cr_unit0, cr_num0, (u64_small (Z.of_nat n)), (u64_small (_ * _)) by lia.
  rewrite (proj2 (Z.eqb_neq _ _)) by nia. rewrite Hb, u64_small by lia. by rewrite Hl.
Qed.

Lemma getDataFilePath_corfu_inj st i j : C.getDataFilePath st i = C.getDataFilePath st j → i = j.
Proof.
  unfold C.getDataFilePath. intros Heq. apply string_app_inj_l, string_app_inj_l in Heq.
  apply string_app_inj_r in Heq. by apply (inj pretty) in Heq.
Qed.

(** An entry at an empty place. *)
Lemma slots_insert bytes b i m e req :
  (i < u)%nat → (∀ j e, m !! j = Some e → entry_size e = z) → slots bytes b m →
  file_holds req [e] → entry_size e = z → 0 < z →
  slots (write_at bytes (Z.to_nat (z * Z.of_nat i)) req) b (<[(b * u + i)%nat := e]> m).
Proof.
  intros Hi Hsz Hs [Hlen Hl] He Hz i' Hi'. simpl in Hlen. rewrite Z.add_0_r, He in Hlen.
  pose proof (length_write_at bytes (Z.to_nat (z * Z.of_nat i)) req) as Hw.
  destruct (decide (i' = i)) as [->|Hne].
  - rewrite lookup_insert_eq. split; [lia|]. apply (laid_ext (rd (bmem (msg_buf req))) _ 0); [|done].
    intros a Ha. simpl in Ha. rewrite Z.add_0_r, He in Ha. rewrite rd_write_at by lia.
    rewrite decide_True by lia. f_equal. lia.
  - specialize (Hs i' Hi'). rewrite lookup_insert_ne by lia.
    assert (∀ a, z * Z.of_nat i' ≤ a < z * (Z.of_nat i' + 1) →
      rd (bmem (msg_buf (write_at bytes (Z.to_nat (z * Z.of_nat i)) req))) a = rd (bmem (msg_buf bytes)) a) as Hout
      by (intros a Ha; rewrite rd_write_at by lia; rewrite decide_False by nia; done).
    destruct (m !! (b * u + i')%nat) as [e'|] eqn:E.
    + destruct Hs as [Hle Hl']. split; [lia|]. apply (laid_ext (rd (bmem (msg_buf bytes))) _ (z * Z.of_nat i')); [|done].
      intros a Ha. simpl in Ha. rewrite (Hsz _ _ E) in Ha. symmetry. apply Hout. lia.
    + intros a Ha. rewrite Hout by lia. by apply Hs.
Qed.

Lemma slots_nil b m : unit_count b m = 0%nat → (0 < u)%nat → slots [] b m.
Proof.
  intros Hc Hu i Hi. destruct (m !! (b * u + i)%nat) as [e|] eqn:E.
  - exfalso. apply (unit_count_zero b m (b * u + i) e Hc); [|done].
    rewrite Nat.div_add_l, Nat.div_small by lia. lia.
  - intros a Ha. done.
Qed.
End Repr.

(** ** Appending *)

Section Append.
Context `{Posix} (u n s : nat) (z : Z).
Context (Hcreate : ∀ p, may_create p = true) (Hwrite : ∀ k, write_len k = k).

(** Everything but unit [b] is the same. *)
Record elsewhere (b : nat) (st st' : C.t) : Prop := {
  ew_config : C.stripe_unit_size_ st' = C.stripe_unit_size_ st ∧ C.shard_num_ st' = C.shard_num_ st ∧
    C.shard_id_ st' = C.shard_id_ st ∧ C.folder_path_ st' = C.folder_path_ st;
  ew_fdset : ∀ k, k ≠ key u n b → C.entries_fd_set_ st' !! k = C.entries_fd_set_ st !! k;
  ew_count : ∀ k, k ≠ key u n b → C.count_at st' k = C.count_at st k;
  ew_files : ∀ p, p ≠ C.getDataFilePath st (key u n b) → files (C.os st') !! p = files (C.os st) !! p;
  ew_fds : ∀ fd f, fds (C.os st) !! fd = Some f → of_path f ≠ C.getDataFilePath st (key u n b) →
    fds (C.os st') !! fd = Some f
}.

Lemma elsewhere_path b st st' k : elsewhere b st st' → C.getDataFilePath st' k = C.getDataFilePath st k.
Proof. intros [(_ & _ & H1 & H2) _ _ _ _]. unfold C.getDataFilePath. by rewrite H1, H2. Qed.

Lemma elsewhere_trans b st st1 st2 : elsewhere b st st1 → elsewhere b st1 st2 → elsewhere b st st2.
Proof.
  intros H1 H2. pose proof (elsewhere_path _ _ _ (key u n b) H1) as Hp.
  destruct H1 as [(?&?&?&?) F1 C1 P1 D1], H2 as [(?&?&?&?) F2 C2 P2 D2]. rewrite Hp in *.
  split; [repeat split; congruence|..]; intros.
  - by rewrite F2, F1.
  - by rewrite C2, C1.
  - by rewrite P2, P1.
  - apply D2; [by apply D1|done].
Qed.

(** The other units are as they were. *)
Lemma unit_ok_elsewhere b b' st st' m m' :
  elsewhere b st st' → b' ≠ b → (0 < u)%nat → (0 < n)%nat → unit_count u b' m' = unit_count u b' m →
  (∀ i, (i < u)%nat → m' !! (b' * u + i)%nat = m !! (b' * u + i)%nat) →
  unit_ok u n z st m b' → unit_ok u n z st' m' b'.
Proof.
  intros He Hb Hu Hn Hc Hm [H1 H2 H3 H4].
  assert (key u n b' ≠ key u n b) as Hk by (intros Hk; apply Hb, (key_inj u n); (done || lia)).
  assert (C.getDataFilePath st (key u n b') ≠ C.getDataFilePath st (key u n b)) as Hp
    by (intros Hp; by apply getDataFilePath_corfu_inj in Hp).
  split; rewrite ?Hc, ?(elsewhere_path _ _ _ _ He), ?(ew_fdset _ _ _ He), ?(ew_files _ _ _ He), ?(ew_count _ _ _ He) by done;
    [done| | |done].
  - intros Hpos. destruct (H2 Hpos) as (bytes & Hf & Hs). exists bytes. split; [done|].
    intros i Hi. rewrite Hm by done. by apply Hs.
  - intros Hpos. destruct (H3 Hpos) as (fd & pos & Hfd & Hof & Hcnt). exists fd, pos. split; [done|].
    split; [by apply (ew_fds _ _ _ He)|done].
Qed.

(** The file of unit [b] is open for writing. *)
Record unit_opened (st : C.t) (m : gmap nat LogEntry) (b : nat) (fd : Z) : Prop := {
  op_fdset : C.entries_fd_set_ st !! key u n b = Some fd;
  op_fd : ∃ pos, fds (C.os st) !! fd = Some (mkOpen (C.getDataFilePath st (key u n b)) pos true);
  op_file : ∃ bytes, files (C.os st) !! C.getDataFilePath st (key u n b) = Some bytes ∧ slots u z bytes b m;
  op_count : C.count_at st (key u n b) = Z.of_nat (unit_count u b m)
}.

Lemma get_fd st m b :
  corfu_repr u n s z st m → (unit_count u b m < u)%nat →
  ∃ st1 fd, (∀ req, C.addToEntryCacheAsync st (key u n b) req = C.put_entry st1 (key u n b) fd req) ∧
    elsewhere b st st1 ∧ unit_opened st1 m b fd ∧ C.entry_size_ st1 = C.entry_size_ st.
Proof.
  intros Hr Hlt. destruct (cr_units _ _ _ _ _ _ Hr b) as [H1 H2 H3 _].
  destruct (decide (unit_count u b m = 0%nat)) as [H0|Hpos].
  - destruct (H1 H0) as [Hfd Hf]. unfold C.addToEntryCacheAsync, C.create_file. rewrite Hfd.
    unfold open_trunc. rewrite Hcreate. cbn [C.with_units C.os].
    pose proof (fd_alloc_std (fds (C.os st))) as Hstd. rewrite (proj2 (Z.ltb_ge _ _)) by lia.
    eexists _, _. split; [done|]. split; [|split; [|done]].
    + split; [done|..]; simpl.
      * intros k Hk. by rewrite lookup_insert_ne.
      * intros k Hk. unfold C.count_at. simpl. by rewrite lookup_insert_ne.
      * intros p Hp. by rewrite lookup_insert_ne.
      * intros fd f Hf' _. rewrite lookup_insert_ne; [done|]. intros Heq.
        by rewrite <- Heq, fd_alloc_fresh in Hf'.
    + split; simpl.
      * by rewrite lookup_insert_eq.
      * exists 0. by rewrite lookup_insert_eq.
      * exists []. rewrite lookup_insert_eq. split; [done|]. apply slots_nil; [done|apply Hr].
      * unfold C.count_at. simpl. by rewrite lookup_insert_eq, H0.
  - destruct (H3 ltac:(lia)) as (fd & pos & Hfd & Hof & Hc). exists st, fd.
    unfold C.addToEntryCacheAsync. rewrite Hfd. split; [done|]. split; [by split|]. split; [|done].
    split; [done|by exists pos|by apply H2; lia|done].
Qed.

Lemma put_entry_ok st m b i fd e req :
  let j := (b * u + i)%nat in
  unit_opened st m b fd → (i < u)%nat → m !! j = None → (∀ j e, m !! j = Some e → entry_size e = z) →
  place_ok n s z j e → file_holds req [e] → Z.of_nat u < 2 ^ 31 → (unit_count u b m < u)%nat →
  z * Z.of_nat u < 2 ^ 63 → u64 (log_idx e - key u n b) / u64 (C.shard_num_ st) = Z.of_nat i →
  ∃ st', C.put_entry st (key u n b) fd req = Some st' ∧ elsewhere b st st' ∧
    unit_opened st' (<[j := e]> m) b fd ∧
    C.entry_size_ st' = if C.entry_size_ st =? 0 then z else C.entry_size_ st.
Proof.
  intros j [Hfd [pos Hof] (bytes & Hf & Hs) Hc] Hi Hm Hsz (Hv & Hfl & Hez & Hidx) Hreq Hu31 Hlt Hz Hloc.
  pose proof (entry_size_pos e). pose proof Hreq as [Hlen Hl]. simpl in Hlen. rewrite Z.add_0_r, Hez in Hlen.
  unfold C.put_entry. destruct (Deserializer_laid e LogEntry_default [] (msg_buf req) 0) as [-> _]; [done..|simpl; lia|].
  cbn [mbind option_bind]. rewrite Hez, Hloc, load_ok by (simpl; lia). cbn [mbind option_bind].
  assert (peek (rd (bmem (msg_buf req))) 0 (Z.to_nat z) = req) as ->
    by (rewrite <- Hlen, Nat2Z.id; apply peek_msg_buf).
  unfold C.pwrite. rewrite Hof. rewrite (u64_small (z * Z.of_nat i)) by nia.
  rewrite (proj2 (Z.leb_gt _ _)) by nia. rewrite Hwrite, Nat2Z.id, firstn_all, Hf. cbn [default from_option id].
  set (k := key u n b) in *. set (path := C.getDataFilePath st k) in *.
  set (o := mkOs (<[path := write_at bytes (Z.to_nat (z * Z.of_nat i)) req]> (files (C.os st))) (fds (C.os st))).
  assert (unit_count u b (<[j := e]> m) = S (unit_count u b m)) as Hcnt.
  { rewrite unit_count_insert by done. rewrite decide_True; [done|]. unfold j.
    rewrite Nat.div_add_l, Nat.div_small by lia. lia. }
  assert (∀ w, let st' := C.mk (C.entries_fd_set_ st) (<[k := i32 (C.count_at st k + 1)]> (C.cache_size_atomic_ st)) w
      (C.stripe_unit_size_ st) (C.shard_num_ st) (C.shard_id_ st) (C.folder_path_ st) o in
    elsewhere b st st' ∧ unit_opened st' (<[j := e]> m) b fd) as Hall.
  { intros w st'. split; split; try done; simpl; fold k path.
    - intros k' Hk'. unfold C.count_at. simpl. by rewrite lookup_insert_ne.
    - intros p Hp. by rewrite lookup_insert_ne.
    - by exists pos.
    - change (C.getDataFilePath st' k) with path. rewrite lookup_insert_eq. eexists. split; [done|].
      apply slots_insert; (done || lia).
    - unfold C.count_at at 1. simpl. rewrite lookup_insert_eq, Hc, Hcnt. simpl. rewrite i32_small; lia. }
  change (C.entry_size_ (C.with_os st o)) with (C.entry_size_ st). destruct (C.entry_size_ st =? 0); (eexists; split; [done|]);
    [destruct (Hall z) as [Ha Hb]|destruct (Hall (C.entry_size_ st)) as [Ha Hb]];
    (split; [exact Ha|split; [exact Hb|done]]).
Qed.

Lemma close_if_full_ok st m b fd :
  unit_opened st m b fd → (0 < unit_count u b m ≤ u)%nat → Z.of_nat u < 2 ^ 31 →
  C.stripe_unit_size_ st = Z.of_nat u →
  elsewhere b st (C.close_if_full st (key u n b)) ∧ unit_ok u n z (C.close_if_full st (key u n b)) m b ∧
  C.entry_size_ (C.close_if_full st (key u n b)) = C.entry_size_ st.
Proof.
  intros [Hfd [pos Hof] Hf Hc] Hcnt Hu31 Hunit. unfold C.close_if_full. rewrite Hc, Hunit, u64_small by lia.
  destruct (Z.leb_spec (Z.of_nat u) (Z.of_nat (unit_count u b m))) as [Hfull|Hopen].
  - unfold C.writeFromCacheToDisk. rewrite Hfd. split; [|split; [|done]].
    + split; [done|..]; simpl.
      * intros k Hk. by rewrite lookup_delete_ne.
      * intros k Hk. unfold C.count_at. simpl. by rewrite lookup_delete_ne.
      * done.
      * intros fd' f Hf' Hp. rewrite lookup_delete_ne; [done|]. intros ->. by simplify_eq.
    + split; simpl; [lia|done|lia|]. intros _. by rewrite lookup_delete_eq.
  - split; [by split|]. split; [|done]. split; [lia|done| |lia]. intros _. by exists fd, pos.
Qed.

(** [AppendEntryHandler] fills an empty place. *)
Lemma AppendEntryHandler_corfu st m j e req :
  corfu_repr u n s z st m → m !! j = None → place_ok n s z j e → file_holds req [e] → log_idx e < 2 ^ 64 →
  ∃ st', C.AppendEntryHandler st req = Some (st', le_bytes 4 0) ∧ corfu_repr u n s z st' (<[j := e]> m).
Proof.
  intros Hr Hm Hp Hreq Hidx. pose proof Hp as (Hv & _ & Hez & Hi). pose proof Hreq as [Hlen Hl].
  pose proof (cr_u _ _ _ _ _ _ Hr) as Hu. pose proof (cr_s _ _ _ _ _ _ Hr) as Hs. simpl in Hlen.
  pose proof (Nat.div_mod j u ltac:(lia)) as Hdm. pose proof (Nat.mod_upper_bound j u ltac:(lia)) as Hmod.
  set (b := (j / u)%nat) in *. pose proof (unit_count_lt u m j Hu Hm) as Hlt. fold b in Hlt.
  unfold C.AppendEntryHandler.
  destruct (Deserializer_laid e LogEntry_default [] (msg_buf req) 0) as [-> _]; [done..|simpl; lia|].
  cbn [mbind option_bind]. rewrite Hi in *. destruct (C_base_of u n s z st m j Hr Hidx) as [-> Hloc].
  cbn [mbind option_bind]. fold b in Hloc |- *.
  destruct (get_fd st m b Hr Hlt) as (st1 & fd & -> & He1 & Ho1 & Hz1).
  rewrite <- Hi in Hloc. assert (j = b * u + j mod u)%nat as Hj by lia.
  destruct (put_entry_ok st1 m b (j mod u) fd e req Ho1 Hmod) as (st2 & -> & He2 & Ho2 & Hz2); rewrite <- ?Hj; try done.
  - intros j' e' Hj'. by destruct (cr_place _ _ _ _ _ _ Hr j' e' Hj') as (_ & _ & ? & _).
  - apply Hr.
  - apply Hr.
  - destruct He1 as [(_ & -> & _) _ _ _ _]. done.
  - rewrite <- Hj in Ho2. cbn [mbind option_bind]. eexists. split; [done|].
    pose proof (elsewhere_trans _ _ _ _ He1 He2) as He12.
    assert (unit_count u b (<[j := e]> m) = S (unit_count u b m)) as Hcnt
      by (rewrite unit_count_insert by done; by rewrite decide_True).
    destruct (close_if_full_ok st2 _ b fd Ho2) as (He3 & Hb3 & Hz3); [lia|apply Hr| |].
    { destruct He12 as [(-> & _) _ _ _ _]. apply Hr. }
    pose proof (elsewhere_trans _ _ _ _ He12 He3) as He. set (st3 := C.close_if_full st2 _) in *.
    split; try apply Hr.
    + destruct He as [(-> & _) _ _ _ _]. apply Hr.
    + destruct He as [(_ & -> & _) _ _ _ _]. apply Hr.
    + rewrite decide_False by apply insert_non_empty. rewrite Hz3, Hz2, Hz1, (cr_size _ _ _ _ _ _ Hr).
      pose proof (entry_size_pos e). case_decide; [done|]. by rewrite (proj2 (Z.eqb_neq _ _)) by lia.
    + intros j' e' [[<- <-]|[_ ?]]%lookup_insert_Some; [done|]. by apply Hr.
    + intros b'. destruct (decide (b' = b)) as [->|Hb]; [done|].
      apply (unit_ok_elsewhere b b' st st3 m); [done|done|lia|lia|..].
      * rewrite unit_count_insert by done. by rewrite decide_False by (fold b; congruence).
      * intros i Hi'. rewrite lookup_insert_ne; [done|]. intros Heq. apply Hb. symmetry. unfold b.
        rewrite Heq, Nat.div_add_l, Nat.div_small by lia. lia.
      * apply Hr.
Qed.
End Append.

(** ** Reading *)

Section Read.
Context `{Posix} (u n s : nat) (z : Z).

(** The request of a reader in the buffer of the server. *)
Definition read_request (req : buffer) (idx : Z) : Prop :=
  16 ≤ bcap req ∧ load_int 8 req 0 = Some idx.

Lemma read_request_msg idx rest :
  0 ≤ idx < 2 ^ 64 → (8 ≤ length rest)%nat → read_request (msg_buf (le_bytes 8 idx ++ rest)) idx.
Proof.
  intros Hidx Hrest. assert (16 ≤ bcap (msg_buf (le_bytes 8 idx ++ rest))) as Hcap
    by (unfold msg_buf; cbn [bcap]; rewrite length_app, length_le; lia).
  split; [done|]. rewrite load_int_ok by lia.
  assert (peek (rd (bmem (msg_buf (le_bytes 8 idx ++ rest)))) 0 8 = le_bytes 8 idx) as ->.
  { rewrite <- (length_le 8 idx) at 2. apply peek_eq_iff. intros i b Hi. rewrite Z.add_0_l.
    apply rd_msg_buf. by apply lookup_app_l_Some. }
  rewrite un_le_le; [done|]. of_nat_lit. lia.
Qed.

(** What a read finds in the file of a unit, through the open descriptor or through one
    of its own. *)
Lemma read_slot_ok st m b i bytes resp :
  corfu_repr u n s z st m → (0 < unit_count u b m)%nat → (i < u)%nat →
  files (C.os st) !! C.getDataFilePath st (key u n b) = Some bytes →
  let bs := take (Z.to_nat z) (drop (Z.to_nat (z * Z.of_nat i)) bytes) in
  0 ≤ z → lenZ bs ≤ bcap resp →
  C.read_slot st (key u n b) (Z.of_nat i) resp = Some (st, Some (bpoke resp 0 bs)).
Proof.
  intros Hr Hc Hi Hf bs Hz Hcap. pose proof Hr as []. destruct (cr_units0 b) as [_ _ H3 H4].
  assert (m ≠ ∅) as Hne by (intros ->; unfold unit_count in Hc; rewrite map_filter_empty, map_size_empty in Hc; lia).
  unfold C.read_slot. rewrite cr_size0, decide_False by done.
  rewrite (u64_small (z * Z.of_nat i)) by nia.
  assert (∀ o fd pos w, fds o !! fd = Some (mkOpen (C.getDataFilePath st (key u n b)) pos w) →
    files o = files (C.os st) → C.pread o fd z (z * Z.of_nat i) = Some bs) as Hpread.
  { intros o fd pos w Hof Hfs. unfold C.pread. rewrite Hof. cbn [mbind option_bind of_path].
    rewrite (proj2 (Z.leb_gt _ _)) by nia. by rewrite Hfs, Hf. }
  destruct (decide (unit_count u b m < u)%nat) as [Hlt|Hge].
  - destruct (H3 ltac:(lia)) as (fd & pos & -> & Hof & _). rewrite (Hpread _ _ _ _ Hof) by done.
    unfold C.read_into. by rewrite store_ok by lia.
  - rewrite (H4 ltac:(lia)). unfold open_rdonly. rewrite Hf. pose proof (fd_alloc_std (fds (C.os st))).
    rewrite (proj2 (Z.ltb_ge _ _)) by lia.
    rewrite (Hpread _ _ 0 false); [|cbn [fds]; by rewrite lookup_insert_eq|done].
    unfold C.read_into. rewrite store_ok by lia. cbn [mbind option_bind]. unfold close. cbn [files fds].
    rewrite delete_insert_id by apply fd_alloc_fresh. do 2 f_equal. destruct st as [? ? ? ? ? ? ? []]. done.
Qed.

Lemma read_entry_corfu `{Erpc} st m j e resp req :
  corfu_repr u n s z st m → m !! j = Some e → log_idx e < 2 ^ 64 → z ≤ bcap resp → read_request req (log_idx e) →
  ∃ resp' bs, C.ReadEntryHandler st resp req = Some (st, resp', bs) ∧ file_holds bs [e] ∧
    bcap resp' = bcap resp ∧ laid (rd (bmem resp')) 0 [e].
Proof.
  intros Hr Hj Hidx Hcap Hreq. pose proof (cr_u _ _ _ _ _ _ Hr) as Hu.
  destruct (cr_place _ _ _ _ _ _ Hr j e Hj) as (Hv & Hfl & Hez & Hi).
  pose proof (entry_size_pos e) as Hpos. rewrite Hez in Hpos.
  pose proof (Nat.mod_upper_bound j u ltac:(lia)) as Hmod. pose proof (Nat.div_mod j u ltac:(lia)) as Hdm.
  set (b := (j / u)%nat) in *.
  assert (0 < unit_count u b m)%nat as Hc.
  { destruct (decide (unit_count u b m = 0%nat)) as [H0'|]; [|lia].
    exfalso. by apply (unit_count_zero u b m j e). }
  destruct (uo_file _ _ _ _ _ _ (cr_units _ _ _ _ _ _ Hr b) Hc) as (bytes & Hf & Hs).
  specialize (Hs (j mod u)%nat Hmod). replace (b * u + j mod u)%nat with j in Hs by lia. rewrite Hj in Hs.
  destruct Hs as [Hlen Hl].
  pose proof (file_holds_slice bytes _ e Hl ltac:(nia) ltac:(lia)) as Hh. rewrite Hez in Hh.
  pose proof Hh as [Hbl Hbs]. simpl in Hbl. rewrite Z.add_0_r, Hez in Hbl.
  set (bs := take (Z.to_nat z) _) in *.
  unfold C.ReadEntryHandler. destruct Hreq as [Hrc ->]. cbn [mbind option_bind].
  rewrite (load_int_ok 8 req 8) by lia. cbn [mbind option_bind]. rewrite Hi in *.
  destruct (C_base_of u n s z st m j Hr Hidx) as [-> Hloc]. cbn [mbind option_bind]. rewrite Hloc. fold b.
  rewrite (read_slot_ok st m b (j mod u) bytes resp) by (done || (fold bs; lia)). fold bs. cbn [mbind option_bind].
  assert (laid (rd (bmem (bpoke resp 0 bs))) 0 [e]) as Hl'.
  { apply (laid_ext (rd (bmem (msg_buf bs))) _ 0); [|done]. intros a Ha. simpl in Ha. rewrite Z.add_0_r, Hez in Ha.
    symmetry. apply rd_bpoke_msg. lia. }
  destruct (Deserializer_laid e LogEntry_default [] (bpoke resp 0 bs) 0) as [-> _]; [done|done|lia|simpl; lia|].
  cbn [mbind option_bind]. rewrite Hfl. cbn [Z.eqb Pos.eqb negb]. rewrite Hez, send_ok by (simpl; lia).
  cbn [mbind option_bind]. eexists _, _. split; [done|]. split; [|done].
  assert (Z.to_nat z = length bs) as -> by lia. unfold bpoke. cbn [bmem]. by rewrite peek_poke_same.
Qed.
End Read.

(** ** Holes *)

Section Holes.
Context `{Posix} `{Erpc} (u n s : nat) (z : Z).

Lemma respond_noent_ok st resp : 4 ≤ bcap resp → ∃ resp', C.respond_noent st resp = Some (st, resp', le_bytes 4 2).
Proof.
  intros Hcap. unfold C.respond_noent, store_int. rewrite store_ok by (rewrite ?length_le; lia). by eexists.
Qed.

(** The handler up to the response buffer. *)
Lemma ReadEntryHandler_slot st m j resp req idx r :
  corfu_repr u n s z st m → idx = Z.of_nat s + Z.of_nat j * Z.of_nat n → idx < 2 ^ 64 → read_request req idx →
  C.read_slot st (key u n (j / u)) (Z.of_nat (j mod u)) resp = Some (st, r) →
  C.ReadEntryHandler st resp req =
    match r with
    | None => C.respond_noent st resp
    | Some resp =>
        '(e, len) ← Deserializer LogEntry_default resp 0;
        if negb (flags e =? 1) then C.respond_noent st resp else bs ← send resp len; Some (st, resp, bs)
    end.
Proof.
  intros Hr -> Hidx [Hrc Hreq] Hslot. unfold C.ReadEntryHandler. rewrite Hreq. cbn [mbind option_bind].
  rewrite (load_int_ok 8 req 8) by lia. cbn [mbind option_bind].
  destruct (C_base_of u n s z st m j Hr Hidx) as [-> Hloc]. cbn [mbind option_bind]. by rewrite Hloc, Hslot.
Qed.

(** An empty place before the end of the file, or in a unit without a file, is reported
    as such. *)
Lemma read_hole_corfu st m j resp req :
  let idx := Z.of_nat s + Z.of_nat j * Z.of_nat n in
  corfu_repr u n s z st m → m !! j = None → idx < 2 ^ 64 → 32 ≤ z ≤ bcap resp → read_request req idx →
  (∀ bytes, files (C.os st) !! C.getDataFilePath st (key u n (j / u)) = Some bytes →
    z * (Z.of_nat (j mod u) + 1) ≤ lenZ bytes) →
  ∃ resp', C.ReadEntryHandler st resp req = Some (st, resp', le_bytes 4 2).
Proof.
  intros idx Hr Hj Hidx Hz Hreq Hend. pose proof (cr_u _ _ _ _ _ _ Hr) as Hu.
  pose proof (Nat.mod_upper_bound j u ltac:(lia)) as Hmod. pose proof (Nat.div_mod j u ltac:(lia)) as Hdm.
  set (b := (j / u)%nat) in *. set (i := (j mod u)%nat) in *.
  destruct (cr_units _ _ _ _ _ _ Hr b) as [H1 H2 _ _].
  destruct (decide (unit_count u b m = 0%nat)) as [H0'|Hpos].
  - destruct (H1 H0') as [Hfd Hf]. rewrite (ReadEntryHandler_slot st m j resp req idx None); try done.
    + apply respond_noent_ok. lia.
    + unfold C.read_slot. fold b. by rewrite Hfd; unfold open_rdonly; rewrite Hf.
  - destruct (H2 ltac:(lia)) as (bytes & Hf & Hs). specialize (Hend bytes Hf). specialize (Hs i Hmod).
    replace (b * u + i)%nat with j in Hs by lia. rewrite Hj in Hs.
    set (bs := take (Z.to_nat z) (drop (Z.to_nat (z * Z.of_nat i)) bytes)).
    assert (lenZ bs = z) as Hbl by (unfold bs; rewrite length_take, length_drop; nia).
    erewrite (ReadEntryHandler_slot st m j resp req idx); [|done..|].
    2:{ fold b i. apply (read_slot_ok u n s z st m b i bytes resp); try done; try lia. fold bs. lia. }
    cbn iota. fold bs.
    destruct (Deserializer_unset LogEntry_default (bpoke resp 0 bs) 0) as (e & -> & Hfl & _); [lia|simpl; unfold MetaDataSize, FlagPos; lia| |].
    { etrans; [apply (peek_ext _ (λ _, Byte.x00) _ 0)|done]. intros a Ha. change (0 + FlagPos) with 28.
      rewrite rd_bpoke_msg by lia. unfold bs. rewrite rd_slice by nia. apply Hs. lia. }
    cbn [mbind option_bind]. rewrite Hfl. apply respond_noent_ok. simpl. lia.
Qed.

(** Past the end of the file nothing is read, and the response buffer is decoded as it
    was. *)
Lemma read_past_end st m j resp req old bytes :
  let idx := Z.of_nat s + Z.of_nat j * Z.of_nat n in
  corfu_repr u n s z st m → (0 < unit_count u (j / u) m)%nat → idx < 2 ^ 64 → 0 ≤ z → read_request req idx →
  files (C.os st) !! C.getDataFilePath st (key u n (j / u)) = Some bytes → lenZ bytes ≤ z * Z.of_nat (j mod u) →
  valid_entry old → flags old = 1 → laid (rd (bmem resp)) 0 [old] → entry_size old ≤ bcap resp →
  ∃ bs, C.ReadEntryHandler st resp req = Some (st, bpoke resp 0 [], bs) ∧ file_holds bs [old].
Proof.
  intros idx Hr Hc Hidx Hz Hreq Hf Hend Hv Hfl Hl Hcap. pose proof (cr_u _ _ _ _ _ _ Hr) as Hu.
  pose proof (Nat.mod_upper_bound j u ltac:(lia)) as Hmod. pose proof (entry_size_pos old).
  assert (take (Z.to_nat z) (drop (Z.to_nat (z * Z.of_nat (j mod u))) bytes) = []) as Hnil
    by (rewrite drop_ge by lia; apply take_nil).
  erewrite (ReadEntryHandler_slot st m j resp req idx); [|done..|].
  2:{ apply (read_slot_ok u n s z st m _ _ bytes resp); try done. rewrite Hnil. simpl. lia. }
  rewrite Hnil. cbn iota.
  assert (laid (rd (bmem (bpoke resp 0 []))) 0 [old]) as Hl'.
  { eapply laid_ext; [|exact Hl]. intros a Ha. symmetry. apply rd_poke_out. simpl. lia. }
  destruct (Deserializer_laid old LogEntry_default [] (bpoke resp 0 []) 0) as [-> _]; [done|done|lia|simpl; lia|].
  cbn [mbind option_bind]. rewrite Hfl. cbn [Z.eqb Pos.eqb negb]. rewrite send_ok by (simpl; lia).
  cbn [mbind option_bind]. eexists. split; [done|].
  replace (entry_size old) with (total_size [old]) by (simpl; lia). by apply file_holds_peek.
Qed.
End Holes.
