(* ===== verification/CorfuLog.v ===== *)
(** The log of the [CORFU] build: positions from the durability log, entries on the
    shards.

    Clients take positions one at a time and write their entries to the replicas on their
    own, so that between an entry and its neighbour anything can happen in any order.
    Shown: whatever the order, an entry that was written is read back at its position;
    and two ways in which the code falls short of that. *)

From stdpp Require Import strings pretty fin_map_dom.
From S2P Require Import Prelude Props Sequencer LogEntry DlTransport ShardServer ShardRepr DurLogBase.
From S2P Require Import Client Corfu CorfuRepr.

Local Open Scope Z_scope.

(** ** Backends *)

Section Backend.
Context `{Posix} `{Erpc} (u n : nat) (z : Z).
Context (Hcreate : ∀ p, may_create p = true) (Hwrite : ∀ k, write_len k = k).

(** The shards of a backend hold the entries [m] of the log. *)
Record shard_holds (s : nat) (g : C.Shard) (m : gmap nat LogEntry) : Prop := {
  sh_req : z ≤ C.req_cap g ∧ 8 ≤ C.req_cap g;
  sh_resp : z ≤ bcap (C.pre_resp g);
  sh_slack : (8 ≤ length (C.slack g))%nat;
  sh_repr : ∃ ms, corfu_repr u n s z (C.server g) ms ∧ ∀ j, ms !! j = m !! (s + j * n)%nat
}.

Record backend_repr (be : C.NaiveReadBackend) (m : gmap nat LogEntry) : Prop := {
  br_n : 0 < Z.of_nat n < 2 ^ 31;
  br_num : C.rb_shard_num be = Z.of_nat n;
  br_shards : ∀ s, (s < n)%nat → ∃ g, C.rb_shards be !! Z.of_nat s = Some g ∧ shard_holds s g m
}.

(** An entry for position [p]. *)
Definition entry_for (p : nat) (e : LogEntry) : Prop :=
  valid_entry e ∧ flags e = 1 ∧ entry_size e = z ∧ log_idx e = Z.of_nat p ∧ Z.of_nat p < 2 ^ 64.

Lemma rb_shard_ok be m p :
  backend_repr be m → Z.of_nat p < 2 ^ 64 →
  ∃ g, C.rb_shard be (Z.of_nat p) = Some (Z.of_nat (p mod n), g) ∧ shard_holds (p mod n) g m ∧ (p mod n < n)%nat ∧
    C.rb_shards be !! Z.of_nat (p mod n) = Some g.
Proof.
  intros [Hn Hnum Hs] Hp. pose proof (Nat.mod_upper_bound p n ltac:(lia)) as Hmod.
  destruct (Hs _ Hmod) as (g & Hg & Hh). exists g. unfold C.rb_shard.
  rewrite Hnum, u64_small, (proj2 (Z.eqb_neq _ _)) by lia. rewrite <- Nat2Z.inj_mod, i32_small by lia.
  rewrite Hg. by split_and!.
Qed.

Lemma place_div p : (0 < n)%nat → (p = p mod n + (p / n) * n)%nat.
Proof. intros Hn. pose proof (Nat.div_mod p n ltac:(lia)). lia. Qed.

Lemma shard_AppendEntry_ok s g m j e :
  let p := (s + j * n)%nat in
  shard_holds s g m → m !! p = None → entry_for p e → (s < n)%nat →
  ∃ g', C.shard_AppendEntry g e = Some (g', false) ∧ shard_holds s g' (<[p := e]> m).
Proof.
  intros p [[Hrc Hrc8] Hresp Hslack (ms & Hr & Hms)] Hp (Hv & Hfl & Hez & Hidx & Hp64) Hs.
  unfold C.shard_AppendEntry. pose proof (entry_size_pos e).
  destruct (Serializer_step e (Buf (C.req_cap g) ∅) 0) as (b & -> & Hf & He); [apply Hv|lia|simpl; lia|].
  destruct Hf as [Hbc _]. cbn [mbind option_bind]. rewrite send_ok by (simpl in *; lia). cbn [mbind option_bind].
  assert (file_holds (peek (rd (bmem b)) 0 (Z.to_nat (entry_size e))) [e]) as Hreq.
  { replace (entry_size e) with (total_size [e]) by (simpl; lia). by apply file_holds_peek; split. }
  assert (ms !! j = None) as Hj by (rewrite Hms; done).
  destruct (AppendEntryHandler_corfu u n s z Hcreate Hwrite (C.server g) ms j e
    (peek (rd (bmem b)) 0 (Z.to_nat (entry_size e))) Hr Hj) as (st' & -> & Hr'); [|done|lia|].
  { split_and!; try done. rewrite Hidx. unfold p. lia. }
  cbn [mbind option_bind]. rewrite length_le. eexists. split; [done|]. split; [done|done|done|].
  exists (<[j := e]> ms). split; [done|]. intros j'. destruct (decide (j' = j)) as [->|Hne].
  - by rewrite !lookup_insert_eq.
  - rewrite !lookup_insert_ne by nia. apply Hms.
Qed.

(** Writing an entry to a backend. *)
Lemma AppendBatch_corfu be m p e :
  backend_repr be m → m !! p = None → entry_for p e →
  ∃ be', C.AppendBatch be [e] = Some (be', 0) ∧ backend_repr be' (<[p := e]> m).
Proof.
  intros Hr Hp He. pose proof He as (_ & _ & _ & Hidx & Hp64). pose proof (br_n _ _ Hr) as Hn.
  destruct (rb_shard_ok be m p Hr Hp64) as (g & Hg & Hh & Hmod & _).
  unfold C.AppendBatch. cbn [lookup list_lookup mbind option_bind]. rewrite Hidx, Hg. cbn [mbind option_bind].
  pose proof (place_div p ltac:(lia)) as Hpd. rewrite Hpd in Hp, He.
  destruct (shard_AppendEntry_ok _ g m (p / n) e Hh Hp He Hmod) as (g' & -> & Hh'). rewrite <- Hpd in Hh'.
  cbn [mbind option_bind]. eexists. split; [done|]. destruct Hr as [? ? Hs]. split; [done|done|].
  intros s Hsn. simpl. destruct (decide (s = p mod n)%nat) as [->|Hne].
  - exists g'. by rewrite lookup_insert_eq.
  - rewrite lookup_insert_ne by lia. destruct (Hs s Hsn) as (gs & Hgs & [Hc1 Hc2 Hc3 (ms & Hms & Heq)]).
    exists gs. split; [done|]. split; try done. exists ms. split; [done|]. intros j.
    rewrite lookup_insert_ne; [apply Heq|]. intros ->. apply Hne.
    rewrite Nat.Div0.mod_add. symmetry. by apply Nat.mod_small.
Qed.

Lemma rb_ReadEntry_corfu be m p e e0 :
  backend_repr be m → m !! p = Some e → Z.of_nat p < 2 ^ 64 →
  ∃ be', C.rb_ReadEntry be (Z.of_nat p) e0 = Some (be', true, e).
Proof.
  intros Hr Hp Hp64. destruct (rb_shard_ok be m p Hr Hp64) as (g & Hg & [[Hrc Hrc8] Hresp Hslack (ms & Hms & Heq)] & Hmod & _).
  pose proof (br_n _ _ Hr). pose proof (place_div p ltac:(lia)) as Hpd.
  assert (ms !! (p / n)%nat = Some e) as Hj by (rewrite Heq, <- Hpd; done).
  destruct (cr_place _ _ _ _ _ _ Hms _ _ Hj) as (Hv & _ & Hez & Hidx).
  assert (log_idx e = Z.of_nat p) as Hip by (rewrite Hidx; lia).
  unfold C.rb_ReadEntry, C.shard_ReadEntry, store_int. rewrite Hg. cbn [mbind option_bind].
  rewrite store_ok by (rewrite ?length_le; simpl; lia). cbn [mbind option_bind].
  rewrite send_ok by (simpl; lia). cbn [mbind option_bind]. change (Z.to_nat 8) with (length (le_bytes 8 (Z.of_nat p))).
  unfold bpoke at 1. cbn [bmem]. rewrite peek_poke_same.
  destruct (read_entry_corfu u n (p mod n) z (C.server g) ms (p / n) e (C.pre_resp g)
    (msg_buf (le_bytes 8 (Z.of_nat p) ++ C.slack g)) Hms Hj) as (resp' & bs & -> & [Hlen Hl] & _); [lia|done| |].
  { rewrite Hip. apply read_request_msg; [lia|done]. }
  cbn [mbind option_bind]. simpl in Hlen. pose proof (entry_size_pos e).
  rewrite (proj2 (Z.leb_gt _ _)) by lia.
  destruct (Deserializer_laid e e0 [] (msg_buf bs) 0) as [-> _]; [done|done|lia|simpl; lia|].
  cbn [mbind option_bind]. by eexists.
Qed.
End Backend.

(** ** Clients *)

Definition replica (r : nat) (be : C.Storage) : C.NaiveReadBackend :=
  match r with 0%nat => C.pri be | 1%nat => C.bak be | _ => C.bak2 be end.
Definition with_replica (r : nat) (be : C.Storage) (b : C.NaiveReadBackend) : C.Storage :=
  match r with
  | 0%nat => C.mkStorage b (C.bak be) (C.bak2 be)
  | 1%nat => C.mkStorage (C.pri be) b (C.bak2 be)
  | _ => C.mkStorage (C.pri be) (C.bak be) b
  end.

(** The steps of [AppendEntryAll]: a client takes a position, or writes the entry of its
    position to a replica.  The steps of several clients come in any order. *)
Inductive event : Type := TakeGsn | Put (r p : nat).

Section Events.
Context `{Posix} `{Erpc} (resp : buffer) (k : ErpcCli) (ent : nat → LogEntry).

Definition do_event (sb : DurabilityLog.t * C.Storage) (ev : event) : outcome (DurabilityLog.t * C.Storage) :=
  match ev with
  | TakeGsn => '(_, s, _) ← C.getGSN resp k sb.1; Ok (s, sb.2)
  | Put r p => '(b, _) ← lift (C.AppendBatch (replica r sb.2) [ent p]); Ok (sb.1, with_replica r sb.2 b)
  end.

Fixpoint do_events (sb : DurabilityLog.t * C.Storage) (evs : list event) : outcome (DurabilityLog.t * C.Storage) :=
  match evs with
  | [] => Ok sb
  | ev :: evs => sb ← do_event sb ev; do_events sb evs
  end.

(** A position is written after it was taken, and once to a replica. *)
Fixpoint in_order (g : nat) (puts : list (nat * nat)) (evs : list event) : Prop :=
  match evs with
  | [] => True
  | TakeGsn :: evs => in_order (S g) puts evs
  | Put r p :: evs => (r < 3)%nat ∧ (p < g)%nat ∧ ((r, p) ∉ puts) ∧ in_order g ((r, p) :: puts) evs
  end.
End Events.

Section Log.
Context `{Posix} `{Erpc} (u n : nat) (z : Z).
Context (Hcreate : ∀ p, may_create p = true) (Hwrite : ∀ k, write_len k = k).
Context (resp : buffer) (k : ErpcCli) (Hresp : 8 ≤ bcap resp) (ent : nat → LogEntry).
Context (bound : nat) (Hent : ∀ p, (p < bound)%nat → entry_for z p (ent p)) (Hbound : Z.of_nat bound < 2 ^ 64).

(** Every replica holds the entries that were written to it. *)
Definition storage_repr (be : C.Storage) (puts : list (nat * nat)) : Prop :=
  ∀ r, (r < 3)%nat → ∃ m, backend_repr u n z (replica r be) m ∧
    ∀ p, m !! p = (if decide ((r, p) ∈ puts) then Some (ent p) else None).

Lemma getGSN_ok (k' : ErpcCli) s g :
  DurabilityLog.gsn s = Z.of_nat g → (g < bound)%nat → 0 ≤ bcap (req_ k') →
  ∃ k2 s2, C.getGSN resp k' s = Ok (k2, s2, Z.of_nat g) ∧ DurabilityLog.gsn s2 = Z.of_nat (S g).
Proof.
  intros Hg Hlt Hk. unfold C.getGSN, round_trip. rewrite send_ok by lia. cbn [lift mbind outcome_bind].
  unfold C.gsn_handle. cbn [C.GET_GSN Z.eqb Pos.eqb]. unfold C.GetGSNHandler. cbn [DurabilityLog.GetGSN].
  rewrite respond_u64_ok by done. cbn [lift mbind outcome_bind]. unfold pollForRpcComplete.
  cbn [notifyRpcComplete with_complete complete_ negb lift mbind outcome_bind].
  unfold C.received_gsn. change (resp_ _) with (le_bytes 8 (DurabilityLog.gsn s)).
  rewrite (length_le 8), (proj2 (Z.ltb_ge _ _)) by lia. rewrite Hg, load_u64_response by lia. cbn [lift mbind outcome_bind]. eexists _, _. split; [done|].
  cbn [DurabilityLog.with_gsn DurabilityLog.gsn]. rewrite u64_small by lia. lia.
Qed.

Lemma replica_with r r' be b :
  (r < 3)%nat → (r' < 3)%nat → replica r' (with_replica r be b) = if decide (r' = r) then b else replica r' be.
Proof. intros Hr Hr'. destruct r as [|[|[|r]]], r' as [|[|[|r']]]; try lia; done. Qed.

Lemma put_ok be puts r p :
  storage_repr be puts → (r < 3)%nat → (p < bound)%nat → (r, p) ∉ puts →
  ∃ b, C.AppendBatch (replica r be) [ent p] = Some (b, 0) ∧ storage_repr (with_replica r be b) ((r, p) :: puts).
Proof.
  intros Hs Hr Hp Hn. destruct (Hs r Hr) as (m & Hm & Hl).
  destruct (AppendBatch_corfu u n z Hcreate Hwrite (replica r be) m p (ent p) Hm) as (b & Hb & Hm');
    [by rewrite Hl, decide_False|by apply Hent|].
  exists b. split; [done|]. intros r' Hr'. rewrite replica_with by done. case_decide as Heq.
  - subst r'. eexists. split; [done|]. intros p'. destruct (decide (p' = p)) as [->|Hne].
    + rewrite lookup_insert_eq, decide_True; [done|by left].
    + rewrite lookup_insert_ne, Hl by done. apply decide_ext. rewrite elem_of_cons. naive_solver.
  - destruct (Hs r' Hr') as (m' & Hm2 & Hl2). exists m'. split; [done|]. intros p'. rewrite Hl2.
    apply decide_ext. rewrite elem_of_cons. naive_solver.
Qed.

(** A write to each of the three. *)
Lemma put_everywhere be puts p :
  storage_repr be puts → (p < bound)%nat → (∀ r, (r, p) ∉ puts) →
  ∃ b b2 b3, C.AppendBatch (C.pri be) [ent p] = Some (b, 0) ∧ C.AppendBatch (C.bak be) [ent p] = Some (b2, 0) ∧
    C.AppendBatch (C.bak2 be) [ent p] = Some (b3, 0) ∧
    storage_repr (C.mkStorage b b2 b3) ((2, p) :: (1, p) :: (0, p) :: puts)%nat.
Proof.
  intros Hs Hp Hn.
  destruct (put_ok be puts 0 p Hs ltac:(lia) Hp (Hn _)) as (b & Hb & Hs1).
  destruct (put_ok _ _ 1 p Hs1 ltac:(lia) Hp) as (b2 & Hb2 & Hs2); [rewrite elem_of_cons; naive_solver|].
  destruct (put_ok _ _ 2 p Hs2 ltac:(lia) Hp) as (b3 & Hb3 & Hs3); [rewrite !elem_of_cons; naive_solver|].
  exists b, b2, b3. done.
Qed.

(** Reading what was written. *)
Lemma read_put be puts r p e0 :
  storage_repr be puts → (r < 3)%nat → Z.of_nat p < 2 ^ 64 → (r, p) ∈ puts →
  ∃ b, C.rb_ReadEntry (replica r be) (Z.of_nat p) e0 = Some (b, true, ent p).
Proof.
  intros Hs Hr Hp Hin. destruct (Hs r Hr) as (m & Hm & Hl). apply (rb_ReadEntry_corfu u n z _ m p); [done| |done].
  by rewrite Hl, decide_True.
Qed.

(** The number of positions taken. *)
Fixpoint takes (evs : list event) : nat :=
  match evs with [] => 0 | TakeGsn :: evs => S (takes evs) | Put _ _ :: evs => takes evs end.

Lemma do_events_ok evs s be g puts :
  0 ≤ bcap (req_ k) → DurabilityLog.gsn s = Z.of_nat g → storage_repr be puts → in_order g puts evs →
  (g + takes evs ≤ bound)%nat →
  ∃ s' be' puts', do_events resp k ent (s, be) evs = Ok (s', be') ∧
    DurabilityLog.gsn s' = Z.of_nat (g + takes evs) ∧ storage_repr be' puts' ∧
    (∀ r p, (r, p) ∈ puts' ↔ (r, p) ∈ puts ∨ Put r p ∈ evs) ∧
    (∀ r p, (r, p) ∈ puts' → (r, p) ∈ puts ∨ (r < 3 ∧ p < g + takes evs)%nat).
Proof.
  intros Hk. revert s be g puts. induction evs as [|[|r p] evs IH]; intros s be g puts Hg Hs Ho Hb.
  - exists s, be, puts. simpl in *. rewrite Nat.add_0_r. split_and!; try done; [|by left].
    intros r p. split; [by left|]. intros [|Hin]; [done|]. by apply not_elem_of_nil in Hin.
  - simpl in Hb. cbn [do_events do_event fst snd].
    destruct (getGSN_ok k s g Hg ltac:(lia) Hk) as (k2 & s2 & -> & Hg2). cbn [mbind outcome_bind].
    destruct (IH s2 be (S g) puts Hg2 Hs Ho ltac:(lia)) as (s' & be' & puts' & Hd & Hg' & Hs' & Hp & Hp').
    exists s', be', puts'. simpl takes. rewrite Nat.add_succ_r. split_and!; try done.
    intros r p. rewrite Hp, elem_of_cons. naive_solver.
  - destruct Ho as (Hr & Hpg & Hn & Ho). simpl in Hb. cbn [do_events do_event fst snd].
    destruct (put_ok be puts r p Hs Hr ltac:(lia) Hn) as (b & -> & Hs1). cbn [lift mbind outcome_bind].
    destruct (IH s _ g _ Hg Hs1 Ho Hb) as (s' & be' & puts' & Hd & Hg' & Hs' & Hp & Hp').
    exists s', be', puts'. simpl takes. split_and!; try done.
    + intros r' p'. rewrite Hp, !elem_of_cons. naive_solver.
    + intros r' p' Hin. destruct (Hp' r' p' Hin) as [[Heq|?]%elem_of_cons|?]; [|by left|by right].
      simplify_eq. right. lia.
Qed.
End Log.

(** What a client makes of an answer. *)
Definition decoded_as (bs : list byte) : option (LogEntry * Z) := Deserializer LogEntry_default (msg_buf bs) 0.

(** ** A fresh storage *)

Definition fresh_corfu (u n s : nat) : C.t :=
  C.mk ∅ ∅ 0 (Z.of_nat u) (Z.of_nat n) (Z.of_nat s) "./data/" (mkOs ∅ ∅).

(** Message buffers of [cap] bytes everywhere. *)
Definition fresh_backend (u n : nat) (cap : Z) : C.NaiveReadBackend :=
  C.mkReadBackend (Z.of_nat n)
    (map_seqZ 0 ((λ s, C.mkCorfuShard (fresh_corfu u n s) (Buf cap ∅) cap (replicate 8 Byte.x00)) <$> seq 0 n)).

(** Sizes that the representation needs: counters and offsets do not overflow. *)
Record sizes_ok (u n : nat) (z cap : Z) : Prop := {
  so_u : 0 < Z.of_nat u < 2 ^ 31;
  so_n : 0 < Z.of_nat n < 2 ^ 31;
  so_file : z * Z.of_nat u < 2 ^ 63;
  so_z : 32 ≤ z ≤ cap
}.

(** A server that was just started, on an empty folder. *)
Lemma fresh_corfu_repr u n s z st :
  0 < Z.of_nat u < 2 ^ 31 → 0 < Z.of_nat n < 2 ^ 31 → z * Z.of_nat u < 2 ^ 63 → (s < n)%nat →
  C.entries_fd_set_ st = ∅ → C.entry_size_ st = 0 → C.stripe_unit_size_ st = Z.of_nat u → C.shard_num_ st = Z.of_nat n →
  files (C.os st) = ∅ → corfu_repr u n s z st ∅.
Proof.
  intros Hu Hn Hf Hs E1 E2 E3 E4 E5. split; try done; try lia; [nia|]. intros b.
  assert (unit_count u b ∅ = 0%nat) as Hc by (unfold unit_count; by rewrite map_filter_empty, map_size_empty).
  split; rewrite Hc, ?E1, ?E5; [done|lia|lia|lia].
Qed.

Lemma fresh_backend_repr u n z cap : sizes_ok u n z cap → backend_repr u n z (fresh_backend u n cap) ∅.
Proof.
  intros [Hu Hn Hf Hz]. split; [done|done|]. intros s Hs. unfold fresh_backend. cbn [C.rb_shards].
  eexists. rewrite lookup_map_seqZ_0, Nat2Z.id, list_lookup_fmap, lookup_seq_lt by lia. split; [done|].
  split; simpl; [lia|lia|lia|]. exists ∅. split; [by apply fresh_corfu_repr|intros j; by rewrite !lookup_empty].
Qed.

(** [AppendEntryAll] is one position and one write to each replica. *)
Lemma AppendEntryAll_puts `{Posix} `{Erpc} resp c k s be d k' s' g b b2 b3 :
  let e := set_log_idx (constructLogEntry c d).1 g in
  C.getGSN resp k s = Ok (k', s', g) →
  C.AppendBatch (C.pri be) [e] = Some (b, 0) → C.AppendBatch (C.bak be) [e] = Some (b2, 0) →
  C.AppendBatch (C.bak2 be) [e] = Some (b3, 0) →
  C.AppendEntryAll resp c k s be d =
    Ok ((constructLogEntry c d).2, k', s', C.mkStorage b b2 b3, (client_id e, client_seq e)).
Proof.
  unfold C.AppendEntryAll. destruct (constructLogEntry c d) as [e c']. simpl. intros -> H1 H2 H3.
  cbn [mbind outcome_bind]. rewrite H1. cbn [lift mbind outcome_bind]. rewrite H2. cbn [lift mbind outcome_bind].
  by rewrite H3.
Qed.

(** Clients that start with an empty storage: every entry that was written is read back,
    and one more [AppendEntryAll] puts its entry at the next position of all replicas. *)
Lemma corfu_run `{Posix} `{Erpc} u n z resp k ent evs e0 be0 :
  (∀ p, may_create p = true) → (∀ j, write_len j = j) → 8 ≤ bcap resp → 0 ≤ bcap (req_ k) →
  (∀ r, (r < 3)%nat → backend_repr u n z (replica r be0) ∅) →
  (∀ p, (p < takes evs)%nat → entry_for z p (ent p)) → Z.of_nat (takes evs) < 2 ^ 64 - 1 → in_order 0 [] evs →
  ∃ s be, do_events resp k ent (DurabilityLog.init, be0) evs = Ok (s, be) ∧
    DurabilityLog.gsn s = Z.of_nat (takes evs) ∧
    (∀ r p, Put r p ∈ evs → ∃ b, C.rb_ReadEntry (replica r be) (Z.of_nat p) e0 = Some (b, true, ent p)) ∧
    ∀ c d, let e := set_log_idx (constructLogEntry c d).1 (Z.of_nat (takes evs)) in
      entry_for z (takes evs) e →
      ∃ c' k' s' be', C.AppendEntryAll resp c k s be d = Ok (c', k', s', be', (client_id e, client_seq e)) ∧
        ∀ r, (r < 3)%nat → ∃ b, C.rb_ReadEntry (replica r be') (DurabilityLog.gsn s) e0 = Some (b, true, e).
Proof.
  intros Hcreate Hwrite Hresp Hk Hbe0 Hent H64 Ho.
  destruct (do_events_ok u n z Hcreate Hwrite resp k Hresp ent (takes evs) Hent ltac:(lia) evs DurabilityLog.init
    be0 0 []) as (s & be & puts & Hd & Hg & Hs & Hin & Hlt); try done.
  { intros r Hr. exists ∅. split; [by apply Hbe0|done]. }
  exists s, be. split; [done|]. split; [done|]. split.
  - intros r p Hp. assert ((r, p) ∈ puts) as Hpp by (apply Hin; by right).
    destruct (Hlt r p Hpp) as [Hnil|[Hr Hpt]]; [by apply not_elem_of_nil in Hnil|].
    apply (read_put u n z ent be puts); (done || lia).
  - intros c d e He. set (g := takes evs) in *.
    set (ent' := λ p, if decide (p = g) then e else ent p).
    assert (∀ p, (p < S g)%nat → entry_for z p (ent' p)) as Hent'.
    { intros p Hp. unfold ent'. case_decide; [by subst|]. apply Hent. lia. }
    assert (∀ r, (r, g) ∉ puts) as Hng.
    { intros r Hr. destruct (Hlt r g Hr) as [Hnil|[_ ?]]; [by apply not_elem_of_nil in Hnil|simpl in *; lia]. }
    assert (storage_repr u n z ent' be puts) as Hs0.
    { intros r Hr. destruct (Hs r Hr) as (m & Hm & Hl). exists m. split; [done|]. intros p. rewrite Hl.
      case_decide as Hp; [|done]. unfold ent'. rewrite decide_False; [done|]. intros ->. by apply (Hng r). }
    destruct (getGSN_ok resp Hresp (S g) ltac:(lia) k s g Hg ltac:(lia) Hk) as (k2 & s2 & Hgsn & _).
    assert (ent' g = e) as Heg by (unfold ent'; by rewrite decide_True).
    destruct (put_everywhere u n z Hcreate Hwrite ent' (S g) Hent' be puts g Hs0 ltac:(lia) Hng)
      as (b & b2 & b3 & H1 & H2 & H3 & Hs3). rewrite Heg in H1, H2, H3.
    eexists _, k2, s2, _. split; [by apply AppendEntryAll_puts|]. intros r Hr. rewrite Hg, <- Heg. simpl.
    apply (read_put u n z ent' _ _ r g e0 Hs3); [done|lia|]. rewrite !elem_of_cons.
    destruct r as [|[|[|r]]]; [naive_solver..|lia].
Qed.

(** Two shards with units of two entries; the second client writes first. *)
Definition corfu_entry (p : nat) : LogEntry := mkEntry 42 (Z.of_nat p) (Z.of_nat p) 2 1 0 [Byte.x41; Byte.x42].
Definition corfu_events : list event :=
  [TakeGsn; TakeGsn; Put 0 1; Put 0 0; Put 1 0; Put 2 0; Put 2 1; Put 1 1]%nat.

Lemma corfu_entry_for p : (p < 2)%nat → entry_for 36 p (corfu_entry p).
Proof.
  intros Hp. destruct p as [|[|p]]; [..|lia]; (split_and!; [|done..]);
    by apply (bool_decide_unpack (valid_entry _)); vm_compute.
Qed.

(** C39. With [CORFU], a read can return the answer to an earlier read.  When a file ends
    before the place of a position that is not written yet, [pread] returns nothing; the
    handler only reports this and decodes the response buffer, which still holds the
    entry of the previous read. *)
Theorem corfu_read_stale `{Posix} `{Erpc} u n s z st m j0 e j bytes resp rest :
  let idx := Z.of_nat s + Z.of_nat j * Z.of_nat n in
  corfu_repr u n s z st m → m !! j0 = Some e → log_idx e < 2 ^ 64 → idx < 2 ^ 64 →
  (0 < unit_count u (j / u) m)%nat →
  files (C.os st) !! C.getDataFilePath st (key u n (j / u)) = Some bytes → lenZ bytes ≤ z * Z.of_nat (j mod u) →
  z ≤ bcap resp → (8 ≤ length rest)%nat →
  m !! j = None ∧
  ∃ resp1 resp2 bs1 bs2,
    C.ReadEntryHandler st resp (msg_buf (le_bytes 8 (log_idx e) ++ rest)) = Some (st, resp1, bs1) ∧
    C.ReadEntryHandler st resp1 (msg_buf (le_bytes 8 idx ++ rest)) = Some (st, resp2, bs2) ∧
    decoded_as bs2 = Some (e, entry_size e).
Proof.
  intros idx Hr He Hidx Hj64 Hc Hf Hend Hresp Hrest. pose proof (cr_u _ _ _ _ _ _ Hr) as Hu.
  destruct (cr_place _ _ _ _ _ _ Hr j0 e He) as (Hv & Hfl & Hez & Hi). pose proof (entry_size_pos e).
  pose proof (Nat.mod_upper_bound j u ltac:(lia)) as Hmod. pose proof (Nat.div_mod j u ltac:(lia)) as Hdm.
  split.
  - destruct (m !! j) as [x|] eqn:E; [|done]. exfalso.
    destruct (uo_file _ _ _ _ _ _ (cr_units _ _ _ _ _ _ Hr (j / u)%nat) Hc) as (bytes' & Hf' & Hs).
    specialize (Hs (j mod u)%nat Hmod). replace (j / u * u + j mod u)%nat with j in Hs by lia. rewrite E in Hs.
    destruct Hs as [Hs _]. simplify_eq. nia.
  - destruct (read_entry_corfu u n s z st m j0 e resp (msg_buf (le_bytes 8 (log_idx e) ++ rest)) Hr He Hidx Hresp)
      as (resp1 & bs1 & Hr1 & _ & Hcap & Hl1); [apply read_request_msg; [nia|done]|].
    destruct (read_past_end u n s z st m j resp1 (msg_buf (le_bytes 8 idx ++ rest)) e bytes)
      as (bs2 & Hr2 & [Hlen Hl]); try done; try lia.
    { apply read_request_msg; [unfold idx in *; lia|done]. }
    eexists resp1, _, bs1, bs2. split; [done|]. split; [done|].
    unfold decoded_as. simpl in Hlen.
    destruct (Deserializer_laid e LogEntry_default [] (msg_buf bs2) 0) as [-> _]; try done. simpl. lia.
Qed.

(** One entry in a unit of two; the place of the second is read after it. *)
Definition corfu_message (e : LogEntry) : list byte :=
  match Serializer e (Buf 64 ∅) 0 with
  | Some (b, _) => peek (rd (bmem b)) 0 (Z.to_nat (total_size [e]))
  | None => []
  end.

Lemma corfu_message_holds e : wf_entry e → entry_size e ≤ 64 → file_holds (corfu_message e) [e].
Proof.
  intros Hwf Hsz. destruct (Serializer_step e (Buf 64 ∅) 0 Hwf ltac:(lia) ltac:(simpl; lia)) as (b & Hs & _ & He).
  unfold corfu_message. rewrite Hs. by apply file_holds_peek; split.
Qed.

(** The file after the first entry. *)
Definition stale_check (h : option (C.t * list byte)) : bool :=
  match h with
  | Some (st, _) => match files (C.os st) !! C.getDataFilePath st 0 with
                    | Some bytes => (length bytes =? 36)%nat
                    | None => false
                    end
  | None => false
  end.

Lemma corfu_read_stale_witness :
  ∃ st resp1 resp2 bs1 bs2,
    C.AppendEntryHandler (fresh_corfu 2 1 0) (corfu_message (corfu_entry 0)) = Some (st, le_bytes 4 0) ∧
    C.ReadEntryHandler st (Buf 64 ∅) (msg_buf (le_bytes 8 0 ++ le_bytes 8 0)) = Some (st, resp1, bs1) ∧
    C.ReadEntryHandler st resp1 (msg_buf (le_bytes 8 1 ++ le_bytes 8 0)) = Some (st, resp2, bs2) ∧
    decoded_as bs2 = Some (corfu_entry 0, 36).
Proof.
  destruct (corfu_entry_for 0 ltac:(lia)) as (Hv & Hfl & Hez & Hidx & _).
  destruct (fresh_backend_repr 2 1 36 64 ltac:(split; lia)) as [_ _ Hfresh].
  destruct (Hfresh 0%nat ltac:(lia)) as (g & Hg & [_ _ _ (ms & Hr & Hms)]).
  assert (ms = ∅) as -> by (apply map_empty; intros j; by rewrite Hms).
  change (C.rb_shards (fresh_backend 2 1 64) !! Z.of_nat 0) with
    (Some (C.mkCorfuShard (fresh_corfu 2 1 0) (Buf 64 ∅) 64 (replicate 8 Byte.x00))) in Hg.
  injection Hg as <-. cbn [C.server] in Hr.
  destruct (AppendEntryHandler_corfu (H := Posix_plain) 2 1 0 36 (λ _, eq_refl) (λ _, eq_refl) _ ∅ 0 (corfu_entry 0)
    (corfu_message (corfu_entry 0)) Hr (lookup_empty _)) as (st & Hst & Hr');
    [by split_and!|apply corfu_message_holds; [apply Hv|done]|done|].
  assert (stale_check (C.AppendEntryHandler (fresh_corfu 2 1 0) (corfu_message (corfu_entry 0))) = true) as Hc
    by (by vm_compute).
  rewrite Hst in Hc. unfold stale_check in Hc.
  destruct (files (C.os st) !! C.getDataFilePath st 0) as [bytes|] eqn:Hf; [|done]. apply Nat.eqb_eq in Hc.
  destruct (corfu_read_stale 2 1 0 36 st (<[0%nat := corfu_entry 0]> ∅) 0 (corfu_entry 0) 1 bytes (Buf 64 ∅) (le_bytes 8 0) Hr'
    (lookup_insert_eq _ _ _)) as (_ & resp1 & resp2 & bs1 & bs2 & H1 & H2 & Hd);
    [by vm_compute|by vm_compute|by vm_compute; lia|exact Hf|rewrite Hc; by vm_compute|simpl; lia|simpl; lia|].
  exists st, resp1, resp2, bs1, bs2. split; [exact Hst|]. split; [exact H1|]. split; [exact H2|exact Hd].
Defined.

(** ** Two more findings *)

(** Two threads that find no file for a unit: the second, which comes to the writer's lock
    after the first has created the file, writes to descriptor zero.  Its entry reaches
    no file, and is counted and acknowledged. *)
Lemma corfu_create_race `{Posix} st k st1 fd e len req :
  C.entries_fd_set_ st !! k = None → C.create_file st k = (st1, Some fd) → fds (C.os st1) !! 0 = None →
  Deserializer LogEntry_default (msg_buf req) 0 = Some (e, len) → is_Some (load (msg_buf req) 0 (Z.to_nat len)) →
  C.create_file st1 k = (st1, Some 0) ∧
  ∃ st2, C.put_entry st1 k 0 req = Some st2 ∧ files (C.os st2) = files (C.os st1) ∧
    C.count_at st2 k = i32 (C.count_at st1 k + 1).
Proof.
  intros Hk Hcf H0 Hd [bs Hl]. split.
  - unfold C.create_file in Hcf. rewrite Hk in Hcf. destruct (open_trunc _ _) as [o fd'].
    destruct (fd' <? 0); simplify_eq. unfold C.create_file. cbn [C.with_units C.entries_fd_set_].
    by rewrite lookup_insert_eq.
  - unfold C.put_entry. rewrite Hd. cbn [mbind option_bind]. rewrite Hl. cbn [mbind option_bind].
    unfold C.pwrite. rewrite H0. eexists. split; [done|].
    assert (C.with_os st1 (C.os st1) = st1) as -> by (by destruct st1).
    destruct (C.entry_size_ st1 =? 0); (split; [done|]); unfold C.count_at at 1; simpl; by rewrite lookup_insert_eq.
Qed.

(** [ShardClient::AppendEntry] takes the four bytes of a successful answer for a failure. *)
Lemma corfu_append_reports_failure `{Posix} `{Erpc} g e g' ok : C.shard_AppendEntry g e = Some (g', ok) → ok = false.
Proof.
  unfold C.shard_AppendEntry. destruct (Serializer _ _ _) as [[b len]|]; [|done]. cbn [mbind option_bind].
  destruct (send b len) as [bs|]; [|done]. cbn [mbind option_bind].
  destruct (C.AppendEntryHandler (C.server g) bs) as [[st rs]|] eqn:Ha; [|done]. cbn [mbind option_bind].
  intros ?. simplify_eq. unfold C.AppendEntryHandler in Ha.
  destruct (Deserializer _ _ _) as [[x ?]|]; [|done]. cbn [mbind option_bind] in Ha.
  destruct (C.base_of _ _); [|done]. cbn [mbind option_bind] in Ha.
  destruct (C.addToEntryCacheAsync _ _ _); [|done]. cbn [mbind option_bind] in Ha. by simplify_eq.
Qed.
