(* ===== verification/CorfuStart.v ===== *)
(** Starting the [CORFU] build: [Initialize] and [read_server_func] of
    [src/cons_log/storage/shard_server.cc], [InitializeConn] of
    [src/cons_log/storage/shard_client.cc], [InitializeBackend] and
    [InitializeBackendBackup] of [src/cons_log/storage/naive_backend.cc], and the connections
    of a client in [src/client/lazylog_cli.cc], where [CORFU] is defined.

    A shard serves with [n_th] threads whose ids start at an offset of its own; a client
    connects to one of them at random, given the offset and the number of threads.  If these
    agree, the client gets a storage on which the theorems of [CorfuLog] hold. *)

From Stdlib Require Import Ascii.
From stdpp Require Import strings.
From S2P Require Import Prelude Props Sequencer LogEntry DlTransport ShardServer ShardRepr DurLogBase.
From S2P Require Import Client Corfu CorfuRepr CorfuLog Startup.

Local Open Scope Z_scope.

(** ** The servers *)

(** A shard server that runs: its state, the ids of its threads, the size of their response
    buffers, and what lies behind a request in its receive buffers. *)
Record CorfuNode : Type := mkCorfuNode {
  cn_server : C.t;
  cn_ids : list Z;
  cn_resp : Z;
  cn_slack : list byte
}.

Definition corfu_ids (n_th : Z) (offset : Z) : list Z :=
  (λ i, u8 (CL_CLI_RPCID_OFFSET + (Z.of_nat i + offset))) <$> seq 0 (Z.to_nat n_th).

Definition corfu_start (p : Properties) (is_dir mkdir : bool) (fs : gmap string (list byte)) (slack : list byte)
    : option CorfuNode :=
  unit ← stoi (GetProperty p "shard.stripe_unit_size" "100000");
  num ← stoi (GetProperty p "shard.num" "1");
  id ← stoi (GetProperty p "shard.id" "0");
  _ ← stoull (GetProperty p "shard.replicated_index" "0");
  _ ← stoull (GetProperty p "shard.global_index" "0");
  if negb (is_dir || mkdir) then None else
  n_th ← stoi (GetProperty p "threadcount" "1");
  offset ← stoi (GetProperty p "offset" "0");
  _ ← stoi (GetProperty p "erpc.phy_port" "0");
  msg_size ← stoull (GetProperty p "dur_log.msg_size" "8192");
  Some (mkCorfuNode (C.mk ∅ ∅ 0 (u64 unit) num id (GetProperty p "shard.folder_path" "./data/") (mkOs fs ∅))
          (corfu_ids n_th offset) msg_size slack).

(** ** The clients *)

(** [InitializeConn] with the offset of [SetRemoteIdOffset]; [pick] is the number that
    [std::uniform_int_distribution] returns, which is undefined for an empty range. *)
Definition corfu_InitializeConn (p : Properties) (svr_uri : string) (param : option Z) (remote_id_offset : Z)
    (pick : Z → Z) (env : RpcEnv) : option (RpcEnv * Session) :=
  '(rpc_id, remote_rpc_id) ← (match param with
    | Some thread_id =>
        remote_thread_count ← stoi (GetProperty p "shard.threadcount" "1");
        if remote_thread_count <? 1 then None
        else Some (thread_id + CL_CLI_RPCID_OFFSET, pick remote_thread_count + CL_CLI_RPCID_OFFSET + remote_id_offset)
    | None => Some (0, 0)
    end);
  let '(nexus, del) := make_nexus (GetProperty p "shard.client_uri" "localhost:31861") env in
  rpc ← (match rpc_ env with
         | Some id => Some id
         | None => _ ← stoi (GetProperty p "erpc.phy_port" "0"); Some (u8 rpc_id)
         end);
  msg_size ← stoull (GetProperty p "shard.msg_size" "2048");
  Some (mkRpcEnv nexus (Some rpc) (i32 (rpc_use_cnt_ env + 1)) (global_rpc_id_ env) (local_rpc_cnt_ env),
        mkSession svr_uri (u8 remote_rpc_id) (i32 msg_size) del).

Section Connect.
Context (p : Properties) (node : string → option CorfuNode) (pick : string → Z → Z).

(** The loop over the shards from [i] on, [k] more.  A connection to a thread that does not
    exist is waited for for ever. *)
Fixpoint corfu_connect (uris offs : list string) (thread_id : Z) (k i : nat) (env : RpcEnv) (m : gmap Z C.Shard)
    : outcome (RpcEnv * gmap Z C.Shard) :=
  match k with
  | O => Ok (env, m)
  | S k =>
      off ← lift (offs !! i);
      off ← lift (stoi off);
      uri ← lift (uris !! i);
      '(env, s) ← lift (corfu_InitializeConn p uri (Some thread_id) off (pick uri) env);
      match node uri with
      | None => Blocked
      | Some nd =>
          if decide (remote_rpc_id s ∈ cn_ids nd)
          then corfu_connect uris offs thread_id k (S i) env
                 (<[Z.of_nat i := C.mkCorfuShard (cn_server nd) (Buf (cn_resp nd) ∅) (s_msg_size s) (cn_slack nd)]> m)
          else Blocked
      end
  end.

Definition id_offsets : list string := SeparateValue (GetProperty p "shard.id_offset" "0") ","%char.

(** [NaiveReadBackend(thread_id)] and [InitializeBackend]. *)
Definition corfu_InitializeBackend (thread_id : Z) (env : RpcEnv) : outcome (RpcEnv * C.NaiveReadBackend) :=
  _ ← lift (stoi (GetProperty p "shard.stripe_unit_size" "100000"));
  num ← lift (stoll (GetProperty p "shard.num" ""));
  '(env, m) ← corfu_connect (shard_uris p) id_offsets (thread_id + CL_CLI_RPCID_OFFSET) (Z.to_nat (i32 num)) 0 env ∅;
  Ok (env, C.mkReadBackend (i32 num) m).

(** The addresses of the first or of the second backups. *)
Definition corfu_backup_uris (idx : Z) : list string :=
  if idx =? 1 then SeparateValue (GetProperty p "shard.backup_uri" "localhost:31860") ","%char
  else SeparateValue (GetProperty p "shard.backup_uri_2" "localhost:31860") ","%char.

Definition corfu_InitializeBackendBackup (idx thread_id : Z) (env : RpcEnv) : outcome (RpcEnv * C.NaiveReadBackend) :=
  _ ← lift (stoi (GetProperty p "shard.stripe_unit_size" "100000"));
  num ← lift (stoi (GetProperty p "shard.num" "1"));
  '(env, m) ← corfu_connect (corfu_backup_uris idx) id_offsets (thread_id + CL_CLI_RPCID_OFFSET) (Z.to_nat num) 0 env ∅;
  Ok (env, C.mkReadBackend num m).

(** The part of [LazyLogClient::Initialize] that connects to the shards; [th] is
    [global_th_id_]. *)
Definition corfu_client_storage (th : Z) (env : RpcEnv) : outcome (RpcEnv * C.Storage) :=
  thread_count ← lift (stoull (GetProperty p "shard.threadcount" "1"));
  if thread_count =? 0 then Fault else
  '(t1, th) ← (if ContainsKey p "dur_log.client_id"
               then id ← lift (stoull (GetProperty p "dur_log.client_id" "")); Ok (id mod thread_count, th)
               else Ok (th mod thread_count, u8 (th + 1)));
  '(env, pri) ← corfu_InitializeBackend t1 env;
  '(env, bak) ← corfu_InitializeBackendBackup 1 (th mod thread_count) env;
  '(env, bak2) ← corfu_InitializeBackendBackup 2 (u8 (th + 1) mod thread_count) env;
  Ok (env, C.mkStorage pri bak bak2).
End Connect.

(** ** A cluster *)

(** Shard [s] of a cluster: started empty, and served by the threads that the clients are
    told of. *)
Record corfu_up (u n s : nat) (z : Z) (p : Properties) (count : Z) (offs uris : list string)
    (node : string → option CorfuNode) : Prop := {
  cu_node : ∃ uri nd off o, uris !! s = Some uri ∧ offs !! s = Some off ∧ stoi off = Some o ∧ node uri = Some nd ∧
    (∀ i, 0 ≤ i < count → u8 (CL_CLI_RPCID_OFFSET + (i + o)) ∈ cn_ids nd) ∧
    z ≤ cn_resp nd ∧ (8 ≤ length (cn_slack nd))%nat ∧
    ∃ q is_dir mkdir, corfu_start q is_dir mkdir ∅ (cn_slack nd) = Some nd ∧
      stoi (GetProperty q "shard.stripe_unit_size" "100000") = Some (Z.of_nat u) ∧
      stoi (GetProperty q "shard.num" "1") = Some (Z.of_nat n)
}.

(** The configuration of a client and of the three servers of each of [n] shards; the
    servers are distinct. *)
Record corfu_cluster (u n : nat) (z : Z) (p : Properties) (node : string → option CorfuNode) : Prop := {
  cc_u : 0 < Z.of_nat u < 2 ^ 31;
  cc_n : 0 < Z.of_nat n < 2 ^ 31;
  cc_z : 8 ≤ z ∧ z * Z.of_nat u < 2 ^ 63;
  cc_unit : is_Some (stoi (GetProperty p "shard.stripe_unit_size" "100000"));
  cc_num : stoll (GetProperty p "shard.num" "") = Some (Z.of_nat n) ∧ stoi (GetProperty p "shard.num" "1") = Some (Z.of_nat n);
  cc_phy : is_Some (stoi (GetProperty p "erpc.phy_port" "0"));
  cc_msg : shard_msg p z;
  cc_client : ContainsKey p "dur_log.client_id" = true → is_Some (stoull (GetProperty p "dur_log.client_id" ""));
  cc_distinct : NoDup (take n (shard_uris p) ++ take n (corfu_backup_uris p 1) ++ take n (corfu_backup_uris p 2));
  cc_up : ∃ count, stoi (GetProperty p "shard.threadcount" "1") = Some count ∧
    stoull (GetProperty p "shard.threadcount" "1") = Some count ∧ 1 ≤ count ∧
    ∀ s uris, (s < n)%nat → uris ∈ [shard_uris p; corfu_backup_uris p 1; corfu_backup_uris p 2] →
      corfu_up u n s z p count (id_offsets p) uris node
}.

(** The server of a shard right after its start. *)
Lemma corfu_start_repr u n s z q is_dir mkdir slack nd :
  0 < Z.of_nat u < 2 ^ 31 → 0 < Z.of_nat n < 2 ^ 31 → z * Z.of_nat u < 2 ^ 63 → (s < n)%nat →
  corfu_start q is_dir mkdir ∅ slack = Some nd →
  stoi (GetProperty q "shard.stripe_unit_size" "100000") = Some (Z.of_nat u) →
  stoi (GetProperty q "shard.num" "1") = Some (Z.of_nat n) →
  corfu_repr u n s z (cn_server nd) ∅.
Proof.
  intros Hu Hn Hz Hs Hst Hunit Hnum. unfold corfu_start in Hst. rewrite Hunit, Hnum in Hst. cbn [mbind option_bind] in Hst.
  repeat match type of Hst with
  | mbind _ ?x = Some _ => destruct x; cbn [mbind option_bind] in Hst; [|discriminate]
  | (if ?c then _ else _) = Some _ => destruct c; [discriminate|]
  end.
  injection Hst as <-. apply fresh_corfu_repr; try done. cbn [cn_server C.stripe_unit_size_]. by rewrite u64_small by lia.
Qed.

Section Boot.
Context (u n : nat) (z : Z) (p : Properties) (node : string → option CorfuNode) (pick : string → Z → Z).
Context (Hc : corfu_cluster u n z p node) (Hpick : ∀ uri c, 1 ≤ c → 0 ≤ pick uri c < c).

Lemma corfu_InitializeConn_ok uri t o count env :
  stoi (GetProperty p "shard.threadcount" "1") = Some count → 1 ≤ count →
  ∃ env' s i, corfu_InitializeConn p uri (Some t) o (pick uri) env = Some (env', s) ∧ z ≤ s_msg_size s ∧
    0 ≤ i < count ∧ remote_rpc_id s = u8 (CL_CLI_RPCID_OFFSET + (i + o)).
Proof.
  intros Hcount H1. destruct (cc_phy _ _ _ _ _ Hc) as [ph Hph]. destruct (cc_msg _ _ _ _ _ Hc) as (ms & Hms & Hz).
  apply stoull_range in Hms as Hms0. pose proof (Hpick uri count H1) as Hi. unfold corfu_InitializeConn, make_nexus.
  rewrite Hcount. cbn [mbind option_bind]. rewrite (proj2 (Z.ltb_ge _ _)) by lia. cbn [mbind option_bind].
  rewrite Hms, Hph. destruct (nexus_ env), (rpc_ env); cbn [mbind option_bind];
    (eexists _, _, (pick uri count); split; [done|]; cbn [s_msg_size remote_rpc_id]; rewrite i32_small by lia;
     split_and!; [lia|lia|lia|]; f_equal; lia).
Qed.

Lemma corfu_connect_ok uris t count k i env m :
  stoi (GetProperty p "shard.threadcount" "1") = Some count → 1 ≤ count → (i + k = n)%nat →
  (∀ s, (s < n)%nat → corfu_up u n s z p count (id_offsets p) uris node) →
  (∀ s, (s < i)%nat → ∃ g, m !! Z.of_nat s = Some g ∧ shard_holds u n z s g ∅) →
  ∃ env' m', corfu_connect p node pick uris (id_offsets p) t k i env m = Ok (env', m') ∧
    ∀ s, (s < n)%nat → ∃ g, m' !! Z.of_nat s = Some g ∧ shard_holds u n z s g ∅.
Proof.
  intros Hcount H1 Hik Hup. revert i env m Hik. induction k as [|k IH]; intros i env m Hik Hm; cbn [corfu_connect].
  { exists env, m. replace i with n in Hm by lia. done. }
  destruct (Hup i ltac:(lia)) as [(uri & nd & off & o & Huri & Hoff & Ho & Hnd & Hids & Hz & Hsl & q & is_dir & mkdir & Hst & Hun & Hnu)].
  rewrite Hoff. cbn [lift mbind outcome_bind]. rewrite Ho. cbn [lift mbind outcome_bind]. rewrite Huri. cbn [lift mbind outcome_bind].
  destruct (corfu_InitializeConn_ok uri t o count env Hcount H1) as (env1 & s & j & -> & Hms & Hj & Hrem).
  cbn [lift mbind outcome_bind]. rewrite Hnd, Hrem, decide_True by (by apply Hids). apply IH; [lia|].
  intros s' Hs'. destruct (decide (s' = i)) as [->|Hne]; [|rewrite lookup_insert_ne by lia; apply Hm; lia].
  rewrite lookup_insert_eq. eexists. split; [done|]. destruct (cc_z _ _ _ _ _ Hc) as [Hz8 Hz63].
  split; simpl; [lia|lia|lia|]. exists ∅. split; [|intros j'; by rewrite !lookup_empty].
  by apply (corfu_start_repr u n i z q is_dir mkdir (cn_slack nd) nd (cc_u _ _ _ _ _ Hc) (cc_n _ _ _ _ _ Hc) Hz63 ltac:(lia)).
Qed.

(** A client has an empty storage. *)
Lemma corfu_boots th env :
  ∃ env' be, corfu_client_storage p node pick th env = Ok (env', be) ∧
    ∀ r, (r < 3)%nat → backend_repr u n z (replica r be) ∅.
Proof.
  destruct (cc_up _ _ _ _ _ Hc) as (count & Hcount & Hcull & H1 & Hup). destruct (cc_unit _ _ _ _ _ Hc) as [un Hun].
  destruct (cc_num _ _ _ _ _ Hc) as [Hnll Hni]. pose proof (cc_n _ _ _ _ _ Hc) as Hn.
  assert (∀ uris t env, uris ∈ [shard_uris p; corfu_backup_uris p 1; corfu_backup_uris p 2] →
    ∃ env' m, corfu_connect p node pick uris (id_offsets p) t n 0 env ∅ = Ok (env', m) ∧
      backend_repr u n z (C.mkReadBackend (Z.of_nat n) m) ∅) as Hconn.
  { intros uris t env0 Hin. destruct (corfu_connect_ok uris t count n 0 env0 ∅ Hcount H1) as (env' & m & Hm & Hall);
      [done|intros s Hs; by apply Hup|intros s Hs; lia|]. exists env', m. split; [done|]. by split. }
  unfold corfu_client_storage. rewrite Hcull. cbn [lift mbind outcome_bind]. rewrite (proj2 (Z.eqb_neq _ _)) by lia.
  assert (∃ t1 th', (if ContainsKey p "dur_log.client_id"
    then id ← lift (stoull (GetProperty p "dur_log.client_id" "")); Ok (id mod count, th)
    else Ok (th mod count, u8 (th + 1))) = Ok (t1, th')) as (t1 & th' & ->).
  { destruct (ContainsKey p "dur_log.client_id") eqn:Hk; [|by eexists _, _].
    destruct (cc_client _ _ _ _ _ Hc Hk) as [id ->]. by eexists _, _. }
  cbn [mbind outcome_bind]. unfold corfu_InitializeBackend, corfu_InitializeBackendBackup. rewrite Hun, Hnll, Hni.
  cbn [lift mbind outcome_bind]. rewrite i32_small, Nat2Z.id by lia.
  destruct (Hconn (shard_uris p) (t1 + CL_CLI_RPCID_OFFSET) env) as (env1 & m1 & -> & Hm1); [set_solver|]. cbn [mbind outcome_bind].
  destruct (Hconn (corfu_backup_uris p 1) (th' mod count + CL_CLI_RPCID_OFFSET) env1) as (env2 & m2 & -> & Hm2); [set_solver|].
  cbn [mbind outcome_bind].
  destruct (Hconn (corfu_backup_uris p 2) (u8 (th' + 1) mod count + CL_CLI_RPCID_OFFSET) env2) as (env3 & m3 & -> & Hm3); [set_solver|].
  cbn [mbind outcome_bind]. eexists _, _. split; [done|]. intros [|[|[|r]]] Hr; [done..|lia].
Qed.
End Boot.

(** C23. With [CORFU], every entry is read at the position its client was given, whatever
    the order of the writes.  A client whose configuration fits the servers gets connections
    to the three replicas of each shard, whichever server threads it picks.  Clients
    take positions and write the entries of their positions to the replicas, in any
    interleaving in which a position is taken before it is written and written once to a
    replica; all entries have the same size.  Then every step succeeds, each entry that was
    written to a replica is read from it at its position, and a further [AppendEntryAll] puts
    its entry at the next position of all replicas. *)
Theorem corfu_reads_appends `{Posix} `{Erpc} u n z p node pick th env resp k ent evs e0 :
  (∀ path, may_create path = true) → (∀ j, write_len j = j) → corfu_cluster u n z p node →
  (∀ uri c, 1 ≤ c → 0 ≤ pick uri c < c) → 8 ≤ bcap resp → 0 ≤ bcap (req_ k) →
  (∀ i, (i < takes evs)%nat → entry_for z i (ent i)) → Z.of_nat (takes evs) < 2 ^ 64 - 1 → in_order 0 [] evs →
  ∃ env' be0 s be, corfu_client_storage p node pick th env = Ok (env', be0) ∧
    do_events resp k ent (DurabilityLog.init, be0) evs = Ok (s, be) ∧
    DurabilityLog.gsn s = Z.of_nat (takes evs) ∧
    (∀ r i, Put r i ∈ evs → ∃ b, C.rb_ReadEntry (replica r be) (Z.of_nat i) e0 = Some (b, true, ent i)) ∧
    ∀ c d, let e := set_log_idx (constructLogEntry c d).1 (Z.of_nat (takes evs)) in
      entry_for z (takes evs) e →
      ∃ c' k' s' be', C.AppendEntryAll resp c k s be d = Ok (c', k', s', be', (client_id e, client_seq e)) ∧
        ∀ r, (r < 3)%nat → ∃ b, C.rb_ReadEntry (replica r be') (DurabilityLog.gsn s) e0 = Some (b, true, e).
Proof.
  intros Hcreate Hwrite Hc Hpick Hresp Hk Hent H64 Ho.
  destruct (corfu_boots u n z p node pick Hc Hpick th env) as (env' & be0 & Hboot & Hbe0).
  destruct (corfu_run u n z resp k ent evs e0 be0 Hcreate Hwrite Hresp Hk Hbe0 Hent H64 Ho) as (s & be & Hrun).
  by exists env', be0, s, be.
Qed.

(** ** Two shards *)

(** Units of two entries; the threads of the second shard start at the fourth id. *)
Definition corfu_conf : Properties :=
  <["shard.num" := "2"]> (<["shard.stripe_unit_size" := "2"]> (<["shard.threadcount" := "3"]>
  (<["shard.primary_uri" := "a:1,b:1"]> (<["shard.backup_uri" := "c:1,d:1"]> (<["shard.backup_uri_2" := "e:1,f:1"]>
  (<["shard.id_offset" := "0,3"]> (<["threadcount" := "3"]> (∅ : gmap string string))))))))%string.

Definition corfu_node (d : string) : option CorfuNode :=
  let offset := if bool_decide (d ∈ ["b:1"; "d:1"; "f:1"]%string) then "3"%string else "0"%string in
  corfu_start (<["offset" := offset]> corfu_conf)%string true false ∅ (replicate 8 Byte.x00).

Definition node_check (d : string) (o : Z) : bool :=
  match corfu_node d with
  | Some nd => bool_decide (cn_ids nd = [64 + o; 65 + o; 66 + o]) && (cn_resp nd =? 8192) && bool_decide (length (cn_slack nd) = 8%nat)
  | None => false
  end.

Lemma node_check_up s uris uri off o :
  uris !! s = Some uri → id_offsets corfu_conf !! s = Some off → stoi off = Some o → 0 ≤ o < 100 → node_check uri o = true →
  corfu_up 2 2 s 36 corfu_conf 3 (id_offsets corfu_conf) uris corfu_node.
Proof.
  intros Huri Hoff Ho Hor Hck. unfold node_check in Hck. destruct (corfu_node uri) as [nd|] eqn:Hnd; [|done].
  apply andb_prop in Hck as [[Hids Hresp%Z.eqb_eq]%andb_prop Hsl%bool_decide_eq_true]. apply bool_decide_eq_true in Hids.
  split. exists uri, nd, off, o. do 3 (split; [assumption|]). split; [exact Hnd|]. split; [|split; [lia|split; [lia|]]].
  - intros i Hi. rewrite Hids, u8_small by (unfold CL_CLI_RPCID_OFFSET; lia). unfold CL_CLI_RPCID_OFFSET. rewrite !elem_of_cons. lia.
  - unfold corfu_node in Hnd. set (q := <["offset"%string := _]> corfu_conf) in Hnd. exists q, true, false.
    assert (cn_slack nd = replicate 8 Byte.x00) as ->.
    { clear -Hnd. unfold corfu_start in Hnd. repeat match type of Hnd with
      | mbind _ ?x = Some _ => destruct x; cbn [mbind option_bind] in Hnd; [|discriminate]
      | (if ?c then _ else _) = Some _ => destruct c; [discriminate|] end. by injection Hnd as <-. }
    split; [done|]. unfold q. destruct (bool_decide _); split; vm_compute; reflexivity.
Qed.

Lemma corfu_conf_ok : corfu_cluster 2 2 36 corfu_conf corfu_node.
Proof.
  split.
  - lia.
  - lia.
  - lia.
  - exists 2. vm_compute. reflexivity.
  - split; vm_compute; reflexivity.
  - exists 0. vm_compute. reflexivity.
  - exists 2048. split; [vm_compute; reflexivity|lia].
  - intros Hk. vm_compute in Hk. discriminate.
  - apply (bool_decide_unpack _). vm_compute. reflexivity.
  - exists 3. split; [vm_compute; reflexivity|]. split; [vm_compute; reflexivity|]. split; [lia|]. intros s uris Hs Hu.
    assert (∃ off o, id_offsets corfu_conf !! s = Some off ∧ stoi off = Some o ∧ o = if (s =? 0)%nat then 0 else 3) as (off & o & H1 & H2 & H3).
    { destruct s as [|[|s]]; [exists "0"%string, 0|exists "3"%string, 3|lia]; (split; [vm_compute; reflexivity|]);
        (split; [vm_compute; reflexivity|reflexivity]). }
    rewrite !elem_of_cons in Hu. destruct Hu as [->|[->|[->|Hu%not_elem_of_nil]]]; [..|done]; destruct s as [|[|s]]; try lia; simpl in H3;
      subst o; (eapply node_check_up; [vm_compute; reflexivity|exact H1|exact H2|lia|vm_compute; reflexivity]).
Qed.

Lemma corfu_reads_appends_witness :
  ∃ env be0 s be b, corfu_client_storage corfu_conf corfu_node (λ _ _, 0) 0 RpcEnv_init = Ok (env, be0) ∧
    do_events (Buf 8 ∅) test_cli corfu_entry (DurabilityLog.init, be0) corfu_events = Ok (s, be) ∧
    C.rb_ReadEntry (replica 2 be) 1 LogEntry_default = Some (b, true, corfu_entry 1).
Proof.
  assert (in_order 0 [] corfu_events) as Ho.
  { simpl. split_and!; try lia; try done; rewrite ?not_elem_of_cons;
    repeat (split; [congruence|]); apply not_elem_of_nil. }
  destruct (corfu_reads_appends (H := Posix_plain) (H0 := Erpc_exact) 2 2 36 corfu_conf corfu_node (λ _ _, 0) 0 RpcEnv_init
    (Buf 8 ∅) test_cli corfu_entry corfu_events LogEntry_default (λ _, eq_refl) (λ _, eq_refl) corfu_conf_ok ltac:(lia)
    ltac:(simpl; lia) ltac:(simpl; lia) corfu_entry_for ltac:(simpl; lia) Ho)
    as (env & be0 & s & be & Hb0 & Hd & _ & Hread & _).
  destruct (Hread 2%nat 1%nat) as [b Hb]; [unfold corfu_events; rewrite !elem_of_cons; tauto|].
  exists env, be0, s, be, b. split; [exact Hb0|]. split; [exact Hd|exact Hb].
Defined.
