(* ===== verification/BasicClient.v ===== *)
(** The test client: [src/client/basic_client.cc].

    Writer threads append entries and reader threads read the log from its beginning;
    every call is recorded, when it is invoked and when it has returned, in one history
    that all threads share.  Here the client runs against the replicas, the consensus log
    in its pipelined mode and the shards: the threads are cut into steps at the places
    where they touch what is shared, and the steps of all threads and of the system are
    interleaved. *)

From Stdlib Require Import String.
From stdpp Require Import strings pretty.
From S2P Require Import Prelude Props Sequencer LogEntry DurLogFlat FlatRing FlatGC DlTransport.
From S2P Require Import FlatCli Replica Links ShardServer ShardRepr NaiveBackend StorageLog.
From S2P Require Import ConsLog ConsOrder System Pipeline Client.

Local Open Scope Z_scope.

(** ** The history *)

Inductive EventType : Type := INVOKE | RESPONSE.
Inductive OpType : Type := OP_WRITE | OP_READ.

#[export] Instance EventType_eq : EqDecision EventType.
Proof. solve_decision. Defined.
#[export] Instance OpType_eq : EqDecision OpType.
Proof. solve_decision. Defined.

Record HistoryRecord : Type := mkRecord {
  req_id : Z;
  thread_id : Z;
  event_type : EventType;
  op_type : OpType;
  value : list byte;
  rec_idx : Z;
  seq_nums : list Z
}.

(** [global_req_id], [global_history] and [max_write_idx]. *)
Record Recorder : Type := mkRecorder {
  global_req_id : Z;
  global_history : list HistoryRecord;
  max_write_idx : Z
}.

Definition Recorder_init : Recorder := mkRecorder 0 [] (-1).

Definition push (r : Recorder) (rec : HistoryRecord) : Recorder :=
  mkRecorder (global_req_id r) (global_history r ++ [rec]) (max_write_idx r).

(** [global_req_id.fetch_add(1)]. *)
Definition next_req (r : Recorder) : Z * Recorder :=
  (global_req_id r, mkRecorder (u64 (global_req_id r + 1)) (global_history r) (max_write_idx r)).

Definition RecordWriteInvoke (r : Recorder) (req thread : Z) (payload : list byte) : Recorder :=
  let r := push r (mkRecord req thread INVOKE OP_WRITE payload (-1) []) in
  mkRecorder (global_req_id r) (global_history r) (max_write_idx r + 1).

Definition RecordWriteResponse (r : Recorder) (req thread idx : Z) (nums : list Z) : Recorder :=
  push r (mkRecord req thread RESPONSE OP_WRITE [] idx nums).

Definition RecordReadInvoke (r : Recorder) (req thread : Z) : Recorder * Z :=
  (push r (mkRecord req thread INVOKE OP_READ [] (-1) []), u64 (max_write_idx r)).

Definition RecordReadResponse (r : Recorder) (req thread : Z) (d : list byte) (idx : Z) : Recorder :=
  push r (mkRecord req thread RESPONSE OP_READ d idx []).

(** ** Printing *)

Definition text (s : string) : list byte := list_byte_of_string s.

(** [std::setw(w) << std::setfill('0')]. *)
Definition zero_filled (w : nat) (z : Z) : list byte :=
  let s := text (pretty z) in replicate (w - length s) Byte.x30 ++ s.

(** Two digits of the thread, an underscore and five digits of the number. *)
Definition payload_of (thread i : Z) : list byte := zero_filled 2 thread ++ text "_" ++ zero_filled 5 i.

(** [rec.seq_nums.size() - 1] is never reached with an empty list. *)
Fixpoint dump_seqs (nums : list Z) : list byte :=
  match nums with
  | [] => []
  | [z] => text (pretty z)
  | z :: nums => text (pretty z) ++ text "," ++ dump_seqs nums
  end.

Definition dump_head (kind : string) (rec : HistoryRecord) : list byte :=
  text kind ++ text (pretty (req_id rec)) ++ text " client=" ++ text (pretty (thread_id rec)).

Definition dump_record (rec : HistoryRecord) : list byte :=
  match event_type rec, op_type rec with
  | INVOKE, OP_WRITE => dump_head "inv write id=" rec ++ text " val=" ++ value rec
  | RESPONSE, OP_WRITE =>
      dump_head "res write id=" rec ++ text " idx=" ++ text (pretty (rec_idx rec)) ++
        text " seq=[" ++ dump_seqs (seq_nums rec) ++ text "]"
  | INVOKE, OP_READ => dump_head "inv read id=" rec
  | RESPONSE, OP_READ =>
      dump_head "res read id=" rec ++ text " idx=" ++ text (pretty (rec_idx rec)) ++ text " val=" ++ value rec
  end ++ [Byte.x0a].

(** What is written to the file, if it can be opened. *)
Definition DumpGlobalHistory (is_open : bool) (r : Recorder) : option (list byte) :=
  if is_open then Some (concat (dump_record <$> global_history r)) else None.

(** ** Threads *)

(** Where a writer is: at the head of its loop, with a number for the next write, or in
    [AppendEntry] with the replicas that have not got the entry yet and the sequence
    numbers of the others. *)
Inductive writer_pc : Type :=
  | WNext
  | WNumbered (req : Z)
  | WAppending (req : Z) (e : LogEntry) (dur_servs : list string) (sequence_nums : list Z).

(** A writer with its [LazyLogClient]: a connection to each replica, the id and the
    sequence numbers of its entries. *)
Record Writer : Type := mkWriter {
  w_id : Z;
  w_ops : Z;
  w_i : Z;
  w_conns : Conns ErpcCli;
  w_client_id : Z;
  w_seq : Sequencer.t;
  w_pc : writer_pc
}.

Definition w_at (w : Writer) (i : Z) (ks : Conns ErpcCli) (q : Sequencer.t) (pc : writer_pc) : Writer :=
  mkWriter (w_id w) (w_ops w) i ks (w_client_id w) q pc.

(** Where a reader is: as a writer, or with what it has read. *)
Inductive reader_pc : Type :=
  | RNext
  | RNumbered (req : Z)
  | RReading (req : Z)
  | RRead (req : Z) (d : list byte).

Record Reader : Type := mkReader { r_id : Z; r_ops : Z; r_i : Z; r_pc : reader_pc }.

Definition r_at (r : Reader) (i : Z) (pc : reader_pc) : Reader := mkReader (r_id r) (r_ops r) i pc.

(** [constructLogEntry]. *)
Definition writer_entry (w : Writer) (d : list byte) : LogEntry * Sequencer.t :=
  let '(s, q) := Sequencer.GetNextSeq (w_seq w) in
  (mkEntry (w_client_id w) s 0 (u32 (lenZ d)) 1 0 d, q).

(** [main]: the numbers of operations and of threads. *)
Definition ops_per_thread (p : Properties) : option Z :=
  if ContainsKey p "count" then stoi (GetProperty p "count" "") else Some 10.
Definition total_threads (p : Properties) : option Z :=
  if ContainsKey p "threads" then stoi (GetProperty p "threads" "") else Some 5.

(** [scaled] is the product of the number of threads and the ratio of writers, as an
    [int], and [some] whether the ratio is positive. *)
Definition num_writers (total scaled : Z) (some : bool) : Z :=
  if some && (scaled =? 0) && (0 <? total) then 1 else scaled.

(** Each thread connects on its own; [cli] gives the connections and the id of a writer. *)
Definition main_writers (cli : Z → Conns ErpcCli * Z) (count nw : Z) : list Writer :=
  (λ i, mkWriter (Z.of_nat i) count 0 (cli (Z.of_nat i)).1 (cli (Z.of_nat i)).2 Sequencer.init WNext) <$>
    seq 0 (Z.to_nat nw).
Definition main_readers (count total nw : Z) : list Reader :=
  (λ i, mkReader (nw + Z.of_nat i) (count * nw) 0 RNext) <$> seq 0 (Z.to_nat (total - nw)).

(** ** Steps *)

Record Harness : Type := mkHarness {
  h_cons : ConsensusLog;
  h_pipe : Pipeline;
  h_rec : Recorder;
  h_writers : list Writer;
  h_readers : list Reader
}.

(** The threads of [main] over a system. *)
Definition main_harness (p : Properties) (scaled : Z) (some : bool) (cli : Z → Conns ErpcCli * Z)
    (cl : ConsensusLog) (pl : Pipeline) : option Harness :=
  count ← ops_per_thread p;
  total ← total_threads p;
  let nw := num_writers total scaled some in
  Some (mkHarness cl pl Recorder_init (main_writers cli count nw) (main_readers count total nw)).

Section Harness.
Context `{Posix, Erpc, Rdma}.

(** A step of a writer.  [shuffle] is the random order of the replicas; the step at a
    replica waits until the replica has room. *)
Definition writer_step (shuffle : list string → list string) (w : Writer) (cl : ConsensusLog) (r : Recorder)
    : outcome (Writer * ConsensusLog * Recorder) :=
  match w_pc w with
  | WNext =>
      if negb (w_i w <? w_ops w) then Blocked else
      let '(req, r) := next_req r in
      Ok (w_at w (w_i w) (w_conns w) (w_seq w) (WNumbered req), cl, r)
  | WNumbered req =>
      let payload := payload_of (w_id w) (w_i w) in
      let r := RecordWriteInvoke r req (w_id w) payload in
      let '(e, q) := writer_entry w payload in
      Ok (w_at w (w_i w) (w_conns w) q (WAppending req e (shuffle (w_conns w).*1) []), cl, r)
  | WAppending req e (dur_srv :: dur_servs) nums =>
      c ← lift (link_at dur_srv (w_conns w));
      l ← lift (link_at dur_srv (dur_cli_ cl));
      '(c, st, v) ← cli_AppendEntry (dl_handle (l_resp l)) c (l_svr l) e;
      let seq_num := v / 40 in
      Ok (w_at w (w_i w) (link_set dur_srv c (w_conns w)) (w_seq w)
            (WAppending req e dur_servs (if IsPrimary c then seq_num :: nums else nums ++ [seq_num])),
          with_links cl (link_set dur_srv (with_svr l st) (dur_cli_ cl)), r)
  | WAppending req e [] nums =>
      let r := RecordWriteResponse r req (w_id w) 0 nums in
      Ok (w_at w (w_i w + 1) (w_conns w) (w_seq w) WNext, cl, r)
  end.

(** A step of a reader; [slow] as for [be_ReadEntry].  The reader has connections of its own
    to the shards, which it reads as [NaiveBackend] does; here they are those of the
    consensus log, which go to the same servers. *)
Definition reader_step (slow : bool) (t : Reader) (cl : ConsensusLog) (r : Recorder)
    : outcome (Reader * ConsensusLog * Recorder) :=
  match r_pc t with
  | RNext =>
      if negb (r_i t <? r_ops t) then Blocked else
      let '(req, r) := next_req r in Ok (r_at t (r_i t) (RNumbered req), cl, r)
  | RNumbered req =>
      let '(r, _) := RecordReadInvoke r req (r_id t) in Ok (r_at t (r_i t) (RReading req), cl, r)
  | RReading req =>
      '(be, _, e) ← be_ReadEntry (backend_ cl) slow (r_i t) LogEntry_default;
      Ok (r_at t (r_i t) (RRead req (data e)), with_backend cl be, r)
  | RRead req d =>
      let r := RecordReadResponse r req (r_id t) d (r_i t) in
      Ok (r_at t (r_i t + 1) RNext, cl, r)
  end.

(** What happens next: a thread or the system does a step. *)
Inductive haction : Type :=
  | HWriter (j : nat) (shuffle : list string → list string)
  | HReader (j : nat) (slow : bool)
  | HSystem (ev : pevent).

Definition hstep (a : haction) (h : Harness) : outcome Harness :=
  match a with
  | HWriter j shuffle =>
      match h_writers h !! j with
      | None => Blocked
      | Some w =>
          '(w, cl, r) ← writer_step shuffle w (h_cons h) (h_rec h);
          Ok (mkHarness cl (h_pipe h) r (<[j := w]> (h_writers h)) (h_readers h))
      end
  | HReader j slow =>
      match h_readers h !! j with
      | None => Blocked
      | Some t =>
          '(t, cl, r) ← reader_step slow t (h_cons h) (h_rec h);
          Ok (mkHarness cl (h_pipe h) r (h_writers h) (<[j := t]> (h_readers h)))
      end
  | HSystem ev =>
      '(cl, p) ← pipe_step ev (h_cons h) (h_pipe h);
      Ok (mkHarness cl p (h_rec h) (h_writers h) (h_readers h))
  end.

(** A thread that must wait leaves everything as it is. *)
Fixpoint hrun (acts : list haction) (h : Harness) : outcome Harness :=
  match acts with
  | [] => Ok h
  | a :: acts =>
      match hstep a h with
      | Ok h' => hrun acts h'
      | Blocked => hrun acts h
      | Fault => Fault
      end
  end.
End Harness.
