(* ===== verification/AtomicLog.v ===== *)
(** What a history of the test client should look like: that of an atomic log.

    The specification is a log with two operations, appending an entry and reading an
    index, each of which takes effect at one moment between its invocation and its
    response.  The histories that it can record are well formed, and they are
    linearizable: the operations in the order of their effects are a sequential use of
    the log with the recorded results, and an operation that was invoked after another
    one had returned comes later in that order. *)

From S2P Require Import Prelude LogEntry BasicClient.

Local Open Scope Z_scope.

(** ** The sequential log *)

(** An append with the index that it got, and a read with the entry that it returned. *)
Inductive log_op : Type :=
  | Append (d : list byte) (n : nat)
  | ReadAt (n : nat) (d : list byte).

Definition log_step (s : list (list byte)) (op : log_op) : option (list (list byte)) :=
  match op with
  | Append d n => if decide (n = length s) then Some (s ++ [d]) else None
  | ReadAt n d => if decide (s !! n = Some d) then Some s else None
  end.

Definition run_ops (ops : list log_op) : option (list (list byte)) :=
  foldl (λ os op, s ← os; log_step s op) (Some []) ops.

Lemma run_ops_snoc ops op s : run_ops ops = Some s → run_ops (ops ++ [op]) = log_step s op.
Proof. intros Hr. unfold run_ops in *. rewrite foldl_app, Hr. done. Qed.

(** ** Histories *)

Definition invokes (r : HistoryRecord) : Prop := event_type r = INVOKE.
Definition responds (r : HistoryRecord) : Prop := event_type r = RESPONSE.

(** A record of an invocation, and of a response, fits an operation. *)
Definition called (r : HistoryRecord) (op : log_op) : Prop :=
  match op with
  | Append d _ => op_type r = OP_WRITE ∧ value r = d
  | ReadAt _ _ => op_type r = OP_READ
  end.

Definition returned (r : HistoryRecord) (op : log_op) : Prop :=
  match op with
  | Append _ n => op_type r = OP_WRITE ∧ head (seq_nums r) = Some (Z.of_nat n)
  | ReadAt n d => op_type r = OP_READ ∧ rec_idx r = Z.of_nat n ∧ value r = d
  end.

(** Each call has one id, returns at most once, to its thread, and a thread makes one
    call at a time. *)
Record well_formed (hs : list HistoryRecord) : Prop := {
  wf_once : ∀ t1 t2 r1 r2, hs !! t1 = Some r1 → hs !! t2 = Some r2 →
    event_type r1 = event_type r2 → req_id r1 = req_id r2 → t1 = t2;
  wf_match : ∀ t r, hs !! t = Some r → responds r →
    ∃ t0 r0, (t0 < t)%nat ∧ hs !! t0 = Some r0 ∧ invokes r0 ∧ req_id r0 = req_id r ∧
      thread_id r0 = thread_id r ∧ op_type r0 = op_type r;
  wf_serial : ∀ t1 t2 r1 r2, (t1 < t2)%nat → hs !! t1 = Some r1 → hs !! t2 = Some r2 →
    invokes r1 → invokes r2 → thread_id r1 = thread_id r2 →
    ∃ t r, (t1 < t < t2)%nat ∧ hs !! t = Some r ∧ responds r ∧ req_id r = req_id r1
}.

(** [lin] is a linearization of the history and leads to the log [s]. *)
Record linearizes (hs : list HistoryRecord) (lin : list (Z * log_op)) (s : list (list byte)) : Prop := {
  lz_once : NoDup lin.*1;
  lz_legal : run_ops lin.*2 = Some s;
  lz_called : ∀ q op, (q, op) ∈ lin → ∃ t r, hs !! t = Some r ∧ invokes r ∧ req_id r = q ∧ called r op;
  lz_returned : ∀ t r, hs !! t = Some r → responds r → ∃ op, (req_id r, op) ∈ lin ∧ returned r op;
  lz_order : ∀ t1 t2 r1 r2 p1 p2 op1 op2, (t1 < t2)%nat → hs !! t1 = Some r1 → hs !! t2 = Some r2 →
    responds r1 → invokes r2 → lin !! p1 = Some (req_id r1, op1) → lin !! p2 = Some (req_id r2, op2) →
    (p1 < p2)%nat
}.

(** ** The atomic log *)

(** What a thread has asked for. *)
Inductive call : Type := CAppend (d : list byte) | CRead (n : nat).

Definition answers (op : log_op) (c : call) : Prop :=
  match op, c with
  | Append d _, CAppend d' => d = d'
  | ReadAt n _, CRead n' => n = n'
  | _, _ => False
  end.

(** A thread has no request, one with an id, one that is invoked, or one that took
    effect. *)
Inductive phase : Type :=
  | Idle
  | Taken (q : Z)
  | Called (q : Z) (c : call)
  | Effected (q : Z) (op : log_op).

Definition current (ph : phase) : option Z :=
  match ph with Idle => None | Taken q | Called q _ | Effected q _ => Some q end.
Definition pending (ph : phase) : option Z :=
  match ph with Idle | Taken _ => None | Called q _ | Effected q _ => Some q end.

Record Spec : Type := mkSpec {
  sp_hist : list HistoryRecord;
  sp_next : Z;
  sp_threads : list (Z * phase);
  sp_lin : list (Z * log_op);
  sp_log : list (list byte)
}.

Definition set_phase (sp : Spec) (i : nat) (a : Z) (ph : phase) : list (Z * phase) :=
  <[i := (a, ph)]> (sp_threads sp).

(** The record of an invocation. *)
Definition invocation (q a : Z) (c : call) : HistoryRecord :=
  match c with
  | CAppend d => mkRecord q a INVOKE OP_WRITE d (-1) []
  | CRead _ => mkRecord q a INVOKE OP_READ [] (-1) []
  end.

Inductive spec_step : Spec → Spec → Prop :=
  | step_take sp i a :
      sp_threads sp !! i = Some (a, Idle) →
      spec_step sp (mkSpec (sp_hist sp) (sp_next sp + 1) (set_phase sp i a (Taken (sp_next sp)))
                      (sp_lin sp) (sp_log sp))
  | step_invoke sp i a q c :
      sp_threads sp !! i = Some (a, Taken q) →
      spec_step sp (mkSpec (sp_hist sp ++ [invocation q a c]) (sp_next sp) (set_phase sp i a (Called q c))
                      (sp_lin sp) (sp_log sp))
  | step_effect sp i a q c op s :
      sp_threads sp !! i = Some (a, Called q c) → answers op c → log_step (sp_log sp) op = Some s →
      spec_step sp (mkSpec (sp_hist sp) (sp_next sp) (set_phase sp i a (Effected q op))
                      (sp_lin sp ++ [(q, op)]) s)
  | step_respond sp i a q op r :
      sp_threads sp !! i = Some (a, Effected q op) →
      responds r → req_id r = q → thread_id r = a → returned r op →
      spec_step sp (mkSpec (sp_hist sp ++ [r]) (sp_next sp) (set_phase sp i a Idle) (sp_lin sp) (sp_log sp)).

(** The threads [ids] have not done anything. *)
Definition Spec_init (ids : list Z) : Spec := mkSpec [] 0 ((λ a, (a, Idle)) <$> ids) [] [].

(** ** The invariant *)

(** What is recorded of a request. *)
Definition phase_ok (hs : list HistoryRecord) (lin : list (Z * log_op)) (a : Z) (ph : phase) : Prop :=
  match ph with
  | Idle => True
  | Taken q => ∀ t r, hs !! t = Some r → req_id r ≠ q
  | Called q c => (∃ t, hs !! t = Some (invocation q a c)) ∧
      (∀ t r, hs !! t = Some r → responds r → req_id r ≠ q) ∧ q ∉ lin.*1
  | Effected q op => (∃ t c, hs !! t = Some (invocation q a c) ∧ answers op c) ∧
      (∀ t r, hs !! t = Some r → responds r → req_id r ≠ q) ∧ (q, op) ∈ lin
  end.

Record spec_inv (sp : Spec) : Prop := {
  si_next : 0 ≤ sp_next sp;
  si_ids : ∀ t r, sp_hist sp !! t = Some r → req_id r < sp_next sp;
  si_threads : NoDup (sp_threads sp).*1;
  si_current : ∀ i a ph q, sp_threads sp !! i = Some (a, ph) → current ph = Some q → q < sp_next sp;
  si_distinct : ∀ i j a b ph ph' q, sp_threads sp !! i = Some (a, ph) → sp_threads sp !! j = Some (b, ph') →
    current ph = Some q → current ph' = Some q → i = j;
  si_phase : ∀ i a ph, sp_threads sp !! i = Some (a, ph) → phase_ok (sp_hist sp) (sp_lin sp) a ph;
  si_open : ∀ i a ph t r, sp_threads sp !! i = Some (a, ph) → sp_hist sp !! t = Some r → invokes r →
    thread_id r = a → pending ph = Some (req_id r) ∨
    ∃ t' r', (t < t')%nat ∧ sp_hist sp !! t' = Some r' ∧ responds r' ∧ req_id r' = req_id r;
  si_wf : well_formed (sp_hist sp);
  si_lin : linearizes (sp_hist sp) (sp_lin sp) (sp_log sp)
}.

(** A record of a history that has one more. *)
Lemma lookup_snoc {A} (l : list A) x t y :
  (l ++ [x]) !! t = Some y → l !! t = Some y ∧ (t < length l)%nat ∨ t = length l ∧ y = x.
Proof.
  rewrite lookup_app_Some. intros [Hl|[Hge Hx]].
  - left. split; [done|]. by apply lookup_lt_Some in Hl.
  - right. apply list_lookup_singleton_Some in Hx as [Ht ->]. split; [lia|done].
Qed.

Lemma lookup_snoc_old {A} (l : list A) x t y : l !! t = Some y → (l ++ [x]) !! t = Some y.
Proof. apply lookup_app_l_Some. Qed.

Lemma lookup_snoc_new {A} (l : list A) x : (l ++ [x]) !! length l = Some x.
Proof. by rewrite lookup_app_r, Nat.sub_diag. Qed.

(** *** Well-formedness *)

Lemma wf_invoke hs r :
  well_formed hs → invokes r → (∀ t r', hs !! t = Some r' → req_id r' ≠ req_id r) →
  (∀ t r', hs !! t = Some r' → invokes r' → thread_id r' = thread_id r →
    ∃ t' r'', (t < t')%nat ∧ hs !! t' = Some r'' ∧ responds r'' ∧ req_id r'' = req_id r') →
  well_formed (hs ++ [r]).
Proof.
  intros [Ho Hm Hs] Hr Hnew Hopen. unfold invokes, responds in *. split.
  - intros t1 t2 r1 r2 [[H1 Hl1]|[-> ->]]%lookup_snoc [[H2 Hl2]|[-> ->]]%lookup_snoc He Hq; [by eapply Ho|..|done].
    + by destruct (Hnew _ _ H1).
    + by destruct (Hnew _ _ H2).
  - intros t r' [[H1 Hl1]|[-> ->]]%lookup_snoc Hrs; [|unfold responds in *; congruence].
    destruct (Hm _ _ H1 Hrs) as (t0 & r0 & Hlt & H0 & Hrest). exists t0, r0. split; [done|].
    split; [by apply lookup_snoc_old|done].
  - intros t1 t2 r1 r2 Hlt [[H1 Hl1]|[-> ->]]%lookup_snoc [[H2 Hl2]|[-> ->]]%lookup_snoc Hi1 Hi2 Hth; try lia.
    + destruct (Hs _ _ _ _ Hlt H1 H2 Hi1 Hi2 Hth) as (t & r0 & Hb & H0 & Hrest). exists t, r0.
      split; [done|]. split; [by apply lookup_snoc_old|done].
    + destruct (Hopen _ _ H1 Hi1 Hth) as (t' & r'' & Hb & H0 & Hrest). exists t', r''.
      pose proof (lookup_lt_Some _ _ _ H0). split; [lia|]. split; [by apply lookup_snoc_old|done].
Qed.

Lemma wf_respond hs r t0 r0 :
  well_formed hs → responds r → (∀ t r', hs !! t = Some r' → responds r' → req_id r' ≠ req_id r) →
  hs !! t0 = Some r0 → invokes r0 → req_id r0 = req_id r → thread_id r0 = thread_id r → op_type r0 = op_type r →
  well_formed (hs ++ [r]).
Proof.
  intros [Ho Hm Hs] Hr Hnew H0 Hi0 Hq0 Hth0 Hop0. unfold invokes, responds in *.
  pose proof (lookup_lt_Some _ _ _ H0) as Hl0. split.
  - intros t1 t2 r1 r2 [[H1 Hl1]|[-> ->]]%lookup_snoc [[H2 Hl2]|[-> ->]]%lookup_snoc He Hq; [by eapply Ho|..|done].
    + destruct (Hnew _ _ H1); congruence.
    + destruct (Hnew _ _ H2); congruence.
  - intros t r' [[H1 Hl1]|[-> ->]]%lookup_snoc Hrs.
    + destruct (Hm _ _ H1 Hrs) as (t1 & r1 & Hlt & H1' & Hrest). exists t1, r1. split; [done|].
      split; [by apply lookup_snoc_old|done].
    + exists t0, r0. split; [done|]. split; [by apply lookup_snoc_old|done].
  - intros t1 t2 r1 r2 Hlt [[H1 Hl1]|[-> ->]]%lookup_snoc [[H2 Hl2]|[-> ->]]%lookup_snoc Hi1 Hi2 Hth; try lia.
    + destruct (Hs _ _ _ _ Hlt H1 H2 Hi1 Hi2 Hth) as (t & r1' & Hb & H0' & Hrest). exists t, r1'.
      split; [done|]. split; [by apply lookup_snoc_old|done].
    + unfold invokes in *. congruence.
Qed.

(** *** Linearizations *)

Lemma lin_elem (lin : list (Z * log_op)) p q op : lin !! p = Some (q, op) → q ∈ lin.*1.
Proof. intros Hp%list_elem_of_lookup_2. apply list_elem_of_fmap. by exists (q, op). Qed.

Lemma lz_invoke hs lin s r :
  linearizes hs lin s → invokes r → req_id r ∉ lin.*1 → linearizes (hs ++ [r]) lin s.
Proof.
  intros Hlz Hr Hnew. unfold invokes, responds in *. destruct Hlz as [Ho Hl Hc Hrt Hor].
  split; try done.
  - intros q op (t & r' & Ht & Hrest)%Hc. exists t, r'. split; [by apply lookup_snoc_old|done].
  - intros t r' [[H1 _]|[-> ->]]%lookup_snoc Hrs; [by eapply Hrt|]. unfold responds in *. congruence.
  - intros t1 t2 r1 r2 p1 p2 op1 op2 Hlt [[H1 Hl1]|[-> ->]]%lookup_snoc [[H2 Hl2]|[-> ->]]%lookup_snoc Hr1 Hr2 Hp1 Hp2;
      try lia; [by eapply (Hor t1 t2)|]. exfalso. by apply Hnew, (lin_elem _ p2 _ op2).
Qed.

Lemma lz_respond hs lin s r op :
  linearizes hs lin s → responds r → (req_id r, op) ∈ lin → returned r op → linearizes (hs ++ [r]) lin s.
Proof.
  intros [Ho Hl Hc Hrt Hor] Hr Hin Hret. unfold invokes, responds in *. split; try done.
  - intros q op' (t & r' & Ht & Hrest)%Hc. exists t, r'. split; [by apply lookup_snoc_old|done].
  - intros t r' [[H1 _]|[-> ->]]%lookup_snoc Hrs; [by eapply Hrt|]. by exists op.
  - intros t1 t2 r1 r2 p1 p2 op1 op2 Hlt [[H1 Hl1]|[-> ->]]%lookup_snoc [[H2 Hl2]|[-> ->]]%lookup_snoc Hr1 Hr2 Hp1 Hp2;
      try lia; [by eapply (Hor t1 t2)|]. unfold invokes in *. congruence.
Qed.

Lemma lz_effect hs lin s s' q op t r :
  linearizes hs lin s → q ∉ lin.*1 → log_step s op = Some s' →
  hs !! t = Some r → invokes r → req_id r = q → called r op →
  (∀ t' r', hs !! t' = Some r' → responds r' → req_id r' ≠ q) →
  linearizes hs (lin ++ [(q, op)]) s'.
Proof.
  intros [Ho Hl Hc Hrt Hor] Hnew Hst Ht Hr Hq Hcl Hnr. split.
  - rewrite fmap_app. apply list.NoDup_app. split; [done|]. split; [|apply list.NoDup_singleton].
    intros x Hx Hx'%list_elem_of_singleton. simpl in Hx'. by subst x.
  - rewrite fmap_app. simpl. by rewrite (run_ops_snoc _ _ _ Hl).
  - intros q' op' [Hin|Hin]%elem_of_app; [by apply Hc|]. apply list_elem_of_singleton in Hin. simplify_eq. by exists t, r.
  - intros t' r' Ht' Hrs. destruct (Hrt _ _ Ht' Hrs) as (op' & Hin & Hret). exists op'.
    split; [|done]. apply elem_of_app. by left.
  - intros t1 t2 r1 r2 p1 p2 op1 op2 Hlt H1 H2 Hr1 Hr2 [[Hp1 Hl1]|[-> Hp1]]%lookup_snoc [[Hp2 Hl2]|[-> Hp2]]%lookup_snoc.
    + by eapply (Hor t1 t2).
    + done.
    + simplify_eq. by destruct (Hnr _ _ H1 Hr1).
    + simplify_eq. by destruct (Hnr _ _ H1 Hr1).
Qed.

(** *** Steps *)

(** The threads after a step. *)
Lemma threads_after (ths : list (Z * phase)) i a ph ph' :
  ths !! i = Some (a, ph) →
  (<[i := (a, ph')]> ths).*1 = ths.*1 ∧
  ∀ j b ph'', <[i := (a, ph')]> ths !! j = Some (b, ph'') →
    j = i ∧ b = a ∧ ph'' = ph' ∨ j ≠ i ∧ ths !! j = Some (b, ph'').
Proof.
  intros Hi. split.
  - rewrite list_fmap_insert. apply list_insert_id. by rewrite list_lookup_fmap, Hi.
  - intros j b ph'' Hj. destruct (decide (j = i)) as [->|Hne].
    + rewrite list_lookup_insert_eq in Hj by (by apply lookup_lt_Some in Hi). left. by simplify_eq.
    + rewrite list_lookup_insert_ne in Hj by done. by right.
Qed.

(** The part of the invariant about ids. *)
Lemma ids_after sp i a ph ph' next :
  spec_inv sp → sp_threads sp !! i = Some (a, ph) → sp_next sp ≤ next →
  (∀ q, current ph' = Some q → q < next ∧ (current ph = Some q ∨ sp_next sp ≤ q)) →
  let ths := set_phase sp i a ph' in
  0 ≤ next ∧ NoDup ths.*1 ∧
  (∀ j b ph'' q, ths !! j = Some (b, ph'') → current ph'' = Some q → q < next) ∧
  (∀ j k b c p1 p2 q, ths !! j = Some (b, p1) → ths !! k = Some (c, p2) →
    current p1 = Some q → current p2 = Some q → j = k).
Proof.
  intros Hsp Hi Hle Hcur ths. destruct (threads_after (sp_threads sp) i a ph ph' Hi) as [Hk Hth].
  fold (set_phase sp i a ph') in Hk, Hth. fold ths in Hk, Hth. destruct Hsp. split_and!.
  - lia.
  - by rewrite Hk.
  - intros j b ph'' q [(-> & -> & ->)|[_ Hj]]%Hth Hq; [by apply Hcur in Hq as [? _]|].
    apply (si_current0 _ _ _ _ Hj) in Hq. lia.
  - assert (∀ k c p2 q, current ph' = Some q → sp_threads sp !! k = Some (c, p2) → current p2 = Some q → i = k) as Hne.
    { intros k c p2 q [_ [Hq|Hq]]%Hcur Hk' Hq'; [by eapply si_distinct0|].
      apply (si_current0 _ _ _ _ Hk') in Hq'. lia. }
    intros j k b c p1 p2 q [(-> & -> & ->)|[Hj Hj1]]%Hth [(-> & -> & ->)|[Hk' Hk1]]%Hth Hq1 Hq2; [done|..].
    + by eapply Hne.
    + symmetry. by eapply Hne.
    + by eapply si_distinct0.
Qed.

Lemma phase_snoc hs lin a ph r :
  phase_ok hs lin a ph → current ph ≠ Some (req_id r) → phase_ok (hs ++ [r]) lin a ph.
Proof.
  assert (∀ q, (∀ t r', hs !! t = Some r' → responds r' → req_id r' ≠ q) → req_id r ≠ q →
    ∀ t r', (hs ++ [r]) !! t = Some r' → responds r' → req_id r' ≠ q) as Hres.
  { intros q Hq Hr t r' [[Ht _]|[-> ->]]%lookup_snoc Hrs; [by eapply Hq|done]. }
  destruct ph as [|q|q c|q op]; simpl; [done|..].
  - intros Hq Hne t r' [[Ht _]|[-> ->]]%lookup_snoc; [by eapply Hq|congruence].
  - intros ([t Ht] & Hq & Hl) Hne. split; [exists t; by apply lookup_snoc_old|]. split; [|done]. apply Hres; [done|congruence].
  - intros ((t & c & Ht & Hc) & Hq & Hl) Hne. split; [exists t, c; split; [by apply lookup_snoc_old|done]|].
    split; [|done]. apply Hres; [done|congruence].
Qed.

Lemma phase_effect hs lin a ph q op :
  phase_ok hs lin a ph → current ph ≠ Some q → phase_ok hs (lin ++ [(q, op)]) a ph.
Proof.
  destruct ph as [|q'|q' c|q' op']; simpl; [done|done|..].
  - intros (Hi & Hq & Hl) Hne. split; [done|]. split; [done|]. rewrite fmap_app, elem_of_app. simpl. rewrite list_elem_of_singleton.
    intros [?| ->]; [done|]. by apply Hne.
  - intros (Hi & Hq & Hl) Hne. split; [done|]. split; [done|]. apply elem_of_app. by left.
Qed.

Lemma invocation_ok q a c :
  invokes (invocation q a c) ∧ req_id (invocation q a c) = q ∧ thread_id (invocation q a c) = a ∧
  ∀ op, answers op c → called (invocation q a c) op.
Proof. destruct c; split_and!; try done; intros [] Ho; simpl in *; naive_solver. Qed.

(** The other threads are other ones. *)
Lemma other_thread (ths : list (Z * phase)) i j a b ph ph' :
  NoDup ths.*1 → ths !! i = Some (a, ph) → ths !! j = Some (b, ph') → j ≠ i → b ≠ a.
Proof.
  intros Hnd Hi Hj Hne ->. apply Hne. eapply (NoDup_lookup ths.*1 j i a); [done|..]; rewrite list_lookup_fmap.
  - by rewrite Hj.
  - by rewrite Hi.
Qed.

Lemma take_inv sp i a :
  spec_inv sp → sp_threads sp !! i = Some (a, Idle) →
  spec_inv (mkSpec (sp_hist sp) (sp_next sp + 1) (set_phase sp i a (Taken (sp_next sp))) (sp_lin sp) (sp_log sp)).
Proof.
  intros Hsp Hi. destruct (ids_after sp i a Idle (Taken (sp_next sp)) (sp_next sp + 1) Hsp Hi)
    as (Hn & Hnd & Hcur & Hdis); [lia|intros q [= <-]; split; [lia|right; lia]|].
  destruct (threads_after (sp_threads sp) i a Idle (Taken (sp_next sp)) Hi) as [_ Hth]. destruct Hsp. split; simpl; try done.
  - intros t r Hr. apply si_ids0 in Hr. lia.
  - intros j b ph [(-> & -> & ->)|[_ Hj]]%Hth; [|by eapply si_phase0]. simpl.
    intros t r Hr. apply si_ids0 in Hr. lia.
  - intros j b ph t r [(-> & -> & ->)|[_ Hj]]%Hth; [|by eapply si_open0]. by apply (si_open0 i a Idle).
Qed.

Lemma invoke_inv sp i a q c :
  spec_inv sp → sp_threads sp !! i = Some (a, Taken q) →
  spec_inv (mkSpec (sp_hist sp ++ [invocation q a c]) (sp_next sp) (set_phase sp i a (Called q c)) (sp_lin sp) (sp_log sp)).
Proof.
  intros Hsp Hi. destruct (ids_after sp i a (Taken q) (Called q c) (sp_next sp) Hsp Hi)
    as (Hn & Hnd & Hcur & Hdis); [lia|intros q' [= <-]; split; [by eapply (si_current _ Hsp)|by left]|].
  destruct (threads_after (sp_threads sp) i a (Taken q) (Called q c) Hi) as [_ Hth].
  destruct (invocation_ok q a c) as (Hinv & Hq & Ha & Hcall). pose proof (si_phase _ Hsp _ _ _ Hi) as Hnew. simpl in Hnew.
  assert (q ∉ (sp_lin sp).*1) as Hlin.
  { intros ([q' op] & -> & Hin)%list_elem_of_fmap. destruct (lz_called _ _ _ (si_lin _ Hsp) _ _ Hin) as (t & r & Ht & _ & Hr & _).
    by destruct (Hnew _ _ Ht). }
  assert (∀ j b ph, j ≠ i → sp_threads sp !! j = Some (b, ph) → current ph ≠ Some q) as Hother.
  { intros j b ph Hne Hj Hc. apply Hne. by eapply (si_distinct _ Hsp). }
  destruct Hsp. split; simpl; try done.
  - intros t r [[Ht _]|[-> ->]]%lookup_snoc; [by eapply si_ids0|]. rewrite Hq. by eapply si_current0.
  - intros j b ph [(-> & -> & ->)|[Hne Hj]]%Hth; simpl.
    + split; [eexists; apply lookup_snoc_new|]. split; [|done].
      intros t r [[Ht _]|[-> ->]]%lookup_snoc Hr; [by eapply Hnew|]. unfold invokes, responds in *. congruence.
    + apply phase_snoc; [by eapply si_phase0|]. rewrite Hq. by eapply Hother.
  - intros j b ph t r Hj [[Ht _]|[-> ->]]%lookup_snoc Hr Hb; apply Hth in Hj as [(-> & -> & ->)|[Hne Hj]].
    + destruct (si_open0 _ _ _ _ _ Hi Ht Hr Hb) as [?|(t' & r' & Hlt & Ht' & Hrest)]; [done|].
      right. exists t', r'. split; [done|]. split; [by apply lookup_snoc_old|done].
    + destruct (si_open0 _ _ _ _ _ Hj Ht Hr Hb) as [?|(t' & r' & Hlt & Ht' & Hrest)]; [by left|].
      right. exists t', r'. split; [done|]. split; [by apply lookup_snoc_old|done].
    + left. simpl. by rewrite Hq.
    + exfalso. rewrite Ha in Hb. by apply (other_thread _ i j a b _ _ si_threads0 Hi Hj Hne).
  - apply wf_invoke; try done; [by rewrite Hq|]. rewrite Ha. intros t r Ht Hr Hb.
    by destruct (si_open0 _ _ _ _ _ Hi Ht Hr Hb) as [?|?].
  - apply lz_invoke; try done. by rewrite Hq.
Qed.

Lemma effect_inv sp i a q c op s :
  spec_inv sp → sp_threads sp !! i = Some (a, Called q c) → answers op c → log_step (sp_log sp) op = Some s →
  spec_inv (mkSpec (sp_hist sp) (sp_next sp) (set_phase sp i a (Effected q op)) (sp_lin sp ++ [(q, op)]) s).
Proof.
  intros Hsp Hi Hans Hst. destruct (ids_after sp i a (Called q c) (Effected q op) (sp_next sp) Hsp Hi)
    as (Hn & Hnd & Hcur & Hdis); [lia|intros q' [= <-]; split; [by eapply (si_current _ Hsp)|by left]|].
  destruct (threads_after (sp_threads sp) i a (Called q c) (Effected q op) Hi) as [_ Hth].
  destruct (invocation_ok q a c) as (Hinv & Hq & Ha & Hcall).
  destruct (si_phase _ Hsp _ _ _ Hi) as ([t Ht] & Hnr & Hnl).
  destruct Hsp. split; simpl; try done.
  - intros j b ph [(-> & -> & ->)|[Hne Hj]]%Hth; simpl.
    + split; [by exists t, c|]. split; [done|]. apply elem_of_app. right. by apply list_elem_of_singleton.
    + apply phase_effect; [by eapply si_phase0|]. intros Hc. apply Hne. by eapply si_distinct0.
  - intros j b ph t' r [(-> & -> & ->)|[_ Hj]]%Hth; [|by eapply si_open0]. by apply (si_open0 i a (Called q c)).
  - eapply lz_effect; try done. by apply Hcall.
Qed.

Lemma respond_inv sp i a q op r :
  spec_inv sp → sp_threads sp !! i = Some (a, Effected q op) →
  responds r → req_id r = q → thread_id r = a → returned r op →
  spec_inv (mkSpec (sp_hist sp ++ [r]) (sp_next sp) (set_phase sp i a Idle) (sp_lin sp) (sp_log sp)).
Proof.
  intros Hsp Hi Hr Hq Ha Hret. destruct (ids_after sp i a (Effected q op) Idle (sp_next sp) Hsp Hi)
    as (Hn & Hnd & Hcur & Hdis); [lia|done|].
  destruct (threads_after (sp_threads sp) i a (Effected q op) Idle Hi) as [_ Hth].
  destruct (si_phase _ Hsp _ _ _ Hi) as ((t0 & c & Ht0 & Hans) & Hnr & Hin).
  destruct (invocation_ok q a c) as (Hinv & Hq0 & Ha0 & Hcall).
  destruct Hsp. split; simpl; try done.
  - intros t r' [[Ht _]|[-> ->]]%lookup_snoc; [by eapply si_ids0|]. rewrite Hq. by eapply si_current0.
  - intros j b ph [(-> & -> & ->)|[Hne Hj]]%Hth; [done|]. apply phase_snoc; [by eapply si_phase0|].
    rewrite Hq. intros Hc. apply Hne. by eapply si_distinct0.
  - intros j b ph t r' Hj [[Ht Hl]|[-> ->]]%lookup_snoc Hr' Hb; cycle 1.
    { unfold invokes, responds in *. congruence. }
    assert (∃ ph0, sp_threads sp !! j = Some (b, ph0) ∧ (ph0 = ph ∨ pending ph0 = Some q)) as (ph0 & Hj0 & Hph).
    { apply Hth in Hj as [(-> & -> & ->)|[Hne Hj]]; [|by exists ph; split; [|left]]. eexists. split; [done|by right]. }
    destruct (si_open0 _ _ _ _ _ Hj0 Ht Hr' Hb) as [Hp|(t' & r'' & Hlt & Ht' & Hrest)].
    + destruct Hph as [->|Hp']; [by left|]. right. exists (length (sp_hist sp)), r. split; [done|].
      split; [apply lookup_snoc_new|]. split; [done|congruence].
    + right. exists t', r''. split; [done|]. split; [by apply lookup_snoc_old|done].
  - eapply (wf_respond _ _ t0 (invocation q a c)); try done; [by rewrite Hq|congruence..|].
    destruct op, c; try done; destruct Hret as [Ho _]; by rewrite Ho.
  - apply (lz_respond _ _ _ _ op); try done. by rewrite Hq.
Qed.

Lemma spec_step_inv sp sp' : spec_step sp sp' → spec_inv sp → spec_inv sp'.
Proof. destruct 1; intros Hsp; eauto using take_inv, invoke_inv, effect_inv, respond_inv. Qed.

Lemma spec_run_inv sp sp' : rtc spec_step sp sp' → spec_inv sp → spec_inv sp'.
Proof. induction 1; eauto using spec_step_inv. Qed.

Lemma Spec_init_inv ids : NoDup ids → spec_inv (Spec_init ids).
Proof.
  intros Hnd. assert (∀ i a ph, sp_threads (Spec_init ids) !! i = Some (a, ph) → ph = Idle) as Hidle.
  { intros i a ph. simpl. rewrite list_lookup_fmap. destruct (ids !! i); [|done]. by intros [= _ <-]. }
  split; simpl; try done.
  - rewrite <- list_fmap_compose. simpl. by rewrite list_fmap_id.
  - by intros i a ph q ->%Hidle.
  - by intros i j a b ph ph' q ->%Hidle.
  - by intros i a ph ->%Hidle.
  - split; simpl; try done.
    + constructor.
    + by intros q op ?%elem_of_nil.
Qed.

(** ** What a linearization says of a write *)

Lemma log_step_grows s op s' : log_step s op = Some s' → s `prefix_of` s'.
Proof. destruct op; simpl; case_decide; try done; intros [= <-]; [by eexists|done]. Qed.

Lemma run_ops_append ops s d n : run_ops ops = Some s → Append d n ∈ ops → s !! n = Some d.
Proof.
  revert s. induction ops as [|op ops IH] using rev_ind; intros s Hr Hin; [by apply elem_of_nil in Hin|].
  unfold run_ops in *. rewrite foldl_app in Hr. simpl in Hr. destruct (foldl _ _ ops) as [s0|] eqn:Hs0; [|done].
  simpl in Hr. apply elem_of_app in Hin as [Hin|Hin%list_elem_of_singleton].
  - specialize (IH s0 eq_refl Hin). by eapply prefix_lookup_Some; [|eapply log_step_grows].
  - subst op. simpl in Hr. case_decide as Hn; [|done]. injection Hr as <-. subst n.
    by rewrite lookup_app_r, Nat.sub_diag.
Qed.

(** The log has the payload of a write that has returned, at the index that it returned. *)
Lemma written_entry hs lin s t r t0 r0 z :
  well_formed hs → linearizes hs lin s →
  hs !! t = Some r → responds r → op_type r = OP_WRITE → head (seq_nums r) = Some z →
  hs !! t0 = Some r0 → invokes r0 → req_id r0 = req_id r →
  ∃ n, z = Z.of_nat n ∧ s !! n = Some (value r0).
Proof.
  intros Hwf Hlz Ht Hr Hw Hz Ht0 Hr0 Hq. destruct (lz_returned _ _ _ Hlz _ _ Ht Hr) as (op & Hin & Hret).
  destruct op as [d n|n d]; simpl in Hret; [|destruct Hret as [? _]; congruence]. destruct Hret as [_ Hn].
  exists n. split; [congruence|]. destruct (lz_called _ _ _ Hlz _ _ Hin) as (t1 & r1 & Ht1 & Hr1 & Hq1 & _ & Hd).
  assert (t1 = t0) as ->.
  { unfold invokes in *. eapply (wf_once _ Hwf t1 t0 r1 r0); congruence. }
  assert (r1 = r0) as -> by congruence. rewrite Hd. eapply run_ops_append; [apply Hlz|].
  apply list_elem_of_fmap. by exists (req_id r, Append d n).
Qed.
