(* ===== verification/History.v ===== *)
(** The histories of the test client are those of an atomic log.

    The append takes effect when the primary replica stores the entry, the read when the
    shard answers it; whatever the other threads, the backups, the two threads of the
    consensus log and the garbage collection do in between.  [sim] relates a state of the
    threads and the system to one of [AtomicLog], and each step is one of its steps or
    none. *)

From Stdlib Require Import String.
From stdpp Require Import strings pretty.
From S2P Require Import Prelude Props Sequencer LogEntry DurLogFlat FlatRing FlatGC DlTransport.
From S2P Require Import FlatCli Replica Links ShardServer ShardRepr NaiveBackend StorageLog.
From S2P Require Import ConsLog ConsOrder System Pipeline PipelineOrder Startup SystemView Client.
From S2P Require Import BasicClient AtomicLog.

Local Open Scope Z_scope.

(** ** Payloads *)

Lemma pretty_N_go_length (k : nat) x s :
  (x < 10 ^ N.of_nat k)%N → (String.length (pretty_N_go x s) ≤ k + String.length s)%nat.
Proof.
  revert x s. induction k as [|k IH]; intros x s Hx.
  - assert (x = 0%N) as -> by (simpl in Hx; lia). by rewrite pretty_N_go_0.
  - destruct (decide (x = 0%N)) as [->|Hne]; [rewrite pretty_N_go_0; lia|].
    rewrite pretty_N_go_step by lia. etrans; [apply IH|simpl; lia].
    rewrite Nat2N.inj_succ, N.pow_succ_r' in Hx. apply N.Div0.div_lt_upper_bound; lia.
Qed.

Lemma text_length s : length (text s) = String.length s.
Proof.
  unfold text, list_byte_of_string. rewrite List.length_map. induction s; simpl; congruence.
Qed.

Lemma pretty_length (k : nat) z : (0 < k)%nat → 0 ≤ z < 10 ^ Z.of_nat k → (length (text (pretty z)) ≤ k)%nat.
Proof.
  intros Hk Hz. rewrite text_length. destruct z as [|p|p]; [simpl; lia| |lia].
  change (pretty (Z.pos p)) with (pretty (N.pos p)). unfold pretty, pretty_N.
  destruct (decide (N.pos p = 0%N)); [done|]. pose proof (pretty_N_go_length k (N.pos p) "") as Hl.
  simpl in Hl. rewrite Nat.add_0_r in Hl. apply Hl. apply N2Z.inj_lt. rewrite N2Z.inj_pow. simpl.
  rewrite nat_N_Z. lia.
Qed.

Lemma zero_filled_length (w : nat) z : (0 < w)%nat → 0 ≤ z < 10 ^ Z.of_nat w → length (zero_filled w z) = w.
Proof.
  intros Hw Hz. pose proof (pretty_length w z Hw Hz) as Hl. unfold zero_filled.
  rewrite length_app, length_replicate. lia.
Qed.

(** All payloads have eight bytes, and their entries forty. *)
Lemma payload_length a i : 0 ≤ a < 100 → 0 ≤ i < 100000 → length (payload_of a i) = 8%nat.
Proof.
  intros Ha Hi. unfold payload_of. rewrite !length_app, !zero_filled_length by (simpl; lia). done.
Qed.

(** ** The system under the threads *)

Section Sim.
Context `{Posix, Erpc, Rdma} (M : Z) (clients : list Z) (pri : string).
Context (HM : 40 ≤ M ≤ SAFE_RG_SIZE + 4) (Hclients : lenZ clients < 2 ^ 32).
Context (u n : nat) (cap : Z) (Hdims : dims M u n cap).
Context (Hcreate : ∀ p, may_create p = true) (Hwrite : ∀ j, write_len j = j).
Context (R : Z) (ip : nat) (keys : list string) (Hip : keys !! ip = Some pri).

(** All entries have forty bytes. *)
Abbreviation sys_inv := (SystemView.sys_inv M clients pri u n cap R ip keys (λ e, entry_size e = 40) 0).

Lemma total_size_40 hist : Forall (λ e, entry_size e = 40) hist → total_size hist = 40 * lenZ hist.
Proof. induction 1; simpl; lia. Qed.

(** An entry that a writer sends. *)
Definition entry_ok (e : LogEntry) : Prop := valid_entry e ∧ entry_size e = 40 ∧ client_id e ∈ clients.

Lemma sys_append rem cl p hist d c e :
  sys_inv (S rem) cl p hist → d ∈ keys → conn_ok 40 pri (d, c) → entry_ok e →
  ∃ l, link_at d (dur_cli_ cl) = Some l ∧
    match cli_AppendEntry (dl_handle (l_resp l)) c (l_svr l) e with
    | Ok (c', st, v) => conn_ok 40 pri (d, c') ∧ ∃ hist',
        sys_inv rem (with_links cl (link_set d (with_svr l st) (dur_cli_ cl))) p hist' ∧
        (d = pri → v = 40 * lenZ hist ∧ data <$> hist' = (data <$> hist) ++ [data e]) ∧
        (d ≠ pri → hist' = hist)
    | Blocked => True
    | Fault => False
    end.
Proof.
  intros Hi Hd Hc (Hv & Hsz & Hcli).
  destruct (cli_AppendEntry_message 40 pri d c e Hc ltac:(lia) Hv) as (bs & Hbs & Hmsg).
  assert (request_ok M e) as Hreq by (split; [done|lia]).
  destruct (sys_handle M clients pri ltac:(lia) u n cap R ip keys Hip _ 0 rem cl p hist d e bs Hi Hd Hbs Hreq Hcli)
    as (l & Hl & Happ); [done|].
  exists l. split; [done|]. specialize (Hmsg (l_resp l) (l_svr l)).
  destruct (AppendEntryHandler _ _ _) as [[st rs]| |]; [|by rewrite Hmsg|done].
  destruct Happ as (h & hist' & -> & Htot & Hi' & Hp & Hnp). pose proof (total_size_nonneg h).
  rewrite load_u64_response in Hmsg by lia. destruct Hmsg as [?|(c' & v & Hv' & -> & Hc')]; [done|]. injection Hv' as <-.
  split; [done|]. exists hist'. split; [done|]. split; [|done]. intros Hd'. destruct (Hp Hd') as [-> ->].
  destruct Hi as (_ & _ & _ & _ & _ & _ & _ & _ & _ & H40 & _). split; [by apply total_size_40|]. by rewrite fmap_app.
Qed.

(** ** The threads *)

(** Where a thread is in the specification: an append has taken effect once the primary
    is no longer among the replicas to come. *)
Definition writer_view (w : Writer) : Z * phase :=
  (w_id w,
   match w_pc w with
   | WNext => Idle
   | WNumbered q => Taken q
   | WAppending q e ds nums =>
       if decide (pri ∈ ds) then Called q (CAppend (data e))
       else Effected q (Append (data e) (Z.to_nat (hd 0 nums)))
   end).

Definition reader_view (t : Reader) : Z * phase :=
  (r_id t,
   match r_pc t with
   | RNext => Idle
   | RNumbered q => Taken q
   | RReading q => Called q (CRead (Z.to_nat (r_i t)))
   | RRead q d => Effected q (ReadAt (Z.to_nat (r_i t)) d)
   end).

Definition views (ws : list Writer) (ts : list Reader) : list (Z * phase) :=
  (writer_view <$> ws) ++ (reader_view <$> ts).

Record writer_ok (w : Writer) : Prop := {
  wo_id : 0 ≤ w_id w < 100;
  wo_ops : 0 ≤ w_i w ∧ w_ops w ≤ 100000;
  wo_client : w_client_id w ∈ clients ∧ 0 ≤ w_client_id w < 2 ^ 64;
  wo_seq : 0 ≤ w_seq w < 2 ^ 64;
  wo_keys : NoDup (w_conns w).*1 ∧ (w_conns w).*1 ⊆ keys ∧ pri ∈ (w_conns w).*1;
  wo_conns : Forall (conn_ok 40 pri) (w_conns w);
  wo_pc : match w_pc w with
          | WNext => True
          | WNumbered _ => w_i w < w_ops w
          | WAppending _ e ds nums => entry_ok e ∧ NoDup ds ∧ ds ⊆ (w_conns w).*1 ∧
              (pri ∈ ds ∨ ∃ n rest, nums = Z.of_nat n :: rest)
          end
}.

Record reader_ok (t : Reader) : Prop := {
  ro_ops : 0 ≤ r_i t ∧ r_ops t < 2 ^ 64;
  ro_pc : match r_pc t with RNumbered _ | RReading _ => r_i t < r_ops t | _ => True end
}.

Lemma views_writer ws ts j w w' :
  ws !! j = Some w →
  views ws ts !! j = Some (writer_view w) ∧
  <[j := writer_view w']> (views ws ts) = views (<[j := w']> ws) ts.
Proof.
  intros Hj. pose proof (lookup_lt_Some _ _ _ Hj). unfold views. split.
  - apply lookup_app_l_Some. by rewrite list_lookup_fmap, Hj.
  - rewrite insert_app_l by (by rewrite length_fmap). by rewrite list_fmap_insert.
Qed.

Lemma views_reader ws ts j t t' :
  ts !! j = Some t →
  views ws ts !! (length ws + j)%nat = Some (reader_view t) ∧
  <[(length ws + j)%nat := reader_view t']> (views ws ts) = views ws (<[j := t']> ts).
Proof.
  intros Hj. unfold views. rewrite <- (length_fmap writer_view ws). split.
  - rewrite lookup_app_r, Nat.add_comm, Nat.add_sub by lia. by rewrite list_lookup_fmap, Hj.
  - by rewrite insert_app_r, list_fmap_insert.
Qed.

(** The threads and the system implement a state of the specification. *)
Record sim (rem : nat) (h : Harness) (hist : list LogEntry) (sp : Spec) : Prop := {
  sm_sys : sys_inv rem (h_cons h) (h_pipe h) hist;
  sm_hist : sp_hist sp = global_history (h_rec h);
  sm_next : sp_next sp = global_req_id (h_rec h);
  sm_room : 0 ≤ sp_next sp ∧ sp_next sp + Z.of_nat rem < 2 ^ 64;
  sm_log : sp_log sp = data <$> hist;
  sm_threads : sp_threads sp = views (h_writers h) (h_readers h);
  sm_writers : Forall writer_ok (h_writers h);
  sm_readers : Forall reader_ok (h_readers h)
}.

Lemma sim_weaken rem h hist sp : sim (S rem) h hist sp → sim rem h hist sp.
Proof. intros []. split; try done; [eapply sys_weaken; [|done]; lia|lia]. Qed.

(** A writer's entry. *)
Lemma writer_entry_ok w :
  writer_ok w → w_i w < w_ops w →
  let d := payload_of (w_id w) (w_i w) in
  ∃ e, writer_entry w d = (e, u64 (w_seq w + 1)) ∧ entry_ok e ∧ data e = d.
Proof.
  intros [] Hlt d. assert (length d = 8%nat) as Hd by (apply payload_length; lia).
  unfold writer_entry, Sequencer.GetNextSeq. eexists. split; [done|]. split; [|done]. rewrite Hd.
  split_and!; try apply wo_client0; try done.
  - unfold valid_entry, wf_entry. cbn [client_id client_seq log_idx size_ data flags view]. rewrite Hd.
    split_and!; try done; apply wo_client0 || apply wo_seq0.
  - unfold entry_size. cbn [data]. by rewrite Hd.
Qed.

(** A step of a thread in the specification, and the record of the shared state. *)
Definition thread_step (rem : nat) (h : Harness) (hist : list LogEntry) (sp : Spec) (h' : Harness) : Prop :=
  ∃ hist' sp', rtc spec_step sp sp' ∧ sim rem h' hist' sp'.

Definition set_writer (h : Harness) (cl : ConsensusLog) (r : Recorder) (j : nat) (w : Writer) : Harness :=
  mkHarness cl (h_pipe h) r (<[j := w]> (h_writers h)) (h_readers h).
Definition set_reader (h : Harness) (cl : ConsensusLog) (r : Recorder) (j : nat) (t : Reader) : Harness :=
  mkHarness cl (h_pipe h) r (h_writers h) (<[j := t]> (h_readers h)).

(** The specification follows a writer or a reader, in one step or none. *)
Lemma sim_writer rem h hist hist' sp sp' j w w' cl r :
  sim (S rem) h hist sp → h_writers h !! j = Some w → writer_ok w' →
  rtc spec_step sp sp' → sp_threads sp' = <[j := writer_view w']> (sp_threads sp) →
  sys_inv rem cl (h_pipe h) hist' → sp_log sp' = data <$> hist' →
  sp_hist sp' = global_history r → sp_next sp' = global_req_id r → sp_next sp ≤ sp_next sp' ≤ sp_next sp + 1 →
  thread_step rem h hist sp (set_writer h cl r j w').
Proof.
  intros [] Hj Hw Hst Hth Hsys Hlog Hh Hn Hle. exists hist', sp'. split; [done|]. split; try done.
  - lia.
  - rewrite Hth, sm_threads0. by apply (views_writer _ _ j w).
  - by apply Forall_insert.
Qed.

Lemma sim_reader rem h hist hist' sp sp' j t t' cl r :
  sim (S rem) h hist sp → h_readers h !! j = Some t → reader_ok t' →
  rtc spec_step sp sp' → sp_threads sp' = <[(length (h_writers h) + j)%nat := reader_view t']> (sp_threads sp) →
  sys_inv rem cl (h_pipe h) hist' → sp_log sp' = data <$> hist' →
  sp_hist sp' = global_history r → sp_next sp' = global_req_id r → sp_next sp ≤ sp_next sp' ≤ sp_next sp + 1 →
  thread_step rem h hist sp (set_reader h cl r j t').
Proof.
  intros [] Hj Hw Hst Hth Hsys Hlog Hh Hn Hle. exists hist', sp'. split; [done|]. split; try done.
  - lia.
  - rewrite Hth, sm_threads0. by apply (views_reader _ _ j t).
  - by apply Forall_insert.
Qed.

Lemma sim_at_writer rem h hist sp j w :
  sim rem h hist sp → h_writers h !! j = Some w →
  sp_threads sp !! j = Some (writer_view w) ∧ writer_ok w.
Proof.
  intros [] Hj. rewrite sm_threads0. split; [by apply (views_writer _ _ j w w)|by eapply Forall_lookup_1].
Qed.

Lemma sim_at_reader rem h hist sp j t :
  sim rem h hist sp → h_readers h !! j = Some t →
  sp_threads sp !! (length (h_writers h) + j)%nat = Some (reader_view t) ∧ reader_ok t.
Proof.
  intros [] Hj. rewrite sm_threads0. split; [by apply (views_reader _ _ j t t)|by eapply Forall_lookup_1].
Qed.

(** *** Writers *)

Lemma writer_take rem h hist sp j w :
  sim (S rem) h hist sp → h_writers h !! j = Some w → w_pc w = WNext → w_i w < w_ops w →
  let '(req, r) := next_req (h_rec h) in
  thread_step rem h hist sp (set_writer h (h_cons h) r j (w_at w (w_i w) (w_conns w) (w_seq w) (WNumbered req))).
Proof.
  intros Hs Hj Hpc Hlt. simpl. destruct (sim_at_writer _ _ _ _ _ _ Hs Hj) as [Hth Hw].
  unfold writer_view in Hth. rewrite Hpc in Hth. pose proof (sm_next _ _ _ _ Hs) as Hn. pose proof (sm_room _ _ _ _ Hs) as Hr.
  eapply (sim_writer rem h hist hist sp _ j w); [done|done| |by apply rtc_once, (step_take sp j (w_id w))|..]; simpl.
  - destruct Hw. by split.
  - unfold set_phase, writer_view. simpl. by rewrite Hn.
  - eapply sys_weaken; [|apply Hs]. lia.
  - apply Hs.
  - apply Hs.
  - rewrite <- Hn, u64_small; [done|lia].
  - lia.
Qed.

Lemma writer_invoke rem h hist sp j w req shuffle :
  sim (S rem) h hist sp → h_writers h !! j = Some w → w_pc w = WNumbered req →
  (∀ ds : list string, shuffle ds ≡ₚ ds) →
  let payload := payload_of (w_id w) (w_i w) in
  let '(e, q) := writer_entry w payload in
  thread_step rem h hist sp (set_writer h (h_cons h) (RecordWriteInvoke (h_rec h) req (w_id w) payload) j
    (w_at w (w_i w) (w_conns w) q (WAppending req e (shuffle (w_conns w).*1) []))).
Proof.
  intros Hs Hj Hpc Hsh payload. destruct (sim_at_writer _ _ _ _ _ _ Hs Hj) as [Hth Hw].
  pose proof (wo_pc _ Hw) as Hlt. rewrite Hpc in Hlt. unfold writer_view in Hth. rewrite Hpc in Hth.
  destruct (writer_entry_ok w Hw Hlt) as (e & He & Hok & Hd). fold payload in He, Hd. rewrite He.
  destruct (wo_keys _ Hw) as (Hnd & Hsub & Hpri).
  eapply (sim_writer rem h hist hist sp _ j w);
    [done|done| |by apply rtc_once, (step_invoke sp j (w_id w) req (CAppend payload))|..]; simpl.
  - destruct Hw. split; simpl; try done; [apply Z.mod_pos_bound; lia|]. split; [done|]. split; [by rewrite Hsh|].
    split; [by rewrite Hsh|]. left. by rewrite Hsh.
  - unfold set_phase, writer_view. simpl. rewrite decide_True by (by rewrite Hsh). by rewrite Hd.
  - eapply sys_weaken; [|apply Hs]. lia.
  - apply Hs.
  - by rewrite (sm_hist _ _ _ _ Hs).
  - apply Hs.
  - lia.
Qed.

Lemma writer_respond rem h hist sp j w req e nums :
  sim (S rem) h hist sp → h_writers h !! j = Some w → w_pc w = WAppending req e [] nums →
  thread_step rem h hist sp (set_writer h (h_cons h) (RecordWriteResponse (h_rec h) req (w_id w) 0 nums) j
    (w_at w (w_i w + 1) (w_conns w) (w_seq w) WNext)).
Proof.
  intros Hs Hj Hpc. destruct (sim_at_writer _ _ _ _ _ _ Hs Hj) as [Hth Hw].
  pose proof (wo_pc _ Hw) as Hok. rewrite Hpc in Hok. destruct Hok as (_ & _ & _ & [?%elem_of_nil|(k & rest & ->)]); [done|].
  unfold writer_view in Hth. rewrite Hpc, decide_False in Hth by apply not_elem_of_nil. simpl in Hth. rewrite Nat2Z.id in Hth.
  eapply (sim_writer rem h hist hist sp _ j w); [done|done| |..];
    [|by eapply rtc_once, (step_respond sp j (w_id w) req _ (mkRecord req (w_id w) RESPONSE OP_WRITE [] 0 (Z.of_nat k :: rest)))|..]; simpl.
  - destruct Hw. split; simpl; try done. lia.
  - done.
  - eapply sys_weaken; [|apply Hs]. lia.
  - apply Hs.
  - by rewrite (sm_hist _ _ _ _ Hs).
  - apply Hs.
  - lia.
Qed.

(** A connection of a writer. *)
Lemma writer_append rem h hist sp j w req e d ds nums :
  sim (S rem) h hist sp → h_writers h !! j = Some w → w_pc w = WAppending req e (d :: ds) nums →
  ∃ c l, link_at d (w_conns w) = Some c ∧ link_at d (dur_cli_ (h_cons h)) = Some l ∧
    match cli_AppendEntry (dl_handle (l_resp l)) c (l_svr l) e with
    | Ok (c', st, v) =>
        thread_step rem h hist sp (set_writer h (with_links (h_cons h) (link_set d (with_svr l st) (dur_cli_ (h_cons h))))
          (h_rec h) j (w_at w (w_i w) (link_set d c' (w_conns w)) (w_seq w)
            (WAppending req e ds (if IsPrimary c' then v / 40 :: nums else nums ++ [v / 40]))))
    | Blocked => True
    | Fault => False
    end.
Proof.
  intros Hs Hj Hpc. destruct (sim_at_writer _ _ _ _ _ _ Hs Hj) as [Hth Hw].
  pose proof (wo_pc _ Hw) as Hok. rewrite Hpc in Hok. destruct Hok as (He & Hnd & Hsub & Hnums).
  apply list.NoDup_cons in Hnd as [Hd Hnd]. destruct (wo_keys _ Hw) as (Hknd & Hkeys & Hpri).
  assert (d ∈ (w_conns w).*1) as Hdk by set_solver.
  destruct (conn_at _ _ _ d (wo_conns _ Hw) Hdk) as (c & Hc & Hcok & Hset).
  destruct (sys_append rem (h_cons h) (h_pipe h) hist d c e (sm_sys _ _ _ _ Hs) (Hkeys _ Hdk) Hcok He) as (l & Hl & Happ).
  exists c, l. split; [done|]. split; [done|]. destruct (cli_AppendEntry _ _ _ _) as [[[c' st] v]| |]; [|done..].
  destruct Happ as (Hc' & hist' & Hsys & Hp & Hnp). pose proof (proj2 Hc') as Hrole. simpl in Hrole. rewrite Hrole.
  assert (∀ nums', (pri ∈ ds ∨ ∃ n rest, nums' = Z.of_nat n :: rest) →
    writer_ok (w_at w (w_i w) (link_set d c' (w_conns w)) (w_seq w) (WAppending req e ds nums'))) as Hwok.
  { intros nums' Hn'. destruct Hw. split; simpl; rewrite ?link_set_keys; try done; [by apply Hset|].
    split; [done|]. split; [done|]. split; [set_solver|done]. }
  unfold writer_view in Hth. rewrite Hpc in Hth. destruct (streq_spec d pri) as [->|Hne].
  - destruct (Hp eq_refl) as [-> Hdata]. rewrite decide_True in Hth by set_solver. rewrite Z.mul_comm, Z.div_mul by done.
    eapply (sim_writer rem h hist hist' sp _ j w); [done|done|..]; [|eapply rtc_once,
      (step_effect sp j (w_id w) req (CAppend (data e)) (Append (data e) (length hist))); [done|done|]|..]; simpl.
    + apply Hwok. right. by eexists _, _.
    + rewrite (sm_log _ _ _ _ Hs). by rewrite decide_True by (by rewrite length_fmap).
    + unfold set_phase, writer_view. simpl. rewrite decide_False by done. by rewrite Nat2Z.id.
    + done.
    + by rewrite Hdata.
    + apply Hs.
    + apply Hs.
    + lia.
  - rewrite (Hnp Hne) in Hsys. eapply (sim_writer rem h hist hist sp sp j w); try done; try apply Hs; [|..|lia].
    + apply Hwok. destruct Hnums as [Hin|(k & rest & ->)]; [left; set_solver|right; by eexists _, _].
    + rewrite list_insert_id; [done|]. rewrite Hth. unfold writer_view. simpl. do 2 f_equal.
      destruct Hnums as [Hin|(k & rest & ->)].
      * rewrite !decide_True by set_solver. done.
      * destruct (decide (pri ∈ d :: ds)), (decide (pri ∈ ds)); set_solver.
Qed.

Lemma writer_step_ok rem h hist sp j w shuffle :
  sim (S rem) h hist sp → h_writers h !! j = Some w → (∀ ds, shuffle ds ≡ₚ ds) →
  match writer_step shuffle w (h_cons h) (h_rec h) with
  | Ok (w', cl, r) => thread_step rem h hist sp (set_writer h cl r j w')
  | Blocked => True
  | Fault => False
  end.
Proof.
  intros Hs Hj Hsh. unfold writer_step. destruct (w_pc w) as [|req|req e [|d ds] nums] eqn:Hpc.
  - destruct (Z.ltb_spec (w_i w) (w_ops w)) as [Hlt|]; [|done]. by apply (writer_take rem h hist sp j w).
  - pose proof (writer_invoke rem h hist sp j w req shuffle Hs Hj Hpc Hsh) as Hok. cbv zeta in Hok.
    destruct (writer_entry w _) as [e q]. done.
  - by apply (writer_respond rem h hist sp j w req e nums).
  - destruct (writer_append rem h hist sp j w req e d ds nums Hs Hj Hpc) as (c & l & -> & Hl & Hok).
    cbn [lift mbind outcome_bind]. rewrite Hl. cbn [lift mbind outcome_bind].
    by destruct (cli_AppendEntry _ _ _ _) as [[[c' st] v]| |].
Qed.

(** *** Readers *)

Lemma reader_step_ok rem h hist sp j t slow :
  sim (S rem) h hist sp → h_readers h !! j = Some t →
  match reader_step slow t (h_cons h) (h_rec h) with
  | Ok (t', cl, r) => thread_step rem h hist sp (set_reader h cl r j t')
  | Blocked => True
  | Fault => False
  end.
Proof.
  intros Hs Hj. destruct (sim_at_reader _ _ _ _ _ _ Hs Hj) as [Hth Ht]. pose proof (ro_ops _ Ht) as [Hi Hops].
  pose proof (ro_pc _ Ht) as Hpc'. set (i := (length (h_writers h) + j)%nat) in *.
  pose proof (sm_next _ _ _ _ Hs) as Hn. pose proof (sm_room _ _ _ _ Hs) as Hr.
  assert (sys_inv rem (h_cons h) (h_pipe h) hist) as Hsys by (eapply sys_weaken; [|apply Hs]; lia).
  unfold reader_view in Hth. unfold reader_step. destruct (r_pc t) as [|req|req|req d] eqn:Hpc.
  - destruct (Z.ltb_spec (r_i t) (r_ops t)) as [Hlt|]; [|done].
    eapply (sim_reader rem h hist hist sp _ j t); [done|done| |by apply rtc_once, (step_take sp i (r_id t))|..];
      simpl; try done; try apply Hs; [| |lia].
    + unfold set_phase, reader_view. simpl. by rewrite Hn.
    + rewrite <- Hn, u64_small; [done|lia].
  - eapply (sim_reader rem h hist hist sp _ j t);
      [done|done| |by apply rtc_once, (step_invoke sp i (r_id t) req (CRead (Z.to_nat (r_i t))))|..];
      simpl; try done; try apply Hs; [|lia]. by rewrite (sm_hist _ _ _ _ Hs).
  - pose proof (sys_read M clients pri u n cap Hdims R ip keys _ 0 rem (h_cons h) (h_pipe h) hist slow (r_i t) LogEntry_default Hsys ltac:(lia)) as Hrd.
    destruct (be_ReadEntry _ _ _ _) as [[[be b] e]| |]; [|done..]. simpl. destruct Hrd as [Hd Hsys'].
    eapply (sim_reader rem h hist hist sp _ j t); [done|done|..]; [|eapply rtc_once,
      (step_effect sp i (r_id t) req (CRead (Z.to_nat (r_i t))) (ReadAt (Z.to_nat (r_i t)) (data e))); [done|done|]|..]; simpl.
    + by split.
    + rewrite (sm_log _ _ _ _ Hs). by rewrite decide_True.
    + done.
    + done.
    + done.
    + apply Hs.
    + done.
    + lia.
  - eapply (sim_reader rem h hist hist sp _ j t); [done|done|..]; [|eapply rtc_once,
      (step_respond sp i (r_id t) req _ (mkRecord req (r_id t) RESPONSE OP_READ d (r_i t) [])); [done..|]|..]; simpl.
    + split; simpl; [lia|done].
    + split; [done|]. split; [simpl; lia|done].
    + done.
    + done.
    + apply Hs.
    + by rewrite (sm_hist _ _ _ _ Hs).
    + done.
    + lia.
Qed.

(** ** Runs *)

(** The shuffled replicas are the same ones, and no one else appends. *)
Definition action_ok (a : haction) : Prop :=
  match a with
  | HWriter _ shuffle => ∀ ds, shuffle ds ≡ₚ ds
  | HReader _ _ => True
  | HSystem ev => event_ok M clients ev ∧ ∀ reqs, ev ≠ PAppend reqs
  end.

Lemma hstep_ok rem h hist sp a :
  sim (S rem) h hist sp → action_ok a →
  match hstep a h with
  | Ok h' => thread_step rem h hist sp h'
  | Blocked => True
  | Fault => False
  end.
Proof.
  intros Hs Ha. destruct a as [j shuffle|j slow|ev]; simpl in *.
  - destruct (h_writers h !! j) as [w|] eqn:Hj; [|done].
    pose proof (writer_step_ok rem h hist sp j w shuffle Hs Hj Ha) as Hok. by destruct (writer_step _ _ _ _) as [[[]]| |].
  - destruct (h_readers h !! j) as [t|] eqn:Hj; [|done].
    pose proof (reader_step_ok rem h hist sp j t slow Hs Hj) as Hok. by destruct (reader_step _ _ _ _) as [[[]]| |].
  - destruct Ha as [Hev Hna]. apply sim_weaken in Hs.
    pose proof (sys_step M clients pri ltac:(lia) Hclients u n cap Hdims Hcreate Hwrite R ip keys _ 0 rem (h_cons h) (h_pipe h) hist ev (sm_sys _ _ _ _ Hs) Hev Hna) as Hok.
    destruct (pipe_step _ _ _) as [[cl p]| |]; [|done..]. simpl. exists hist, sp. split; [done|]. by destruct Hs; split.
Qed.

Lemma hrun_ok acts rem h hist sp :
  sim (length acts + rem) h hist sp → Forall action_ok acts →
  ∃ h' hist' sp', hrun acts h = Ok h' ∧ rtc spec_step sp sp' ∧ sim rem h' hist' sp'.
Proof.
  revert h hist sp. induction acts as [|a acts IH]; intros h hist sp Hs Ha; simpl in *; [by exists h, hist, sp|].
  apply Forall_cons in Ha as [Ha Has]. pose proof (hstep_ok _ _ _ _ a Hs Ha) as Hok.
  destruct (hstep a h) as [h1| |]; [| |done].
  - destruct Hok as (hist1 & sp1 & Hst & Hs1). destruct (IH _ _ _ Hs1 Has) as (h' & hist' & sp' & Hr & Hst' & Hs').
    exists h', hist', sp'. split; [done|]. split; [by etrans|done].
  - apply (IH _ _ _ (sim_weaken _ _ _ _ Hs) Has).
Qed.

(** ** The start *)

(** A writer's client: its connections and its id. *)
Definition client_ok (c : Conns ErpcCli * Z) : Prop :=
  NoDup c.1.*1 ∧ c.1.*1 ⊆ keys ∧ pri ∈ c.1.*1 ∧ Forall (conn_ok 40 pri) c.1 ∧
  c.2 ∈ clients ∧ 0 ≤ c.2 < 2 ^ 64.

Lemma main_writers_ok cli count nw :
  0 ≤ nw ≤ 100 → count ≤ 100000 → (∀ i, 0 ≤ i < nw → client_ok (cli i)) →
  Forall writer_ok (main_writers cli count nw) ∧ w_id <$> main_writers cli count nw = Z.of_nat <$> seq 0 (Z.to_nat nw) ∧
  Forall (λ w, w_pc w = WNext) (main_writers cli count nw).
Proof.
  intros Hnw Hcount Hcli. unfold main_writers. split; [|split].
  - apply Forall_fmap, Forall_seq. intros i Hi. simpl in Hi.
    destruct (Hcli (Z.of_nat i) ltac:(lia)) as (Hnd & Hsub & Hpri & Hconn & Hid & Hid'). split; simpl; try done; lia.
  - by rewrite <- list_fmap_compose.
  - apply Forall_fmap, Forall_true. done.
Qed.

Lemma main_readers_ok count total nw :
  count * nw < 2 ^ 64 →
  Forall reader_ok (main_readers count total nw) ∧
  r_id <$> main_readers count total nw = (λ i, nw + Z.of_nat i) <$> seq 0 (Z.to_nat (total - nw)) ∧
  Forall (λ t, r_pc t = RNext) (main_readers count total nw).
Proof.
  intros Hops. unfold main_readers. split; [|split].
  - apply Forall_fmap, Forall_true. intros i. by split.
  - by rewrite <- list_fmap_compose.
  - apply Forall_fmap, Forall_true. done.
Qed.

(** All threads of [main] have different ids. *)
Lemma thread_ids_distinct nw total :
  0 ≤ nw →
  NoDup ((Z.of_nat <$> seq 0 (Z.to_nat nw)) ++ ((λ i, nw + Z.of_nat i) <$> seq 0 (Z.to_nat (total - nw)))).
Proof.
  clear HM Hip Hclients. intros Hnw. apply list.NoDup_app. split; [|split].
  - apply NoDup_fmap_2; [apply _|apply NoDup_seq].
  - intros x (i & -> & Hi)%list_elem_of_fmap (j & Hj & _)%list_elem_of_fmap. apply elem_of_seq in Hi. lia.
  - apply NoDup_fmap_2; [|apply NoDup_seq]. intros i j Hij. lia.
Qed.

Lemma start_views ws ts :
  Forall (λ w, w_pc w = WNext) ws → Forall (λ t, r_pc t = RNext) ts →
  views ws ts = (λ a, (a, Idle)) <$> (w_id <$> ws) ++ (r_id <$> ts).
Proof.
  intros Hws Hts. unfold views. rewrite fmap_app, <- !list_fmap_compose. f_equal; apply list_fmap_ext.
  - intros i w Hw. unfold writer_view. simpl. by rewrite (Forall_lookup_1 _ _ _ _ Hws Hw).
  - intros i t Ht. unfold reader_view. simpl. by rewrite (Forall_lookup_1 _ _ _ _ Hts Ht).
Qed.
End Sim.

(** ** Claims *)

(** The threads of [main] at the start. *)
Lemma main_sim M clients pri u n cap R ip keys cl cli count total nw rem :
  0 ≤ nw ≤ 100 → count ≤ 100000 → count * nw < 2 ^ 64 → Z.of_nat rem < 2 ^ 32 →
  sys_inv M clients pri u n cap R ip keys (λ e, entry_size e = 40) 0 rem cl Pipeline_init [] →
  (∀ i, 0 ≤ i < nw → client_ok clients pri keys (cli i)) →
  ∃ ids, NoDup ids ∧
    sim M clients pri u n cap R ip keys rem
      (mkHarness cl Pipeline_init Recorder_init (main_writers cli count nw) (main_readers count total nw))
      [] (Spec_init ids).
Proof.
  intros Hnw Hc Hops Hrem Hsys Hcli.
  destruct (main_writers_ok clients pri keys cli count nw Hnw Hc Hcli) as (Hws & Hwi & Hwp).
  destruct (main_readers_ok count total nw Hops) as (Hts & Hti & Htp).
  eexists. split; [apply (thread_ids_distinct nw total); lia|]. split; simpl; try done.
  - lia.
  - by rewrite (start_views pri _ _ Hwp Htp), Hwi, Hti.
Qed.

Lemma client_up_ok clients pri keys c : client_up 40 clients pri keys c → client_ok clients pri keys c.
Proof.
  intros Hc. destruct (client_up_conns _ _ _ _ _ Hc) as (Hnd & Hsub & Hpri & Hconn & _). do 4 (split; [done|]).
  exact (cu_id _ _ _ _ _ Hc).
Qed.

(** The parameters of a run: the options of the client, its threads and the actions. *)
Record main_ok (M : Z) (clients : list Z) (pri : string) (keys : list string) (p : Properties) (scaled : Z)
    (some : bool) (cli : Z → Conns ErpcCli * Z) (acts : list haction) : Prop := {
  mo_count : match ops_per_thread p, total_threads p with
             | Some count, Some total =>
                 let nw := num_writers total scaled some in
                 0 ≤ nw ≤ 100 ∧ count ≤ 100000 ∧ ∀ i, 0 ≤ i < nw → client_up 40 clients pri keys (cli i)
             | _, _ => False
             end;
  mo_acts : Forall (action_ok M clients) acts
}.

Section Runs.
Context `{Posix, Erpc, Rdma} (M : Z) (clients : list Z) (pri : string).
Context (HM : 40 ≤ M ≤ SAFE_RG_SIZE + 4) (Hclients : lenZ clients < 2 ^ 32).
Context (u n : nat) (cap : Z) (Hdims : dims M u n cap).
Context (Hcreate : ∀ p, may_create p = true) (Hwrite : ∀ j, write_len j = j).

Lemma main_run mr msg pc replica shard raw env env' cl p scaled some cli acts :
  cluster_ok M clients pri u n cap mr msg pc replica shard →
  ConsensusLog_Initialize pc replica shard raw env = Ok (env', Some cl) →
  main_ok M clients pri (replica_uris pc) p scaled some cli acts → Z.of_nat (length acts) < 2 ^ 32 →
  ∃ R ip keys h0 h log sp, main_harness p scaled some cli cl Pipeline_init = Some h0 ∧ hrun acts h0 = Ok h ∧
    spec_inv sp ∧ sim M clients pri u n cap R ip keys 0 h log sp.
Proof.
  intros Hco Hini [Hcount Hacts] Hlen. unfold main_harness.
  destruct (sys_start _ _ _ _ _ _ _ _ _ _ _ _ _ _ _ (λ e, entry_size e = 40) (length acts + 0) Hco Hini ltac:(lia))
    as (ip & Hip & Hsys).
  destruct (ops_per_thread p) as [count|]; [|done]. destruct (total_threads p) as [total|]; [|done]. simpl.
  destruct Hcount as (Hnw & Hc & Hcli). set (nw := num_writers total scaled some) in *.
  destruct (main_sim _ _ _ _ _ _ _ _ _ _ cli count total nw (length acts + 0) Hnw Hc ltac:(nia) ltac:(lia) Hsys)
    as (ids & Hnd & Hs0); [intros i Hi; by apply client_up_ok, Hcli|].
  destruct (hrun_ok M clients pri HM Hclients u n cap Hdims Hcreate Hwrite _ _ _ Hip acts 0 _ _ _ Hs0 Hacts)
    as (h & log & sp & Hrun & Hst & Hs).
  eexists _, ip, _, _, h, log, sp. split; [done|]. split; [done|]. split; [|done].
  exact (spec_run_inv _ _ Hst (Spec_init_inv ids Hnd)).
Qed.
End Runs.

(** C2. The test client sees an atomic log.  Its writers and readers, connected to the
    replicas by their configurations, run against the system that [ConsensusLog::Initialize]
    has set up from freshly started replicas and shards, in any interleaving of their steps
    with each other, with the two threads of the consensus log and with the garbage
    collection, and with the replicas of each write in any order.  Nothing goes wrong, and the history
    that the client records is well formed and linearizable: there is one order of the
    writes and reads in which each append gets the next index and each read returns the
    entry at its index, as recorded, ending in the log of the primary replica, and an
    operation that was invoked after another had returned comes after it. *)
Theorem history_linearizable `{Posix, Erpc, Rdma} M clients pri u n cap mr msg pc replica shard raw env env' cl p scaled some cli acts :
  40 ≤ M ≤ SAFE_RG_SIZE + 4 → lenZ clients < 2 ^ 32 → dims M u n cap →
  (∀ p, may_create p = true) → (∀ j, write_len j = j) →
  cluster_ok M clients pri u n cap mr msg pc replica shard →
  ConsensusLog_Initialize pc replica shard raw env = Ok (env', Some cl) →
  main_ok M clients pri (replica_uris pc) p scaled some cli acts → Z.of_nat (length acts) < 2 ^ 32 →
  ∃ h0 h l log k lin,
    main_harness p scaled some cli cl Pipeline_init = Some h0 ∧ hrun acts h0 = Ok h ∧
    link_at pri (dur_cli_ (h_cons h)) = Some l ∧ flat_repr (l_svr l) log k ∧
    well_formed (global_history (h_rec h)) ∧ linearizes (global_history (h_rec h)) lin (data <$> log).
Proof.
  intros HM Hcl Hd Hcr Hw Hco Hini Hmain Hacts.
  destruct (main_run M clients pri HM Hcl u n cap Hd Hcr Hw mr msg pc replica shard raw env env' cl p scaled some cli acts
    Hco Hini Hmain Hacts) as (R & ip & keys & h0 & h & log & sp & H0' & Hrun & Hsp & Hs).
  destruct (sys_primary M clients pri u n cap R _ _ _ _ _ _ _ _ (sm_sys _ _ _ _ _ _ _ _ _ _ _ _ _ Hs)) as (l & k & Hl & Hr & _).
  exists h0, h, l, log, k, (sp_lin sp).
  rewrite <- (sm_hist _ _ _ _ _ _ _ _ _ _ _ _ _ Hs), <- (sm_log _ _ _ _ _ _ _ _ _ _ _ _ _ Hs).
  split; [done|]. split; [done|]. split; [done|]. split; [apply Hr|]. split; apply Hsp.
Qed.

(** The steps of the consensus log in a run of the client. *)
Lemma hrun_system `{Posix, Erpc, Rdma} evs h cl p :
  pipe_run evs (h_cons h) (h_pipe h) = Ok (cl, p) →
  hrun (HSystem <$> evs) h = Ok (mkHarness cl p (h_rec h) (h_writers h) (h_readers h)).
Proof.
  revert h. induction evs as [|ev evs IH]; intros h Hrun; simpl in *.
  - injection Hrun as <- <-. by destruct h.
  - destruct (pipe_step ev _ _) as [[cl1 p1]| |]; [|by apply IH|done]. simpl.
    exact (IH (mkHarness cl1 p1 (h_rec h) (h_writers h) (h_readers h)) Hrun).
Qed.

(** C7. What was written can be read.  After any run of the test client as above, once
    every replica has received an entry, and if the fetch bound of the consensus log is zero
    or at least the size [M] of an entry, the threads of the consensus log can go on,
    without further appends and whatever is under way, to a state where for every write
    that has returned, a read of the index that it returned yields its payload. *)
Theorem completed_writes_readable `{Posix, Erpc, Rdma} M clients pri u n cap mr msg pc replica shard raw env env' cl p scaled some cli acts :
  40 ≤ M ≤ SAFE_RG_SIZE + 4 → lenZ clients < 2 ^ 32 → dims M u n cap →
  (∀ p, may_create p = true) → (∀ j, write_len j = j) →
  cluster_ok M clients pri u n cap mr msg pc replica shard →
  ConsensusLog_Initialize pc replica shard raw env = Ok (env', Some cl) →
  main_ok M clients pri (replica_uris pc) p scaled some cli acts → Z.of_nat (length acts) < 2 ^ 32 →
  ∃ h0 h, main_harness p scaled some cli cl Pipeline_init = Some h0 ∧ hrun acts h0 = Ok h ∧
    (max_fetch_size_ (h_cons h) = 0 ∨ M ≤ max_fetch_size_ (h_cons h) →
     started (h_cons h) →
     ∃ more h', Forall (λ ev, event_appends ev = 0%nat) more ∧ hrun (HSystem <$> more) h = Ok h' ∧
       global_history (h_rec h') = global_history (h_rec h) ∧
       ∀ t r t0 r0 z slow e0, global_history (h_rec h) !! t = Some r → global_history (h_rec h) !! t0 = Some r0 →
         responds r → op_type r = OP_WRITE → head (seq_nums r) = Some z → invokes r0 → req_id r0 = req_id r →
         ∃ be e, be_ReadEntry (backend_ (h_cons h')) slow z e0 = Ok (be, true, e) ∧ data e = value r0).
Proof.
  intros HM Hcl Hd Hcr Hw Hco Hini Hmain Hacts.
  destruct (main_run M clients pri HM Hcl u n cap Hd Hcr Hw mr msg pc replica shard raw env env' cl p scaled some cli acts
    Hco Hini Hmain Hacts) as (R & ip & keys & h0 & h & log & sp & H0' & Hrun & Hsp & Hs).
  exists h0, h. split; [done|]. split; [done|]. intros Hmax Hst.
  assert (∀ t r t0 r0 z, global_history (h_rec h) !! t = Some r → global_history (h_rec h) !! t0 = Some r0 →
    responds r → op_type r = OP_WRITE → head (seq_nums r) = Some z → invokes r0 → req_id r0 = req_id r →
    ∃ i e, z = Z.of_nat i ∧ log !! i = Some e ∧ data e = value r0) as Hwritten.
  { rewrite <- (sm_hist _ _ _ _ _ _ _ _ _ _ _ _ _ Hs). intros t r t0 r0 z Ht Ht0 Hrs Hop Hz Hin Hq.
    destruct (written_entry _ _ _ t r t0 r0 z (si_wf _ Hsp) (si_lin _ Hsp) Ht Hrs Hop Hz Ht0 Hin Hq) as (i & -> & Hlk).
    rewrite (sm_log _ _ _ _ _ _ _ _ _ _ _ _ _ Hs), list_lookup_fmap in Hlk.
    destruct (log !! i) as [e|] eqn:He; [|done]. exists i, e. split; [done|]. split; [done|]. by injection Hlk. }
  destruct (decide (log = [])) as [->|Hne].
  { exists [], h. split; [constructor|]. split; [done|]. split; [done|]. intros t r t0 r0 z slow e0 Ht Ht0 Hrs Hop Hz Hin Hq.
    by destruct (Hwritten _ _ _ _ _ Ht Ht0 Hrs Hop Hz Hin Hq) as (i & e & _ & ? & _). }
  destruct (sys_drain M clients pri ltac:(lia) Hcl u n cap Hd Hcr Hw R _ _ _ _ _ _ _ _
    (sm_sys _ _ _ _ _ _ _ _ _ _ _ _ _ Hs) Hst Hne Hmax) as (more & cl2 & p2 & Hmore & Hrun2 & Hdone).
  exists more. eexists. split; [done|]. split; [by apply hrun_system|]. split; [done|].
  intros t r t0 r0 z slow e0 Ht Ht0 Hrs Hop Hz Hin Hq. simpl.
  destruct (Hwritten _ _ _ _ _ Ht Ht0 Hrs Hop Hz Hin Hq) as (i & e & -> & He & Hde).
  destruct (sys_done_read M clients pri u n cap Hd R _ _ _ _ slow i e e0 Hdone He) as (be & Hbe & _). by exists be, e.
Qed.

(** A client with one writer and one reader, on the small cluster. *)
Definition test_conns (i : Z) : Conns ErpcCli * Z := (small_conns, 42).

Definition test_props : Properties := <["count"%string := "1"%string]> (<["threads"%string := "2"%string]> ∅).

(** The writer appends at the backup first; the fetch runs before the primary has the
    entry and again after, and the read waits until the entry is published. *)
Definition test_acts : list haction :=
  let w := HWriter 0 (λ ds, rev ds) in
  [w; w; w; HReader 0 false; HReader 0 false; HSystem PFetchRange; HSystem PFetchEntries; w; HReader 0 false;
   HSystem PFetchRange; w; HSystem PFetchEntries; HSystem (PStore true); HSystem (PDelete (λ _, 1%nat));
   HSystem PPoll; HReader 0 true; HSystem PPoll; HReader 0 false; HReader 0 false].

Lemma test_main_ok :
  main_ok 1000 [42; 43] "p:1" (replica_uris small_cluster) test_props 1 true test_conns test_acts.
Proof.
  split.
  - assert (ops_per_thread test_props = Some 1) as -> by (by vm_compute).
    assert (total_threads test_props = Some 2) as -> by (by vm_compute). change (num_writers 2 1 true) with 1.
    split; [lia|]. split; [lia|]. intros i _. apply small_conns_up; [lia|set_solver|lia].
  - assert (∀ ds : list string, rev ds ≡ₚ ds) as Hrev by (intros ds; symmetry; apply Permutation_rev).
    repeat constructor; try done.
Qed.

(** What the client records in this run: the write and the read overlap. *)
Example test_history :
  match main_harness test_props 1 true test_conns started_system Pipeline_init with
  | Some h0 =>
      match hrun test_acts h0 with
      | Ok h => global_history (h_rec h) =
          [mkRecord 0 0 INVOKE OP_WRITE (text "00_00000") (-1) []; mkRecord 1 1 INVOKE OP_READ [] (-1) [];
           mkRecord 0 0 RESPONSE OP_WRITE [] 0 [0; 0]; mkRecord 1 1 RESPONSE OP_READ (text "00_00000") 0 []]
      | _ => False
      end
  | None => False
  end.
Proof. by vm_compute. Qed.

Lemma history_linearizable_witness :
  ∃ h0 h l log k lin,
    main_harness test_props 1 true test_conns started_system Pipeline_init = Some h0 ∧ hrun test_acts h0 = Ok h ∧
    link_at "p:1" (dur_cli_ (h_cons h)) = Some l ∧ flat_repr (l_svr l) log k ∧
    well_formed (global_history (h_rec h)) ∧ linearizes (global_history (h_rec h)) lin (data <$> log).
Proof.
  destruct started_system_ok as [env' Hini].
  apply (history_linearizable 1000 [42; 43] "p:1" 2 2 2048 1 8192 small_cluster small_replica small_shard ∅
    RpcEnv_init env' started_system test_props 1 true test_conns test_acts).
  - clear Hini. done.
  - clear Hini. done.
  - exact small_dims.
  - clear Hini. done.
  - clear Hini. done.
  - exact small_cluster_ok.
  - exact Hini.
  - exact test_main_ok.
  - clear Hini. done.
Defined.

Lemma completed_writes_readable_witness :
  ∃ h0 h, main_harness test_props 1 true test_conns started_system Pipeline_init = Some h0 ∧ hrun test_acts h0 = Ok h ∧
    (max_fetch_size_ (h_cons h) = 0 ∨ 1000 ≤ max_fetch_size_ (h_cons h) →
     started (h_cons h) →
     ∃ more h', Forall (λ ev, event_appends ev = 0%nat) more ∧ hrun (HSystem <$> more) h = Ok h' ∧
       global_history (h_rec h') = global_history (h_rec h) ∧
       ∀ t r t0 r0 z slow e0, global_history (h_rec h) !! t = Some r → global_history (h_rec h) !! t0 = Some r0 →
         responds r → op_type r = OP_WRITE → head (seq_nums r) = Some z → invokes r0 → req_id r0 = req_id r →
         ∃ be e, be_ReadEntry (backend_ (h_cons h')) slow z e0 = Ok (be, true, e) ∧ data e = value r0).
Proof.
  destruct started_system_ok as [env' Hini].
  apply (completed_writes_readable 1000 [42; 43] "p:1" 2 2 2048 1 8192 small_cluster small_replica small_shard ∅
    RpcEnv_init env' started_system test_props 1 true test_conns test_acts).
  - clear Hini. done.
  - clear Hini. done.
  - exact small_dims.
  - clear Hini. done.
  - clear Hini. done.
  - exact small_cluster_ok.
  - exact Hini.
  - exact test_main_ok.
  - clear Hini. done.
Defined.

(** ** Entries of another size *)

(** [AppendEntry] divides the byte positions by forty, the size of the entries above.  With
    payloads of four bytes, two writes get the same number. *)
Example numbers_of_small_entries :
  let c := mkClient [("p"%string, mkCliLink (mkCli true (Buf 8192 ∅) [] false false [] ∅) pri_log test_resp None)]
             "p" two_shards 42 0 1 in
  match LazyLogClient_AppendEntry (λ ds, ds) c (text "abcd") with
  | Ok (c, nums) =>
      match LazyLogClient_AppendEntry (λ ds, ds) c (text "efgh") with
      | Ok (_, nums') => nums = [0] ∧ nums' = [0]
      | _ => False
      end
  | _ => False
  end.
Proof. by vm_compute. Qed.
